(* ===== verification/_CoqProject ===== *)
-Q . S2P
Prelude.v
Pthread.v
Store.v
Wakeup.v
Threadpool.v
ThreadpoolApi.v
ThreadpoolRun.v
ThreadpoolInv.v
ThreadpoolSafe.v
ThreadpoolProps.v
ThreadpoolLive.v
ThreadpoolTerm.v
Thpool.v
ThpoolApi.v
ThpoolRun.v
ThpoolInv.v
ThpoolSafe.v
ThpoolProps.v
ThpoolLive.v
Pausable.v
ThpoolPause.v
CppPool.v
CppPoolRun.v
CppPoolInv.v
CppPoolAcc.v
CppPoolProps.v
CppPoolLive.v
CppPoolOwner.v
CppLog.v
ThreadPoolDemo.v
Workqueue.v
WorkqueueRun.v
WorkqueueProps.v
WorkqueueLive.v
EchoServer.v
EchoQueue.v
EchoLive.v
EchoKill.v
EpollPool.v
EpollPoolRun.v
EpollPoolProps.v
EpollPoolLive.v
Epoll.v
ChatServer.v
EpollExample.v
EchoEpoll.v
EpollThreads.v
WorkerThreads.v
Sockets.v
SocketPrograms.v
Exercises.v
