(* ===== verification/Prelude.v ===== *)
(** * Verification of the thread pools and servers of the "study" repository

    The repository collects C and C++ programs about concurrency and networks.
    Its own logic is in four thread pools, one work queue, one program of
    batches, and a dozen servers and clients; this library models them and proves
    what they guarantee, and, where they do not do what they mean to, that they
    do not.

    ** The common layer

    - [Prelude]: outcomes of C code ([Done], [Blocked], [Fault] for undefined
      behaviour), machine integers, arrays indexed by an [int], counting and
      gathering over lists of threads, tactics ([inv_res], [split_matches],
      [inv_blocked], [bools]) and the hint database [study].
    - [Pthread]: mutexes, condition variables, and the machine that interleaves
      threads.  A program is an instance of the class [Program]: the step of one
      thread between two calls of the library, on a shared state and its own
      position.  Which thread runs, which one a signal wakes, spurious wakeups and
      the results of calls are chosen by the environment.  The file has rule
      induction on reachability ([invariant_reachable]), what a step does to the
      other threads ([effect_on]), and the class [Locking], by which a program
      promises to follow the discipline of a mutex, with its consequences:
      mutual exclusion, no leak, and leaks that are never repaired.
    - [Store]: the class [JobStore], what a pool relies on from the structure
      that holds its pending jobs (first-in first-out or last-in first-out,
      bounded or not), and the refinement of the list specification by any
      implementation.  The ring of [threadpool.c], the linked queues of
      [thpool.c] and [server_epoll_pthread_pool.c] and the list of [workqueue.c]
      are instances; the proofs about threads use the class.
    - [Wakeup]: the class [Alerting], by which a pool promises that it signals its
      condition variable for each job it adds; from it, and whatever the store of
      the jobs, that no job is stranded while a worker sleeps, and what a
      configuration looks like in which no thread can go on.  [WorkqueueLive],
      [EchoLive] and [EpollPoolLive] are its clients.
    - [Pausable]: the signal that pauses the threads of a pool, as a layer over
      the machine of [Pthread]: which threads have the signal pending, which are
      in the handler, and the flag the handler polls.  The steps of the paused
      program are those of the program (projection), and a thread in the handler
      stays where it was.
    - [Epoll]: descriptors, one epoll instance, and the loop over the events of a
      batch ([for_events]).

    ** The programs

    - threadpool/threadPool1/src/threadpool.c (and its copy threadpool-master):
      [Threadpool] has the structures, the ring and the body of each function;
      [ThreadpoolApi] the functions as they are called by one thread;
      [ThreadpoolRun] all the threads; [ThreadpoolInv] and [ThreadpoolSafe] the
      invariants; [ThreadpoolProps] safety (no undefined behaviour but by misuse,
      the well-formed pool and its mutual exclusion, each task exactly once, what
      holds when the pool is freed, the mutex that a second destruction keeps); [ThreadpoolLive] deadlock freedom and no lost
      wakeup; [ThreadpoolTerm] termination by a measure.
    - threadpool/c-Thread-Pool-master/thpool.c: [Thpool] has the linked queue on a
      heap, its ownership, and the intervals of the polling of thpool_wait;
      [ThpoolApi] the refinement of the list and the boundary cases; [ThpoolRun],
      [ThpoolInv], [ThpoolSafe], [ThpoolProps] and [ThpoolLive] the threads, with
      the use after free of thpool_destroy and the proof that the binary
      semaphore strands no job.  [ThpoolPause] puts thpool_pause, thpool_resume
      and the handler thread_hold on top: pausing changes nothing the other
      theorems are about, thpool_pause stops the workers, and what a worker
      stopped at the wrong place blocks.
    - threadpool/threadPool2/ThreadPool.cpp and .h (and the copies in
      ThreadPoolDemo): [CppPool] has the object and a definition per method,
      [CppPoolRun] the users and the workers, a critical section being one step;
      [CppPoolInv] and [CppPoolAcc] the invariants; [CppPoolProps] the exact
      accounting of the counters and of the semaphore, and requests executed
      once; [CppPoolLive] what the end of the work and Destroy guarantee, and two
      ways to hang; [CppPoolOwner] the phases of a pool that one thread uses,
      whatever fails.  [CppLog] has the requests, the loggers and the round trip
      of log lines.
    - threadpool/threadPool2/ThreadPoolDemo: [ThreadPoolDemo] puts the dialog of
      ThreadPoolDemoDlg.cpp and the requests of Request.cpp on that pool.  Dialog
      and workers share the requests: none is used after it has been deleted.
    - libevent-thread/workqueue.c: [Workqueue] (list macros), [WorkqueueRun]
      (threads), [WorkqueueProps] (jobs once; a worker that terminates keeps the
      mutex; shutdown reads freed workers), [WorkqueueLive] (no job is stranded).
    - libevent-thread/echoserver_threaded.c: [EchoServer], the resources of a
      connection on every path, the echo of the buffers over an interface of
      libevent's buffers ([EvBuffer]), and runServer.  [EchoQueue] puts it on the
      work queue above: the resources held are those of the connections not yet
      served, for any store of jobs; [EchoLive] that they are all served, and
      [EchoKill] what killServer, run by a signal handler on the stack of any
      thread, can do: a deadlock.
    - epoll/server_epoll_pthread_pool.c: [EpollPool] (the list), [EpollPoolRun]
      (threads), [EpollPoolProps] (tasks once and in order; a lost wakeup of
      poolDestroy), [EpollPoolLive] (no task is stranded, though the signal comes
      after the unlock).  [ChatServer]: the server of the same file up to its loop,
      what the loop does with one event, and the job of a message; its array of
      clients fills up, and a message goes to all of them.
    - epoll/epoll-example.c: [EpollExample]; epoll/server.c: [EchoEpoll];
      epoll/epoll_threadpool.c: [EpollThreads].  The system calls are functions of
      their answers, which are arguments; the theorems hold for all answers.
    - WorkerThreads.c: [WorkerThreads].
    - network_programming (multi_server.c, server.c, client.c), epoll/client.c and
      epoll/epoll_input.c: [Sockets], character arrays with the bytes that were
      never written, and the loops; [SocketPrograms], main of each of them from
      its first call, and epoll/conntest.c.
    - libevent_study/libevent1.c, libevent_study/test.c and valgrind/sample.c:
      [Exercises].

    ** How steps correspond to the code

    In the programs with threads, a constructor of the local state ([local],
    [tlocal], [wlocal], [qlocal], [plocal], [point]) is a program point just
    before a call of the thread library or an access that another thread can
    observe; a step executes the code from there up to the next point.  Fields
    that only serve statements (the jobs added, taken and executed) are never
    read by the steps.  Loops of the programs are steps that come back to their
    point, so that no fuel is needed; in the sequential parts the fuel is the
    number of nodes, bytes or answers, and the theorems say that it is enough or
    are stated for every list of answers.

    ** Not modelled

    - In [Pausable]: a second signal while the handler runs (the fields sa_mask
      and sa_flags are not initialised in thpool.c; the signal is taken to be
      blocked in its own handler), and a failure of sigaction.  In [EchoKill]: a
      signal that interrupts the handler of another.
    - In ThreadPool.cpp: memory refused to the strings of the log, which the catch
      handlers turn into failures; and the use of a pool after its destructor.
    - In server_epoll_pthread_pool.c: the loop of main over a batch of events,
      whose header is cut off in the file; the bound of the loops of myprocess is
      cut off as well and is an argument.
    - The painting, the menus and the exchange of text fields of ThreadPoolDemo,
      on MFC; the exercises timer_libevent/evtimer.c, network_programming/test3.c
      and testpid.c, which have no logic of their own; the tests and the example
      of the pools, since the theorems hold for any client.
    - The memory model below the steps: accesses without a lock are atomic and
      sequentially consistent, and a failed call has no other effect than its
      result. *)

From Stdlib Require Export ZArith Lia Permutation.
From stdpp Require Export base decidable numbers list gmap sets.

(** ** Outcomes of C code

    A piece of C code either completes with a value, cannot run now because it
    blocks (a mutex held by another thread, a join on a live thread), or has
    undefined behaviour (an access to freed or uninitialised memory, an index
    out of bounds, a signed overflow). *)

Inductive res (A : Type) : Type :=
  | Done (a : A)
  | Blocked
  | Fault.
Arguments Done {A} a.
Arguments Blocked {A}.
Arguments Fault {A}.

#[export] Instance res_ret : MRet res := @Done.
#[export] Instance res_bind : MBind res :=
  λ A B f m, match m with Done a => f a | Blocked => Blocked | Fault => Fault end.
#[export] Instance res_eq_dec `{EqDecision A} : EqDecision (res A).
Proof. solve_decision. Defined.

(** [check b ;; k]: undefined behaviour unless [b] holds. *)
Definition check (b : bool) : res unit := if b then Done tt else Fault.

Lemma bind_Done {A B} (f : A → res B) (m : res A) (b : B) :
  m ≫= f = Done b ↔ ∃ a, m = Done a ∧ f a = Done b.
Proof. destruct m; cbn; naive_solver. Qed.

Lemma bind_no_fault {A B} (f : A → res B) (m : res A) :
  m ≠ Fault → (∀ a, m = Done a → f a ≠ Fault) → m ≫= f ≠ Fault.
Proof. destruct m; cbn; naive_solver. Qed.

Lemma bind_Blocked {A B} (f : A → res B) (m : res A) :
  m ≫= f = Blocked → m = Blocked ∨ ∃ a, m = Done a ∧ f a = Blocked.
Proof. destruct m; cbn; naive_solver. Qed.

Lemma check_not_blocked b : check b ≠ Blocked.
Proof. by destruct b. Qed.

Lemma check_Done b u : check b = Done u ↔ b = true.
Proof. destruct b, u; cbn; naive_solver. Qed.

(** ** Machine integers *)

Definition INT_MAX : Z := 2147483647.
Definition INT_MIN : Z := -2147483648.
Definition is_int (z : Z) : bool := (INT_MIN <=? z)%Z && (z <=? INT_MAX)%Z.

(** The value of a signed [int] expression whose mathematical value is [z]:
    undefined behaviour when it does not fit. *)
Definition int_of (z : Z) : res Z := if is_int z then Done z else Fault.

Lemma is_int_spec z : is_int z = true ↔ (INT_MIN <= z <= INT_MAX)%Z.
Proof. unfold is_int. lia. Qed.

Lemma int_of_fits z : (INT_MIN <= z <= INT_MAX)%Z → int_of z = Done z.
Proof. intros H. unfold int_of. by rewrite (proj2 (is_int_spec z) H). Qed.

Lemma int_of_not_blocked z : int_of z ≠ Blocked.
Proof. unfold int_of. by case_match. Qed.

Lemma int_of_Done z z' : int_of z = Done z' ↔ z' = z ∧ (INT_MIN <= z <= INT_MAX)%Z.
Proof.
  unfold int_of. destruct (is_int z) eqn:E.
  - apply is_int_spec in E. naive_solver.
  - split; [done|]. intros [_ H]. apply is_int_spec in H. congruence.
Qed.

(** [size_t] arithmetic and the largest object [malloc] ever returns. *)
Definition SIZE_MOD : Z := 18446744073709551616.
Definition PTRDIFF_MAX : Z := 9223372036854775807.
Definition to_size_t (z : Z) : Z := (z mod SIZE_MOD)%Z.
Definition size_mul (a b : Z) : Z := to_size_t (to_size_t a * to_size_t b).

(** [malloc size] when the allocator is willing ([granted]) to serve the
    request: a request above [PTRDIFF_MAX] bytes always yields [NULL]. *)
Definition malloc_succeeds (granted : bool) (size : Z) : bool :=
  granted && (size <=? PTRDIFF_MAX)%Z.

(** ** Arrays indexed by an [int] *)

Section arrays.
Context {A : Type}.

Definition arr_get (l : list A) (i : Z) : res A :=
  if (0 <=? i)%Z then
    match l !! Z.to_nat i with Some a => Done a | None => Fault end
  else Fault.

Definition arr_set (l : list A) (i : Z) (a : A) : res (list A) :=
  if (0 <=? i)%Z && (i <? Z.of_nat (length l))%Z then Done (<[Z.to_nat i := a]> l) else Fault.

(** A cell of a freshly allocated array is [None]: reading it is undefined. *)
Definition arr_read (l : list (option A)) (i : Z) : res A :=
  if (0 <=? i)%Z then
    match l !! Z.to_nat i with Some (Some a) => Done a | _ => Fault end
  else Fault.

Lemma arr_get_in (l : list A) i a :
  (0 <= i)%Z → l !! Z.to_nat i = Some a → arr_get l i = Done a.
Proof. intros Hi Hl. unfold arr_get. rewrite (proj2 (Z.leb_le 0 i)), Hl; done. Qed.

Lemma arr_get_Done (l : list A) i a :
  arr_get l i = Done a ↔ (0 <= i)%Z ∧ l !! Z.to_nat i = Some a.
Proof. unfold arr_get. repeat case_match; try lia; naive_solver lia. Qed.

Lemma arr_set_in (l : list A) i a :
  (0 <= i < Z.of_nat (length l))%Z → arr_set l i a = Done (<[Z.to_nat i := a]> l).
Proof. intros Hi. unfold arr_set. case_match; [done|lia]. Qed.

Lemma arr_get_not_blocked (l : list A) i : arr_get l i ≠ Blocked.
Proof. unfold arr_get. by repeat case_match. Qed.

Lemma arr_set_not_blocked (l : list A) i a : arr_set l i a ≠ Blocked.
Proof. unfold arr_set. by case_match. Qed.

Lemma arr_set_Done (l l' : list A) i a :
  arr_set l i a = Done l' ↔ (0 <= i < Z.of_nat (length l))%Z ∧ l' = <[Z.to_nat i := a]> l.
Proof. unfold arr_set. case_match; naive_solver lia. Qed.
End arrays.

Section arr_read.
Context {A : Type}.

Lemma arr_read_in (l : list (option A)) i a :
  (0 <= i)%Z → l !! Z.to_nat i = Some (Some a) → arr_read l i = Done a.
Proof. intros Hi Hl. unfold arr_read. rewrite (proj2 (Z.leb_le 0 i)), Hl; done. Qed.

Lemma arr_read_not_blocked (l : list (option A)) i : arr_read l i ≠ Blocked.
Proof. unfold arr_read. by repeat case_match. Qed.

Lemma arr_read_Done (l : list (option A)) i a :
  arr_read l i = Done a ↔ (0 <= i)%Z ∧ l !! Z.to_nat i = Some (Some a).
Proof. unfold arr_read. repeat case_match; try lia; naive_solver lia. Qed.
End arr_read.

Lemma destruct_last {A} (l : list A) : l = [] ∨ ∃ x l', l = l' ++ [x].
Proof. destruct l as [|x l _] using rev_ind; eauto. Qed.

(** ** Counting and gathering over the threads of a machine *)

Section counting.
Context {A : Type}.
Implicit Types (f : A → bool) (l : list A).

Fixpoint count_if f l : nat :=
  match l with [] => 0 | x :: l => Nat.b2n (f x) + count_if f l end.

Lemma count_if_app f l k : count_if f (l ++ k) = count_if f l + count_if f k.
Proof. induction l as [|x l IH]; cbn; lia. Qed.

Lemma count_if_insert f l i x y :
  l !! i = Some x →
  count_if f (<[i := y]> l) + Nat.b2n (f x) = count_if f l + Nat.b2n (f y).
Proof.
  revert i. induction l as [|z l IH]; intros [|i] H; simplify_eq/=; try lia.
  specialize (IH i H). lia.
Qed.

Lemma count_if_map f (g : A → A) l :
  (∀ x, f (g x) = f x) → count_if f (g <$> l) = count_if f l.
Proof. intros H. induction l as [|x l IH]; cbn; [done|]. rewrite H. lia. Qed.

Lemma count_if_zero f l :
  count_if f l = 0 ↔ ∀ i x, l !! i = Some x → f x = false.
Proof.
  induction l as [|y l IH]; cbn; [naive_solver|]. split.
  - intros H [|i] x Hx; simplify_eq/=.
    + destruct (f x); cbn in *; lia.
    + apply (proj1 IH) with i; [lia|done].
  - intros H. rewrite (H 0 y); [|done]. apply IH. intros i. apply (H (S i)).
Qed.

Lemma count_if_pos f l i x : l !! i = Some x → f x = true → 0 < count_if f l.
Proof.
  intros Hi Hf. destruct (decide (count_if f l = 0)) as [E|]; [|lia].
  rewrite count_if_zero in E. specialize (E _ _ Hi). congruence.
Qed.

Lemma count_if_pos_inv f l : 0 < count_if f l → ∃ i x, l !! i = Some x ∧ f x = true.
Proof.
  induction l as [|y l IH]; cbn; [lia|]. intros H. destruct (f y) eqn:E.
  - by exists 0, y.
  - destruct IH as (i & x & ? & ?); [cbn in *; lia|]. by exists (S i), x.
Qed.

Lemma count_if_length f l : count_if f l ≤ length l.
Proof. induction l as [|x l IH]; cbn; [lia|]. destruct (f x); cbn; lia. Qed.

Lemma count_if_tail f l n :
  n ≤ length l → (∀ i x, l !! i = Some x → f x = true → n ≤ i) → count_if f l ≤ length l - n.
Proof.
  intros Hn H. rewrite <- (take_drop n l) at 1. rewrite count_if_app.
  assert (count_if f (take n l) = 0) as ->.
  { apply count_if_zero. intros i x Hi. apply lookup_take_Some in Hi as [Hi Hlt].
    destruct (f x) eqn:E; [|done]. specialize (H _ _ Hi E). lia. }
  pose proof (count_if_length f (drop n l)) as Hd. rewrite length_drop in Hd. lia.
Qed.

Lemma count_if_from f l n :
  (∀ i x, n ≤ i → l !! i = Some x → f x = true) → length l - n ≤ count_if f l.
Proof.
  intros H. rewrite <- (take_drop n l) at 2. rewrite count_if_app.
  assert (count_if f (drop n l) = length (drop n l)) as ->; [|rewrite length_drop; lia].
  assert (∀ k, (∀ i x, k !! i = Some x → f x = true) → count_if f k = length k) as Hall.
  { induction k as [|x k IH]; intros Hk; cbn; [done|].
    rewrite (Hk 0 x eq_refl), IH; [done|]. intros i. apply (Hk (S i)). }
  apply Hall. intros i x Hx. rewrite lookup_drop in Hx. eapply H; [|done]. lia.
Qed.

Lemma count_if_mono f g l :
  (∀ x, f x = true → g x = true) → count_if f l ≤ count_if g l.
Proof.
  intros H. induction l as [|x l IH]; cbn; [lia|].
  specialize (H x). destruct (f x), (g x); cbn; try lia; naive_solver.
Qed.

Lemma count_if_strict f g l i x :
  (∀ x, f x = true → g x = true) → l !! i = Some x → f x = false → g x = true →
  count_if f l < count_if g l.
Proof.
  intros H. revert i. induction l as [|y l IH]; intros [|i] Hi Hf Hg; simplify_eq/=.
  - rewrite Hf, Hg. pose proof (count_if_mono f g l H). cbn. lia.
  - specialize (IH i Hi Hf Hg). specialize (H y). destruct (f y), (g y); cbn; lia.
Qed.

Lemma count_if_disjoint f g l :
  (∀ x, f x = true → g x = false) →
  count_if (λ x, f x || g x) l = count_if f l + count_if g l.
Proof.
  intros H. induction l as [|x l IH]; cbn; [done|]. specialize (H x).
  destruct (f x), (g x); cbn; lia.
Qed.

Lemma count_if_replicate f n x : f x = false → count_if f (replicate n x) = 0.
Proof. intros H. induction n as [|n IH]; cbn; [done|]. by rewrite H. Qed.
End counting.

(** ** Sums over the threads *)

Section sums.
Context {A : Type}.
Implicit Types (f g : A → nat) (l : list A).

Lemma sum_insert f l i x y :
  l !! i = Some x → sum_list_with f (<[i := y]> l) + f x = sum_list_with f l + f y.
Proof.
  revert i. induction l as [|z l IH]; intros [|i] H; simplify_eq/=; try lia.
  specialize (IH i H). lia.
Qed.

Lemma sum_mono f g l :
  (∀ i x, l !! i = Some x → f x ≤ g x) → sum_list_with f l ≤ sum_list_with g l.
Proof.
  induction l as [|x l IH]; intros H; cbn; [lia|].
  pose proof (H 0 x eq_refl). pose proof (IH (λ i, H (S i))). lia.
Qed.

Lemma sum_map_le f (h : A → A) c l :
  (∀ x, f (h x) ≤ f x + c) → sum_list_with f (h <$> l) ≤ sum_list_with f l + c * length l.
Proof. intros H. induction l as [|x l IH]; cbn; [lia|]. specialize (H x). lia. Qed.
End sums.

(** [gather g l] is what the threads [l] hold according to [g], in thread order. *)
Definition gather {A B} (g : A → list B) (l : list A) : list B := concat (g <$> l).

Section gathering.
Context {A B : Type}.
Implicit Types (g : A → list B) (l : list A).

Lemma gather_app g l k : gather g (l ++ k) = gather g l ++ gather g k.
Proof. unfold gather. by rewrite fmap_app, concat_app. Qed.

Lemma gather_insert g l i x y :
  l !! i = Some x → g x ++ gather g (<[i := y]> l) ≡ₚ g y ++ gather g l.
Proof.
  revert i. induction l as [|z l IH]; intros [|i] H; simplify_eq/=; unfold gather; cbn.
  - rewrite !app_assoc. apply Permutation_app_tail, Permutation_app_comm.
  - rewrite (Permutation_app_swap_app (g x) (g z)), (Permutation_app_swap_app (g y) (g z)).
    apply Permutation_app_head, IH, H.
Qed.

Lemma gather_insert_same g l i x y :
  l !! i = Some x → g y = g x → gather g (<[i := y]> l) = gather g l.
Proof.
  intros Hi Hg. revert i Hi.
  induction l as [|z l IH]; intros [|i] H; simplify_eq/=; unfold gather; cbn.
  - by rewrite Hg.
  - f_equal. apply IH, H.
Qed.

Lemma gather_map g (h : A → A) l :
  (∀ x, g (h x) = g x) → gather g (h <$> l) = gather g l.
Proof. intros H. unfold gather. induction l as [|x l IH]; cbn; [done|]. by rewrite H, IH. Qed.

Lemma gather_nil g l : (∀ i x, l !! i = Some x → g x = []) → gather g l = [].
Proof.
  intros H. induction l as [|x l IH]; [done|]. unfold gather in *; cbn.
  rewrite (H 0 x) by done. apply IH. intros i. apply (H (S i)).
Qed.

Lemma gather_delete g l i x : l !! i = Some x → gather g l ≡ₚ g x ++ gather g (delete i l).
Proof.
  revert i. induction l as [|z l IH]; intros [|i] H; simplify_eq/=; [done|].
  unfold gather in *; cbn. rewrite (IH _ H), !app_assoc. apply Permutation_app_tail, Permutation_app_comm.
Qed.

Lemma gather_elem g l i x b : l !! i = Some x → b ∈ g x → b ∈ gather g l.
Proof.
  intros Hi Hb. unfold gather. apply list_elem_of_In, in_concat.
  exists (g x). split; [|by apply list_elem_of_In].
  apply list_elem_of_In, list_elem_of_fmap. exists x. split; [done|].
  by apply list_elem_of_lookup_2 with i.
Qed.

Lemma gather_elem_inv g l b : b ∈ gather g l → ∃ i x, l !! i = Some x ∧ b ∈ g x.
Proof.
  unfold gather. intros Hb. apply list_elem_of_In, in_concat in Hb as (k & Hk & Hb).
  apply list_elem_of_In, list_elem_of_fmap in Hk as (x & -> & Hx).
  apply list_elem_of_lookup in Hx as [i Hi]. exists i, x. split; [done|]. by apply list_elem_of_In.
Qed.

Lemma gather_sub g g' l b : (∀ x, b ∈ g x → b ∈ g' x) → b ∈ gather g l → b ∈ gather g' l.
Proof. intros H Hb. apply gather_elem_inv in Hb as (i & x & Hi & Hx). eapply gather_elem; eauto. Qed.
End gathering.

(** ** Automation *)

Create HintDb study.
Create Rewrite HintDb study.
#[export] Hint Rewrite @count_if_app @gather_app @length_insert @length_app @length_replicate
  @length_fmap : study.
#[export] Hint Resolve count_if_pos count_if_length : study.

(** Inverts hypotheses saying that a computation in [res] completed. *)
Ltac inv_res :=
  repeat match goal with
  | H : Done _ = Done _ |- _ => injection H as H
  | H : Done _ = Blocked |- _ => discriminate H
  | H : Done _ = Fault |- _ => discriminate H
  | H : Blocked = _ |- _ => discriminate H
  | H : Fault = _ |- _ => discriminate H
  | H : (_, _) = (_, _) |- _ => injection H as H
  | H : mret _ = Done _ |- _ => injection H as H
  | H : mbind _ _ = Done _ |- _ => apply bind_Done in H as (? & ? & H); cbn beta in H
  | H : check _ = Done _ |- _ => apply check_Done in H
  | H : int_of _ = Done _ |- _ => apply int_of_Done in H as [-> ?]
  end; subst.

(** Splits every [match] and [if] of the hypothesis that a step completed. *)
Ltac split_matches H :=
  repeat (inv_res; match type of H with
  | context [match ?x with _ => _ end] =>
      lazymatch x with context [match _ with _ => _ end] => fail | _ => destruct x eqn:? end
  end; try discriminate H); inv_res.

#[export] Hint Resolve check_not_blocked int_of_not_blocked arr_get_not_blocked
  arr_set_not_blocked arr_read_not_blocked : study.

(** Follows the hypothesis [H] that a computation is blocked down to the
    operations that can block. *)
Ltac inv_blocked H :=
  repeat match type of H with
  | mbind _ _ = Blocked => apply bind_Blocked in H as [H|(? & ? & H)]; cbn beta in H
  | (match ?x with _ => _ end) = Blocked => destruct x eqn:?; cbn in H
  | ?m = Blocked =>
      first [discriminate H | let K := fresh in assert (m ≠ Blocked) as K by auto with study; destruct (K H)]
  end.

(** Turns boolean tests on integers into propositions. *)
Ltac bools :=
  repeat match goal with
  | H : (_ && _)%bool = true |- _ => apply andb_true_iff in H as [? ?]
  | H : (_ && _)%bool = false |- _ => apply andb_false_iff in H
  | H : (_ || _)%bool = false |- _ => apply orb_false_iff in H as [? ?]
  | H : (_ || _)%bool = true |- _ => apply orb_true_iff in H
  | H : negb _ = true |- _ => apply negb_true_iff in H
  | H : negb _ = false |- _ => apply negb_false_iff in H
  | H : (_ =? _)%Z = true |- _ => apply Z.eqb_eq in H
  | H : (_ =? _)%Z = false |- _ => apply Z.eqb_neq in H
  | H : (_ <? _)%Z = true |- _ => apply Z.ltb_lt in H
  | H : (_ <? _)%Z = false |- _ => apply Z.ltb_ge in H
  | H : (_ <=? _)%Z = true |- _ => apply Z.leb_le in H
  | H : (_ <=? _)%Z = false |- _ => apply Z.leb_gt in H
  | H : (_ >? _)%Z = _ |- _ => rewrite Z.gtb_ltb in H
  end.
