(* ===== verification/Pthread.v ===== *)
(** * POSIX threads

    Mutexes, condition variables and the interleaving of threads.  A program
    is given by the behaviour of one thread ([tstep]); this file defines the
    machine that runs a list of such threads and proves, once for all the
    programs of the repository, the facts about scheduling they share. *)

From S2P Require Import Prelude.

(** ** Mutexes *)

Inductive mutex : Type :=
  | MUninit
  | MFree
  | MHeld (t : nat).

#[export] Instance mutex_eq_dec : EqDecision mutex.
Proof. solve_decision. Defined.

Definition EBUSY : Z := 16.

(** A default mutex is not recursive: a thread that locks a mutex it already
    holds waits for itself. *)
Definition mutex_lock (t : nat) (m : mutex) : res mutex :=
  match m with
  | MUninit => Fault
  | MFree => Done (MHeld t)
  | MHeld _ => Blocked
  end.

Definition mutex_unlock (t : nat) (m : mutex) : res mutex :=
  match m with
  | MHeld t' => if decide (t = t') then Done MFree else Fault
  | _ => Fault
  end.

(** [pthread_mutex_destroy]: return code and resulting mutex. *)
Definition mutex_destroy (m : mutex) : res (Z * mutex) :=
  match m with
  | MUninit => Fault
  | MFree => Done (0%Z, MUninit)
  | MHeld t => Done (EBUSY, MHeld t)
  end.

Lemma mutex_lock_Done t m m' : mutex_lock t m = Done m' ↔ m = MFree ∧ m' = MHeld t.
Proof. destruct m; cbn; naive_solver. Qed.

Lemma mutex_unlock_Done t m m' : mutex_unlock t m = Done m' ↔ m = MHeld t ∧ m' = MFree.
Proof. destruct m; cbn; try case_decide; naive_solver. Qed.

Lemma mutex_lock_Blocked t m : mutex_lock t m = Blocked → m ≠ MFree.
Proof. by destruct m. Qed.

Lemma mutex_unlock_not_blocked t m : mutex_unlock t m ≠ Blocked.
Proof. destruct m; cbn; try case_decide; done. Qed.

Lemma mutex_destroy_not_blocked m : mutex_destroy m ≠ Blocked.
Proof. by destruct m. Qed.

#[export] Hint Resolve mutex_unlock_not_blocked mutex_destroy_not_blocked : study.

(** Inverts hypotheses saying that a mutex operation completed. *)
Ltac inv_mutex :=
  repeat match goal with
  | H : mutex_lock _ _ = Done _ |- _ => apply mutex_lock_Done in H as [? ?]
  | H : mutex_unlock _ _ = Done _ |- _ => apply mutex_unlock_Done in H as [? ?]
  end.

(** ** Threads

    What a step of a thread does to the others: it may signal or broadcast a
    condition variable, or start a thread. *)

Inductive effect (L : Type) : Type :=
  | Signal (c : nat)
  | Broadcast (c : nat)
  | Spawn (l : L).
Arguments Signal {L} c.
Arguments Broadcast {L} c.
Arguments Spawn {L} l.

(** The behaviour of a thread.  [I] is what the environment decides at a step
    (results of library calls, the call a client makes), [S] the shared state,
    [L] the local state, program counter included.  [waits_on] tells on which
    condition variable a thread is blocked, and [woken] is its local state once
    it is woken up and must take the mutex again. *)
Class Program (I S L : Type) : Type := {
  tstep : list L → nat → I → S → L → res (S * L * option (effect L));
  waits_on : L → option nat;
  woken : L → L;
  waiting_blocked : ∀ ls t x s l r, is_Some (waits_on l) → tstep ls t x s l ≠ Done r;
  woken_awake : ∀ l, is_Some (waits_on l) → waits_on (woken l) = None
}.

Section machine.
Context {I S L : Type} {P : Program I S L}.
Implicit Types (s : S) (l : L) (ls : list L) (t w c : nat).

Definition waits_for c l : bool := bool_decide (waits_on l = Some c).

Definition wake_all c ls : list L := (λ l, if waits_for c l then woken l else l) <$> ls.

(** [pthread_cond_signal] wakes one waiting thread, chosen by the scheduler,
    if there is one; [pthread_cond_broadcast] wakes them all. *)
Definition apply_effect w (e : option (effect L)) ls : res (list L) :=
  match e with
  | None => Done ls
  | Some (Signal c) =>
      match ls !! w with
      | Some l =>
          if waits_for c l then Done (<[w := woken l]> ls)
          else if existsb (waits_for c) ls then Blocked else Done ls
      | None => if existsb (waits_for c) ls then Blocked else Done ls
      end
  | Some (Broadcast c) => Done (wake_all c ls)
  | Some (Spawn l) => Done (ls ++ [l])
  end.

(** The scheduler runs thread [t] with the environment's answer [x], a signal
    going to thread [w], or wakes a waiting thread spuriously. *)
Inductive event : Type :=
  | Run (t : nat) (x : I) (w : nat)
  | Wakeup (t : nat).

Definition config : Type := S * list L.

Definition exec (ev : event) (cf : config) : res config :=
  match ev with
  | Run t x w =>
      match cf.2 !! t with
      | None => Blocked
      | Some l =>
          '(s', l', e) ← tstep cf.2 t x cf.1 l;
          ls' ← apply_effect w e (<[t := l']> cf.2);
          mret (s', ls')
      end
  | Wakeup t =>
      match cf.2 !! t with
      | Some l =>
          match waits_on l with
          | Some _ => Done (cf.1, <[t := woken l]> cf.2)
          | None => Blocked
          end
      | None => Blocked
      end
  end.

Definition event_ok (ok : I → Prop) (ev : event) : Prop :=
  match ev with Run _ x _ => ok x | Wakeup _ => True end.

Inductive step (ok : I → Prop) : config → config → Prop :=
  | step_exec ev cf cf' : event_ok ok ev → exec ev cf = Done cf' → step ok cf cf'.

Definition reachable (ok : I → Prop) : config → config → Prop := rtc (step ok).

(** A configuration in which some thread can run into undefined behaviour. *)
Definition can_fault (ok : I → Prop) (cf : config) (t : nat) : Prop :=
  ∃ x w, ok x ∧ exec (Run t x w) cf = Fault.

Fixpoint run (evs : list event) (cf : config) : res config :=
  match evs with
  | [] => Done cf
  | ev :: evs => cf' ← exec ev cf; run evs cf'
  end.

Lemma run_reachable ok evs cf cf' :
  Forall (event_ok ok) evs → run evs cf = Done cf' → reachable ok cf cf'.
Proof.
  intros Hok. revert cf. induction Hok as [|ev evs Hev _ IH]; cbn; intros cf H; inv_res.
  - constructor.
  - eapply rtc_l; [by econstructor|by apply IH].
Qed.

Definition event_okb (okb : I → bool) (ev : event) : bool :=
  match ev with Run _ x _ => okb x | Wakeup _ => true end.

(** The configuration a script of events leads to. *)
Definition final (evs : list event) (cf : config) : config :=
  match run evs cf with Done cf' => cf' | _ => cf end.

Lemma final_reachable (ok : I → Prop) (okb : I → bool) evs cf :
  (∀ x, okb x = true → ok x) → forallb (event_okb okb) evs = true →
  reachable ok cf ((final evs cf).1, (final evs cf).2).
Proof.
  intros Hok Hevs. rewrite <- surjective_pairing. unfold final.
  destruct (run evs cf) as [cf'| |] eqn:Hr; [|constructor..].
  eapply run_reachable, Hr. apply Forall_forall. intros ev Hev.
  rewrite forallb_forall in Hevs. apply list_elem_of_In, Hevs in Hev.
  destruct ev; cbn in *; auto.
Qed.

Lemma step_mono (ok ok' : I → Prop) cf cf' :
  (∀ x, ok x → ok' x) → step ok cf cf' → step ok' cf cf'.
Proof.
  intros H Hs. inversion_clear Hs as [ev ? ? Hev Hx].
  econstructor; [|exact Hx]. destruct ev; cbn in *; auto.
Qed.

Lemma reachable_mono (ok ok' : I → Prop) cf cf' :
  (∀ x, ok x → ok' x) → reachable ok cf cf' → reachable ok' cf cf'.
Proof.
  intros H. apply rtc_subrel. intros c1 c2. by apply step_mono.
Qed.

(** Rule induction on reachability. *)
Lemma invariant_reachable ok (Q : config → Prop) cf0 cf :
  Q cf0 → (∀ cf cf', Q cf → step ok cf cf' → Q cf') → reachable ok cf0 cf → Q cf.
Proof.
  intros H0 Hstep H. revert H0. induction H as [|c1 c2 c3 H1 _ IH]; [done|].
  intros H0. apply IH, (Hstep c1); done.
Qed.

Lemma no_waiter c ls :
  existsb (waits_for c) ls = false → ∀ t l, ls !! t = Some l → waits_on l ≠ Some c.
Proof.
  intros H t l Hl Hw. rewrite <- not_true_iff_false, existsb_exists in H. apply H.
  exists l. split; [|unfold waits_for; by apply bool_decide_eq_true_2].
  apply list_elem_of_In. by apply list_elem_of_lookup_2 with t.
Qed.

(** What happened to the other threads when the effect [e] was applied. *)
Inductive effect_on : option (effect L) → list L → list L → Prop :=
  | eff_none ls : effect_on None ls ls
  | eff_signal c ls w l :
      ls !! w = Some l → waits_on l = Some c →
      effect_on (Some (Signal c)) ls (<[w := woken l]> ls)
  | eff_signal_none c ls :
      (∀ t l, ls !! t = Some l → waits_on l ≠ Some c) →
      effect_on (Some (Signal c)) ls ls
  | eff_broadcast c ls : effect_on (Some (Broadcast c)) ls (wake_all c ls)
  | eff_spawn l ls : effect_on (Some (Spawn l)) ls (ls ++ [l]).

Lemma apply_effect_on w e ls ls' : apply_effect w e ls = Done ls' → effect_on e ls ls'.
Proof.
  destruct e as [[c|c|l]|]; cbn; intros H; [|injection H as <-; constructor..].
  destruct (ls !! w) as [l|] eqn:Hw.
  - destruct (waits_for c l) eqn:E.
    + injection H as <-. unfold waits_for in E. apply bool_decide_eq_true_1 in E.
      by econstructor.
    + destruct (existsb _ ls) eqn:En; [done|]. injection H as <-.
      constructor. by apply no_waiter.
  - destruct (existsb _ ls) eqn:En; [done|]. injection H as <-.
    constructor. by apply no_waiter.
Qed.

Lemma apply_effect_no_fault w e ls : apply_effect w e ls ≠ Fault.
Proof. destruct e as [[c|c|l]|]; cbn; repeat case_match; done. Qed.

(** A step of a thread can always be carried out, if the thread to be woken
    is well chosen. *)
Lemma exec_Done t x s ls l s' l' e :
  ls !! t = Some l → tstep ls t x s l = Done (s', l', e) →
  ∃ w cf', exec (Run t x w) (s, ls) = Done cf'.
Proof.
  intros Hl Hs. cbn. rewrite Hl, Hs. cbn. set (k := <[t := l']> ls).
  assert (∃ w ls', apply_effect w e k = Done ls') as (w & ls' & Hw).
  { destruct e as [[c|c|l0]|]; cbn; try (by exists 0; eauto).
    destruct (existsb (waits_for c) k) eqn:E.
    - apply existsb_exists in E as (l0 & Hin & Hw). apply list_elem_of_In, list_elem_of_lookup in Hin as [w Hin].
      exists w. rewrite Hin, Hw. eauto.
    - exists (length k). rewrite lookup_ge_None_2 by lia. eauto. }
  exists w. rewrite Hw. cbn. eauto.
Qed.

(** Undefined behaviour comes from the code of a thread only. *)
Lemma can_fault_inv ok s ls t :
  can_fault ok (s, ls) t → ∃ l x, ls !! t = Some l ∧ ok x ∧ tstep ls t x s l = Fault.
Proof.
  intros (x & w & Hx & H). cbn in H. destruct (ls !! t) as [l|] eqn:Hl; [|done].
  exists l, x. split_and!; [done..|]. destruct (tstep ls t x s l) as [[[s' l'] e]| |]; try done.
  cbn in H. pose proof (apply_effect_no_fault w e (<[t := l']> ls)).
  destruct (apply_effect w e (<[t := l']> ls)); cbn in H; done.
Qed.

(** The two kinds of steps of the machine. *)
Lemma step_inv ok s ls s' ls' :
  step ok (s, ls) (s', ls') →
  (∃ t x l l' e, ok x ∧ ls !! t = Some l ∧ tstep ls t x s l = Done (s', l', e) ∧
                 effect_on e (<[t := l']> ls) ls') ∨
  (∃ t l, s' = s ∧ ls !! t = Some l ∧ is_Some (waits_on l) ∧ ls' = <[t := woken l]> ls).
Proof.
  intros H. inversion_clear H as [ev ? ? Hok Hx]. destruct ev as [t x w|t]; cbn in Hx.
  - destruct (ls !! t) as [l|] eqn:Hl; [|done]. left. inv_res.
    destruct x0 as [[s1 l1] e]. inv_res.
    exists t, x, l, l1, e. eauto using apply_effect_on.
  - destruct (ls !! t) as [l|] eqn:Hl; [|done]. destruct (waits_on l) eqn:Hw; [|done].
    right. inv_res. exists t, l. eauto.
Qed.

Lemma effect_on_apply e ls ls' : effect_on e ls ls' → ∃ w, apply_effect w e ls = Done ls'.
Proof.
  destruct 1 as [ls|c ls w l Hw Hc|c ls Hn|c ls|l ls]; cbn; try (by exists 0).
  - exists w. rewrite Hw. unfold waits_for. by rewrite bool_decide_eq_true_2.
  - exists (length ls). rewrite lookup_ge_None_2 by lia.
    destruct (existsb (waits_for c) ls) eqn:E; [|done]. apply existsb_exists in E as (l & Hin & Hw).
    apply list_elem_of_In, list_elem_of_lookup in Hin as [t Hin]. apply bool_decide_eq_true in Hw. by destruct (Hn _ _ Hin).
Qed.

(** A step of a thread, from its parts. *)
Lemma step_run (ok : I → Prop) t x s ls l s' l' e ls' :
  ok x → ls !! t = Some l → tstep ls t x s l = Done (s', l', e) → effect_on e (<[t := l']> ls) ls' →
  step ok (s, ls) (s', ls').
Proof.
  intros Hx Hl Hs He. apply effect_on_apply in He as [w Hw]. apply (step_exec ok (Run t x w)); [done|].
  cbn. rewrite Hl, Hs. cbn. by rewrite Hw.
Qed.

Lemma step_wakeup (ok : I → Prop) t s ls l :
  ls !! t = Some l → is_Some (waits_on l) → step ok (s, ls) (s, <[t := woken l]> ls).
Proof. intros Hl [c Hc]. apply (step_exec ok (Wakeup t)); [done|]. cbn. by rewrite Hl, Hc. Qed.

(** Reading the threads after an effect: each was there before, possibly
    asleep and now woken, or has just been spawned. *)
Lemma effect_on_lookup e ls ls' t l' :
  effect_on e ls ls' → ls' !! t = Some l' →
  ls !! t = Some l' ∨
  (∃ l, ls !! t = Some l ∧ is_Some (waits_on l) ∧ l' = woken l) ∨
  (e = Some (Spawn l') ∧ t = length ls).
Proof.
  intros H Hl. destruct H as [ls|c ls w l Hw Hc|c ls Hn|c ls|l ls]; [by left| |by left| |].
  - destruct (decide (t = w)) as [->|Ht].
    + rewrite list_lookup_insert_eq in Hl by (by eapply lookup_lt_Some).
      right; left. simplify_eq. eauto.
    + rewrite list_lookup_insert_ne in Hl by done. by left.
  - unfold wake_all in Hl. rewrite list_lookup_fmap in Hl.
    destruct (ls !! t) as [l|]; simplify_eq/=. unfold waits_for. case_bool_decide; eauto 6.
  - apply lookup_app_Some in Hl as [Hl|[Hge Hl]]; [by left|].
    right; right. destruct (t - length ls) eqn:E; simplify_eq/=. split; [done|lia].
Qed.

Lemma effect_on_survives e ls ls' t l :
  effect_on e ls ls' → ls !! t = Some l →
  ls' !! t = Some l ∨ (is_Some (waits_on l) ∧ ls' !! t = Some (woken l)).
Proof.
  intros H Hl. destruct H as [ls|c ls w l0 Hw Hc|c ls Hn|c ls|l0 ls]; [by left| |by left| |].
  - destruct (decide (t = w)) as [->|Ht].
    + simplify_eq. right. rewrite list_lookup_insert_eq by (by eapply lookup_lt_Some). eauto.
    + left. by rewrite list_lookup_insert_ne.
  - unfold wake_all. rewrite list_lookup_fmap, Hl. cbn. unfold waits_for.
    case_bool_decide; [right|left]; eauto.
  - left. by apply lookup_app_l_Some.
Qed.

Lemma effect_on_length e ls ls' :
  effect_on e ls ls' →
  length ls' = length ls + match e with Some (Spawn _) => 1 | _ => 0 end.
Proof.
  destruct 1; cbv iota; unfold wake_all;
    rewrite ?length_insert, ?length_fmap, ?length_app; cbn [length]; lia.
Qed.

(** Threads do not disappear. *)
Lemma threads_grow ok s ls s' ls' : step ok (s, ls) (s', ls') → length ls ≤ length ls'.
Proof.
  intros Hst. apply step_inv in Hst as [(t & x & l & l' & e & _ & _ & _ & He)|(t & l & _ & _ & _ & ->)].
  - apply effect_on_length in He. rewrite length_insert in He. lia.
  - by rewrite length_insert.
Qed.

(** A property of each thread and the shared state is preserved by a step if
    the running thread establishes its own part, and keeps that of others. *)
Lemma forall_threads_effect (Q : S → nat → L → Prop) ok s ls s' ls' :
  (∀ t l, ls !! t = Some l → Q s t l) →
  step ok (s, ls) (s', ls') →
  (∀ t x l l' e, ok x → ls !! t = Some l → tstep ls t x s l = Done (s', l', e) →
     effect_on e (<[t := l']> ls) ls' →
     Q s' t l' ∧
     (∀ t' l0, t' ≠ t → ls !! t' = Some l0 → Q s' t' l0) ∧
     (∀ l0, e = Some (Spawn l0) → Q s' (length ls) l0)) →
  (∀ t l, is_Some (waits_on l) → Q s' t l → Q s' t (woken l)) →
  ∀ t l, ls' !! t = Some l → Q s' t l.
Proof.
  intros HQ Hstep Hrun Hwake t l Hl.
  apply step_inv in Hstep as [(t0 & x & l0 & l1 & e & Hok & Hl0 & Hs & He)|(t0 & l0 & -> & Hl0 & Hw & ->)].
  - destruct (Hrun _ _ _ _ _ Hok Hl0 Hs He) as (Hself & Hother & Hspawn).
    assert (∀ t' k, <[t0 := l1]> ls !! t' = Some k → Q s' t' k) as Hins.
    { intros t' k Hk. destruct (decide (t' = t0)) as [->|Ht].
      - rewrite list_lookup_insert_eq in Hk by (by eapply lookup_lt_Some). by simplify_eq.
      - rewrite list_lookup_insert_ne in Hk by done. by apply Hother. }
    apply (effect_on_lookup _ _ _ _ _ He) in Hl as [Hl|[(k & Hk & Hw & ->)|(-> & ->)]].
    + by apply Hins.
    + apply Hwake; auto.
    + rewrite length_insert. by apply Hspawn.
  - destruct (decide (t = t0)) as [->|Ht].
    + rewrite list_lookup_insert_eq in Hl by (by eapply lookup_lt_Some).
      simplify_eq. apply Hwake; auto.
    + rewrite list_lookup_insert_ne in Hl by done. auto.
Qed.

Lemma forall_threads_step (Q : S → nat → L → Prop) ok s ls s' ls' :
  (∀ t l, ls !! t = Some l → Q s t l) →
  step ok (s, ls) (s', ls') →
  (∀ t x l l' e, ok x → ls !! t = Some l → tstep ls t x s l = Done (s', l', e) →
     Q s' t l' ∧
     (∀ t' l0, t' ≠ t → ls !! t' = Some l0 → Q s' t' l0) ∧
     (∀ l0, e = Some (Spawn l0) → Q s' (length ls) l0)) →
  (∀ t l, is_Some (waits_on l) → Q s' t l → Q s' t (woken l)) →
  ∀ t l, ls' !! t = Some l → Q s' t l.
Proof.
  intros HQ Hstep Hrun Hwake. eapply forall_threads_effect; eauto.
Qed.

(** Counting and gathering over the threads across a step. *)
Definition spawned {A} (f : L → A) (e : option (effect L)) (a : A) : A :=
  match e with Some (Spawn l) => f l | _ => a end.

Lemma count_effect f e ls ls' :
  (∀ l, is_Some (waits_on l) → f (woken l) = f l) → effect_on e ls ls' →
  count_if f ls' = count_if f ls + spawned (λ l, Nat.b2n (f l)) e 0.
Proof.
  intros Hf. destruct 1 as [ls|c ls w l Hw Hc|c ls Hn|c ls|l ls]; unfold spawned; try lia.
  - pose proof (count_if_insert f _ _ _ (woken l) Hw) as Hc'. rewrite (Hf l) in Hc' by eauto. lia.
  - unfold wake_all. rewrite count_if_map; [lia|]. intros l. unfold waits_for.
    case_bool_decide; eauto.
  - rewrite count_if_app. cbn. lia.
Qed.

Lemma count_step f e ls ls' t l l' :
  (∀ l, is_Some (waits_on l) → f (woken l) = f l) →
  ls !! t = Some l → effect_on e (<[t := l']> ls) ls' →
  count_if f ls' + Nat.b2n (f l) =
  count_if f ls + Nat.b2n (f l') + spawned (λ l, Nat.b2n (f l)) e 0.
Proof.
  intros Hf Hl He. rewrite (count_effect f _ _ _ Hf He).
  pose proof (count_if_insert f _ _ _ l' Hl). lia.
Qed.

(** What an effect adds to a sum over the threads when waking a thread adds at
    most [c]. *)
Definition effect_bonus (f : L → nat) (c n : nat) (e : option (effect L)) : nat :=
  match e with
  | None => 0
  | Some (Signal _) => c
  | Some (Broadcast _) => c * n
  | Some (Spawn l) => f l
  end.

Lemma sum_effect (f : L → nat) c e ls ls' :
  (∀ l, f (woken l) ≤ f l + c) → effect_on e ls ls' →
  sum_list_with f ls' ≤ sum_list_with f ls + effect_bonus f c (length ls) e.
Proof.
  intros Hf. destruct 1 as [ls|k ls w l Hw Hc|k ls Hn|k ls|l ls]; cbn; try lia.
  - pose proof (sum_insert f _ _ _ (woken l) Hw). specialize (Hf l). lia.
  - apply sum_map_le. intros l. case_match; [apply Hf|lia].
  - rewrite sum_list_with_app. cbn. lia.
Qed.

Lemma gather_step {A} (g : L → list A) e ls ls' t l l' :
  (∀ l, is_Some (waits_on l) → g (woken l) = g l) →
  ls !! t = Some l → effect_on e (<[t := l']> ls) ls' →
  g l ++ gather g ls' ≡ₚ g l' ++ gather g ls ++ spawned g e [].
Proof.
  intros Hg Hl He.
  assert (gather g ls' = gather g (<[t := l']> ls) ++ spawned g e []) as ->.
  { destruct He as [k|c k w l0 Hw Hc|c k Hn|c k|l0 k]; unfold spawned; rewrite ?app_nil_r; try done.
    - apply gather_insert_same with l0; eauto.
    - unfold wake_all. apply gather_map. intros k0. unfold waits_for.
      case_bool_decide; eauto.
    - rewrite gather_app. unfold gather at 2. cbn. by rewrite app_nil_r. }
  by rewrite !app_assoc, (gather_insert g _ _ _ l' Hl).
Qed.
End machine.

Arguments event I : clear implicits.
Arguments Run {I} t x w.
Arguments Wakeup {I} t.
Arguments config S L : clear implicits.

(** ** Lock discipline

    What one step of thread [t] may do to a mutex, given whether its local
    state says that it holds it before and after.  [leak] tells whether a
    thread may give up its claim without unlocking. *)

Inductive lock_action (leak : Prop) (t : nat) : mutex → mutex → bool → bool → Prop :=
  | la_outside m : lock_action leak t m m false false
  | la_inside m : lock_action leak t m m true true
  | la_acquire : lock_action leak t MFree (MHeld t) false true
  | la_release : lock_action leak t (MHeld t) MFree true false
  | la_leak m : leak → lock_action leak t m m true false
  | la_init : lock_action leak t MUninit MFree false false
  | la_fini : lock_action leak t MFree MUninit false false.

#[export] Hint Constructors lock_action : study.

(** The promise a program makes about a mutex [get] it uses: under the
    invariant [J], its steps follow the discipline above, a thread it starts
    does not hold the mutex, and neither does a thread asleep or just woken. *)
Class Locking {I S L} {P : Program I S L} (ok : I → Prop) (J : S → list L → Prop)
    (get : S → mutex) (holds : L → bool) (leak : Prop) : Prop := {
  locking_step ls t x s l s' l' e :
    ok x → J s ls → ls !! t = Some l → tstep ls t x s l = Done (s', l', e) →
    lock_action leak t (get s) (get s') (holds l) (holds l');
  locking_spawn ls t x s l s' l' k :
    tstep ls t x s l = Done (s', l', Some (Spawn k)) → holds k = false;
  locking_wait l : is_Some (waits_on l) → holds l = false ∧ holds (woken l) = false
}.

Section locking.
Context {I S L : Type} {P : Program I S L}.
Context {ok : I → Prop} {J : S → list L → Prop} {get : S → mutex} {holds : L → bool}.

(** A thread that claims the mutex owns it. *)
Definition owner_inv (get : S → mutex) (holds : L → bool) (s : S) (ls : list L) : Prop :=
  ∀ t l, ls !! t = Some l → holds l = true → get s = MHeld t.

(** The mutex is only owned by a thread that claims it. *)
Definition no_leak_inv (get : S → mutex) (holds : L → bool) (s : S) (ls : list L) : Prop :=
  ∀ t, get s = MHeld t → ∃ l, ls !! t = Some l ∧ holds l = true.

Lemma mutual_exclusion s ls t1 t2 l1 l2 :
  owner_inv get holds s ls → ls !! t1 = Some l1 → ls !! t2 = Some l2 →
  holds l1 = true → holds l2 = true → t1 = t2.
Proof. intros H H1 H2 Hh1 Hh2. pose proof (H _ _ H1 Hh1). pose proof (H _ _ H2 Hh2). congruence. Qed.

Lemma owner_inv_step leak {K : Locking ok J get holds leak} s ls s' ls' :
  J s ls → owner_inv get holds s ls → step ok (s, ls) (s', ls') → owner_inv get holds s' ls'.
Proof.
  intros HJ Hinv Hstep.
  refine (forall_threads_step (λ s t l, holds l = true → get s = MHeld t)
            ok s ls s' ls' Hinv Hstep _ _).
  - intros t x l l' e Hok Hl Hs.
    pose proof (locking_step _ _ _ _ _ _ _ _ Hok HJ Hl Hs) as Ha. pose proof (Hinv t l Hl) as Hown.
    assert (∀ t' l0, t' ≠ t → ls !! t' = Some l0 → holds l0 = true → get s = MHeld t') as Hoth by eauto.
    split; [|split].
    + inversion Ha; intros Hh; try congruence.
      transitivity (get s); [congruence|apply Hown; congruence].
    + intros t' l0 Ht Hl0 Hh. specialize (Hoth t' l0 Ht Hl0 Hh).
      inversion Ha; try congruence.
    + intros l0 -> Hh. rewrite (locking_spawn (holds := holds) _ _ _ _ _ _ _ _ Hs) in Hh. done.
  - intros t l Hw _ Hh. destruct (locking_wait (holds := holds) l Hw). congruence.
Qed.

Lemma no_leak_inv_run (t : nat) (l l' : L) e s ls s' ls' :
  (∀ k, is_Some (waits_on k) → holds k = false) →
  ls !! t = Some l → effect_on e (<[t := l']> ls) ls' →
  lock_action False t (get s) (get s') (holds l) (holds l') →
  no_leak_inv get holds s ls → no_leak_inv get holds s' ls'.
Proof.
  intros Hw Hl He Ha Hinv t' Ht.
  assert (∃ k, <[t := l']> ls !! t' = Some k ∧ holds k = true) as (k & Hk & Hh).
  { destruct (decide (t' = t)) as [->|Hne].
    - exists l'. rewrite list_lookup_insert_eq by (by eapply lookup_lt_Some).
      split; [done|]. inversion Ha; try contradiction; try congruence.
      destruct (Hinv t) as (k & Hk & Hh); congruence.
    - rewrite list_lookup_insert_ne by done. apply Hinv.
      inversion Ha; congruence. }
  exists k. split; [|done]. destruct (effect_on_survives _ _ _ _ _ He Hk) as [?|[Hwk _]]; [done|].
  rewrite (Hw _ Hwk) in Hh. done.
Qed.

Lemma no_leak_inv_wake (t : nat) (l l' : L) s ls :
  ls !! t = Some l → holds l = false →
  no_leak_inv get holds s ls → no_leak_inv get holds s (<[t := l']> ls).
Proof.
  intros Hl Hh Hinv t' Ht. destruct (Hinv t' Ht) as (k & Hk & Hhk). exists k. split; [|done].
  rewrite list_lookup_insert_ne; [done|]. intros ->. congruence.
Qed.

Lemma no_leak_inv_step {K : Locking ok J get holds False} s ls s' ls' :
  J s ls → no_leak_inv get holds s ls →
  step ok (s, ls) (s', ls') → no_leak_inv get holds s' ls'.
Proof.
  intros HJ Hinv Hstep.
  apply step_inv in Hstep as [(t0 & x & l0 & l1 & e & Hok & Hl0 & Hs & He)|(t0 & l0 & -> & Hl0 & Hw & ->)].
  - eapply no_leak_inv_run; eauto; [intros k Hk; by destruct (locking_wait (holds := holds) k Hk)|].
    by apply (locking_step _ _ _ _ _ _ _ _ Hok HJ Hl0 Hs).
  - eapply no_leak_inv_wake; eauto. by destruct (locking_wait (holds := holds) l0 Hw).
Qed.

(** A mutex owned by a thread that no longer claims it ... *)
Definition leaked (get : S → mutex) (holds : L → bool) (t : nat) (s : S) (ls : list L) : Prop :=
  get s = MHeld t ∧ ∀ t' l, ls !! t' = Some l → holds l = false.

(** ... is never released. *)
Lemma leaked_step leak {K : Locking ok J get holds leak} t s ls s' ls' :
  J s ls → leaked get holds t s ls → step ok (s, ls) (s', ls') → leaked get holds t s' ls'.
Proof.
  intros HJ [Ht Hno] Hstep.
  assert (∀ t' x l l' e, ok x → ls !! t' = Some l → tstep ls t' x s l = Done (s', l', e) →
            get s' = MHeld t ∧ holds l' = false) as Hrun.
  { intros t' x l l' e Hok Hl Hs.
    pose proof (locking_step _ _ _ _ _ _ _ _ Hok HJ Hl Hs) as Ha.
    rewrite (Hno _ _ Hl), Ht in Ha. by inversion Ha. }
  split.
  - apply step_inv in Hstep as [(t0 & x & l & l' & e & Hok & Hl & Hs & _)|(? & ? & -> & _)]; [|done].
    by destruct (Hrun _ _ _ _ _ Hok Hl Hs).
  - refine (forall_threads_step (λ _ _ l, holds l = false) ok s ls s' ls' Hno Hstep _ _).
    + intros t0 x l l' e Hok Hl Hs. destruct (Hrun _ _ _ _ _ Hok Hl Hs) as [_ ?].
      split; [done|]. split; [by eauto|]. intros l0 ->.
      by rewrite (locking_spawn (holds := holds) _ _ _ _ _ _ _ _ Hs).
    + intros t0 l Hw _. by destruct (locking_wait (holds := holds) l Hw).
Qed.
End locking.
