(* ===== verification/Store.v ===== *)
(** * Job stores

    The interface between a thread pool and the structure that holds its
    pending jobs: what the pool may rely on ([JobStore]), and the proof, once
    for every implementation, that any sequence of insertions and removals
    behaves like the list the interface describes. *)

From S2P Require Import Prelude.

(** Orders in which the stores of the repository serve their jobs. *)
Definition fifo {T} (l : list T) (t : T) : list T := l ++ [t].
Definition lifo {T} (l : list T) (t : T) : list T := t :: l.

(** [put] and [take] are the operations of the C code; [None] is the refusal of
    a full store and the answer of an empty one.  [jobs] abstracts a store to
    the jobs in it, the next one to be served first, [capacity] is [None] for
    a store that grows without bound, and [overflows] tells whether an
    insertion in a full store has undefined behaviour instead of being
    refused. *)
Class JobStore (Q T : Type) (ins : list T → T → list T) : Type := {
  store_ok : Q → Prop;
  jobs : Q → list T;
  capacity : Q → option Z;
  overflows : bool;
  put : Q → T → res (option Q);
  take_job : Q → res (option (T * Q));
  put_law q t :
    store_ok q →
    if decide (capacity q = Some (Z.of_nat (length (jobs q)))) then put q t = (if overflows then Fault else Done None)
    else ∃ q', put q t = Done (Some q') ∧ store_ok q' ∧
               capacity q' = capacity q ∧ jobs q' = ins (jobs q) t;
  take_law q :
    store_ok q →
    match jobs q with
    | [] => take_job q = Done None
    | t :: ts => ∃ q', take_job q = Done (Some (t, q')) ∧ store_ok q' ∧
                       capacity q' = capacity q ∧ jobs q' = ts
    end
}.

Inductive store_op (T : Type) : Type := Put (t : T) | Take.
Arguments Put {T} t.
Arguments Take {T}.

Inductive store_ans (T : Type) : Type := Accepted | Refused | Got (t : T) | Nothing.
Arguments Accepted {T}.
Arguments Refused {T}.
Arguments Got {T} t.
Arguments Nothing {T}.

#[export] Instance store_ans_eq_dec `{EqDecision T} : EqDecision (store_ans T).
Proof. solve_decision. Defined.

Section refinement.
Context {Q T : Type} {ins : list T → T → list T} {St : JobStore Q T ins}.

Definition store_op_run (o : store_op T) (q : Q) : res (store_ans T * Q) :=
  match o with
  | Put t => r ← put q t; mret match r with Some q' => (Accepted, q') | None => (Refused, q) end
  | Take => r ← take_job q; mret match r with Some (t, q') => (Got t, q') | None => (Nothing, q) end
  end.

Fixpoint store_run (os : list (store_op T)) (q : Q) : res (list (store_ans T) * Q) :=
  match os with
  | [] => Done ([], q)
  | o :: os =>
      '(a, q1) ← store_op_run o q;
      '(l, q2) ← store_run os q1;
      mret (a :: l, q2)
  end.

(** The specification: the same operations on a list of bounded length. *)
Definition list_op (cap : option Z) (o : store_op T) (l : list T) : store_ans T * list T :=
  match o with
  | Put t => if decide (cap = Some (Z.of_nat (length l))) then (Refused, l) else (Accepted, ins l t)
  | Take => match l with [] => (Nothing, []) | t :: l => (Got t, l) end
  end.

Fixpoint list_run (cap : option Z) (os : list (store_op T)) (l : list T)
    : list (store_ans T) * list T :=
  match os with
  | [] => ([], l)
  | o :: os =>
      let '(a, l1) := list_op cap o l in
      let '(r, l2) := list_run cap os l1 in (a :: r, l2)
  end.

Lemma store_op_refines o q :
  store_ok q → overflows = false ∨ (list_op (capacity q) o (jobs q)).1 ≠ Refused →
  ∃ a q', store_op_run o q = Done (a, q') ∧ store_ok q' ∧ capacity q' = capacity q ∧
          list_op (capacity q) o (jobs q) = (a, jobs q').
Proof.
  intros Hq Hov. destruct o as [t|]; cbn in *.
  - pose proof (put_law q t Hq) as H. destruct (decide _).
    + destruct Hov as [Hov|Hov]; [|done]. rewrite Hov in H. rewrite H. cbn. naive_solver.
    + destruct H as (q' & -> & ? & ? & <-). cbn. naive_solver.
  - pose proof (take_law q Hq) as H. destruct (jobs q) as [|t ts] eqn:E.
    + rewrite H. cbn. exists Nothing, q. by rewrite E.
    + destruct H as (q' & -> & ? & ? & <-). cbn. naive_solver.
Qed.

(** Every run of operations on a well-formed store completes, without undefined
    behaviour, with the answers the list specification gives, provided it does
    not overflow the store. *)
Lemma store_run_refines os q :
  store_ok q → overflows = false ∨ Refused ∉ (list_run (capacity q) os (jobs q)).1 →
  ∃ r q', store_run os q = Done (r, q') ∧ store_ok q' ∧ capacity q' = capacity q ∧
          list_run (capacity q) os (jobs q) = (r, jobs q').
Proof.
  revert q. induction os as [|o os IH]; intros q Hq Hov; cbn in *; [eauto 6|].
  destruct (list_op (capacity q) o (jobs q)) as [a l] eqn:Eo.
  destruct (list_run (capacity q) os l) as [r l'] eqn:Er. cbn in Hov.
  destruct (store_op_refines o q Hq) as (a1 & q1 & -> & H1 & Hc & Hl).
  { rewrite Eo. set_solver. }
  rewrite Eo in Hl. injection Hl as <- ->. cbn.
  destruct (IH q1 H1) as (r1 & q2 & -> & H2 & Hc2 & Hr).
  { rewrite Hc, Er. set_solver. }
  rewrite Hc, Er in Hr. injection Hr as <- ->. cbn.
  exists (a :: r), q2. split_and!; [done|done|congruence|done].
Qed.
End refinement.

(** A store without jobs, for the pools that start with one or drop their jobs. *)
Class EmptyStore (Q T : Type) (ins : list T → T → list T) {St : JobStore Q T ins} : Type := {
  empty_store : Q;
  empty_store_ok : store_ok empty_store;
  empty_store_jobs : jobs empty_store = []
}.

(** Without a capacity an insertion is always accepted. *)
Lemma put_unbounded {Q T ins} {St : JobStore Q T ins} q t :
  store_ok q → capacity q = None →
  ∃ q', put q t = Done (Some q') ∧ store_ok q' ∧ capacity q' = None ∧ jobs q' = ins (jobs q) t.
Proof.
  intros Hq Hc. pose proof (put_law q t Hq) as H. rewrite Hc in H. by rewrite decide_False in H by done.
Qed.

(** A store answers at once. *)
Lemma put_not_blocked {Q T ins} {St : JobStore Q T ins} q t : store_ok q → put q t ≠ Blocked.
Proof.
  intros Hq. pose proof (put_law q t Hq) as H. case_decide.
  - destruct overflows; by rewrite H.
  - by destruct H as (q' & -> & _).
Qed.

Lemma take_not_blocked {Q T ins} {St : JobStore Q T ins} q : store_ok q → take_job q ≠ Blocked.
Proof.
  intros Hq. pose proof (take_law q Hq) as H. destruct (jobs q).
  - by rewrite H.
  - by destruct H as (q' & -> & _).
Qed.
