(* ===== verification/Wakeup.v ===== *)
(** * No lost wakeup

    The promise that keeps a pool of workers asleep on one condition variable
    from forgetting work, as an interface: whoever makes work available signals
    the condition, or is awake and will; a worker goes to sleep only when there
    is no work.  What follows from it is proved once here, for the pools that use
    [pthread_cond_signal] with a queue of jobs of any length. *)

From S2P Require Import Prelude Pthread.

(** Under the invariant [J]: [work] says that work is available, [alert] which
    threads are awake and will look for it, or will signal. *)
Class Alerting {I S L} {P : Program I S L} (ok : I → Prop) (J : S → list L → Prop)
    (work : S → Prop) (alert : L → bool) (c : nat) : Prop := {
  alert_work ls t x s l s' l' e :
    ok x → J s ls → ls !! t = Some l → tstep ls t x s l = Done (s', l', e) →
    work s' → work s ∨ alert l' = true ∨ e = Some (Signal c);
  alert_keeps ls t x s l s' l' e :
    ok x → J s ls → ls !! t = Some l → tstep ls t x s l = Done (s', l', e) →
    work s' → alert l = true → alert l' = true ∨ e = Some (Signal c);
  alert_sleep ls t x s l s' l' e :
    ok x → J s ls → ls !! t = Some l → tstep ls t x s l = Done (s', l', e) →
    work s' → waits_on l' ≠ Some c;
  alert_effect ls t x s l s' l' e :
    ok x → J s ls → tstep ls t x s l = Done (s', l', e) →
    match e with Some (Signal c') | Some (Broadcast c') => c' = c | Some (Spawn k) => waits_on k = None | None => True end;
  alert_awake l : is_Some (waits_on l) → alert l = false;
  alert_woken l : waits_on l = Some c → alert (woken l) = true
}.

Section alerting.
Context {I S L : Type} {P : Program I S L} {ok : I → Prop} {J : S → list L → Prop}.
Context {work : S → Prop} {alert : L → bool} {c : nat} {A : Alerting ok J work alert c}.
Implicit Types (s : S) (ls : list L).

(** While work is available and a worker sleeps, a thread is awake. *)
Definition watched s ls : Prop :=
  work s → (∃ t l, ls !! t = Some l ∧ waits_on l = Some c) → ∃ t l, ls !! t = Some l ∧ alert l = true.

Lemma alert_survives (e : option (effect L)) ls ls' t l :
  effect_on e ls ls' → match e with Some (Signal c') | Some (Broadcast c') => c' = c | _ => True end →
  ls !! t = Some l → alert l = true → ∃ l', ls' !! t = Some l' ∧ alert l' = true.
Proof using A.
  intros He Hc Hl Ha. destruct He as [ls|k ls w l0 Hw Hwt|k ls Hn|k ls|l0 ls]; [by eauto| |by eauto| |].
  - subst k. destruct (decide (t = w)) as [->|Hne].
    + exists (woken l0). rewrite list_lookup_insert_eq by (by eapply lookup_lt_Some).
      split; [done|]. by apply (alert_woken (ok := ok) (J := J) (work := work)).
    + exists l. by rewrite list_lookup_insert_ne.
  - subst k. unfold wake_all. rewrite list_lookup_fmap, Hl. cbn. eexists. split; [done|].
    unfold waits_for. case_bool_decide; [|done]. by apply (alert_woken (ok := ok) (J := J) (work := work)).
  - exists l. split; [by apply lookup_app_l_Some|done].
Qed.

Lemma watched_run s ls t x l s' l' e ls' :
  J s ls → watched s ls → ok x → ls !! t = Some l → tstep ls t x s l = Done (s', l', e) →
  effect_on e (<[t := l']> ls) ls' → watched s' ls'.
Proof using A.
  intros HJ Hw Hx Hl Hs He Hwk (u & k & Hu & Hk).
  pose proof (alert_effect (Alerting := A) _ _ _ _ _ _ _ _ Hx HJ Hs) as Hef.
  assert (e = Some (Signal c) ∨ e ≠ Some (Signal c)) as [->|Hne].
  { destruct e as [[c'| |]|]; [|by right..]. left. by rewrite Hef. }
  - (* a sleeper, if there is one, is woken *)
    inversion He as [|c0 k0 w l0 Hw0 Hc0|c0 k0 Hn| |]; subst.
    + exists w, (woken l0). rewrite list_lookup_insert_eq by (by eapply lookup_lt_Some).
      split; [done|]. by apply (alert_woken (ok := ok) (J := J) (work := work)).
    + by destruct (Hn _ _ Hu).
  - assert (match e with Some (Signal c') | Some (Broadcast c') => c' = c | _ => True end) as Hef'
      by (by destruct e as [[]|]).
    assert (∃ b k, <[t := l']> ls !! b = Some k ∧ alert k = true) as (b & k' & Hb & Ha).
    { destruct (alert l') eqn:Hal.
      - exists t, l'. by rewrite list_lookup_insert_eq by (by eapply lookup_lt_Some).
      - destruct (alert_work (Alerting := A) _ _ _ _ _ _ _ _ Hx HJ Hl Hs Hwk) as [Hwk0|[?|?]]; [|congruence..].
        assert (∃ u k, ls !! u = Some k ∧ waits_on k = Some c) as Hsl.
        { apply (effect_on_lookup _ _ _ _ _ He) in Hu as [Hu|[(k0 & _ & Hk0 & ->)|(-> & _)]].
          - destruct (decide (u = t)) as [->|Hut].
            + rewrite list_lookup_insert_eq in Hu by (by eapply lookup_lt_Some). simplify_eq.
              by destruct (alert_sleep (Alerting := A) _ _ _ _ _ _ _ _ Hx HJ Hl Hs Hwk).
            + rewrite list_lookup_insert_ne in Hu by done. eauto.
          - rewrite (woken_awake k0 Hk0) in Hk. done.
          - cbn in Hef. congruence. }
        destruct (Hw Hwk0 Hsl) as (b & k' & Hb & Hak). destruct (decide (b = t)) as [->|Hbt].
        + simplify_eq. by destruct (alert_keeps (Alerting := A) _ _ _ _ _ _ _ _ Hx HJ Hl Hs Hwk Hak); [congruence|].
        + exists b, k'. by rewrite list_lookup_insert_ne. }
    destruct (alert_survives _ _ _ _ _ He Hef' Hb Ha) as (k2 & Hk2 & Ha2). eauto.
Qed.

Lemma watched_step s ls s' ls' :
  J s ls → watched s ls → step ok (s, ls) (s', ls') → watched s' ls'.
Proof using A.
  intros HJ Hw Hst.
  apply step_inv in Hst as [(t & x & l & l' & e & Hx & Hl & Hs & He)|(t & l & -> & Hl & Hwt & ->)].
  - by eapply watched_run.
  - intros Hwk (u & k & Hu & Hk). destruct (decide (u = t)) as [->|Hut].
    + rewrite list_lookup_insert_eq in Hu by (by eapply lookup_lt_Some). simplify_eq.
      by rewrite (woken_awake l Hwt) in Hk.
    + rewrite list_lookup_insert_ne in Hu by done. destruct (Hw Hwk) as (b & k' & Hb & Ha); [by eauto|].
      destruct (decide (b = t)) as [->|Hbt]; [|exists b, k'; by rewrite list_lookup_insert_ne].
      simplify_eq. by rewrite (alert_awake (Alerting := A) _ Hwt) in Ha.
Qed.
End alerting.

(** ** Progress

    A program with one mutex, whose threads block only when they are idle or
    want the mutex while it is taken. *)
Section progress.
Context {I S L : Type} {P : Program I S L}.
Context (get : S → mutex) (holds wants idle : L → bool) (go : I).

(** No thread that is not idle can make a step, and none has undefined
    behaviour. *)
Definition at_rest (s : S) (ls : list L) : Prop :=
  ∀ t l, ls !! t = Some l → idle l = false →
    tstep ls t go s l ≠ Fault ∧ ∀ w cf, exec (Run t go w) (s, ls) ≠ Done cf.

Lemma all_idle s ls :
  (∀ t l, ls !! t = Some l → tstep ls t go s l = Blocked → idle l = true ∨ (wants l = true ∧ get s ≠ MFree)) →
  (∀ l, holds l = true → wants l = false ∧ idle l = false) →
  get s ≠ MUninit → no_leak_inv get holds s ls → at_rest s ls →
  get s = MFree ∧ ∀ t l, ls !! t = Some l → idle l = true.
Proof.
  intros Hb Hh Hu Hn Hq.
  assert (∀ t l, ls !! t = Some l → idle l = false → tstep ls t go s l = Blocked) as Hbl.
  { intros t l Hl Hi. destruct (Hq t l Hl Hi) as [Hf Hno].
    destruct (tstep ls t go s l) as [[[s' l'] e]| |] eqn:E; [|done..].
    destruct (exec_Done _ _ _ _ _ _ _ _ Hl E) as (w & cf & Hex). by destruct (Hno w cf). }
  assert (get s = MFree) as Hfree.
  { destruct (get s) as [| |t] eqn:E; [done..|]. destruct (Hn t E) as (l & Hl & Hhl).
    destruct (Hh l Hhl) as [Hw Hi]. destruct (Hb t l Hl (Hbl t l Hl Hi)) as [?|[? _]]; congruence. }
  split; [done|]. intros t l Hl. destruct (idle l) eqn:Hi; [done|].
  destruct (Hb t l Hl (Hbl t l Hl Hi)) as [?|[_ ?]]; congruence.
Qed.

Lemma idle_at_rest s ls : forallb idle ls = true → at_rest s ls.
Proof.
  intros Hid t l Hl Hi. rewrite forallb_forall in Hid.
  rewrite (Hid l) in Hi; [done|]. apply list_elem_of_In. by eapply list_elem_of_lookup_2.
Qed.
End progress.
