(* ===== verification/Threadpool.v ===== *)
(** * threadpool.c: data, task queue and API functions

    The pool of [threadpool/threadPool1/src/threadpool.c] (a verbatim copy is
    in [threadpool/threadpool-master/src]): the structures of the C file, the
    code of each function between its calls to the pthread library, and the
    ring buffer of tasks as an instance of [JobStore].  The interleaving of
    the threads is in [ThreadpoolRun]. *)

From S2P Require Import Prelude Pthread Store.
Open Scope Z_scope.

(** ** Data *)

(** [threadpool_error_t] and its values, [threadpool.h]. *)
Inductive threadpool_error_t : Type :=
  | threadpool_invalid
  | threadpool_lock_failure
  | threadpool_queue_full
  | threadpool_shutdown
  | threadpool_thread_failure.

Definition error_code (e : threadpool_error_t) : Z :=
  match e with
  | threadpool_invalid => -1
  | threadpool_lock_failure => -2
  | threadpool_queue_full => -3
  | threadpool_shutdown => -4
  | threadpool_thread_failure => -5
  end.

(** [threadpool_destroy_flags_t] *)
Definition threadpool_graceful : Z := 1.

(** [threadpool_shutdown_t] *)
Definition immediate_shutdown : Z := 1.
Definition graceful_shutdown : Z := 2.

(** A task: the addresses of a function and of its argument. *)
Record threadpool_task_t : Type := Task { function : Z; argument : Z }.

#[export] Instance task_eq_dec : EqDecision threadpool_task_t.
Proof. solve_decision. Defined.

Definition NULL : Z := 0.

(** [struct threadpool_t].  [notify] tells whether the condition variable is
    initialised; an array pointer is [None] when it is [NULL], and a cell of an
    array is [None] until it is written. *)
Record threadpool_t : Type := Pool {
  lock : mutex;
  notify : bool;
  threads : option (list (option nat));
  queue : option (list (option threadpool_task_t));
  thread_count : Z;
  queue_size : Z;
  head : Z;
  tail : Z;
  count : Z;
  shutdown : Z;
  started : Z
}.

Definition set_lock (m : mutex) (p : threadpool_t) : threadpool_t :=
  Pool m (notify p) (threads p) (queue p) (thread_count p) (queue_size p) (head p) (tail p)
    (count p) (shutdown p) (started p).
Definition set_threads (a : option (list (option nat))) (p : threadpool_t) : threadpool_t :=
  Pool (lock p) (notify p) a (queue p) (thread_count p) (queue_size p) (head p) (tail p)
    (count p) (shutdown p) (started p).
Definition set_ring (q : option (list (option threadpool_task_t))) (h t c : Z)
    (p : threadpool_t) : threadpool_t :=
  Pool (lock p) (notify p) (threads p) q (thread_count p) (queue_size p) h t
    c (shutdown p) (started p).
Definition set_shutdown (z : Z) (p : threadpool_t) : threadpool_t :=
  Pool (lock p) (notify p) (threads p) (queue p) (thread_count p) (queue_size p) (head p) (tail p)
    (count p) z (started p).
Definition set_counts (tc st : Z) (p : threadpool_t) : threadpool_t :=
  Pool (lock p) (notify p) (threads p) (queue p) tc (queue_size p) (head p) (tail p)
    (count p) (shutdown p) st.

(** The blocks of memory a pool is made of. *)
Inductive block : Type := BPool | BThreads | BQueue.

#[export] Instance block_eq_dec : EqDecision block.
Proof. solve_decision. Defined.

Definition allocated (p : threadpool_t) : list block :=
  BPool :: (if threads p is Some _ then [BThreads] else []) ++ (if queue p is Some _ then [BQueue] else []).

(** ** threadpool_free

    Return code, and the blocks given back to the allocator.  The calling
    thread is [t].  [pthread_mutex_destroy] is called on the mutex that has
    just been locked; what it returns is ignored. *)
Definition threadpool_free (t : nat) (pool : option threadpool_t) : res (Z * list block) :=
  match pool with
  | None => Done (-1, [])
  | Some p =>
      if 0 <? started p then Done (-1, [])
      else match threads p with
           | Some _ =>
               m ← mutex_lock t (lock p);
               _ ← mutex_destroy m;
               _ ← check (notify p);
               Done (0, [BThreads] ++ (if queue p is Some _ then [BQueue] else []) ++ [BPool])
           | None => Done (0, [BPool])
           end
  end.

(** ** threadpool_create, up to the first worker

    What the allocator and the pthread library answer. *)
Record create_env : Type := CreateEnv {
  malloc_pool : bool;
  malloc_threads : bool;
  malloc_queue : bool;
  mutex_init_rc : Z;
  cond_init_rc : Z
}.

Definition sizeof_pthread_t : Z := 8.
Definition sizeof_task : Z := 16.

Definition fresh_array {A} (granted : bool) (elt n : Z) : option (list (option A)) :=
  if malloc_succeeds granted (size_mul elt n) then Some (replicate (Z.to_nat n) None) else None.

(** Lines 107-124: the structure, its arrays, its mutex and its condition
    variable; the boolean is the outcome of the test of lines 119-122. *)
Definition create_pool (env : create_env) (tc qs : Z) : threadpool_t * bool :=
  let mutex_ok := mutex_init_rc env =? 0 in
  let cond_ok := mutex_ok && (cond_init_rc env =? 0) in
  let th := fresh_array (malloc_threads env) sizeof_pthread_t tc in
  let qu := fresh_array (malloc_queue env) sizeof_task qs in
  (Pool (if mutex_ok then MFree else MUninit) cond_ok th qu 0 qs 0 0 0 0 0,
   cond_ok && bool_decide (is_Some th) && bool_decide (is_Some qu)).

(** The pool handed to the loop that starts the workers, or the blocks freed on
    the way to the [err] label. *)
Inductive created : Type :=
  | Created (p : threadpool_t)
  | CreateNull (freed : list block).

Definition threadpool_create_init (t : nat) (env : create_env) (tc qs : Z) : res created :=
  if malloc_pool env then
    let '(p, ok) := create_pool env tc qs in
    if ok : bool then Done (Created p)
    else '(_, bs) ← threadpool_free t (Some p); Done (CreateNull bs)
  else Done (CreateNull []).

(** Lines 133-134, after the creation of a worker. *)
Definition create_count (p : threadpool_t) : res threadpool_t :=
  tc ← int_of (thread_count p + 1);
  st ← int_of (started p + 1);
  Done (set_counts tc st p).

(** ** threadpool_add

    Lines 160-187, under the lock: new pool, error code, and whether
    [pthread_cond_signal] succeeded on [notify]; [signal_rc] is its result. *)
Definition threadpool_add_locked (p : threadpool_t) (t : threadpool_task_t) (signal_rc : Z)
    : res (threadpool_t * Z * bool) :=
  next ← int_of (tail p + 1);
  let next := if next =? queue_size p then 0 else next in
  if count p =? queue_size p then Done (p, error_code threadpool_queue_full, false)
  else if negb (shutdown p =? 0) then Done (p, error_code threadpool_shutdown, false)
  else match queue p with
       | None => Fault
       | Some q =>
           q' ← arr_set q (tail p) (Some t);
           c ← int_of (count p + 1);
           _ ← check (notify p);
           let p' := set_ring (Some q') (head p) next c p in
           if signal_rc =? 0 then Done (p', 0, true)
           else Done (p', error_code threadpool_lock_failure, false)
       end.

(** Lines 152-154: the test on the arguments. *)
Definition threadpool_add_invalid (pool : option threadpool_t) (t : threadpool_task_t) : bool :=
  bool_decide (pool = None) || (function t =? NULL).

(** The whole function run by thread [t0] with no other thread in between;
    [lock_rc], [signal_rc] and [unlock_rc] are what the pthread library
    returns. *)
Definition threadpool_add (t0 : nat) (pool : option threadpool_t) (t : threadpool_task_t)
    (lock_rc signal_rc unlock_rc : Z) : res (option threadpool_t * Z * bool) :=
  match pool with
  | None => Done (None, error_code threadpool_invalid, false)
  | Some p =>
      if function t =? NULL then Done (pool, error_code threadpool_invalid, false)
      else if negb (lock_rc =? 0) then Done (pool, error_code threadpool_lock_failure, false)
      else
        m ← mutex_lock t0 (lock p);
        '(p', err, sig) ← threadpool_add_locked (set_lock m p) t signal_rc;
        if negb (unlock_rc =? 0) then Done (Some p', error_code threadpool_lock_failure, sig)
        else m' ← mutex_unlock t0 (lock p'); Done (Some (set_lock m' p'), err, sig)
  end.

(** ** threadpool_destroy

    Lines 210-216, under the lock. *)
Definition shutdown_mode (flags : Z) : Z :=
  if Z.land flags threadpool_graceful =? 0 then immediate_shutdown else graceful_shutdown.

Definition threadpool_destroy_locked (p : threadpool_t) (flags : Z) : threadpool_t * Z :=
  if negb (shutdown p =? 0) then (p, error_code threadpool_shutdown)
  else (set_shutdown (shutdown_mode flags) p, 0).

(** ** threadpool_thread

    The tests of lines 274 and 278-280, and lines 285-289. *)
Definition thread_must_wait (p : threadpool_t) : bool :=
  (count p =? 0) && (shutdown p =? 0).

Definition thread_must_exit (p : threadpool_t) : bool :=
  (shutdown p =? immediate_shutdown) || ((shutdown p =? graceful_shutdown) && (count p =? 0)).

Definition thread_grab (p : threadpool_t) : res (threadpool_t * threadpool_task_t) :=
  match queue p with
  | None => Fault
  | Some q =>
      t ← arr_read q (head p);
      h ← int_of (head p + 1);
      let h := if h =? queue_size p then 0 else h in
      c ← int_of (count p - 1);
      Done (set_ring (Some q) h (tail p) c p, t)
  end.

(** ** The ring buffer

    [ring p ts]: the pool [p] is well formed and its pending tasks are [ts], in
    the order in which the workers take them: the slots from [head] on, modulo
    [queue_size]. *)

Record ring (p : threadpool_t) (ts : list threadpool_task_t) : Prop := Ring {
  ring_slots : ∃ q, queue p = Some q ∧ Z.of_nat (length q) = queue_size p ∧
    ∀ k t, ts !! k = Some t →
      q !! Z.to_nat ((head p + Z.of_nat k) mod queue_size p) = Some (Some t);
  ring_size : 0 <= queue_size p <= INT_MAX;
  ring_count : count p = Z.of_nat (length ts);
  ring_bound : count p <= queue_size p;
  ring_head : 0 <= head p < Z.max 1 (queue_size p);
  ring_tail : tail p = (head p + count p) mod queue_size p
}.

(** The pending tasks, read off the structure. *)
Definition pending (p : threadpool_t) : list threadpool_task_t :=
  omap (λ k, match queue p with
             | Some q => mjoin (q !! Z.to_nat ((head p + Z.of_nat k) mod queue_size p))
             | None => None
             end)
       (seq 0 (Z.to_nat (count p))).

Section ring_facts.
Implicit Types (p : threadpool_t) (ts : list threadpool_task_t).

Lemma wrap_next a n : 0 <= a < n → (if a + 1 =? n then 0 else a + 1) = (a + 1) mod n.
Proof.
  intros Ha. destruct (a + 1 =? n) eqn:E; bools.
  - rewrite E. rewrite Z.mod_same; lia.
  - rewrite Z.mod_small; lia.
Qed.

Lemma mod_slot_ne h k c n : 0 <= k < c → c < n → (h + k) mod n ≠ (h + c) mod n.
Proof.
  intros Hk Hc H.
  assert ((c - k) mod n = 0) as H0.
  { replace (c - k) with ((h + c) - (h + k)) by lia.
    rewrite Zminus_mod, H, Z.sub_diag. apply Z.mod_0_l. lia. }
  rewrite Z.mod_small in H0; lia.
Qed.

Lemma omap_seq_lookup {A} (f : nat → option A) (l : list A) i :
  (∀ k t, l !! k = Some t → f (i + k)%nat = Some t) → omap f (seq i (length l)) = l.
Proof.
  revert i. induction l as [|x l IH]; intros i H; cbn; [done|].
  pose proof (H 0%nat x eq_refl) as Hx. rewrite Nat.add_0_r in Hx. rewrite Hx.
  f_equal. apply IH. intros k t Hk. replace (S i + k)%nat with (i + S k)%nat by lia. by apply H.
Qed.

Lemma ring_pending p ts : ring p ts → pending p = ts.
Proof.
  intros [(q & Hq & Hlen & Hs) ? Hc ? ? ?]. unfold pending. rewrite Hc, Nat2Z.id.
  apply omap_seq_lookup. intros k t Hk. rewrite Hq. cbn. by rewrite (Hs k t Hk).
Qed.

Lemma ring_tail_bound p ts : ring p ts → 0 <= tail p < Z.max 1 (queue_size p).
Proof.
  intros [_ Hq Hc Hb Hh ->]. destruct (decide (queue_size p = 0)) as [E|E].
  - rewrite E, Z.mod_0_r_ext by done. lia.
  - pose proof (Z.mod_pos_bound (head p + count p) (queue_size p)). lia.
Qed.

(** Changing anything but the ring keeps the pending tasks. *)
Lemma ring_ext p p' ts :
  ring p ts → queue p' = queue p → queue_size p' = queue_size p → head p' = head p →
  tail p' = tail p → count p' = count p → ring p' ts.
Proof. intros [? ? ? ? ? ?] Hq Hs Hh Ht Hc. split; rewrite ?Hq, ?Hs, ?Hh, ?Ht, ?Hc; done. Qed.

Lemma ring_enqueue p ts t :
  ring p ts → count p < queue_size p →
  ∃ q q', queue p = Some q ∧ arr_set q (tail p) (Some t) = Done q' ∧
    ring (set_ring (Some q') (head p)
            (if tail p + 1 =? queue_size p then 0 else tail p + 1) (count p + 1) p) (ts ++ [t]).
Proof.
  intros Hr Hlt. pose proof (ring_tail_bound _ _ Hr) as Ht.
  destruct Hr as [(q & Hq & Hlen & Hs) Hsz Hc Hb Hh Htl].
  exists q, (<[Z.to_nat (tail p) := Some t]> q). split; [done|].
  split; [apply arr_set_in; lia|]. split; cbn.
  - eexists. split; [done|]. split; [by rewrite length_insert|]. intros k u Hk.
    apply lookup_app_Some in Hk as [Hk|[Hge Hk]].
    + assert (k < length ts)%nat by (by eapply lookup_lt_Some).
      rewrite list_lookup_insert_ne; [by apply Hs|]. rewrite Htl.
      pose proof (mod_slot_ne (head p) (Z.of_nat k) (count p) (queue_size p)).
      pose proof (Z.mod_pos_bound (head p + count p) (queue_size p)).
      pose proof (Z.mod_pos_bound (head p + Z.of_nat k) (queue_size p)). lia.
    + destruct (k - length ts)%nat eqn:E; simplify_eq/=.
      replace (Z.of_nat k) with (count p) by lia. rewrite <- Htl.
      apply list_lookup_insert_eq. lia.
  - lia.
  - rewrite length_app; cbn. lia.
  - lia.
  - lia.
  - rewrite (wrap_next (tail p) (queue_size p)) by lia.
    rewrite Htl, Zplus_mod_idemp_l. f_equal; lia.
Qed.

Lemma ring_dequeue p t ts :
  ring p (t :: ts) →
  ∃ q, queue p = Some q ∧ arr_read q (head p) = Done t ∧
    ring (set_ring (Some q) (if head p + 1 =? queue_size p then 0 else head p + 1) (tail p)
            (count p - 1) p) ts.
Proof.
  intros [(q & Hq & Hlen & Hs) Hsz Hc Hb Hh Htl]. cbn in Hc.
  exists q. split; [done|]. split.
  - apply arr_read_in; [lia|]. specialize (Hs 0%nat t eq_refl).
    rewrite Z.add_0_r, Z.mod_small in Hs by lia. done.
  - rewrite (wrap_next (head p) (queue_size p)) by lia.
    pose proof (Z.mod_pos_bound (head p + 1) (queue_size p)).
    split; cbn; try lia.
    + eexists. split; [done|]. split; [done|]. intros k u Hk.
      rewrite Zplus_mod_idemp_l.
      replace (head p + 1 + Z.of_nat k) with (head p + Z.of_nat (S k)) by lia. by apply Hs.
    + rewrite Htl, Zplus_mod_idemp_l. f_equal; lia.
Qed.
End ring_facts.

(** ** Specifications of the operations *)

Section operations.
Implicit Types (p : threadpool_t) (ts : list threadpool_task_t).

(** What [threadpool_add] does to the pending tasks and answers, as a
    function of the pool's state and of the result of the signal. *)
Definition add_outcome p ts (t : threadpool_task_t) (signal_rc : Z)
    : list threadpool_task_t * Z :=
  if count p =? queue_size p then (ts, error_code threadpool_queue_full)
  else if negb (shutdown p =? 0) then (ts, error_code threadpool_shutdown)
  else (ts ++ [t], if signal_rc =? 0 then 0 else error_code threadpool_lock_failure).

(** The fields outside the ring are left alone. *)
Definition same_frame p p' : Prop :=
  lock p' = lock p ∧ notify p' = notify p ∧ threads p' = threads p ∧
  thread_count p' = thread_count p ∧ queue_size p' = queue_size p ∧
  shutdown p' = shutdown p ∧ started p' = started p.

Lemma add_locked_frame p t rc p' err sig :
  threadpool_add_locked p t rc = Done (p', err, sig) → same_frame p p'.
Proof. intros H. unfold threadpool_add_locked in H. split_matches H; done. Qed.

Lemma grab_frame p p' t : thread_grab p = Done (p', t) → same_frame p p'.
Proof. intros H. unfold thread_grab in H. split_matches H; done. Qed.

Lemma add_locked_spec p ts t rc :
  ring p ts → notify p = true →
  ∃ p', threadpool_add_locked p t rc =
          Done (p', (add_outcome p ts t rc).2,
                bool_decide ((add_outcome p ts t rc).2 = 0)) ∧
        ring p' (add_outcome p ts t rc).1 ∧ same_frame p p'.
Proof.
  intros Hr Hn. pose proof (ring_tail_bound _ _ Hr). pose proof (ring_size _ _ Hr).
  unfold threadpool_add_locked, add_outcome, same_frame.
  rewrite (int_of_fits (tail p + 1)) by (unfold INT_MIN, INT_MAX in *; lia). cbn.
  destruct (count p =? queue_size p) eqn:Ef; bools; cbn; [by exists p|].
  destruct (shutdown p =? 0) eqn:Es; bools; cbn; [|by exists p].
  pose proof (ring_bound _ _ Hr). pose proof (ring_count _ _ Hr).
  destruct (ring_enqueue p ts t Hr) as (q & q' & Hq & Hset & Hr'); [lia|].
  rewrite Hq, Hset. cbn. rewrite (int_of_fits (count p + 1)) by (unfold INT_MIN, INT_MAX in *; lia). cbn.
  rewrite Hn. cbn. destruct (rc =? 0); cbn; eauto 10.
Qed.

Lemma grab_spec p t ts :
  ring p (t :: ts) →
  ∃ p', thread_grab p = Done (p', t) ∧ ring p' ts ∧ same_frame p p'.
Proof.
  intros Hr. pose proof (ring_size _ _ Hr). pose proof (ring_head _ _ Hr).
  pose proof (ring_bound _ _ Hr). pose proof (ring_count _ _ Hr) as Hc. cbn in Hc.
  destruct (ring_dequeue p t ts Hr) as (q & Hq & Hrd & Hr'). unfold thread_grab, same_frame.
  rewrite Hq, Hrd. cbn. rewrite (int_of_fits (head p + 1)) by (unfold INT_MIN, INT_MAX in *; lia).
  cbn. rewrite (int_of_fits (count p - 1)) by (unfold INT_MIN, INT_MAX in *; lia). cbn. eauto 12.
Qed.

(** A request for a negative number of elements exceeds what [malloc] serves. *)
Lemma malloc_nonneg granted elt n :
  0 < elt <= 16 → INT_MIN <= n <= INT_MAX →
  malloc_succeeds granted (size_mul elt n) = true → 0 <= n.
Proof.
  unfold malloc_succeeds, size_mul, to_size_t, INT_MIN, INT_MAX, PTRDIFF_MAX. intros He Hn H.
  bools. destruct (decide (0 <= n)) as [|Hneg]; [done|].
  rewrite <- Zmult_mod in *.
  replace (elt * n) with (elt * n + SIZE_MOD + (-1) * SIZE_MOD) in * by lia.
  rewrite Z_mod_plus_full in *. rewrite Z.mod_small in * by (unfold SIZE_MOD; nia).
  unfold SIZE_MOD in *. nia.
Qed.

(** The pool fresh from [threadpool_create] has an empty ring. *)
Lemma create_pool_ok env tc qs p :
  INT_MIN <= tc <= INT_MAX → INT_MIN <= qs <= INT_MAX → create_pool env tc qs = (p, true) →
  ring p [] ∧ 0 <= tc ∧ p = Pool MFree true (Some (replicate (Z.to_nat tc) None)) (queue p)
                              0 qs 0 0 0 0 0.
Proof.
  intros Htc Hqs H. unfold create_pool, fresh_array in H. injection H as <- H.
  apply andb_true_iff in H as [H Hq]. apply andb_true_iff in H as [H Ht].
  apply andb_true_iff in H as [Hm Hc].
  destruct (malloc_succeeds _ (size_mul sizeof_pthread_t tc)) eqn:Et;
    [|by apply bool_decide_eq_true_1 in Ht as [??]].
  destruct (malloc_succeeds _ (size_mul sizeof_task qs)) eqn:Eq;
    [|by apply bool_decide_eq_true_1 in Hq as [??]].
  apply malloc_nonneg in Et; [|unfold sizeof_pthread_t; lia|done].
  apply malloc_nonneg in Eq; [|unfold sizeof_task; lia|done].
  rewrite Hm, Hc. cbn. split_and!; [|done|done].
  split; cbn; try (unfold INT_MIN, INT_MAX in *; lia).
  - eexists. split; [done|]. split; [rewrite length_replicate; lia|done].
  - by rewrite Zmod_0_l.
Qed.

Lemma create_init_ok t env tc qs p :
  is_int tc = true → is_int qs = true → threadpool_create_init t env tc qs = Done (Created p) →
  ring p [] ∧ 0 <= tc ∧ p = Pool MFree true (Some (replicate (Z.to_nat tc) None)) (queue p)
                              0 qs 0 0 0 0 0.
Proof.
  rewrite !is_int_spec. intros Htc Hqs H. unfold threadpool_create_init in H.
  destruct (malloc_pool env); [|done]. destruct (create_pool env tc qs) as [p' []] eqn:E.
  - injection H as ->. by eapply create_pool_ok.
  - inv_res. destruct x. by inv_res.
Qed.
End operations.

(** ** The task queue as a job store *)

Definition ring_put (p : threadpool_t) (t : threadpool_task_t) : res (option threadpool_t) :=
  '(p', err, _) ← threadpool_add_locked p t 0;
  Done (if err =? 0 then Some p' else None).

Definition ring_take (p : threadpool_t) : res (option (threadpool_task_t * threadpool_t)) :=
  if count p =? 0 then Done None
  else '(p', t) ← thread_grab p; Done (Some (t, p')).

(** An open pool: well formed, not shutting down. *)
Definition open_pool (p : threadpool_t) : Prop :=
  ring p (pending p) ∧ notify p = true ∧ shutdown p = 0.

#[export] Program Instance ring_store : JobStore threadpool_t threadpool_task_t fifo := {|
  store_ok := open_pool;
  jobs := pending;
  capacity p := Some (queue_size p);
  overflows := false;
  put := ring_put;
  take_job := ring_take
|}.
Next Obligation.
  intros p t (Hr & Hn & Hs).
  destruct (add_locked_spec p _ t 0 Hr Hn) as (p' & Ha & Hr' & Hf).
  unfold ring_put, add_outcome, same_frame in *. rewrite Ha. cbn. clear Ha.
  pose proof (ring_count _ _ Hr). pose proof (ring_size _ _ Hr).
  destruct (count p =? queue_size p) eqn:E; bools; cbn in *.
  - rewrite decide_True by (f_equal; lia). done.
  - rewrite decide_False by (intros ?; simplify_eq; lia).
    rewrite Hs in *. cbn in *. exists p'. destruct Hf as (? & ? & ? & ? & ? & ? & ?).
    unfold open_pool. rewrite (ring_pending _ _ Hr'). split_and!; congruence || done.
Qed.
Next Obligation.
  intros p (Hr & Hn & Hs). pose proof (ring_count _ _ Hr) as Hc.
  unfold ring_take, same_frame in *. destruct (pending p) as [|t ts] eqn:E; cbn in Hc.
  - by rewrite Hc.
  - destruct (grab_spec p t ts Hr) as (p' & -> & Hr' & ? & ? & ? & ? & ? & ? & ?).
    rewrite (proj2 (Z.eqb_neq _ _)) by lia. cbn. exists p'. unfold open_pool.
    rewrite (ring_pending _ _ Hr'). split_and!; congruence || done.
Qed.
