(* ===== verification/ThreadpoolApi.v ===== *)
(** * threadpool.c: the functions of the API, one call at a time

    Every branch of [threadpool_create], [threadpool_add] and
    [threadpool_free], and the ring buffer against a bounded list. *)

From S2P Require Import Prelude Pthread Store Threadpool.
Open Scope Z_scope.

(** What a call of [threadpool_add] by thread [t0] must do: the pending tasks,
    the mutex and the result, as functions of what the pthread calls return. *)
Definition add_expected (t0 : nat) (p : threadpool_t) (ts : list threadpool_task_t)
    (t : threadpool_task_t) (lock_rc signal_rc unlock_rc : Z) : list threadpool_task_t * mutex * Z :=
  if function t =? NULL then (ts, MFree, error_code threadpool_invalid)
  else if negb (lock_rc =? 0) then (ts, MFree, error_code threadpool_lock_failure)
  else
    let '(ts', err) := add_outcome p ts t signal_rc in
    if negb (unlock_rc =? 0) then (ts', MHeld t0, error_code threadpool_lock_failure)
    else (ts', MFree, err).

(** The outcome of [threadpool_add] on every branch.  A full queue is reported before a
    shutdown; the task is appended to the pending ones exactly when the pool is
    neither full nor shutting down, even when the signal then fails and
    [threadpool_lock_failure] is returned; the mutex is free on return unless
    unlocking it failed. *)
Theorem threadpool_add_outcome t0 p ts t lock_rc signal_rc unlock_rc :
  ring p ts → notify p = true → lock p = MFree →
  ∃ p' sig,
    threadpool_add t0 (Some p) t lock_rc signal_rc unlock_rc =
      Done (Some p', (add_expected t0 p ts t lock_rc signal_rc unlock_rc).2, sig) ∧
    ring p' (add_expected t0 p ts t lock_rc signal_rc unlock_rc).1.1 ∧
    lock p' = (add_expected t0 p ts t lock_rc signal_rc unlock_rc).1.2 ∧
    same_frame (set_lock (lock p') p) p' ∧
    (sig = true → ∃ c, pending p' = pending p ++ [c]).
Proof.
  intros Hr Hn Hl. unfold threadpool_add, add_expected.
  destruct (function t =? NULL).
  { exists p, false. split_and!; try done; by apply ring_ext with p. }
  destruct (lock_rc =? 0); cbn [negb].
  2: { exists p, false. split_and!; try done; by apply ring_ext with p. }
  rewrite Hl. cbn [mutex_lock mbind res_bind].
  assert (ring (set_lock (MHeld t0) p) ts) as Hr1 by (by apply ring_ext with p).
  destruct (add_locked_spec _ _ t signal_rc Hr1 Hn) as (p' & Ha & Hr' & Hf).
  rewrite Ha. cbn [mbind res_bind].
  change (add_outcome (set_lock (MHeld t0) p) ts t signal_rc) with (add_outcome p ts t signal_rc) in *.
  assert (∀ p2, ring p2 (add_outcome p ts t signal_rc).1 →
    bool_decide ((add_outcome p ts t signal_rc).2 = 0) = true → ∃ c, pending p2 = pending p ++ [c]) as Hsig.
  { intros p2 Hr2. rewrite (ring_pending _ _ Hr2), (ring_pending _ _ Hr). unfold add_outcome.
    repeat case_match; cbn; intros ?; try done; by eexists. }
  destruct (add_outcome p ts t signal_rc) as [ts' err] eqn:Eo. cbn in *.
  destruct (unlock_rc =? 0); cbn [negb].
  - destruct Hf as (Hlk & Hf). cbn in Hlk. rewrite Hlk. cbn. rewrite decide_True by done. cbn.
    assert (ring (set_lock MFree p') ts') by (by apply ring_ext with p').
    eexists _, _. split; [done|]. split_and!; try done. eauto.
  - eexists _, _. split; [done|]. destruct Hf as (Hlk & Hf). cbn in Hlk. rewrite Hlk. split_and!; try done. eauto.
Qed.

Definition sample_env : create_env := CreateEnv true true true 0 0.
Definition sample_pool : threadpool_t := (create_pool sample_env 1 2).1.

Lemma threadpool_add_outcome_witness :
  ∃ p' sig, threadpool_add 3 (Some sample_pool) (Task 7 0) 0 22 0 =
      Done (Some p', error_code threadpool_lock_failure, sig) ∧ ring p' [Task 7 0] ∧ lock p' = MFree ∧
    same_frame (set_lock (lock p') sample_pool) p' ∧
    (sig = true → ∃ c, pending p' = pending sample_pool ++ [c]).
Proof.
  apply (threadpool_add_outcome 3 sample_pool [] (Task 7 0) 0 22 0); [|done..].
  eapply (create_pool_ok sample_env 1 2); [done..|vm_compute; reflexivity].
Defined.

(** C9: [threadpool_create] up to its first worker.  It succeeds exactly when
    the allocator serves the three requests (so with negative sizes it never
    does) and the mutex and the condition variable are initialised, and the
    pool is then well formed and empty.  When it fails it frees what it has
    allocated, except that the queue leaks when the array of threads was
    refused; and when the mutex or the condition variable could not be
    initialised it has undefined behaviour, for [threadpool_free] uses both. *)
Theorem threadpool_create_cases t env tc qs :
  is_int tc = true → is_int qs = true →
  let p0 := (create_pool env tc qs).1 in
  match threadpool_create_init t env tc qs with
  | Done (Created p) =>
      malloc_pool env = true ∧ mutex_init_rc env = 0 ∧ cond_init_rc env = 0 ∧ 0 <= tc ∧ 0 <= qs ∧
      p = p0 ∧ ring p [] ∧ lock p = MFree ∧ notify p = true ∧ shutdown p = 0 ∧
      threads p = Some (replicate (Z.to_nat tc) None) ∧ thread_count p = 0 ∧ started p = 0
  | Done (CreateNull bs) =>
      (malloc_pool env = false ∧ bs = []) ∨
      (malloc_pool env = true ∧ threads p0 = None ∧ bs = [BPool]) ∨
      (malloc_pool env = true ∧ is_Some (threads p0) ∧ queue p0 = None ∧ bs ≡ₚ allocated p0)
  | Fault =>
      malloc_pool env = true ∧ is_Some (threads p0) ∧
      (mutex_init_rc env ≠ 0 ∨ cond_init_rc env ≠ 0)
  | Blocked => False
  end.
Proof.
  intros Htc Hqs p0. unfold threadpool_create_init.
  destruct (malloc_pool env) eqn:Hp; [|by left].
  destruct (create_pool env tc qs) as [p ok] eqn:E. subst p0. cbn [fst].
  destruct ok.
  - apply is_int_spec in Htc as Htc', Hqs as Hqs'.
    destruct (create_pool_ok _ _ _ _ Htc' Hqs' E) as (Hr & Hpos & Hpe).
    pose proof (ring_size _ _ Hr) as Hq. unfold create_pool in E. injection E as _ Hok.
    apply andb_true_iff in Hok as [[[Hm Hc]%andb_true_iff _]%andb_true_iff _]. bools.
    rewrite Hpe in Hq |- *. cbn in *. rewrite <- Hpe. split_and!; try done; lia.
  - unfold create_pool in E. injection E as <- Hok. unfold threadpool_free, allocated. cbn.
    destruct (fresh_array (malloc_threads env) sizeof_pthread_t tc) as [th|] eqn:Eth; cbn;
      [|right; left; done].
    destruct (mutex_init_rc env =? 0) eqn:Em; cbn; [|bools; eauto].
    destruct (cond_init_rc env =? 0) eqn:Ec; cbn; [|bools; eauto].
    destruct (fresh_array (malloc_queue env) sizeof_task qs) as [q|] eqn:Eq; [done|].
    right; right. split_and!; eauto. apply Permutation_swap.
Qed.

Lemma threadpool_create_cases_witness :
  threadpool_create_init 0 (CreateEnv true true true 12 0) 1 1 = Fault ∧
  threadpool_create_init 0 (CreateEnv true false true 0 0) 1 1 = Done (CreateNull [BPool]) ∧
  let p := (create_pool (CreateEnv true true false 0 0) 1 1).1 in
  (true = false ∧ [BThreads; BPool] = []) ∨ (true = true ∧ threads p = None ∧ [BThreads; BPool] = [BPool]) ∨
  (true = true ∧ is_Some (threads p) ∧ queue p = None ∧ [BThreads; BPool] ≡ₚ allocated p).
Proof.
  split; [reflexivity|]. split; [reflexivity|].
  apply (threadpool_create_cases 0 (CreateEnv true true false 0 0) 1 1); reflexivity.
Defined.

(** The queue is allocated and is not among the blocks given back. *)
Example threadpool_create_leaks_queue :
  let env := CreateEnv true false true 0 0 in
  BQueue ∈ allocated (create_pool env 1 1).1 ∧
  ∃ bs, threadpool_create_init 0 env 1 1 = Done (CreateNull bs) ∧ BQueue ∉ bs.
Proof. split; [apply (bool_decide_unpack _); reflexivity|]. eexists. split; [reflexivity|]. apply (bool_decide_unpack _). reflexivity. Qed.


