(* ===== verification/ThreadpoolRun.v ===== *)
(** * threadpool.c: the threads of a pool

    The interleaving of the threads of [threadpool.c]: client threads calling
    the API, and the workers.  One step of a thread goes from one call of the
    pthread library to the next; the code in between is that of
    [Threadpool]. *)

From S2P Require Import Prelude Pthread Store Threadpool.
Open Scope Z_scope.

(** The memory of the pool: before [malloc], allocated, and freed (with its
    last contents, which no thread can read). *)
Inductive cell : Type :=
  | NotAllocated
  | Live (p : threadpool_t)
  | Freed (p : threadpool_t).

Inductive api : Type := Create | Add | Destroy.

#[export] Instance api_eq_dec : EqDecision api.
Proof. solve_decision. Defined.

(** The state shared by the threads: the memory of the pool, whether
    [threadpool_create] has returned it to the clients, and the history: tasks
    put in the queue, taken from it, executed, and the results returned to the
    clients. *)
Record shared : Type := Shared {
  mem : cell;
  handle : bool;
  added : list threadpool_task_t;
  taken : list threadpool_task_t;
  ran : list threadpool_task_t;
  returns : list (nat * api * Z)
}.

(** [threadpool_destroy] is called by a client or by [threadpool_create]. *)
Inductive caller : Type := ByClient | ByCreate.

(** Where a thread is, with its local variables. *)
Inductive local : Type :=
  | Outside
  | CreateEnter (tc qs : Z)
  | CreateLoop (tc i : Z)
  | CreateCount (tc i : Z)
  | AddLock (t : threadpool_task_t)
  | AddBody (t : threadpool_task_t)
  | AddUnlock (err : Z)
  | DestroyLock (by_ : caller) (flags : Z)
  | DestroyTest (by_ : caller) (flags : Z)
  | DestroyBroadcast (by_ : caller)
  | DestroyUnlock (by_ : caller)
  | DestroyJoin (by_ : caller) (i err : Z)
  | DestroyFree (by_ : caller)
  | ThreadLock
  | ThreadTest
  | ThreadWait
  | ThreadWoken
  | ThreadCheck
  | ThreadGrab
  | ThreadUnlock (t : threadpool_task_t)
  | ThreadRun (t : threadpool_task_t)
  | ThreadExit
  | ThreadExitUnlock
  | ThreadExited.

#[export] Instance cell_inhabited : Inhabited cell := populate NotAllocated.
#[export] Instance caller_eq_dec : EqDecision caller.
Proof. solve_decision. Defined.
#[export] Instance local_eq_dec : EqDecision local.
Proof. solve_decision. Defined.

(** What the environment decides: the return code of the pthread call a step
    makes, the answers [threadpool_create] gets, the call a client makes. *)
Inductive input : Type :=
  | Go
  | Rc (rc : Z)
  | Env (env : create_env)
  | CallAdd (t : threadpool_task_t)
  | CallDestroy (flags : Z).

Definition rc_of (x : input) : Z := match x with Rc rc => rc | _ => 0 end.

Definition set_mem (c : cell) (s : shared) : shared :=
  Shared c (handle s) (added s) (taken s) (ran s) (returns s).
Definition set_pool (p : threadpool_t) (s : shared) : shared := set_mem (Live p) s.

(** The pool a thread dereferences. *)
Definition deref (s : shared) : res threadpool_t :=
  match mem s with Live p => Done p | _ => Fault end.

Lemma deref_Done s p : deref s = Done p ↔ mem s = Live p.
Proof. unfold deref. destruct (mem s); naive_solver. Qed.

Definition step_result : Type := shared * local * option (effect local).

(** The call returns [rc] to the client [t]. *)
Definition return_to (t : nat) (a : api) (rc : Z) (s : shared) : step_result :=
  (Shared (mem s) (handle s) (added s) (taken s) (ran s) (returns s ++ [(t, a, rc)]),
   Outside, None).

(** [threadpool_destroy] returns [rc]; called by [threadpool_create], it makes
    that function return [NULL], noted 0. *)
Definition return_destroy (t : nat) (by_ : caller) (rc : Z) (s : shared) : step_result :=
  match by_ with
  | ByClient => return_to t Destroy rc s
  | ByCreate => return_to t Create 0 s
  end.

(** A client outside the API starts a call. *)
Definition call_step (t : nat) (x : input) (s : shared) : res step_result :=
  if handle s then
    match x with
    | CallAdd tk =>
        if function tk =? NULL then Done (return_to t Add (error_code threadpool_invalid) s)
        else Done (s, AddLock tk, None)
    | CallDestroy flags => Done (s, DestroyLock ByClient flags, None)
    | _ => Blocked
    end
  else Blocked.

Definition create_step (ls : list local) (t : nat) (x : input) (s : shared) (l : local)
    : res step_result :=
  match l with
  | CreateEnter tc qs =>
      match x with
      | Env env =>
          r ← threadpool_create_init t env tc qs;
          match r with
          | Created p => Done (set_pool p s, CreateLoop tc 0, None)
          | CreateNull _ => Done (return_to t Create 0 s)
          end
      | _ => Blocked
      end
  | CreateLoop tc i =>
      p ← deref s;
      if i <? tc then
        if rc_of x =? 0 then
          match threads p with
          | Some th =>
              th' ← arr_set th i (Some (length ls));
              Done (set_pool (set_threads (Some th') p) s, CreateCount tc i, Some (Spawn ThreadLock))
          | None => Fault
          end
        else Done (s, DestroyLock ByCreate 0, None)
      else Done (return_to t Create 1
                   (Shared (mem s) true (added s) (taken s) (ran s) (returns s)))
  | CreateCount tc i =>
      p ← deref s;
      p' ← create_count p;
      i' ← int_of (i + 1);
      Done (set_pool p' s, CreateLoop tc i', None)
  | _ => Blocked
  end.

Definition add_step (t : nat) (x : input) (s : shared) (l : local) : res step_result :=
  match l with
  | AddLock tk =>
      p ← deref s;
      if rc_of x =? 0 then
        m ← mutex_lock t (lock p);
        Done (set_pool (set_lock m p) s, AddBody tk, None)
      else Done (return_to t Add (error_code threadpool_lock_failure) s)
  | AddBody tk =>
      p ← deref s;
      '(p', err, sig) ← threadpool_add_locked p tk (rc_of x);
      Done (Shared (Live p') (handle s)
              (if count p' =? count p then added s else added s ++ [tk])
              (taken s) (ran s) (returns s),
            AddUnlock err, if sig : bool then Some (Signal 0) else None)
  | AddUnlock err =>
      p ← deref s;
      if rc_of x =? 0 then
        m ← mutex_unlock t (lock p);
        Done (return_to t Add err (set_pool (set_lock m p) s))
      else Done (return_to t Add (error_code threadpool_lock_failure) s)
  | _ => Blocked
  end.

Definition exited (ls : list local) (t : nat) : bool := bool_decide (ls !! t = Some ThreadExited).

Definition destroy_step (ls : list local) (t : nat) (x : input) (s : shared) (l : local)
    : res step_result :=
  p ← deref s;
  match l with
  | DestroyLock by_ flags =>
      if rc_of x =? 0 then
        m ← mutex_lock t (lock p);
        Done (set_pool (set_lock m p) s, DestroyTest by_ flags, None)
      else Done (return_destroy t by_ (error_code threadpool_lock_failure) s)
  | DestroyTest by_ flags =>
      let '(p', err) := threadpool_destroy_locked p flags in
      if err =? 0 then Done (set_pool p' s, DestroyBroadcast by_, None)
      else Done (return_destroy t by_ err (set_pool p' s))
  | DestroyBroadcast by_ =>
      _ ← check (notify p);
      if rc_of x =? 0 then Done (s, DestroyUnlock by_, Some (Broadcast 0))
      else Done (return_destroy t by_ (error_code threadpool_lock_failure) s)
  | DestroyUnlock by_ =>
      if rc_of x =? 0 then
        m ← mutex_unlock t (lock p);
        Done (set_pool (set_lock m p) s, DestroyJoin by_ 0 0, None)
      else Done (return_destroy t by_ (error_code threadpool_lock_failure) s)
  | DestroyJoin by_ i err =>
      if i <? thread_count p then
        match threads p with
        | Some th =>
            w ← arr_read th i;
            i' ← int_of (i + 1);
            if rc_of x =? 0 then
              if exited ls w then Done (s, DestroyJoin by_ i' err, None) else Blocked
            else Done (s, DestroyJoin by_ i' (error_code threadpool_thread_failure), None)
        | None => Fault
        end
      else if err =? 0 then Done (s, DestroyFree by_, None)
      else Done (return_destroy t by_ err s)
  | DestroyFree by_ =>
      '(rc, _) ← threadpool_free t (Some p);
      Done (return_destroy t by_ 0 (if rc =? 0 then set_mem (Freed p) s else s))
  | _ => Blocked
  end.

Definition thread_step (t : nat) (s : shared) (l : local) : res step_result :=
  match l with
  | ThreadLock =>
      p ← deref s;
      m ← mutex_lock t (lock p);
      Done (set_pool (set_lock m p) s, ThreadTest, None)
  | ThreadTest =>
      p ← deref s;
      if thread_must_wait p then
        _ ← check (notify p);
        m ← mutex_unlock t (lock p);
        Done (set_pool (set_lock m p) s, ThreadWait, None)
      else Done (s, ThreadCheck, None)
  | ThreadWoken =>
      p ← deref s;
      m ← mutex_lock t (lock p);
      Done (set_pool (set_lock m p) s, ThreadTest, None)
  | ThreadCheck =>
      p ← deref s;
      if thread_must_exit p then Done (s, ThreadExit, None) else Done (s, ThreadGrab, None)
  | ThreadGrab =>
      p ← deref s;
      '(p', tk) ← thread_grab p;
      Done (Shared (Live p') (handle s) (added s) (taken s ++ [tk]) (ran s) (returns s),
            ThreadUnlock tk, None)
  | ThreadUnlock tk =>
      p ← deref s;
      m ← mutex_unlock t (lock p);
      Done (set_pool (set_lock m p) s, ThreadRun tk, None)
  | ThreadRun tk =>
      Done (Shared (mem s) (handle s) (added s) (taken s) (ran s ++ [tk]) (returns s),
            ThreadLock, None)
  | ThreadExit =>
      p ← deref s;
      st ← int_of (started p - 1);
      Done (set_pool (set_counts (thread_count p) st p) s, ThreadExitUnlock, None)
  | ThreadExitUnlock =>
      p ← deref s;
      m ← mutex_unlock t (lock p);
      Done (set_pool (set_lock m p) s, ThreadExited, None)
  | _ => Blocked
  end.

Definition pool_step (ls : list local) (t : nat) (x : input) (s : shared) (l : local)
    : res step_result :=
  match l with
  | Outside => call_step t x s
  | CreateEnter _ _ | CreateLoop _ _ | CreateCount _ _ => create_step ls t x s l
  | AddLock _ | AddBody _ | AddUnlock _ => add_step t x s l
  | DestroyLock _ _ | DestroyTest _ _ | DestroyBroadcast _ | DestroyUnlock _
  | DestroyJoin _ _ _ | DestroyFree _ => destroy_step ls t x s l
  | _ => thread_step t s l
  end.

Definition pool_waits_on (l : local) : option nat :=
  match l with ThreadWait => Some 0%nat | _ => None end.
Definition pool_woken (l : local) : local :=
  match l with ThreadWait => ThreadWoken | _ => l end.

Lemma pool_waiting_blocked ls t x s l r :
  is_Some (pool_waits_on l) → pool_step ls t x s l ≠ Done r.
Proof. destruct l; cbn; intros [c Hc]; done. Qed.

Lemma pool_woken_awake l : is_Some (pool_waits_on l) → pool_waits_on (pool_woken l) = None.
Proof. destruct l; cbn; intros [c Hc]; done. Qed.

#[export] Instance pool_program : Program input shared local := {|
  tstep := pool_step;
  waits_on := pool_waits_on;
  woken := pool_woken;
  waiting_blocked := pool_waiting_blocked;
  woken_awake := pool_woken_awake
|}.

(** Thread 0 calls [threadpool_create(tc, qs, flags)]; [n] other clients. *)
Definition init (n : nat) (tc qs : Z) : config shared local :=
  (Shared NotAllocated false [] [] [] [], CreateEnter tc qs :: replicate n Outside).

(** Runs in which every call to the pthread library succeeds once the pool is
    set up; the allocator may still refuse memory. *)
Definition no_failure (x : input) : Prop := rc_of x = 0.
Definition any_input (x : input) : Prop := True.
