(* ===== verification/ThreadpoolInv.v ===== *)
(** * threadpool.c: invariants of the running pool

    What holds in every configuration the threads of a pool can reach,
    whatever the clients do and whatever the pthread library answers them. *)

From S2P Require Import Prelude Pthread Store Threadpool ThreadpoolRun.
Open Scope Z_scope.

(** ** Roles of the threads

    Threads below [N] are clients, thread 0 being the one that creates the
    pool; the others are workers.  A client is inside [threadpool_add] or
    [threadpool_destroy] only when it has a pool. *)

Definition role (N : nat) (s : shared) (t : nat) (l : local) : Prop :=
  match l with
  | CreateEnter _ _ => t = 0%nat ∧ handle s = false ∧ mem s = NotAllocated
  | CreateLoop _ _ | CreateCount _ _ => t = 0%nat ∧ handle s = false
  | DestroyLock ByCreate _ | DestroyTest ByCreate _ | DestroyBroadcast ByCreate
  | DestroyUnlock ByCreate | DestroyJoin ByCreate _ _ | DestroyFree ByCreate =>
      t = 0%nat ∧ handle s = false
  | AddLock _ | AddBody _ | AddUnlock _
  | DestroyLock ByClient _ | DestroyTest ByClient _ | DestroyBroadcast ByClient
  | DestroyUnlock ByClient | DestroyJoin ByClient _ _ | DestroyFree ByClient =>
      (t < N)%nat ∧ handle s = true
  | Outside => (t < N)%nat
  | _ => (N ≤ t)%nat
  end.

Definition roles (N : nat) (s : shared) (ls : list local) : Prop :=
  (0 < N ≤ length ls)%nat ∧ ∀ t l, ls !! t = Some l → role N s t l.

(** Opens up the hypothesis [H] that a thread made a step, by program point. *)
Ltac step_cases H :=
  match type of H with tstep ?ls ?t ?x ?s ?l = _ =>
    tryif is_var l then destruct l else idtac; cbn [tstep pool_program pool_step] in H;
    unfold call_step, create_step, add_step, destroy_step, thread_step, return_destroy, return_to,
      create_count, threadpool_destroy_locked in H;
    split_matches H;
    repeat match goal with
    | K : deref _ = Done _ |- _ => apply deref_Done in K
    end; inv_mutex; subst;
    cbn [mem handle added taken ran returns set_pool set_mem] in *
  end.

(** What a step does to the handle and to the memory of the pool. *)
Lemma step_handle ls t x s l s' l' e :
  tstep ls t x s l = Done (s', l', e) →
  handle s' = handle s ∨ (handle s' = true ∧ ∃ tc i, l = CreateLoop tc i).
Proof. intros H. step_cases H; unfold return_destroy; repeat case_match; cbn; eauto. Qed.

Lemma step_mem ls t x s l s' l' e :
  tstep ls t x s l = Done (s', l', e) →
  mem s' = mem s ∨ (∃ p, mem s = Live p) ∨ ∃ tc qs, l = CreateEnter tc qs.
Proof. intros H. step_cases H; unfold return_destroy; repeat case_match; cbn; eauto. Qed.

Section roles.
Context (N : nat).

Lemma role_frame s s' t l :
  role N s t l → handle s' = handle s ∨ (t ≠ 0%nat ∧ handle s' = true) →
  mem s' = mem s ∨ (∃ p, mem s = Live p) ∨ t ≠ 0%nat → role N s' t l.
Proof.
  intros H Hh Hm. destruct l; cbn in *; repeat case_match; try done.
  all: destruct Hh as [Hh|[??]], Hm as [Hm|[[p Hm]|Hm]]; try rewrite Hh; try rewrite Hm;
    try tauto; destruct H as (?&?&?); congruence.
Qed.

Lemma role_own s ls t x l s' l' e :
  (0 < N)%nat → role N s t l → tstep ls t x s l = Done (s', l', e) → role N s' t l'.
Proof.
  intros HN Hr H. step_cases H; unfold return_destroy; cbn in *; repeat case_match; cbn in *.
  all: try tauto; try lia; destruct Hr; lia.
Qed.

Lemma role_spawn s ls t x l s' l' k :
  tstep ls t x s l = Done (s', l', Some (Spawn k)) → k = ThreadLock.
Proof. intros H. step_cases H; repeat case_match; by simplify_eq. Qed.

Lemma roles_init n tc qs : roles (S n) (init n tc qs).1 (init n tc qs).2.
Proof.
  split; cbn; [rewrite length_replicate; lia|].
  intros [|t] l H; simplify_eq/=; [done|].
  apply lookup_replicate in H as [-> ?]. cbn. lia.
Qed.

Lemma roles_step s ls s' ls' :
  roles N s ls → step any_input (s, ls) (s', ls') → roles N s' ls'.
Proof.
  intros [HN Hr] Hstep. split.
  - apply step_inv in Hstep as [(t & x & l & l' & e & _ & Hl & _ & He)|(t & l & -> & Hl & Hw & ->)].
    + apply effect_on_length in He. rewrite length_insert in He. lia.
    + rewrite length_insert. done.
  - refine (forall_threads_step (role N) any_input s ls s' ls' Hr Hstep _ _).
    + intros t x l l' e _ Hl Hs. split; [eapply role_own, Hs; [lia|auto]|]. split.
      * intros t' l0 Ht Hl0. apply role_frame with s; [by auto|..].
        -- destruct (step_handle _ _ _ _ _ _ _ _ Hs) as [?|(? & tc & i & ->)]; [by left|].
           destruct (Hr _ _ Hl). right. split; [congruence|done].
        -- destruct (step_mem _ _ _ _ _ _ _ _ Hs) as [?|[?|(tc & qs & ->)]]; [by left|by right; left|].
           destruct (Hr _ _ Hl) as [-> _]. by right; right.
      * intros l0 ->. rewrite (role_spawn _ _ _ _ _ _ _ _ Hs). cbn. lia.
    + intros t l Hw. destruct l; cbn; by destruct Hw.
Qed.
End roles.

(** ** The pool is well formed *)

Definition is_create_count (l : local) : bool :=
  match l with CreateCount _ _ => true | _ => false end.

(** A worker that has not yet decremented [started]. *)
Definition alive (l : local) : bool :=
  match l with
  | ThreadLock | ThreadTest | ThreadWait | ThreadWoken | ThreadCheck | ThreadGrab
  | ThreadUnlock _ | ThreadRun _ | ThreadExit => true
  | _ => false
  end.

(** The workers created so far: counted in [thread_count], or about to be. *)
Definition workers (p : threadpool_t) (ls : list local) : Z :=
  thread_count p + Z.of_nat (count_if is_create_count ls).

Record pool_wf (N : nat) (ls : list local) (p : threadpool_t) : Prop := PoolWf {
  wf_notify : notify p = true;
  wf_lock : lock p ≠ MUninit;
  wf_shutdown : 0 <= shutdown p <= 2;
  wf_count : 0 <= thread_count p;
  wf_threads : ∃ th, threads p = Some th ∧ workers p ls <= Z.of_nat (length th) <= INT_MAX ∧
    ∀ k, Z.of_nat k < workers p ls → th !! k = Some (Some (N + k)%nat);
  wf_length : Z.of_nat (length ls) = Z.of_nat N + workers p ls;
  wf_started : started p + Z.of_nat (count_if is_create_count ls) = Z.of_nat (count_if alive ls)
}.

Definition workers_exited (N : nat) (ls : list local) : Prop :=
  ∀ t l, ls !! t = Some l → (N ≤ t)%nat → l = ThreadExited.

(** The loop of [threadpool_create] has counted [i] workers out of [tc]. *)
Definition creator (s : shared) (t : nat) (l : local) : Prop :=
  match l with
  | CreateEnter tc qs => is_int tc = true ∧ is_int qs = true
  | CreateLoop tc i =>
      i <= tc ∧ ∃ p th, mem s = Live p ∧ thread_count p = i ∧ shutdown p = 0 ∧
                        threads p = Some th ∧ Z.of_nat (length th) = tc
  | CreateCount tc i =>
      i < tc ∧ ∃ p th, mem s = Live p ∧ thread_count p = i ∧ shutdown p = 0 ∧
                       threads p = Some th ∧ Z.of_nat (length th) = tc
  | _ => True
  end.

Definition joined (N : nat) (ls : list local) (i : Z) : Prop :=
  ∀ k, Z.of_nat k < i → ls !! (N + k)%nat = Some ThreadExited.

(** [threadpool_destroy] has joined the workers it says it has joined. *)
Definition joining (N : nat) (ls : list local) (l : local) : Prop :=
  match l with
  | DestroyJoin _ i err => 0 <= i ∧ (err = 0 → joined N ls i)
  | DestroyFree _ => workers_exited N ls
  | _ => True
  end.

Definition memory_wf (N : nat) (s : shared) (ls : list local) : Prop :=
  match mem s with
  | NotAllocated => length ls = N
  | Live p => pool_wf N ls p
  | Freed p => workers_exited N ls
  end.

Record wf (N : nat) (s : shared) (ls : list local) : Prop := Wf {
  wf_roles : roles N s ls;
  wf_creator : ∀ t l, ls !! t = Some l → creator s t l;
  wf_joining : ∀ t l, ls !! t = Some l → joining N ls l;
  wf_memory : memory_wf N s ls
}.

Section wf.
Context (N : nat).

Lemma wf_init n tc qs :
  is_int tc = true → is_int qs = true → wf (S n) (init n tc qs).1 (init n tc qs).2.
Proof.
  intros Htc Hqs. split; [apply roles_init|..]; cbn; try (by rewrite length_replicate).
  all: intros [|t] l H; simplify_eq/=; [done|]; apply lookup_replicate in H as [-> ?]; done.
Qed.

(** How a step changes the fields of a live pool that do not belong to the
    ring or the lock. *)
Lemma step_frame ls t x s l s' l' e p :
  mem s = Live p → tstep ls t x s l = Done (s', l', e) →
  (mem s' = Freed p ∧ ∃ by_, l = DestroyFree by_) ∨
  (∃ tc qs, l = CreateEnter tc qs) ∨
  ∃ p', mem s' = Live p' ∧ notify p' = notify p ∧ queue_size p' = queue_size p ∧
    (shutdown p' = shutdown p ∨
     ∃ by_ fl, l = DestroyTest by_ fl ∧ shutdown p = 0 ∧ shutdown p' = shutdown_mode fl) ∧
    (threads p' = threads p ∨ ∃ tc i, l = CreateLoop tc i) ∧
    (thread_count p' = thread_count p ∨ ∃ tc i, l = CreateCount tc i).
Proof.
  intros Hm H. step_cases H; try (rewrite Hm in *; simplify_eq).
  all: try (right; left; by eauto).
  all: repeat match goal with
       | K : threadpool_add_locked _ _ _ = Done _ |- _ => apply add_locked_frame in K
       | K : thread_grab _ = Done _ |- _ => apply grab_frame in K
       end; unfold same_frame in *; destruct_and?; bools.
  all: repeat case_match; cbn [mem].
  all: first [left; by eauto | right; right; eexists; split; [done|]; cbn].
  all: split_and!; first [congruence | left; congruence | right; eauto 6].
Qed.
Lemma creator_others s ls t x l s' l' e t' l0 :
  role N s t l → role N s t' l0 → t' ≠ t → tstep ls t x s l = Done (s', l', e) →
  creator s t' l0 → creator s' t' l0.
Proof.
  intros Hr Hr0 Ht Hs Hc. destruct l0; cbn in *; try done.
  all: destruct Hr0 as [-> Hh], Hc as (Hi & p & th & Hm & Htc & Hsd & Hth & Hlen).
  all: destruct (step_frame _ _ _ _ _ _ _ _ _ Hm Hs)
    as [(? & by_ & ->)|[(? & ? & ->)|(p' & Hm' & _ & _ & Hsd' & Hth' & Htc')]];
    [destruct by_, Hr; congruence|destruct Hr; congruence|].
  all: split; [done|]; exists p', th; split_and!; try done.
  all: repeat match goal with
    | H : _ ∨ (∃ by_ fl, _ = DestroyTest by_ fl ∧ _) |- _ =>
        destruct H as [H|(by_ & ? & -> & _)]; [|destruct by_, Hr; congruence]
    | H : _ ∨ (∃ (tc i : Z), _ = _) |- _ =>
        destruct H as [H|(? & ? & ->)]; [|destruct Hr; congruence]
    end; congruence.
Qed.

Lemma creator_own s ls t x l s' l' e :
  creator s t l → tstep ls t x s l = Done (s', l', e) → creator s' t l'.
Proof.
  intros Hc Hs. step_cases Hs; cbn in *; try done.
  all: bools; try (destruct Hc as (? & p & th & Hm & ? & ? & ? & ?);
    rewrite Hm in *; simplify_eq; split; [lia|]).
  - destruct Hc as [Htc Hqs].
    destruct (create_init_ok _ _ _ _ _ Htc Hqs H) as (_ & Hpos & ->). split; [done|].
    do 2 eexists. cbn. split_and!; [done..|]. rewrite length_replicate. lia.
  - do 2 eexists. cbn. split_and!; [done..|].
    apply arr_set_Done in H0 as [_ ->]. by rewrite length_insert.
  - do 2 eexists. cbn. by split_and!.
Qed.

Lemma creator_step s ls s' ls' :
  wf N s ls → step any_input (s, ls) (s', ls') → ∀ t l, ls' !! t = Some l → creator s' t l.
Proof.
  intros [[HN Hr] Hc _ _] Hstep.
  refine (forall_threads_step creator any_input s ls s' ls' Hc Hstep _ _).
  - intros t x l l' e _ Hl Hs. split; [by eapply creator_own, Hs; auto|]. split.
    + intros t' l0 Ht Hl0. apply (creator_others s ls t x l s' l' e t' l0); auto.
    + intros l0 ->. by rewrite (role_spawn _ _ _ _ _ _ _ _ Hs).
  - intros t l Hw. destruct l; cbn; by destruct Hw.
Qed.

(** ** Threads that have exited stay so *)

Lemma exited_step s ls s' ls' t :
  step any_input (s, ls) (s', ls') → ls !! t = Some ThreadExited → ls' !! t = Some ThreadExited.
Proof.
  intros Hstep Ht.
  apply step_inv in Hstep as [(t0 & x & l & l' & e & _ & Hl & Hs & He)|(t0 & l & -> & Hl & Hw & ->)].
  - destruct (decide (t = t0)) as [->|Hne]; [by simplify_eq|].
    destruct (effect_on_survives _ _ _ t ThreadExited He) as [?|[[??]?]]; [|done..].
    by rewrite list_lookup_insert_ne.
  - destruct (decide (t = t0)) as [->|Hne]; [simplify_eq; by destruct Hw|].
    by rewrite list_lookup_insert_ne.
Qed.

Lemma workers_exited_step s ls s' ls' :
  roles N s ls → step any_input (s, ls) (s', ls') → (∀ tc i, ls !! 0%nat ≠ Some (CreateLoop tc i)) →
  workers_exited N ls → workers_exited N ls'.
Proof.
  intros [HN Hr] Hstep Hcl Hex t l Hl Ht.
  destruct (ls !! t) as [l0|] eqn:Hl0.
  - pose proof (Hex _ _ Hl0 Ht) as ->. rewrite (exited_step _ _ _ _ _ Hstep Hl0) in Hl. congruence.
  - apply step_inv in Hstep as [(t0 & x & k & k' & e & _ & Hk & Hs & He)|(t0 & k & -> & Hk & Hw & ->)].
    + apply (effect_on_lookup _ _ _ _ _ He) in Hl as [Hl|[(l0 & Hl & _)|(-> & _)]].
      * apply lookup_lt_Some in Hl. rewrite length_insert in Hl. apply lookup_ge_None in Hl0. lia.
      * apply lookup_lt_Some in Hl. rewrite length_insert in Hl. apply lookup_ge_None in Hl0. lia.
      * exfalso. pose proof (Hr _ _ Hk) as Hrk. clear Hex.
        step_cases Hs; try done; repeat case_match; simplify_eq.
        destruct Hrk as [-> _]. by eapply Hcl.
    + apply lookup_lt_Some in Hl. rewrite length_insert in Hl. apply lookup_ge_None in Hl0. lia.
Qed.

(** No pool is being created while another call is under way. *)
Definition in_call (l : local) : bool :=
  match l with
  | AddLock _ | AddBody _ | AddUnlock _ | DestroyLock _ _ | DestroyTest _ _
  | DestroyBroadcast _ | DestroyUnlock _ | DestroyJoin _ _ _ | DestroyFree _ => true
  | _ => false
  end.

Definition is_create (l : local) : bool :=
  match l with CreateEnter _ _ | CreateLoop _ _ | CreateCount _ _ => true | _ => false end.

Lemma no_create s ls t l t' l' :
  roles N s ls → ls !! t = Some l → in_call l = true → ls !! t' = Some l' →
  is_create l' = false.
Proof.
  intros [HN Hr] Hl Hin Hl'. pose proof (Hr _ _ Hl) as H. pose proof (Hr _ _ Hl') as H'.
  destruct l' eqn:E'; try done; destruct l; try done; cbn in *; repeat case_match;
    destruct H, H'; try congruence; destruct_and?; congruence.
Qed.

Lemma no_create_count s ls t l :
  roles N s ls → ls !! t = Some l → in_call l = true → count_if is_create_count ls = 0%nat.
Proof.
  intros Hr Hl Hin. apply count_if_zero. intros i l' Hl'.
  pose proof (no_create _ _ _ _ _ _ Hr Hl Hin Hl'). by destruct l'.
Qed.

Lemma joined_all ls p :
  pool_wf N ls p → count_if is_create_count ls = 0%nat → joined N ls (thread_count p) →
  workers_exited N ls.
Proof.
  intros Hp Hc Hj t l Hl Ht. pose proof (wf_length _ _ _ Hp) as Hlen. unfold workers in Hlen.
  apply lookup_lt_Some in Hl as Hlt.
  specialize (Hj (t - N)%nat). replace (N + (t - N))%nat with t in Hj by lia.
  rewrite Hj in Hl by lia. congruence.
Qed.

Lemma joined_mono s ls s' ls' i :
  step any_input (s, ls) (s', ls') → joined N ls i → joined N ls' i.
Proof. intros Hs Hj k Hk. eapply exited_step; eauto. Qed.

Lemma joining_mono s ls s' ls' t l :
  roles N s ls → step any_input (s, ls) (s', ls') → ls !! t = Some l →
  joining N ls l → joining N ls' l.
Proof.
  intros Hr Hs Hl Hj. destruct l; cbn in *; try done.
  - destruct Hj as [? Hj]. split; [done|]. intros He. eapply joined_mono; eauto.
  - eapply workers_exited_step; eauto. intros tc i H0.
    by pose proof (no_create _ _ _ _ _ _ Hr Hl eq_refl H0).
Qed.

Lemma joining_own s ls t x l s' l' e ls' :
  wf N s ls → step any_input (s, ls) (s', ls') → ls !! t = Some l →
  tstep ls t x s l = Done (s', l', e) → joining N ls' l'.
Proof.
  intros [Hr _ Hj Hm] Hstep Hl Hs. pose proof (Hj _ _ Hl) as Hjl.
  step_cases Hs; cbn in *; try done; bools.
  - (* the joins begin *) split; [lia|]. intros _ k Hk. lia.
  - (* one more worker joined *)
    destruct Hjl as [Hi Hjl]. unfold memory_wf in Hm. rewrite H in Hm.
    destruct (wf_threads _ _ _ Hm) as (th & Hth & _ & Hk). simplify_eq.
    apply arr_read_Done in H0 as [_ H0].
    rewrite Hk in H0 by (unfold workers; lia). simplify_eq.
    unfold exited in Heqb1. apply bool_decide_eq_true_1 in Heqb1.
    split; [lia|]. intros ->. intros k Hlt.
    destruct (decide (Z.of_nat k = i)) as [<-|].
    + rewrite Nat2Z.id in Heqb1. eapply exited_step; eauto.
    + eapply (joined_mono _ _ _ _ i Hstep (Hjl eq_refl)). lia.
  - (* a join failed *) split; [lia|]. intros ?; done.
  - (* all joined *)
    destruct Hjl as [Hi Hjl]. unfold memory_wf in Hm. rewrite H in Hm.
    assert (workers_exited N ls) as Hex.
    { apply joined_all with x0; [done|by eapply no_create_count|].
      intros k Hk. apply Hjl; [done|lia]. }
    eapply workers_exited_step; eauto. intros tc j H0.
    by pose proof (no_create _ _ _ _ _ _ Hr Hl eq_refl H0).
Qed.

Lemma joining_step s ls s' ls' :
  wf N s ls → step any_input (s, ls) (s', ls') → ∀ t l, ls' !! t = Some l → joining N ls' l.
Proof.
  intros Hwf Hstep.
  pose proof (wf_roles _ _ _ Hwf) as Hr.
  assert (∀ t l, ls !! t = Some l → joining N ls' l) as Hj.
  { intros t l Hl. eapply joining_mono; eauto. by apply (wf_joining _ _ _ Hwf t). }
  refine (forall_threads_step (λ _ _ l, joining N ls' l) any_input s ls s' ls' Hj Hstep _ _).
  - intros t x l l' e _ Hl Hs. split; [by eapply joining_own|]. split; [by eauto|].
    intros l0 ->. by rewrite (role_spawn _ _ _ _ _ _ _ _ Hs).
  - intros t l Hw. destruct l; cbn; by destruct Hw.
Qed.

Lemma wake_counts l :
  is_Some (waits_on l) →
  is_create_count (woken l) = is_create_count l ∧ alive (woken l) = alive l.
Proof. destruct l; cbn; by intros [??]. Qed.

(** A step that starts no thread keeps the pool well formed if its changes to
    the counters match the change of its program point. *)
Lemma pool_wf_update ls ls' t l l' e p p' :
  pool_wf N ls p → ls !! t = Some l → effect_on e (<[t := l']> ls) ls' →
  (∀ k, e ≠ Some (Spawn k)) →
  lock p' ≠ MUninit → notify p' = notify p → 0 <= shutdown p' <= 2 → threads p' = threads p →
  0 <= thread_count p' →
  thread_count p' + Z.b2z (is_create_count l') = thread_count p + Z.b2z (is_create_count l) →
  started p' + Z.b2z (is_create_count l') + Z.b2z (alive l) =
    started p + Z.b2z (is_create_count l) + Z.b2z (alive l') →
  pool_wf N ls' p'.
Proof.
  intros [Hn Hlk Hsd Hc (th & Hth & Hw & Hk) Hlen Hst] Hl He Hsp Hlk' Hn' Hsd' Hth' Hc' Htc Hst'.
  pose proof (effect_on_length _ _ _ He) as Hlen'. rewrite length_insert in Hlen'.
  pose proof (count_step is_create_count e ls ls' t l l' (λ l H, proj1 (wake_counts l H)) Hl He) as H1.
  pose proof (count_step alive e ls ls' t l l' (λ l H, proj2 (wake_counts l H)) Hl He) as H2.
  destruct e as [[c|c|k]|]; [| |by destruct (Hsp k)|]; cbn [spawned] in *.
  all: unfold workers in *; destruct (is_create_count l), (is_create_count l'), (alive l), (alive l').
  all: cbn [Nat.b2n Z.b2z] in *; split; unfold workers; try congruence; try lia.
  all: exists th; split; [congruence|]; split; [lia|]; intros k0 Hk0; apply Hk; lia.
Qed.

Lemma pool_wf_spawn ls ls' t tc i p th :
  pool_wf N ls p → ls !! t = Some (CreateLoop tc i) → count_if is_create_count ls = 0%nat →
  effect_on (Some (Spawn ThreadLock)) (<[t := CreateCount tc i]> ls) ls' →
  threads p = Some th → thread_count p = i → i < Z.of_nat (length th) →
  pool_wf N ls' (set_threads (Some (<[Z.to_nat i := Some (length ls)]> th)) p).
Proof.
  intros [Hn Hlk Hsd Hc (th0 & Hth0 & Hw & Hk) Hlen Hst] Hl Hcc He Hth Hi Hlt.
  pose proof (effect_on_length _ _ _ He) as Hlen'. rewrite length_insert in Hlen'.
  pose proof (count_step is_create_count _ _ _ _ _ _ (λ l H, proj1 (wake_counts l H)) Hl He) as H1.
  pose proof (count_step alive _ _ _ _ _ _ (λ l H, proj2 (wake_counts l H)) Hl He) as H2.
  cbn in H1, H2. simplify_eq. unfold workers in *. rewrite Hcc in *.
  split; unfold workers; cbn; try done; try lia.
  eexists. split; [done|]. rewrite length_insert. split; [lia|]. intros k Hlk'.
  destruct (decide (k = Z.to_nat (thread_count p))) as [->|Hne].
  - rewrite list_lookup_insert_eq by lia. do 2 f_equal. lia.
  - rewrite list_lookup_insert_ne by done. apply Hk. lia.
Qed.

Lemma shutdown_mode_range flags : 1 <= shutdown_mode flags <= 2.
Proof. unfold shutdown_mode, immediate_shutdown, graceful_shutdown. case_match; lia. Qed.

Lemma step_spawn ls t x s l s' l' k :
  tstep ls t x s l = Done (s', l', Some (Spawn k)) → ∃ tc i p, l = CreateLoop tc i ∧ mem s = Live p.
Proof. intros H. step_cases H; repeat case_match; simplify_eq; eauto. Qed.

(** The case of a live pool. *)
Lemma memory_live_step s ls t x l s' l' e ls' p :
  wf N s ls → mem s = Live p → ls !! t = Some l → tstep ls t x s l = Done (s', l', e) →
  effect_on e (<[t := l']> ls) ls' → workers_exited N ls' ∨ (∀ by_, l ≠ DestroyFree by_) →
  memory_wf N s' ls'.
Proof.
  intros [Hr Hc _ Hm] Hp Hl Hs He Hfree. pose proof (Hc _ _ Hl) as Hcl.
  pose proof (proj2 Hr _ _ Hl) as Hrl. unfold memory_wf in Hm. rewrite Hp in Hm.
  destruct Hm as [Hn Hlk Hsd Hct Hth Hlen Hst] eqn:E. clear E.
  assert (pool_wf N ls p) as Hw by done.
  step_cases Hs; repeat case_match; cbn in Hcl, Hrl; try rewrite Hp in *; simplify_eq;
    unfold memory_wf; cbn [mem]; rewrite ?Hp.
  all: try (destruct_and?; congruence).
  all: try (destruct Hfree as [?|Hf]; [done|by edestruct Hf]).
  all: repeat match goal with
       | K : threadpool_add_locked _ _ _ = Done _ |- _ => apply add_locked_frame in K
       | K : thread_grab _ = Done _ |- _ => apply grab_frame in K
       end; unfold same_frame in *; destruct_and?; bools.
  all: try (eapply pool_wf_update; [exact Hw|exact Hl|exact He|..]; cbn in *;
            try congruence; try done; try lia; by eauto with lia).
  - (* a worker is created *)
    destruct (Hc _ _ Hl) as (_ & p0 & th & Hm0 & Htc & _ & Hth' & Hln).
    rewrite Hp in Hm0. simplify_eq. cbn. apply arr_set_Done in H0 as [_ ->].
    eapply pool_wf_spawn; eauto. apply count_if_zero. intros t' l' Hl'.
    destruct l' eqn:El; try done. exfalso.
    destruct (proj2 Hr _ _ Hl') as [E1 _], (proj2 Hr _ _ Hl) as [E2 _].
    congruence.
  - (* the shutdown mode is set *)
    pose proof (shutdown_mode_range flags).
    eapply pool_wf_update; [exact Hw|exact Hl|exact He|..]; cbn; try done; lia.
Qed.

Lemma alive_worker s t l : role N s t l → alive l = true → (N ≤ t)%nat.
Proof. by destruct l. Qed.

(** The pool fresh from [threadpool_create] is well formed. *)
Lemma pool_wf_fresh s ls p :
  roles N s ls → length ls = N → lock p = MFree → notify p = true → shutdown p = 0 →
  started p = 0 → thread_count p = 0 → count_if is_create_count ls = 0%nat →
  (∃ th, threads p = Some th ∧ Z.of_nat (length th) <= INT_MAX) → pool_wf N ls p.
Proof.
  intros [_ Hr] Hlen Hl Hn Hsd Hst Htc Hcc (th & Hth & Hmax).
  assert (count_if alive ls = 0%nat) as Hal.
  { apply count_if_zero. intros t l Htl. destruct (alive l) eqn:E; [|done].
    pose proof (alive_worker _ _ _ (Hr _ _ Htl) E). apply lookup_lt_Some in Htl. lia. }
  split; unfold workers; rewrite ?Hcc, ?Htc, ?Hst, ?Hal, ?Hlen; try congruence; try lia.
  exists th. split; [done|]. split; [lia|]. intros k Hk. lia.
Qed.

Lemma create_step_memory s ls t x tc qs s' l' e ls' :
  wf N s ls → ls !! t = Some (CreateEnter tc qs) →
  tstep ls t x s (CreateEnter tc qs) = Done (s', l', e) → roles N s' ls' →
  effect_on e (<[t := l']> ls) ls' → memory_wf N s' ls'.
Proof.
  intros [Hr Hc _ Hm] Hl Hs Hr' He.
  destruct (proj2 Hr _ _ Hl) as (-> & _ & Hna), (Hc _ _ Hl) as [Htc Hqs].
  unfold memory_wf in Hm. rewrite Hna in Hm. apply (conj I) in Hm.
  pose proof (effect_on_length _ _ _ He) as Hlen. rewrite length_insert in Hlen.
  pose proof (count_step is_create_count _ _ _ _ _ _ (λ l H, proj1 (wake_counts l H)) Hl He) as Hcs.
  assert (count_if is_create_count ls = 0%nat) as Hcc.
  { apply count_if_zero. intros i [] H0; try done. by destruct (Hc _ _ H0) as (_ & ? & _ & ? & _); congruence. }
  step_cases Hs; cbn in Hcs, Hlen; unfold memory_wf; cbn [mem]; rewrite ?Hna; destruct Hm as [_ Hm]; [|lia].
  match goal with K : threadpool_create_init _ _ _ _ = _ |- _ =>
    destruct (create_init_ok _ _ _ _ _ Htc Hqs K) as (_ & Hpos & ->) end.
  apply is_int_spec in Htc. eapply pool_wf_fresh; cbn; try done; try lia.
  eexists. split; [done|]. rewrite length_replicate. lia.
Qed.

Lemma memory_step s ls s' ls' :
  wf N s ls → step any_input (s, ls) (s', ls') → memory_wf N s' ls'.
Proof.
  intros Hwf Hstep. pose proof Hstep as Hstep0. pose proof Hwf as [Hr Hc Hj Hm].
  assert ((∀ p, mem s ≠ Live p) → ∀ tc i, ls !! 0%nat ≠ Some (CreateLoop tc i)) as Hnl.
  { intros Hd tc i H0. destruct (Hc _ _ H0) as (_ & p & _ & Hp & _). by edestruct Hd. }
  apply step_inv in Hstep as [(t & x & l & l' & e & _ & Hl & Hs & He)|(t & l & -> & Hl & Hw & ->)].
  - destruct (mem s) as [|p|p] eqn:Hp.
    2: { eapply memory_live_step; eauto. destruct l; try (by right). left. eapply workers_exited_step; eauto.
         - intros tc i H0. by pose proof (no_create _ _ _ _ _ _ Hr Hl eq_refl H0).
         - apply (Hj _ _ Hl). }
    all: destruct (step_mem _ _ _ _ _ _ _ _ Hs) as [Hms|[[p' Hp']|(tc & qs & ->)]]; [|congruence|
           eapply create_step_memory; eauto; by eapply roles_step].
    all: unfold memory_wf in *; rewrite Hms, Hp in *.
    + pose proof (effect_on_length _ _ _ He) as Hlen. rewrite length_insert in Hlen.
      destruct e as [[| |k]|]; try lia.
      destruct (step_spawn _ _ _ _ _ _ _ _ Hs) as (? & ? & p & _ & Hp'). congruence.
    + eapply workers_exited_step; eauto; apply Hnl; congruence.
  - unfold memory_wf in *. destruct (mem s) as [|p|p] eqn:Hp.
    + by rewrite length_insert.
    + eapply (pool_wf_update ls (<[t := woken l]> ls) t l (woken l) None); eauto; try constructor.
      all: destruct (wake_counts l Hw) as [Ea Eb]; rewrite ?Ea, ?Eb; try done; destruct Hm; done || lia.
    + eapply workers_exited_step; eauto; apply Hnl; congruence.
Qed.

Lemma wf_step s ls s' ls' : wf N s ls → step any_input (s, ls) (s', ls') → wf N s' ls'.
Proof.
  intros Hwf Hstep. split.
  - eapply roles_step; eauto. by destruct Hwf.
  - eapply creator_step; eauto.
  - eapply joining_step; eauto.
  - eapply memory_step; eauto.
Qed.
End wf.

Lemma reachable_wf n tc qs s ls :
  is_int tc = true → is_int qs = true → reachable any_input (init n tc qs) (s, ls) → wf (S n) s ls.
Proof.
  intros Htc Hqs H.
  apply (invariant_reachable any_input (λ cf, wf (S n) cf.1 cf.2) _ _ (wf_init n tc qs Htc Hqs))
    in H; [done|]. intros [s1 ls1] [s2 ls2]. cbn. apply wf_step.
Qed.
