(* ===== verification/ThreadpoolSafe.v ===== *)
(** * threadpool.c: the critical sections and the history of the tasks

    Who holds the lock, what a thread knows inside its critical section, and
    where the tasks are: in the queue, in the hands of a worker, executed. *)

From S2P Require Import Prelude Pthread Store Threadpool ThreadpoolRun ThreadpoolInv.
Open Scope Z_scope.

(** ** The lock *)

Definition pool_lock (s : shared) : mutex :=
  match mem s with Live p => lock p | _ => MUninit end.

Definition holds (l : local) : bool :=
  match l with
  | AddBody _ | AddUnlock _ | DestroyTest _ _ | DestroyBroadcast _ | DestroyUnlock _
  | ThreadTest | ThreadCheck | ThreadGrab | ThreadUnlock _ | ThreadExit | ThreadExitUnlock => true
  | _ => false
  end.

Lemma free_Done t p rc bs :
  is_Some (threads p) → threadpool_free t (Some p) = Done (rc, bs) →
  (0 < started p ∧ rc = -1 ∧ bs = []) ∨
  (started p <= 0 ∧ rc = 0 ∧ lock p = MFree ∧ notify p = true ∧ bs ≡ₚ allocated p).
Proof.
  unfold threadpool_free, allocated. intros [th Hth] H. rewrite Hth in *.
  split_matches H; bools; inv_mutex; [by left|right..]; split_and!; try done; cbn.
  symmetry. apply (Permutation_cons_append (BThreads :: _)).
Qed.

#[export] Instance pool_locking N : Locking any_input (wf N) pool_lock holds True.
Proof.
  split.
  - intros ls t x s l s' l' e _ Hwf Hl Hs. unfold pool_lock.
    pose proof (wf_memory _ _ _ Hwf) as Hm. unfold memory_wf in Hm.
    pose proof (proj2 (wf_roles _ _ _ Hwf) _ _ Hl) as Hr.
    step_cases Hs; cbn [mem holds] in *; repeat case_match; cbn in *; simplify_eq;
      try (by destruct_and?; congruence).
    all: repeat match goal with
         | K : threadpool_add_locked _ _ _ = Done _ |- _ => apply add_locked_frame in K as [-> _]
         | K : thread_grab _ = Done _ |- _ => apply grab_frame in K as [-> _]
         end.
    all: try match goal with K : lock _ = _ |- _ => rewrite K end.
    all: repeat match goal with
         | K1 : mem ?s = _, K2 : mem ?s = _ |- _ => rewrite K1 in K2; simplify_eq
         end.
    all: try by constructor.
    + (* the pool is created *)
      pose proof (wf_creator _ _ _ Hwf _ _ Hl) as [Htc Hqs].
      match goal with K : threadpool_create_init _ _ _ _ = _ |- _ =>
        destruct (create_init_ok _ _ _ _ _ Htc Hqs K) as (_ & _ & ->) end. constructor.
    + (* it is freed, for a client *)
      apply free_Done in H0 as [(? & ? & _)|(_ & _ & -> & _)]; [bools; lia|constructor|].
      destruct (wf_threads _ _ _ Hm) as (th & Hth & _). by eexists.
    + (* it is freed, for threadpool_create *)
      apply free_Done in H0 as [(? & ? & _)|(_ & _ & -> & _)]; [bools; lia|constructor|].
      destruct (wf_threads _ _ _ Hm) as (th & Hth & _). by eexists.
  - intros ls t x s l s' l' k Hs. by rewrite (role_spawn _ _ _ _ _ _ _ _ Hs).
  - intros l Hw. destruct l; cbn in *; by destruct Hw.
Qed.

(** ** Inside the critical sections *)

(** The structure, live or freed. *)
Definition at_mem (s : shared) (p : threadpool_t) : Prop := mem s = Live p ∨ mem s = Freed p.

Lemma at_mem_live s p p' : mem s = Live p → at_mem s p' → p' = p.
Proof. unfold at_mem. naive_solver congruence. Qed.

Lemma live_at_mem s p : mem s = Live p → at_mem s p.
Proof. by left. Qed.

#[export] Hint Resolve live_at_mem : study.

(** What a thread has established by the tests it has passed. *)
Definition passed (s : shared) (l : local) : Prop :=
  match l with
  | DestroyBroadcast _ | DestroyUnlock _ | DestroyJoin _ _ _ | DestroyFree _ =>
      ∃ p, at_mem s p ∧ shutdown p ≠ 0
  | ThreadCheck => ∃ p, mem s = Live p ∧ thread_must_wait p = false
  | ThreadGrab => ∃ p, mem s = Live p ∧ 0 < count p ∧ shutdown p ≠ immediate_shutdown
  | ThreadExit | ThreadExitUnlock | ThreadExited =>
      ∃ p, at_mem s p ∧ thread_must_exit p = true
  | _ => True
  end.

(** ** Where the tasks are *)

Definition in_hand (l : local) : list threadpool_task_t :=
  match l with ThreadUnlock t | ThreadRun t => [t] | _ => [] end.

(** The queue holds what was added and not taken, in the order of insertion. *)
Definition queue_history (s : shared) : Prop :=
  ∃ ts, added s = taken s ++ ts ∧ (∀ p, at_mem s p → ring p ts) ∧
        (mem s = NotAllocated → ts = []).

Definition task_history (s : shared) (ls : list local) : Prop :=
  taken s ≡ₚ ran s ++ gather in_hand ls.

Record safe (N : nat) (s : shared) (ls : list local) : Prop := Safe {
  safe_wf : wf N s ls;
  safe_lock : owner_inv pool_lock holds s ls;
  safe_passed : ∀ t l, ls !! t = Some l → passed s l;
  safe_queue : queue_history s;
  safe_tasks : task_history s ls
}.

Lemma must_wait_spec p : thread_must_wait p = true ↔ count p = 0 ∧ shutdown p = 0.
Proof. unfold thread_must_wait. lia. Qed.

Lemma must_exit_spec p :
  thread_must_exit p = true ↔ shutdown p = 1 ∨ (shutdown p = 2 ∧ count p = 0).
Proof. unfold thread_must_exit, immediate_shutdown, graceful_shutdown. lia. Qed.

Section safe.
Context (N : nat).

(** The ring of a live pool changes only at the two program points that own
    the lock and use it. *)
Lemma step_ring s ls t x l s' l' e p :
  mem s = Live p → tstep ls t x s l = Done (s', l', e) →
  (∃ tk, l = AddBody tk) ∨ l = ThreadGrab ∨ (∃ tc qs, l = CreateEnter tc qs) ∨
  ∃ p', at_mem s' p' ∧ queue p' = queue p ∧ queue_size p' = queue_size p ∧ head p' = head p ∧
        tail p' = tail p ∧ count p' = count p ∧ added s' = added s ∧ taken s' = taken s.
Proof.
  intros Hm H. unfold at_mem.
  step_cases H; repeat case_match; cbn [mem]; try (rewrite Hm in *; simplify_eq).
  all: try (by eauto 6).
  all: right; right; right; eexists; split; [by eauto|by split_and!].
Qed.

Lemma freed_step s ls t x l s' l' e p :
  roles N s ls → ls !! t = Some l → mem s = Freed p → tstep ls t x s l = Done (s', l', e) →
  mem s' = Freed p ∧ added s' = added s ∧ taken s' = taken s.
Proof.
  intros Hr Hl Hm H. pose proof (proj2 Hr _ _ Hl) as Hrl.
  step_cases H; cbn in Hrl; repeat case_match; cbn [mem] in *; try congruence; try done.
  all: destruct_and?; congruence.
Qed.

Lemma unallocated_step s ls t x l s' l' e :
  mem s = NotAllocated → tstep ls t x s l = Done (s', l', e) →
  added s' = added s ∧ taken s' = taken s ∧
  (mem s' = NotAllocated ∨ ∃ tc qs env p, l = CreateEnter tc qs ∧ mem s' = Live p ∧
     threadpool_create_init t env tc qs = Done (Created p)).
Proof.
  intros Hm H. step_cases H; repeat case_match; cbn [mem] in *; try congruence; eauto 12.
Qed.

(** Once set, the shutdown mode stays. *)
Lemma shutdown_stable s ls t x l s' l' e p :
  wf N s ls → ls !! t = Some l → at_mem s p → shutdown p ≠ 0 →
  tstep ls t x s l = Done (s', l', e) → ∃ p', at_mem s' p' ∧ shutdown p' = shutdown p.
Proof.
  intros Hwf Hl Hat Hsd Hs. unfold at_mem in *. destruct Hat as [Hm|Hm].
  - destruct (step_frame _ _ _ _ _ _ _ _ _ Hm Hs)
      as [[? _]|[(tc & qs & ->)|(p' & ? & _ & _ & [?|(? & ? & _ & ? & _)] & _)]]; eauto; [|done].
    destruct (proj2 (wf_roles _ _ _ Hwf) _ _ Hl) as (_ & _ & ?). congruence.
  - destruct (freed_step _ _ _ _ _ _ _ _ _ (wf_roles _ _ _ Hwf) Hl Hm Hs). eauto.
Qed.

Lemma queue_step s ls t x l s' l' e :
  wf N s ls → ls !! t = Some l → passed s l → queue_history s →
  tstep ls t x s l = Done (s', l', e) → queue_history s'.
Proof.
  intros Hwf Hl Hp (ts & Hadd & Hring & Hna) Hs. unfold queue_history, at_mem in *.
  destruct (mem s) as [|p|p] eqn:Hm.
  - rewrite (Hna eq_refl) in Hadd.
    destruct (unallocated_step _ _ _ _ _ _ _ _ Hm Hs) as (-> & -> & [->|(tc & qs & env & p & -> & -> & Hc)]);
      exists []; split_and!; try done; [naive_solver|].
    pose proof (wf_creator _ _ _ Hwf _ _ Hl) as [Htc Hqs].
    destruct (create_init_ok _ _ _ _ _ Htc Hqs Hc) as (Hr & _). naive_solver.
  - assert (ring p ts) as Hr by auto.
    destruct (step_ring _ _ _ _ _ _ _ _ _ Hm Hs)
      as [(tk & ->)|[->|[(tc & qs & ->)|(p' & Hat & Hq & Hqs & Hh & Ht & Hc & Ha & Htk)]]].
    + pose proof (wf_memory _ _ _ Hwf) as Hw. unfold memory_wf in Hw. rewrite Hm in Hw.
      destruct (add_locked_spec p ts tk (rc_of x) Hr (wf_notify _ _ _ Hw)) as (p2 & Ha & Hr2 & _).
      pose proof (ring_count _ _ Hr) as Hc1. pose proof (ring_count _ _ Hr2) as Hc2.
      exists (add_outcome p ts tk (rc_of x)).1. unfold add_outcome in *.
      step_cases Hs; rewrite Hm in *; simplify_eq;
        match goal with K : threadpool_add_locked _ _ _ = Done (_, ?z, _) |- _ =>
          rewrite K in Ha; injection Ha as -> _ _
        end; repeat case_match; cbn in *.
      all: split_and!; try done; rewrite ?length_app in *; cbn in *; bools; try lia.
      all: try (rewrite Hadd; by rewrite ?app_assoc). all: naive_solver.
    + destruct Hp as (p0 & Hp0 & Hc & _). rewrite Hm in Hp0. simplify_eq.
      pose proof (ring_count _ _ Hr) as Hc1. destruct ts as [|tk ts]; [cbn in *; lia|].
      destruct (grab_spec _ _ _ Hr) as (p1 & Hg & Hr1 & _).
      step_cases Hs; rewrite Hm in *; simplify_eq.
      match goal with K : thread_grab _ = Done (?a, _) |- _ =>
        rewrite K in Hg; injection Hg as -> -> end.
      exists ts. cbn. rewrite Hadd, <- app_assoc. split_and!; [done|naive_solver|done].
    + destruct (proj2 (wf_roles _ _ _ Hwf) _ _ Hl) as (_ & _ & ?). congruence.
    + exists ts. rewrite Ha, Htk. split; [done|]. unfold at_mem in Hat.
      split; [|destruct Hat; congruence]. intros p2 Hp2. assert (p2 = p') as -> by naive_solver congruence.
      by apply ring_ext with p.
  - destruct (freed_step _ _ _ _ _ _ _ _ _ (wf_roles _ _ _ Hwf) Hl Hm Hs) as (-> & -> & ->).
    exists ts. split_and!; naive_solver.
Qed.

Lemma in_hand_wake l : is_Some (waits_on l) → in_hand (woken l) = in_hand l.
Proof. destruct l; cbn; by intros [??]. Qed.

Lemma tasks_step s ls t x l s' l' e ls' :
  ls !! t = Some l → tstep ls t x s l = Done (s', l', e) → effect_on e (<[t := l']> ls) ls' →
  task_history s ls → task_history s' ls'.
Proof.
  intros Hl Hs He H. unfold task_history in *.
  pose proof (gather_step in_hand _ _ _ _ _ _ in_hand_wake Hl He) as Hg.
  assert (spawned in_hand e [] = []) as Hsp.
  { destruct e as [[| |k]|]; try done. by rewrite (role_spawn _ _ _ _ _ _ _ _ Hs). }
  rewrite Hsp, app_nil_r in Hg. clear Hsp He.
  assert ((in_hand l = in_hand l' ∧ taken s' = taken s ∧ ran s' = ran s) ∨
          (∃ tk, in_hand l = [] ∧ in_hand l' = [tk] ∧ taken s' = taken s ++ [tk] ∧ ran s' = ran s) ∨
          (∃ tk, in_hand l = [tk] ∧ in_hand l' = [] ∧ taken s' = taken s ∧ ran s' = ran s ++ [tk]))
    as [(E & -> & ->)|[(tk & E & E' & -> & ->)|(tk & E & E' & -> & ->)]].
  { clear Hg H. step_cases Hs; repeat case_match; cbn; eauto 10. }
  - rewrite E in Hg. apply Permutation_app_inv_l in Hg. by rewrite H, Hg.
  - rewrite E, E' in Hg. cbn in Hg. rewrite H, Hg, <- app_assoc.
    apply Permutation_app_head. by rewrite Permutation_app_comm.
  - rewrite E, E' in Hg. cbn in Hg. rewrite H, <- Hg, <- app_assoc. done.
Qed.

(** While another thread is in its critical section, a step changes neither
    the number of tasks nor the shutdown mode. *)
Lemma unlocked_frame s ls t x l s' l' e t' l0 p :
  wf N s ls → owner_inv pool_lock holds s ls → mem s = Live p →
  ls !! t = Some l → ls !! t' = Some l0 → t' ≠ t → holds l0 = true →
  tstep ls t x s l = Done (s', l', e) →
  ∃ p', mem s' = Live p' ∧ count p' = count p ∧ shutdown p' = shutdown p.
Proof.
  intros Hwf Hown Hm Hl Hl0 Hne Hh Hs. pose proof (Hown _ _ Hl0 Hh) as Hlk.
  assert (holds l = false) as Hnh.
  { destruct (holds l) eqn:E; [|done]. pose proof (Hown _ _ Hl E). congruence. }
  pose proof (locking_step (Locking := pool_locking N) _ _ _ _ _ _ _ _ I Hwf Hl Hs) as Ha.
  rewrite Hnh in Ha. rewrite Hlk in Ha.
  destruct (step_ring _ _ _ _ _ _ _ _ _ Hm Hs) as [(tk & ->)|[->|[(tc & qs & ->)|(p' & Hat & Hr)]]];
    try done; [destruct (proj2 (wf_roles _ _ _ Hwf) _ _ Hl) as (_ & _ & ?); congruence|].
  assert (mem s' = Live p') as Hm'.
  { destruct Hat as [?|Hf]; [done|]. inversion Ha; unfold pool_lock in *; rewrite Hf in *; congruence. }
  exists p'. split_and!; try done; [tauto|].
  destruct (step_frame _ _ _ _ _ _ _ _ _ Hm Hs)
    as [[? _]|[(tc & qs & ->)|(p2 & ? & _ & _ & [?|(? & ? & -> & _)] & _)]]; try congruence; try done.
  destruct (proj2 (wf_roles _ _ _ Hwf) _ _ Hl) as (_ & _ & ?); congruence.
Qed.

(** A pool whose workers must exit stays so. *)
Lemma must_exit_stable s ls t x l s' l' e p :
  wf N s ls → ls !! t = Some l → passed s l → at_mem s p → thread_must_exit p = true →
  tstep ls t x s l = Done (s', l', e) → ∃ p', at_mem s' p' ∧ thread_must_exit p' = true.
Proof.
  intros Hwf Hl Hp Hat Hex Hs. pose proof (proj1 (must_exit_spec p) Hex) as Hsd.
  assert (shutdown p ≠ 0) as Hnz by lia.
  destruct (shutdown_stable _ _ _ _ _ _ _ _ _ Hwf Hl Hat Hnz Hs) as (p' & Hat' & Hsd').
  exists p'. split; [done|]. apply must_exit_spec. rewrite Hsd'.
  destruct Hsd as [?|[Hsd Hc]]; [by left|right]. split; [done|].
  destruct Hat as [Hm|Hm].
  - destruct (step_ring _ _ _ _ _ _ _ _ _ Hm Hs)
      as [(tk & ->)|[->|[(tc & qs & ->)|(p2 & Hat2 & _ & _ & _ & _ & Hc2 & _)]]].
    + unfold at_mem in Hat'. step_cases Hs; rewrite Hm in *; simplify_eq; cbn [mem] in *;
        match goal with K : threadpool_add_locked _ _ _ = _ |- _ =>
          unfold threadpool_add_locked in K; split_matches K end; bools; try lia; naive_solver.
    + destruct Hp as (p0 & Hm0 & ? & _). rewrite Hm in Hm0. simplify_eq. lia.
    + destruct (proj2 (wf_roles _ _ _ Hwf) _ _ Hl) as (_ & _ & ?). congruence.
    + assert (p2 = p') as -> by (unfold at_mem in *; naive_solver congruence). lia.
  - destruct (freed_step _ _ _ _ _ _ _ _ _ (wf_roles _ _ _ Hwf) Hl Hm Hs) as [Hm' _].
    unfold at_mem in Hat'. naive_solver congruence.
Qed.

Lemma passed_own s ls t x l s' l' e :
  wf N s ls → queue_history s → passed s l → tstep ls t x s l = Done (s', l', e) → passed s' l'.
Proof.
  intros Hwf (ts & _ & Hring & _) Hp Hs.
  assert (∀ p, mem s = Live p → 0 <= shutdown p <= 2) as Hm.
  { intros p Hm. pose proof (wf_memory _ _ _ Hwf) as Hw. unfold memory_wf in Hw.
    rewrite Hm in Hw. by apply wf_shutdown in Hw. } unfold at_mem in *.
  step_cases Hs; repeat case_match; cbn in *; try done; bools.
  all: repeat match goal with K : ∃ p, _ |- _ => destruct K as (? & ? & ?) end; destruct_and?.
  all: repeat match goal with
    | K1 : mem ?s = Live ?p, K2 : at_mem ?s ?p' |- _ => apply (at_mem_live s p p' K1) in K2 as ->
    | K1 : mem ?s = Live ?p, K2 : mem ?s = Live ?p' |- _ =>
        assert (p' = p) as -> by congruence; clear K2
    end.
  all: try (eexists; split; [by eauto with study|]; cbn; by eauto).
  - (* the shutdown mode has been set *)
    eexists. split; [by left|]. cbn. pose proof (shutdown_mode_range flags). lia.
  - (* something to take *)
    match goal with K : mem _ = Live ?p |- _ =>
      specialize (Hm _ K); rewrite K in Hring; pose proof (ring_count _ _ (Hring p (or_introl eq_refl))) as Hc end.
    eexists. split; [done|]. unfold thread_must_exit, thread_must_wait in *. bools.
    unfold immediate_shutdown, graceful_shutdown in *. lia.
Qed.

Lemma passed_others s ls t x l s' l' e t' l0 :
  wf N s ls → owner_inv pool_lock holds s ls → passed s l → ls !! t = Some l →
  tstep ls t x s l = Done (s', l', e) → t' ≠ t → ls !! t' = Some l0 → passed s l0 → passed s' l0.
Proof.
  intros Hwf Hown Hp Hl Hs Hne Hl0 Hp0.
  destruct l0; cbn in *; try done.
  all: destruct Hp0 as (p & Hm & Hx).
  all: try (destruct (shutdown_stable _ _ _ _ _ _ _ _ _ Hwf Hl Hm Hx Hs) as (p' & ? & E);
            exists p'; split; [done|congruence]).
  all: try (eapply must_exit_stable; [exact Hwf|exact Hl|exact Hp|exact Hm|exact Hx|exact Hs]).
  all: destruct (unlocked_frame _ _ _ _ _ _ _ _ _ _ _ Hwf Hown Hm Hl Hl0 Hne eq_refl Hs)
    as (p' & Hm' & Hc & Hsd); exists p'.
  all: unfold thread_must_wait in *; rewrite Hc, Hsd; done.
Qed.

Lemma safe_step s ls s' ls' : safe N s ls → step any_input (s, ls) (s', ls') → safe N s' ls'.
Proof.
  intros [Hwf Hown Hp Hq Ht] Hstep. split.
  - by eapply wf_step.
  - eapply (owner_inv_step True (K := pool_locking N)); eauto.
  - refine (forall_threads_step (λ s _ l, passed s l) any_input s ls s' ls' Hp Hstep _ _).
    + intros t x l l' e _ Hl Hs. split; [by eapply passed_own, Hs; eauto|]. split.
      * intros t' l0 Hne Hl0. apply (passed_others s ls t x l s' l' e t' l0); eauto.
      * intros k ->. by rewrite (role_spawn _ _ _ _ _ _ _ _ Hs).
    + intros t l Hw. destruct l; cbn; by destruct Hw.
  - apply step_inv in Hstep as [(t & x & l & l' & e & _ & Hl & Hs & He)|(t & l & -> & _)]; [|done].
    eapply queue_step; eauto.
  - apply step_inv in Hstep as [(t & x & l & l' & e & _ & Hl & Hs & He)|(t & l & -> & Hl & Hw & ->)].
    + by eapply tasks_step.
    + unfold task_history in *.
      by rewrite (gather_insert_same in_hand _ _ _ _ Hl (in_hand_wake l Hw)).
Qed.
End safe.

Lemma safe_init n tc qs :
  is_int tc = true → is_int qs = true → safe (S n) (init n tc qs).1 (init n tc qs).2.
Proof.
  intros Htc Hqs. split; [by apply wf_init|..].
  - intros [|t] l H; simplify_eq/=; [done|]. by apply lookup_replicate in H as [-> ?].
  - intros [|t] l H; simplify_eq/=; [done|]. by apply lookup_replicate in H as [-> ?].
  - exists []. unfold at_mem; cbn. naive_solver.
  - unfold task_history. rewrite gather_nil; [done|].
    intros [|t] l H; simplify_eq/=; [done|]. by apply lookup_replicate in H as [-> ?].
Qed.

Lemma reachable_safe n tc qs s ls :
  is_int tc = true → is_int qs = true → reachable any_input (init n tc qs) (s, ls) →
  safe (S n) s ls.
Proof.
  intros Htc Hqs H.
  apply (invariant_reachable any_input (λ cf, safe (S n) cf.1 cf.2) _ _ (safe_init n tc qs Htc Hqs))
    in H; [done|]. intros [s1 ls1] [s2 ls2]. cbn. apply safe_step.
Qed.
