(* ===== verification/ThreadpoolProps.v ===== *)
(** * threadpool.c: properties of the running pool

    Absence of undefined behaviour, the fate of the tasks, the two shutdown
    modes, and the misuses that leave the lock held. *)

From S2P Require Import Prelude Pthread Store Threadpool ThreadpoolRun ThreadpoolInv ThreadpoolSafe.
Open Scope Z_scope.

(** ** A call has a pool *)

Definition has_pool (s : shared) (ls : list local) : Prop :=
  (handle s = true → mem s ≠ NotAllocated) ∧
  ∀ t l, ls !! t = Some l → in_call l = true → mem s ≠ NotAllocated.

Lemma allocated_step ls t x s l s' l' e :
  mem s ≠ NotAllocated → tstep ls t x s l = Done (s', l', e) → mem s' ≠ NotAllocated.
Proof. intros Hm H. step_cases H; repeat case_match; cbn [mem set_mem] in *; congruence. Qed.

Lemma has_pool_step N s ls s' ls' :
  wf N s ls → has_pool s ls → step any_input (s, ls) (s', ls') → has_pool s' ls'.
Proof.
  intros Hwf [Hh Hc] Hstep. split.
  - intros Hh'. apply step_inv in Hstep as [(t & x & l & l' & e & _ & Hl & Hs & _)|(t & l & -> & _)]; [|auto].
    destruct (step_handle _ _ _ _ _ _ _ _ Hs) as [E|(_ & tc & i & ->)].
    + rewrite E in Hh'. eapply allocated_step; eauto.
    + destruct (wf_creator _ _ _ Hwf _ _ Hl) as (_ & p & _ & Hm & _).
      eapply allocated_step; [|exact Hs]. congruence.
  - refine (forall_threads_step (λ s _ l, in_call l = true → mem s ≠ NotAllocated)
              any_input s ls s' ls' Hc Hstep _ _).
    + intros t x l l' e _ Hl Hs. split; [|split].
      * intros Hin. pose proof (wf_creator _ _ _ Hwf _ _ Hl) as Hcl. specialize (Hc _ _ Hl).
        step_cases Hs; repeat case_match; cbn [mem set_mem in_call] in *; try congruence; auto.
      * intros t' l0 _ Hl0 Hin. eapply allocated_step, Hs. eauto.
      * intros k ->. by rewrite (role_spawn _ _ _ _ _ _ _ _ Hs).
    + intros t l Hw. destruct l; cbn; by destruct Hw.
Qed.

Lemma reachable_has_pool n tc qs s ls :
  is_int tc = true → is_int qs = true → reachable any_input (init n tc qs) (s, ls) → has_pool s ls.
Proof.
  intros Htc Hqs H.
  apply (invariant_reachable any_input (λ cf, safe (S n) cf.1 cf.2 ∧ has_pool cf.1 cf.2)) in H;
    [by destruct H| |].
  - split; [by apply safe_init|]. split; [done|].
    intros [|t] l Hl; simplify_eq/=; [done|]. by apply lookup_replicate in Hl as [-> ?].
  - intros [s1 ls1] [s2 ls2] [Hs1 Hp1] Hst. cbn in *. split; [by eapply safe_step|].
    eapply has_pool_step; [by destruct Hs1|done|done].
Qed.

(** ** No undefined behaviour while the pool is allocated *)

Section no_ub.
Context (N : nat).

Lemma alive_le_workers s ls p :
  roles N s ls → pool_wf N ls p → Z.of_nat (count_if alive ls) <= workers p ls.
Proof.
  intros [HN Hr] Hp. pose proof (wf_length _ _ _ Hp).
  enough (count_if alive ls ≤ length ls - N)%nat by lia.
  apply count_if_tail; [lia|]. intros i l Hl Ha. eapply (alive_worker N s); eauto.
Qed.

Lemma create_count_no_fault s ls t tc i p :
  wf N s ls → mem s = Live p → ls !! t = Some (CreateCount tc i) → create_count p ≠ Fault.
Proof.
  intros Hwf Hm Hl. pose proof (wf_memory _ _ _ Hwf) as Hw. unfold memory_wf in Hw. rewrite Hm in Hw.
  pose proof (alive_le_workers _ _ _ (wf_roles _ _ _ Hwf) Hw) as Hal. unfold workers in *.
  destruct Hw as [_ _ _ Hct (th & _ & Hwk & _) _ Hst].
  pose proof (count_if_pos is_create_count ls t _ Hl eq_refl).
  unfold create_count, workers, INT_MAX in *.
  rewrite !int_of_fits by (unfold INT_MIN, INT_MAX; lia). done.
Qed.

Lemma exit_no_fault s ls t p :
  wf N s ls → mem s = Live p → ls !! t = Some ThreadExit → int_of (started p - 1) ≠ Fault.
Proof.
  intros Hwf Hm Hl. pose proof (wf_memory _ _ _ Hwf) as Hw. unfold memory_wf in Hw. rewrite Hm in Hw.
  pose proof (alive_le_workers _ _ _ (wf_roles _ _ _ Hwf) Hw) as Hal.
  destruct Hw as [_ _ _ Hct (th & _ & Hwk & _) _ Hst].
  pose proof (count_if_pos alive ls t _ Hl eq_refl). unfold workers, INT_MAX in *.
  rewrite int_of_fits; [done|unfold INT_MIN, INT_MAX; lia].
Qed.

Lemma join_no_fault s ls t by_ i err p :
  wf N s ls → mem s = Live p → ls !! t = Some (DestroyJoin by_ i err) → i < thread_count p →
  ∃ th k, threads p = Some th ∧ arr_read th i = Done k ∧ int_of (i + 1) ≠ Fault.
Proof.
  intros Hwf Hm Hl Hi. pose proof (wf_memory _ _ _ Hwf) as Hw. unfold memory_wf in Hw. rewrite Hm in Hw.
  destruct (wf_joining _ _ _ Hwf _ _ Hl) as [Hpos _].
  destruct Hw as [_ _ _ Hct (th & Hth & Hwk & Hk) _ _]. unfold workers, INT_MAX in *.
  exists th, (N + Z.to_nat i)%nat. split_and!; [done| |].
  - apply arr_read_in; [done|]. apply Hk. lia.
  - rewrite int_of_fits; [done|unfold INT_MIN, INT_MAX; lia].
Qed.

(** When [threadpool_destroy] frees the pool no worker is left. *)
Lemma free_started s ls t by_ p :
  wf N s ls → mem s = Live p → ls !! t = Some (DestroyFree by_) → started p = 0.
Proof.
  intros Hwf Hm Hl. pose proof (wf_memory _ _ _ Hwf) as Hw. unfold memory_wf in Hw. rewrite Hm in Hw.
  pose proof (wf_joining _ _ _ Hwf _ _ Hl) as Hex. cbn in Hex.
  pose proof (wf_started _ _ _ Hw) as Hst.
  rewrite (no_create_count N _ _ _ _ (wf_roles _ _ _ Hwf) Hl eq_refl) in Hst.
  enough (count_if alive ls = 0%nat) by lia. apply count_if_zero. intros i l Hli.
  destruct (alive l) eqn:Ha; [|done].
  pose proof (alive_worker N s i l (proj2 (wf_roles _ _ _ Hwf) _ _ Hli) Ha) as Hge.
  by rewrite (Hex _ _ Hli Hge) in Ha.
Qed.

Lemma free_no_fault s ls t by_ p :
  wf N s ls → mem s = Live p → ls !! t = Some (DestroyFree by_) → threadpool_free t (Some p) ≠ Fault.
Proof.
  intros Hwf Hm Hl. pose proof (wf_memory _ _ _ Hwf) as Hw. unfold memory_wf in Hw. rewrite Hm in Hw.
  unfold threadpool_free. rewrite (free_started _ _ _ _ _ Hwf Hm Hl). cbn.
  destruct Hw as [-> Hlk _ _ (th & -> & _) _ _]. by destruct (lock p).
Qed.

(** With the pool allocated, no thread past the entry of [threadpool_create]
    runs into undefined behaviour. *)
Lemma live_no_fault s ls t x l p :
  safe N s ls → mem s = Live p → ls !! t = Some l → (∀ tc qs, l ≠ CreateEnter tc qs) →
  tstep ls t x s l ≠ Fault.
Proof.
  intros [Hwf Hown Hps (ts & _ & Hring & _) _] Hm Hl Hne.
  pose proof (wf_memory _ _ _ Hwf) as Hw. unfold memory_wf in Hw. rewrite Hm in Hw.
  assert (ring p ts) as Hr by (by apply Hring; left).
  assert (deref s = Done p) as Hd by (by apply deref_Done).
  assert (mutex_lock t (lock p) ≠ Fault) as Hlf by (destruct Hw; by destruct (lock p)).
  pose proof (Hps _ _ Hl) as Hp. pose proof (Hown _ _ Hl) as Hh.
  unfold pool_lock in Hh. rewrite Hm in Hh.
  assert (holds l = true → mutex_unlock t (lock p) ≠ Fault) as Huf.
  { intros E. rewrite (Hh E). cbn. by rewrite decide_True. }
  cbn [tstep pool_program].
  destruct l; cbn [pool_step holds passed] in *; try specialize (Huf eq_refl).
  all: unfold call_step, create_step, add_step, destroy_step, thread_step;
    rewrite ?Hd; cbn [mbind res_bind]; rewrite ?(wf_notify _ _ _ Hw); cbn [mbind res_bind check].
  all: try (repeat first [done | apply bind_no_fault; [|intros ? _] | case_match]; fail).
  - (* CreateEnter *) by edestruct Hne.
  - (* CreateLoop *)
    destruct (wf_creator _ _ _ Hwf _ _ Hl) as (_ & p0 & th & Hm0 & <- & _ & Hth & Hlen).
    rewrite Hm in Hm0. simplify_eq. rewrite Hth. destruct Hw.
    case_match; [|done]. case_match; [|done]. bools. rewrite arr_set_in by lia. done.
  - (* CreateCount *)
    destruct (wf_creator _ _ _ Hwf _ _ Hl) as (Hi & p0 & th & Hm0 & <- & _ & Hth & Hlen).
    apply bind_no_fault; [by eapply create_count_no_fault|]. intros p' _.
    rewrite Hm in Hm0. simplify_eq. destruct Hw as [_ _ _ ? (th' & ? & ? & _) _ _]. simplify_eq.
    rewrite int_of_fits; [done|unfold INT_MIN, INT_MAX in *; lia].
  - (* AddBody *)
    destruct (add_locked_spec p ts t0 (rc_of x) Hr (wf_notify _ _ _ Hw)) as (p' & -> & _). by repeat case_match.
  - (* DestroyJoin *)
    destruct (i <? thread_count p) eqn:Ei; [|by case_match]. bools.
    destruct (join_no_fault _ _ _ _ _ _ _ Hwf Hm Hl Ei) as (th & k & -> & -> & Hi). cbn.
    apply bind_no_fault; [done|]. by repeat case_match.
  - (* DestroyFree *) apply bind_no_fault; [by eapply free_no_fault|]. by intros [??] _.
  - (* ThreadGrab *)
    destruct Hp as (p0 & Hm0 & Hc & _). rewrite Hm in Hm0. simplify_eq.
    pose proof (ring_count _ _ Hr) as Hc1. destruct ts as [|tk ts]; [cbn in *; lia|].
    destruct (grab_spec _ _ _ Hr) as (p1 & -> & _). done.
  - (* ThreadExit *) apply bind_no_fault; [by eapply exit_no_fault|done].
Qed.
End no_ub.

(** ** Theorems *)

(** Runs of scripts, for the examples. *)
Lemma any_script evs cf : reachable any_input cf ((final evs cf).1, (final evs cf).2).
Proof.
  apply (final_reachable any_input (λ _, true)); [done|].
  induction evs as [|[] evs IH]; [done|exact IH|exact IH].
Qed.

(** The tasks waiting in the queue. *)
Definition queued (s : shared) : list threadpool_task_t :=
  match mem s with Live p | Freed p => pending p | NotAllocated => [] end.

(** Scripts: thread 0 creates a pool of one worker, adds a task, destroys the
    pool; the worker takes a task. *)
Definition ok_env : create_env := CreateEnv true true true 0 0.
Definition go (t n : nat) : list (event input) := replicate n (Run t Go 0).
Definition create_script : list (event input) := Run 0 (Env ok_env) 0 :: go 0 3.
Definition add_script (t : nat) (tk : Z) : list (event input) := Run t (CallAdd (Task tk 0)) 1 :: go t 3.

Lemma outside_no_fault ls t x s l :
  in_call l = false → is_create l = false → alive l = false → l ≠ ThreadExitUnlock →
  tstep ls t x s l ≠ Fault.
Proof. destruct l; cbn; intros; try done. unfold call_step. by repeat case_match. Qed.

(** A thread that has exited, or is about to, is a worker. *)
Lemma worker_exits N s ls t l :
  wf N s ls → ls !! t = Some l → alive l = true ∨ l = ThreadExitUnlock →
  ∃ p, mem s = Live p.
Proof.
  intros Hwf Hl Hal. pose proof (wf_memory _ _ _ Hwf) as Hm. unfold memory_wf in Hm.
  assert (N ≤ t)%nat as Hge.
  { pose proof (proj2 (wf_roles _ _ _ Hwf) _ _ Hl). destruct Hal as [Hal| ->]; [by destruct l|done]. }
  destruct (mem s) as [|p|p]; [|by eauto|].
  - apply lookup_lt_Some in Hl. lia.
  - rewrite (Hm _ _ Hl Hge) in Hal. by destruct Hal.
Qed.


(** A client adds a task to a pool another client has destroyed. *)
Definition freed_too_early : config shared local :=
  final (Run 0 (Env ok_env) 0 :: go 0 1 ++ Run 1 (CallAdd (Task 1 1)) 0 ::
         Run 0 (CallDestroy 0) 0 :: go 0 6) (init 1 0 1).


(** C2: exactly once, first in first out.  The tasks added to the pool are, in
    the order of their insertion, those the workers have taken and then those
    in the queue; those taken have been executed or are in the hands of one
    worker. *)
Theorem pool_tasks_exactly_once n tc qs s ls :
  is_int tc = true → is_int qs = true → reachable any_input (init n tc qs) (s, ls) →
  added s = taken s ++ queued s ∧ taken s ≡ₚ ran s ++ gather in_hand ls.
Proof.
  intros Htc Hqs Hr. pose proof (reachable_safe _ _ _ _ _ Htc Hqs Hr) as [_ _ _ (ts & -> & Hq & Hna) Ht].
  split; [|done]. f_equal. unfold queued, at_mem in *. destruct (mem s) as [|p|p].
  - by apply Hna.
  - symmetry. apply ring_pending. auto.
  - symmetry. apply ring_pending. auto.
Qed.

Definition one_in_hand : config shared local :=
  final (create_script ++ add_script 0 7 ++ add_script 0 8 ++ go 1 5) (init 0 1 2).

Lemma pool_tasks_exactly_once_witness :
  added one_in_hand.1 = [Task 7 0; Task 8 0] ∧
  added one_in_hand.1 = taken one_in_hand.1 ++ queued one_in_hand.1 ∧
  taken one_in_hand.1 ≡ₚ ran one_in_hand.1 ++ gather in_hand one_in_hand.2.
Proof.
  split; [vm_compute; reflexivity|].
  apply (pool_tasks_exactly_once 0 1 2); [done..|apply any_script].
Defined.

(** Mutual exclusion: two threads between their lock and their unlock of the
    pool's mutex are the same thread, and it owns the mutex. *)
Theorem pool_mutual_exclusion n tc qs s ls t1 t2 l1 l2 :
  is_int tc = true → is_int qs = true → reachable any_input (init n tc qs) (s, ls) →
  ls !! t1 = Some l1 → ls !! t2 = Some l2 → holds l1 = true → holds l2 = true →
  t1 = t2 ∧ ∃ p, mem s = Live p ∧ lock p = MHeld t1.
Proof.
  intros Htc Hqs Hr Hl1 Hl2 Hh1 Hh2.
  pose proof (reachable_safe _ _ _ _ _ Htc Hqs Hr) as [_ Hown _ _ _].
  split; [by eapply mutual_exclusion|]. specialize (Hown _ _ Hl1 Hh1).
  unfold pool_lock in Hown. destruct (mem s); naive_solver.
Qed.

(** The fields of type [int]. *)
Definition int_fields (p : threadpool_t) : list Z :=
  [thread_count p; queue_size p; head p; tail p; count p; shutdown p; started p].

(** What the declaration of [struct threadpool_t] and its comment promise of a
    pool, for the tasks [ts] and the worker threads from [N] on. *)
Record well_formed (N : nat) (ls : list local) (p : threadpool_t) (ts : list threadpool_task_t) : Prop := WellFormed {
  wt_ring : ring p ts;
  wt_ints : Forall (λ z, is_int z = true) (int_fields p);
  wt_shutdown : shutdown p = 0 ∨ shutdown p = immediate_shutdown ∨ shutdown p = graceful_shutdown;
  wt_threads : ∃ th, threads p = Some th ∧ thread_count p <= Z.of_nat (length th) ∧
    ∀ k, Z.of_nat k < thread_count p → th !! k = Some (Some (N + k)%nat) ∧ is_Some (ls !! (N + k)%nat);
  wt_started : started p <= Z.of_nat (count_if alive ls) <= started p + 1;
  wt_synch : lock p ≠ MUninit ∧ notify p = true
}.

(** C10: the structure keeps its type.  In every configuration the pool, while it
    is allocated, is well formed: the indices are within the array of tasks, the
    ring holds exactly the tasks that have been added and not taken, no [int]
    has overflowed, [shutdown] is one of its three values, the array of threads
    holds the handles of the workers, and [started] counts those that have not
    left, but for one being created.  And two threads between their lock and
    their unlock of its mutex are the same thread, which owns it. *)
Theorem pool_well_formed n tc qs s ls p :
  is_int tc = true → is_int qs = true → reachable any_input (init n tc qs) (s, ls) → mem s = Live p →
  (∃ ts, added s = taken s ++ ts ∧ well_formed (S n) ls p ts) ∧
  ∀ t1 t2 l1 l2, ls !! t1 = Some l1 → ls !! t2 = Some l2 → holds l1 = true → holds l2 = true →
    t1 = t2 ∧ lock p = MHeld t1.
Proof.
  intros Htc Hqs Hr Hm. pose proof (reachable_safe _ _ _ _ _ Htc Hqs Hr) as [Hwf Hown _ (ts & Ha & Hq & _) _].
  pose proof (wf_memory _ _ _ Hwf) as Hw. unfold memory_wf in Hw. rewrite Hm in Hw.
  pose proof (alive_le_workers _ _ _ _ (wf_roles _ _ _ Hwf) Hw) as Hal.
  assert (ring p ts) as Hring by (apply Hq; by left). split.
  - exists ts. split; [done|]. pose proof Hring as [_ Hsz Hcnt Hbd Hhd Htl].
    destruct Hw as [Hnt Hlk Hsd Hct (th & Hth & Hwk & Hh) Hlen Hst]. unfold workers in *.
    assert (count_if is_create_count ls ≤ 1)%nat as Hcc.
    { destruct ls as [|l0 ls0]; [cbn; lia|]. cbn [count_if].
      assert (count_if is_create_count ls0 = 0%nat) as ->.
      { apply count_if_zero. intros i l Hl. destruct l; try done.
        destruct (proj2 (wf_roles _ _ _ Hwf) (S i) _ Hl) as [? _]. done. }
      destruct (is_create_count l0); cbn; lia. }
    assert (0 <= tail p <= queue_size p) as Htail.
    { rewrite Htl. destruct (decide (queue_size p = 0)) as [E|]; [|pose proof (Z.mod_pos_bound (head p + count p) (queue_size p)); lia].
      rewrite E, Z.mod_0_r. lia. }
    split; [done| |unfold immediate_shutdown, graceful_shutdown; lia| |lia|done].
    + unfold int_fields. repeat constructor; apply is_int_spec; unfold INT_MIN, INT_MAX in *; lia.
    + exists th. split; [done|]. split; [lia|]. intros k Hk. split; [apply Hh; lia|].
      apply lookup_lt_is_Some_2. lia.
  - intros t1 t2 l1 l2 Hl1 Hl2 Hh1 Hh2.
    destruct (pool_mutual_exclusion _ _ _ _ _ _ _ _ _ Htc Hqs Hr Hl1 Hl2 Hh1 Hh2) as (? & p' & Hp' & ?).
    split; congruence.
Qed.

Definition worker_in_section : config shared local := final (create_script ++ go 1 1) (init 0 1 2).

Lemma pool_well_formed_witness :
  ∃ p, mem worker_in_section.1 = Live p ∧ queue_size p = 2 ∧
    (∃ ts, added worker_in_section.1 = taken worker_in_section.1 ++ ts ∧ well_formed 1 worker_in_section.2 p ts) ∧
    ∀ t1 t2 l1 l2, worker_in_section.2 !! t1 = Some l1 → worker_in_section.2 !! t2 = Some l2 →
      holds l1 = true → holds l2 = true → t1 = t2 ∧ lock p = MHeld t1.
Proof.
  eexists. split; [vm_compute; reflexivity|]. split; [reflexivity|].
  apply (pool_well_formed 0 1 2); [done|done|apply any_script|vm_compute; reflexivity].
Defined.

(** What is left when [threadpool_destroy] has freed a pool. *)
Lemma freed_in_hand N s ls p :
  wf N s ls → mem s = Freed p → gather in_hand ls = [].
Proof.
  intros Hwf Hm. apply gather_nil. intros t l Hl.
  pose proof (wf_memory _ _ _ Hwf) as Hx. unfold memory_wf in Hx. rewrite Hm in Hx.
  pose proof (proj2 (wf_roles _ _ _ Hwf) _ _ Hl) as Hrl.
  destruct l; try done; cbn in Hrl; by specialize (Hx _ _ Hl Hrl).
Qed.

(** C3: [threadpool_destroy] and the workers.  When the memory of the pool has
    been freed every worker has terminated, every task taken from the queue has
    been executed, and if there is a worker and the shutdown was graceful, the
    queue is empty: every task added has been executed, exactly once. *)
Theorem pool_freed_after_work n tc qs s ls p :
  is_int tc = true → is_int qs = true → reachable any_input (init n tc qs) (s, ls) →
  mem s = Freed p →
  (∀ t l, ls !! t = Some l → (S n ≤ t)%nat → l = ThreadExited) ∧ ran s ≡ₚ taken s ∧
  ((S n < length ls)%nat → shutdown p = graceful_shutdown → ran s ≡ₚ added s).
Proof.
  intros Htc Hqs Hr Hm. pose proof (reachable_safe _ _ _ _ _ Htc Hqs Hr) as [Hwf _ Hps (ts & Ha & Hq & _) Ht].
  pose proof (wf_memory _ _ _ Hwf) as Hx. unfold memory_wf in Hx. rewrite Hm in Hx.
  unfold task_history in Ht. rewrite (freed_in_hand _ _ _ _ Hwf Hm), app_nil_r in Ht.
  split; [done|]. split; [done|]. intros Hlt Hsd. apply lookup_lt_is_Some_2 in Hlt as [l Hl].
  rewrite Ha, Ht. pose proof (Hps _ _ Hl) as Hp. rewrite (Hx _ _ Hl) in Hp by lia.
  destruct Hp as (p' & Hat & Hex). assert (p' = p) as -> by (unfold at_mem in Hat; naive_solver congruence).
  apply must_exit_spec in Hex. unfold graceful_shutdown in Hsd.
  pose proof (ring_count _ _ (Hq p (or_intror Hm))). destruct ts; [by rewrite app_nil_r|cbn in *; lia].
Qed.

Definition graceful_end : config shared local :=
  final (create_script ++ add_script 0 7 ++ add_script 0 8 ++
         Run 0 (CallDestroy 1) 0 :: go 0 4 ++ go 1 17 ++ go 0 3) (init 0 1 2).

Lemma pool_freed_after_work_witness :
  ∃ p, mem graceful_end.1 = Freed p ∧
  (∀ t l, graceful_end.2 !! t = Some l → (1 ≤ t)%nat → l = ThreadExited) ∧
  ran graceful_end.1 ≡ₚ taken graceful_end.1 ∧
  ((1 < length graceful_end.2)%nat → shutdown p = graceful_shutdown →
   ran graceful_end.1 ≡ₚ added graceful_end.1).
Proof.
  eexists. split; [vm_compute; reflexivity|].
  apply (pool_freed_after_work 0 1 2); [done..|apply any_script|vm_compute; reflexivity].
Defined.

(** Immediate shutdown.  Once the shutdown is immediate no worker takes a
    task any more: the tasks still in the queue are never executed. *)
Theorem pool_immediate_takes_nothing n tc qs s ls s' ls' p :
  is_int tc = true → is_int qs = true → reachable any_input (init n tc qs) (s, ls) →
  mem s = Live p → shutdown p = immediate_shutdown →
  reachable any_input (s, ls) (s', ls') → taken s' = taken s.
Proof.
  intros Htc Hqs Hr Hm Hsd Hr'. pose proof (reachable_safe _ _ _ _ _ Htc Hqs Hr) as Hsafe.
  apply (invariant_reachable any_input (λ cf, safe (S n) cf.1 cf.2 ∧ taken cf.1 = taken s ∧
           ∃ p, at_mem cf.1 p ∧ shutdown p = immediate_shutdown)) in Hr'; [by destruct Hr' as (_ & ? & _)| |].
  { split; [done|]. split; [done|]. exists p. split; [by left|done]. }
  clear - Hsd. intros [s1 ls1] [s2 ls2] (Hs & Hta & p1 & Hat & Hp1) Hst. cbn in *.
  split; [by eapply safe_step|]. destruct Hs as [Hwf _ Hps _ _].
  apply step_inv in Hst as [(t & x & l & l' & e & _ & Hl & Hs & _)|(t & l & -> & _)]; [|by eauto].
  destruct (shutdown_stable _ _ _ _ _ _ _ _ _ _ Hwf Hl Hat (ltac:(by rewrite Hp1)) Hs) as (p2 & Hat2 & Hp2).
  split; [|exists p2; split; [done|congruence]]. rewrite <- Hta.
  pose proof (Hps _ _ Hl) as Hpl. destruct Hat as [Hm|Hm].
  - destruct (step_ring _ _ _ _ _ _ _ _ _ Hm Hs)
      as [(tk & ->)|[->|[(tc & qs & ->)|(p' & _ & Hr)]]]; [| | |tauto].
    + by step_cases Hs.
    + destruct Hpl as (p0 & Hm0 & _ & ?). congruence.
    + destruct (proj2 (wf_roles _ _ _ Hwf) _ _ Hl) as (_ & _ & ?). congruence.
  - by destruct (freed_step _ _ _ _ _ _ _ _ _ _ (wf_roles _ _ _ Hwf) Hl Hm Hs) as (_ & _ & ?).
Qed.

Definition immediate_begins : config shared local :=
  final (create_script ++ add_script 0 7 ++ Run 0 (CallDestroy 0) 0 :: go 0 2) (init 0 1 2).

Definition immediate_ends : config shared local :=
  final (go 0 2 ++ go 1 5 ++ go 0 3) (immediate_begins.1, immediate_begins.2).

Lemma pool_immediate_takes_nothing_witness :
  queued immediate_begins.1 = [Task 7 0] ∧ queued immediate_ends.1 = [Task 7 0] ∧
  taken immediate_ends.1 = taken immediate_begins.1.
Proof.
  split; [vm_compute; reflexivity|]. split; [vm_compute; reflexivity|].
  eapply (pool_immediate_takes_nothing 0 1 2 immediate_begins.1 immediate_begins.2 _ immediate_ends.2);
    [done|done|apply any_script|vm_compute; reflexivity|vm_compute; reflexivity|apply any_script].
Defined.

(** C8: a second [threadpool_destroy] deadlocks the pool.  The call finds the
    pool shutting down, returns [threadpool_shutdown], and leaves the mutex
    locked by a thread that is no longer in the API: from then on the mutex is
    never released and the memory of the pool never freed. *)
Theorem second_destroy_keeps_the_lock n tc qs s ls t flags p :
  is_int tc = true → is_int qs = true → reachable any_input (init n tc qs) (s, ls) →
  mem s = Live p → ls !! t = Some (DestroyTest ByClient flags) → shutdown p ≠ 0 →
  ∃ s1, (∀ x w, exec (Run t x w) (s, ls) = Done (s1, <[t := Outside]> ls)) ∧
    returns s1 = returns s ++ [(t, Destroy, error_code threadpool_shutdown)] ∧
    ∀ s2 ls2, reachable any_input (s1, <[t := Outside]> ls) (s2, ls2) →
      ∃ p2, mem s2 = Live p2 ∧ lock p2 = MHeld t.
Proof.
  intros Htc Hqs Hr Hm Hl Hsd. pose proof (reachable_safe _ _ _ _ _ Htc Hqs Hr) as Hsafe.
  pose proof (safe_wf _ _ _ Hsafe) as Hwf. pose proof (safe_lock _ _ _ Hsafe) as Hown.
  pose proof (Hown _ _ Hl eq_refl) as Hlk.
  set (s1 := Shared (Live p) (handle s) (added s) (taken s) (ran s)
               (returns s ++ [(t, Destroy, error_code threadpool_shutdown)])).
  assert (∀ x w, exec (Run t x w) (s, ls) = Done (s1, <[t := Outside]> ls)) as Hex.
  { intros x w. cbn. rewrite Hl. cbn. unfold destroy_step, deref, threadpool_destroy_locked.
    rewrite Hm. cbn. by rewrite (proj2 (Z.eqb_neq _ _) Hsd). }
  exists s1. split; [done|]. split; [done|]. intros s2 ls2 Hr2.
  apply (invariant_reachable any_input
           (λ cf, wf (S n) cf.1 cf.2 ∧ leaked pool_lock holds t cf.1 cf.2)) in Hr2.
  - destruct Hr2 as (_ & Hlk2 & _). unfold pool_lock in Hlk2. cbn in Hlk2.
    destruct (mem s2); naive_solver.
  - split; [by apply (wf_step _ s ls), (step_exec _ (Run t Go 0)); [..|apply Hex]|].
    split; [unfold pool_lock in *; by rewrite Hm in Hlk|]. intros t' l Hl'. cbn in Hl'.
    destruct (decide (t' = t)) as [->|Hne].
    + rewrite list_lookup_insert_eq in Hl' by (by eapply lookup_lt_Some). by simplify_eq.
    + rewrite list_lookup_insert_ne in Hl' by done. destruct (holds l) eqn:Hh; [|done].
      pose proof (Hown _ _ Hl' Hh). congruence.
  - intros [s3 ls3] [s4 ls4] [Hw3 Hk3] Hst. split; [by eapply wf_step|].
    eapply (leaked_step True (K := pool_locking (S n))); eauto.
Qed.

Definition destroying_twice : config shared local :=
  final (create_script ++ Run 1 (CallDestroy 0) 0 :: Run 0 (CallDestroy 0) 0 :: go 0 4 ++ go 1 1)
    (init 1 1 1).

Lemma second_destroy_keeps_the_lock_witness :
  ∃ p, mem destroying_twice.1 = Live p ∧ shutdown p = 1 ∧
  ∃ s1, (∀ x w, exec (Run 1 x w) (destroying_twice.1, destroying_twice.2) =
                Done (s1, <[1%nat := Outside]> destroying_twice.2)) ∧
    returns s1 = returns destroying_twice.1 ++ [(1%nat, Destroy, error_code threadpool_shutdown)] ∧
    ∀ s2 ls2, reachable any_input (s1, <[1%nat := Outside]> destroying_twice.2) (s2, ls2) →
      ∃ p2, mem s2 = Live p2 ∧ lock p2 = MHeld 1.
Proof.
  eexists. split; [vm_compute; reflexivity|]. split; [reflexivity|].
  eapply (second_destroy_keeps_the_lock 1 1 1 _ _ 1);
    [done|done|apply any_script|vm_compute; reflexivity|vm_compute; reflexivity|done].
Defined.
