(* ===== verification/ThreadpoolLive.v ===== *)
(** * threadpool.c: no lost wakeup, no deadlock, termination

    The runs of a pool in which every call to the pthread library succeeds: a
    task is not forgotten while workers sleep, [threadpool_destroy] completes. *)

From S2P Require Import Prelude Pthread Store Threadpool ThreadpoolRun ThreadpoolInv ThreadpoolSafe.
From S2P Require Import ThreadpoolProps.
Open Scope Z_scope.

(** A worker on its way to the test of the queue, or past it. *)
Definition heading (l : local) : bool :=
  match l with
  | ThreadLock | ThreadTest | ThreadWoken | ThreadCheck | ThreadGrab => true
  | _ => false
  end.

Definition sleeping (l : local) : bool := match l with ThreadWait => true | _ => false end.

(** A thread in [threadpool_destroy] that has set the shutdown mode. *)
Definition destroying (l : local) : bool :=
  match l with
  | DestroyBroadcast _ | DestroyUnlock _ | DestroyJoin _ _ _ | DestroyFree _ => true
  | _ => false
  end.

Definition broadcasting (l : local) : bool :=
  match l with DestroyBroadcast _ => true | _ => false end.

Definition present (f : local → bool) (ls : list local) : Prop := (0 < count_if f ls)%nat.

Definition awake (s : shared) (ls : list local) : Prop :=
  ∀ p, mem s = Live p → present sleeping ls →
    (shutdown p = 0 → count p <= Z.of_nat (count_if heading ls)) ∧
    (shutdown p ≠ 0 → present broadcasting ls).

Definition destroyer (s : shared) (ls : list local) : Prop :=
  ∀ p, mem s = Live p → shutdown p ≠ 0 → present destroying ls.

(** No call of the pthread library has failed. *)
Definition no_error (l : local) : Prop :=
  match l with
  | DestroyLock b _ | DestroyTest b _ | DestroyBroadcast b | DestroyUnlock b | DestroyFree b =>
      b = ByClient
  | DestroyJoin b _ err => b = ByClient ∧ err = 0
  | _ => True
  end.

Definition refused (s : shared) : Prop :=
  ∃ t, (t, Destroy, error_code threadpool_shutdown) ∈ returns s.

Record live (N : nat) (s : shared) (ls : list local) : Prop := LiveInv {
  live_safe : safe N s ls;
  live_awake : awake s ls;
  live_destroyer : destroyer s ls;
  live_error : ∀ t l, ls !! t = Some l → no_error l;
  live_leak : no_leak_inv pool_lock holds s ls ∨ refused s
}.

Lemma wake_classes l :
  is_Some (waits_on l) →
  l = ThreadWait ∧ heading (woken l) = true ∧ sleeping (woken l) = false ∧
  broadcasting (woken l) = false ∧ destroying (woken l) = false.
Proof. destruct l; cbn; by intros [??]. Qed.

(** Counting sleepers and the workers on their way across an effect. *)
Lemma count_signal ls ls' :
  effect_on (Some (Signal 0)) ls ls' →
  (count_if sleeping ls = 0%nat ∧ ls' = ls) ∨
  ((0 < count_if sleeping ls)%nat ∧ count_if heading ls' = S (count_if heading ls)).
Proof.
  intros H. inversion H as [|c k w l Hw Hc|c k Hn| |]; subst.
  - right. destruct (wake_classes l) as (-> & _); [by eauto|].
    pose proof (count_if_insert heading _ _ _ ThreadWoken Hw) as Hi. cbn in *.
    pose proof (count_if_pos sleeping _ _ _ Hw eq_refl). lia.
  - left. split; [|done]. apply count_if_zero. intros i l Hl.
    specialize (Hn _ _ Hl). by destruct l.
Qed.

Lemma count_broadcast ls ls' :
  effect_on (Some (Broadcast 0)) ls ls' → count_if sleeping ls' = 0%nat.
Proof.
  intros H. inversion H; subst. apply count_if_zero. intros i l Hl.
  unfold wake_all in Hl. rewrite list_lookup_fmap in Hl.
  match type of Hl with _ <$> ?o = _ => destruct o as [k|]; [|done] end.
  injection Hl as <-. unfold waits_for. by destruct k.
Qed.

Lemma effect_none ls ls' : effect_on (None : option (effect local)) ls ls' → ls' = ls.
Proof. by inversion 1. Qed.

Lemma effect_spawn (k : local) ls ls' : effect_on (Some (Spawn k)) ls ls' → ls' = ls ++ [k].
Proof. by inversion 1. Qed.

(** What a call has returned is not forgotten. *)
Lemma returns_step ls t x s l s' l' e r :
  tstep ls t x s l = Done (s', l', e) → r ∈ returns s → r ∈ returns s'.
Proof.
  intros H Hr. step_cases H; repeat case_match; cbn; rewrite ?elem_of_app; eauto.
Qed.

#[export] Instance refused_dec s : Decision (refused s).
Proof.
  refine (cast_if (decide (Exists (λ r, r.1.2 = Destroy ∧ r.2 = error_code threadpool_shutdown) (returns s))));
    unfold refused.
  - rewrite Exists_exists in *. destruct e as ([[t a] rc] & ? & ? & ?). cbn in *. subst. by exists t.
  - intros [t Ht]. apply n. apply Exists_exists. by eexists.
Defined.

Section live.
Context (N : nat).

Lemma awake_run s ls t x l s' l' e ls' :
  safe N s ls → awake s ls → ls !! t = Some l → no_failure x →
  tstep ls t x s l = Done (s', l', e) → effect_on e (<[t := l']> ls) ls' → awake s' ls'.
Proof.
  intros Hsafe Haw Hl Hx Hs He p' Hm' Hsl. unfold no_failure in Hx. unfold present in *.
  pose proof (safe_wf _ _ _ Hsafe) as Hwf. pose proof (wf_creator _ _ _ Hwf _ _ Hl) as Hcr.
  pose proof (count_if_insert heading _ _ _ l' Hl) as Hh.
  pose proof (count_if_insert sleeping _ _ _ l' Hl) as Hsp.
  pose proof (count_if_insert broadcasting _ _ _ l' Hl) as Hb.
  pose proof (safe_queue _ _ _ Hsafe) as (ts & _ & Hring & _).
  assert (∀ p, mem s = Live p → 0 <= count p) as Hpos.
  { intros p Hp. rewrite (ring_count _ _ (Hring _ (or_introl Hp))). lia. }
  unfold awake, present in Haw.
  step_cases Hs; repeat case_match; cbn [mem set_mem return_to return_destroy set_pool] in *;
    rewrite ?Hx in *; try discriminate; try congruence.
  all: revert Hm'; first
    [ match goal with K : mem _ = Live _ |- _ =>
        specialize (Haw _ K); specialize (Hpos _ K); try rewrite K end; intros Hm'
    | intros Hm'; try (specialize (Haw _ Hm'); specialize (Hpos _ Hm')) ].
  all: simplify_eq.
  all: first [apply effect_none in He; subst ls' | apply effect_spawn in He; subst ls'
             | apply count_broadcast in He; lia | idtac].
  all: repeat match goal with
    | K : thread_grab _ = Done _ |- _ => unfold thread_grab in K; split_matches K
    | K : threadpool_add_locked _ _ _ = Done _ |- _ => unfold threadpool_add_locked in K; split_matches K
    end.
  all: rewrite ?count_if_app in *; unfold thread_must_wait in *; cbn in *; bools; try lia.
  - (* the pool is created *)
    destruct Hcr as [Htc Hqs].
    match goal with K : threadpool_create_init _ _ _ _ = _ |- _ =>
      destruct (create_init_ok _ _ _ _ _ Htc Hqs K) as (_ & _ & ->) end. cbn. lia.
  - (* a task is added and a sleeper woken *)
    apply count_signal in He as [[? ->]|[? ->]]; lia.
  - (* a worker leaves *)
    match goal with K : thread_must_exit _ = true |- _ => apply must_exit_spec in K end. lia.
Qed.

Lemma awake_wake s ls t l :
  awake s ls → ls !! t = Some l → is_Some (waits_on l) → awake s (<[t := woken l]> ls).
Proof.
  intros Haw Hl Hw p Hm Hsl. unfold awake, present in *.
  destruct (wake_classes l Hw) as (-> & Hwk & _).
  pose proof (count_if_insert heading _ _ _ (woken ThreadWait) Hl) as Hh.
  pose proof (count_if_insert sleeping _ _ _ (woken ThreadWait) Hl) as Hsp.
  pose proof (count_if_insert broadcasting _ _ _ (woken ThreadWait) Hl) as Hb.
  specialize (Haw _ Hm). cbn in *. lia.
Qed.

Lemma destroying_wake l : is_Some (waits_on l) → destroying (woken l) = destroying l.
Proof. destruct l; cbn; by intros [??]. Qed.

Lemma live_threads s ls p : wf N s ls → mem s = Live p → is_Some (threads p).
Proof.
  intros Hwf Hm. pose proof (wf_memory _ _ _ Hwf) as Hx. unfold memory_wf in Hx.
  rewrite Hm in Hx. destruct (wf_threads _ _ _ Hx) as (th & ? & _). by exists th.
Qed.

Lemma free_success t p rc bs :
  is_Some (threads p) → started p = 0 → threadpool_free t (Some p) = Done (rc, bs) → rc = 0.
Proof. intros Hth Hst H. apply free_Done in H as [(? & _)|(_ & ? & _)]; [lia|done..]. Qed.

Lemma destroyer_run s ls t x l s' l' e ls' :
  safe N s ls → destroyer s ls → no_error l → ls !! t = Some l → no_failure x →
  tstep ls t x s l = Done (s', l', e) → effect_on e (<[t := l']> ls) ls' → destroyer s' ls'.
Proof.
  intros Hsafe Hd Hj Hl Hx Hs He p' Hm' Hsd. unfold no_failure in Hx. unfold destroyer, present in *.
  pose proof (safe_wf _ _ _ Hsafe) as Hwf. pose proof (wf_creator _ _ _ Hwf _ _ Hl) as Hcr.
  pose proof (λ p, live_threads s ls p Hwf) as Hth.
  pose proof (λ by_ p E H, free_started N s ls t by_ p Hwf H (eq_trans Hl (f_equal Some E))) as Hfr.
  pose proof (count_step destroying _ _ _ _ _ _ destroying_wake Hl He) as Hc. clear He.
  step_cases Hs; repeat case_match; cbn [mem set_mem return_to return_destroy set_pool] in *;
    rewrite ?Hx in *; try discriminate; try congruence.
  all: revert Hm'; first
    [ match goal with K : mem _ = Live _ |- _ =>
        specialize (Hd _ K); try rewrite K end; intros Hm'
    | intros Hm'; try (specialize (Hd _ Hm')) ].
  all: simplify_eq.
  all: repeat match goal with
    | K : thread_grab _ = Done _ |- _ => apply grab_frame in K
    | K : threadpool_add_locked _ _ _ = Done _ |- _ => apply add_locked_frame in K
    end; unfold same_frame in *; destruct_and?.
  all: try (match goal with K : shutdown _ = shutdown _ |- _ => rewrite K in Hsd; cbn in Hsd end).
  all: unfold spawned in Hc; cbn in Hc, Hsd, Hj; repeat case_match; cbn in Hc; try lia.
  - (* the pool is created *)
    destruct Hcr as [Htc Hqs].
    match goal with K : threadpool_create_init _ _ _ _ = _ |- _ =>
      destruct (create_init_ok _ _ _ _ _ Htc Hqs K) as (_ & _ & E) end.
    by rewrite E in Hsd.
  - (* freed for a client *)
    match goal with K1 : mem _ = Live _, K : threadpool_free _ _ = Done _ |- _ =>
      pose proof (free_success _ _ _ _ (Hth _ K1) (Hfr _ _ eq_refl K1) K) end. bools. lia.
Qed.

Lemma no_error_run ls t x s l s' l' e :
  no_failure x → no_error l → tstep ls t x s l = Done (s', l', e) → no_error l'.
Proof.
  intros Hx Hj Hs. unfold no_failure in Hx.
  step_cases Hs; repeat case_match; cbn in *; rewrite ?Hx in *; try done; tauto.
Qed.

(** Without failures only a refused [threadpool_destroy] keeps the lock. *)
Lemma leak_run s ls t x l s' l' e :
  no_failure x → no_error l → tstep ls t x s l = Done (s', l', e) → holds l = true → holds l' = false →
  pool_lock s' = pool_lock s → refused s'.
Proof.
  intros Hx Hne Hs Hh Hh' Hlk. unfold no_failure, pool_lock, refused in *.
  step_cases Hs; repeat case_match; cbn in Hh, Hh', Hlk; try discriminate; rewrite ?Hx in *;
    try discriminate.
  all: repeat match goal with K : mem _ = Live _ |- _ => rewrite K in * end; cbn in *; simplify_eq.
  all: try congruence.
  all: try (exists t; set_solver).
Qed.

Lemma live_step s ls s' ls' : live N s ls → step no_failure (s, ls) (s', ls') → live N s' ls'.
Proof.
  intros [Hsafe Haw Hd Hne Hlk] Hstep.
  pose proof (safe_wf _ _ _ Hsafe) as Hwf. split.
  - eapply safe_step; [done|]. eapply step_mono; [|done]. done.
  - apply step_inv in Hstep as [(t & x & l & l' & e & Hx & Hl & Hs & He)|(t & l & -> & Hl & Hw & ->)];
      [by eapply awake_run|by apply awake_wake].
  - apply step_inv in Hstep as [(t & x & l & l' & e & Hx & Hl & Hs & He)|(t & l & -> & Hl & Hw & ->)];
      [by eapply destroyer_run; eauto|]. intros p Hm Hsd. specialize (Hd p Hm Hsd).
    unfold present in *. pose proof (count_if_insert destroying _ _ _ (woken l) Hl) as Hc.
    rewrite (destroying_wake _ Hw) in Hc. lia.
  - refine (forall_threads_step (λ _ _ l, no_error l) no_failure s ls s' ls' Hne Hstep _ _).
    + intros t x l l' e Hx Hl Hs. split; [by eapply no_error_run; eauto|]. split; [by eauto|].
      intros k ->. by rewrite (role_spawn _ _ _ _ _ _ _ _ Hs).
    + intros t l Hw. destruct l; cbn; by destruct Hw.
  - apply step_inv in Hstep as [(t & x & l & l' & e & Hx & Hl & Hs & He)|(t & l & -> & Hl & Hw & ->)].
    + destruct Hlk as [Hlk|(t0 & Hr)]; [|right; exists t0; by eapply returns_step].
      pose proof (locking_step (Locking := pool_locking N) _ _ _ _ _ _ _ _ I Hwf Hl Hs) as Ha.
      destruct (decide (refused s')) as [Hr|Hr]; [by right|]. left.
      eapply no_leak_inv_run; eauto; [intros k Hk; by destruct (wake_classes k Hk) as [-> _]|].
      inversion Ha; try (by constructor); [].
      destruct Hr. eapply leak_run; eauto; congruence.
    + destruct Hlk as [Hlk|Hr]; [left|by right].
      eapply no_leak_inv_wake; eauto. by destruct (wake_classes l Hw) as [-> _].
Qed.
End live.

Lemma live_init n tc qs :
  is_int tc = true → is_int qs = true → live (S n) (init n tc qs).1 (init n tc qs).2.
Proof.
  intros Htc Hqs. split; [by apply safe_init|by intros ? ?..| |by left].
  intros [|t] l H; simplify_eq/=; [done|]. by apply lookup_replicate in H as [-> ?].
Qed.

Lemma reachable_live n tc qs s ls :
  is_int tc = true → is_int qs = true → reachable no_failure (init n tc qs) (s, ls) →
  live (S n) s ls.
Proof.
  intros Htc Hqs H.
  apply (invariant_reachable no_failure (λ cf, live (S n) cf.1 cf.2) _ _ (live_init n tc qs Htc Hqs))
    in H; [done|]. intros [s1 ls1] [s2 ls2]. cbn. apply live_step.
Qed.

(** ** Progress *)

Definition idle (l : local) : bool :=
  match l with Outside | ThreadWait | ThreadExited => true | _ => false end.

Definition wants_lock (l : local) : bool :=
  match l with
  | AddLock _ | DestroyLock _ _ | DestroyFree _ | ThreadLock | ThreadWoken => true
  | _ => false
  end.

(** An answer of the environment with which a thread can run. *)
Definition next_input (l : local) : input :=
  match l with CreateEnter _ _ => Env ok_env | _ => Go end.

Lemma add_locked_not_blocked p t rc : threadpool_add_locked p t rc ≠ Blocked.
Proof. unfold threadpool_add_locked, int_of, arr_set, check. by repeat case_match. Qed.

Lemma grab_not_blocked p : thread_grab p ≠ Blocked.
Proof. unfold thread_grab, int_of, arr_read. by repeat case_match. Qed.

Lemma create_not_blocked t env tc qs : threadpool_create_init t env tc qs ≠ Blocked.
Proof.
  unfold threadpool_create_init, create_pool, threadpool_free. destruct env as [[] mt mq mi mc]; [|done].
  cbn. by destruct (mi =? 0), (mc =? 0), (fresh_array mt _ _), (fresh_array mq _ _).
Qed.

#[local] Hint Resolve add_locked_not_blocked grab_not_blocked create_not_blocked : study.

(** The three reasons why a thread cannot run. *)
Lemma blocked_inv s ls t l :
  tstep ls t (next_input l) s l = Blocked →
  idle l = true ∨ ∃ p, mem s = Live p ∧
    ((wants_lock l = true ∧ lock p ≠ MFree) ∨
     ∃ by_ i err th k, l = DestroyJoin by_ i err ∧ i < thread_count p ∧
       threads p = Some th ∧ arr_read th i = Done k ∧ exited ls k = false).
Proof.
  intros H. destruct l; try (by left); right; cbn [tstep pool_program pool_step next_input rc_of] in H;
    unfold create_step, add_step, destroy_step, thread_step in H.
  all: try (unfold deref in H; destruct (mem s) as [|p|p] eqn:Hm; cbn in H; try discriminate H;
            exists p; split; [done|]).
  all: unfold create_count, threadpool_free in H; inv_blocked H.
  all: try (apply mutex_lock_Blocked in H; by left).
  right. bools. eauto 10.
Qed.

(** A configuration in which no thread inside the API, and no worker, can
    carry out another step. *)
Definition quiescent (s : shared) (ls : list local) : Prop :=
  ∀ t l x w cf, ls !! t = Some l → l ≠ Outside → no_failure x → exec (Run t x w) (s, ls) ≠ Done cf.

Lemma idle_quiescent s ls : Forall (λ l, idle l = true) ls → quiescent s ls.
Proof.
  intros Hid t l x w cf Hl Hne _ Hex. rewrite Forall_lookup in Hid. specialize (Hid _ _ Hl).
  unfold exec in Hex. cbn [fst snd] in Hex. rewrite Hl in Hex. by destruct l.
Qed.

Lemma idle_no_fault ok s ls t : Forall (λ l, idle l = true) ls → ¬ can_fault ok (s, ls) t.
Proof.
  intros Hid Hf. apply can_fault_inv in Hf as (l & x & Hl & _ & Hf). rewrite Forall_lookup in Hid.
  specialize (Hid _ _ Hl). by destruct (outside_no_fault ls t x s l); destruct l.
Qed.

Section quiescent.
Context (N : nat) (s : shared) (ls : list local).
Context (Hlive : live N s ls) (Hq : quiescent s ls).
Context (Hnf : ∀ t, ¬ can_fault no_failure (s, ls) t) (Hnr : ¬ refused s).

Lemma quiescent_blocked t l :
  ls !! t = Some l → l ≠ Outside → tstep ls t (next_input l) s l = Blocked.
Proof.
  intros Hl Hne. assert (no_failure (next_input l)) as Hx by (by destruct l).
  destruct (tstep ls t (next_input l) s l) as [[[s' l'] e]| |] eqn:E; [|done|].
  - destruct (exec_Done _ _ _ _ _ _ _ _ Hl E) as (w & cf & Hex). by destruct (Hq t l (next_input l) w cf).
  - destruct (Hnf t). exists (next_input l), 0%nat. split; [done|].
    unfold exec. cbn [fst snd]. by rewrite Hl, E.
Qed.

(** With the pool allocated the lock is free: its owner could go on. *)
Lemma quiescent_lock p : mem s = Live p → lock p = MFree.
Proof.
  intros Hm. destruct (live_leak _ _ _ Hlive) as [Hleak|?]; [|done].
  pose proof (wf_memory _ _ _ (safe_wf _ _ _ (live_safe _ _ _ Hlive))) as Hw.
  unfold memory_wf in Hw. rewrite Hm in Hw.
  destruct (lock p) as [| |t] eqn:Hlk; [by destruct (wf_lock _ _ _ Hw)|done|].
  destruct (Hleak t) as (l & Hl & Hh); [unfold pool_lock; by rewrite Hm|].
  destruct (blocked_inv s ls t l) as [Hid|(p' & _ & [[Hwl _]|(by_ & i & err & th & k & -> & _)])].
  - apply quiescent_blocked; [done|]. by intros ->.
  - by destruct l.
  - by destruct l.
  - done.
Qed.

(** A worker that is not asleep has terminated. *)
Lemma quiescent_worker t l : ls !! t = Some l → (N ≤ t)%nat → l = ThreadWait ∨ l = ThreadExited.
Proof.
  intros Hl Ht. pose proof (safe_wf _ _ _ (live_safe _ _ _ Hlive)) as Hwf.
  pose proof (proj2 (wf_roles _ _ _ Hwf) _ _ Hl) as Hrl.
  assert (is_create l = false ∧ in_call l = false ∧ l ≠ Outside) as (Hnc & Hin & Hne).
  { assert (0 < N)%nat by apply Hwf.
    destruct l; cbn in *; repeat case_match; try done; exfalso; intuition lia. }
  destruct (blocked_inv s ls t l) as [Hid|(p & Hm & [[Hwl Hlk]|(by_ & i & err & th & k & -> & _)])].
  - by apply quiescent_blocked.
  - destruct l; try done; by auto.
  - by rewrite (quiescent_lock p Hm) in Hlk.
  - done.
Qed.

(** Nobody waits in a join: a sleeping worker would be about to be woken. *)
Lemma quiescent_idle t l : ls !! t = Some l → idle l = true.
Proof.
  intros Hl. pose proof (live_safe _ _ _ Hlive) as Hsafe. pose proof (safe_wf _ _ _ Hsafe) as Hwf.
  destruct (decide (l = Outside)) as [->|Hne]; [done|].
  destruct (blocked_inv s ls t l) as [Hid|(p & Hm & [[Hwl Hlk]|(by_ & i & err & th & k & -> & Hi & Hth & Hk & Hex)])];
    [by apply quiescent_blocked|done|by rewrite (quiescent_lock p Hm) in Hlk|exfalso].
  pose proof (wf_memory _ _ _ Hwf) as Hw. unfold memory_wf in Hw. rewrite Hm in Hw.
  destruct (wf_joining _ _ _ Hwf _ _ Hl) as [Hpos _].
  destruct (wf_threads _ _ _ Hw) as (th' & Hth' & _ & Hids). simplify_eq.
  apply arr_read_Done in Hk as [_ Hk]. rewrite Hids in Hk by (unfold workers; lia). simplify_eq.
  destruct (ls !! (N + Z.to_nat i)%nat) as [lk|] eqn:Elk.
  2: { apply lookup_ge_None in Elk. pose proof (wf_length _ _ _ Hw). unfold workers in *. lia. }
  unfold exited in Hex. rewrite Elk in Hex. apply bool_decide_eq_false_1 in Hex.
  destruct (quiescent_worker _ _ Elk) as [->| ->]; [lia| |done].
  assert (present sleeping ls) as Hsl by (by eapply count_if_pos).
  destruct (safe_passed _ _ _ Hsafe _ _ Hl) as (p' & Hat & Hsd).
  rewrite (at_mem_live _ _ _ Hm Hat) in Hsd.
  destruct (live_awake _ _ _ Hlive p Hm Hsl) as [_ Hb].
  destruct (count_if_pos_inv _ _ (Hb Hsd)) as (t2 & l2 & Hl2 & Hb2).
  destruct (blocked_inv s ls t2 l2) as [Hid|(p2 & Hm2 & [[Hwl Hlk]|(? & ? & ? & ? & ? & -> & _)])];
    try (by destruct l2); try done.
  apply quiescent_blocked; [done|]. by intros ->.
Qed.
End quiescent.

(** C6: no lost wakeup.  When the calls to the pthread library succeed and a
    worker sleeps, either the pool is not shutting down and at least as many
    workers are on their way to the queue as there are tasks in it, or the
    thread that is destroying the pool is about to wake everybody. *)
Theorem pool_no_lost_wakeup n tc qs s ls p t :
  is_int tc = true → is_int qs = true → reachable no_failure (init n tc qs) (s, ls) →
  mem s = Live p → ls !! t = Some ThreadWait →
  (shutdown p = 0 → count p <= Z.of_nat (count_if heading ls)) ∧
  (shutdown p ≠ 0 → ∃ t' by_, ls !! t' = Some (DestroyBroadcast by_)).
Proof.
  intros Htc Hqs Hr Hm Hl. pose proof (reachable_live _ _ _ _ _ Htc Hqs Hr) as Hlive.
  destruct (live_awake _ _ _ Hlive p Hm) as [H1 H2]; [by eapply count_if_pos|]. split; [done|].
  intros Hsd. destruct (count_if_pos_inv _ _ (H2 Hsd)) as (t' & l & Hl' & Hb).
  destruct l; try done. eauto.
Qed.

Lemma calm_script evs cf :
  forallb (event_okb (λ x, rc_of x =? 0)) evs = true →
  reachable no_failure cf ((final evs cf).1, (final evs cf).2).
Proof. apply final_reachable. intros x Hx. unfold no_failure. lia. Qed.

(** Two workers sleep; adding a task wakes the first one. *)
Definition one_woken : config shared local :=
  final (Run 0 (Env ok_env) 0 :: go 0 5 ++ go 1 2 ++ go 2 2 ++ Run 0 (CallAdd (Task 7 0)) 1 ::
         go 0 1 ++ [Run 0 Go 1]) (init 0 2 3).

Lemma pool_no_lost_wakeup_witness :
  ∃ p, mem one_woken.1 = Live p ∧ count p = 1 ∧
  (shutdown p = 0 → count p <= Z.of_nat (count_if heading one_woken.2)) ∧
  (shutdown p ≠ 0 → ∃ t' by_, one_woken.2 !! t' = Some (DestroyBroadcast by_)).
Proof.
  eexists. split; [vm_compute; reflexivity|]. split; [reflexivity|].
  apply (pool_no_lost_wakeup 0 2 3 one_woken.1 one_woken.2 _ 2);
    [done|done|by apply calm_script|vm_compute; reflexivity|vm_compute; reflexivity].
Defined.


(** One worker, one task added and executed, the worker asleep again. *)
Definition all_done : config shared local :=
  final (create_script ++ add_script 0 7 ++ go 1 8) (init 0 1 2).

Lemma all_done_threads : all_done.2 = [Outside; ThreadWait].
Proof. vm_compute. reflexivity. Qed.

