(* ===== verification/ThreadpoolTerm.v ===== *)
(** * threadpool.c: the calls and the workers terminate

    A measure of the work left in a pool, that every step of a thread inside
    the API and every step of a worker makes smaller. *)

From S2P Require Import Prelude Pthread Store Threadpool ThreadpoolRun ThreadpoolInv ThreadpoolSafe.
From S2P Require Import ThreadpoolProps ThreadpoolLive.
Open Scope Z_scope.

(** The steps a thread can make before it is outside the API, asleep or
    terminated, not counting those the tasks in the queue cause; [n] is the
    number of threads, [k] the number of workers to join. *)
Definition weight (n k : nat) (l : local) : nat :=
  match l with
  | Outside | ThreadWait | ThreadExited => 0
  | CreateEnter tc _ => 7 * Z.to_nat tc + 2
  | CreateLoop tc i => 7 * Z.to_nat (tc - i) + 1
  | CreateCount tc i => 7 * Z.to_nat (tc - i - 1) + 2
  | AddLock _ => 14
  | AddBody _ => 13
  | AddUnlock _ => 1
  | DestroyLock _ _ => 5 * n + k + 6
  | DestroyTest _ _ => 5 * n + k + 5
  | DestroyBroadcast _ => 5 * n + k + 4
  | DestroyUnlock _ => k + 3
  | DestroyJoin _ i _ => Z.to_nat (Z.of_nat k - i) + 2
  | DestroyFree _ => 1
  | ThreadExitUnlock => 1
  | ThreadExit | ThreadGrab => 2
  | ThreadCheck => 3
  | ThreadTest => 4
  | ThreadLock | ThreadWoken => 5
  | ThreadRun _ => 6
  | ThreadUnlock _ => 7
  end%nat.

Definition queue_length (s : shared) : nat :=
  match mem s with Live p => Z.to_nat (count p) | _ => 0 end.
Definition workers_counted (s : shared) : nat :=
  match mem s with Live p => Z.to_nat (thread_count p) | _ => 0 end.

(** A task in the queue costs at most six steps to the worker that takes it. *)
Definition measure (s : shared) (ls : list local) : nat :=
  (6 * queue_length s + sum_list_with (weight (length ls) (workers_counted s)) ls)%nat.

Lemma weight_wake n k l : (weight n k (woken l) ≤ weight n k l + 5)%nat.
Proof. destruct l; cbn; lia. Qed.

(** The weight of a thread outside [threadpool_destroy] depends on it only. *)
Lemma weight_local n k n' k' l : in_call l = false → weight n k l = weight n' k' l.
Proof. by destruct l. Qed.

Lemma weight_mono n k k' l : (k' ≤ k → weight n k' l ≤ weight n k l)%nat.
Proof. destruct l; cbn; lia. Qed.

Section termination.
Context (N : nat).

Lemma step_decreases s ls t x l s' l' e :
  live N s ls → ls !! t = Some l → l ≠ Outside → no_failure x →
  tstep ls t x s l = Done (s', l', e) →
  (6 * queue_length s' + weight (length ls) (workers_counted s) l' +
   effect_bonus (weight (length ls) (workers_counted s)) 5 (length ls) e <
   6 * queue_length s + weight (length ls) (workers_counted s) l)%nat.
Proof.
  intros [Hsafe _ _ Hne _] Hl Hout Hx Hs. unfold no_failure in Hx.
  pose proof (safe_wf _ _ _ Hsafe) as Hwf. pose proof (wf_creator _ _ _ Hwf _ _ Hl) as Hcr.
  pose proof (wf_joining _ _ _ Hwf _ _ Hl) as Hj.
  pose proof (safe_passed _ _ _ Hsafe _ _ Hl) as Hp. specialize (Hne _ _ Hl).
  pose proof (safe_queue _ _ _ Hsafe) as (ts & _ & Hring & _).
  assert (∀ p, mem s = Live p → 0 <= count p) as Hpos.
  { intros p Hm. rewrite (ring_count _ _ (Hring _ (or_introl Hm))). lia. }
  unfold queue_length, workers_counted.
  step_cases Hs; cbn in Hne, Hp, Hcr, Hj; rewrite ?Hx in *; try discriminate; try done.
  all: repeat match goal with K : mem _ = Live _ |- _ => specialize (Hpos _ K); rewrite K in * end.
  all: repeat match goal with
    | K : thread_grab _ = Done _ |- _ => unfold thread_grab in K; split_matches K
    | K : threadpool_add_locked _ _ _ = Done _ |- _ => unfold threadpool_add_locked in K; split_matches K
    end; bools.
  all: cbn; try lia.
  - (* the pool is created *)
    destruct Hcr as [Htc Hqs].
    match goal with K : threadpool_create_init _ _ _ _ = _ |- _ =>
      destruct (create_init_ok _ _ _ _ _ Htc Hqs K) as (_ & _ & E) end. rewrite E. cbn. lia.
  - (* the pool is freed *)
    match goal with K : mem _ = Live _ |- context [if ?b then _ else _] =>
      destruct b; cbn; rewrite ?K; lia end.
  - (* a task is taken *)
    destruct Hp as (p & Hm & Hc & _). simplify_eq. lia.
Qed.

Lemma counted_step s ls t x l s' l' e :
  tstep ls t x s l = Done (s', l', e) →
  (workers_counted s' ≤ workers_counted s)%nat ∨ is_create l = true.
Proof.
  intros Hs. unfold workers_counted. destruct (mem s) as [|p|p] eqn:Hm.
  2: { destruct (step_frame _ _ _ _ _ _ _ _ _ Hm Hs)
         as [[-> _]|[(? & ? & ->)|(p' & -> & _ & _ & _ & _ & [->|(? & ? & ->)])]];
         first [by right | left; lia]. }
  all: destruct (step_mem _ _ _ _ _ _ _ _ Hs) as [E|[(p' & E)|(? & ? & ->)]]; [|congruence|by right].
  all: rewrite E, Hm; by left.
Qed.

Lemma create_next s ls t x l s' l' e :
  no_failure x → is_create l = true → tstep ls t x s l = Done (s', l', e) → in_call l' = false.
Proof.
  intros Hx Hc Hs. unfold no_failure in Hx.
  step_cases Hs; repeat case_match; rewrite ?Hx in *; done.
Qed.

(** Nobody's weight grows because of what the others do. *)
Lemma weight_others s ls t x l s' l' e ls' i k :
  live N s ls → ls !! t = Some l → no_failure x → tstep ls t x s l = Done (s', l', e) →
  effect_on e (<[t := l']> ls) ls' → ls' !! i = Some k →
  (weight (length ls') (workers_counted s') k ≤ weight (length ls) (workers_counted s) k)%nat.
Proof.
  intros Hlive Hl Hx Hs He Hk.
  pose proof (wf_roles _ _ _ (safe_wf _ _ _ (live_safe _ _ _ Hlive))) as Hr.
  destruct (is_create l) eqn:Hc.
  - enough (in_call k = false) as Hin by (by rewrite (weight_local _ _ (length ls) (workers_counted s))).
    assert (∀ k0, <[t := l']> ls !! i = Some k0 → in_call k0 = false) as Hin.
    { intros k0 Hk0. destruct (decide (i = t)) as [->|Hne].
      - rewrite list_lookup_insert_eq in Hk0 by (by eapply lookup_lt_Some). simplify_eq.
        by eapply create_next.
      - rewrite list_lookup_insert_ne in Hk0 by done. destruct (in_call k0) eqn:E; [|done].
        by rewrite (no_create N _ _ _ _ _ _ Hr Hk0 E Hl) in Hc. }
    apply (effect_on_lookup _ _ _ _ _ He) in Hk as [Hk|[(k0 & Hk & Hw & ->)|(-> & _)]].
    + by apply Hin.
    + by destruct (wake_classes k0 Hw) as (-> & _).
    + by rewrite (role_spawn _ _ _ _ _ _ _ _ Hs).
  - assert (length ls' = length ls) as ->.
    { pose proof (effect_on_length _ _ _ He) as Hlen. rewrite length_insert in Hlen.
      destruct e as [[| |k0]|]; try lia.
      by destruct (step_spawn _ _ _ _ _ _ _ _ Hs) as (? & ? & ? & -> & _). }
    apply weight_mono. destruct (counted_step _ _ _ _ _ _ _ _ Hs) as [?|?]; [done|congruence].
Qed.

(** Every step of a thread inside the API, and of a worker, counts. *)
Lemma run_decreases s ls t x w s' ls' l :
  live N s ls → ls !! t = Some l → l ≠ Outside → no_failure x →
  exec (Run t x w) (s, ls) = Done (s', ls') → (measure s' ls' < measure s ls)%nat.
Proof.
  intros Hlive Hl Hout Hx Hex. unfold exec in Hex. cbn [fst snd] in Hex. rewrite Hl in Hex. inv_res.
  destruct x0 as [[s1 l'] e]. inv_res. rename H into Hs, H0 into He. apply apply_effect_on in He.
  pose proof (step_decreases _ _ _ _ _ _ _ _ Hlive Hl Hout Hx Hs) as Hd.
  set (f := weight (length ls) (workers_counted s)) in *.
  pose proof (sum_effect f 5 _ _ _ (weight_wake _ _) He) as Hb. rewrite length_insert in Hb.
  pose proof (sum_insert f _ _ _ l' Hl) as Hi.
  assert (sum_list_with (weight (length ls') (workers_counted s')) ls' ≤ sum_list_with f ls')%nat as Hm.
  { apply sum_mono. intros i k Hk. by eapply weight_others. }
  unfold measure. fold f. clearbody f. lia.
Qed.

Lemma wakeup_increases s ls t s' ls' :
  exec (Wakeup t : event input) (s, ls) = Done (s', ls') → (measure s' ls' ≤ measure s ls + 5)%nat.
Proof.
  intros Hex. unfold exec in Hex. cbn [fst snd] in Hex.
  destruct (ls !! t) as [l|] eqn:Hl; [|done]. destruct (waits_on l); [|done]. inv_res.
  unfold measure. rewrite length_insert.
  set (f := weight (length ls) (workers_counted s')) in *.
  pose proof (sum_insert f _ _ _ (woken l) Hl) as Hi.
  pose proof (weight_wake (length ls) (workers_counted s') l) as Hw. fold f in Hw.
  change (pool_woken l) with (woken l). lia.
Qed.
End termination.

(** Runs in which no client starts a call: how many steps, how many spurious
    wakeups. *)
Definition inside (ev : event input) (cf : config shared local) : Prop :=
  match ev with
  | Run t x _ => no_failure x ∧ cf.2 !! t ≠ Some Outside
  | Wakeup _ => True
  end.

Fixpoint runs_inside (evs : list (event input)) (cf cf' : config shared local) : Prop :=
  match evs with
  | [] => cf' = cf
  | ev :: evs => inside ev cf ∧ ∃ cf1, exec ev cf = Done cf1 ∧ runs_inside evs cf1 cf'
  end.

Definition is_wakeup (ev : event input) : bool := match ev with Wakeup _ => true | _ => false end.

(** C5: every call returns, every task in the queue is taken and executed or
    the workers leave.  From any configuration reached without failures of the
    pthread library, as long as the clients start no new call, the threads can
    make at most [measure] steps, plus five for each spurious wakeup. *)
Theorem pool_terminates n tc qs s ls evs cf' :
  is_int tc = true → is_int qs = true → reachable no_failure (init n tc qs) (s, ls) →
  runs_inside evs (s, ls) cf' →
  (length evs + measure cf'.1 cf'.2 ≤ measure s ls + 6 * count_if is_wakeup evs)%nat.
Proof.
  intros Htc Hqs Hr. pose proof (reachable_live _ _ _ _ _ Htc Hqs Hr) as Hlive. clear Hr.
  revert s ls Hlive. induction evs as [|ev evs IH]; intros s ls Hlive Hev; cbn in Hev.
  - subst. cbn. lia.
  - destruct Hev as (Hin & [s1 ls1] & Hex & Hev).
    assert (step no_failure (s, ls) (s1, ls1)) as Hst.
    { econstructor; [|exact Hex]. destruct ev; [by destruct Hin|done]. }
    specialize (IH _ _ (live_step _ _ _ _ _ Hlive Hst) Hev). destruct ev as [t x w|t]; cbn -[Nat.mul].
    + destruct Hin as [Hx Hout]. cbn [snd] in Hout. destruct (ls !! t) as [l|] eqn:Hl.
      * pose proof (run_decreases _ _ _ _ _ _ _ _ _ Hlive Hl (λ E, Hout (f_equal Some E)) Hx Hex). lia.
      * unfold exec in Hex. cbn [fst snd] in Hex. by rewrite Hl in Hex.
    + pose proof (wakeup_increases _ _ _ _ _ Hex). lia.
Qed.

(** The same, as a test. *)
Fixpoint runs_insideb (evs : list (event input)) (cf : config shared local) : bool :=
  match evs with
  | [] => true
  | ev :: evs =>
      match ev with
      | Run t x _ => (rc_of x =? 0) && bool_decide (cf.2 !! t ≠ Some Outside)
      | Wakeup _ => true
      end && match exec ev cf with Done cf1 => runs_insideb evs cf1 | _ => false end
  end.

Lemma runs_insideb_sound evs s ls :
  runs_insideb evs (s, ls) = true → runs_inside evs (s, ls) (final evs (s, ls)).
Proof.
  revert s ls. induction evs as [|ev evs IH]; intros s ls H; [done|].
  cbn [runs_insideb] in H. apply andb_true_iff in H as [Hin H].
  destruct (exec ev (s, ls)) as [[s1 ls1]| |] eqn:Hex; [|done..]. split.
  - destruct ev; [|done]. apply andb_true_iff in Hin as [Hx Ho].
    apply bool_decide_eq_true_1 in Ho. split; [|done]. unfold no_failure. lia.
  - exists (s1, ls1). split; [done|]. specialize (IH _ _ H).
    unfold final in *. cbn [run]. rewrite Hex. cbn [mbind res_bind]. 
    destruct (run evs (s1, ls1)) eqn:Hr; [done|exfalso..].
    all: clear - Hr H; revert s1 ls1 Hr H; induction evs as [|ev evs IH]; [done|];
      intros s1 ls1 Hr H; cbn [runs_insideb run] in *; apply andb_true_iff in H as [_ H];
      destruct (exec ev (s1, ls1)) as [[s2 ls2]| |]; try done; eauto.
Qed.

(** A graceful destruction with a task in the queue. *)
Definition to_destroy : config shared local :=
  final (create_script ++ add_script 0 7 ++ [Run 0 (CallDestroy 1) 0]) (init 0 1 2).

Definition destroy_script : list (event input) := go 0 4 ++ go 1 11 ++ go 0 3.

Lemma pool_terminates_witness :
  let cf := (to_destroy.1, to_destroy.2) in
  length destroy_script = 18%nat ∧ measure to_destroy.1 to_destroy.2 = 28%nat ∧
  (length destroy_script + measure (final destroy_script cf).1 (final destroy_script cf).2 ≤
   measure to_destroy.1 to_destroy.2 + 6 * count_if is_wakeup destroy_script)%nat.
Proof.
  split; [reflexivity|]. split; [vm_compute; reflexivity|].
  apply (pool_terminates 0 1 2); [done|done|by apply calm_script|].
  apply runs_insideb_sound. vm_compute. reflexivity.
Defined.
