(* ===== verification/Thpool.v ===== *)
(** * thpool.c: the job queue and the polling of thpool_wait

    The pool of [threadpool/c-Thread-Pool-master/thpool.c]: the linked list of
    jobs with the code of [jobqueue_push], [jobqueue_pull], [jobqueue_clear] on
    a heap of nodes, as an instance of [JobStore], and the polling intervals of
    [thpool_wait].  The threads are in [ThpoolRun]. *)

From S2P Require Import Prelude Store.
Open Scope Z_scope.

(** ** Data *)

(** [struct job]; [prev] points to the job added next. *)
Record job : Type := Job { prev : option nat; function : Z; arg : Z }.

(** What the clients ask for: a function and its argument. *)
Definition work : Type := Z * Z.
Definition work_of (j : job) : work := (function j, arg j).

(** [struct jobqueue] without its mutex and its semaphore, and the heap of the
    job nodes allocated so far. *)
Record jobqueue : Type := JobQueue {
  heap : gmap nat job;
  front : option nat;
  rear : option nat;
  len : Z
}.

Definition load (h : gmap nat job) (l : nat) : res job :=
  match h !! l with Some j => Done j | None => Fault end.

Definition free_job (q : jobqueue) (l : option nat) : res jobqueue :=
  match l with
  | None => Done q
  | Some l => _ ← load (heap q) l; Done (JobQueue (delete l (heap q)) (front q) (rear q) (len q))
  end.

(** ** jobqueue_push, before the post *)

Definition jobqueue_push (q : jobqueue) (newjob : nat) : res jobqueue :=
  j ← load (heap q) newjob;
  let h := <[newjob := Job None (function j) (arg j)]> (heap q) in
  '(h', f) ←
    (if len q =? 0 then Done (h, Some newjob)
     else match rear q with
          | None => Fault
          | Some r => jr ← load h r; Done (<[r := Job (Some newjob) (function jr) (arg jr)]> h, front q)
          end);
  n ← int_of (len q + 1);
  Done (JobQueue h' f (Some newjob) n).

(** ** jobqueue_pull

    The job, the queue, and whether the semaphore is posted. *)
Definition jobqueue_pull (q : jobqueue) : res (option nat * jobqueue * bool) :=
  if len q =? 0 then Done (None, q, false)
  else
    '(f, r) ←
      (if len q =? 1 then Done (None, None)
       else match front q with
            | None => Fault
            | Some l => j ← load (heap q) l; Done (prev j, rear q)
            end);
    n ← int_of (len q - 1);
    Done (front q, JobQueue (heap q) f r n, 0 <? n).

(** ** jobqueue_clear *)

(** The loop on [len]; the fuel is the number of iterations allowed. *)
Fixpoint clear_loop (fuel : nat) (q : jobqueue) : res jobqueue :=
  match fuel with
  | O => Fault
  | S fuel =>
      if len q =? 0 then Done q
      else '(j, q1, _) ← jobqueue_pull q; q2 ← free_job q1 j; clear_loop fuel q2
  end.

Definition jobqueue_clear (fuel : nat) (q : jobqueue) : res jobqueue :=
  q' ← clear_loop fuel q;
  Done (JobQueue (heap q') None None 0).

(** [jobqueue_init], with the results of its two calls of [malloc]: it
    initialises the mutex in the first block before it tests it.  The nodes are
    those of the heap it starts with; [garbage] is what the fields happen to hold
    in the memory [malloc] returns, which [jobqueue_clear] reads before anything
    has been written there.  [None]: it returns -1. *)
Definition jobqueue_init (queue_block sem_block : bool) (fuel : nat) (h : gmap nat job) (garbage : jobqueue)
    : res (option jobqueue) :=
  if queue_block then
    if sem_block then
      q ← jobqueue_clear fuel (JobQueue h (front garbage) (rear garbage) (len garbage)); Done (Some q)
    else Done None
  else Fault.

(** [thpool_init] up to the creation of the threads, with the results of its
    calls of [malloc]: the number of threads and the queue, or the end of the
    process by [exit(1)]. *)
Definition thpool_init (pool_block queue_block sem_block threads_block : bool) (fuel : nat)
    (h : gmap nat job) (garbage : jobqueue) (num_threads : Z) : res (option (Z * jobqueue)) :=
  let num_threads := if num_threads <? 0 then 0 else num_threads in
  if pool_block then
    r ← jobqueue_init queue_block sem_block fuel h garbage;
    match r with
    | None => Done None
    | Some q =>
        if malloc_succeeds threads_block (size_mul num_threads 24) then Done (Some (num_threads, q)) else Done None
    end
  else Done None.

(** ** The queue as a list *)

(** The nodes [ts] are linked from [o] on, each with its work. *)
Fixpoint chain (h : gmap nat job) (o : option nat) (ts : list (nat * work)) : Prop :=
  match ts with
  | [] => o = None
  | (l, w) :: ts =>
      o = Some l ∧ ∃ j, h !! l = Some j ∧ work_of j = w ∧ chain h (prev j) ts
  end.

Record linked (q : jobqueue) (ts : list (nat * work)) : Prop := Linked {
  linked_chain : chain (heap q) (front q) ts;
  linked_rear : rear q = fst <$> last ts;
  linked_nodup : NoDup ts.*1;
  linked_len : len q = Z.of_nat (length ts);
  linked_max : len q <= INT_MAX
}.

(** The nodes read off the structure. *)
Fixpoint walk (n : nat) (h : gmap nat job) (o : option nat) : list (nat * work) :=
  match n, o with
  | S n, Some l => match h !! l with Some j => (l, work_of j) :: walk n h (prev j) | None => [] end
  | _, _ => []
  end.

Definition nodes (q : jobqueue) : list (nat * work) := walk (Z.to_nat (len q)) (heap q) (front q).

Section linked_facts.
Implicit Types (h : gmap nat job) (q : jobqueue) (ts : list (nat * work)).

Lemma chain_walk h o ts : chain h o ts → walk (length ts) h o = ts.
Proof.
  revert o. induction ts as [|[l w] ts IH]; intros o H; cbn in *; [by subst|].
  destruct H as (-> & j & -> & <- & H). by rewrite (IH _ H).
Qed.

Lemma linked_nodes q ts : linked q ts → nodes q = ts.
Proof. intros [Hc _ _ Hl _]. unfold nodes. rewrite Hl, Nat2Z.id. by apply chain_walk. Qed.

Lemma chain_ext h h' o ts :
  chain h o ts → (∀ l, l ∈ ts.*1 → h' !! l = h !! l) → chain h' o ts.
Proof.
  revert o. induction ts as [|[l w] ts IH]; intros o H Hh; cbn in *; [done|].
  destruct H as (-> & j & Hj & Hw & H). split; [done|]. exists j.
  rewrite Hh by set_solver. split_and!; [done|done|]. apply IH; [done|]. set_solver.
Qed.

(** Linking a node after the last one. *)
Lemma chain_snoc h o ts l w r jr :
  chain h o (ts ++ [(r, work_of jr)]) → h !! r = Some jr → r ∉ ts.*1 → l ∉ ts.*1 → l ≠ r →
  (∃ j, h !! l = Some j ∧ work_of j = w ∧ prev j = None) →
  chain (<[r := Job (Some l) (function jr) (arg jr)]> h) o ((ts ++ [(r, work_of jr)]) ++ [(l, w)]).
Proof.
  intros H Hr Hnr Hnl Hne (jl & Hjl & Hwl & Hpl).
  revert o H. induction ts as [|[k v] ts IH]; intros o H; cbn in *.
  - destruct H as (-> & _). split; [done|]. eexists. rewrite lookup_insert_eq. split_and!; try done.
    exists jl. by rewrite lookup_insert_ne.
  - destruct H as (-> & j & Hj & Hv & H). split; [done|]. exists j.
    rewrite lookup_insert_ne by set_solver. split_and!; [done|done|]. apply IH; set_solver.
Qed.

Lemma chain_lookup h o ts l w : chain h o ts → (l, w) ∈ ts → ∃ j, h !! l = Some j ∧ work_of j = w.
Proof.
  revert o. induction ts as [|[k v] ts IH]; intros o H Hin; cbn in *; [set_solver|].
  destruct H as (_ & j & Hj & Hv & H). apply elem_of_cons in Hin as [E|Hin]; [|by eapply IH].
  simplify_eq. eauto.
Qed.

(** A node that is not in the queue does not matter to it. *)
Lemma linked_heap q ts h' :
  linked q ts → (∀ l, l ∈ ts.*1 → h' !! l = heap q !! l) →
  linked (JobQueue h' (front q) (rear q) (len q)) ts.
Proof. intros [Hc Hr Hn Hl Hm] H. split; cbn; try done. by apply (chain_ext (heap q)). Qed.

Lemma push_linked q ts l j :
  linked q ts → heap q !! l = Some j → l ∉ ts.*1 →
  jobqueue_push q l =
    if len q =? INT_MAX then Fault
    else Done (JobQueue
      (match last ts with
       | None => <[l := Job None (function j) (arg j)]> (heap q)
       | Some (r, w) => <[r := Job (Some l) w.1 w.2]> (<[l := Job None (function j) (arg j)]> (heap q))
       end)
      (if ts is [] then Some l else front q) (Some l) (len q + 1)).
Proof.
  intros [Hc Hr Hn Hl Hm] Hj Hin. unfold jobqueue_push, load. rewrite Hj. cbn.
  destruct (destruct_last ts) as [->|([r w] & ts' & ->)].
  - rewrite Hl. cbn. by rewrite int_of_fits by (unfold INT_MIN, INT_MAX; lia).
  - rewrite last_snoc in *. cbn in Hr. rewrite Hr.
    assert (0 < len q) as Hpos by (rewrite Hl, length_app; cbn; lia).
    rewrite (proj2 (Z.eqb_neq _ _)) by lia.
    destruct (chain_lookup _ _ _ r w Hc) as (jr & Hjr & <-); [set_solver|].
    rewrite fmap_app in Hin. cbn in Hin. rewrite lookup_insert_ne by set_solver. rewrite Hjr. cbn.
    destruct (len q =? INT_MAX) eqn:E; bools.
    + unfold int_of, is_int. by rewrite E.
    + rewrite int_of_fits by (unfold INT_MIN, INT_MAX in *; lia). cbn. by destruct ts'.
Qed.

(** Pushing an allocated node appends its work; past [INT_MAX] jobs the
    counter overflows. *)
Lemma push_spec q ts l j :
  linked q ts → heap q !! l = Some j → l ∉ ts.*1 → len q < INT_MAX →
  ∃ q', jobqueue_push q l = Done q' ∧ linked q' (ts ++ [(l, work_of j)]) ∧
        dom (heap q') = dom (heap q) ∧ len q' = len q + 1 ∧
        (∀ k, k ∉ ts.*1 → k ≠ l → heap q' !! k = heap q !! k).
Proof.
  intros Hlk Hj Hin Hlt. rewrite (push_linked q ts l j Hlk Hj Hin).
  destruct Hlk as [Hc Hr Hn Hl Hm]. rewrite (proj2 (Z.eqb_neq _ _)) by lia.
  eexists. split; [done|]. split.
  - split; cbn [heap front rear len].
    + destruct (destruct_last ts) as [->|([r w] & ts' & ->)].
      * cbn. split; [done|]. eexists. rewrite lookup_insert_eq. by split_and!.
      * rewrite last_snoc. rewrite fmap_app in *. cbn in *.
        destruct (chain_lookup _ _ _ r w Hc) as (jr & Hjr & <-); [set_solver|].
        apply NoDup_app in Hn as (_ & Hn & _).
        replace (match ts' ++ [(r, work_of jr)] with [] => Some l | _ => front q end) with (front q)
          by (by destruct ts').
        apply (chain_snoc _ _ _ l (work_of j) r jr); try set_solver.
        -- apply (chain_ext (heap q)); [done|]. rewrite fmap_app. cbn. intros k Hk.
           rewrite lookup_insert_ne; set_solver.
        -- rewrite lookup_insert_ne; set_solver.
        -- eexists. rewrite lookup_insert_eq. by split_and!.
    + by rewrite last_snoc.
    + rewrite fmap_app. apply NoDup_app. split_and!; [done|set_solver|apply NoDup_singleton].
    + rewrite length_app. cbn. lia.
    + lia.
  - cbn [heap]. split_and!; [|done|].
    + destruct (last ts) as [[r w]|] eqn:E; rewrite ?dom_insert_L.
      * apply last_Some in E as [ts' ->].
        destruct (chain_lookup _ _ _ r w Hc) as (jr & Hjr & _); [set_solver|].
        apply elem_of_dom_2 in Hjr, Hj. set_solver.
      * apply elem_of_dom_2 in Hj. set_solver.
    + intros k Hk Hne. destruct (last ts) as [[r w]|] eqn:E.
      * apply last_Some in E as [ts' ->]. rewrite fmap_app in Hk. cbn in Hk.
        rewrite !lookup_insert_ne by set_solver. done.
      * by rewrite lookup_insert_ne.
Qed.

(** Pulling yields the oldest job, and posts exactly when others remain. *)
Lemma pull_spec q l w ts :
  linked q ((l, w) :: ts) →
  ∃ j q', heap q !! l = Some j ∧ work_of j = w ∧
    jobqueue_pull q = Done (Some l, q', bool_decide (ts ≠ [])) ∧ linked q' ts ∧
    heap q' = heap q ∧ len q' = len q - 1 ∧ l ∉ ts.*1.
Proof.
  intros [Hc Hr Hn Hl Hm]. cbn in Hc, Hn, Hl. destruct Hc as (Hf & j & Hj & Hw & Hc).
  apply NoDup_cons in Hn as [Hnl Hn]. exists j. unfold jobqueue_pull, load.
  rewrite Hf, (proj2 (Z.eqb_neq _ _)) by lia.
  destruct ts as [|[l2 w2] ts].
  - cbn in Hl. rewrite Hl. cbn. eexists. split; [done|]. split; [done|]. split; [done|].
    split; [split; cbn; try done; unfold INT_MAX; lia|]. done.
  - rewrite (proj2 (Z.eqb_neq _ _)) by (cbn in Hl; lia). rewrite Hj. cbn.
    rewrite int_of_fits by (cbn in Hl; unfold INT_MIN, INT_MAX in *; lia). cbn.
    eexists. split; [done|]. split; [done|]. cbn in Hl.
    split; [by rewrite (proj2 (Z.ltb_lt _ _)) by lia|].
    split; [|done]. split; cbn in *; try done; lia.
Qed.

Lemma pull_empty q : linked q [] → jobqueue_pull q = Done (None, q, false).
Proof. intros [_ _ _ Hl _]. unfold jobqueue_pull. by rewrite Hl. Qed.

(** Clearing frees the nodes of the queue and no other. *)
Lemma clear_loop_spec fuel q ts :
  linked q ts → (∀ l, l ∈ ts.*1 → is_Some (heap q !! l)) → (length ts < fuel)%nat →
  ∃ q', clear_loop fuel q = Done q' ∧ linked q' [] ∧
        ∀ k, heap q' !! k = if decide (k ∈ ts.*1) then None else heap q !! k.
Proof.
  revert q ts. induction fuel as [|fuel IH]; intros q ts Hlk Hin Hf; [lia|]. cbn [clear_loop].
  pose proof (linked_len _ _ Hlk) as Hl. destruct ts as [|[l w] ts].
  - rewrite Hl. exists q. by split_and!.
  - rewrite (proj2 (Z.eqb_neq _ _)) by (cbn in Hl; lia).
    destruct (pull_spec _ _ _ _ Hlk) as (j & q1 & Hj & _ & -> & Hlk1 & Hh & _ & Hnl). cbn.
    unfold load. rewrite Hh, Hj. cbn.
    destruct (IH (JobQueue (delete l (heap q)) (front q1) (rear q1) (len q1)) ts) as (q2 & -> & Hlk2 & Hk).
    + rewrite <- Hh. apply linked_heap; [done|]. intros k Hk. rewrite lookup_delete_ne; [done|congruence].
    + cbn. intros k Hk. rewrite lookup_delete_ne by congruence. apply Hin. cbn. by right.
    + cbn in Hf. lia.
    + exists q2. split_and!; [done|done|]. intros k. rewrite Hk. cbn.
      destruct (decide (k = l)) as [->|Hne].
      * rewrite decide_False by done. rewrite lookup_delete_eq, decide_True; [done|by left].
      * rewrite lookup_delete_ne by done. destruct (decide (k ∈ ts.*1)).
        -- rewrite decide_True; [done|by right].
        -- rewrite decide_False; [done|]. intros [|]%elem_of_cons; done.
Qed.

Lemma clear_spec fuel q ts :
  linked q ts → (length ts < fuel)%nat →
  ∃ q', jobqueue_clear fuel q = Done q' ∧ linked q' [] ∧
        ∀ k, heap q' !! k = if decide (k ∈ ts.*1) then None else heap q !! k.
Proof.
  intros Hlk Hf. destruct (clear_loop_spec fuel q ts Hlk) as (q' & Hc & Hlk' & Hk); [|done|].
  - intros l Hl. apply list_elem_of_fmap in Hl as ([l' w] & -> & Hin).
    destruct (chain_lookup _ _ _ _ _ (linked_chain _ _ Hlk) Hin) as (j & Hj & _). by exists j.
  - unfold jobqueue_clear. rewrite Hc. cbn. eexists. split; [done|]. split; [|done].
    split; cbn; try done. apply NoDup_nil_2. 
Qed.
End linked_facts.

(** ** The queue as a job store *)

Definition empty_queue : jobqueue := JobQueue ∅ None None 0.

(** [thpool_add_work] without the locks: allocation of a node, push. *)
Definition queue_put (q : jobqueue) (w : work) : res (option jobqueue) :=
  let l := fresh (dom (heap q)) in
  q' ← jobqueue_push (JobQueue (<[l := Job None w.1 w.2]> (heap q)) (front q) (rear q) (len q)) l;
  Done (Some q').

(** What a worker does with the queue: pull, then free the node. *)
Definition queue_take (q : jobqueue) : res (option (work * jobqueue)) :=
  '(o, q1, _) ← jobqueue_pull q;
  match o with
  | None => Done None
  | Some l => j ← load (heap q1) l; q2 ← free_job q1 (Some l); Done (Some (work_of j, q2))
  end.

(** Linked, and the only nodes allocated are those of the queue. *)
Definition tidy (q : jobqueue) : Prop :=
  linked q (nodes q) ∧ dom (heap q) = list_to_set (nodes q).*1.

Lemma tidy_intro q ts : linked q ts → dom (heap q) = list_to_set ts.*1 → tidy q.
Proof. intros H Hd. unfold tidy. by rewrite (linked_nodes _ _ H). Qed.

#[export] Program Instance linked_store : JobStore jobqueue work fifo := {|
  store_ok := tidy;
  jobs q := (nodes q).*2;
  capacity _ := Some INT_MAX;
  overflows := true;
  put := queue_put;
  take_job := queue_take
|}.
Next Obligation.
  intros q w [Hlk Hd]. unfold queue_put. set (l := fresh (dom (heap q))).
  assert (l ∉ dom (heap q)) as Hfr by apply is_fresh.
  assert (l ∉ (nodes q).*1) as Hl by set_solver.
  set (q1 := JobQueue (<[l := Job None w.1 w.2]> (heap q)) (front q) (rear q) (len q)).
  assert (linked q1 (nodes q)) as Hlk1.
  { apply linked_heap; [done|]. intros k Hk. rewrite lookup_insert_ne; set_solver. }
  assert (heap q1 !! l = Some (Job None w.1 w.2)) as Hj by apply lookup_insert_eq.
  pose proof (linked_len _ _ Hlk) as Hlen. rewrite length_fmap. case_decide as Hc.
  - rewrite (push_linked _ _ _ _ Hlk1 Hj Hl). cbn [len q1]. simplify_eq.
    rewrite (proj2 (Z.eqb_eq _ _)) by lia. done.
  - destruct (push_spec _ _ _ _ Hlk1 Hj Hl) as (q' & -> & Hlk' & Hd' & _).
    { pose proof (linked_max _ _ Hlk). cbn. apply Z.le_neq. split; [done|]. intros E. apply Hc.
      f_equal. lia. }
    cbn. exists q'. unfold work_of in Hlk'. cbn in Hlk'. rewrite <- surjective_pairing in Hlk'.
    split_and!; [done| |done|].
    + apply (tidy_intro _ _ Hlk'). rewrite Hd'. cbn. rewrite dom_insert_L, Hd, fmap_app.
      cbn. set_solver.
    + rewrite (linked_nodes _ _ Hlk'), fmap_app. done.
Qed.
Next Obligation.
  intros q [Hlk Hd]. unfold queue_take. destruct (nodes q) as [|[l w] ts] eqn:E; cbn.
  - by rewrite (pull_empty q Hlk).
  - destruct (pull_spec _ _ _ _ Hlk) as (j & q1 & Hj & Hw & -> & Hlk1 & Hh & _ & Hnl).
    cbn. unfold load. rewrite Hh, Hj. cbn. rewrite Hw.
    eexists. split; [done|].
    assert (linked (JobQueue (delete l (heap q)) (front q1) (rear q1) (len q1)) ts) as Hlk2.
    { rewrite <- Hh. apply linked_heap; [done|]. intros k Hk. rewrite lookup_delete_ne; set_solver. }
    split_and!; [|done|by rewrite (linked_nodes _ _ Hlk2)].
    apply (tidy_intro _ _ Hlk2). cbn. rewrite dom_delete_L, Hd. cbn. set_solver.
Qed.

(** ** The polling intervals of thpool_wait *)

Definition MAX_NANOSEC : Z := 999999999.
Definition max_secs : Z := 20.

(** [struct timespec] *)
Record timespec : Type := Timespec { tv_sec : Z; tv_nsec : Z }.

#[export] Instance timespec_eq_dec : EqDecision timespec.
Proof. solve_decision. Defined.

(** [CEIL(tv_nsec * 1.01)].  The product of a [double] close to 1.01 and an
    integer below [10^9] is rounded to the integer [101 n / 100] when that is
    one, and keeps its fractional part, at least 0.01, when it is not: the macro
    computes the ceiling of the exact quotient. *)
Definition new_nano (n : Z) : Z := - (- (101 * n) / 100).

(** One iteration of the second loop: the interval for the next sleep, or
    [None] when the loop is left. *)
Definition next_interval (i : timespec) : option timespec :=
  if tv_sec i <? max_secs then
    let n := new_nano (tv_nsec i) in
    Some (Timespec (if MAX_NANOSEC <? n then tv_sec i + 1 else tv_sec i) (n mod MAX_NANOSEC))
  else None.

(** The intervals slept while jobs remain; [None] if the fuel is not enough. *)
Fixpoint intervals (fuel : nat) (i : timespec) : option (list timespec) :=
  match fuel with
  | O => None
  | S fuel =>
      match next_interval i with
      | None => Some [i]
      | Some i' => cons i <$> intervals fuel i'
      end
  end.

Definition first_interval : timespec := Timespec 0 1.

(** A legal argument of [nanosleep] that is not zero, and whose successor fits
    in an [int]. *)
Definition good_interval (i : timespec) : bool :=
  (0 <=? tv_sec i) && (tv_sec i <=? max_secs) && (1 <=? tv_nsec i) && (tv_nsec i <? 1000000000) &&
  (new_nano (tv_nsec i) <=? INT_MAX).
