(* ===== verification/ThpoolApi.v ===== *)
(** * thpool.c: properties of the job queue and of the polling *)

From S2P Require Import Prelude Store Thpool.
Open Scope Z_scope.

Lemma empty_linked : linked empty_queue [].
Proof. split; cbn; try done; constructor. Qed.

(** C15: the linked job queue is a first-in first-out list.  From the empty
    queue, any sequence of additions and removals that never has more than
    [INT_MAX] jobs completes, answers as the list does, and the nodes allocated
    at the end are exactly those of the jobs still queued: nothing leaks and
    nothing is freed twice. *)
Theorem job_queue_refines_fifo os :
  Refused ∉ (list_run (ins := fifo) (Some INT_MAX) os []).1 →
  ∃ r q, store_run (ins := fifo) os empty_queue = Done (r, q) ∧ linked q (nodes q) ∧
         dom (heap q) = list_to_set (nodes q).*1 ∧
         list_run (ins := fifo) (Some INT_MAX) os [] = (r, (nodes q).*2).
Proof.
  intros Hos. assert (tidy empty_queue) as Ht by (by apply (tidy_intro _ _ empty_linked)).
  destruct (store_run_refines (St := linked_store) os empty_queue Ht (or_intror Hos))
    as (r & q & Hrun & [Hl Hd] & _ & Hr).
  exists r, q. split_and!; done.
Qed.

Lemma job_queue_refines_fifo_witness :
  ∃ r q, store_run (ins := fifo) [Put (1, 0); Put (2, 0); Take; Put (3, 0); Take; Take; Take] empty_queue =
           Done (r, q) ∧ linked q (nodes q) ∧ dom (heap q) = list_to_set (nodes q).*1 ∧
         ([Accepted; Accepted; Got (1, 0); Accepted; Got (2, 0); Got (3, 0); Nothing], []) = (r, (nodes q).*2).
Proof. apply job_queue_refines_fifo. apply (bool_decide_unpack _). vm_compute. reflexivity. Defined.

(** [jobqueue_init] reads memory it has not written.  It is right when the
    memory [malloc] returned happens to hold a zero where [len] is; when it
    holds another positive number, and [front] no node, it dereferences or
    frees a wild pointer. *)
Theorem jobqueue_init_garbage fuel h g :
  (len g = 0 → jobqueue_init true true (S fuel) h g = Done (Some (JobQueue h None None 0))) ∧
  (1 < len g → (∀ l, front g = Some l → h !! l = None) → jobqueue_init true true (S fuel) h g = Fault) ∧
  (len g = 1 → (∃ l, front g = Some l ∧ h !! l = None) → jobqueue_init true true (S fuel) h g = Fault).
Proof.
  unfold jobqueue_init, jobqueue_clear. cbn [clear_loop len]. unfold jobqueue_pull. cbn [len front heap rear].
  split_and!.
  - intros ->. done.
  - intros Hlen Hf. rewrite !(proj2 (Z.eqb_neq _ _)) by lia. unfold load.
    destruct (front g) as [l|]; [|done]. by rewrite (Hf l eq_refl).
  - intros Hlen (l & Hf & Hl). rewrite Hlen. cbn. rewrite Hf. cbn.
    rewrite int_of_fits by (unfold INT_MIN, INT_MAX; lia). cbn. unfold load. by rewrite Hl.
Qed.

(** [thpool_init] before the threads: a failed allocation ends the process,
    except that of the job queue, which is used before it is tested. *)
Lemma thpool_init_cases fuel pb qb sb tb h g num :
  len g = 0 → is_int num = true →
  thpool_init pb qb sb tb (S fuel) h g num =
    match pb, qb with
    | false, _ => Done None
    | true, false => Fault
    | true, true =>
        if sb && malloc_succeeds tb (size_mul (Z.max 0 num) 24) then
          Done (Some (Z.max 0 num, JobQueue h None None 0))
        else Done None
    end.
Proof.
  intros Hg Hnum. unfold thpool_init. assert ((if num <? 0 then 0 else num) = Z.max 0 num) as ->.
  { destruct (num <? 0) eqn:E; bools; lia. }
  destruct pb; [|done]. destruct qb; [|done]. destruct sb; [|done].
  rewrite (proj1 (jobqueue_init_garbage fuel h g) Hg). cbn. by case_match.
Qed.

(** The checks on the intervals, as a test. *)
Definition polling_ok (n : nat) : bool :=
  match intervals n first_interval with
  | Some l =>
      bool_decide (length l = n) && forallb good_interval l &&
      match last l with Some i => bool_decide (next_interval i = None) | None => false end
  | None => false
  end.

Lemma polling_ok_sound n :
  polling_ok n = true →
  ∃ l, intervals n first_interval = Some l ∧ length l = n ∧
       Forall (λ i, good_interval i = true) l ∧
       ∃ i, last l = Some i ∧ next_interval i = None.
Proof.
  intros H. unfold polling_ok in H.
  destruct (intervals n first_interval) as [l|]; [|done].
  apply andb_true_iff in H as [H Hlast]. apply andb_true_iff in H as [Hlen Hall].
  apply bool_decide_eq_true_1 in Hlen. exists l. split_and!; [done|done| |].
  - apply Forall_forall. intros i Hi. rewrite forallb_forall in Hall.
    by apply Hall, list_elem_of_In.
  - destruct (last l) as [i|]; [|done]. apply bool_decide_eq_true_1 in Hlast. by exists i.
Qed.

(** The number of sleeps of the second loop. *)
Definition polls : nat := Z.to_nat 12243.

(** The polling of [thpool_wait].  While jobs remain, the second loop sleeps
    12243 times, each time for a legal and non-zero interval of at most twenty
    seconds and a fraction, without overflow, and then falls back to the last
    loop. *)
Theorem thpool_wait_polling :
  ∃ l, intervals polls first_interval = Some l ∧ length l = polls ∧
       Forall (λ i, good_interval i = true) l ∧
       ∃ i, last l = Some i ∧ next_interval i = None.
Proof. apply polling_ok_sound. vm_compute. reflexivity. Qed.
