(* ===== verification/ThpoolRun.v ===== *)
(** * thpool.c: the threads of a pool

    The interleaving of the threads of [thpool.c]: the client that calls
    [thpool_init], the clients that add jobs, wait and destroy, and the workers
    ([thread_do]).  One step goes from one call of the pthread library, or one
    access to a variable read without a lock, to the next. *)

From S2P Require Import Prelude Pthread Store Thpool.
Open Scope Z_scope.

(** The pool and its queue, the semaphore [has_jobs], the global
    [threads_keepalive], whether [thpool_init] has returned and whether
    [thpool_destroy] has freed the memory; and the history: jobs added to the
    queue, pulled from it, executed. *)
Record tpool : Type := TPool {
  jobq : jobqueue;
  rwmutex : mutex;
  sem_v : Z;
  sem_mutex : mutex;
  thcount_lock : mutex;
  num_threads_alive : Z;
  num_threads_working : Z;
  threads_keepalive : bool;
  ready : bool;
  freed : bool;
  added : list work;
  pulled : list work;
  ran : list work
}.

(** A post is made after a push, or after a pull that leaves jobs behind, by a
    worker that keeps the job it has pulled. *)
Inductive poster : Type := ByAdd | ByPull (job_p : option nat).

(** Where a thread is. *)
Inductive tlocal : Type :=
  | Outside
  | InitLoop (num_threads n : Z)
  | InitWait (num_threads : Z)
  | AddLock (newjob : nat)
  | AddPush (newjob : nat)
  | AddUnlock
  | PostLock (by_ : poster)
  | PostSet (by_ : poster)
  | PostUnlock (by_ : poster)
  | WaitLen (k : nat)
  | WaitWorking (k : nat)
  | DestroyLoop
  | DestroyPostLock
  | DestroyPostSet
  | DestroyPostUnlock
  | DestroyFree
  | WorkerStart
  | WorkerAlive
  | WorkerAliveUnlock
  | WorkerLoop
  | SemLock
  | SemTest
  | SemWait
  | SemWoken
  | SemUnlock
  | WorkerCheck
  | WorkingLock
  | WorkingInc
  | WorkingUnlock
  | PullLock
  | PullJob
  | PullUnlock (job_p : option nat)
  | WorkerRun (job_p : nat)
  | WorkerFree (job_p : nat)
  | DoneLock
  | DoneDec
  | DoneUnlock
  | EndLock
  | EndDec
  | EndUnlock
  | WorkerExited.

#[export] Instance poster_eq_dec : EqDecision poster.
Proof. solve_decision. Defined.
#[export] Instance tlocal_eq_dec : EqDecision tlocal.
Proof. solve_decision. Defined.

(** What the environment decides: the call a client makes and the address its
    [malloc] returns; failures of the allocation of a [struct thread] and of
    [pthread_create]. *)
Inductive tinput : Type :=
  | Go
  | CallAdd (w : work) (newjob : option nat)
  | CallWait
  | CallDestroy
  | ThreadMallocFails
  | ThreadCreateFails.

Definition set_queue (q : jobqueue) (s : tpool) : tpool :=
  TPool q (rwmutex s) (sem_v s) (sem_mutex s) (thcount_lock s) (num_threads_alive s)
    (num_threads_working s) (threads_keepalive s) (ready s) (freed s) (added s) (pulled s) (ran s).
Definition set_rw (m : mutex) (s : tpool) : tpool :=
  TPool (jobq s) m (sem_v s) (sem_mutex s) (thcount_lock s) (num_threads_alive s)
    (num_threads_working s) (threads_keepalive s) (ready s) (freed s) (added s) (pulled s) (ran s).
Definition set_sem (v : Z) (m : mutex) (s : tpool) : tpool :=
  TPool (jobq s) (rwmutex s) v m (thcount_lock s) (num_threads_alive s)
    (num_threads_working s) (threads_keepalive s) (ready s) (freed s) (added s) (pulled s) (ran s).
Definition set_count (m : mutex) (a w : Z) (s : tpool) : tpool :=
  TPool (jobq s) (rwmutex s) (sem_v s) (sem_mutex s) m a
    w (threads_keepalive s) (ready s) (freed s) (added s) (pulled s) (ran s).
Definition set_flags (k r f : bool) (s : tpool) : tpool :=
  TPool (jobq s) (rwmutex s) (sem_v s) (sem_mutex s) (thcount_lock s) (num_threads_alive s)
    (num_threads_working s) k r f (added s) (pulled s) (ran s).
Definition set_history (a p r : list work) (s : tpool) : tpool :=
  TPool (jobq s) (rwmutex s) (sem_v s) (sem_mutex s) (thcount_lock s) (num_threads_alive s)
    (num_threads_working s) (threads_keepalive s) (ready s) (freed s) a p r.

Definition tresult : Type := tpool * tlocal * option (effect tlocal).

(** Access to the memory of the pool. *)
Definition live (s : tpool) : res unit := check (negb (freed s)).

Definition lock_rw (t : nat) (s : tpool) (next : tlocal) : res tresult :=
  _ ← live s; m ← mutex_lock t (rwmutex s); Done (set_rw m s, next, None).
Definition unlock_rw (t : nat) (s : tpool) (next : tlocal) : res tresult :=
  _ ← live s; m ← mutex_unlock t (rwmutex s); Done (set_rw m s, next, None).
Definition lock_sem (t : nat) (s : tpool) (next : tlocal) : res tresult :=
  _ ← live s; m ← mutex_lock t (sem_mutex s); Done (set_sem (sem_v s) m s, next, None).
Definition unlock_sem (t : nat) (s : tpool) (next : tlocal) : res tresult :=
  _ ← live s; m ← mutex_unlock t (sem_mutex s); Done (set_sem (sem_v s) m s, next, None).
Definition lock_count (t : nat) (s : tpool) (next : tlocal) : res tresult :=
  _ ← live s; m ← mutex_lock t (thcount_lock s);
  Done (set_count m (num_threads_alive s) (num_threads_working s) s, next, None).
Definition unlock_count (t : nat) (s : tpool) (next : tlocal) : res tresult :=
  _ ← live s; m ← mutex_unlock t (thcount_lock s);
  Done (set_count m (num_threads_alive s) (num_threads_working s) s, next, None).
Definition add_alive (d : Z) (s : tpool) (next : tlocal) : res tresult :=
  _ ← live s; n ← int_of (num_threads_alive s + d);
  Done (set_count (thcount_lock s) n (num_threads_working s) s, next, None).
Definition add_working (d : Z) (s : tpool) (next : tlocal) : res tresult :=
  _ ← live s; n ← int_of (num_threads_working s + d);
  Done (set_count (thcount_lock s) (num_threads_alive s) n s, next, None).

(** A client outside the API starts a call; [thpool_add_work] has then
    allocated and filled its node, [thpool_wait] remembers how many jobs had
    been added, and [thpool_destroy] has stopped the workers' loops. *)
Definition client_step (x : tinput) (s : tpool) : res tresult :=
  if ready s then
    match x with
    | CallAdd w None => Done (s, Outside, None)
    | CallAdd w (Some l) =>
        if decide (l ∈ dom (heap (jobq s))) then Blocked
        else Done (set_queue (JobQueue (<[l := Job None w.1 w.2]> (heap (jobq s))) (front (jobq s))
                                (rear (jobq s)) (len (jobq s))) s, AddLock l, None)
    | CallWait => _ ← live s; Done (s, WaitLen (length (added s)), None)
    | CallDestroy => _ ← live s; Done (set_flags false (ready s) (freed s) s, DestroyLoop, None)
    | _ => Blocked
    end
  else Blocked.

(** [thread_init]: it tests the address of the slot, not the result of [malloc],
    and does not look at that of [pthread_create]. *)
Definition thread_init (x : tinput) : res tlocal :=
  match x with
  | ThreadMallocFails => Fault
  | ThreadCreateFails => Fault
  | _ => Done WorkerStart
  end.

(** [thpool_init] after the allocations. *)
Definition init_step (x : tinput) (s : tpool) (l : tlocal) : res tresult :=
  match l with
  | InitLoop num n =>
      if n <? num then
        worker ← thread_init x; n' ← int_of (n + 1); Done (s, InitLoop num n', Some (Spawn worker))
      else Done (s, InitWait num, None)
  | InitWait num =>
      if num_threads_alive s =? num then
        Done (set_flags (threads_keepalive s) true (freed s) s, Outside, None)
      else Done (s, InitWait num, None)
  | _ => Blocked
  end.

(** [thpool_add_work], under the lock of the queue; [bsem_post], by a client or
    by a worker. *)
Definition add_step (t : nat) (s : tpool) (l : tlocal) : res tresult :=
  match l with
  | AddLock newjob => lock_rw t s (AddPush newjob)
  | AddPush newjob =>
      _ ← live s;
      j ← load (heap (jobq s)) newjob;
      q ← jobqueue_push (jobq s) newjob;
      Done (set_queue q (set_history (added s ++ [work_of j]) (pulled s) (ran s) s),
            PostLock ByAdd, None)
  | AddUnlock => unlock_rw t s Outside
  | PostLock by_ => lock_sem t s (PostSet by_)
  | PostSet by_ => _ ← live s; Done (set_sem 1 (sem_mutex s) s, PostUnlock by_, Some (Signal 0))
  | PostUnlock by_ =>
      match by_ with
      | ByAdd => unlock_sem t s AddUnlock
      | ByPull o => unlock_sem t s (PullUnlock o)
      end
  | _ => Blocked
  end.

(** [thpool_wait]: the test of its three loops, [len] first, without a lock. *)
Definition wait_step (s : tpool) (l : tlocal) : res tresult :=
  _ ← live s;
  match l with
  | WaitLen k => if len (jobq s) =? 0 then Done (s, WaitWorking k, None) else Done (s, WaitLen k, None)
  | WaitWorking k =>
      if num_threads_working s =? 0 then Done (s, Outside, None) else Done (s, WaitLen k, None)
  | _ => Blocked
  end.

(** [bsem_init]: the value and the mutex of the semaphore; to initialise a mutex
    that is in use is undefined.  [None]: [exit(1)]. *)
Definition bsem_init (value : Z) (m : mutex) : res (option (Z * mutex)) :=
  if (value <? 0) || (1 <? value) then Done None
  else match m with MHeld _ => Fault | _ => Done (Some (value, MFree)) end.

Definition bsem_reset (m : mutex) : res (option (Z * mutex)) := bsem_init 0 m.

(** [thpool_destroy] after [threads_keepalive = 0]; the last step is
    [jobqueue_destroy] and the calls of [free].  To pull from a queue of two jobs
    or more posts the semaphore, and needs its mutex. *)
Definition destroy_step (t : nat) (s : tpool) (l : tlocal) : res tresult :=
  _ ← live s;
  match l with
  | DestroyLoop =>
      if num_threads_alive s =? 0 then Done (s, DestroyFree, None) else Done (s, DestroyPostLock, None)
  | DestroyPostLock => lock_sem t s DestroyPostSet
  | DestroyPostSet => Done (set_sem 1 (sem_mutex s) s, DestroyPostUnlock, Some (Broadcast 0))
  | DestroyPostUnlock => unlock_sem t s DestroyLoop
  | DestroyFree =>
      _ ← (if 1 <? len (jobq s) then mutex_lock t (sem_mutex s) else Done (sem_mutex s));
      q ← jobqueue_clear (S (Z.to_nat (len (jobq s)))) (jobq s);
      r ← bsem_reset (sem_mutex s);
      match r with
      | Some (v, m) =>
          Done (set_flags (threads_keepalive s) (ready s) true (set_sem v m (set_queue q s)), Outside, None)
      | None => Blocked
      end
  | _ => Blocked
  end.

(** [bsem_wait] *)
Definition sem_step (t : nat) (s : tpool) (l : tlocal) : res tresult :=
  match l with
  | SemLock => lock_sem t s SemTest
  | SemTest =>
      _ ← live s;
      if sem_v s =? 1 then Done (set_sem 0 (sem_mutex s) s, SemUnlock, None)
      else unlock_sem t s SemWait
  | SemWoken => lock_sem t s SemTest
  | SemUnlock => unlock_sem t s WorkerCheck
  | _ => Blocked
  end.

(** [thread_do] *)
Definition worker_step (t : nat) (s : tpool) (l : tlocal) : res tresult :=
  match l with
  | WorkerStart => lock_count t s WorkerAlive
  | WorkerAlive => add_alive 1 s WorkerAliveUnlock
  | WorkerAliveUnlock => unlock_count t s WorkerLoop
  | WorkerLoop =>
      if threads_keepalive s then Done (s, SemLock, None) else Done (s, EndLock, None)
  | WorkerCheck =>
      if threads_keepalive s then Done (s, WorkingLock, None) else Done (s, WorkerLoop, None)
  | WorkingLock => lock_count t s WorkingInc
  | WorkingInc => add_working 1 s WorkingUnlock
  | WorkingUnlock => unlock_count t s PullLock
  | PullLock => lock_rw t s PullJob
  | PullJob =>
      _ ← live s;
      '(o, q, post) ← jobqueue_pull (jobq s);
      w ← match o with None => Done [] | Some l => j ← load (heap q) l; Done [work_of j] end;
      let s' := set_queue q (set_history (added s) (pulled s ++ w) (ran s) s) in
      if post : bool then Done (s', PostLock (ByPull o), None) else Done (s', PullUnlock o, None)
  | PullUnlock o =>
      match o with
      | Some l => unlock_rw t s (WorkerRun l)
      | None => unlock_rw t s DoneLock
      end
  | WorkerRun l =>
      j ← load (heap (jobq s)) l;
      Done (set_history (added s) (pulled s) (ran s ++ [work_of j]) s, WorkerFree l, None)
  | WorkerFree l => q ← free_job (jobq s) (Some l); Done (set_queue q s, DoneLock, None)
  | DoneLock => lock_count t s DoneDec
  | DoneDec => add_working (-1) s DoneUnlock
  | DoneUnlock => unlock_count t s WorkerLoop
  | EndLock => lock_count t s EndDec
  | EndDec => add_alive (-1) s EndUnlock
  | EndUnlock => unlock_count t s WorkerExited
  | _ => Blocked
  end.

Definition thpool_step (ls : list tlocal) (t : nat) (x : tinput) (s : tpool) (l : tlocal)
    : res tresult :=
  match l with
  | Outside => client_step x s
  | InitLoop _ _ | InitWait _ => init_step x s l
  | AddLock _ | AddPush _ | AddUnlock | PostLock _ | PostSet _ | PostUnlock _ => add_step t s l
  | WaitLen _ | WaitWorking _ => wait_step s l
  | DestroyLoop | DestroyPostLock | DestroyPostSet | DestroyPostUnlock | DestroyFree =>
      destroy_step t s l
  | SemLock | SemTest | SemWait | SemWoken | SemUnlock => sem_step t s l
  | _ => worker_step t s l
  end.

Definition thpool_waits_on (l : tlocal) : option nat :=
  match l with SemWait => Some 0%nat | _ => None end.
Definition thpool_woken (l : tlocal) : tlocal := match l with SemWait => SemWoken | _ => l end.

Lemma thpool_waiting_blocked ls t x s l r :
  is_Some (thpool_waits_on l) → thpool_step ls t x s l ≠ Done r.
Proof. destruct l; cbn; intros [c Hc]; done. Qed.

Lemma thpool_woken_awake l : is_Some (thpool_waits_on l) → thpool_waits_on (thpool_woken l) = None.
Proof. destruct l; cbn; intros [c Hc]; done. Qed.

#[export] Instance thpool_program : Program tinput tpool tlocal := {|
  tstep := thpool_step;
  waits_on := thpool_waits_on;
  woken := thpool_woken;
  waiting_blocked := thpool_waiting_blocked;
  woken_awake := thpool_woken_awake
|}.

(** Thread 0 is in [thpool_init], about to start [num_threads] workers ([0] if
    that is negative); [n] other clients.  The queue is empty, as
    [jobqueue_init] leaves it. *)
Definition tinit (n : nat) (num_threads : Z) : config tpool tlocal :=
  (TPool empty_queue MFree 0 MFree MFree 0 0 true false false [] [] [],
   InitLoop (if num_threads <? 0 then 0 else num_threads) 0 :: replicate n Outside).

(** The environment starts the threads it is asked for. *)
Definition threads_start (x : tinput) : Prop := x ≠ ThreadMallocFails ∧ x ≠ ThreadCreateFails.
Definition anything (x : tinput) : Prop := True.

Lemma thread_init_Done x l : thread_init x = Done l ↔ l = WorkerStart ∧ threads_start x.
Proof. unfold threads_start. destruct x; cbn; naive_solver. Qed.

Lemma bsem_reset_Done m r : bsem_reset m = Done r ↔ r = Some (0, MFree) ∧ ∀ t, m ≠ MHeld t.
Proof. unfold bsem_reset, bsem_init. cbn. destruct m; naive_solver. Qed.

Lemma bsem_reset_not_blocked m : bsem_reset m ≠ Blocked.
Proof. by destruct m. Qed.

#[export] Hint Resolve bsem_reset_not_blocked : study.
