(* ===== verification/ThpoolInv.v ===== *)
(** * thpool.c: invariants of the running pool

    Roles of the threads, the two counters, the three mutexes, the nodes of the
    job queue and the history of the jobs, in every configuration the threads
    can reach when the environment starts the threads it is asked for. *)

From S2P Require Import Prelude Pthread Store Thpool ThpoolApi ThpoolRun.
Open Scope Z_scope.

(** ** Classes of program points *)

Definition initialising (l : tlocal) : bool :=
  match l with InitLoop _ _ | InitWait _ => true | _ => false end.

Definition outside (l : tlocal) : bool := match l with Outside => true | _ => false end.

(** A client inside a call on a pool. *)
Definition in_call (l : tlocal) : bool :=
  match l with
  | AddLock _ | AddPush _ | AddUnlock | PostLock ByAdd | PostSet ByAdd | PostUnlock ByAdd
  | WaitLen _ | WaitWorking _ | DestroyLoop | DestroyPostLock | DestroyPostSet | DestroyPostUnlock
  | DestroyFree => true
  | _ => false
  end.

(** A worker that has not incremented [num_threads_alive]; that has; that has
    decremented it. *)
Definition unstarted (l : tlocal) : bool :=
  match l with WorkerStart | WorkerAlive => true | _ => false end.
Definition ended (l : tlocal) : bool :=
  match l with EndUnlock | WorkerExited => true | _ => false end.
Definition alive (l : tlocal) : bool :=
  negb (initialising l || in_call l || unstarted l || ended l || outside l).

Definition ending (l : tlocal) : bool :=
  match l with EndLock | EndDec | EndUnlock | WorkerExited => true | _ => false end.

(** A thread about to free the pool. *)
Definition freeing (l : tlocal) : bool := match l with DestroyFree => true | _ => false end.

(** A worker between its two updates of [num_threads_working]. *)
Definition working (l : tlocal) : bool :=
  match l with
  | WorkingUnlock | PullLock | PullJob | PostLock (ByPull _) | PostSet (ByPull _)
  | PostUnlock (ByPull _) | PullUnlock _ | WorkerRun _ | WorkerFree _ | DoneLock | DoneDec => true
  | _ => false
  end.

Definition client (l : tlocal) : bool := initialising l || in_call l || outside l.

Definition trole (N : nat) (s : tpool) (t : nat) (l : tlocal) : Prop :=
  if client l then
    (t < N)%nat ∧ (if initialising l then t = 0%nat ∧ ready s = false else True) ∧
    (in_call l = true → ready s = true)
  else (N ≤ t)%nat.

(** Opens up the hypothesis [H] that a thread made a step, by program point. *)
Ltac tstep_cases H :=
  match type of H with tstep ?ls ?t ?x ?s ?l = _ =>
    tryif is_var l then destruct l else idtac; cbn [tstep thpool_program thpool_step] in H;
    unfold client_step, init_step, add_step, wait_step, destroy_step, sem_step, worker_step,
      lock_rw, unlock_rw, lock_sem, unlock_sem, lock_count, unlock_count, add_alive, add_working,
      live in H;
    split_matches H; inv_mutex;
    repeat match goal with
    | K : thread_init _ = Done _ |- _ => apply thread_init_Done in K as [? ?]
    | K : bsem_reset _ = Done _ |- _ => apply bsem_reset_Done in K as [? ?]; simplify_eq
    end; subst; bools; try discriminate;
    cbn [jobq rwmutex sem_v sem_mutex thcount_lock num_threads_alive num_threads_working
         threads_keepalive ready freed added pulled ran
         set_queue set_rw set_sem set_count set_flags set_history] in *
  end.

Section invariants.
Context (N : nat).

Lemma spawn_worker ls t x s l s' l' k :
  tstep ls t x s l = Done (s', l', Some (Spawn k)) →
  k = WorkerStart ∧ ∃ num n, l = InitLoop num n ∧ l' = InitLoop num (n + 1) ∧ n < num ∧ s' = s.
Proof. intros H. tstep_cases H; eauto 10. Qed.

Lemma ready_step ls t x s l s' l' e :
  tstep ls t x s l = Done (s', l', e) → ready s' = ready s ∨ (ready s' = true ∧ ∃ num, l = InitWait num).
Proof. intros H. tstep_cases H; eauto. Qed.

Lemma trole_step s ls s' ls' :
  (0 < N ≤ length ls)%nat → (∀ t l, ls !! t = Some l → trole N s t l) →
  step anything (s, ls) (s', ls') → ∀ t l, ls' !! t = Some l → trole N s' t l.
Proof.
  intros HN Hr Hstep.
  refine (forall_threads_step (trole N) anything s ls s' ls' Hr Hstep _ _).
  - intros t x l l' e _ Hl Hs. pose proof (Hr _ _ Hl) as Hrl. split; [|split].
    + unfold trole in *. tstep_cases Hs; cbn in *; try done; try tauto; try lia.
      all: try (destruct by_; cbn in *; tauto).
      all: try (repeat split; tauto || lia || done).
      all: intuition (try congruence; try lia).
    + intros t' l0 Ht Hl0. pose proof (Hr _ _ Hl0) as Hr0. unfold trole in *.
      destruct (ready_step _ _ _ _ _ _ _ _ Hs) as [->|[-> (num & ->)]]; [done|].
      cbn in Hrl. destruct (client l0); [|done]. destruct Hr0 as (? & Hi & ?). split_and!; [done| |done].
      destruct (initialising l0); [lia|done].
    + intros k ->. destruct (spawn_worker _ _ _ _ _ _ _ _ Hs) as [-> _]. unfold trole. cbn. lia.
  - intros t l Hw. destruct l; by destruct Hw.
Qed.

(** The thread in [thpool_init] knows how many workers there are. *)
Definition init_ok (ls : list tlocal) (l : tlocal) : Prop :=
  match l with
  | InitLoop num n => 0 <= n <= num ∧ num <= INT_MAX ∧ Z.of_nat (length ls) = Z.of_nat N + n
  | InitWait num => Z.of_nat (length ls) = Z.of_nat N + num
  | _ => True
  end.

Record twf (s : tpool) (ls : list tlocal) : Prop := TWf {
  t_size : (0 < N ≤ length ls)%nat;
  t_role : ∀ t l, ls !! t = Some l → trole N s t l;
  t_bound : Z.of_nat (length ls) <= Z.of_nat N + INT_MAX;
  t_init : ∀ t l, ls !! t = Some l → init_ok ls l;
  t_alive : num_threads_alive s = Z.of_nat (count_if alive ls);
  t_working : num_threads_working s = Z.of_nat (count_if working ls);
  t_unready : ready s = false → threads_keepalive s = true ∧ count_if ending ls = 0%nat;
  t_ready : ready s = true → count_if unstarted ls = 0%nat;
  t_freed : freed s = true → ready s = true ∧ count_if alive ls = 0%nat;
  t_freeing : (0 < count_if freeing ls)%nat → ready s = true ∧ count_if alive ls = 0%nat ∧ count_if unstarted ls = 0%nat
}.

Lemma wake_class l :
  is_Some (waits_on l) →
  alive (woken l) = alive l ∧ working (woken l) = working l ∧ ending (woken l) = ending l ∧
  unstarted (woken l) = unstarted l ∧ freeing (woken l) = freeing l.
Proof. destruct l; cbn; by intros [??]. Qed.

Lemma initialising_zero s (ls : list tlocal) t l :
  (∀ t l, ls !! t = Some l → trole N s t l) → ls !! t = Some l → initialising l = true → t = 0%nat.
Proof. intros Hr Hl Hi. specialize (Hr _ _ Hl). unfold trole, client in Hr. rewrite Hi in Hr. cbn in Hr. tauto. Qed.

Lemma init_ok_step s ls s' ls' :
  twf s ls → step threads_start (s, ls) (s', ls') →
  (∀ t l, ls' !! t = Some l → init_ok ls' l) ∧ Z.of_nat (length ls') <= Z.of_nat N + INT_MAX.
Proof.
  intros Hwf Hstep. pose proof (t_role _ _ Hwf) as Hr. pose proof (t_init _ _ Hwf) as Hi.
  pose proof (t_bound _ _ Hwf) as Hb.
  assert (length ls' = length ls ∨ ∃ num n, ls !! 0%nat = Some (InitLoop num n) ∧ n < num ∧
            ls' !! 0%nat = Some (InitLoop num (n + 1)) ∧ length ls' = S (length ls)) as Hlen.
  { apply step_inv in Hstep as [(t & x & l & l' & e & _ & Hl & Hs & He)|(t & l & -> & Hl & Hw & ->)];
      [|left; apply length_insert].
    pose proof (effect_on_length _ _ _ He) as Hn. rewrite length_insert in Hn.
    destruct e as [[| |k]|]; try (left; lia). right.
    destruct (spawn_worker _ _ _ _ _ _ _ _ Hs) as (-> & num & n & -> & -> & Hlt & ->).
    pose proof (initialising_zero _ _ _ _ Hr Hl eq_refl) as ->. exists num, n.
    split_and!; [done|done| |lia]. inversion He; subst.
    rewrite lookup_app_l by (rewrite length_insert; by eapply lookup_lt_Some).
    apply list_lookup_insert_eq. by eapply lookup_lt_Some. }
  destruct Hlen as [Hlen|(num & n & H0 & Hlt & H0' & Hlen)].
  - split; [|rewrite Hlen; done].
    assert (∀ l, init_ok ls' l ↔ init_ok ls l) as Heq by (by intros []; cbn; rewrite ?Hlen).
    refine (forall_threads_effect (λ _ _ l, init_ok ls' l) threads_start s ls s' ls' _ Hstep _ _).
    + intros t l Hl. apply Heq. by eapply Hi.
    + intros t x l l' e Hx Hl Hs He. split; [|split].
      * apply Heq. specialize (Hi _ _ Hl). apply effect_on_length in He. rewrite length_insert in He.
        destruct Hx. tstep_cases Hs; try done; cbn in *; lia.
      * intros t' l0 _ Hl0. apply Heq. by eapply Hi.
      * intros k ->. by destruct (spawn_worker _ _ _ _ _ _ _ _ Hs) as [-> _].
    + intros t l Hw. destruct l; by destruct Hw.
  - specialize (Hi _ _ H0). cbn in Hi. split; [|lia]. intros t l Hl.
    destruct (initialising l) eqn:E; [|by destruct l].
    assert (t = 0%nat) as ->.
    { eapply initialising_zero; [|exact Hl|exact E]. eapply trole_step; [apply Hwf|exact Hr|].
      by eapply step_mono. }
    simplify_eq. cbn. lia.
Qed.

(** Each worker is in one class at most. *)
Lemma classes_bound s ls :
  (0 < N ≤ length ls)%nat → (∀ t l, ls !! t = Some l → trole N s t l) →
  (count_if alive ls + count_if unstarted ls ≤ length ls - N)%nat.
Proof.
  intros HN Hr. rewrite <- count_if_disjoint by (by intros []). apply count_if_tail; [lia|].
  intros i l Hl Ha. specialize (Hr _ _ Hl). unfold trole in Hr.
  assert (client l = false) as Hc.
  { destruct l; cbn in *; try done; destruct by_; done. }
  by rewrite Hc in Hr.
Qed.

Lemma counts_run s ls t x l s' l' e ls' :
  twf s ls → ls !! t = Some l → tstep ls t x s l = Done (s', l', e) →
  effect_on e (<[t := l']> ls) ls' →
  num_threads_alive s' = Z.of_nat (count_if alive ls') ∧
  num_threads_working s' = Z.of_nat (count_if working ls') ∧
  (ready s' = false → threads_keepalive s' = true ∧ count_if ending ls' = 0%nat) ∧
  (ready s' = true → count_if unstarted ls' = 0%nat) ∧
  (freed s' = true → ready s' = true ∧ count_if alive ls' = 0%nat) ∧
  ((0 < count_if freeing ls')%nat → ready s' = true ∧ count_if alive ls' = 0%nat ∧ count_if unstarted ls' = 0%nat).
Proof.
  intros Hwf Hl Hs He.
  pose proof (count_step alive _ _ _ _ _ _ (λ l H, proj1 (wake_class l H)) Hl He) as Ha.
  pose proof (count_step working _ _ _ _ _ _ (λ l H, proj1 (proj2 (wake_class l H))) Hl He) as Hw.
  pose proof (count_step ending _ _ _ _ _ _ (λ l H, proj1 (proj2 (proj2 (wake_class l H)))) Hl He) as Hn.
  pose proof (count_step unstarted _ _ _ _ _ _ (λ l H, proj1 (proj2 (proj2 (proj2 (wake_class l H))))) Hl He) as Hu.
  pose proof (count_step freeing _ _ _ _ _ _ (λ l H, proj2 (proj2 (proj2 (proj2 (wake_class l H))))) Hl He) as Hf.
  pose proof (classes_bound s ls (t_size _ _ Hwf) (t_role _ _ Hwf)) as Hcl.
  pose proof (t_init _ _ Hwf _ _ Hl) as Hi. pose proof (t_role _ _ Hwf _ _ Hl) as Hrl.
  pose proof (count_if_pos alive _ _ _ Hl) as Hpa. pose proof (count_if_pos unstarted _ _ _ Hl) as Hpu.
  pose proof (count_if_pos ending _ _ _ Hl) as Hpe. pose proof (count_if_pos freeing _ _ _ Hl) as Hpf.
  pose proof (t_size _ _ Hwf) as Hsz.
  destruct Hwf as [_ _ _ _ Hal Hwk Hur Hrd Hfr Hfg]. unfold trole in Hrl. unfold spawned in *. clear He.
  tstep_cases Hs; try (destruct by_); cbn in *; split_and!; intros; try lia; try congruence.
  all: repeat match goal with
    | H : ?a → _, K : ?a |- _ => specialize (H K)
    | H : true = true → _ |- _ => specialize (H eq_refl)
    end; destruct_and?; repeat match goal with
    | H : ?a → _, K : ?a |- _ => specialize (H K)
    | H : true = true → _ |- _ => specialize (H eq_refl)
    end; destruct_and?; split_and?; try lia; try congruence.
  all: first [congruence | destruct Hfg as (? & ? & ?); [lia|]; lia || congruence].
Qed.

Lemma twf_step s ls s' ls' :
  twf s ls → step threads_start (s, ls) (s', ls') → twf s' ls'.
Proof.
  intros Hwf Hstep. destruct (init_ok_step _ _ _ _ Hwf Hstep) as [Hi Hb].
  assert (∀ t l, ls' !! t = Some l → trole N s' t l) as Hr.
  { eapply trole_step; [apply Hwf|apply Hwf|]. by eapply step_mono. }
  pose proof (t_size _ _ Hwf) as Hsz.
  apply step_inv in Hstep as [(t & x & l & l' & e & _ & Hl & Hs & He)|(t & l & -> & Hl & Hw & ->)].
  - destruct (counts_run _ _ _ _ _ _ _ _ _ Hwf Hl Hs He) as (? & ? & ? & ? & ? & ?).
    apply effect_on_length in He. rewrite length_insert in He. split; try done. lia.
  - destruct (wake_class l Hw) as (Ea & Ew & Ee & Eu & Ef).
    assert (∀ f, f (woken l) = f l → count_if f (<[t := woken l]> ls) = count_if f ls) as Hc.
    { intros f Hf. pose proof (count_if_insert f _ _ _ (woken l) Hl). rewrite Hf in *. lia. }
    destruct Hwf. split; rewrite ?(Hc _ Ea), ?(Hc _ Ew), ?(Hc _ Ee), ?(Hc _ Eu), ?(Hc _ Ef); try done.
    by rewrite length_insert.
Qed.
End invariants.
