(* ===== verification/ThpoolSafe.v ===== *)
(** * thpool.c: the mutexes, the nodes and the history of the jobs *)

From S2P Require Import Prelude Pthread Store Thpool ThpoolApi ThpoolRun ThpoolInv.
Open Scope Z_scope.

(** ** The three mutexes *)

Definition holds_rw (l : tlocal) : bool :=
  match l with
  | AddPush _ | AddUnlock | PostLock _ | PostSet _ | PostUnlock _ | PullJob | PullUnlock _ => true
  | _ => false
  end.

Definition holds_sem (l : tlocal) : bool :=
  match l with
  | PostSet _ | PostUnlock _ | SemTest | SemUnlock | DestroyPostSet | DestroyPostUnlock => true
  | _ => false
  end.

Definition holds_count (l : tlocal) : bool :=
  match l with
  | WorkerAlive | WorkerAliveUnlock | WorkingInc | WorkingUnlock | DoneDec | DoneUnlock
  | EndDec | EndUnlock => true
  | _ => false
  end.

Definition unconstrained (s : tpool) (ls : list tlocal) : Prop := True.

Ltac solve_locking :=
  split;
  [ intros ls t x s l s' l' e _ _ Hl Hs; tstep_cases Hs;
    try match goal with b : poster |- _ => destruct b end;
    cbn [holds_rw holds_sem holds_count];
    repeat match goal with
    | K : _ = MFree |- _ => rewrite K
    | K : _ = MHeld _ |- _ => rewrite K
    | K : ∀ t, ?m ≠ MHeld t |- _ => destruct m eqn:?; [| |by destruct (K _ eq_refl)]; clear K
    end;
    by constructor
  | intros ls t x s l s' l' k Hs; by destruct (spawn_worker _ _ _ _ _ _ _ _ Hs) as [-> _]
  | intros l Hw; destruct l; cbn in *; by destruct Hw ].

#[export] Instance rw_locking : Locking anything unconstrained rwmutex holds_rw False.
Proof. solve_locking. Qed.

#[export] Instance sem_locking : Locking anything unconstrained sem_mutex holds_sem False.
Proof. solve_locking. Qed.

#[export] Instance count_locking : Locking anything unconstrained thcount_lock holds_count False.
Proof. solve_locking. Qed.

(** ** The nodes *)

(** The nodes a thread is responsible for; those of them that it has pulled and
    not yet executed. *)
Definition held (l : tlocal) : list nat :=
  match l with
  | AddLock n | AddPush n | WorkerRun n | WorkerFree n
  | PostLock (ByPull (Some n)) | PostSet (ByPull (Some n)) | PostUnlock (ByPull (Some n))
  | PullUnlock (Some n) => [n]
  | _ => []
  end.

Definition to_run (l : tlocal) : list nat :=
  match l with AddLock _ | AddPush _ | WorkerFree _ => [] | _ => held l end.

(** The work in some nodes. *)
Definition works (h : gmap nat job) (ns : list nat) : list work := omap (λ n, work_of <$> (h !! n)) ns.
Arguments works : simpl never.

(** The queue is linked through the nodes [ts]; they and the nodes [hs] held by
    threads are all different, and are all that is allocated; what was added is
    what was pulled, what is queued and what a destruction has dropped. *)
Definition queue_inv (s : tpool) (hs : list nat) (ts : list (nat * work)) (dropped : list work) : Prop :=
  linked (jobq s) ts ∧ NoDup (ts.*1 ++ hs) ∧ dom (heap (jobq s)) = list_to_set (ts.*1 ++ hs) ∧
  added s = pulled s ++ ts.*2 ++ dropped ∧ (freed s = false → dropped = []).

(** What was pulled has been executed or is in the nodes [rs]. *)
Definition history (s : tpool) (rs : list nat) : Prop :=
  pulled s ≡ₚ ran s ++ works (heap (jobq s)) rs.

Lemma works_perm h ns ns' : ns ≡ₚ ns' → works h ns ≡ₚ works h ns'.
Proof. intros H. unfold works. by rewrite H. Qed.

Lemma works_ext h h' ns : (∀ n, n ∈ ns → h' !! n = h !! n) → works h' ns = works h ns.
Proof.
  unfold works. induction ns as [|n ns IH]; intros H; cbn; [done|].
  rewrite (H n) by left. rewrite IH; [done|]. intros k Hk. apply H. by right.
Qed.

Lemma queue_inv_perm s hs hs' ts d : hs ≡ₚ hs' → queue_inv s hs ts d → queue_inv s hs' ts d.
Proof.
  intros Hp (? & Hn & Hd & ?). unfold queue_inv. split_and!; try tauto.
  - by rewrite <- Hp.
  - rewrite Hd. apply list_to_set_perm_L. by rewrite Hp.
Qed.

Lemma history_perm s rs rs' : rs ≡ₚ rs' → history s rs → history s rs'.
Proof. intros Hp H. unfold history in *. by rewrite H, (works_perm _ _ _ Hp). Qed.

Lemma works_heap h h' (ps es : list work) rs :
  ps ≡ₚ es ++ works h rs → (∀ n, n ∈ rs → h' !! n = h !! n) → ps ≡ₚ es ++ works h' rs.
Proof. intros Hp Hh. by rewrite Hp, (works_ext h h' rs Hh). Qed.

Lemma to_run_held l n : n ∈ to_run l → n ∈ held l.
Proof. destruct l; try done; cbn; set_solver. Qed.

Lemma held_wake l : is_Some (waits_on l) → held (woken l) = held l.
Proof. destruct l; cbn; by intros [??]. Qed.

Lemma to_run_wake l : is_Some (waits_on l) → to_run (woken l) = to_run l.
Proof. destruct l; cbn; by intros [??]. Qed.

(** What a step does to the queue and the nodes: nothing, or one of the five
    operations on them. *)
Inductive node_step (s s' : tpool) : tlocal → tlocal → Prop :=
  | ns_none l l' :
      jobq s' = jobq s → added s' = added s → pulled s' = pulled s → ran s' = ran s →
      freed s' = freed s → held l' = held l → to_run l' = to_run l → node_step s s' l l'
  | ns_alloc n w :
      n ∉ dom (heap (jobq s)) →
      s' = set_queue (JobQueue (<[n := Job None w.1 w.2]> (heap (jobq s))) (front (jobq s))
                        (rear (jobq s)) (len (jobq s))) s →
      node_step s s' Outside (AddLock n)
  | ns_push n j q :
      freed s = false → heap (jobq s) !! n = Some j → jobqueue_push (jobq s) n = Done q →
      s' = set_queue q (set_history (added s ++ [work_of j]) (pulled s) (ran s) s) →
      node_step s s' (AddPush n) (PostLock ByAdd)
  | ns_pull n j q post :
      freed s = false → jobqueue_pull (jobq s) = Done (Some n, q, post) → heap q !! n = Some j →
      s' = set_queue q (set_history (added s) (pulled s ++ [work_of j]) (ran s) s) →
      node_step s s' PullJob (if post then PostLock (ByPull (Some n)) else PullUnlock (Some n))
  | ns_pull_none q post :
      jobqueue_pull (jobq s) = Done (None, q, post) →
      s' = set_queue q (set_history (added s) (pulled s ++ []) (ran s) s) →
      node_step s s' PullJob (if post then PostLock (ByPull None) else PullUnlock None)
  | ns_run n j :
      heap (jobq s) !! n = Some j →
      s' = set_history (added s) (pulled s) (ran s ++ [work_of j]) s →
      node_step s s' (WorkerRun n) (WorkerFree n)
  | ns_free n q :
      free_job (jobq s) (Some n) = Done q → s' = set_queue q s → node_step s s' (WorkerFree n) DoneLock
  | ns_destroy q :
      freed s = false → jobqueue_clear (S (Z.to_nat (len (jobq s)))) (jobq s) = Done q →
      s' = set_flags (threads_keepalive s) (ready s) true (set_sem 0 MFree (set_queue q s)) →
      node_step s s' DestroyFree Outside.

Lemma load_Done h n j : load h n = Done j ↔ h !! n = Some j.
Proof. unfold load. destruct (h !! n); naive_solver. Qed.

Lemma node_step_of ls t x s l s' l' e :
  tstep ls t x s l = Done (s', l', e) → node_step s s' l l'.
Proof.
  intros H. tstep_cases H; try match goal with b : poster |- _ => destruct b end;
    try (by apply ns_none).
  all: repeat match goal with K : load _ _ = Done _ |- _ => apply load_Done in K end.
  - by eapply ns_alloc.
  - by eapply ns_push.
  - by eapply ns_destroy.
  - destruct o as [n|]; inv_res.
    + match goal with K : load _ _ = Done _ |- _ => apply load_Done in K end.
      by eapply (ns_pull _ _ _ _ _ true).
    + by eapply (ns_pull_none _ _ _ true).
  - destruct o as [n|]; inv_res.
    + match goal with K : load _ _ = Done _ |- _ => apply load_Done in K end.
      by eapply (ns_pull _ _ _ _ _ false).
    + by eapply (ns_pull_none _ _ _ false).
  - by eapply ns_run.
  - by eapply ns_free.
Qed.

Lemma gather_to_run ls n : n ∈ gather to_run ls → n ∈ gather held ls.
Proof. apply gather_sub. intros x. apply to_run_held. Qed.

(** What each operation on the nodes does to the queue, given the nodes other
    threads hold, [hs], and those they are to run, [rs]. *)
Section node_operations.
Context (s : tpool) (hs rs : list nat) (dropped : list work).
Hypothesis Hsub : ∀ n, n ∈ rs → n ∈ hs.

Lemma node_alloc_inv ts n f a :
  n ∉ dom (heap (jobq s)) → queue_inv s hs ts dropped → history s rs →
  let s' := set_queue (JobQueue (<[n := Job None f a]> (heap (jobq s))) (front (jobq s))
              (rear (jobq s)) (len (jobq s))) s in
  queue_inv s' (n :: hs) ts dropped ∧ history s' rs.
Proof.
  intros H (Hlk & Hnd & Hdom & Hadd & Hdr) Hh. unfold queue_inv, history in *.
  cbn in *. rewrite Hdom in H.
  assert ((n ∉ ts.*1) ∧ (n ∉ hs)) as [Hn Hn'] by set_solver. split.
  + split_and!; [| | |done|done].
    * apply linked_heap; [done|]. intros k Hk. rewrite lookup_insert_ne; [done|congruence].
    * rewrite <- Permutation_middle. constructor; [set_solver|done].
    * rewrite dom_insert_L, Hdom, !list_to_set_app_L. set_solver.
  + apply (works_heap _ _ _ _ _ Hh). intros k Hk.
    rewrite lookup_insert_ne; [done|]. intros ->. by apply Hn', Hsub.
Qed.

Lemma node_push_inv ts n j q :
  freed s = false → heap (jobq s) !! n = Some j → jobqueue_push (jobq s) n = Done q →
  queue_inv s (n :: hs) ts dropped → history s rs →
  let s' := set_queue q (set_history (added s ++ [work_of j]) (pulled s) (ran s) s) in
  queue_inv s' hs (ts ++ [(n, work_of j)]) dropped ∧ history s' rs.
Proof.
  intros Hf Hj Hpush (Hlk & Hnd & Hdom & Hadd & Hdr) Hh. unfold queue_inv, history in *.
  apply NoDup_app in Hnd as (Hn1 & Hn2 & Hn3). cbn in Hn3. apply NoDup_cons in Hn3 as [Hn3 Hn4].
  assert (n ∉ ts.*1) as Hnt by set_solver.
  assert (len (jobq s) < INT_MAX) as Hmax.
  { match goal with K : jobqueue_push _ _ = Done _ |- _ => rewrite (push_linked _ _ _ _ Hlk) in K by done end.
    pose proof (linked_max _ _ Hlk). repeat case_match; bools; try done; lia. }
  destruct (push_spec _ _ n j Hlk) as (q' & Hq & Hlk' & Hd' & _ & Hk'); [done..|].
  assert (q' = q) as -> by congruence. cbn.
  assert (dropped = []) as -> by auto. rewrite !fmap_app. cbn. split.
  + split_and!; [done| | | |done].
    * rewrite <- app_assoc. apply NoDup_app. split_and!; [done|set_solver|by constructor].
    * rewrite Hd', Hdom. f_equal. by rewrite <- app_assoc.
    * rewrite Hadd, !app_nil_r, app_assoc. done.
  + apply (works_heap _ _ _ _ _ Hh). intros k Hk. apply Hk'; set_solver.
Qed.

Lemma node_pull_inv ts n j q post :
  freed s = false → jobqueue_pull (jobq s) = Done (Some n, q, post) → heap q !! n = Some j →
  queue_inv s hs ts dropped → history s rs →
  let s' := set_queue q (set_history (added s) (pulled s ++ [work_of j]) (ran s) s) in
  ∃ ts', queue_inv s' (n :: hs) ts' dropped ∧ history s' (n :: rs).
Proof.
  intros Hf Hpull Hj (Hlk & Hnd & Hdom & Hadd & Hdr) Hh. unfold queue_inv, history in *.
  destruct ts as [|[m w] ts]; [by rewrite (pull_empty _ Hlk) in *|].
  destruct (pull_spec _ _ _ _ Hlk) as (j' & q' & Hj' & Hw & Hq & Hlk' & Hh' & _ & Hm).
  assert (m = n ∧ q' = q) as [-> ->] by (split; congruence). rewrite Hh' in *.
  assert (j' = j) as -> by congruence. exists ts. cbn in *.
  apply NoDup_cons in Hnd as [Hnd1 Hnd2].
  split.
  + split_and!; [done| | | |done].
    * rewrite <- Permutation_middle. by constructor.
    * rewrite Hh', Hdom. rewrite !list_to_set_app_L. cbn. set_solver.
    * rewrite Hadd, <- app_assoc. cbn. by rewrite Hw.
  + rewrite Hh, Hh'. change (n :: rs) with ([n] ++ rs). unfold works. cbn. rewrite Hj'. cbn.
    rewrite <- app_assoc. apply Permutation_app_head. by rewrite Permutation_app_comm.
Qed.

Lemma node_free_inv ts n q :
  free_job (jobq s) (Some n) = Done q → queue_inv s (n :: hs) ts dropped → history s rs →
  queue_inv (set_queue q s) hs ts dropped ∧ history (set_queue q s) rs.
Proof.
  intros Hfree (Hlk & Hnd & Hdom & Hadd & Hdr) Hh. unfold queue_inv, history in *.
  match goal with K : free_job _ _ = Done _ |- _ => cbn in K; inv_res end.
  cbn in *. apply NoDup_app in Hnd as (Hn1 & Hn2 & Hn3).
  apply NoDup_cons in Hn3 as [Hn3 Hn4]. assert (n ∉ ts.*1) as Hnt by set_solver. split.
  + split_and!; [| | |done|done].
    * apply linked_heap; [done|]. intros k Hk. rewrite lookup_delete_ne; [done|congruence].
    * apply NoDup_app. split_and!; [done|set_solver|done].
    * rewrite dom_delete_L, Hdom, !list_to_set_app_L. cbn.
      assert (n ∉ (list_to_set ts.*1 ∪ list_to_set hs : gset nat)) by set_solver. set_solver.
  + apply (works_heap _ _ _ _ _ Hh). intros k Hk.
    rewrite lookup_delete_ne; [done|]. intros ->. by apply Hn3, Hsub.
Qed.

Lemma node_clear_inv ts q :
  freed s = false → jobqueue_clear (S (Z.to_nat (len (jobq s)))) (jobq s) = Done q →
  queue_inv s hs ts dropped → history s rs →
  let s' := set_flags (threads_keepalive s) (ready s) true (set_sem 0 MFree (set_queue q s)) in
  queue_inv s' hs [] ts.*2 ∧ history s' rs.
Proof.
  intros Hf Hclear (Hlk & Hnd & Hdom & Hadd & Hdr) Hh. unfold queue_inv, history in *.
  pose proof (linked_len _ _ Hlk) as Hlen.
  destruct (clear_spec (S (Z.to_nat (len (jobq s)))) (jobq s) ts Hlk) as (q' & Hq & Hlk' & Hk); [lia|].
  assert (q' = q) as -> by congruence. cbn in *.
  apply NoDup_app in Hnd as (Hn1 & Hn2 & Hn3). split.
  + split_and!; [done|done| | |done].
    * apply set_eq. intros k. rewrite elem_of_dom, Hk.
      assert (k ∈ dom (heap (jobq s)) ↔ k ∈ ts.*1 ++ hs) as Hin by (rewrite Hdom; set_solver).
      rewrite elem_of_dom, elem_of_app in Hin. rewrite elem_of_list_to_set.
      case_decide as Hkt; [|tauto]. specialize (Hn2 _ Hkt). split; [by intros []|done].
    * rewrite Hadd, (Hdr ltac:(done)), app_nil_r. done.
  + apply (works_heap _ _ _ _ _ Hh). intros k Hkr. rewrite Hk.
    rewrite decide_False; [done|]. intros Hkt. by apply (Hn2 k), Hsub.
Qed.
End node_operations.

(** The same step seen on the lists of nodes held and to be run, the running
    thread excluded. *)
Lemma node_step_inv s s' l l' hs rs ts dropped :
  node_step s s' l l' → (∀ n, n ∈ rs → n ∈ hs) →
  queue_inv s (held l ++ hs) ts dropped → history s (to_run l ++ rs) →
  ∃ ts' dropped', queue_inv s' (held l' ++ hs) ts' dropped' ∧ history s' (to_run l' ++ rs).
Proof.
  intros Hs Hsub Hq Hh. destruct Hs; subst; cbn [held to_run app] in *.
  - (* nothing *)
    unfold queue_inv, history in *.
    match goal with K1 : jobq s' = _, K2 : added s' = _, K3 : pulled s' = _, K4 : ran s' = _,
      K5 : freed s' = _, K6 : held l' = _, K7 : to_run l' = _ |- _ =>
      rewrite K1, K2, K3, K4, K5, K6, K7 end. by exists ts, dropped.
  - (* a node is allocated *)
    exists ts, dropped. by apply node_alloc_inv.
  - (* it is pushed *)
    exists (ts ++ [(n, work_of j)]), dropped. by apply node_push_inv.
  - (* a job is pulled *)
    destruct (node_pull_inv s hs rs dropped Hsub ts n j q post) as [ts' ?]; [done..|]. exists ts', dropped. by destruct post.
  - (* there is no job *)
    destruct Hq as (Hlk & Hnd & Hdom & Hadd & Hdr). unfold queue_inv, history in *.
    destruct ts as [|[m w] ts].
    2: { destruct (pull_spec _ _ _ _ Hlk) as (j' & q' & _ & _ & Hq & _). congruence. }
    rewrite (pull_empty _ Hlk) in *. simplify_eq. exists [], dropped. cbn. by rewrite app_nil_r.
  - (* a job is executed *)
    exists ts, dropped. split; [done|]. unfold history in *. cbn in *. rewrite Hh. unfold works. cbn.
    match goal with K : heap _ !! _ = Some _ |- _ => rewrite K end. cbn.
    by rewrite <- app_assoc.
  - (* its node is freed *)
    exists ts, dropped. by eapply node_free_inv.
  - (* the queue is destroyed *)
    exists [], ts.*2. by apply (node_clear_inv s hs rs dropped Hsub ts).
Qed.

(** ** The invariant of the running pool *)

(** The jobs [thpool_wait] has to wait for are among those added; once it has
    read a zero length, among those pulled. *)
Definition waits_ok (s : tpool) (l : tlocal) : Prop :=
  match l with
  | WaitLen k => (k ≤ length (added s))%nat
  | WaitWorking k => (k ≤ length (pulled s))%nat
  | _ => True
  end.

Definition mutexes_ok (s : tpool) : Prop :=
  rwmutex s ≠ MUninit ∧ sem_mutex s ≠ MUninit ∧ thcount_lock s ≠ MUninit.

Record tsafe (N : nat) (s : tpool) (ls : list tlocal) : Prop := TSafe {
  ts_wf : twf N s ls;
  ts_rw : owner_inv rwmutex holds_rw s ls;
  ts_sem : owner_inv sem_mutex holds_sem s ls;
  ts_count : owner_inv thcount_lock holds_count s ls;
  ts_mutexes : mutexes_ok s;
  ts_queue : ∃ ts dropped, queue_inv s (gather held ls) ts dropped;
  ts_history : history s (gather to_run ls);
  ts_waits : ∀ t l, ls !! t = Some l → waits_ok s l
}.

Lemma mutexes_step ls t x s l s' l' e :
  mutexes_ok s → tstep ls t x s l = Done (s', l', e) → mutexes_ok s'.
Proof. intros H Hs. unfold mutexes_ok in *. tstep_cases Hs; done || tauto || intuition congruence. Qed.

(** What was added or pulled is not forgotten. *)
Lemma history_grows s s' l l' :
  node_step s s' l l' →
  (length (added s) ≤ length (added s'))%nat ∧ (length (pulled s) ≤ length (pulled s'))%nat.
Proof.
  destruct 1; subst; cbn; rewrite ?length_app; try lia.
  repeat match goal with K : added s' = _ |- _ => rewrite K | K : pulled s' = _ |- _ => rewrite K end. done.
Qed.

Section safe.
Context (N : nat).

Lemma queue_run s ls t x l s' l' e ls' :
  ls !! t = Some l → tstep ls t x s l = Done (s', l', e) → effect_on e (<[t := l']> ls) ls' →
  (∃ ts d, queue_inv s (gather held ls) ts d) → history s (gather to_run ls) →
  (∃ ts d, queue_inv s' (gather held ls') ts d) ∧ history s' (gather to_run ls').
Proof.
  intros Hl Hs He (ts & d & Hq) Hh.
  pose proof (gather_step held _ _ _ _ _ _ held_wake Hl He) as Hg.
  pose proof (gather_step to_run _ _ _ _ _ _ to_run_wake Hl He) as Hr.
  assert (∀ {A} (g : tlocal → list A), g WorkerStart = [] → spawned g e [] = []) as Hsp.
  { intros A g Hg0. destruct e as [[| |k]|]; try done.
    by destruct (spawn_worker _ _ _ _ _ _ _ _ Hs) as [-> _]. }
  rewrite (Hsp _ held eq_refl), app_nil_r, (gather_delete held _ _ _ Hl) in Hg.
  rewrite (Hsp _ to_run eq_refl), app_nil_r, (gather_delete to_run _ _ _ Hl) in Hr.
  rewrite Permutation_app_swap_app in Hg, Hr. apply Permutation_app_inv_l in Hg, Hr.
  eapply queue_inv_perm in Hq; [|apply (gather_delete held _ _ _ Hl)].
  eapply history_perm in Hh; [|apply (gather_delete to_run _ _ _ Hl)].
  destruct (node_step_inv s s' l l' _ _ ts d (node_step_of _ _ _ _ _ _ _ _ Hs)
              (λ n, gather_sub _ _ _ n (λ x, to_run_held x n)) Hq Hh) as (ts' & d' & Hq' & Hh').
  split; [exists ts', d'; by eapply queue_inv_perm; [symmetry|]|by eapply history_perm; [symmetry|]].
Qed.

Lemma waits_run s ls t x l s' l' e :
  (∃ ts d, queue_inv s (gather held ls) ts d) → waits_ok s l →
  tstep ls t x s l = Done (s', l', e) → waits_ok s' l'.
Proof.
  intros (ts & d & Hlk & _ & _ & Hadd & Hdr) Hw Hs.
  tstep_cases Hs; try (destruct by_); cbn in *; try done.
  - match goal with K : len _ = 0 |- _ => rewrite (linked_len _ _ Hlk) in K end.
    destruct ts; [|done]. rewrite (Hdr ltac:(done)) in Hadd. cbn in Hadd.
    rewrite app_nil_r in Hadd. congruence.
  - rewrite Hadd, length_app. lia.
Qed.

Lemma tsafe_step s ls s' ls' :
  tsafe N s ls → step threads_start (s, ls) (s', ls') → tsafe N s' ls'.
Proof.
  intros [Hwf H1 H2 H3 Hm Hq Hh Hw] Hstep.
  assert (step anything (s, ls) (s', ls')) as Hany by (by eapply step_mono).
  split.
  - by eapply twf_step.
  - by eapply (owner_inv_step False (K := rw_locking)).
  - by eapply (owner_inv_step False (K := sem_locking)).
  - by eapply (owner_inv_step False (K := count_locking)).
  - apply step_inv in Hstep as [(t & x & l & l' & e & _ & Hl & Hs & He)|(t & l & -> & _)]; [|done].
    by eapply mutexes_step.
  - apply step_inv in Hstep as [(t & x & l & l' & e & _ & Hl & Hs & He)|(t & l & -> & Hl & Hwt & ->)].
    + by eapply queue_run.
    + by rewrite (gather_insert_same held _ _ _ _ Hl (held_wake l Hwt)).
  - apply step_inv in Hstep as [(t & x & l & l' & e & _ & Hl & Hs & He)|(t & l & -> & Hl & Hwt & ->)].
    + by eapply queue_run.
    + by rewrite (gather_insert_same to_run _ _ _ _ Hl (to_run_wake l Hwt)).
  - refine (forall_threads_step (λ s _ l, waits_ok s l) threads_start s ls s' ls' Hw Hstep _ _).
    + intros t x l l' e _ Hl Hs. split; [by eapply waits_run, Hs; eauto|]. split.
      * intros t' l0 _ Hl0. specialize (Hw _ _ Hl0).
        destruct (history_grows _ _ _ _ (node_step_of _ _ _ _ _ _ _ _ Hs)).
        destruct l0; cbn in *; try done; lia.
      * intros k ->. by destruct (spawn_worker _ _ _ _ _ _ _ _ Hs) as [-> _].
    + intros t l Hwt. destruct l; by destruct Hwt.
Qed.
End safe.

Lemma tsafe_init n num :
  is_int num = true → tsafe (S n) (tinit n num).1 (tinit n num).2.
Proof.
  intros Hnum. apply is_int_spec in Hnum.
  assert (∀ t l, (tinit n num).2 !! t = Some l → (t = 0%nat ∧ ∃ m, l = InitLoop m 0 ∧ 0 <= m <= INT_MAX) ∨
            (l = Outside ∧ (t < S n)%nat)) as Hl.
  { intros [|t] l H; cbn in H; simplify_eq.
    - left. split; [done|]. eexists. split; [done|]. case_match; bools; unfold INT_MAX in *; lia.
    - apply lookup_replicate in H as [-> ?]. right. split; [done|lia]. }
  assert (∀ f, (∀ m, f (InitLoop m 0) = false) → f Outside = false → count_if f (tinit n num).2 = 0%nat) as Hc.
  { intros f Hi Ho. apply count_if_zero. intros t l H. apply Hl in H as [(_ & m & -> & _)|[-> _]]; auto. }
  assert (∀ {A} (g : tlocal → list A), (∀ m, g (InitLoop m 0) = []) → g Outside = [] → gather g (tinit n num).2 = []) as Hg.
  { intros A g Hi Ho. apply gather_nil. intros t l H. apply Hl in H as [(_ & m & -> & _)|[-> _]]; auto. }
  split.
  - split; rewrite ?Hc by done; try done.
    + cbn. rewrite length_replicate. lia.
    + intros t l H. apply Hl in H as [(-> & m & -> & _)|[-> ?]]; unfold trole; cbn; split_and!; done || lia.
    + cbn. rewrite length_replicate. unfold INT_MAX. lia.
    + intros t l H. apply Hl in H as [(-> & m & -> & ?)|[-> ?]]; cbn; [rewrite length_replicate; lia|done].
    + lia.
  - intros t l H. apply Hl in H as [(_ & m & -> & _)|[-> _]]; done.
  - intros t l H. apply Hl in H as [(_ & m & -> & _)|[-> _]]; done.
  - intros t l H. apply Hl in H as [(_ & m & -> & _)|[-> _]]; done.
  - done.
  - exists [], []. rewrite Hg by done. split_and!; try done; [apply empty_linked|constructor].
  - unfold history. by rewrite (Hg _ to_run) by done.
  - intros t l H. apply Hl in H as [(_ & m & -> & _)|[-> _]]; done.
Qed.

Lemma reachable_tsafe n num s ls :
  is_int num = true → reachable threads_start (tinit n num) (s, ls) → tsafe (S n) s ls.
Proof.
  intros Hnum H.
  apply (invariant_reachable threads_start (λ cf, tsafe (S n) cf.1 cf.2) _ _ (tsafe_init n num Hnum))
    in H; [done|]. intros [s1 ls1] [s2 ls2]. cbn. apply tsafe_step.
Qed.
