(* ===== verification/ThpoolProps.v ===== *)
(** * thpool.c: properties of the running pool *)

From S2P Require Import Prelude Pthread Store Thpool ThpoolApi ThpoolRun ThpoolInv ThpoolSafe.
Open Scope Z_scope.

(** ** No undefined behaviour before the pool is freed *)

Section no_ub.
Context (N : nat) (s : tpool) (ls : list tlocal) (Hsafe : tsafe N s ls).

Lemma workers_bound : Z.of_nat (count_if alive ls) + Z.of_nat (count_if unstarted ls) <= INT_MAX.
Proof using Hsafe.
  destruct (ts_wf _ _ _ Hsafe) as [Hsz Hr Hb _ _ _ _ _ _ _].
  pose proof (classes_bound N s ls Hsz Hr). lia.
Qed.

Lemma working_alive l : working l = true → alive l = true.
Proof using. destruct l; cbn; try done; by destruct by_. Qed.

Lemma count_alive_fits t l d :
  ls !! t = Some l → (l = WorkerAlive ∧ d = 1) ∨ (l = EndDec ∧ d = -1) →
  int_of (num_threads_alive s + d) ≠ Fault.
Proof using Hsafe.
  intros Hl Hd. rewrite (t_alive _ _ _ (ts_wf _ _ _ Hsafe)). pose proof workers_bound.
  rewrite int_of_fits; [done|]. unfold INT_MIN, INT_MAX in *.
  destruct Hd as [[-> ->]|[-> ->]].
  - pose proof (count_if_pos unstarted ls t _ Hl eq_refl). lia.
  - pose proof (count_if_pos alive ls t _ Hl eq_refl). lia.
Qed.

Lemma count_working_fits t l d :
  ls !! t = Some l → (l = WorkingInc ∧ d = 1) ∨ (l = DoneDec ∧ d = -1) →
  int_of (num_threads_working s + d) ≠ Fault.
Proof using Hsafe.
  intros Hl Hd. rewrite (t_working _ _ _ (ts_wf _ _ _ Hsafe)). pose proof workers_bound.
  pose proof (count_if_mono working alive ls working_alive) as Hm.
  rewrite int_of_fits; [done|]. unfold INT_MIN, INT_MAX in *.
  destruct Hd as [[-> ->]|[-> ->]].
  - pose proof (count_if_strict working alive ls t _ working_alive Hl eq_refl eq_refl). lia.
  - pose proof (count_if_pos working ls t _ Hl eq_refl). lia.
Qed.

(** A thread finds the nodes it holds. *)
Lemma held_node t l n : ls !! t = Some l → n ∈ held l → ∃ j, heap (jobq s) !! n = Some j.
Proof using Hsafe.
  intros Hl Hn. destruct (ts_queue _ _ _ Hsafe) as (ts & d & _ & _ & Hd & _).
  pose proof (gather_elem held _ _ _ _ Hl Hn) as Hg.
  assert (n ∈ dom (heap (jobq s))) as Hdom by (rewrite Hd; set_solver).
  apply elem_of_dom in Hdom as [j Hj]. by exists j.
Qed.

Lemma push_no_fault t n :
  ls !! t = Some (AddPush n) → len (jobq s) ≠ INT_MAX → jobqueue_push (jobq s) n ≠ Fault.
Proof using Hsafe.
  intros Hl Hmax. destruct (held_node t _ n Hl) as [j Hj]; [by left|].
  destruct (ts_queue _ _ _ Hsafe) as (ts & d & Hlk & Hnd & _).
  assert (n ∉ ts.*1) as Hn.
  { intros Hin. apply NoDup_app in Hnd as (_ & Hnd & _). apply (Hnd n Hin).
    eapply gather_elem; [exact Hl|by left]. }
  rewrite (push_linked _ _ _ _ Hlk Hj Hn), (proj2 (Z.eqb_neq _ _)); done.
Qed.

Lemma pull_no_fault :
  ∃ o q post, jobqueue_pull (jobq s) = Done (o, q, post) ∧
    (match o with None => Done [] | Some l => j ← load (heap q) l; Done [work_of j] end) ≠ Fault.
Proof using Hsafe.
  destruct (ts_queue _ _ _ Hsafe) as ([|[n w] ts] & d & Hlk & _).
  - rewrite (pull_empty _ Hlk). by do 3 eexists.
  - destruct (pull_spec _ _ _ _ Hlk) as (j & q & Hj & _ & -> & _ & Hh & _).
    do 3 eexists. split; [done|]. unfold load. by rewrite Hh, Hj.
Qed.

Lemma clear_no_fault : jobqueue_clear (S (Z.to_nat (len (jobq s)))) (jobq s) ≠ Fault.
Proof using Hsafe.
  destruct (ts_queue _ _ _ Hsafe) as (ts & d & Hlk & _). pose proof (linked_len _ _ Hlk).
  destruct (clear_spec (S (Z.to_nat (len (jobq s)))) (jobq s) ts Hlk) as (q & -> & _); [lia|done].
Qed.

Lemma locks_no_fault t :
  mutex_lock t (rwmutex s) ≠ Fault ∧ mutex_lock t (sem_mutex s) ≠ Fault ∧
  mutex_lock t (thcount_lock s) ≠ Fault.
Proof using Hsafe.
  destruct (ts_mutexes _ _ _ Hsafe) as (? & ? & ?).
  by destruct (rwmutex s), (sem_mutex s), (thcount_lock s).
Qed.

Lemma unlocks_no_fault t l :
  ls !! t = Some l →
  (holds_rw l = true → mutex_unlock t (rwmutex s) ≠ Fault) ∧
  (holds_sem l = true → mutex_unlock t (sem_mutex s) ≠ Fault) ∧
  (holds_count l = true → mutex_unlock t (thcount_lock s) ≠ Fault).
Proof using Hsafe.
  intros Hl. split_and!; intros Hh.
  - rewrite (ts_rw _ _ _ Hsafe _ _ Hl Hh). cbn. by rewrite decide_True.
  - rewrite (ts_sem _ _ _ Hsafe _ _ Hl Hh). cbn. by rewrite decide_True.
  - rewrite (ts_count _ _ _ Hsafe _ _ Hl Hh). cbn. by rewrite decide_True.
Qed.

Lemma unfreed_no_fault t x l :
  freed s = false → threads_start x → ls !! t = Some l →
  (∀ n, l = AddPush n → len (jobq s) ≠ INT_MAX) → (l = DestroyFree → ∀ t', sem_mutex s ≠ MHeld t') →
  tstep ls t x s l ≠ Fault.
Proof using Hsafe.
  intros Hfr [Hx1 Hx2] Hl Hmax Hsem.
  destruct (locks_no_fault t) as (Hlr & Hls & Hlc).
  destruct (unlocks_no_fault t l Hl) as (Hur & Hus & Huc).
  pose proof (t_init _ _ _ (ts_wf _ _ _ Hsafe) _ _ Hl) as Hi.
  pose proof (held_node t l) as Hn.
  cbn [tstep thpool_program].
  destruct l; cbn [thpool_step holds_rw holds_sem holds_count held init_ok] in *;
    try specialize (Hur eq_refl); try specialize (Hus eq_refl); try specialize (Huc eq_refl).
  all: unfold client_step, init_step, add_step, wait_step, destroy_step, sem_step, worker_step,
      lock_rw, unlock_rw, lock_sem, unlock_sem, lock_count, unlock_count, add_alive, add_working, live.
  all: rewrite ?Hfr; cbn [negb check mbind res_bind].
  all: try (repeat first [done | apply bind_no_fault; [|intros ? _] | case_match]; fail).
  - (* InitLoop *)
    destruct (n <? num_threads) eqn:E; [|done]. bools.
    destruct x; try done; cbn; (apply bind_no_fault; [|done]); unfold INT_MAX in *;
      rewrite int_of_fits; unfold INT_MIN, INT_MAX; done || lia.
  - (* AddPush *)
    destruct (Hn newjob Hl) as [j Hj]; [by left|]. unfold load. rewrite Hj. cbn.
    apply bind_no_fault; [|done]. apply (push_no_fault t); [done|]. by eapply Hmax.
  - (* DestroyFree *)
    apply bind_no_fault; [by case_match|]. intros m _. apply bind_no_fault; [apply clear_no_fault|].
    intros q _. specialize (Hsem eq_refl).
    destruct (sem_mutex s) as [| |t'] eqn:E; [done..|]. by destruct (Hsem t').
  - (* WorkerAlive *) apply bind_no_fault; [by eapply count_alive_fits; eauto|done].
  - (* WorkingInc *) apply bind_no_fault; [by eapply count_working_fits; eauto|done].
  - (* PullJob *)
    destruct pull_no_fault as (o & q & post & -> & Hw). cbn.
    apply bind_no_fault; [done|]. by destruct post.
  - (* WorkerRun *)
    destruct (Hn job_p Hl) as [j Hj]; [by left|]. unfold load. by rewrite Hj.
  - (* WorkerFree *)
    destruct (Hn job_p Hl) as [j Hj]; [by left|]. cbn. unfold load. by rewrite Hj.
  - (* DoneDec *) apply bind_no_fault; [by eapply count_working_fits; eauto|done].
  - (* EndDec *) apply bind_no_fault; [by eapply count_alive_fits; eauto|done].
Qed.
End no_ub.

(** Runs of scripts, for the examples. *)
Definition starts (x : tinput) : bool :=
  match x with ThreadMallocFails | ThreadCreateFails => false | _ => true end.

Lemma start_script evs cf :
  forallb (event_okb starts) evs = true →
  reachable threads_start cf ((final evs cf).1, (final evs cf).2).
Proof. apply final_reachable. by intros [] ?. Qed.

Definition run_go (t n : nat) : list (event tinput) := replicate n (Run t Go 0).


(** One worker: it has taken its decision to end, the client has read zero
    living workers and freed the pool. *)
Definition last_worker : config tpool tlocal :=
  final (run_go 0 2 ++ run_go 1 2 ++ run_go 0 1 ++ run_go 1 1 ++ Run 0 CallDestroy 0 :: run_go 1 3 ++ run_go 0 2)
    (tinit 0 1).


(** [thpool_destroy] frees the pool too early.  A worker that ends
    decrements [num_threads_alive] before it unlocks [thcount_lock]; a
    configuration can be reached where the client, having read zero, has freed
    the pool, and the worker then unlocks a mutex in freed memory. *)
Theorem destroy_races_with_the_last_worker :
  ∃ s ls, reachable threads_start (tinit 0 1) (s, ls) ∧ freed s = true ∧
    ls !! 1%nat = Some EndUnlock ∧ can_fault threads_start (s, ls) 1.
Proof.
  exists last_worker.1, last_worker.2. split; [by apply start_script|].
  split; [vm_compute; reflexivity|]. split; [vm_compute; reflexivity|].
  exists Go, 0%nat. split; [done|]. vm_compute. reflexivity.
Qed.

(** C11: exactly once, first in first out, no leak.  Until the pool is freed the
    jobs added are, in order, those pulled and then those in the queue; those
    pulled have been executed once or are in the hands of one worker; and the
    nodes allocated are those of the queue and those in the hands of a thread,
    each in one place. *)
Theorem thpool_jobs_exactly_once n num s ls :
  is_int num = true → reachable threads_start (tinit n num) (s, ls) → freed s = false →
  added s = pulled s ++ (nodes (jobq s)).*2 ∧
  pulled s ≡ₚ ran s ++ works (heap (jobq s)) (gather to_run ls) ∧
  NoDup ((nodes (jobq s)).*1 ++ gather held ls) ∧
  dom (heap (jobq s)) = list_to_set ((nodes (jobq s)).*1 ++ gather held ls).
Proof.
  intros Hnum Hr Hfr. pose proof (reachable_tsafe _ _ _ _ Hnum Hr) as Hsafe.
  destruct (ts_queue _ _ _ Hsafe) as (ts & d & Hlk & Hnd & Hd & Ha & Hdr).
  rewrite (linked_nodes _ _ Hlk), Ha, (Hdr Hfr), app_nil_r.
  split_and!; [done|apply (ts_history _ _ _ Hsafe)|done|done].
Qed.

(** Two jobs added, the first one pulled. *)
Definition first_pulled : config tpool tlocal :=
  final (run_go 0 2 ++ run_go 1 2 ++ run_go 0 1 ++
         Run 0 (CallAdd (7, 0) (Some 10%nat)) 0 :: run_go 0 6 ++
         Run 0 (CallAdd (8, 0) (Some 11%nat)) 0 :: run_go 0 6 ++ run_go 1 14) (tinit 0 1).

Lemma thpool_jobs_exactly_once_witness :
  added first_pulled.1 = [(7, 0); (8, 0)] ∧
  added first_pulled.1 = pulled first_pulled.1 ++ (nodes (jobq first_pulled.1)).*2 ∧
  pulled first_pulled.1 ≡ₚ
    ran first_pulled.1 ++ works (heap (jobq first_pulled.1)) (gather to_run first_pulled.2) ∧
  NoDup ((nodes (jobq first_pulled.1)).*1 ++ gather held first_pulled.2) ∧
  dom (heap (jobq first_pulled.1)) =
    list_to_set ((nodes (jobq first_pulled.1)).*1 ++ gather held first_pulled.2).
Proof.
  split; [vm_compute; reflexivity|].
  apply (thpool_jobs_exactly_once 0 1); [done|by apply start_script|vm_compute; reflexivity].
Defined.

(** C12: [thpool_wait].  A client enters [thpool_wait] with [k] jobs added to the
    queue; when it returns, each of those jobs has been executed, whatever the
    other clients have added in the meantime. *)
Theorem thpool_wait_waits n num s ls t k x w cf :
  is_int num = true → reachable threads_start (tinit n num) (s, ls) →
  ls !! t = Some (WaitWorking k) → exec (Run t x w) (s, ls) = Done cf → cf.2 !! t = Some Outside →
  take k (added s) ⊆+ ran s ∧ length (take k (added s)) = k.
Proof.
  intros Hnum Hr Hl Hex Hout. pose proof (reachable_tsafe _ _ _ _ Hnum Hr) as Hsafe.
  pose proof (ts_waits _ _ _ Hsafe _ _ Hl) as Hk. cbn in Hk.
  destruct (ts_queue _ _ _ Hsafe) as (ts & d & _ & _ & _ & Ha & _).
  pose proof (ts_history _ _ _ Hsafe) as Hh. unfold history in Hh.
  assert (num_threads_working s = 0) as Hz.
  { unfold exec in Hex. cbn [fst snd] in Hex. rewrite Hl in Hex. cbn in Hex. unfold live in Hex.
    split_matches Hex; cbn in Hout.
    match goal with K : wait_step _ _ = _ |- _ => unfold wait_step, live in K; split_matches K end;
      bools; [done|].
    match goal with K : apply_effect _ _ _ = _ |- _ => cbn in K; inv_res end.
    rewrite list_lookup_insert_eq in Hout by (by eapply lookup_lt_Some). congruence. }
  assert (gather to_run ls = []) as Hg.
  { apply gather_nil. intros i l0 Hl0. rewrite (t_working _ _ _ (ts_wf _ _ _ Hsafe)) in Hz.
    assert (count_if working ls = 0%nat) as Hc by lia. rewrite count_if_zero in Hc.
    specialize (Hc _ _ Hl0). destruct l0; try done; destruct by_ as [|[]]; done. }
  rewrite Hg, app_nil_r in Hh. split.
  - rewrite Ha, take_app_le by done. rewrite <- Hh. apply submseteq_take.
  - rewrite length_take, Ha, length_app. lia.
Qed.

Definition waited : config tpool tlocal :=
  final (run_go 0 2 ++ run_go 1 2 ++ run_go 0 1 ++
         Run 0 (CallAdd (7, 0) (Some 10%nat)) 0 :: run_go 0 6 ++ Run 0 CallWait 0 :: run_go 1 19 ++
         run_go 0 1) (tinit 0 1).

Lemma thpool_wait_waits_witness :
  ran waited.1 = [(7, 0)] ∧
  take 1 (added waited.1) ⊆+ ran waited.1 ∧ length (take 1 (added waited.1)) = 1%nat.
Proof.
  split; [vm_compute; reflexivity|].
  eapply (thpool_wait_waits 0 1 waited.1 waited.2 0 1 Go 0);
    [done|by apply start_script|vm_compute; reflexivity|vm_compute; reflexivity|vm_compute; reflexivity].
Defined.
