(* ===== verification/ThpoolLive.v ===== *)
(** * thpool.c: no job is stranded, no deadlock

    The binary semaphore [has_jobs] does not count the jobs; what makes the pool
    work is that whoever consumes it posts it again when jobs remain. *)

From S2P Require Import Prelude Pthread Store Thpool ThpoolApi ThpoolRun ThpoolInv ThpoolSafe ThpoolProps.
Open Scope Z_scope.

(** A thread that has consumed the semaphore and not yet pulled, or that is
    about to post it. *)
Definition token (l : tlocal) : bool :=
  match l with
  | SemUnlock | WorkerCheck | WorkingLock | WorkingInc | WorkingUnlock | PullLock | PullJob
  | PostLock _ | PostSet _ => true
  | _ => false
  end.

(** A worker on its way to the test of the semaphore, asleep on it. *)
Definition heading (l : tlocal) : bool :=
  match l with SemLock | SemTest | SemWoken => true | _ => false end.
Definition sleeping (l : tlocal) : bool := match l with SemWait => true | _ => false end.

(** A client in [thpool_destroy]. *)
Definition destroying (l : tlocal) : bool :=
  match l with
  | DestroyLoop | DestroyPostLock | DestroyPostSet | DestroyPostUnlock | DestroyFree => true
  | _ => false
  end.

Definition present (f : tlocal → bool) (ls : list tlocal) : Prop := (0 < count_if f ls)%nat.

Record running (s : tpool) (ls : list tlocal) : Prop := Running {
  run_token : 0 < len (jobq s) → sem_v s = 1 ∨ present token ls;
  run_heading : sem_v s = 1 → present sleeping ls → present heading ls;
  run_ending : count_if ending ls = 0%nat;
  run_unfreed : freed s = false ∧ count_if destroying ls = 0%nat
}.

(** The invariant of a pool that is not being destroyed. *)
Definition tlive (s : tpool) (ls : list tlocal) : Prop := threads_keepalive s = true → running s ls.

Lemma signal_wakes ls ls' :
  effect_on (Some (Signal 0)) ls ls' →
  (count_if sleeping ls = 0%nat ∧ ls' = ls) ∨
  (count_if heading ls' = S (count_if heading ls) ∧ count_if token ls' = count_if token ls ∧
   count_if ending ls' = count_if ending ls ∧ count_if destroying ls' = count_if destroying ls).
Proof.
  intros H. inversion H as [|c k w l Hw Hc|c k Hn| |]; subst.
  - right. assert (l = SemWait) as -> by (by destruct l).
    pose proof (count_if_insert heading _ _ _ SemWoken Hw). pose proof (count_if_insert token _ _ _ SemWoken Hw).
    pose proof (count_if_insert ending _ _ _ SemWoken Hw).
    pose proof (count_if_insert destroying _ _ _ SemWoken Hw). cbn in *. lia.
  - left. split; [|done]. apply count_if_zero. intros i l Hl. specialize (Hn _ _ Hl). by destruct l.
Qed.

Lemma broadcast_wakes ls ls' :
  effect_on (Some (Broadcast 0)) ls ls' →
  count_if sleeping ls' = 0%nat ∧ count_if ending ls' = count_if ending ls ∧
  count_if token ls' = count_if token ls.
Proof.
  intros H. inversion H; subst. unfold wake_all. split_and!.
  - apply count_if_zero. intros i l Hl. rewrite list_lookup_fmap in Hl.
    match type of Hl with _ <$> ?o = _ => destruct o as [k|]; [|done] end.
    injection Hl as <-. unfold waits_for. by destruct k.
  - apply count_if_map. intros l. case_match; [|done]. by destruct l.
  - apply count_if_map. intros l. case_match; [|done]. by destruct l.
Qed.

Lemma keepalive_step ls t x s l s' l' e :
  tstep ls t x s l = Done (s', l', e) → threads_keepalive s' = true → threads_keepalive s = true.
Proof. intros Hs Hk. tstep_cases Hs; congruence. Qed.

#[local] Arguments jobqueue_clear : simpl never.
#[local] Arguments free_job : simpl never.

(** Only [SemTest], a push, a pull and the posts touch the length of the queue
    and the semaphore. *)
Lemma pull_len q o q' post :
  jobqueue_pull q = Done (o, q', post) → 0 < len q' → post = true ∨ q' = q ∧ len q = 0.
Proof.
  unfold jobqueue_pull. intros H Hl. split_matches H; bools; try lia; cbn in *; left; lia.
Qed.

Lemma running_run s ls t x l s' l' e ls' :
  tlive s ls → ls !! t = Some l → tstep ls t x s l = Done (s', l', e) →
  effect_on e (<[t := l']> ls) ls' → tlive s' ls'.
Proof.
  intros Hlive Hl Hs He Hk. specialize (Hlive (keepalive_step _ _ _ _ _ _ _ _ Hs Hk)).
  destruct Hlive as [Htok Hhead Hend [Hfr Hds]]. unfold present in *.
  pose proof (count_if_insert destroying _ _ _ l' Hl) as Hd.
  pose proof (count_if_pos destroying _ _ _ Hl) as Hpd.
  pose proof (count_if_insert token _ _ _ l' Hl) as Ht.
  pose proof (count_if_insert heading _ _ _ l' Hl) as Hh.
  pose proof (count_if_insert sleeping _ _ _ l' Hl) as Hsp.
  pose proof (count_if_insert ending _ _ _ l' Hl) as Hn.
  pose proof (count_if_pos ending _ _ _ Hl) as Hpe. pose proof (count_if_pos token _ _ _ Hl) as Hpt.
  tstep_cases Hs; try discriminate.
  all: try match goal with b : poster |- _ => destruct b end.
  all: first [ apply signal_wakes in He as [[? ->]|(? & ? & ? & ?)] | apply broadcast_wakes in He as (? & ? & ?)
             | inversion He; subst ls'; clear He ].
  all: split; try (split; [cbn in *; congruence|]); unfold present;
    rewrite ?count_if_app in *; cbn in *; try congruence; try lia.
  - (* pulled, nothing left *)
    intros Hlen. match goal with K : jobqueue_pull _ = _ |- _ =>
      destruct (pull_len _ _ _ _ K Hlen) as [?|[-> ?]]; [done|lia] end.
  - (* a node is freed *)
    match goal with K : free_job _ _ = _ |- _ => unfold free_job in K; inv_res end. cbn. lia.
Qed.

Lemma tlive_step s ls s' ls' :
  tlive s ls → step anything (s, ls) (s', ls') → tlive s' ls'.
Proof.
  intros Hlive Hstep.
  apply step_inv in Hstep as [(t & x & l & l' & e & _ & Hl & Hs & He)|(t & l & -> & Hl & Hw & ->)];
    [by eapply running_run|].
  intros Hk. destruct (Hlive Hk) as [Htok Hhead Hend [Hfr Hds]]. unfold present in *.
  assert (l = SemWait) as -> by (destruct l; by destruct Hw).
  pose proof (count_if_insert token _ _ _ SemWoken Hl) as Ht.
  pose proof (count_if_insert heading _ _ _ SemWoken Hl) as Hh.
  pose proof (count_if_insert sleeping _ _ _ SemWoken Hl) as Hsp.
  pose proof (count_if_insert ending _ _ _ SemWoken Hl) as Hn.
  pose proof (count_if_insert destroying _ _ _ SemWoken Hl) as Hd. cbn in *.
  split; unfold present; try lia. split; [tauto|lia].
Qed.

(** ** Progress *)

Definition unowned (s : tpool) (ls : list tlocal) : Prop :=
  no_leak_inv rwmutex holds_rw s ls ∧ no_leak_inv sem_mutex holds_sem s ls ∧
  no_leak_inv thcount_lock holds_count s ls.

Lemma unowned_step s ls s' ls' :
  unowned s ls → step anything (s, ls) (s', ls') → unowned s' ls'.
Proof.
  intros (H1 & H2 & H3) Hstep. split_and!.
  - by eapply (no_leak_inv_step (K := rw_locking)).
  - by eapply (no_leak_inv_step (K := sem_locking)).
  - by eapply (no_leak_inv_step (K := count_locking)).
Qed.

Definition wants_rw (l : tlocal) : bool :=
  match l with AddLock _ | PullLock => true | _ => false end.
Definition wants_sem (l : tlocal) : bool :=
  match l with PostLock _ | SemLock | SemWoken | DestroyPostLock | DestroyFree => true | _ => false end.
Definition wants_count (l : tlocal) : bool :=
  match l with WorkerStart | WorkingLock | DoneLock | EndLock => true | _ => false end.
Definition idle (l : tlocal) : bool :=
  match l with Outside | SemWait | WorkerExited => true | _ => false end.

Lemma clear_loop_not_blocked fuel q : clear_loop fuel q ≠ Blocked.
Proof.
  revert q. induction fuel as [|fuel IH]; intros q; cbn; [done|].
  unfold jobqueue_pull, free_job, load, int_of. intros H. inv_blocked H.
Qed.

Lemma push_not_blocked q n : jobqueue_push q n ≠ Blocked.
Proof. unfold jobqueue_push, load. intros H. inv_blocked H. Qed.

Lemma pull_not_blocked q : jobqueue_pull q ≠ Blocked.
Proof. unfold jobqueue_pull, load. intros H. inv_blocked H. Qed.

Lemma clear_not_blocked n q : jobqueue_clear n q ≠ Blocked.
Proof. unfold jobqueue_clear. intros H. inv_blocked H. by apply clear_loop_not_blocked in H. Qed.

#[local] Hint Resolve push_not_blocked pull_not_blocked clear_not_blocked : study.

Lemma tblocked_inv s ls t l :
  tstep ls t Go s l = Blocked →
  idle l = true ∨ (wants_rw l = true ∧ rwmutex s ≠ MFree) ∨
  (wants_sem l = true ∧ sem_mutex s ≠ MFree) ∨ (wants_count l = true ∧ thcount_lock s ≠ MFree).
Proof.
  intros H. destruct l; try (by left); right; cbn [tstep thpool_program thpool_step] in H;
    unfold init_step, add_step, wait_step, destroy_step, sem_step, worker_step, lock_rw, unlock_rw,
      lock_sem, unlock_sem, lock_count, unlock_count, add_alive, add_working, live, free_job, load in H;
    inv_blocked H.
  all: first [apply mutex_lock_Blocked in H; cbn; tauto|idtac].
  match goal with K : bsem_reset _ = Done _ |- _ => by apply bsem_reset_Done in K as [? _] end.
Qed.

Lemma tlive_init n num : tlive (tinit n num).1 (tinit n num).2 ∧ unowned (tinit n num).1 (tinit n num).2.
Proof.
  assert (∀ f, (∀ m, f (InitLoop m 0) = false) → f Outside = false → count_if f (tinit n num).2 = 0%nat) as Hc.
  { intros f Hi Ho. apply count_if_zero. intros [|t] l H; cbn in H; simplify_eq; [by auto|].
    by apply lookup_replicate in H as [-> ?]. }
  split; [|done]. intros _. split; unfold present; rewrite ?Hc by done; try done; cbn; lia.
Qed.

Lemma reachable_tlive n num s ls :
  is_int num = true → reachable threads_start (tinit n num) (s, ls) →
  tsafe (S n) s ls ∧ tlive s ls ∧ unowned s ls.
Proof.
  intros Hnum H. split; [by eapply reachable_tsafe|].
  apply (invariant_reachable threads_start (λ cf, tlive cf.1 cf.2 ∧ unowned cf.1 cf.2) _ _ (tlive_init n num))
    in H; [done|]. intros [s1 ls1] [s2 ls2] [H1 H2] Hst. cbn in *.
  assert (step anything (s1, ls1) (s2, ls2)) by (by eapply step_mono).
  split; [by eapply tlive_step|by eapply unowned_step].
Qed.

Definition polling (l : tlocal) : bool :=
  match l with WaitLen _ | WaitWorking _ => true | _ => false end.

(** No thread can carry out a step, apart from the clients that poll in
    [thpool_wait] and those that are outside the API. *)
Definition thpool_quiescent (s : tpool) (ls : list tlocal) : Prop :=
  ∀ t l w cf, ls !! t = Some l → l ≠ Outside → polling l = false →
              exec (Run t Go w) (s, ls) ≠ Done cf.

Section quiescent.
Context (N : nat) (s : tpool) (ls : list tlocal).
Context (Hsafe : tsafe N s ls) (Hun : unowned s ls) (Hq : thpool_quiescent s ls).
Context (Hnf : ∀ t, ¬ can_fault threads_start (s, ls) t).

Lemma tquiescent_blocked t l :
  ls !! t = Some l → idle l = false → polling l = false → tstep ls t Go s l = Blocked.
Proof using Hq Hnf.
  intros Hl Hid Hp. destruct (tstep ls t Go s l) as [[[s' l'] e]| |] eqn:E; [|done|].
  - destruct (exec_Done _ _ _ _ _ _ _ _ Hl E) as (w & cf & Hex).
    destruct (Hq t l w cf Hl); [by intros ->|done..].
  - destruct (Hnf t). exists Go, 0%nat. split; [done|].
    unfold exec. cbn [fst snd]. by rewrite Hl, E.
Qed.

Lemma tquiescent_free :
  sem_mutex s = MFree ∧ thcount_lock s = MFree ∧ rwmutex s = MFree.
Proof using Hsafe Hun Hq Hnf.
  destruct (ts_mutexes _ _ _ Hsafe) as (Hm1 & Hm2 & Hm3). destruct Hun as (Hr & Hs & Hc).
  assert (sem_mutex s = MFree) as Hsem.
  { destruct (sem_mutex s) as [| |t] eqn:E; [done..|]. destruct (Hs t E) as (l & Hl & Hh).
    assert (tstep ls t Go s l = Blocked) as Hb by (apply tquiescent_blocked; [done|by destruct l..]).
    by destruct (tblocked_inv _ _ _ _ Hb) as [?|[[? _]|[[? _]|[? _]]]]; destruct l. }
  assert (thcount_lock s = MFree) as Hcount.
  { destruct (thcount_lock s) as [| |t] eqn:E; [done..|]. destruct (Hc t E) as (l & Hl & Hh).
    assert (tstep ls t Go s l = Blocked) as Hb by (apply tquiescent_blocked; [done|by destruct l..]).
    by destruct (tblocked_inv _ _ _ _ Hb) as [?|[[? _]|[[? _]|[? _]]]]; destruct l. }
  split_and!; [done..|].
  destruct (rwmutex s) as [| |t] eqn:E; [done..|]. destruct (Hr t E) as (l & Hl & Hh).
  assert (tstep ls t Go s l = Blocked) as Hb by (apply tquiescent_blocked; [done|by destruct l..]).
  by destruct (tblocked_inv _ _ _ _ Hb) as [?|[[? _]|[[? ?]|[? _]]]]; destruct l.
Qed.

Lemma tquiescent_idle t l : ls !! t = Some l → idle l = true ∨ polling l = true.
Proof using Hsafe Hun Hq Hnf.
  intros Hl. destruct (idle l) eqn:Hid; [by left|]. right. destruct (polling l) eqn:Hp; [done|].
  destruct tquiescent_free as (H1 & H2 & H3).
  by destruct (tblocked_inv _ _ _ _ (tquiescent_blocked _ _ Hl Hid Hp)) as [?|[[? ?]|[[? ?]|[? ?]]]];
    congruence.
Qed.
End quiescent.


(** One worker has executed the job it was given and is asleep again. *)
Definition rested : config tpool tlocal :=
  final (run_go 0 2 ++ run_go 1 3 ++ run_go 0 1 ++
         Run 0 (CallAdd (7, 0) (Some 10%nat)) 0 :: run_go 0 6 ++ run_go 1 19) (tinit 0 1).

Lemma rested_threads : rested.2 = [Outside; SemWait].
Proof. vm_compute. reflexivity. Qed.

Lemma asleep_quiescent s ls : Forall (λ l, idle l = true) ls → thpool_quiescent s ls.
Proof.
  intros Hid t l w cf Hl Hne _ Hex. rewrite Forall_lookup in Hid. specialize (Hid _ _ Hl).
  unfold exec in Hex. cbn [fst snd] in Hex. rewrite Hl in Hex. by destruct l.
Qed.

Lemma asleep_no_fault s ls t :
  freed s = false → Forall (λ l, idle l = true) ls → ¬ can_fault threads_start (s, ls) t.
Proof.
  intros Hfr Hid Hf. apply can_fault_inv in Hf as (l & x & Hl & _ & Hf). rewrite Forall_lookup in Hid.
  specialize (Hid _ _ Hl). destruct l; try done. cbn in Hf. unfold client_step, live in Hf.
  rewrite Hfr in Hf. destruct (ready s); [|done]. destruct x as [|w [a|]| | | |]; try done.
  by case_decide.
Qed.

