(* ===== verification/Pausable.v ===== *)
(** * Threads that a signal puts on hold

    A layer over the machine of [Pthread] for a program whose workers have a
    signal handler that keeps them on hold while a global flag is set
    ([thread_hold] of thpool.c), and whose clients send the signal to the workers
    one after the other ([thpool_pause]) or clear the flag ([thpool_resume]).
    Every run of the layer is a run of the program below it; a thread on hold
    stays where it is until the flag is cleared. *)

From S2P Require Import Prelude Pthread.

(** What the layer asks of a program: when a client can call, how many workers
    [thpool_pause] counts (a read of the memory of the pool), and which threads
    have ended. *)
Class Pausable (S L : Type) : Type := {
  can_call : S → L → bool;
  alive_count : S → res Z;
  has_ended : L → bool
}.

(** Where a client is in [thpool_pause]: before the test of the loop, before
    [pthread_kill]. *)
Inductive pause_point : Type :=
  | PauseTest (n : nat)
  | PauseKill (n : nat).

#[export] Instance pause_point_eq_dec : EqDecision pause_point.
Proof. solve_decision. Defined.

(** [threads_on_hold], the threads the signal is pending for, those in their
    handler, and the clients in [thpool_pause]. *)
Record hconfig (S L : Type) : Type := HConfig {
  base : config S L;
  threads_on_hold : bool;
  pending : gset nat;
  on_hold : gset nat;
  pausing : gmap nat pause_point
}.
Arguments HConfig {S L} base threads_on_hold pending on_hold pausing.
Arguments base {S L} h.
Arguments threads_on_hold {S L} h.
Arguments pending {S L} h.
Arguments on_hold {S L} h.
Arguments pausing {S L} h.

Inductive hevent (I : Type) : Type :=
  | Exec (ev : event I)
  | CallPause (t : nat)
  | Pause (t : nat)
  | Deliver (t : nat)
  | Return (t : nat)
  | CallResume (t : nat).
Arguments Exec {I} ev.
Arguments CallPause {I} t.
Arguments Pause {I} t.
Arguments Deliver {I} t.
Arguments Return {I} t.
Arguments CallResume {I} t.

Section layer.
Context {I S L : Type} {P : Program I S L} {H : Pausable S L}.
(** The workers are the threads from [N] on, in the order of their creation. *)
Context (N : nat).
Implicit Types (c : hconfig S L) (t : nat).

(** Thread [t] is neither in its handler nor in [thpool_pause]. *)
Definition free_to_run c t : bool := bool_decide (t ∉ on_hold c) && bool_decide (pausing c !! t = None).

Definition idle_client c t : bool :=
  free_to_run c t && match (base c).2 !! t with Some l => can_call (base c).1 l | None => false end.

Definition thread_ended c t : bool :=
  match (base c).2 !! t with Some l => has_ended l | None => true end.

(** [thpool_pause]: the loop on [num_threads_alive], which it reads each time.
    The handle of a thread that has ended is not valid any more. *)
Definition thpool_pause c t : res (hconfig S L) :=
  match pausing c !! t with
  | Some (PauseTest n) =>
      alive ← alive_count (base c).1;
      Done (HConfig (base c) (threads_on_hold c) (pending c) (on_hold c)
              (if (Z.of_nat n <? alive)%Z then <[t := PauseKill n]> (pausing c) else delete t (pausing c)))
  | Some (PauseKill n) =>
      _ ← alive_count (base c).1;
      _ ← check (negb (thread_ended c (N + n)));
      Done (HConfig (base c) (threads_on_hold c) ({[N + n]} ∪ pending c) (on_hold c)
              (<[t := PauseTest (n + 1)]> (pausing c)))
  | None => Blocked
  end.

(** [thpool_resume] *)
Definition thpool_resume c : hconfig S L :=
  HConfig (base c) false (pending c) (on_hold c) (pausing c).

(** [thread_hold], entered when a pending signal is delivered to a thread that
    is not in the handler already (the signal is blocked there) ... *)
Definition thread_hold c t : res (hconfig S L) :=
  if bool_decide (t ∈ pending c) && bool_decide (t ∉ on_hold c) && negb (thread_ended c t) then
    Done (HConfig (base c) true (pending c ∖ {[t]}) ({[t]} ∪ on_hold c) (pausing c))
  else Blocked.

(** ... and left once it finds the flag cleared. *)
Definition thread_hold_return c t : res (hconfig S L) :=
  if bool_decide (t ∈ on_hold c) && negb (threads_on_hold c) then
    Done (HConfig (base c) (threads_on_hold c) (pending c) (on_hold c ∖ {[t]}) (pausing c))
  else Blocked.

Definition hexec (ev : hevent I) c : res (hconfig S L) :=
  match ev with
  | Exec ev =>
      if match ev with Run t _ _ => free_to_run c t | Wakeup _ => true end then
        cf ← exec ev (base c);
        Done (HConfig cf (threads_on_hold c) (pending c) (on_hold c) (pausing c))
      else Blocked
  | CallPause t =>
      if idle_client c t then
        Done (HConfig (base c) (threads_on_hold c) (pending c) (on_hold c) (<[t := PauseTest 0]> (pausing c)))
      else Blocked
  | Pause t => thpool_pause c t
  | Deliver t => thread_hold c t
  | Return t => thread_hold_return c t
  | CallResume t => if idle_client c t then Done (thpool_resume c) else Blocked
  end.

Definition is_resume (ev : hevent I) : bool := match ev with CallResume _ => true | _ => false end.

Definition hevent_ok (ok : I → Prop) (ev : hevent I) : Prop :=
  match ev with Exec ev => event_ok ok ev | _ => True end.

(** Steps with the answers [ok] of the environment; [quiet] runs make no call of
    [thpool_resume]. *)
Inductive hstep (ok : I → Prop) (quiet : bool) : hconfig S L → hconfig S L → Prop :=
  | hstep_exec ev c c' :
      hevent_ok ok ev → (quiet = true → is_resume ev = false) → hexec ev c = Done c' → hstep ok quiet c c'.

Definition hreachable (ok : I → Prop) (quiet : bool) : hconfig S L → hconfig S L → Prop := rtc (hstep ok quiet).

(** Scripts. *)
Fixpoint hrun (evs : list (hevent I)) c : hconfig S L :=
  match evs with
  | [] => c
  | ev :: evs => match hexec ev c with Done c' => hrun evs c' | _ => c end
  end.

Lemma hrun_reachable (ok : I → Prop) (okb : hevent I → bool) quiet evs c :
  (∀ ev, okb ev = true → hevent_ok ok ev ∧ (quiet = true → is_resume ev = false)) →
  forallb okb evs = true → hreachable ok quiet c (hrun evs c).
Proof.
  intros Hok. revert c. induction evs as [|ev evs IH]; intros c Hb; cbn; [constructor|].
  cbn in Hb. bools. destruct (Hok ev) as [Hev Hq]; [done|].
  destruct (hexec ev c) as [c'| |] eqn:E; [|constructor..].
  eapply rtc_l; [by econstructor|by apply IH].
Qed.

Lemma hinvariant ok quiet (Q : hconfig S L → Prop) c c' :
  Q c → (∀ c1 c2, Q c1 → hstep ok quiet c1 c2 → Q c2) → hreachable ok quiet c c' → Q c'.
Proof. intros H0 Hs Hr. induction Hr as [|c1 c2 c3 H1 _ IH]; eauto. Qed.

Lemma hreachable_loud ok quiet c c' : hreachable ok quiet c c' → hreachable ok false c c'.
Proof.
  apply rtc_subrel. intros c1 c2 Hs. inversion_clear Hs as [ev ? ? Hev _ Hx].
  by apply (hstep_exec ok false ev).
Qed.

(** ** The program below *)

(** A step of the layer leaves the program alone or is a step of a thread that
    is free to run. *)
Lemma hexec_base ev c c' :
  hexec ev c = Done c' →
  (base c' = base c) ∨
  ∃ e, ev = Exec e ∧ exec e (base c) = Done (base c') ∧
       threads_on_hold c' = threads_on_hold c ∧ pending c' = pending c ∧ on_hold c' = on_hold c ∧
       pausing c' = pausing c ∧
       (∀ t x w, e = Run t x w → (t ∉ on_hold c) ∧ pausing c !! t = None).
Proof.
  destruct ev as [e|t|t|t|t|t]; cbn; intros Hx.
  - right. exists e. split; [done|]. destruct (match e with Run _ _ _ => _ | Wakeup _ => _ end) eqn:Hf; [|done].
    inv_res. split_and!; try done. intros t x0 w ->. unfold free_to_run in Hf. bools.
    repeat match goal with K : bool_decide _ = true |- _ => apply bool_decide_eq_true in K end. done.
  - left. case_match; by inv_res.
  - left. unfold thpool_pause in Hx. destruct (pausing c !! t) as [[n|n]|]; [..|done]; by inv_res.
  - left. unfold thread_hold in Hx. case_match; by inv_res.
  - left. unfold thread_hold_return in Hx. case_match; by inv_res.
  - left. case_match; by inv_res.
Qed.

Lemma hstep_base ok quiet c c' :
  hstep ok quiet c c' → base c' = base c ∨ (step ok (base c) (base c')).
Proof.
  intros Hs. inversion_clear Hs as [ev ? ? Hev _ Hx].
  destruct (hexec_base _ _ _ Hx) as [?|(e & -> & He & _)]; [by left|]. right. by econstructor.
Qed.

(** Every run of the layer projects to a run of the program. *)
Lemma hreachable_base ok quiet c c' : hreachable ok quiet c c' → reachable ok (base c) (base c').
Proof.
  induction 1 as [|c1 c2 c3 H1 _ IH]; [constructor|].
  destruct (hstep_base _ _ _ _ H1) as [E|Hs]; [by rewrite <- E|]. by eapply rtc_l.
Qed.

(** ** On hold *)

(** Thread [t] is on hold, or will be as soon as its signal is delivered. *)
Definition stopping c t : Prop := t ∈ pending c ∨ (t ∈ on_hold c ∧ threads_on_hold c = true).

Lemma stopping_step ok c c' t : stopping c t → hstep ok true c c' → stopping c' t.
Proof.
  intros Hst Hs. inversion_clear Hs as [ev ? ? _ Hq Hx]. specialize (Hq eq_refl). unfold stopping in *.
  destruct (hexec_base _ _ _ Hx) as [_|(e & _ & _ & -> & -> & -> & _)]; [|done].
  destruct ev as [e|u|u|u|u|u]; cbn in Hx; try done.
  - case_match; by inv_res.
  - case_match; by inv_res.
  - unfold thpool_pause in Hx. destruct (pausing c !! u) as [[n|n]|]; [..|done]; inv_res; cbn; set_solver.
  - unfold thread_hold in Hx. case_match; inv_res. cbn.
    destruct (decide (t = u)) as [->|]; [right; set_solver|]. destruct Hst as [?|[? ?]]; [left|right]; set_solver.
  - unfold thread_hold_return in Hx. case_match; inv_res. bools. cbn.
    destruct Hst as [?|[? ?]]; [by left|congruence].
Qed.

(** The flag stays set, and its threads on hold, until it is cleared. *)
Lemma flag_step ok c c' :
  threads_on_hold c = true → hstep ok true c c' → threads_on_hold c' = true ∧ on_hold c ⊆ on_hold c'.
Proof.
  intros Hh Hs. inversion_clear Hs as [ev ? ? _ Hq Hx]. specialize (Hq eq_refl).
  destruct ev as [e|u|u|u|u|u]; cbn in Hx; try done.
  - case_match; by inv_res.
  - case_match; by inv_res.
  - unfold thpool_pause in Hx. destruct (pausing c !! u) as [[n|n]|]; [..|done]; by inv_res.
  - unfold thread_hold in Hx. case_match; inv_res. cbn. split; [done|set_solver].
  - unfold thread_hold_return in Hx. case_match; inv_res. bools. congruence.
Qed.

(** A thread on hold does not move: at most it is woken inside its handler. *)
Lemma held_step ok c c' t l :
  t ∈ on_hold c → (base c).2 !! t = Some l → hstep ok true c c' →
  (base c').2 !! t = Some l ∨ (is_Some (waits_on l) ∧ (base c').2 !! t = Some (woken l)).
Proof.
  intros Ht Hl Hs. inversion_clear Hs as [ev ? ? _ Hq Hx].
  destruct (hexec_base _ _ _ Hx) as [->|(e & -> & He & _ & _ & _ & _ & Hf)]; [by left|].
  destruct (base c) as [s ls], (base c') as [s' ls'].
  destruct e as [u x w|u]; cbn in He, Hl |- *.
  - destruct (Hf _ _ _ eq_refl) as [Hu _]. destruct (ls !! u) as [k|]; [|done]. inv_res.
    destruct x0 as [[s1 k1] e]. inv_res.
    match goal with K : apply_effect _ _ _ = Done _ |- _ => apply apply_effect_on in K; rename K into Hef end.
    apply (effect_on_survives _ _ _ t l Hef). rewrite list_lookup_insert_ne; [done|congruence].
  - destruct (ls !! u) as [k|] eqn:Hk; [|done]. destruct (waits_on k) eqn:Hw; [|done]. inv_res.
    destruct (decide (u = t)) as [->|].
    + simplify_eq. right. rewrite list_lookup_insert_eq by (by eapply lookup_lt_Some). eauto.
    + left. by rewrite list_lookup_insert_ne.
Qed.

(** Nor does it in any run without [thpool_resume]. *)
Lemma held_frozen ok c c' t l :
  t ∈ on_hold c → threads_on_hold c = true → (base c).2 !! t = Some l → hreachable ok true c c' →
  t ∈ on_hold c' ∧ threads_on_hold c' = true ∧
  ∃ l', (base c').2 !! t = Some l' ∧ (l' = l ∨ (is_Some (waits_on l) ∧ l' = woken l)).
Proof.
  intros Ht Hh Hl. apply (hinvariant ok true (λ c, t ∈ on_hold c ∧ threads_on_hold c = true ∧
    ∃ l', (base c).2 !! t = Some l' ∧ (l' = l ∨ (is_Some (waits_on l) ∧ l' = woken l)))).
  - split_and!; eauto.
  - intros c1 c2 (Ht1 & Hh1 & l1 & Hl1 & Hc) Hs.
    destruct (flag_step _ _ _ Hh1 Hs) as [Hh2 Hsub]. split_and!; [set_solver|done|].
    pose proof (held_step _ _ _ _ _ Ht1 Hl1 Hs) as Hc2.
    destruct Hc as [->|[Hw ->]], Hc2 as [Hc2|[Hw2 Hc2]]; eauto.
    destruct Hw2 as [k Hk]. by rewrite (woken_awake l Hw) in Hk.
Qed.

(** Thread [t] is stopping in every run without [thpool_resume]. *)
Lemma stopping_run ok c c' t : stopping c t → hreachable ok true c c' → stopping c' t.
Proof.
  intros Ht. apply (hinvariant ok true (λ c, stopping c t)); [done|]. intros c1 c2. apply stopping_step.
Qed.
End layer.
