(* ===== verification/ThpoolPause.v ===== *)
(** * thpool.c: pausing the workers

    [thpool_pause], [thpool_resume] and the signal handler [thread_hold] on top
    of the machine of [ThpoolRun]: what a pause guarantees, and what it blocks. *)

From S2P Require Import Prelude Pthread Store Thpool ThpoolRun ThpoolInv ThpoolSafe ThpoolProps ThpoolLive.
From S2P Require Import Pausable.
Open Scope Z_scope.

(** [thread_do] has installed the handler before it counts itself in
    [num_threads_alive], and so before [thpool_init] returns the pool. *)
#[export] Instance thpool_pausable : Pausable tpool tlocal := {|
  can_call s l := ready s && bool_decide (l = Outside);
  alive_count s := _ ← live s; Done (num_threads_alive s);
  has_ended l := bool_decide (l = WorkerExited)
|}.

(** [thpool_init] clears [threads_on_hold]. *)
Definition hinit (n : nat) (num : Z) : hconfig tpool tlocal := HConfig (tinit n num) false ∅ ∅ ∅.

Abbreviation hreach n := (hreachable (H := thpool_pausable) (S n) threads_start).

(** ** The loop of thpool_pause *)

Section counts.
Context (n : nat) (s : tpool) (ls : list tlocal).
Context (Hsafe : tsafe (S n) s ls) (Hlive : tlive s ls).

Lemma worker_role i l : (S n ≤ i)%nat → ls !! i = Some l → client l = false.
Proof using Hsafe.
  intros Hi Hl. pose proof (t_role _ _ _ (ts_wf _ _ _ Hsafe) _ _ Hl) as Hr. unfold trole in Hr.
  destruct (client l); [lia|done].
Qed.

(** While the pool is ready and not being destroyed every worker is alive. *)
Lemma worker_alive i l :
  ready s = true → threads_keepalive s = true → (S n ≤ i)%nat → ls !! i = Some l → alive l = true.
Proof using Hsafe Hlive.
  intros Hrd Hk Hi Hl. pose proof (worker_role _ _ Hi Hl) as Hc.
  pose proof (t_ready _ _ _ (ts_wf _ _ _ Hsafe) Hrd) as Hu. rewrite count_if_zero in Hu. specialize (Hu _ _ Hl).
  pose proof (run_ending _ _ (Hlive Hk)) as He. rewrite count_if_zero in He. specialize (He _ _ Hl).
  unfold client in Hc. apply orb_false_iff in Hc as [Hc Ho]. apply orb_false_iff in Hc as [Hini Hcl].
  unfold alive. rewrite Hini, Hcl, Hu, Ho. by destruct l.
Qed.

Lemma alive_le : num_threads_alive s <= Z.of_nat (length ls) - Z.of_nat (S n).
Proof using Hsafe.
  pose proof (ts_wf _ _ _ Hsafe) as Hwf. pose proof (classes_bound _ _ _ (t_size _ _ _ Hwf) (t_role _ _ _ Hwf)).
  rewrite (t_alive _ _ _ Hwf). pose proof (t_size _ _ _ Hwf). lia.
Qed.

Lemma alive_all :
  ready s = true → threads_keepalive s = true →
  num_threads_alive s = Z.of_nat (length ls) - Z.of_nat (S n).
Proof using Hsafe Hlive.
  intros Hrd Hk. pose proof alive_le. pose proof (ts_wf _ _ _ Hsafe) as Hwf.
  rewrite (t_alive _ _ _ Hwf) in *. pose proof (t_size _ _ _ Hwf).
  pose proof (count_if_from alive ls (S n) (λ i l, worker_alive i l Hrd Hk)). lia.
Qed.
End counts.

(** ** The invariant *)

Definition in_loop (c : hconfig tpool tlocal) (n : nat) (pt : pause_point) : Prop :=
  ready (base c).1 = true ∧
  match pt with PauseTest _ => True | PauseKill k => (S n + k < length (base c).2)%nat end.

Record hsafe (n : nat) (c : hconfig tpool tlocal) : Prop := HSafe {
  hs_safe : tsafe (S n) (base c).1 (base c).2;
  hs_live : tlive (base c).1 (base c).2;
  hs_loop : ∀ t pt, pausing c !! t = Some pt → in_loop c n pt
}.

(** A pool that is ready stays so, and starts no more threads. *)
Lemma ready_length N s ls s' ls' :
  tsafe N s ls → ready s = true → step threads_start (s, ls) (s', ls') →
  ready s' = true ∧ length ls' = length ls.
Proof.
  intros Hsafe Hrd Hst.
  apply step_inv in Hst as [(t & x & l & l' & e & _ & Hl & Hs & He)|(t & l & -> & Hl & Hw & ->)].
  - split; [by destruct (ready_step _ _ _ _ _ _ _ _ Hs) as [->|[-> _]]|].
    pose proof (effect_on_length _ _ _ He) as Hn. rewrite length_insert in Hn.
    destruct e as [[| |k]|]; try lia. exfalso.
    destruct (spawn_worker _ _ _ _ _ _ _ _ Hs) as (_ & num & i & -> & _).
    pose proof (t_role _ _ _ (ts_wf _ _ _ Hsafe) _ _ Hl) as Hr. unfold trole in Hr. cbn in Hr.
    destruct Hr as (_ & [_ Hr] & _). congruence.
  - by rewrite length_insert.
Qed.

Lemma hsafe_step n q c c' :
  hsafe n c → hstep (S n) threads_start q c c' → hsafe n c'.
Proof.
  intros [Hsafe Hlive Hloop] Hs.
  assert (tsafe (S n) (base c').1 (base c').2 ∧ tlive (base c').1 (base c').2) as [Hsafe' Hlive'].
  { destruct (hstep_base _ _ _ _ _ Hs) as [->|Hst]; [done|].
    destruct (base c), (base c'). split; [by eapply tsafe_step|].
    eapply tlive_step; [done|]. by eapply step_mono. }
  split; [done..|]. intros t pt Hpt. inversion_clear Hs as [ev ? ? Hev _ Hx].
  destruct (hexec_base _ _ _ _ Hx) as [E|(e & -> & He & _ & _ & _ & E & _)].
  - unfold in_loop. rewrite E in *. destruct ev as [e|u|u|u|u|u]; cbn in Hx.
    + case_match; inv_res. by apply (Hloop t).
    + case_match eqn:Hid; inv_res. cbn in Hpt. destruct (decide (u = t)) as [->|Hne].
      * rewrite lookup_insert_eq in Hpt. simplify_eq. unfold idle_client in Hid. bools.
        case_match; [|done]. cbn in *. by bools.
      * rewrite lookup_insert_ne in Hpt by done. by apply (Hloop t).
    + unfold thpool_pause in Hx. destruct (pausing c !! u) as [[k|k]|] eqn:Hu; [..|done]; inv_res; cbn in Hpt.
      * destruct (Hloop _ _ Hu) as [Hrd _]. cbn in *. inv_res.
        pose proof (alive_le _ _ _ Hsafe).
        destruct (decide (u = t)) as [->|Hne]; [|].
        -- case_match; bools; rewrite ?lookup_insert_eq, ?lookup_delete_eq in Hpt; simplify_eq.
           split; [done|lia].
        -- apply (Hloop t). case_match; by rewrite ?lookup_insert_ne, ?lookup_delete_ne in Hpt.
      * destruct (Hloop _ _ Hu) as [Hrd _]. destruct (decide (u = t)) as [->|Hne].
        -- rewrite lookup_insert_eq in Hpt. by simplify_eq.
        -- rewrite lookup_insert_ne in Hpt by done. by apply (Hloop t).
    + unfold thread_hold in Hx. case_match; inv_res. by apply (Hloop t).
    + unfold thread_hold_return in Hx. case_match; inv_res. by apply (Hloop t).
    + case_match; inv_res. by apply (Hloop t).
  - rewrite E in Hpt. destruct (Hloop _ _ Hpt) as [Hrd Hpl]. unfold in_loop.
    assert (step threads_start (base c) (base c')) as Hst by (by econstructor).
    destruct (base c), (base c'). cbn in *. destruct (ready_length _ _ _ _ _ Hsafe Hrd Hst) as [-> ->]. done.
Qed.

Lemma hreach_safe n num q c : is_int num = true → hreach n q (hinit n num) c → hsafe n c.
Proof.
  intros Hnum. apply hinvariant; [|intros c1 c2; apply hsafe_step].
  destruct (reachable_tlive n num _ _ Hnum (rtc_refl _ (tinit n num))) as (? & ? & _). by split.
Qed.

Lemma hreach_trans n q1 q2 c1 c2 c3 :
  hreach n q1 c1 c2 → hreach n q2 c2 c3 → hreach n false c1 c3.
Proof. intros H1 H2. etransitivity; by eapply hreachable_loud. Qed.

(** C16: pausing is transparent.  Whenever and however often the clients pause
    and resume the pool, and wherever the signals reach the workers, the threads
    do what they could do without pauses: the configuration is one of those of
    the other theorems about the pool, so that each job is executed once, in its
    order.  And [thpool_pause] itself has undefined behaviour only on a pool
    that is being destroyed or was. *)
Theorem thpool_pause_transparent n num c :
  is_int num = true → hreach n false (hinit n num) c →
  reachable threads_start (tinit n num) (base c) ∧
  ∀ ev, hevent_ok threads_start ev → hexec (S n) ev c = Fault →
    (∃ t, can_fault threads_start (base c) t) ∨
    (∃ t, ev = Pause t ∧ threads_keepalive (base c).1 = false).
Proof.
  intros Hnum Hr. split; [by apply (hreachable_base (S n) _ _ _ _ Hr)|].
  destruct (hreach_safe _ _ _ _ Hnum Hr) as [Hsafe Hlive Hloop]. intros ev Hev Hf.
  destruct ev as [e|t|t|t|t|t]; cbn in Hf.
  - left. case_match; [|done]. destruct (exec e (base c)) eqn:E; [done..|].
    destruct e as [t x w|t]; [by exists t, x, w|]. exfalso. cbn in E.
    by repeat case_match.
  - by case_match.
  - right. exists t. split; [done|]. destruct (threads_keepalive (base c).1) eqn:Hk; [|done]. exfalso.
    destruct (run_unfreed _ _ (Hlive Hk)) as [Hfr _].
    unfold thpool_pause in Hf. cbn in Hf. unfold live in Hf. rewrite Hfr in Hf.
    destruct (pausing c !! t) as [[k|k]|] eqn:Ht; [done| |done]. cbn in Hf.
    destruct (Hloop _ _ Ht) as [Hrd Hlt]. apply lookup_lt_is_Some_2 in Hlt as [l Hl].
    change (S (n + k)) with (S n + k)%nat in Hf. unfold thread_ended in Hf. rewrite Hl in Hf.
    assert (alive l = true) as Ha by (apply (worker_alive n _ _ Hsafe Hlive (S n + k) l Hrd Hk); [lia|done]).
    by destruct l.
  - unfold thread_hold in Hf. by case_match.
  - unfold thread_hold_return in Hf. by case_match.
  - by case_match.
Qed.

(** ** What a pause guarantees *)

(** As far as the client [t] has come in its loop, the workers are stopping. *)
Definition progress (n t : nat) (c : hconfig tpool tlocal) : Prop :=
  ready (base c).1 = true ∧
  (threads_keepalive (base c).1 = true →
   ∃ m, (∀ i, (S n ≤ i < S n + m)%nat → stopping c i) ∧
        ((length (base c).2 ≤ S n + m)%nat ∨ pausing c !! t = Some (PauseTest m) ∨ pausing c !! t = Some (PauseKill m))).

Lemma progress_step n t c c' :
  hsafe n c → progress n t c → hstep (S n) threads_start true c c' → progress n t c'.
Proof.
  intros [Hsafe Hlive _] [Hrd Hp] Hs. unfold progress.
  assert (∀ i, stopping c i → stopping c' i) as Hst by (intros i Hi; by eapply stopping_step).
  inversion_clear Hs as [ev ? ? Hev Hq Hx]. specialize (Hq eq_refl).
  destruct (hexec_base _ _ _ _ Hx) as [E|(e & -> & He & _ & _ & _ & E & _)].
  - rewrite E. split; [done|]. intros Hk. destruct (Hp Hk) as (m & Hm & Hpt).
    destruct ev as [e|u|u|u|u|u]; cbn in Hx; try done.
    + exists m. case_match; inv_res. by eauto.
    + exists m. split; [by eauto|]. case_match eqn:Hid; inv_res. destruct Hpt as [?|Hpt]; [by left|].
      right. cbn. rewrite lookup_insert_ne; [done|]. intros ->. unfold idle_client, free_to_run in Hid. bools.
      match goal with K : bool_decide (pausing c !! _ = None) = true |- _ => apply bool_decide_eq_true in K end.
      destruct Hpt; congruence.
    + unfold thpool_pause in Hx. destruct (decide (u = t)) as [->|Hne].
      * destruct (pausing c !! t) as [[k|k]|] eqn:Ht; [..|done]; cbn in Hx; inv_res; cbn [pausing].
        -- exists m. split; [by eauto|]. destruct Hpt as [?|Hpt]; [by left|].
           assert (k = m) as -> by (destruct Hpt; congruence).
           pose proof (alive_all _ _ _ Hsafe Hlive Hrd Hk).
           destruct (Z.of_nat m <? _) eqn:Hlt; bools; [|left; lia].
           right; right. by rewrite lookup_insert_eq.
        -- destruct Hpt as [Hpt|Hpt]; [exists m; split; [by eauto|by left]|].
           assert (k = m) as -> by (destruct Hpt; congruence). exists (m + 1)%nat. split.
           ++ intros i Hi. destruct (decide (i = S n + m)%nat) as [->|]; [|apply Hst, Hm; lia].
              left. cbn. set_solver.
           ++ right; left. by rewrite lookup_insert_eq.
      * exists m. split; [by eauto|]. destruct Hpt as [?|Hpt]; [by left|]. right.
        destruct (pausing c !! u) as [[k|k]|]; [..|done]; inv_res; cbn [pausing];
          [case_match|]; by rewrite ?lookup_insert_ne, ?lookup_delete_ne.
    + exists m. split; [by eauto|]. unfold thread_hold in Hx. case_match; by inv_res.
    + exists m. split; [by eauto|]. unfold thread_hold_return in Hx. case_match; by inv_res.
  - rewrite E. assert (step threads_start (base c) (base c')) as Hb by (by econstructor).
    destruct (base c) as [s ls], (base c') as [s' ls']. cbn [fst snd] in *.
    destruct (ready_length _ _ _ _ _ Hsafe Hrd Hb) as [-> ->]. split; [done|]. intros Hk.
    destruct Hp as (m & Hm & Hpt); [|by eauto 6]. clear -Hb Hk.
    apply step_inv in Hb as [(u & x & l & l' & e' & _ & Hl & Hs & _)|(u & l & -> & _)]; [|done].
    by eapply keepalive_step.
Qed.

(** Only a worker takes a job or executes one. *)
Lemma client_takes_nothing ls t x s l s' l' e :
  tstep ls t x s l = Done (s', l', e) → client l = true → pulled s' = pulled s ∧ ran s' = ran s.
Proof. intros Hs Hc. tstep_cases Hs; done. Qed.

(** While every worker is on hold no job is taken, and none executed. *)
Lemma all_held_step n c c' :
  hsafe n c → (∀ i, (S n ≤ i < length (base c).2)%nat → i ∈ on_hold c) →
  hstep (S n) threads_start true c c' →
  pulled (base c').1 = pulled (base c).1 ∧ ran (base c').1 = ran (base c).1.
Proof.
  intros [Hsafe _ _] Hall Hs. inversion_clear Hs as [ev ? ? Hev _ Hx].
  destruct (hexec_base _ _ _ _ Hx) as [->|(e & -> & He & _ & _ & _ & _ & Hf)]; [done|].
  destruct e as [u x w|u].
  - destruct (Hf _ _ _ eq_refl) as [Hu _]. destruct (base c) as [s ls]. cbn in He, Hall |- *.
    destruct (ls !! u) as [l|] eqn:Hl; [|done]. inv_res. destruct x0 as [[s1 l1] e]. inv_res. rewrite <- He. cbn.
    match goal with K : thpool_step _ _ _ _ _ = Done _ |- _ => rename K into Hs end.
    apply (client_takes_nothing _ _ _ _ _ _ _ _ Hs). destruct (client l) eqn:Hc; [done|]. exfalso. apply Hu, Hall.
    pose proof (t_role _ _ _ (ts_wf _ _ _ Hsafe) _ _ Hl) as Hr. unfold trole in Hr. rewrite Hc in Hr.
    split; [done|]. by eapply lookup_lt_Some.
  - destruct (base c) as [s ls]. cbn in He. destruct (ls !! u) as [l|]; [|done].
    destruct (thpool_waits_on l); inv_res. by rewrite <- He.
Qed.

(** Every worker on hold, for good in a quiet run. *)
Definition all_on_hold (n : nat) (c : hconfig tpool tlocal) : Prop :=
  ready (base c).1 = true ∧ threads_on_hold c = true ∧
  ∀ i, (S n ≤ i < length (base c).2)%nat → i ∈ on_hold c.

Lemma all_on_hold_step n c c' :
  hsafe n c → all_on_hold n c → hstep (S n) threads_start true c c' → all_on_hold n c'.
Proof.
  intros [Hsafe _ _] (Hrd & Hh & Hall) Hs. destruct (flag_step _ _ _ _ Hh Hs) as [Hh' Hsub].
  assert (ready (base c').1 = true ∧ length (base c').2 = length (base c).2) as [Hrd' Hlen].
  { destruct (hstep_base _ _ _ _ _ Hs) as [->|Hst]; [done|].
    destruct (base c), (base c'). by eapply ready_length. }
  split_and!; [done..|]. rewrite Hlen. intros i Hi. by apply Hsub, Hall.
Qed.

Lemma all_on_hold_run n c c' :
  hsafe n c → all_on_hold n c → hreach n true c c' →
  pulled (base c').1 = pulled (base c).1 ∧ ran (base c').1 = ran (base c).1.
Proof.
  intros Hs Ha Hr. apply (hinvariant (S n) threads_start true (λ c', hsafe n c' ∧ all_on_hold n c' ∧
    pulled (base c').1 = pulled (base c).1 ∧ ran (base c').1 = ran (base c).1)) in Hr; [tauto|done|].
  intros c1 c2 (Hs1 & Ha1 & <- & <-) Hst.
  split_and!; [by eapply hsafe_step|by eapply all_on_hold_step|apply (all_held_step n _ _ Hs1 (proj2 (proj2 Ha1)) Hst)..].
Qed.

(** A quiet run, in which the pool is not yet being destroyed when [thpool_pause]
    returns to the client [t]. *)
Lemma pause_stops n num t c c' :
  is_int num = true → hreach n false (hinit n num) c → pausing c !! t = Some (PauseTest 0) →
  hreach n true c c' → pausing c' !! t = None → threads_keepalive (base c').1 = true →
  ready (base c').1 = true ∧ ∀ i, (S n ≤ i < length (base c').2)%nat → stopping c' i.
Proof.
  intros Hnum Hr Hp Hq Hret Hk. pose proof (hreach_safe _ _ _ _ Hnum Hr) as Hs.
  assert (progress n t c) as Hpr.
  { destruct (hs_loop _ _ Hs _ _ Hp) as [Hrd _]. split; [done|]. intros _. exists 0%nat.
    split; [intros i; lia|by auto]. }
  apply (hinvariant (S n) threads_start true (λ c, hsafe n c ∧ progress n t c)) in Hq; [|done|].
  - destruct Hq as [_ [Hrd Hq]]. split; [done|]. destruct (Hq Hk) as (m & Hm & [?|[?|?]]); [|congruence..].
    intros i Hi. apply Hm. lia.
  - intros c1 c2 [H1 H2] Hst. split; [by eapply hsafe_step|by eapply progress_step].
Qed.

(** C17: what a pause guarantees.  When [thpool_pause] returns, in a pool that is
    not being destroyed and that nobody resumes, every worker is on hold or the
    signal is pending for it; and once the signals have been delivered, no job
    is taken from the queue and none executed until [thpool_resume] is called,
    whatever is added in the meantime. *)
Theorem thpool_pause_pauses n num t c c' c'' :
  is_int num = true → hreach n false (hinit n num) c → pausing c !! t = Some (PauseTest 0) →
  hreach n true c c' → pausing c' !! t = None → threads_keepalive (base c').1 = true →
  (∀ i, (S n ≤ i < length (base c').2)%nat → stopping c' i) ∧
  ((S n < length (base c').2)%nat → pending c' = ∅ → hreach n true c' c'' →
     threads_on_hold c'' = true ∧
     pulled (base c'').1 = pulled (base c').1 ∧ ran (base c'').1 = ran (base c').1).
Proof.
  intros Hnum Hr Hp Hq Hret Hk. destruct (pause_stops _ _ _ _ _ Hnum Hr Hp Hq Hret Hk) as [Hrd Hst].
  split; [done|]. intros Hw Hpe Hq'.
  assert (∀ i, (S n ≤ i < length (base c').2)%nat → i ∈ on_hold c' ∧ threads_on_hold c' = true) as Hall.
  { intros i Hi. destruct (Hst i Hi) as [Hin|?]; [|done]. rewrite Hpe in Hin. set_solver. }
  destruct (Hall (S n)) as [_ Hh]; [lia|].
  split; [|apply (all_on_hold_run n); [|split_and!; [done..|]; intros i Hi; by apply Hall|done]].
  - apply (hinvariant (S n) threads_start true (λ c, threads_on_hold c = true)) in Hq'; [done..|].
    intros c1 c2 Hh1 H1. by destruct (flag_step _ _ _ _ Hh1 H1).
  - eapply hreach_safe; [done|]. by eapply hreach_trans.
Qed.

(** ** What a pause blocks *)

(** The queue is only changed by the thread that holds its mutex. *)
Lemma queue_needs_rw ls t x s l s' l' e :
  tstep ls t x s l = Done (s', l', e) →
  holds_rw l = true ∨ (added s' = added s ∧ pulled s' = pulled s).
Proof. intros Hs. tstep_cases Hs; auto. Qed.

Record stopped_at (n i : nat) (l : tlocal) (c : hconfig tpool tlocal) : Prop := StoppedAt {
  st_safe : hsafe n c;
  st_flag : threads_on_hold c = true;
  st_held : i ∈ on_hold c;
  st_local : (base c).2 !! i = Some l ∨ (is_Some (waits_on l) ∧ (base c).2 !! i = Some (woken l))
}.

Lemma stopped_step n i l c c' :
  stopped_at n i l c → hstep (S n) threads_start true c c' → stopped_at n i l c'.
Proof.
  intros [Hs Hf Hh Hl] Hst. destruct (flag_step _ _ _ _ Hf Hst) as [Hf' Hsub].
  split; [by eapply hsafe_step|done|set_solver|]. destruct Hl as [Hl|[Hw Hl]].
  - by apply (held_step _ _ _ _ _ _ Hh Hl Hst).
  - right. split; [done|]. destruct (held_step _ _ _ _ _ _ Hh Hl Hst) as [?|[Hk _]]; [done|].
    destruct l; by destruct Hw, Hk.
Qed.

(** A thread on hold with the mutex of the queue: nothing is added or taken. *)
Lemma holding_step n i l c c' :
  stopped_at n i l c → holds_rw l = true → hstep (S n) threads_start true c c' →
  added (base c').1 = added (base c).1 ∧ pulled (base c').1 = pulled (base c).1.
Proof.
  intros [[Hsafe _ _] _ Hh Hl] Hrw Hs. inversion_clear Hs as [ev ? ? Hev _ Hx].
  destruct Hl as [Hl|[Hw _]]; [|by destruct l; destruct Hw].
  destruct (hexec_base _ _ _ _ Hx) as [->|(e & -> & He & _ & _ & _ & _ & Hf)]; [done|].
  assert (step threads_start (base c) (base c')) as Hst by (by econstructor).
  destruct e as [u x w|u].
  - destruct (Hf _ _ _ eq_refl) as [Hu _]. destruct (base c) as [s ls]. cbn in He, Hl, Hsafe |- *.
    destruct (ls !! u) as [k|] eqn:Hk; [|done]. inv_res. destruct x0 as [[s1 k1] e]. inv_res. rewrite <- He. cbn.
    match goal with K : thpool_step _ _ _ _ _ = Done _ |- _ =>
      destruct (queue_needs_rw _ _ _ _ _ _ _ _ K) as [Hku|?]; [|done] end.
    exfalso. apply Hu. by rewrite (mutual_exclusion _ _ _ _ _ _ (ts_rw _ _ _ Hsafe) Hk Hl Hku Hrw).
  - destruct (base c) as [s ls]. cbn in He. destruct (ls !! u) as [k|]; [|done].
    destruct (thpool_waits_on k); inv_res. by rewrite <- He.
Qed.

(** C18: what a pause blocks.  Until [thpool_resume] is called, a worker on hold
    that has the mutex of the queue keeps it: no job can be added.  And while a
    worker that counts as alive is on hold, [thpool_destroy] does not get to the
    point where it frees the pool. *)
Theorem thread_on_hold_blocks n num i l c c' :
  is_int num = true → hreach n false (hinit n num) c → threads_on_hold c = true → i ∈ on_hold c →
  (base c).2 !! i = Some l → hreach n true c c' →
  (holds_rw l = true → added (base c').1 = added (base c).1 ∧ pulled (base c').1 = pulled (base c).1) ∧
  (alive l = true → freed (base c').1 = false).
Proof.
  intros Hnum Hr Hf Hh Hl Hq.
  assert (stopped_at n i l c) as Hst by (split; [by eapply hreach_safe|done|done|by left]). split.
  - intros Hrw. apply (hinvariant (S n) threads_start true (λ c', stopped_at n i l c' ∧
      added (base c').1 = added (base c).1 ∧ pulled (base c').1 = pulled (base c).1)) in Hq; [tauto|done|].
    intros c1 c2 (H1 & <- & <-) H2. split; [by eapply stopped_step|by eapply holding_step].
  - intros Ha. apply (hinvariant (S n) threads_start true (stopped_at n i l)) in Hq;
      [|done|intros c1 c2; apply stopped_step].
    destruct Hq as [[Hsafe _ _] _ _ Hl']. destruct (freed (base c').1) eqn:E; [|done].
    destruct (t_freed _ _ _ (ts_wf _ _ _ Hsafe) E) as [_ Hz]. rewrite count_if_zero in Hz.
    destruct Hl' as [Hl'|[Hw Hl']]; specialize (Hz _ _ Hl'); [congruence|].
    destruct (wake_class l Hw) as [Hwk _]. congruence.
Qed.

(** ** Scripts *)

Definition quiet_event (ev : hevent tinput) : bool :=
  match ev with Exec ev => event_okb starts ev | CallResume _ => false | _ => true end.
Definition any_event (ev : hevent tinput) : bool :=
  match ev with Exec ev => event_okb starts ev | _ => true end.

Lemma quiet_script n evs c : forallb quiet_event evs = true → hreach n true c (hrun (S n) evs c).
Proof.
  apply hrun_reachable. intros [[t x w|]| | | | |]; cbn; try done. intros Hx. split; [by destruct x|done].
Qed.

Lemma pause_any_script n evs c : forallb any_event evs = true → hreach n false c (hrun (S n) evs c).
Proof.
  apply hrun_reachable. intros [[t x w|]| | | | |]; cbn; try done. intros Hx. split; [by destruct x|done].
Qed.

Definition hgo (t n : nat) : list (hevent tinput) := Exec <$> run_go t n.

(** A pool with two workers and a client, its loop about to start. *)
Definition about_to_pause : hconfig tpool tlocal :=
  hrun 1 (hgo 0 3 ++ hgo 1 3 ++ hgo 2 3 ++ hgo 0 1 ++ [CallPause 0]) (hinit 0 2).

(** It has sent the signals, and they have been delivered. *)
Definition paused : hconfig tpool tlocal :=
  hrun 1 ([Pause 0; Pause 0; Deliver 1; Pause 0; Pause 0; Pause 0; Deliver 2]) about_to_pause.

(** A job is then added. *)
Definition added_while_paused : hconfig tpool tlocal :=
  hrun 1 (Exec (Run 0 (CallAdd (7, 0) (Some 10%nat)) 0) :: hgo 0 6) paused.

Lemma about_to_pause_reachable : hreach 0 false (hinit 0 2) about_to_pause.
Proof. by apply pause_any_script. Qed.

Lemma thpool_pause_transparent_witness :
  added (base added_while_paused).1 = [(7, 0)] ∧
  reachable threads_start (tinit 0 2) (base added_while_paused) ∧
  ∀ ev, hevent_ok threads_start ev → hexec 1 ev added_while_paused = Fault →
    (∃ t, can_fault threads_start (base added_while_paused) t) ∨
    (∃ t, ev = Pause t ∧ threads_keepalive (base added_while_paused).1 = false).
Proof.
  split; [vm_compute; reflexivity|]. apply (thpool_pause_transparent 0 2); [done|].
  eapply (hreach_trans 0 false true); [apply about_to_pause_reachable|].
  transitivity paused; by apply quiet_script.
Defined.

Lemma thpool_pause_pauses_witness :
  added (base added_while_paused).1 = [(7, 0)] ∧
  (∀ i, (1 ≤ i < length (base paused).2)%nat → stopping paused i) ∧
  threads_on_hold added_while_paused = true ∧
  pulled (base added_while_paused).1 = pulled (base paused).1 ∧
  ran (base added_while_paused).1 = ran (base paused).1.
Proof.
  split; [vm_compute; reflexivity|].
  destruct (thpool_pause_pauses 0 2 0 about_to_pause paused added_while_paused) as [H1 H2];
    [done|apply about_to_pause_reachable|vm_compute; reflexivity|by apply quiet_script|vm_compute; reflexivity..|].
  split; [done|]. apply H2; [apply (bool_decide_unpack _); vm_compute; reflexivity|vm_compute; reflexivity|
    by apply quiet_script].
Defined.

(** One worker, put on hold while it pulls a job; a second job is to be added. *)
Definition held_in_pull : hconfig tpool tlocal :=
  hrun 1 (hgo 0 2 ++ hgo 1 3 ++ hgo 0 1 ++ Exec (Run 0 (CallAdd (7, 0) (Some 10%nat)) 0) :: hgo 0 6 ++ hgo 1 9 ++
          [CallPause 0; Pause 0; Pause 0; Deliver 1; Pause 0]) (hinit 0 1).
Definition add_blocked : hconfig tpool tlocal :=
  hrun 1 [Exec (Run 0 (CallAdd (8, 0) (Some 11%nat)) 0)] held_in_pull.

Lemma thread_on_hold_blocks_witness :
  (base add_blocked).2 = [AddLock 11; PullJob] ∧
  (holds_rw PullJob = true → added (base add_blocked).1 = added (base held_in_pull).1 ∧
                             pulled (base add_blocked).1 = pulled (base held_in_pull).1) ∧
  (alive PullJob = true → freed (base add_blocked).1 = false).
Proof.
  split; [vm_compute; reflexivity|].
  apply (thread_on_hold_blocks 0 1 1 PullJob held_in_pull add_blocked);
    [done|by apply pause_any_script|vm_compute; reflexivity| |vm_compute; reflexivity|by apply quiet_script].
  apply (bool_decide_unpack _). vm_compute. reflexivity.
Defined.

(** A client pauses and resumes before the handler of the worker has run. *)
Definition signalled : hconfig tpool tlocal :=
  hrun 1 (hgo 0 2 ++ hgo 1 3 ++ hgo 0 1 ++ [CallPause 0; Pause 0; Pause 0; Pause 0]) (hinit 0 1).
Definition never_resumed : hconfig tpool tlocal :=
  hrun 1 (Deliver 1 :: Exec (Run 0 (CallAdd (7, 0) (Some 10%nat)) 0) :: hgo 0 6) (thpool_resume signalled).

(** A resume can come too early.  The handler sets [threads_on_hold] itself:
    a configuration can be reached in which a client has paused the pool and
    resumed it, both calls have returned, and the worker, whose handler runs
    after that, is on hold; a job added then is never executed, unless the client
    resumes again. *)
Theorem resume_before_the_handler :
  ∃ c1 c2 c3, hreach 0 false (hinit 0 1) c1 ∧ pausing c1 = ∅ ∧ hexec 1 (CallResume 0) c1 = Done c2 ∧
    hreach 0 true c2 c3 ∧ added (base c3).1 = [(7, 0)] ∧
    ∀ c4, hreach 0 true c3 c4 → ran (base c4).1 = [].
Proof.
  assert (hreach 0 false (hinit 0 1) signalled) as H1 by (by apply pause_any_script).
  assert (hreach 0 true (thpool_resume signalled) never_resumed) as H3 by (by apply quiet_script).
  assert (hexec 1 (CallResume 0) signalled = Done (thpool_resume signalled)) as H2.
  { unfold hexec. assert (idle_client signalled 0 = true) as -> by (vm_compute; reflexivity). done. }
  exists signalled, (thpool_resume signalled), never_resumed. split_and!; [done| |done|done|vm_compute; reflexivity|].
  - vm_compute. reflexivity.
  - intros c4 H4. destruct (all_on_hold_run 0 never_resumed c4) as [_ ->]; [|..|done|vm_compute; reflexivity].
    + apply (hreach_safe 0 1 false); [done|]. eapply (hreach_trans 0 false true); [|exact H3].
      eapply rtc_r; [exact H1|]. by eapply (hstep_exec 1 threads_start false (CallResume 0)).
    + split_and!; [vm_compute; reflexivity..|]. assert (length (base never_resumed).2 = 2%nat) as -> by (vm_compute; reflexivity).
      intros i Hi. assert (i = 1%nat) as -> by lia. apply (bool_decide_unpack _). vm_compute. reflexivity.
Qed.
