(* ===== verification/CppPool.v ===== *)
(** * ThreadPool.cpp: the object and its methods

    The Windows thread pool of [threadpool/threadPool2/ThreadPool.cpp] (and of
    its identical copy in [ThreadPoolDemo]): the critical section, the
    semaphore, the fields of [TP::ThreadPool] and one definition for each of
    its methods, by the thread that calls it.  The threads are in
    [CppPoolRun]. *)

From S2P Require Import Prelude.
Open Scope Z_scope.

(** ** Critical sections

    [SyncObject]: a critical section may be entered again by its owner. *)

Inductive SyncObject : Type :=
  | Unowned
  | Owned (thread depth : nat).

#[export] Instance SyncObject_eq_dec : EqDecision SyncObject.
Proof. solve_decision. Defined.

Definition Lock (t : nat) (c : SyncObject) : res SyncObject :=
  match c with
  | Unowned => Done (Owned t 1)
  | Owned t' d => if decide (t = t') then Done (Owned t (S d)) else Blocked
  end.

Definition Unlock (t : nat) (c : SyncObject) : res SyncObject :=
  match c with
  | Owned t' (S d) =>
      if decide (t = t') then Done (match d with O => Unowned | _ => Owned t d end) else Fault
  | _ => Fault
  end.

(** ** The semaphore *)

Record semaphore : Type := Semaphore { sem_count : Z; sem_max : Z }.

(** [CreateSemaphore] with a count of zero. *)
Definition CreateSemaphore (granted : bool) (maximum : Z) : option semaphore :=
  if granted && (0 <? maximum) then Some (Semaphore 0 maximum) else None.

(** [ReleaseSemaphore]: it fails, and changes nothing, when the count would
    exceed the maximum, or on a handle that is not one. *)
Definition ReleaseSemaphore (h : option semaphore) (n : Z) : option semaphore :=
  match h with
  | Some s =>
      if (0 <? n) && (sem_count s + n <=? sem_max s) then Some (Semaphore (sem_count s + n) (sem_max s))
      else None
  | None => None
  end.

(** ** The object *)

(** [unsigned short] arithmetic. *)
Definition ushort (z : Z) : Z := z mod 65536.

(** The fields of the class; [m_phThreadList] holds the handles created so far,
    as the numbers of the threads.  [posted], [popped] and [executed] are
    history. *)
Record ThreadPool : Type := MkThreadPool {
  m_bDestroyed : bool;
  m_usThreadCount : Z;
  m_usSemaphoreCount : Z;
  m_lActiveThread : Z;
  m_usPendingReqCount : Z;
  m_hSemaphore : option semaphore;
  m_phThreadList : option (list nat);
  m_RequestQueue : list nat;
  m_LockWorkerThread : SyncObject;
  posted : list nat;
  popped : list nat;
  executed : list nat
}.

(** The constructor. *)
Definition new_ThreadPool : ThreadPool :=
  MkThreadPool false 0 0 0 0 None None [] Unowned [] [] [].

Definition set_destroyed (b : bool) (s : ThreadPool) : ThreadPool :=
  MkThreadPool b (m_usThreadCount s) (m_usSemaphoreCount s) (m_lActiveThread s) (m_usPendingReqCount s)
    (m_hSemaphore s) (m_phThreadList s) (m_RequestQueue s) (m_LockWorkerThread s)
    (posted s) (popped s) (executed s).
Definition set_counts (n sem act pend : Z) (s : ThreadPool) : ThreadPool :=
  MkThreadPool (m_bDestroyed s) n sem act pend
    (m_hSemaphore s) (m_phThreadList s) (m_RequestQueue s) (m_LockWorkerThread s)
    (posted s) (popped s) (executed s).
Definition set_handles (h : option semaphore) (l : option (list nat)) (s : ThreadPool) : ThreadPool :=
  MkThreadPool (m_bDestroyed s) (m_usThreadCount s) (m_usSemaphoreCount s) (m_lActiveThread s)
    (m_usPendingReqCount s) h l (m_RequestQueue s) (m_LockWorkerThread s)
    (posted s) (popped s) (executed s).
Definition set_requests (q post pop exe : list nat) (s : ThreadPool) : ThreadPool :=
  MkThreadPool (m_bDestroyed s) (m_usThreadCount s) (m_usSemaphoreCount s) (m_lActiveThread s)
    (m_usPendingReqCount s) (m_hSemaphore s) (m_phThreadList s) q (m_LockWorkerThread s) post pop exe.
Definition set_lock (c : SyncObject) (s : ThreadPool) : ThreadPool :=
  MkThreadPool (m_bDestroyed s) (m_usThreadCount s) (m_usSemaphoreCount s) (m_lActiveThread s)
    (m_usPendingReqCount s) (m_hSemaphore s) (m_phThreadList s) (m_RequestQueue s) c
    (posted s) (popped s) (executed s).

Definition set_semaphore_count (v : Z) (s : ThreadPool) : ThreadPool :=
  set_counts (m_usThreadCount s) (ushort v) (m_lActiveThread s) (m_usPendingReqCount s) s.
Definition set_active (v : Z) (s : ThreadPool) : ThreadPool :=
  set_counts (m_usThreadCount s) (m_usSemaphoreCount s) (ushort v) (m_usPendingReqCount s) s.
Definition set_pending (v : Z) (s : ThreadPool) : ThreadPool :=
  set_counts (m_usThreadCount s) (m_usSemaphoreCount s) (m_lActiveThread s) (ushort v) s.
Definition set_semaphore (h : option semaphore) (s : ThreadPool) : ThreadPool :=
  set_handles h (m_phThreadList s) s.

(** What a method does to the object: its result and the object it leaves. *)
Definition method (A : Type) : Type := ThreadPool → res (A * ThreadPool).

(** [AutoLock] around a block. *)
Definition AutoLock {A} (t : nat) (block : method A) : method A := λ s,
  c ← Lock t (m_LockWorkerThread s);
  '(a, s1) ← block (set_lock c s);
  c1 ← Unlock t (m_LockWorkerThread s1);
  Done (a, set_lock c1 s1).

(** ** Methods called by the workers *)

Definition NotifyThread (t : nat) : method bool := AutoLock t (λ s,
  match ReleaseSemaphore (m_hSemaphore s) 1 with
  | None => Done (false, s)
  | Some h => Done (true, set_semaphore_count (m_usSemaphoreCount s + 1) (set_semaphore (Some h) s))
  end).

(** [std::list::remove] takes every occurrence of the request out. *)
Definition PopRequest (t : nat) : method (option nat) := AutoLock t (λ s,
  match m_RequestQueue s with
  | [] => Done (None, s)
  | r :: q =>
      Done (Some r, set_requests (filter (λ r', r' ≠ r) (r :: q)) (posted s) (popped s ++ [r]) (executed s) s)
  end).

Definition IsDestroyed (t : nat) : method bool := AutoLock t (λ s, Done (m_bDestroyed s, s)).
Definition SetDestroyFlag (t : nat) (flag : bool) : method unit :=
  AutoLock t (λ s, Done (tt, set_destroyed flag s)).

(** [WaitForRequest] after the wait on the semaphore. *)
Definition WaitForRequest_counted (t : nat) : method unit :=
  AutoLock t (λ s, Done (tt, set_semaphore_count (m_usSemaphoreCount s - 1) s)).

(** The constructor and the destructor of [AutoCounter]. *)
Definition AutoCounter_inc (t : nat) : method unit :=
  AutoLock t (λ s, Done (tt, set_active (m_lActiveThread s + 1) s)).
Definition AutoCounter_dec (t : nat) : method unit :=
  AutoLock t (λ s, Done (tt, set_active (m_lActiveThread s - 1) s)).

(** The end of an iteration of [ProcessRequests]: a request that was left
    pending is announced. *)
Definition announce_pending (t : nat) : method unit := AutoLock t (λ s,
  if (0 <? m_usPendingReqCount s) && (m_usSemaphoreCount s <? m_usThreadCount s) then
    '(ok, s1) ← NotifyThread t s;
    Done (tt, if ok : bool then set_pending (m_usPendingReqCount s1 - 1) s1 else s1)
  else Done (tt, s)).

(** ** Methods called by the users *)

(** [PostRequest]; [memory] tells whether [push_back] finds memory: the
    exception it throws otherwise is caught. *)
Definition PostRequest (t : nat) (memory : bool) (r : nat) : method bool := AutoLock t (λ s,
  match m_phThreadList s with
  | None => Done (false, s)
  | Some _ =>
      if memory then
        let s1 := set_requests (m_RequestQueue s ++ [r]) (posted s ++ [r]) (popped s) (executed s) s in
        if m_usSemaphoreCount s1 <? m_usThreadCount s1 then
          '(ok, s2) ← NotifyThread t s1;
          if ok : bool then Done (true, s2) else Done (false, set_pending (m_usPendingReqCount s2 + 1) s2)
        else Done (true, set_pending (m_usPendingReqCount s1 + 1) s1)
      else Done (false, s)
  end).

(** [Create] up to the creation of the threads, with the allocation of the array
    of handles in [AddThreads]: whether the threads can be created. *)
Definition Create_checks (n : Z) (granted memory : bool) (s : ThreadPool) : bool * ThreadPool :=
  match m_phThreadList s with
  | Some _ => (false, s)
  | None =>
      if (n =? 0) || (64 <? n) then (false, s)
      else
        match CreateSemaphore granted n with
        | None => (false, set_handles None None (set_counts 0 0 0 0 s))
        | Some h =>
            (memory, set_handles (Some h) (if memory then Some [] else None) (set_counts n 0 0 0 s))
        end
  end.

(** [AddThreads]: one thread more. *)
Definition AddThreads_one (handle : nat) (s : ThreadPool) : ThreadPool :=
  match m_phThreadList s with
  | Some hs => set_handles (m_hSemaphore s) (Some (hs ++ [handle])) s
  | None => s
  end.

Definition CancelRequests (t : nat) : method unit :=
  AutoLock t (λ s, Done (tt, set_requests [] (posted s) (popped s) (executed s) s)).

(** The block of [Destroy] that releases the semaphore. *)
Definition Destroy_release (t : nat) : method bool := AutoLock t (λ s,
  if m_lActiveThread s <? m_usThreadCount s then
    match ReleaseSemaphore (m_hSemaphore s) (m_usThreadCount s - m_lActiveThread s) with
    | None => Done (false, s)
    | Some h => Done (true, set_semaphore (Some h) s)
    end
  else Done (true, s)).

(** [DestroyPool]; [exited] tells which threads have terminated.  When a thread
    could not be created its handle is [NULL], on which the wait fails, and the
    rest of the array holds no handles. *)
Definition DestroyPool (exited : nat → bool) : method bool := λ s,
  match m_phThreadList s with
  | None => Fault
  | Some hs =>
      if Z.of_nat (length hs) =? m_usThreadCount s then
        if forallb exited hs then
          Done (true, set_handles None None (set_requests [] (posted s) (popped s) (executed s) s))
        else Blocked
      else if Z.of_nat (length hs) + 1 =? m_usThreadCount s then Done (false, s)
      else Fault
  end.

(** ** The methods while nobody is in a critical section

    Each of them leaves the lock as it found it; here is the rest of what they
    do, on the fields. *)

Definition pool d n sem act pend h th q po pp ex : ThreadPool :=
  MkThreadPool d n sem act pend h th q Unowned po pp ex.

Section methods.
Context (t : nat) (d : bool) (n sem act pend : Z) (h : option semaphore) (th : option (list nat)).
Context (q po pp ex : list nat).
#[local] Abbreviation self := (pool d n sem act pend h th q po pp ex).

Ltac run_method :=
  unfold pool, AutoLock, NotifyThread, AutoLock; cbn;
  repeat (rewrite ?(decide_True (P := t = t)) by done; cbn; try done; case_match; try done).

Lemma PostRequest_free memory r :
  PostRequest t memory r self =
    match th with
    | None => Done (false, self)
    | Some _ =>
        if memory then
          if sem <? n then
            match ReleaseSemaphore h 1 with
            | None => Done (false, pool d n sem act (ushort (pend + 1)) h th (q ++ [r]) (po ++ [r]) pp ex)
            | Some h' => Done (true, pool d n (ushort (sem + 1)) act pend (Some h') th (q ++ [r]) (po ++ [r]) pp ex)
            end
          else Done (true, pool d n sem act (ushort (pend + 1)) h th (q ++ [r]) (po ++ [r]) pp ex)
        else Done (false, self)
    end.
Proof. unfold PostRequest. run_method. Qed.

Lemma PopRequest_free :
  PopRequest t self =
    match q with
    | [] => Done (None, self)
    | r :: q' => Done (Some r, pool d n sem act pend h th (filter (λ r', r' ≠ r) q') po (pp ++ [r]) ex)
    end.
Proof. unfold PopRequest. run_method. Qed.

Lemma IsDestroyed_free : IsDestroyed t self = Done (d, self).
Proof. unfold IsDestroyed. run_method. Qed.

Lemma SetDestroyFlag_free b : SetDestroyFlag t b self = Done (tt, pool b n sem act pend h th q po pp ex).
Proof. unfold SetDestroyFlag. run_method. Qed.

Lemma WaitForRequest_free :
  WaitForRequest_counted t self = Done (tt, pool d n (ushort (sem - 1)) act pend h th q po pp ex).
Proof. unfold WaitForRequest_counted. run_method. Qed.

Lemma AutoCounter_inc_free :
  AutoCounter_inc t self = Done (tt, pool d n sem (ushort (act + 1)) pend h th q po pp ex).
Proof. unfold AutoCounter_inc. run_method. Qed.

Lemma AutoCounter_dec_free :
  AutoCounter_dec t self = Done (tt, pool d n sem (ushort (act - 1)) pend h th q po pp ex).
Proof. unfold AutoCounter_dec. run_method. Qed.

Lemma announce_pending_free :
  announce_pending t self =
    if (0 <? pend) && (sem <? n) then
      match ReleaseSemaphore h 1 with
      | None => Done (tt, self)
      | Some h' => Done (tt, pool d n (ushort (sem + 1)) act (ushort (pend - 1)) (Some h') th q po pp ex)
      end
    else Done (tt, self).
Proof. unfold announce_pending. run_method. Qed.

Lemma CancelRequests_free : CancelRequests t self = Done (tt, pool d n sem act pend h th [] po pp ex).
Proof. unfold CancelRequests. run_method. Qed.

Lemma Destroy_release_free :
  Destroy_release t self =
    if act <? n then
      match ReleaseSemaphore h (n - act) with
      | None => Done (false, self)
      | Some h' => Done (true, pool d n sem act pend (Some h') th q po pp ex)
      end
    else Done (true, self).
Proof. unfold Destroy_release. run_method. Qed.
End methods.

Lemma free_pool s :
  m_LockWorkerThread s = Unowned →
  ∃ d n sem act pend h th q po pp ex, s = pool d n sem act pend h th q po pp ex.
Proof. destruct s as [d n sem act pend h th q c po pp ex]. cbn. intros ->. repeat eexists. Qed.

#[export] Hint Rewrite PostRequest_free PopRequest_free IsDestroyed_free SetDestroyFlag_free
  WaitForRequest_free AutoCounter_inc_free AutoCounter_dec_free announce_pending_free
  CancelRequests_free Destroy_release_free : study.
