(* ===== verification/CppPoolRun.v ===== *)
(** * ThreadPool.cpp: the threads

    The users of a pool and its workers ([ProcessRequests]) interleaved.  The
    fields guarded by [m_LockWorkerThread] are only touched while it is held,
    and it is only held inside one method or block, which waits for nothing:
    such a critical section is one step; the waits on the semaphore and on the
    end of the threads are steps of their own. *)

From S2P Require Import Prelude Pthread CppPool.
Open Scope Z_scope.

(** Where a thread is: a user in [Create] or [Destroy], a worker in an iteration
    of [ProcessRequests]. *)
Inductive wlocal : Type :=
  | Outside
  | Adding
  | Created
  | Cancelling
  | Flagging
  | Releasing
  | Joining
  | Waiting
  | Notified
  | Counted
  | Checked
  | Popping
  | Popped (r : nat)
  | Executed
  | Announcing
  | Leaving (again : bool)
  | Exited.

#[export] Instance wlocal_eq_dec : EqDecision wlocal.
Proof. solve_decision. Defined.

(** What the environment decides: the call of a user, failures of the calls of
    the system, the outcome of a request.  A request whose [Execute] throws is one
    whose execution fails: [ProcessRequests] catches the exception and goes on
    with its loop, after the destructor of the counter. *)
Inductive winput : Type :=
  | WGo
  | CallCreate (usThreadCount_i : Z) (granted memory : bool)
  | CallDestroy
  | CallDelete
  | CallPost (pRequest_io : nat) (memory : bool)
  | ThreadFails
  | WaitFails
  | ExecutionFails.

Definition wresult : Type := ThreadPool * wlocal * option (effect wlocal).

(** Runs a method and goes on with its result. *)
Definition after {A} (r : res (A * ThreadPool)) (next : A → wlocal) : res wresult :=
  '(a, s) ← r; Done (s, next a, None).

(** [AddThreads], after the allocation of the array: one iteration of its loop.
    When a thread cannot be created, [Create] calls [Destroy]. *)
Definition AddThreads (ls : list wlocal) (x : winput) (s : ThreadPool) : res wresult :=
  match m_phThreadList s with
  | None => Fault
  | Some hs =>
      if Z.of_nat (length hs) <? m_usThreadCount s then
        match x with
        | ThreadFails => Done (s, Cancelling, None)
        | _ => Done (AddThreads_one (length ls) s, Adding, Some (Spawn Waiting))
        end
      else Done (s, Created, None)
  end.

(** [Create]: its checks, the threads, the flag. *)
Definition Create (n : Z) (granted memory : bool) (s : ThreadPool) : res wresult :=
  let '(ok, s1) := Create_checks n granted memory s in
  Done (s1, if ok : bool then Adding else Outside, None).

Definition Create_step (ls : list wlocal) (t : nat) (x : winput) (s : ThreadPool) (l : wlocal) : res wresult :=
  match l with
  | Adding => AddThreads ls x s
  | Created => after (SetDestroyFlag t false s) (λ _, Outside)
  | _ => Blocked
  end.

(** [Destroy]: there is a pool or not; then block after block. *)
Definition Destroy (s : ThreadPool) : res wresult :=
  Done (s, match m_phThreadList s with None => Outside | Some _ => Cancelling end, None).

(** The destructor calls [Destroy] when there is a pool, and logs its failure. *)
Definition delete_ThreadPool (s : ThreadPool) : res wresult :=
  match m_phThreadList s with
  | Some _ => Destroy s
  | None => Done (s, Outside, None)
  end.

Definition Destroy_step (ls : list wlocal) (t : nat) (s : ThreadPool) (l : wlocal) : res wresult :=
  match l with
  | Cancelling => after (CancelRequests t s) (λ _, Flagging)
  | Flagging => after (SetDestroyFlag t true s) (λ _, Releasing)
  | Releasing => after (Destroy_release t s) (λ ok : bool, if ok then Joining else Outside)
  | Joining => after (DestroyPool (λ h, bool_decide (ls !! h = Some Exited)) s) (λ _, Outside)
  | _ => Blocked
  end.

(** A user.  Thread 0 owns the pool: [Create] and [Destroy] are not meant to be
    called by several threads at once, nor the object to be used after its
    destructor. *)
Definition user_step (ls : list wlocal) (t : nat) (x : winput) (s : ThreadPool) (l : wlocal) : res wresult :=
  match l with
  | Outside =>
      match x with
      | CallPost r memory => after (PostRequest t memory r s) (λ _, Outside)
      | CallCreate n granted memory => if decide (t = 0%nat) then Create n granted memory s else Blocked
      | CallDestroy => if decide (t = 0%nat) then Destroy s else Blocked
      | CallDelete => if decide (t = 0%nat) then delete_ThreadPool s else Blocked
      | _ => Blocked
      end
  | Adding | Created => Create_step ls t x s l
  | _ => Destroy_step ls t s l
  end.

(** [WaitForRequest]: the wait on the semaphore, then the counter.  When the wait
    fails [ProcessRequests] tries again. *)
Definition WaitForRequest (t : nat) (x : winput) (s : ThreadPool) (l : wlocal) : res wresult :=
  match l with
  | Waiting =>
      match x with
      | WaitFails => Done (s, Waiting, None)
      | _ =>
          match m_hSemaphore s with
          | Some h =>
              if 0 <? sem_count h then
                Done (set_semaphore (Some (Semaphore (sem_count h - 1) (sem_max h))) s, Notified, None)
              else Blocked
          | None => Done (s, Waiting, None)
          end
      end
  | Notified => after (WaitForRequest_counted t s) (λ _, Counted)
  | _ => Blocked
  end.

(** [ProcessRequests] *)
Definition ProcessRequests_step (t : nat) (x : winput) (s : ThreadPool) (l : wlocal) : res wresult :=
  match l with
  | Waiting | Notified => WaitForRequest t x s l
  | Counted => after (AutoCounter_inc t s) (λ _, Checked)
  | Checked => after (IsDestroyed t s) (λ destroyed : bool, if destroyed then Leaving false else Popping)
  | Popping => after (PopRequest t s) (λ o, match o with Some r => Popped r | None => Leaving true end)
  | Popped r =>
      let s1 := set_requests (m_RequestQueue s) (posted s) (popped s) (executed s ++ [r]) s in
      match x with
      | ExecutionFails => Done (s1, Leaving true, None)
      | _ => Done (s1, Executed, None)
      end
  | Executed => after (IsDestroyed t s) (λ destroyed : bool, if destroyed then Leaving false else Announcing)
  | Announcing => after (announce_pending t s) (λ _, Leaving true)
  | Leaving again => after (AutoCounter_dec t s) (λ _, if again then Waiting else Exited)
  | _ => Blocked
  end.

Definition winpool_step (ls : list wlocal) (t : nat) (x : winput) (s : ThreadPool) (l : wlocal) : res wresult :=
  match l with
  | Outside | Adding | Created | Cancelling | Flagging | Releasing | Joining => user_step ls t x s l
  | _ => ProcessRequests_step t x s l
  end.

#[export] Program Instance winpool_program : Program winput ThreadPool wlocal := {|
  tstep := winpool_step;
  waits_on _ := None;
  woken l := l
|}.
Next Obligation. intros ls t x s l r [c Hc]. done. Qed.
Next Obligation. done. Qed.

(** [n] users besides the owner, and a pool that has been constructed. *)
Definition winit (n : nat) : config ThreadPool wlocal := (new_ThreadPool, replicate (S n) Outside).
