(* ===== verification/CppPoolInv.v ===== *)
(** * ThreadPool.cpp: invariants

    Who is where, the accounting of the semaphore, of the active threads and of
    the pending requests, and the history of the requests, while the pool is
    not being destroyed; and what holds of the threads in any case. *)

From S2P Require Import Prelude Pthread CppPool CppPoolRun.
Open Scope Z_scope.

(** ** Classes of program points *)

Definition user (l : wlocal) : bool :=
  match l with
  | Outside | Adding | Created | Cancelling | Flagging | Releasing | Joining => true
  | _ => false
  end.
Definition adding (l : wlocal) : bool := match l with Adding => true | _ => false end.
Definition creating (l : wlocal) : bool := match l with Adding | Created => true | _ => false end.

(** In [Destroy], or on its way out after it. *)
Definition destroying (l : wlocal) : bool :=
  match l with Cancelling | Flagging | Releasing | Joining | Leaving false | Exited => true | _ => false end.

(** A worker between its wait and the decrement of [m_usSemaphoreCount]; from
    there to [PopRequest]; between the two updates of [m_lActiveThread]. *)
Definition notified (l : wlocal) : bool := match l with Notified => true | _ => false end.
Definition carrying (l : wlocal) : bool :=
  match l with Counted | Checked | Popping => true | _ => false end.
Definition active (l : wlocal) : bool :=
  match l with Checked | Popping | Popped _ | Executed | Announcing | Leaving _ => true | _ => false end.
Definition in_hand (l : wlocal) : list nat := match l with Popped r => [r] | _ => [] end.

(** The pool is not destroyed and threads can be created. *)
Definition steady (x : winput) : Prop := x ≠ CallDestroy ∧ x ≠ CallDelete ∧ x ≠ ThreadFails.
Definition anything (x : winput) : Prop := True.

(** ** Steps by program point *)

Lemma ushort_id z : 0 <= z < 65536 → ushort z = z.
Proof. intros H. unfold ushort. by apply Z.mod_small. Qed.

Ltac split_results :=
  repeat (inv_res; match goal with
    | K : (match ?x with _ => _ end) = Done _ |- _ => destruct x eqn:?; try discriminate K
    | K : (match ?x with _ => _ end) = Some _ |- _ => destruct x eqn:?; try discriminate K
    | K : (match ?x with _ => _ end) = None |- _ => destruct x eqn:?; try discriminate K
    | K : (match ?x with _ => _ end) = (_, _) |- _ => destruct x eqn:?
    | K : Some _ = Some _ |- _ => injection K as K
    | K : Some _ = None |- _ => discriminate K
    | K : None = Some _ |- _ => discriminate K
    end); inv_res; bools.

Lemma ushort_nonneg z : 0 <= ushort z.
Proof. unfold ushort. pose proof (Z.mod_pos_bound z 65536). lia. Qed.

(** Opens up the hypothesis [H] that a thread made a step while nobody is inside
    a critical section. *)
Ltac wstep_cases Hlock H :=
  let s := match type of Hlock with m_LockWorkerThread ?s = _ => s end in
  destruct (free_pool s Hlock) as (d & n & sem & act & pend & h & th & q & po & pp & ex & E); subst s; clear Hlock;
  match type of H with tstep ?ls ?t ?x ?s ?l = _ =>
    tryif is_var l then destruct l else idtac;
    cbn [tstep winpool_program winpool_step user_step ProcessRequests_step] in H;
    unfold Create_step, Create, AddThreads, Destroy_step, delete_ThreadPool, Destroy, WaitForRequest in H; cbv beta iota in H;
    unfold after, Create_checks, CreateSemaphore, AddThreads_one, DestroyPool in H;
    match type of H with context [match x with _ => _ end] => destruct x | _ => idtac end;
    autorewrite with study in H; unfold ReleaseSemaphore in H; unfold pool in H; cbn in H;
    repeat match type of H with context [if ?b then _ else _] => is_var b; destruct b; cbn in H end;
    split_results;
    unfold pool, set_handles, set_counts, set_requests, set_semaphore in *;
    cbn [m_bDestroyed m_usThreadCount m_usSemaphoreCount m_lActiveThread m_usPendingReqCount m_hSemaphore
         m_phThreadList m_RequestQueue m_LockWorkerThread posted popped executed] in *
  end.

Lemma spawn_Waiting ls t x s l s' l' k :
  m_LockWorkerThread s = Unowned → tstep ls t x s l = Done (s', l', Some (Spawn k)) →
  k = Waiting ∧ l = Adding ∧ l' = Adding.
Proof. intros Hlk H. wstep_cases Hlk H; done. Qed.

Lemma lock_free_step ls t x s l s' l' e :
  m_LockWorkerThread s = Unowned → tstep ls t x s l = Done (s', l', e) → m_LockWorkerThread s' = Unowned.
Proof. intros Hlk H. wstep_cases Hlk H; done. Qed.

Section invariants.
Context (N : nat).

(** Users are the first [N] threads; only the owner creates and destroys. *)
Definition wrole (t : nat) (l : wlocal) : Prop :=
  if user l then (t < N)%nat ∧ (l = Outside ∨ t = 0%nat) else (N ≤ t)%nat.

(** A worker of a pool is in its list, or has terminated. *)
Definition listed (s : ThreadPool) (t : nat) (l : wlocal) : Prop :=
  user l = true ∨ l = Exited ∨ ∃ hs, m_phThreadList s = Some hs ∧ t ∈ hs.

Record threads_inv (s : ThreadPool) (ls : list wlocal) : Prop := ThreadsInv {
  ti_lock : m_LockWorkerThread s = Unowned;
  ti_size : (0 < N ≤ length ls)%nat;
  ti_role : ∀ t l, ls !! t = Some l → wrole t l;
  ti_listed : ∀ t l, ls !! t = Some l → listed s t l;
  ti_creating : ∀ t l, ls !! t = Some l → creating l = true → ∃ hs, m_phThreadList s = Some hs
}.

(** What a step does to the list of threads. *)
Lemma list_step ls t x s l s' l' e :
  m_LockWorkerThread s = Unowned → tstep ls t x s l = Done (s', l', e) →
  m_phThreadList s' = m_phThreadList s ∨
  (m_phThreadList s = None ∧ l = Outside) ∨
  (∃ hs, m_phThreadList s = Some hs ∧ m_phThreadList s' = Some (hs ++ [length ls]) ∧ e = Some (Spawn Waiting)) ∨
  (∃ hs, m_phThreadList s = Some hs ∧ m_phThreadList s' = None ∧ l = Joining ∧ l' = Outside ∧ m_RequestQueue s' = [] ∧
         popped s' = popped s ∧ executed s' = executed s ∧ ∀ h, h ∈ hs → ls !! h = Some Exited).
Proof.
  intros Hlk H. wstep_cases Hlk H; auto; try (by eauto 10).
  right; right; right. eexists. split_and!; try done. intros h0 Hh.
  match goal with K : forallb _ _ = true |- _ => rewrite forallb_forall in K;
    apply list_elem_of_In, K, bool_decide_eq_true_1 in Hh end. done.
Qed.

Lemma creating_step ls t x s l s' l' e :
  m_LockWorkerThread s = Unowned → tstep ls t x s l = Done (s', l', e) → creating l' = true →
  (creating l = true → ∃ hs, m_phThreadList s = Some hs) → ∃ hs, m_phThreadList s' = Some hs.
Proof. intros Hlk H Hc Hk. wstep_cases Hlk H; cbn in *; try discriminate; eauto. Qed.

Lemma role_step ls t x s l s' l' e :
  m_LockWorkerThread s = Unowned → tstep ls t x s l = Done (s', l', e) → wrole t l → wrole t l'.
Proof. intros Hlk H Hr. wstep_cases Hlk H; unfold wrole in *; cbn in *; intuition congruence. Qed.

Lemma listed_step ls t x s l s' l' e :
  m_LockWorkerThread s = Unowned → tstep ls t x s l = Done (s', l', e) → user l = user l' ∧ (l = Exited → l' = Exited).
Proof. intros Hlk H. wstep_cases Hlk H; done. Qed.

Lemma threads_inv_step s ls s' ls' :
  threads_inv s ls → step anything (s, ls) (s', ls') → threads_inv s' ls'.
Proof.
  intros Hinv Hstep. destruct (Hinv) as [Hlk Hsz Hr Hli Had].
  assert (length ls ≤ length ls')%nat as Hlen.
  { apply step_inv in Hstep as [(t & x & l & l' & e & _ & _ & _ & He)|(t & l & _ & _ & [] & _)]; [|done].
    apply effect_on_length in He. rewrite length_insert in He. lia. }
  split.
  - apply step_inv in Hstep as [(t & x & l & l' & e & _ & _ & Hs & _)|(t & l & _ & _ & [] & _)]; [|done].
    by eapply lock_free_step.
  - lia.
  - refine (forall_threads_step (λ _ t l, wrole t l) anything s ls s' ls' Hr Hstep _ _); [|by intros t l []].
    intros t x l l' e _ Hl Hs. split_and!; [eapply role_step; eauto|eauto|].
    intros k ->. destruct (spawn_Waiting _ _ _ _ _ _ _ _ Hlk Hs) as [-> _]. unfold wrole. cbn. lia.
  - refine (forall_threads_step listed anything s ls s' ls' Hli Hstep _ _); [|by intros t l []].
    intros t x l l' e _ Hl Hs.
    destruct (listed_step _ _ _ _ _ _ _ _ Hlk Hs) as [Hu Hx].
    assert (∀ t' l0, ls !! t' = Some l0 → listed s' t' l0) as Hkeep.
    { intros t' l0 Hl0. destruct (Hli _ _ Hl0) as [?|[?|(hs & Hhs & Hin)]]; [by left|by right; left|].
      destruct (list_step _ _ _ _ _ _ _ _ Hlk Hs) as [E|[[E _]|[(hs' & E & E' & _)|(hs' & E & _ & _ & _ & _ & _ & _ & Hex)]]].
      - right; right. exists hs. by rewrite E.
      - congruence.
      - right; right. simplify_eq. exists (hs ++ [length ls]). split; [done|]. set_solver.
      - right; left. simplify_eq. specialize (Hex _ Hin). congruence. }
    split_and!.
    + destruct (Hkeep _ _ Hl) as [?|[->|?]]; [left; congruence|right; left; auto|right; right; done].
    + intros t' l0 _ Hl0. by apply Hkeep.
    + intros k ->. destruct (spawn_Waiting _ _ _ _ _ _ _ _ Hlk Hs) as (-> & -> & ->).
      right; right. destruct (Had _ _ Hl eq_refl) as [hs Hhs].
      destruct (list_step _ _ _ _ _ _ _ _ Hlk Hs) as [Hsame|[[E _]|[(hs' & E & E' & _)|(hs' & E & _ & E' & _)]]];
        [|congruence| |done].
      * exfalso. clear - Hs Hsame Hlk. wstep_cases Hlk Hs; injection Hsame as Hsame;
          apply (f_equal length) in Hsame; rewrite length_app in Hsame; cbn in Hsame; lia.
      * simplify_eq. exists (hs ++ [length ls]). split; [done|]. set_solver.
  - refine (forall_threads_step (λ s _ l, creating l = true → ∃ hs, m_phThreadList s = Some hs)
              anything s ls s' ls' Had Hstep _ _); [|by intros ? ? []].
    intros t0 x l l' e _ Hl0 Hs. split_and!.
    + intros Hc. eapply creating_step; eauto.
    + intros t' l0 Ht Hl' Hc. pose proof (Hr _ _ Hl') as Hr'. pose proof (Hr _ _ Hl0) as Hr0.
      destruct (Had _ _ Hl' Hc) as [hs Hhs].
      destruct (list_step _ _ _ _ _ _ _ _ Hlk Hs) as [E|[[E _]|[(hs' & E & E' & _)|(hs' & E & E' & -> & _)]]];
        [rewrite E; eauto|congruence|eauto|].
      unfold wrole in *. destruct l0; cbn in *; naive_solver lia.
    + intros k ->. by destruct (spawn_Waiting _ _ _ _ _ _ _ _ Hlk Hs) as (-> & _).
Qed.

Lemma threads_inv_init : (0 < N)%nat → threads_inv new_ThreadPool (replicate N Outside).
Proof.
  intros HN. split; [done|rewrite length_replicate; lia|..].
  - intros t l [-> ?]%lookup_replicate. unfold wrole. cbn. eauto.
  - intros t l [-> ?]%lookup_replicate. by left.
  - by intros t l [-> ?]%lookup_replicate.
Qed.
End invariants.
