(* ===== verification/CppPoolAcc.v ===== *)
(** * ThreadPool.cpp: the accounting of a pool that is not being destroyed

    [m_usSemaphoreCount] is the count of the semaphore and the workers that are
    about to subtract themselves, [m_lActiveThread] the workers inside an
    iteration, and each request in the queue is announced on the semaphore, or
    pending, or about to be popped. *)

From S2P Require Import Prelude Pthread CppPool CppPoolRun CppPoolInv.
Open Scope Z_scope.

(** The number of threads in a class. *)
Definition number (f : wlocal → bool) (ls : list wlocal) : Z := Z.of_nat (count_if f ls).

(** No request is posted twice, and fewer of them than a counter can hold. *)
Definition distinct (s : ThreadPool) : Prop := NoDup (posted s).
Definition few (s : ThreadPool) : Prop := Z.of_nat (length (posted s)) < 65536.

Record created (N : nat) (s : ThreadPool) (ls : list wlocal) (hs : list nat) : Prop := CreatedInv {
  cr_threads : length ls = (N + length hs)%nat;
  cr_count : 1 <= m_usThreadCount s <= 64 ∧ Z.of_nat (length hs) <= m_usThreadCount s;
  cr_complete : count_if adding ls = 0%nat → Z.of_nat (length hs) = m_usThreadCount s;
  cr_semaphore : ∃ k, m_hSemaphore s = Some (Semaphore k (m_usThreadCount s)) ∧ 0 <= k ∧
    m_usSemaphoreCount s = k + number notified ls ∧ m_usSemaphoreCount s <= m_usThreadCount s;
  cr_active : m_lActiveThread s = number active ls;
  cr_pending : 0 <= m_usPendingReqCount s;
  cr_history : distinct s → posted s = popped s ++ m_RequestQueue s ∧
    popped s ≡ₚ executed s ++ gather in_hand ls;
  cr_queue : distinct s → few s → Z.of_nat (length (m_RequestQueue s)) =
    m_usSemaphoreCount s + m_usPendingReqCount s + number carrying ls
}.

Record uncreated (N : nat) (s : ThreadPool) (ls : list wlocal) : Prop := UncreatedInv {
  un_threads : length ls = N;
  un_requests : m_RequestQueue s = [] ∧ posted s = [] ∧ popped s = [] ∧ executed s = []
}.

Record accounting (N : nat) (s : ThreadPool) (ls : list wlocal) : Prop := Accounting {
  ac_threads : threads_inv N s ls;
  ac_flag : m_bDestroyed s = false;
  ac_quiet : count_if destroying ls = 0%nat;
  ac_phase : match m_phThreadList s with Some hs => created N s ls hs | None => uncreated N s ls end
}.

Section accounting.
Context (N : nat).

Lemma pool_workers_bound s ls f :
  threads_inv N s ls → (∀ l, f l = true → user l = false) → (count_if f ls ≤ length ls - N)%nat.
Proof.
  intros Hti Hf. pose proof (ti_size _ _ _ Hti). apply count_if_tail; [lia|].
  intros i l Hl Hi. pose proof (ti_role _ _ _ Hti _ _ Hl) as Hr. unfold wrole in Hr. by rewrite Hf in Hr.
Qed.

(** Without a pool every thread is outside. *)
Lemma uncreated_outside s ls t l :
  accounting N s ls → m_phThreadList s = None → ls !! t = Some l → l = Outside.
Proof.
  intros [Hti _ Hq Hph] Hn Hl. rewrite Hn in Hph. destruct Hph as [Hlen _].
  pose proof (ti_role _ _ _ Hti _ _ Hl) as Hr. unfold wrole in Hr.
  rewrite count_if_zero in Hq. specialize (Hq _ _ Hl). pose proof (lookup_lt_Some _ _ _ Hl) as Hlt.
  pose proof (ti_creating _ _ _ Hti _ _ Hl) as Hc.
  destruct l; cbn in *; try done; try lia; destruct Hc as [? ?]; congruence.
Qed.

Lemma filter_fresh (r : nat) (q : list nat) : r ∉ q → filter (λ r', r' ≠ r) q = q.
Proof.
  intros Hr. induction q as [|a q IH]; [done|].
  rewrite filter_cons_True by set_solver. f_equal. apply IH. set_solver.
Qed.

(** The steps of the owner that create a pool. *)
Lemma create_run s ls t x l s' l' e ls' :
  accounting N s ls → m_phThreadList s = None → steady x →
  ls !! t = Some l → tstep ls t x s l = Done (s', l', e) → effect_on e (<[t := l']> ls) ls' →
  match m_phThreadList s' with Some hs => created N s' ls' hs | None => uncreated N s' ls' end ∧
  m_bDestroyed s' = false ∧ count_if destroying ls' = 0%nat.
Proof.
  intros Hac Hn (Hx1 & Hx2 & Hx3) Hl Hs He.
  pose proof (uncreated_outside s ls t l Hac Hn Hl) as ->.
  assert (∀ f, f Outside = false → count_if f ls = 0%nat) as Hz.
  { intros f Hf. apply count_if_zero. intros i k Hk. by rewrite (uncreated_outside s ls i k Hac Hn Hk). }
  assert (∀ f, f Outside = false → f l' = false → count_if f (<[t := l']> ls) = 0%nat) as Hz'.
  { intros f Hf Hf'. pose proof (count_if_insert f _ _ _ l' Hl) as Hc. rewrite Hz, Hf, Hf' in Hc by done.
    cbn in Hc. lia. }
  assert (∀ B (g : wlocal → list B), g Outside = [] → g l' = [] → gather g (<[t := l']> ls) = []) as Hg.
  { intros B g H1 H2. apply gather_nil. intros i k Hk. destruct (decide (i = t)) as [->|Hne].
    - rewrite list_lookup_insert_eq in Hk by (by eapply lookup_lt_Some). by simplify_eq.
    - rewrite list_lookup_insert_ne in Hk by done. by rewrite (uncreated_outside s ls i k Hac Hn Hk). }
  destruct Hac as [Hti Hfl Hq Hph]. rewrite Hn in Hph. destruct Hph as [Hlen (Hrq & Hp1 & Hp2 & Hp3)].
  pose proof (ti_lock _ _ _ Hti) as Hlk. clear Hti.
  wstep_cases Hlk Hs; subst; try done; inversion He; subst ls';
    try (split_and!; [split; [rewrite length_insert; done|done]|done|by apply Hz']).
  split_and!; [|done|by apply Hz'].
  split; cbn; unfold number; rewrite ?length_insert, ?Hz', ?Hg by done; try done; try lia.
  - intros Hc. pose proof (count_if_insert adding _ _ _ Adding Hl) as Hi. cbn in Hi. lia.
  - exists 0. split_and!; try done; lia.
Qed.

(** A worker's iteration, and the users that post requests. *)
Lemma created_run s ls t x l s' l' e ls' hs :
  accounting N s ls → m_phThreadList s = Some hs → steady x →
  ls !! t = Some l → tstep ls t x s l = Done (s', l', e) → effect_on e (<[t := l']> ls) ls' →
  m_bDestroyed s' = false ∧ count_if destroying ls' = 0%nat ∧
  ∃ hs', m_phThreadList s' = Some hs' ∧ created N s' ls' hs'.
Proof.
  intros Hac Hsome (Hx1 & Hx2 & Hx3) Hl Hs He. destruct Hac as [Hti Hfl Hq Hph]. rewrite Hsome in Hph.
  destruct Hph as [Hlen Hcnt Hcomp (k & Hsem & Hk & Hks & Hkn) Hact Hpend Hhist Hqueue].
  pose proof (ti_lock _ _ _ Hti) as Hlk.
  pose proof (pool_workers_bound s ls active Hti (λ l, ltac:(by destruct l))) as Hba.
  assert (∀ (f : wlocal → bool) (l : wlocal), is_Some (waits_on l) → f (woken l) = f l) as Hnw by done.
  pose proof (count_step destroying _ _ _ _ _ _ (Hnw _) Hl He) as Hcd.
  pose proof (count_step adding _ _ _ _ _ _ (Hnw _) Hl He) as Hca.
  pose proof (count_step notified _ _ _ _ _ _ (Hnw _) Hl He) as Hcn.
  pose proof (count_step active _ _ _ _ _ _ (Hnw _) Hl He) as Hcx.
  pose proof (count_step carrying _ _ _ _ _ _ (Hnw _) Hl He) as Hcc.
  pose proof (count_if_pos destroying _ _ _ Hl) as Hpd.
  assert (∀ l, is_Some (waits_on l) → in_hand (woken l) = in_hand l) as Hnh by done.
  pose proof (gather_step in_hand _ _ _ _ _ _ Hnh Hl He) as Hg.
  apply effect_on_length in He. rewrite length_insert in He.
  unfold number, distinct, few, spawned in *. clear Hnw Hnh Hti.
  wstep_cases Hlk Hs; subst.
  all: try discriminate; cbn in *; simplify_eq; cbn in *; rewrite ?app_nil_r in Hg;
    try (specialize (Hpd eq_refl)); try (exfalso; lia).
  all: split_and!; [done|lia|eexists; split; [done|]].
  all: split; cbn; unfold number, distinct, few; cbn; rewrite ?length_app; cbn;
    auto using ushort_nonneg; try lia; rewrite ?ushort_id by lia; auto; try lia.
  all: try (eexists; split; [done|]; lia).
  all: intros Hd; assert (NoDup po) as Hd0 by (first [done | by apply NoDup_app in Hd as [? _]]);
    destruct (Hhist Hd0) as [Hpo Hpp].
  all: try (intros Hfew; specialize (Hqueue Hd0 ltac:(lia)); apply (f_equal length) in Hpo;
    rewrite length_app in Hpo; rewrite ?ushort_id by lia; lia).
  all: try (split; [by rewrite ?Hpo, ?app_assoc|by rewrite Hpp, Hg]).
  all: try (split; [done|]; by rewrite Hpp, <- Hg, <- app_assoc).
  all: match type of Hpo with _ = _ ++ ?r :: ?q =>
      assert (r ∉ q) as Hr by (rewrite Hpo in Hd; apply NoDup_app in Hd as (_ & _ & [? _]%NoDup_cons); done)
    end; rewrite (filter_fresh _ _ Hr).
  - split; [by rewrite Hpo, <- app_assoc|]. rewrite Hpp, Hg, <- app_assoc. apply Permutation_app_head, Permutation_app_comm.
  - intros Hfew. specialize (Hqueue Hd0 ltac:(lia)). lia.
Qed.

Lemma accounting_step s ls s' ls' :
  accounting N s ls → step steady (s, ls) (s', ls') → accounting N s' ls'.
Proof.
  intros Hac Hstep.
  assert (threads_inv N s' ls') as Hti by (eapply threads_inv_step; [apply Hac|by eapply step_mono]).
  apply step_inv in Hstep as [(t & x & l & l' & e & Hx & Hl & Hs & He)|(t & l & _ & _ & [] & _)]; [|done].
  destruct (m_phThreadList s) as [hs|] eqn:Hth.
  - destruct (created_run _ _ _ _ _ _ _ _ _ _ Hac Hth Hx Hl Hs He) as (? & ? & hs' & Hth' & ?).
    split; [done..|]. by rewrite Hth'.
  - destruct (create_run _ _ _ _ _ _ _ _ _ Hac Hth Hx Hl Hs He) as (? & ? & ?). by split.
Qed.

Lemma accounting_init : (0 < N)%nat → accounting N new_ThreadPool (replicate N Outside).
Proof.
  intros HN. split; [by apply threads_inv_init|done|by apply count_if_replicate|].
  split; [apply length_replicate|done].
Qed.
End accounting.

Lemma reachable_accounting n s ls : reachable steady (winit n) (s, ls) → accounting (S n) s ls.
Proof.
  intros H. apply (invariant_reachable steady (λ cf, accounting (S n) cf.1 cf.2)) in H; [done| |].
  - apply accounting_init. lia.
  - intros [s1 ls1] [s2 ls2]. apply accounting_step.
Qed.

Lemma reachable_threads n s ls : reachable anything (winit n) (s, ls) → threads_inv (S n) s ls.
Proof.
  intros H. apply (invariant_reachable anything (λ cf, threads_inv (S n) cf.1 cf.2)) in H; [done| |].
  - apply threads_inv_init. lia.
  - intros [s1 ls1] [s2 ls2]. apply threads_inv_step.
Qed.
