(* ===== verification/CppPoolProps.v ===== *)
(** * ThreadPool.cpp: properties *)

From S2P Require Import Prelude Pthread CppPool CppPoolRun CppPoolInv CppPoolAcc.
Open Scope Z_scope.

(** ** Scripts of events for the witnesses *)

Definition go (t n : nat) : list (event winput) := replicate n (Run t WGo 0).

(** The owner creates a pool of [n] workers. *)
Definition create_with (n : nat) : list (event winput) :=
  Run 0 (CallCreate (Z.of_nat n) true true) 0 :: go 0 (n + 2).

Definition no_destroy (x : winput) : bool := match x with CallDestroy | CallDelete | ThreadFails => false | _ => true end.

Lemma steady_script evs cf :
  forallb (event_okb no_destroy) evs = true → reachable steady cf ((final evs cf).1, (final evs cf).2).
Proof. apply final_reachable. by intros [] ?. Qed.

Lemma anything_script evs cf :
  forallb (event_okb (λ _, true)) evs = true → reachable anything cf ((final evs cf).1, (final evs cf).2).
Proof. by apply final_reachable. Qed.

(** ** The accounting *)


(** Two workers; three requests, of which one is pending; the first worker is in
    its iteration. *)
Definition busy_pool : config ThreadPool wlocal :=
  final (create_with 2 ++ [Run 0 (CallPost 7 true) 0; Run 0 (CallPost 8 true) 0; Run 0 (CallPost 9 true) 0] ++
         go 1 3) (winit 0).


(** ** The requests *)

Lemma fault_inv ls t x s l :
  m_LockWorkerThread s = Unowned → tstep ls t x s l = Fault →
  l = Joining ∨ (l = Adding ∧ m_phThreadList s = None).
Proof.
  intros Hlk H. destruct (free_pool s Hlk) as (d & n & sem & act & pend & h & th & q & po & pp & ex & ->).
  destruct l; auto; right;
    cbn [tstep winpool_program winpool_step user_step ProcessRequests_step] in H;
    unfold Create_step, Create, AddThreads, Destroy_step, delete_ThreadPool, Destroy, WaitForRequest in H; cbv beta iota in H; unfold after, Create_checks in H;
    try (match type of H with context [match x with _ => _ end] => destruct x end);
    autorewrite with study in H; unfold pool in H; cbn in H; repeat case_match; try discriminate; done.
Qed.

Lemma steady_no_fault N s ls t : accounting N s ls → ¬ can_fault steady (s, ls) t.
Proof.
  intros [Hti _ Hq _] Hf. apply can_fault_inv in Hf as (l & x & Hl & _ & Hf).
  apply fault_inv in Hf as [->|[-> Hn]]; [| |apply Hti].
  - pose proof (count_if_pos destroying _ _ _ Hl eq_refl). lia.
  - destruct (ti_creating _ _ _ Hti _ _ Hl eq_refl) as [hs Hhs]. congruence.
Qed.

Lemma accounting_history N s ls :
  accounting N s ls → distinct s →
  posted s = popped s ++ m_RequestQueue s ∧ popped s ≡ₚ executed s ++ gather in_hand ls.
Proof.
  intros Hac Hd. pose proof (λ t l, uncreated_outside N s ls t l Hac) as Ho.
  destruct Hac as [_ _ _ Hph]. destruct (m_phThreadList s); [by apply Hph|].
  destruct Hph as [_ (-> & -> & -> & ->)]. split; [done|]. cbn. symmetry.
  rewrite gather_nil; [done|]. intros i l Hl. by rewrite (Ho i l eq_refl Hl).
Qed.



(** C23: [PopRequest] takes the request at the head out of the queue with every
    other copy of it ([std::list::remove]): it is the removal of the head only
    when the request is not queued again. *)
Theorem PopRequest_takes_every_copy t s r q :
  m_LockWorkerThread s = Unowned → m_RequestQueue s = r :: q →
  ∃ s', PopRequest t s = Done (Some r, s') ∧ (r ∉ m_RequestQueue s') ∧ (m_RequestQueue s' = q ↔ (r ∉ q)) ∧
        popped s' = popped s ++ [r].
Proof.
  intros Hlk Hq. destruct (free_pool s Hlk) as (d & n & sem & act & pend & h & th & q0 & po & pp & ex & ->).
  rewrite PopRequest_free. cbn in Hq. subst q0. eexists. split; [done|]. cbn.
  assert (r ∉ filter (λ r', r' ≠ r) q) as Hf by (rewrite list_elem_of_filter; tauto).
  split_and!; [done| |done]. split; [by intros <-|apply filter_fresh].
Qed.

Lemma PopRequest_takes_every_copy_witness :
  ∃ s', PopRequest 0 (set_requests [7; 8; 7]%nat [] [] [] new_ThreadPool) = Done (Some 7%nat, s') ∧
        (7%nat ∉ m_RequestQueue s') ∧ (m_RequestQueue s' = [8; 7]%nat ↔ (7%nat ∉ [8; 7]%nat)) ∧
        popped s' = [] ++ [7%nat].
Proof. by apply PopRequest_takes_every_copy. Defined.
