(* ===== verification/CppPoolLive.v ===== *)
(** * ThreadPool.cpp: progress, and what destroying a pool does *)

From S2P Require Import Prelude Pthread CppPool CppPoolRun CppPoolInv CppPoolAcc CppPoolProps.
Open Scope Z_scope.

(** ** Pending requests are announced *)

(** Every request succeeds, and so do the calls of the system. *)
Definition succeeding (x : winput) : Prop := steady x ∧ x ≠ ExecutionFails ∧ x ≠ WaitFails.

(** A worker that will come to the announcement of pending requests. *)
Definition busy (l : wlocal) : bool :=
  match l with Counted | Checked | Popping | Popped _ | Executed | Announcing => true | _ => false end.

Definition announced (s : ThreadPool) (ls : list wlocal) : Prop :=
  distinct s → few s → 0 < m_usPendingReqCount s → 0 < m_usSemaphoreCount s ∨ (0 < count_if busy ls)%nat.

Lemma posted_step ls t x s l s' l' e :
  m_LockWorkerThread s = Unowned → tstep ls t x s l = Done (s', l', e) → ∃ k, posted s' = posted s ++ k.
Proof.
  intros Hlk H. wstep_cases Hlk H; subst; eauto; exists []; by rewrite app_nil_r.
Qed.

Lemma announced_step N s ls s' ls' :
  accounting N s ls → announced s ls → step succeeding (s, ls) (s', ls') → announced s' ls'.
Proof.
  intros Hac Han Hstep Hd' Hf' Hp'.
  apply step_inv in Hstep as [(t & x & l & l' & e & (Hx & Hx1 & Hx2) & Hl & Hs & He)|(t & l & _ & _ & [] & _)]; [|done].
  pose proof (ti_lock _ _ _ (ac_threads _ _ _ Hac)) as Hlk.
  destruct (posted_step _ _ _ _ _ _ _ _ Hlk Hs) as [k Hk].
  assert (distinct s) as Hd by (unfold distinct in *; rewrite Hk in Hd'; by apply NoDup_app in Hd' as [? _]).
  assert (few s) as Hf by (unfold few in *; rewrite Hk, length_app in Hf'; lia). clear k Hk.
  specialize (Han Hd Hf).
  pose proof (count_if_insert busy _ _ _ l' Hl) as Hb. pose proof (count_if_pos busy _ _ _ Hl) as Hpb.
  assert (count_if busy (<[t := l']> ls) ≤ count_if busy ls')%nat as Hbe.
  { destruct He; try done; [by destruct x0..|unfold wake_all; rewrite count_if_map; [done|]|rewrite count_if_app; lia].
    intros k. by case_match. }
  clear He. destruct (m_phThreadList s) as [hs|] eqn:Hth.
  - destruct Hac as [_ Hfl Hq Hph]. rewrite Hth in Hph.
    destruct Hph as [_ Hcnt _ (k & Hsem & Hk & Hks & Hkn) _ Hpend Hhist Hqueue].
    pose proof (count_if_pos destroying _ _ _ Hl) as Hpd.
    specialize (Hqueue Hd Hf). clear Hhist. unfold few, distinct, number in *.
    wstep_cases Hlk Hs; subst; try discriminate; cbn in *; simplify_eq; cbn in *;
      rewrite ?ushort_id in * by lia; lia.
  - pose proof (uncreated_outside _ _ _ _ _ Hac Hth Hl) as ->.
    assert (count_if busy ls = 0%nat) as Hz.
    { apply count_if_zero. intros i k Hk. by rewrite (uncreated_outside _ _ _ _ _ Hac Hth Hk). }
    clear - Hs Hlk Hp' Han Hth Hz Hx. destruct Hx as [Hx _].
    wstep_cases Hlk Hs; subst; try discriminate; try done; lia.
Qed.

Lemma reachable_announced n s ls :
  reachable succeeding (winit n) (s, ls) → accounting (S n) s ls ∧ announced s ls.
Proof.
  intros H. apply (invariant_reachable succeeding (λ cf, accounting (S n) cf.1 cf.2 ∧ announced cf.1 cf.2)) in H;
    [done| |].
  - split; [apply accounting_init; lia|]. by intros ? ? ?.
  - intros [s1 ls1] [s2 ls2] [Hac Han] Hst. cbn in *. split.
    + eapply accounting_step; [done|]. eapply step_mono; [|done]. by intros x [? _].
    + by eapply announced_step.
Qed.

(** No thread that is inside the pool's code can carry out a step. *)
Definition winpool_quiescent (s : ThreadPool) (ls : list wlocal) : Prop :=
  ∀ t l w cf, ls !! t = Some l → l ≠ Outside → exec (Run t WGo w) (s, ls) ≠ Done cf.

(** Only a wait blocks. *)
Lemma blocked_wait ls t s l :
  m_LockWorkerThread s = Unowned → tstep ls t WGo s l = Blocked →
  user l = true ∨ l = Exited ∨ (l = Waiting ∧ ∃ h, m_hSemaphore s = Some h ∧ sem_count h <= 0).
Proof.
  intros Hlk H. destruct (free_pool s Hlk) as (d & n & sem & act & pend & h & th & q & po & pp & ex & ->).
  destruct l; try (by left); right; [right|exfalso..|by left].
  { split; [done|]. cbn in H. destruct h as [h|]; [|done]. exists h. split; [done|].
    repeat case_match; bools; done. }
  all: cbn [tstep winpool_program winpool_step ProcessRequests_step WaitForRequest] in H; unfold after in H;
    autorewrite with study in H; by repeat (cbn in H; case_match).
Qed.

Lemma blocked_creating ls t s l :
  m_LockWorkerThread s = Unowned → creating l = true → tstep ls t WGo s l ≠ Blocked.
Proof.
  intros Hlk Hc. destruct (free_pool s Hlk) as (d & n & sem & act & pend & h & th & q & po & pp & ex & ->).
  destruct l; try done; cbn [tstep winpool_program winpool_step user_step]; unfold Create_step, AddThreads, after.
  - by repeat case_match.
  - by rewrite SetDestroyFlag_free.
Qed.


Definition succeeds (x : winput) : bool := match x with WGo | CallCreate _ _ _ | CallPost _ _ => true | _ => false end.

Lemma succeeding_script evs cf :
  forallb (event_okb succeeds) evs = true → reachable succeeding cf ((final evs cf).1, (final evs cf).2).
Proof. apply final_reachable. unfold succeeding, steady. by intros [] ?. Qed.

(** One worker has executed three requests, two of which were pending. *)
Definition served : config ThreadPool wlocal :=
  final (create_with 1 ++ [Run 0 (CallPost 7 true) 0; Run 0 (CallPost 8 true) 0; Run 0 (CallPost 9 true) 0] ++
         go 1 27) (winit 0).

Lemma served_threads : served.2 = [Outside; Waiting].
Proof. vm_compute. reflexivity. Qed.

Lemma waiting_quiescent s h :
  m_hSemaphore s = Some h → sem_count h <= 0 → winpool_quiescent s [Outside; Waiting].
Proof.
  intros Hh Hc t l w cf Hl Hne Hex. destruct t as [|[|t]]; cbn in Hl; simplify_eq.
  cbn in Hex. rewrite Hh in Hex. destruct (0 <? sem_count h) eqn:E; bools; [lia|]. done.
Qed.


(** A request that fails strands the pending ones.  [ProcessRequests] goes
    back to its wait without announcing a pending request when [Execute] has
    returned an error: a configuration can be reached in which no thread can go
    on, the only worker waits, and a request is in the queue. *)
Lemma failed_request_strands_the_next :
  ∃ s ls, reachable steady (winit 0) (s, ls) ∧ winpool_quiescent s ls ∧
    ls = [Outside; Waiting] ∧ posted s = [7; 8]%nat ∧ executed s = [7]%nat ∧ m_RequestQueue s = [8]%nat.
Proof.
  set (cf := final (create_with 1 ++ [Run 0 (CallPost 7 true) 0; Run 0 (CallPost 8 true) 0] ++ go 1 5 ++
                    Run 1 ExecutionFails 0 :: go 1 1) (winit 0)).
  exists cf.1, cf.2. assert (cf.2 = [Outside; Waiting]) as Hls by (vm_compute; reflexivity).
  split_and!; [by apply steady_script| |done|vm_compute; reflexivity..].
  rewrite Hls. eapply waiting_quiescent; [vm_compute; reflexivity|done].
Qed.

(** ** Destroy *)

Lemma joining_stuck s h t x w cf :
  m_phThreadList s = Some [1%nat] → m_usThreadCount s = 1 → m_hSemaphore s = Some h → sem_count h <= 0 →
  x ≠ WaitFails → exec (Run t x w) (s, [Joining; Waiting]) ≠ Done cf.
Proof.
  intros Hth Hn Hh Hc Hx Hex. destruct t as [|[|t]]; [| |done]; cbn in Hex.
  - unfold after, DestroyPool in Hex. rewrite Hth, Hn in Hex. done.
  - rewrite Hh in Hex. destruct (0 <? sem_count h) eqn:E; bools; [lia|]. by destruct x.
Qed.

(** [Destroy] can wait for ever.  It releases the semaphore for the workers
    that are not active; a worker that is, and has already tested the flag,
    goes back to wait for a semaphore nobody releases: a configuration can be
    reached in which the owner waits for the threads to terminate, the worker
    waits for the semaphore, and no step is possible. *)
Lemma Destroy_may_wait_for_ever :
  ∃ s ls, reachable anything (winit 0) (s, ls) ∧ ls = [Joining; Waiting] ∧ m_bDestroyed s = true ∧
    ∀ t x w cf, x ≠ WaitFails → exec (Run t x w) (s, ls) ≠ Done cf.
Proof.
  set (cf := final (create_with 1 ++ [Run 0 (CallPost 7 true) 0] ++ go 1 7 ++
                    [Run 0 CallDestroy 0] ++ go 0 3 ++ go 1 2) (winit 0)).
  exists cf.1, cf.2. assert (cf.2 = [Joining; Waiting]) as Hls by (vm_compute; reflexivity).
  split_and!; [by apply anything_script|done|vm_compute; reflexivity|].
  intros t x w cf' Hx. rewrite Hls.
  eapply joining_stuck; [vm_compute; reflexivity..|done|done].
Qed.

(** C24: the two ways the pool hangs.  A request whose [Execute] returns an error
    strands the pending ones: its worker goes back to its wait without announcing
    them.  And [Destroy] can wait for ever: it releases the semaphore for the
    workers that are not active, while one that is, and has already tested the
    flag, goes back to wait for a semaphore nobody releases. *)
Theorem winpool_can_hang :
  (∃ s ls, reachable steady (winit 0) (s, ls) ∧ winpool_quiescent s ls ∧
     ls = [Outside; Waiting] ∧ posted s = [7; 8]%nat ∧ executed s = [7]%nat ∧ m_RequestQueue s = [8]%nat) ∧
  (∃ s ls, reachable anything (winit 0) (s, ls) ∧ ls = [Joining; Waiting] ∧ m_bDestroyed s = true ∧
     ∀ t x w cf, x ≠ WaitFails → exec (Run t x w) (s, ls) ≠ Done cf).
Proof. split; [apply failed_request_strands_the_next|apply Destroy_may_wait_for_ever]. Qed.


(** A worker executed a request, then the pool is destroyed. *)
Definition destroyed : config ThreadPool wlocal :=
  final (create_with 1 ++ [Run 0 (CallPost 7 true) 0] ++ go 1 9 ++
         [Run 0 CallDestroy 0] ++ go 0 3 ++ go 1 5) (winit 0).

Definition joined : config ThreadPool wlocal := final (go 0 1) destroyed.

