(* ===== verification/CppPoolOwner.v ===== *)
(** * ThreadPool.cpp: a pool with one user

    The phases a pool goes through when a single thread creates it, posts its
    requests and destroys it, whatever fails: complete, with the accounting of
    the semaphore; incomplete, when a thread could not be created, from which it
    never comes back; or without threads.  What follows for the announcement of
    a request and for the requests a worker may take. *)

From S2P Require Import Prelude Pthread CppPool CppPoolRun CppPoolInv CppPoolAcc.
Open Scope Z_scope.

(** ** Classes of program points *)

Definition outside (l : wlocal) : bool := match l with Outside => true | _ => false end.
Definition created_now (l : wlocal) : bool := match l with Created => true | _ => false end.
Definition joining (l : wlocal) : bool := match l with Joining => true | _ => false end.

(** In [Destroy], before the flag is set. *)
Definition unflagged (l : wlocal) : bool := match l with Cancelling | Flagging => true | _ => false end.
Definition releasing (l : wlocal) : bool := match l with Releasing => true | _ => false end.

(** A worker that has not terminated; that is not waiting; that may take a
    request, or has taken one. *)
Definition live_worker (l : wlocal) : bool := negb (user l) && match l with Exited => false | _ => true end.
Definition stirring (l : wlocal) : bool :=
  negb (user l) && match l with Exited | Waiting => false | _ => true end.
Definition pops (l : wlocal) : bool :=
  match l with Popping | Popped _ | Executed | Announcing => true | _ => false end.

Lemma count_users ls :
  count_if user ls = (count_if outside ls + count_if adding ls + count_if created_now ls + count_if unflagged ls +
    count_if releasing ls + count_if joining ls)%nat.
Proof. induction ls as [|l ls IH]; [done|]. cbn. rewrite IH. destruct l; cbn; lia. Qed.

(** ** Phases *)

(** No worker has been told of anything yet. *)
Definition fresh (s : ThreadPool) (ls : list wlocal) : Prop :=
  m_hSemaphore s = Some (Semaphore 0 (m_usThreadCount s)) ∧ m_usSemaphoreCount s = 0 ∧ count_if stirring ls = 0%nat.

(** Some threads are missing: they are being created, or one could not be. *)
Record incomplete (s : ThreadPool) (ls : list wlocal) : Prop := Incomplete {
  in_state : fresh s ls ∨ (m_bDestroyed s = true ∧ count_if adding ls = 0%nat);
  in_pops : count_if pops ls = 0%nat;
  in_created : count_if created_now ls = 0%nat;
  in_adding : (0 < count_if adding ls)%nat → m_RequestQueue s = [];
  in_flag : (0 < count_if outside ls + count_if releasing ls + count_if joining ls)%nat → m_bDestroyed s = true
}.

(** All the threads have been created: until [Destroy] has released the semaphore
    its count and that of the object agree. *)
Definition complete (s : ThreadPool) (ls : list wlocal) : Prop :=
  count_if joining ls = 0%nat →
  ∃ k, m_hSemaphore s = Some (Semaphore k (m_usThreadCount s)) ∧ 0 <= k ∧
    m_usSemaphoreCount s = k + number notified ls ∧ m_usSemaphoreCount s <= m_usThreadCount s.

Definition phase (s : ThreadPool) (ls : list wlocal) : Prop :=
  match m_phThreadList s with
  | None => m_RequestQueue s = [] ∧ count_if live_worker ls = 0%nat ∧ count_if outside ls = 1%nat
  | Some hs =>
      1 <= m_usThreadCount s <= 64 ∧ Z.of_nat (length hs) <= m_usThreadCount s ∧
      if decide (Z.of_nat (length hs) = m_usThreadCount s) then complete s ls else incomplete s ls
  end.

Record owned (s : ThreadPool) (ls : list wlocal) : Prop := Owned {
  ow_threads : threads_inv 1 s ls;
  ow_user : count_if user ls = 1%nat;
  ow_phase : phase s ls
}.

(** ** The phases are kept *)

Lemma live_listed N s ls hs :
  threads_inv N s ls → m_phThreadList s = Some hs → (∀ h, h ∈ hs → ls !! h = Some Exited) →
  count_if live_worker ls = 0%nat.
Proof.
  intros Hti Hhs Hex. apply count_if_zero. intros i l Hl. unfold live_worker.
  destruct (ti_listed _ _ _ Hti _ _ Hl) as [->|[->|(hs' & E & Hin)]]; [done..|].
  simplify_eq. specialize (Hex _ Hin). by simplify_eq.
Qed.

(** How many threads of each class there are, before a step and after. *)
Ltac count_facts Hl He :=
  match type of He with effect_on ?e _ _ =>
    assert (∀ (f : wlocal → bool) (l : wlocal), is_Some (waits_on l) → f (woken l) = f l) as Hnw by done;
    pose proof (λ f, count_step f _ _ _ _ _ _ (Hnw f) Hl He) as Hc;
    pose proof (λ f, count_if_pos f _ _ _ Hl) as Hpos;
    pose proof (Hc outside); pose proof (Hc adding); pose proof (Hc created_now); pose proof (Hc unflagged);
    pose proof (Hc releasing); pose proof (Hc joining); pose proof (Hc live_worker); pose proof (Hc stirring);
    pose proof (Hc pops); pose proof (Hc notified);
    pose proof (Hpos outside); pose proof (Hpos adding); pose proof (Hpos live_worker); pose proof (Hpos stirring);
    pose proof (Hpos pops);
    clear Hc Hpos Hnw He; unfold spawned in *
  end.

Ltac use_truth := repeat match goal with H : true = true → _ |- _ => specialize (H eq_refl) end.

Lemma classes_le ls :
  (count_if stirring ls ≤ count_if live_worker ls)%nat ∧ (count_if notified ls ≤ count_if stirring ls)%nat ∧
  (count_if pops ls ≤ count_if stirring ls)%nat.
Proof. split_and!; apply count_if_mono; by intros []. Qed.

(** Without threads: a pool may be created. *)
Lemma uncreated_phase s ls t x l s' l' e ls' :
  m_LockWorkerThread s = Unowned → count_if user ls = 1%nat → m_phThreadList s = None → phase s ls →
  ls !! t = Some l → tstep ls t x s l = Done (s', l', e) → effect_on e (<[t := l']> ls) ls' → phase s' ls'.
Proof.
  intros Hlk Hu Hth Hph Hl Hs He. unfold phase in Hph. rewrite Hth in Hph. destruct Hph as (Hq & Hw & Ho).
  count_facts Hl He. pose proof (count_users ls). pose proof (classes_le ls) as (? & ? & ?).
  wstep_cases Hlk Hs; subst; cbn in *; simplify_eq; use_truth; try (exfalso; lia).
  all: try (split_and!; [done|lia|lia]).
  cbn. split; [lia|]. split; [lia|]. rewrite decide_False by lia.
  split; unfold fresh; cbn; [left; split_and!; [done|done|lia]|lia|lia|done|intros; exfalso; lia].
Qed.

(** With some of its threads: the others are added, or never will be. *)
Lemma incomplete_phase s ls t x l s' l' e ls' hs :
  m_LockWorkerThread s = Unowned → count_if user ls = 1%nat → m_phThreadList s = Some hs →
  Z.of_nat (length hs) ≠ m_usThreadCount s → phase s ls →
  ls !! t = Some l → tstep ls t x s l = Done (s', l', e) → effect_on e (<[t := l']> ls) ls' → phase s' ls'.
Proof.
  intros Hlk Hu Hth Hpart Hph Hl Hs He. unfold phase in Hph. rewrite Hth in Hph. destruct Hph as (Hn & Hlen & Hph).
  rewrite decide_False in Hph by done. destruct Hph as [Hst Hpop Hcre Hadd Hflag].
  count_facts Hl He. pose proof (count_users ls). pose proof (classes_le ls) as (? & ? & ?). unfold fresh in Hst.
  wstep_cases Hlk Hs; subst; cbn in *; simplify_eq; use_truth; try (exfalso; lia); cbn.
  all: rewrite ?length_app; split; [lia|]; split; [cbn; lia|].
  all: destruct (decide (Z.of_nat _ = _)) as [Hfull|Hpart']; try (exfalso; lia).
  all: try (split; unfold fresh; cbn;
    [destruct Hst as [(? & ? & ?)|[? ?]]; simplify_eq;
      first [left; split_and!; (done || lia)|right; split; (done || lia)|right; split; [apply Hflag; lia|lia]]
    |lia|lia
    |intros ?; first [done|apply Hadd; lia|exfalso; lia]
    |first [done|intros ?; first [apply Hflag; lia|exfalso; lia]]]).
  all: destruct Hst as [(-> & -> & ?)|[? ?]]; [|exfalso; lia]; intros _; exists 0; cbn; unfold number; split_and!; done || lia.
Qed.

(** With all its threads: requests come and go. *)
Lemma complete_phase s ls t x l s' l' e ls' hs :
  threads_inv 1 s ls → count_if user ls = 1%nat → m_phThreadList s = Some hs →
  Z.of_nat (length hs) = m_usThreadCount s → phase s ls →
  ls !! t = Some l → tstep ls t x s l = Done (s', l', e) → effect_on e (<[t := l']> ls) ls' → phase s' ls'.
Proof.
  intros Hti Hu Hth Hfull Hph Hl Hs He. pose proof (ti_lock _ _ _ Hti) as Hlk.
  unfold phase in Hph. rewrite Hth in Hph. destruct Hph as (Hn & Hlen & Hph).
  rewrite decide_True in Hph by done. unfold complete in Hph.
  count_facts Hl He. pose proof (count_users ls). pose proof (classes_le ls) as (? & ? & ?).
  pose proof (λ Hex, live_listed _ _ _ _ Hti Hth Hex) as Hall. clear Hti.
  wstep_cases Hlk Hs; subst; cbn in *; simplify_eq; use_truth; try (exfalso; lia); cbn.
  all: try (split; [lia|]; split; [lia|]; rewrite decide_True by done; intros Hj;
    destruct Hph as (k & Hk & Hk0 & Hks & Hkn); [lia|]; unfold number in *; simplify_eq;
    try (cbn in *; eexists; split; [done|]; rewrite ?ushort_id by lia; lia)).
  assert (∀ i, i ∈ hs → ls !! i = Some Exited) as Hex.
  { intros i Hi. match goal with K : forallb _ _ = true |- _ => rewrite forallb_forall in K;
      apply list_elem_of_In, K, bool_decide_eq_true_1 in Hi end. done. }
  specialize (Hall Hex). split_and!; [done|lia|lia].
Qed.

Lemma user_step_count s ls t x l s' l' e ls' :
  m_LockWorkerThread s = Unowned → ls !! t = Some l → tstep ls t x s l = Done (s', l', e) →
  effect_on e (<[t := l']> ls) ls' → count_if user ls' = count_if user ls.
Proof.
  intros Hlk Hl Hs He.
  assert (∀ (f : wlocal → bool) (l : wlocal), is_Some (waits_on l) → f (woken l) = f l) as Hnw by done.
  pose proof (count_step user _ _ _ _ _ _ (Hnw _) Hl He) as Hc.
  destruct (listed_step _ _ _ _ _ _ _ _ Hlk Hs) as [E _]. rewrite E in Hc.
  destruct e as [[c|c|k]|]; cbn in Hc; try lia.
  destruct (spawn_Waiting _ _ _ _ _ _ _ _ Hlk Hs) as (-> & _). cbn in Hc. lia.
Qed.

Lemma owned_step s ls s' ls' :
  owned s ls → step anything (s, ls) (s', ls') → owned s' ls'.
Proof.
  intros [Hti Hu Hph] Hstep. pose proof (ti_lock _ _ _ Hti) as Hlk.
  assert (threads_inv 1 s' ls') as Hti' by (by eapply threads_inv_step).
  apply step_inv in Hstep as [(t & x & l & l' & e & _ & Hl & Hs & He)|(t & l & _ & _ & [] & _)]; [|done].
  split; [done|by erewrite user_step_count|].
  destruct (m_phThreadList s) as [hs|] eqn:Hth; [|by eapply uncreated_phase].
  destruct (decide (Z.of_nat (length hs) = m_usThreadCount s)) as [E|E];
    [exact (complete_phase _ _ _ _ _ _ _ _ _ _ Hti Hu Hth E Hph Hl Hs He)|].
  exact (incomplete_phase _ _ _ _ _ _ _ _ _ _ Hlk Hu Hth E Hph Hl Hs He).
Qed.

Lemma owned_init : owned new_ThreadPool [Outside].
Proof. split; [apply (threads_inv_init 1); lia|done|done]. Qed.

Lemma reachable_owned s ls : reachable anything (winit 0) (s, ls) → owned s ls.
Proof.
  intros H. apply (invariant_reachable anything (λ cf, owned cf.1 cf.2)) in H; [done|apply owned_init|].
  intros [s1 ls1] [s2 ls2]. apply owned_step.
Qed.

(** ** What the owner relies on *)

Definition all_created (s : ThreadPool) : Prop :=
  ∃ hs, m_phThreadList s = Some hs ∧ Z.of_nat (length hs) = m_usThreadCount s.

Lemma owner_outside s ls : owned s ls → ls !! 0%nat = Some Outside → count_if outside ls = 1%nat ∧ count_if joining ls = 0%nat.
Proof.
  intros [_ Hu _] H0. pose proof (count_users ls). pose proof (count_if_pos outside _ _ _ H0 eq_refl). lia.
Qed.

(** A request that is refused is not in the queue, in a pool that has all its
    threads: the announcement does not fail. *)
Lemma refused_not_queued s ls memory r s' :
  owned s ls → ls !! 0%nat = Some Outside → all_created s ∨ m_phThreadList s = None →
  PostRequest 0 memory r s = Done (false, s') → s' = s.
Proof.
  intros Ho H0 Hall Hp. destruct (owner_outside _ _ Ho H0) as [_ Hj]. destruct Ho as [Hti _ Hph].
  destruct (free_pool s (ti_lock _ _ _ Hti)) as (d & n & sem & act & pend & h & th & q & po & pp & ex & ->).
  rewrite PostRequest_free in Hp. destruct Hall as [(hs & E & Hl)|E]; cbn in *; subst th; [|by inv_res].
  unfold phase in Hph. cbn in Hph. destruct Hph as (Hn & Hlen & Hph). rewrite decide_True in Hph by done.
  destruct (Hph Hj) as (k & Hk & Hk0 & Hks & Hkn). cbn in *. subst h. destruct memory; [|by inv_res].
  destruct (sem <? n) eqn:E; [|done]. bools. exfalso. unfold number in *. unfold ReleaseSemaphore in Hp. cbn in Hp.
  rewrite (proj2 (Z.leb_le _ _)) in Hp by lia. done.
Qed.

(** Only in such a pool does a worker take a request. *)
Lemma popping_all_created s ls t l :
  owned s ls → ls !! t = Some l → pops l = true → all_created s.
Proof.
  intros [_ _ Hph] Hl Hp. pose proof (count_if_pos pops _ _ _ Hl Hp) as Hc. unfold phase in Hph.
  destruct (m_phThreadList s) as [hs|] eqn:Hth.
  - destruct Hph as (_ & _ & Hph). case_decide as Hfull; [by exists hs|].
    destruct Hph as [_ ? _ _ _]. lia.
  - destruct Hph as (_ & Hw & _). pose proof (classes_le ls). lia.
Qed.

(** Without threads nothing is queued and nobody works. *)
Lemma no_threads_idle s ls t l :
  owned s ls → m_phThreadList s = None → m_RequestQueue s = [] ∧ (ls !! t = Some l → pops l = false).
Proof.
  intros [_ _ Hph] Hth. unfold phase in Hph. rewrite Hth in Hph. destruct Hph as (Hq & Hw & _). split; [done|].
  intros Hl. destruct (pops l) eqn:E; [|done]. pose proof (count_if_pos pops _ _ _ Hl E). pose proof (classes_le ls). lia.
Qed.

(** Apart from the posting of a request, a step takes requests out of the queue
    only; a pool becomes whole with an empty queue; and a request a worker takes
    was queued. *)
Lemma requests_step s ls t x l s' l' e :
  owned s ls → ls !! t = Some l → tstep ls t x s l = Done (s', l', e) →
  (l = Outside → ∀ r m, x ≠ CallPost r m) →
  (∀ r, r ∈ m_RequestQueue s' → r ∈ m_RequestQueue s) ∧
  (all_created s' → all_created s ∨ m_RequestQueue s' = []) ∧
  (∀ r, l' = Popped r → r ∈ m_RequestQueue s).
Proof.
  intros [Hti _ Hph] Hl Hs Hx. pose proof (ti_lock _ _ _ Hti) as Hlk.
  pose proof (count_if_pos adding _ _ _ Hl) as Ha. clear Hti Hl. unfold all_created, phase in *.
  wstep_cases Hlk Hs; subst; cbn in *; try (split_and!; [done|by left|done]).
  all: try (exfalso; eapply Hx; [done|reflexivity]).
  all: try (split_and!; [by intros ? ?%elem_of_nil|by right|done]).
  all: try (destruct Hph as [-> _]; split_and!; [done|by right|done]).
  all: try (destruct Hph as (_ & _ & Hph); rewrite decide_False in Hph by lia; split_and!; [done| |done];
    intros _; right; by apply (in_adding _ _ Hph), Ha).
  split_and!; [|by left|by intros r [= <-]; left].
  intros r Hr%list_elem_of_filter. set_solver.
Qed.
