(* ===== verification/CppLog.v ===== *)
(** * ThreadPool.cpp: requests and log lines

    [AbstractRequest] with its flags, the [Execute] of the demonstration's
    [Request], the text [PrepareLog] builds for the logger and for a request, with
    a reader of such lines, and the loggers they are written by. *)

From Stdlib Require Import String Ascii.
From S2P Require Import Prelude.
Open Scope Z_scope.

(** ** Wide strings *)

(** A [std::wstring] as the list of its characters. *)
Definition wstring : Type := list Z.

Fixpoint wide (s : string) : wstring :=
  match s with EmptyString => [] | String c s => Z.of_nat (nat_of_ascii c) :: wide s end.

(** [c_str()] written to a stream stops at the first null character. *)
Fixpoint c_str (s : wstring) : wstring :=
  match s with [] => [] | c :: s => if c =? 0 then [] else c :: c_str s end.

Lemma c_str_id s : Forall (λ c, c ≠ 0) s → c_str s = s.
Proof.
  induction 1 as [|c s Hc _ IH]; cbn; [done|]. rewrite (proj2 (Z.eqb_neq _ _) Hc). by rewrite IH.
Qed.

Lemma length_c_str s : (length (c_str s) <= length s)%nat.
Proof. induction s as [|x s IH]; cbn; [lia|]. case_match; cbn; lia. Qed.

(** ** Numbers on a stream *)

(** The decimal digits of a natural number below [10 ^ fuel]. *)
Fixpoint decimal (fuel : nat) (n : Z) : wstring :=
  match fuel with
  | O => []
  | S fuel => if n <? 10 then [48 + n] else decimal fuel (n / 10) ++ [48 + n mod 10]
  end.

(** [setfill('0') << setw(w) << n] for an unsigned [n]; twenty digits are enough
    for 64 bits. *)
Definition setw (w : nat) (n : Z) : wstring :=
  let d := decimal 20 n in replicate (w - length d) 48 ++ d.

(** Reads a number up to the first character that is not a digit. *)
Fixpoint read_number (acc : Z) (s : wstring) : Z * wstring :=
  match s with
  | c :: s' => if (48 <=? c) && (c <=? 57) then read_number (acc * 10 + (c - 48)) s' else (acc, s)
  | [] => (acc, [])
  end.

(** Reads a given text. *)
Fixpoint expect (text s : wstring) : option wstring :=
  match text, s with
  | [], _ => Some s
  | c :: text, c' :: s => if c =? c' then expect text s else None
  | _ :: _, [] => None
  end.

Lemma expect_app text s : expect text (text ++ s) = Some s.
Proof. induction text as [|c text IH]; cbn; [done|]. by rewrite Z.eqb_refl. Qed.

Lemma read_number_zeros k acc s :
  read_number acc (replicate k 48 ++ s) = read_number (acc * 10 ^ Z.of_nat k) s.
Proof.
  revert acc. induction k as [|k IH]; intros acc; cbn [replicate app].
  - f_equal. lia.
  - cbn. rewrite IH. f_equal. rewrite Nat2Z.inj_succ, Z.pow_succ_r by lia. lia.
Qed.

Lemma read_number_decimal fuel n s :
  0 <= n < 10 ^ Z.of_nat fuel → (∀ c, head s = Some c → c < 48 ∨ 57 < c) →
  read_number 0 (decimal fuel n ++ s) = (n, s).
Proof.
  intros Hn Hs.
  assert (∀ k, read_number k s = (k, s)) as Hstop.
  { intros k. destruct s as [|c s]; [done|]. cbn. specialize (Hs c eq_refl).
    destruct (48 <=? c) eqn:E1, (c <=? 57) eqn:E2; bools; try done; lia. }
  assert (∀ fuel n, 0 <= n < 10 ^ Z.of_nat fuel → ∀ k s',
            (∀ a, read_number a s' = (a * 10 ^ Z.of_nat k + (read_number 0 s').1, (read_number 0 s').2)) →
            read_number 0 (decimal fuel n ++ s') = read_number n s') as Hdec; [|by rewrite Hdec with (k := O); [|done|intros a; rewrite !Hstop; cbn; f_equal; lia]].
  clear. induction fuel as [|fuel IH]; intros n Hn k s Hs; [cbn in Hn; replace n with 0 by lia; done|].
  rewrite Nat2Z.inj_succ, Z.pow_succ_r in Hn by lia. cbn [decimal].
  destruct (n <? 10) eqn:E; bools.
  - cbn. rewrite (proj2 (Z.leb_le 48 _)), (proj2 (Z.leb_le _ 57)) by lia. cbn. f_equal. lia.
  - pose proof (Z.mod_pos_bound n 10). pose proof (Z.div_mod n 10).
    rewrite <- app_assoc. cbn [app].
    assert (∀ a, read_number a ((48 + n mod 10) :: s) = read_number (a * 10 + n mod 10) s) as Hdigit.
    { intros a. cbn [read_number]. rewrite (proj2 (Z.leb_le 48 _)), (proj2 (Z.leb_le _ 57)) by lia.
      cbn. f_equal. lia. }
    rewrite (IH (n / 10)) with (k := S k).
    + rewrite Hdigit. f_equal. lia.
    + split; [apply Z.div_pos; lia|]. apply Z.div_lt_upper_bound; lia.
    + intros a. rewrite !Hdigit, (Hs (a * 10 + n mod 10)), (Hs (0 * 10 + n mod 10)). cbn [fst snd].
      rewrite Nat2Z.inj_succ, Z.pow_succ_r by lia. f_equal. lia.
Qed.

Lemma read_setw w n s :
  0 <= n < 2 ^ 64 → (∀ c, head s = Some c → c < 48 ∨ 57 < c) → read_number 0 (setw w n ++ s) = (n, s).
Proof.
  intros Hn Hs. unfold setw. rewrite <- app_assoc, read_number_zeros, Z.mul_0_l.
  apply read_number_decimal; [|done]. split; [lia|]. eapply Z.lt_le_trans; [apply Hn|]. vm_compute. done.
Qed.

(** ** The log lines *)

(** [Logger::PrepareLog]; the thread and the last error come from the system. *)
Definition Logger_PrepareLog (thread_id last_error lActiveReq_i : Z) (wstrLog_io : wstring) : wstring :=
  wide "##TP## [TID=" ++ setw 8 thread_id ++ wide "] [ACTIVE REQUEST=" ++ setw 4 lActiveReq_i ++
  wide "] [LAST ERROR=" ++ setw 4 last_error ++ wide "] " ++ c_str wstrLog_io ++ wide "]".

(** [OutputDebugString] takes a pointer: what it writes. *)
Definition OutputDebugString (s : wstring) : list wstring := [c_str s].

(** The virtual members of [Logger], those of the class itself, and those
    [OutputLogger] overrides them with. *)
Record Logger : Type := MkLogger { vLogError : wstring → list wstring; vLogInfo : wstring → list wstring }.

Definition Logger_default : Logger := MkLogger OutputDebugString OutputDebugString.
Definition OutputLogger : Logger := MkLogger OutputDebugString OutputDebugString.

Section logging.
Context (thread_id last_error : Z).

(** The members with the number of active requests. *)
Definition Logger_LogError (this : Logger) (lActiveReq_i : Z) (wstrError_i : wstring) : list wstring :=
  vLogError this (Logger_PrepareLog thread_id last_error lActiveReq_i wstrError_i).
Definition Logger_LogInfo (this : Logger) (lActiveReq_i : Z) (wstrInfo_i : wstring) : list wstring :=
  vLogInfo this (Logger_PrepareLog thread_id last_error lActiveReq_i wstrInfo_i).

(** [ThreadPool::LogError] and [ThreadPool::LogInfo] *)
Definition ThreadPool_LogError (m_pLogger : option Logger) (m_lActiveThread : Z) (wstrError_i : wstring) : list wstring :=
  match m_pLogger with Some this => Logger_LogError this m_lActiveThread wstrError_i | None => [] end.
Definition ThreadPool_LogInfo (m_pLogger : option Logger) (m_lActiveThread : Z) (wstrInfo_i : wstring) : list wstring :=
  match m_pLogger with Some this => Logger_LogInfo this m_lActiveThread wstrInfo_i | None => [] end.

(** [ThreadProc]: its result and what it logs, given the pool, if the pointer is
    not null, and what [ProcessRequests] returns, or nothing when it throws.  The
    handler tests the variable declared outside of [try], which is null. *)
Definition ThreadProc (pParam_i : option (option Logger * Z)) (ProcessRequests : option bool) : Z * list wstring :=
  match pParam_i with
  | None => (1, [])
  | Some (m_pLogger, m_lActiveThread) =>
      match ProcessRequests with
      | Some true => (0, [])
      | Some false => (1, ThreadPool_LogError m_pLogger m_lActiveThread (wide "ProcessRequests() failed"))
      | None => (1, [])
      end
  end.
End logging.

(** The logger of [Create]: the one it is given, or the pool's own. *)
Definition Create_logger (pLogger_i : option Logger) (m_Logger : Logger) : Logger := default m_Logger pLogger_i.

(** [AbstractRequest], without its lock. *)
Record AbstractRequest : Type := MkRequest { m_bAborted : bool; m_usRequestID : Z }.

Definition new_request : AbstractRequest := MkRequest false 0.
Definition SetRequestID (id : Z) (r : AbstractRequest) : AbstractRequest := MkRequest (m_bAborted r) (id mod 65536).
Definition Abort (r : AbstractRequest) : AbstractRequest := MkRequest true (m_usRequestID r).
Definition ClearAbortFlag (r : AbstractRequest) : AbstractRequest := MkRequest false (m_usRequestID r).

(** [AbstractRequest::PrepareLog] *)
Definition Request_PrepareLog (r : AbstractRequest) (wstrLog_io : wstring) : wstring :=
  wide "##RQ## [RID=" ++ setw 8 (m_usRequestID r) ++ wide "] [Desc=" ++ c_str wstrLog_io ++ wide "]".

(** [Request::Execute] of the demonstration: what it returns and writes, given
    the request as it is when the flag is tested. *)
Definition Execute (before after_sleep : AbstractRequest) : Z * list wstring :=
  let started := Request_PrepareLog before (wide "Execution started") in
  if m_bAborted after_sleep then (0, [started; Request_PrepareLog after_sleep (wide "Request aborted")])
  else (0, [started; Request_PrepareLog after_sleep (wide "Execution completed")]).

(** ** Reading a line back *)

Definition read_request_log (line : wstring) : option (Z * wstring) :=
  s ← expect (wide "##RQ## [RID=") line;
  let (id, s) := read_number 0 s in
  s ← expect (wide "] [Desc=") s;
  Some (id, take (length s - 1) s).

Definition read_pool_log (line : wstring) : option (Z * Z * Z * wstring) :=
  s ← expect (wide "##TP## [TID=") line;
  let (thread, s) := read_number 0 s in
  s ← expect (wide "] [ACTIVE REQUEST=") s;
  let (active, s) := read_number 0 s in
  s ← expect (wide "] [LAST ERROR=") s;
  let (error, s) := read_number 0 s in
  s ← expect (wide "] ") s;
  Some (thread, error, active, take (length s - 1) s).

Lemma take_without_bracket (s : wstring) : take (length (s ++ wide "]") - 1) (s ++ wide "]") = s.
Proof. rewrite length_app. cbn. rewrite Nat.add_sub. by rewrite take_app_length. Qed.

(** A number is read back before a bracket. *)
Lemma read_field text w n (s : wstring) :
  0 <= n < 2 ^ 64 → read_number 0 (setw w n ++ wide (String "]" text) ++ s) = (n, wide (String "]" text) ++ s).
Proof. intros Hn. apply read_setw; [done|]. intros c Hc. injection Hc as <-. right. vm_compute. done. Qed.

Lemma read_request_line r msg :
  0 <= m_usRequestID r < 65536 → Forall (λ c, c ≠ 0) msg →
  read_request_log (Request_PrepareLog r msg) = Some (m_usRequestID r, msg).
Proof.
  intros Hid Hm. unfold read_request_log, Request_PrepareLog. rewrite (c_str_id _ Hm).
  rewrite expect_app. cbn [mbind option_bind]. rewrite read_field by lia.
  rewrite expect_app. cbn [mbind option_bind]. by rewrite take_without_bracket.
Qed.

Lemma read_pool_line thread active error msg :
  0 <= thread < 2 ^ 32 → 0 <= active < 65536 → 0 <= error < 2 ^ 32 → Forall (λ c, c ≠ 0) msg →
  read_pool_log (Logger_PrepareLog thread error active msg) = Some (thread, error, active, msg).
Proof.
  intros Ht Ha He Hm. unfold read_pool_log, Logger_PrepareLog. rewrite (c_str_id _ Hm).
  do 3 (rewrite expect_app; cbn [mbind option_bind]; rewrite read_field by lia).
  rewrite expect_app. cbn [mbind option_bind]. by rewrite take_without_bracket.
Qed.

(** A line has no null character. *)
Lemma decimal_printable fuel n : 0 <= n → Forall (λ c, c ≠ 0) (decimal fuel n).
Proof.
  revert n. induction fuel as [|fuel IH]; intros n Hn; cbn; [constructor|]. destruct (n <? 10) eqn:E; bools.
  - by repeat constructor; lia.
  - apply Forall_app. split; [apply IH; by apply Z.div_pos|]. pose proof (Z.mod_pos_bound n 10). repeat constructor. lia.
Qed.

Lemma setw_printable w n : 0 <= n → Forall (λ c, c ≠ 0) (setw w n).
Proof. intros Hn. apply Forall_app. split; [by apply Forall_replicate|by apply decimal_printable]. Qed.

Lemma pool_line_printable thread active error msg :
  0 <= thread → 0 <= active → 0 <= error → Forall (λ c, c ≠ 0) msg →
  Forall (λ c, c ≠ 0) (Logger_PrepareLog thread error active msg).
Proof.
  intros Ht Ha He Hm. unfold Logger_PrepareLog. rewrite (c_str_id _ Hm).
  rewrite !Forall_app. split_and!; first [by apply setw_printable|exact Hm|apply (bool_decide_unpack _); vm_compute; reflexivity].
Qed.

(** What the pool logs, with its own logger or that of the demonstration. *)
Lemma logged_line thread active error msg L :
  L = Logger_default ∨ L = OutputLogger →
  0 <= thread → 0 <= active → 0 <= error → Forall (λ c, c ≠ 0) msg →
  ThreadPool_LogError thread error (Some L) active msg = [Logger_PrepareLog thread error active msg] ∧
  ThreadPool_LogInfo thread error (Some L) active msg = [Logger_PrepareLog thread error active msg].
Proof.
  intros HL Ht Ha He Hm. cbn. unfold Logger_LogError, Logger_LogInfo.
  pose proof (pool_line_printable _ _ _ _ Ht Ha He Hm) as Hp.
  destruct HL as [-> | ->]; cbn; unfold OutputDebugString; by rewrite c_str_id.
Qed.

(** A thread of the pool that ends with an exception says nothing. *)
Lemma ThreadProc_exception thread error p : ThreadProc thread error p None = (1, []).
Proof. by destruct p as [[]|]. Qed.

(** C25: the log lines can be read back.  The number of the request, and the
    thread, the active requests and the last error of the pool, are printed with
    a minimal width: they are found again whatever their size, and so is the
    message when it contains no null character; and what the pool writes with its
    own logger, or with that of the demonstration, for an error or for an
    information, is that line. *)
Theorem log_lines_round_trip r thread active error msg L :
  0 <= m_usRequestID r < 65536 → 0 <= thread < 2 ^ 32 → 0 <= active < 65536 → 0 <= error < 2 ^ 32 →
  Forall (λ c, c ≠ 0) msg → L = Logger_default ∨ L = OutputLogger →
  read_request_log (Request_PrepareLog r msg) = Some (m_usRequestID r, msg) ∧
  read_pool_log <$> ThreadPool_LogError thread error (Some L) active msg = [Some (thread, error, active, msg)] ∧
  read_pool_log <$> ThreadPool_LogInfo thread error (Some L) active msg = [Some (thread, error, active, msg)].
Proof.
  intros Hid Ht Ha He Hm HL. split; [by apply read_request_line|].
  destruct (logged_line thread active error msg L) as [-> ->]; [done|lia..|done|].
  cbn [fmap list_fmap]. by rewrite read_pool_line.
Qed.

Lemma log_lines_round_trip_witness :
  Request_PrepareLog (SetRequestID 65537 new_request) (wide "Execution started") =
    wide "##RQ## [RID=00000001] [Desc=Execution started]" ∧
  read_request_log (Request_PrepareLog (SetRequestID 65537 new_request) (wide "Execution started")) =
    Some (1, wide "Execution started") ∧
  read_pool_log <$> ThreadPool_LogError 123456789 5 (Some OutputLogger) 2 (wide "Execution started") =
    [Some (123456789, 5, 2, wide "Execution started")].
Proof.
  split; [vm_compute; reflexivity|].
  destruct (log_lines_round_trip (SetRequestID 65537 new_request) 123456789 2 5 (wide "Execution started") OutputLogger)
    as (H1 & H2 & _); [vm_compute; done..| |by right|by split].
  apply (bool_decide_unpack _). vm_compute. reflexivity.
Defined.
