(* ===== verification/ThreadPoolDemo.v ===== *)
(** * ThreadPoolDemo: the dialog, its requests and the pool

    The dialog of [ThreadPoolDemo/ThreadPoolDemoDlg.cpp] creates the requests,
    posts them, aborts them and deletes them; the workers of the pool execute
    them ([Request.cpp]).  Dialog and workers run on the same objects: a
    configuration is one of the pool ([CppPoolRun]), whose thread 0 is the
    dialog's, with the requests that have been allocated and not deleted. *)

From Stdlib Require Import String.
From S2P Require Import Prelude Pthread CppPool CppPoolRun CppPoolInv CppPoolAcc CppPoolProps CppPoolOwner CppLog.
Open Scope Z_scope.

(** ** The dialog *)

(** Where the thread of the dialog is: waiting for a click, or in a handler.  In
    [OnBnClickedPushRequest] at the test of the loop, or after [PostRequest] with
    its answer; in the loops over [m_RequestList] with what is left of it. *)
Inductive handler : Type :=
  | Ready
  | OnCreate
  | OnDestroy
  | OnPush (nIndex m_sReqCount : Z)
  | OnPushed (nIndex m_sReqCount : Z) (pReq : nat) (accepted : bool)
  | OnCancel (todo : list nat)
  | OnClear (todo : list nat).

(** [objects] are the requests allocated and not deleted, by address; [started]
    the requests as they were when the execution in progress of a worker began;
    [output] what has been written to the debugger. *)
Record demo : Type := Demo {
  pool_threads : config ThreadPool wlocal;
  objects : gmap nat AbstractRequest;
  m_RequestList : list nat;
  dialog : handler;
  started : gmap nat AbstractRequest;
  output : list wstring
}.

Definition demo_init : demo := Demo (winit 0) ∅ [] Ready ∅ [].

Definition set_dialog (h : handler) (c : demo) : demo :=
  Demo (pool_threads c) (objects c) (m_RequestList c) h (started c) (output c).
Definition set_threads (cf : config ThreadPool wlocal) (h : handler) (c : demo) : demo :=
  Demo cf (objects c) (m_RequestList c) h (started c) (output c).
Definition set_objects (o : gmap nat AbstractRequest) (l : list nat) (h : handler) (c : demo) : demo :=
  Demo (pool_threads c) o l h (started c) (output c).

(** A click on a button, with what the text fields hold for the two that read
    them, and the answers of the system to [Create]. *)
Inductive click : Type :=
  | BtnCreate (m_sThreadCount : Z) (granted memory : bool)
  | BtnDestroy
  | BtnPost (m_sReqCount : Z)
  | BtnCancel.

(** The handlers up to their first call; [m_sThreadCount] is a [short] passed
    for an [unsigned short]. *)
Definition OnBnClicked (b : click) (c : demo) : res demo :=
  match b with
  | BtnCreate n granted memory =>
      cf ← exec (Run 0 (CallCreate (ushort n) granted memory) 0) (pool_threads c);
      Done (set_threads cf OnCreate c)
  | BtnDestroy => cf ← exec (Run 0 CallDestroy 0) (pool_threads c); Done (set_threads cf OnDestroy c)
  | BtnPost n => Done (set_dialog (OnPush 0 n) c)
  | BtnCancel => Done (set_dialog (OnCancel (m_RequestList c)) c)
  end.

(** What the call of [Destroy] returns at the step the dialog's thread is about
    to make: the result of [DestroyPool], and [false] where it gives up. *)
Definition Destroy_returns (s : ThreadPool) (ls : list wlocal) (l : wlocal) : bool :=
  match l with
  | Joining =>
      match DestroyPool (λ h, bool_decide (ls !! h = Some Exited)) s with Done (ok, _) => ok | _ => false end
  | _ => false
  end.

(** [OnBnClickedCreate] and [OnBnClickedDestroy] while the call goes on, and after
    it; when a pool has been destroyed the requests are cleared. *)
Definition OnBnClickedCreate (x : winput) (c : demo) : res demo :=
  match (pool_threads c).2 !! 0%nat with
  | Some Outside => Done (set_dialog Ready c)
  | _ => cf ← exec (Run 0 x 0) (pool_threads c); Done (set_threads cf OnCreate c)
  end.

Definition OnBnClickedDestroy (x : winput) (c : demo) : res demo :=
  match (pool_threads c).2 !! 0%nat with
  | Some Outside => Done (set_dialog Ready c)
  | Some l =>
      cf ← exec (Run 0 x 0) (pool_threads c);
      Done (set_threads cf
        (if Destroy_returns (pool_threads c).1 (pool_threads c).2 l then OnClear (m_RequestList c) else OnDestroy) c)
  | None => Blocked
  end.

(** One iteration of the loop of [OnBnClickedPushRequest]: [fresh_request] is the
    address of the new request, if there is memory for it, and [memory] whether
    there is some for its place in the queue. *)
Definition OnBnClickedPushRequest (fresh_request : option nat) (memory : bool) (nIndex n : Z) (c : demo) : res demo :=
  if nIndex <? n then
    match fresh_request with
    | None => Done (set_dialog Ready c)
    | Some pReq =>
        if decide (pReq ∈ dom (objects c)) then Blocked
        else
          let '(s, ls) := pool_threads c in
          '(ok, s') ← PostRequest 0 memory pReq s;
          Done (Demo (s', ls) (<[pReq := SetRequestID nIndex new_request]> (objects c)) (m_RequestList c)
                     (OnPushed nIndex n pReq ok) (started c) (output c))
    end
  else Done (set_dialog Ready c).

(** [delete]: undefined behaviour on a request that has been deleted. *)
Definition delete_request (pReq : nat) (c : demo) : res (gmap nat AbstractRequest) :=
  if decide (pReq ∈ dom (objects c)) then Done (delete pReq (objects c)) else Fault.

(** After [PostRequest]: the request is kept, or deleted when it was refused. *)
Definition OnPushed_step (nIndex n : Z) (pReq : nat) (accepted : bool) (c : demo) : res demo :=
  if accepted then Done (set_objects (objects c) (m_RequestList c ++ [pReq]) (OnPush (nIndex + 1) n) c)
  else o ← delete_request pReq c; Done (set_objects o (m_RequestList c) Ready c).

(** The loop of [OnBnClickedCancel] *)
Definition OnBnClickedCancel (todo : list nat) (c : demo) : res demo :=
  match todo with
  | [] => Done (set_dialog Ready c)
  | pReq :: todo =>
      match objects c !! pReq with
      | None => Fault
      | Some q => Done (set_objects (<[pReq := Abort q]> (objects c)) (m_RequestList c) (OnCancel todo) c)
      end
  end.

(** [ClearRequests] *)
Definition ClearRequests (todo : list nat) (c : demo) : res demo :=
  match todo with
  | [] => Done (set_objects (objects c) [] Ready c)
  | pReq :: todo => o ← delete_request pReq c; Done (set_objects o (m_RequestList c) (OnClear todo) c)
  end.

(** ** The workers *)

(** [Request::Execute], which a worker calls on the request it has popped: its
    two accesses to the request, before the sleep and after it. *)
Definition execute_request (t pReq : nat) (c : demo) : res demo :=
  match objects c !! pReq with
  | None => Fault
  | Some q =>
      match started c !! t with
      | None =>
          Done (Demo (pool_threads c) (objects c) (m_RequestList c) (dialog c) (<[t := q]> (started c))
                     (output c ++ take 1 (Execute q q).2))
      | Some q0 =>
          cf ← exec (Run t (if (Execute q0 q).1 =? 0 then WGo else ExecutionFails) 0) (pool_threads c);
          Done (Demo cf (objects c) (m_RequestList c) (dialog c) (delete t (started c))
                     (output c ++ drop 1 (Execute q0 q).2))
      end
  end.

Definition demo_worker (t : nat) (x : winput) (c : demo) : res demo :=
  if decide (t = 0%nat) then Blocked
  else
    match (pool_threads c).2 !! t with
    | None => Blocked
    | Some (Popped pReq) => execute_request t pReq c
    | Some _ => cf ← exec (Run t x 0) (pool_threads c); Done (set_threads cf (dialog c) c)
    end.

(** ** The program *)

Inductive demo_event : Type :=
  | Click (b : click)
  | Dialog (x : winput) (fresh_request : option nat) (memory : bool)
  | Worker (t : nat) (x : winput).

Definition demo_exec (ev : demo_event) (c : demo) : res demo :=
  match ev with
  | Click b => match dialog c with Ready => OnBnClicked b c | _ => Blocked end
  | Dialog x fresh_request memory =>
      match dialog c with
      | Ready => Blocked
      | OnCreate => OnBnClickedCreate x c
      | OnDestroy => OnBnClickedDestroy x c
      | OnPush i n => OnBnClickedPushRequest fresh_request memory i n c
      | OnPushed i n pReq ok => OnPushed_step i n pReq ok c
      | OnCancel todo => OnBnClickedCancel todo c
      | OnClear todo => ClearRequests todo c
      end
  | Worker t x => demo_worker t x c
  end.

Definition demo_step (c c' : demo) : Prop := ∃ ev, demo_exec ev c = Done c'.
Definition demo_reachable : demo → demo → Prop := rtc demo_step.

Fixpoint demo_run (evs : list demo_event) (c : demo) : demo :=
  match evs with
  | [] => c
  | ev :: evs => match demo_exec ev c with Done c' => demo_run evs c' | _ => c end
  end.

(** ** Who has which request *)

(** What a run of a thread of the pool does to the threads. *)
Lemma pool_exec s ls t x w s' ls' :
  owned s ls → exec (Run t x w) (s, ls) = Done (s', ls') →
  owned s' ls' ∧ ∃ l l' e, ls !! t = Some l ∧ tstep ls t x s l = Done (s', l', e) ∧ ls' !! t = Some l' ∧
    (∀ i k, i ≠ t → ls !! i = Some k → ls' !! i = Some k) ∧
    (∀ i k, ls' !! i = Some k → i = t ∨ ls !! i = Some k ∨ k = Waiting).
Proof.
  intros Ho Hex. split.
  { eapply owned_step; [done|]. by apply (step_exec anything (Run t x w)). }
  pose proof (ti_lock _ _ _ (ow_threads _ _ Ho)) as Hlk.
  cbn in Hex. destruct (ls !! t) as [l|] eqn:Hl; [|done].
  destruct (winpool_step ls t x s l) as [[[s1 l'] e]| |] eqn:Hs; [|done..]. cbn in Hex. inv_res.
  match goal with K : apply_effect _ _ _ = Done _ |- _ => apply apply_effect_on in K; rename K into He end.
  exists l, l', e. split_and!; [done..| | |].
  - assert (<[t := l']> ls !! t = Some l') as Ht by (apply list_lookup_insert_eq; by eapply lookup_lt_Some).
    by destruct (effect_on_survives _ _ _ _ _ He Ht) as [?|[[] _]].
  - intros i k Hi Hk. assert (<[t := l']> ls !! i = Some k) as Ht by (by rewrite list_lookup_insert_ne).
    by destruct (effect_on_survives _ _ _ _ _ He Ht) as [?|[[] _]].
  - intros i k Hk. destruct (decide (i = t)) as [|Hne]; [by left|right].
    apply (effect_on_lookup _ _ _ _ _ He) in Hk as [Hk|[(k0 & _ & [] & _)|[-> _]]]; [|done|].
    + left. by rewrite list_lookup_insert_ne in Hk.
    + right. by destruct (spawn_Waiting _ _ _ _ _ _ _ _ Hlk Hs) as [-> _].
Qed.

(** Each request allocated is kept by the dialog, in one place. *)
Definition kept (c : demo) : Prop :=
  match dialog c with
  | OnPushed _ _ pReq _ => (pReq ∉ m_RequestList c) ∧ dom (objects c) = list_to_set (m_RequestList c) ∪ {[pReq]}
  | OnClear todo => NoDup todo ∧ dom (objects c) = list_to_set todo
  | OnCancel todo => (∀ r, r ∈ todo → r ∈ m_RequestList c) ∧ dom (objects c) = list_to_set (m_RequestList c)
  | _ => dom (objects c) = list_to_set (m_RequestList c)
  end.

(** Nobody in the pool has the request: it is not in the hands of a worker, nor
    in a queue from which a worker may take it. *)
Definition unknown (s : ThreadPool) (ls : list wlocal) (r : nat) : Prop :=
  (∀ t, ls !! t ≠ Some (Popped r)) ∧ (all_created s → r ∉ m_RequestQueue s).

(** Where the thread of the dialog is, and the requests the dialog is about to
    delete. *)
Definition dialog_place (c : demo) : Prop :=
  let '(s, ls) := pool_threads c in
  match dialog c with
  | OnCreate | OnDestroy => True
  | OnPushed _ _ pReq false => ls !! 0%nat = Some Outside ∧ unknown s ls pReq
  | OnClear _ => ls !! 0%nat = Some Outside ∧ m_phThreadList s = None
  | _ => ls !! 0%nat = Some Outside
  end.

Record demo_ok (c : demo) : Prop := DemoOk {
  ok_pool : owned (pool_threads c).1 (pool_threads c).2;
  ok_place : dialog_place c;
  ok_known : ∀ r, r ∈ dom (objects c) ∨ unknown (pool_threads c).1 (pool_threads c).2 r;
  ok_kept : kept c;
  ok_nodup : NoDup (m_RequestList c)
}.

(** A request the pool does not know stays unknown, but if it is posted. *)
Lemma unknown_exec s ls t x w s' ls' r :
  owned s ls → exec (Run t x w) (s, ls) = Done (s', ls') →
  (ls !! t = Some Outside → ∀ r m, x ≠ CallPost r m) → unknown s ls r → unknown s' ls' r.
Proof.
  intros Ho Hex Hx [Hh Hq]. destruct (pool_exec _ _ _ _ _ _ _ Ho Hex) as (_ & l & l' & e & Hl & Hs & Hl' & _ & Hthr).
  destruct (requests_step _ _ _ _ _ _ _ _ Ho Hl Hs) as (Hsub & Hwhole & Hpop); [intros ->; auto|]. split.
  - intros i Hi. destruct (Hthr _ _ Hi) as [->|[?|?]]; [|by eapply Hh|done]. assert (l' = Popped r) as -> by congruence.
    destruct (decide (l = Popped r)) as [->|Hne]; [by eapply Hh|].
    apply Hq; [|by apply Hpop]. eapply popping_all_created; [done..|].
    pose proof (ti_lock _ _ _ (ow_threads _ _ Ho)) as Hlk. clear - Hs Hlk. by wstep_cases Hlk Hs.
  - intros Hall Hin. destruct (Hwhole Hall) as [Hall0|E]; [|rewrite E in Hin; by apply elem_of_nil in Hin].
    by apply Hq, Hsub.
Qed.

Lemma unknown_idle s ls r :
  owned s ls → m_phThreadList s = None → unknown s ls r.
Proof.
  intros Ho Hn. split.
  - intros t Ht. destruct (no_threads_idle _ _ t (Popped r) Ho Hn) as [_ H]. by specialize (H Ht).
  - intros (hs & E & _). congruence.
Qed.

(** [PostRequest] on the thread of the dialog is the call of [CppPoolRun]. *)
Lemma PostRequest_exec s ls memory r ok s' :
  ls !! 0%nat = Some Outside → PostRequest 0 memory r s = Done (ok, s') →
  exec (Run 0 (CallPost r memory) 0) (s, ls) = Done (s', ls).
Proof.
  intros H0 Hp. cbn. rewrite H0. cbn. unfold after. rewrite Hp. cbn. by rewrite list_insert_id.
Qed.

Lemma PostRequest_effect s memory r ok s' :
  m_LockWorkerThread s = Unowned → PostRequest 0 memory r s = Done (ok, s') →
  (all_created s' → all_created s) ∧ (∀ r', r' ∈ m_RequestQueue s' → r' ∈ m_RequestQueue s ∨ r' = r).
Proof.
  intros Hlk Hp. destruct (free_pool s Hlk) as (d & n & sem & act & pend & h & th & q & po & pp & ex & ->).
  rewrite PostRequest_free in Hp. unfold all_created.
  split_results; cbn; (split; [done|]); intros r' Hr'; set_solver.
Qed.

(** A refused request is unknown to the pool. *)
Lemma refused_unknown s ls memory r s' :
  owned s ls → ls !! 0%nat = Some Outside → unknown s ls r → PostRequest 0 memory r s = Done (false, s') →
  unknown s' ls r.
Proof.
  intros Ho H0 Hu Hp. pose proof (ti_lock _ _ _ (ow_threads _ _ Ho)) as Hlk.
  destruct (PostRequest_effect _ _ _ _ _ Hlk Hp) as [Hall _].
  assert (all_created s ∨ ¬ all_created s) as [Ha|Hn].
  { unfold all_created. destruct (m_phThreadList s) as [hs|]; [|right; by intros (? & ? & _)].
    destruct (decide (Z.of_nat (length hs) = m_usThreadCount s)); [left; eauto|right].
    by intros (hs' & [= <-] & ?). }
  - by rewrite (refused_not_queued _ _ _ _ _ Ho H0 (or_introl Ha) Hp).
  - split; [apply Hu|]. intros Ha. by apply Hall in Ha.
Qed.

(** ** The invariant is kept *)

Section keeping.
Context (c : demo) (Hok : demo_ok c).

(** A run of a thread of the pool, other than a post. *)
Lemma threads_ok t x w cf :
  exec (Run t x w) (pool_threads c) = Done cf →
  ((pool_threads c).2 !! t = Some Outside → ∀ r m, x ≠ CallPost r m) →
  owned cf.1 cf.2 ∧ (∀ r, r ∈ dom (objects c) ∨ unknown cf.1 cf.2 r) ∧
  (∀ r, unknown (pool_threads c).1 (pool_threads c).2 r → unknown cf.1 cf.2 r) ∧
  (t ≠ 0%nat → (pool_threads c).2 !! 0%nat = Some Outside → cf.2 !! 0%nat = Some Outside).
Proof.
  intros Hex Hx. pose proof (ok_pool c Hok) as Ho. pose proof (ok_known c Hok) as Hk.
  destruct (pool_threads c) as [s ls], cf as [s' ls']. cbn in *.
  assert (∀ r, unknown s ls r → unknown s' ls' r) as Hun by (intros r; by eapply unknown_exec).
  destruct (pool_exec _ _ _ _ _ _ _ Ho Hex) as (Ho' & l & l' & e & _ & _ & _ & Hother & _).
  split_and!; [done| |done|intros Ht; by apply Hother]. intros r. destruct (Hk r); auto.
Qed.
End keeping.

Lemma Destroy_returns_done s ls l x w s' ls' :
  ls !! 0%nat = Some l → exec (Run 0 x w) (s, ls) = Done (s', ls') → Destroy_returns s ls l = true →
  m_phThreadList s' = None ∧ ls' !! 0%nat = Some Outside.
Proof.
  intros Hl Hex Hr. destruct l; try done. cbn in Hex. rewrite Hl in Hex. unfold Destroy_returns in Hr.
  cbn in Hex. unfold after in Hex.
  destruct (DestroyPool _ s) as [[ok s1]| |] eqn:Hd; [|done..]. subst ok. cbn in Hex. inv_res.
  split; [|apply list_lookup_insert_eq; by eapply lookup_lt_Some].
  unfold DestroyPool in Hd. split_matches Hd; inv_res; done.
Qed.

(** The handlers of the four buttons, when they start. *)
Lemma click_ok b c c' : demo_ok c → dialog c = Ready → OnBnClicked b c = Done c' → demo_ok c'.
Proof.
  intros Hok Hd H. pose proof Hok as [Ho Hp Hk Hkept Hn]. unfold dialog_place, kept in Hp, Hkept. rewrite Hd in Hp, Hkept.
  destruct b as [n granted memory| |n|]; cbn in H; inv_res.
  - destruct (threads_ok c Hok _ _ _ _ ltac:(eassumption) ltac:(done)) as (Ho' & Hk' & _). split; try done.
    unfold dialog_place. cbn. by destruct x.
  - destruct (threads_ok c Hok _ _ _ _ ltac:(eassumption) ltac:(done)) as (Ho' & Hk' & _). split; try done.
    unfold dialog_place. cbn. by destruct x.
  - by split.
  - by split.
Qed.

Lemma create_ok x c c' : demo_ok c → dialog c = OnCreate → OnBnClickedCreate x c = Done c' → demo_ok c'.
Proof.
  intros Hok Hd H. pose proof Hok as [Ho Hp Hk Hkept Hn]. unfold kept in Hkept. rewrite Hd in Hkept.
  unfold OnBnClickedCreate in H. destruct ((pool_threads c).2 !! 0%nat) as [l|] eqn:H0.
  - destruct (decide (l = Outside)) as [->|Hl].
    + inv_res. split; try done. unfold dialog_place. cbn. by destruct (pool_threads c).
    + assert (exists cf, exec (Run 0 x 0) (pool_threads c) = Done cf ∧ c' = set_threads cf OnCreate c) as (cf & Hex & ->).
      { destruct l; try done; inv_res; eauto. }
      destruct (threads_ok c Hok _ _ _ _ Hex) as (Ho' & Hk' & _); [congruence|]. split; try done.
      unfold dialog_place. cbn. by destruct cf.
  - inv_res. destruct (threads_ok c Hok _ _ _ _ ltac:(eassumption)) as (Ho' & Hk' & _); [congruence|]. split; try done.
    unfold dialog_place. cbn. by destruct x0.
Qed.

Lemma destroy_ok x c c' : demo_ok c → dialog c = OnDestroy → OnBnClickedDestroy x c = Done c' → demo_ok c'.
Proof.
  intros Hok Hd H. pose proof Hok as [Ho Hp Hk Hkept Hn]. unfold kept in Hkept. rewrite Hd in Hkept.
  unfold OnBnClickedDestroy in H. destruct ((pool_threads c).2 !! 0%nat) as [l|] eqn:H0; [|done].
  destruct (decide (l = Outside)) as [->|Hl].
  { inv_res. split; try done. unfold dialog_place. cbn. by destruct (pool_threads c). }
  assert (∃ cf, exec (Run 0 x 0) (pool_threads c) = Done cf ∧ c' = set_threads cf
    (if Destroy_returns (pool_threads c).1 (pool_threads c).2 l then OnClear (m_RequestList c) else OnDestroy) c)
    as (cf & Hex & ->) by (destruct l; try done; inv_res; eauto).
  destruct (threads_ok c Hok _ _ _ _ Hex) as (Ho' & Hk' & _); [congruence|].
  destruct (Destroy_returns _ _ _) eqn:Hr; split; try done; unfold dialog_place; cbn; destruct cf as [s' ls']; [|done].
  destruct (pool_threads c) as [s ls]. by destruct (Destroy_returns_done _ _ _ _ _ _ _ H0 Hex Hr).
Qed.

Lemma push_ok fr memory i n c c' :
  demo_ok c → dialog c = OnPush i n → OnBnClickedPushRequest fr memory i n c = Done c' → demo_ok c'.
Proof.
  intros Hok Hd H. pose proof Hok as [Ho Hp Hk Hkept Hn]. unfold dialog_place, kept in Hp, Hkept. rewrite Hd in Hp, Hkept.
  unfold OnBnClickedPushRequest in H.
  destruct (i <? n); [destruct fr as [pReq|]; [case_decide as Hnew; [done|]|]|]; [|inv_res; by split..].
  destruct (pool_threads c) as [s ls] eqn:Hc. cbn in *.
  destruct (PostRequest 0 memory pReq s) as [[ok s']| |] eqn:Hpost; [|done..]. cbn in H. inv_res.
  pose proof (PostRequest_exec _ _ _ _ _ _ Hp Hpost) as Hex.
  destruct (PostRequest_effect _ _ _ _ _ (ti_lock _ _ _ (ow_threads _ _ Ho)) Hpost) as [Hall Hq].
  destruct (pool_exec _ _ _ _ _ _ _ Ho Hex) as (Ho' & _).
  assert (pReq ∉ m_RequestList c) as Hnin by (rewrite Hkept in Hnew; set_solver).
  split; cbn; [done| | | |done].
  - unfold dialog_place. cbn. destruct ok; [done|]. split; [done|]. destruct (Hk pReq) as [?|Hu]; [done|].
    exact (refused_unknown _ _ _ _ _ Ho Hp Hu Hpost).
  - intros r. destruct (decide (r = pReq)) as [->|Hr]; [left; set_solver|].
    destruct (Hk r) as [?|[Hh Hq0]]; [left; set_solver|right]. split; [done|].
    intros Ha Hin. apply Hq in Hin as [Hin|?]; [|done]. by apply Hq0 in Hin; [|apply Hall].
  - split; [done|]. cbn. rewrite dom_insert_L, Hkept. set_solver.
Qed.

Lemma delete_request_ok pReq c o :
  delete_request pReq c = Done o → pReq ∈ dom (objects c) ∧ dom o = dom (objects c) ∖ {[pReq]}.
Proof. unfold delete_request. case_decide; [|done]. intros [= <-]. by rewrite dom_delete_L. Qed.

Lemma pushed_ok i n pReq ok c c' :
  demo_ok c → dialog c = OnPushed i n pReq ok → OnPushed_step i n pReq ok c = Done c' → demo_ok c'.
Proof.
  intros Hok Hd H. pose proof Hok as [Ho Hp Hk Hkept Hn]. unfold dialog_place, kept in Hp, Hkept. rewrite Hd in Hp, Hkept.
  destruct Hkept as [Hnin Hdom]. destruct (pool_threads c) as [s ls] eqn:Hc. unfold OnPushed_step in H.
  destruct ok; inv_res.
  - split; cbn; rewrite ?Hc; [done|by unfold dialog_place; cbn; rewrite Hc|done| |].
    + unfold kept. cbn. rewrite Hdom, list_to_set_app_L. set_solver.
    + apply NoDup_app. split_and!; [done|set_solver|apply NoDup_singleton].
  - match goal with K : delete_request _ _ = Done _ |- _ => apply delete_request_ok in K as [Hin Ho1] end.
    destruct Hp as [Hp Hu].
    split; cbn; rewrite ?Hc; [done|by unfold dialog_place; cbn; rewrite Hc| | |done].
    + intros r. rewrite Ho1. destruct (decide (r = pReq)) as [->|Hr]; [by right|].
      destruct (Hk r) as [?|?]; [left; set_solver|by right].
    + unfold kept. cbn. rewrite Ho1, Hdom. set_solver.
Qed.

Lemma cancel_ok todo c c' :
  demo_ok c → dialog c = OnCancel todo → OnBnClickedCancel todo c = Done c' → demo_ok c'.
Proof.
  intros Hok Hd H. pose proof Hok as [Ho Hp Hk Hkept Hn]. unfold dialog_place, kept in Hp, Hkept. rewrite Hd in Hp, Hkept.
  destruct Hkept as [Hsub Hdom]. destruct (pool_threads c) as [s ls] eqn:Hc.
  destruct todo as [|pReq todo]; cbn in H; [inv_res|].
  { split; cbn; rewrite ?Hc; try done. by unfold dialog_place; cbn; rewrite Hc. }
  destruct (objects c !! pReq) as [q|] eqn:Hq; [|done]. inv_res.
  assert (dom (<[pReq := Abort q]> (objects c)) = dom (objects c)) as E.
  { rewrite dom_insert_L. apply elem_of_dom_2 in Hq. set_solver. }
  split; cbn; rewrite ?Hc; [done|by unfold dialog_place; cbn; rewrite Hc| | |done].
  - intros r. rewrite E. apply Hk.
  - split; cbn; [|by rewrite E]. set_solver.
Qed.

Lemma clear_ok todo c c' :
  demo_ok c → dialog c = OnClear todo → ClearRequests todo c = Done c' → demo_ok c'.
Proof.
  intros Hok Hd H. pose proof Hok as [Ho Hp Hk Hkept Hn]. unfold dialog_place, kept in Hp, Hkept. rewrite Hd in Hp, Hkept.
  destruct Hkept as [Hnd Hdom]. destruct (pool_threads c) as [s ls] eqn:Hc. destruct Hp as [Hp Hnone].
  assert (∀ r, unknown s ls r) as Hun by (intros r; by apply unknown_idle).
  destruct todo as [|pReq todo]; cbn in H; inv_res.
  - split; cbn; rewrite ?Hc; [done|by unfold dialog_place; cbn; rewrite Hc|auto|done|apply NoDup_nil_2].
  - match goal with K : delete_request _ _ = Done _ |- _ => apply delete_request_ok in K as [Hin Ho1] end.
    apply NoDup_cons in Hnd as [Hnin Hnd].
    split; cbn; rewrite ?Hc; [done|by unfold dialog_place; cbn; rewrite Hc|auto| |done].
    split; cbn; [done|]. rewrite Ho1, Hdom. set_solver.
Qed.

(** A step of a worker, whatever it does besides. *)
Lemma worker_threads_ok t x c cf st out :
  demo_ok c → t ≠ 0%nat → (pool_threads c).2 !! t ≠ Some Outside → exec (Run t x 0) (pool_threads c) = Done cf →
  demo_ok (Demo cf (objects c) (m_RequestList c) (dialog c) st out).
Proof.
  intros Hok Ht Hl Hex. pose proof Hok as [Ho Hp Hk Hkept Hn].
  destruct (threads_ok c Hok _ _ _ _ Hex) as (Ho' & Hk' & Hun & H0); [done|]. split; try done.
  unfold dialog_place in *. cbn. destruct (pool_threads c) as [s ls], cf as [s' ls']. cbn in *. specialize (H0 Ht).
  destruct (dialog c) as [| | | |i n pReq [] | |todo]; try by auto.
  - destruct Hp as [Hp Hu]. auto.
  - destruct Hp as [Hp Hnone]. split; [auto|].
    destruct (pool_exec _ _ _ _ _ _ _ Ho Hex) as (_ & l & l' & e & Hlt & Hs & _).
    destruct (list_step _ _ _ _ _ _ _ _ (ti_lock _ _ _ (ow_threads _ _ Ho)) Hs)
      as [E|[[_ ->]|[(hs & E & _)|(hs & E & _)]]]; congruence.
Qed.

Lemma not_owner_not_outside s ls t : owned s ls → t ≠ 0%nat → ls !! t ≠ Some Outside.
Proof.
  intros Ho Ht Hl. pose proof (ti_role _ _ _ (ow_threads _ _ Ho) _ _ Hl) as Hr. unfold wrole in Hr. cbn in Hr. lia.
Qed.

Lemma worker_ok t x c c' : demo_ok c → demo_worker t x c = Done c' → demo_ok c'.
Proof.
  intros Hok H. pose proof (not_owner_not_outside _ _ t (ok_pool c Hok)) as Hno.
  unfold demo_worker in H. case_decide as Ht; [done|]. specialize (Hno Ht).
  destruct ((pool_threads c).2 !! t) as [l|] eqn:Hl; [|done]. rewrite <- Hl in Hno.
  assert (∀ cf, exec (Run t x 0) (pool_threads c) = Done cf → demo_ok (set_threads cf (dialog c) c)) as Hrun.
  { intros cf Hex. by eapply worker_threads_ok. }
  destruct l; try (inv_res; by apply Hrun).
  unfold execute_request in H. destruct (objects c !! r) as [q|]; [|done].
  destruct (started c !! t) as [q0|]; inv_res; [by eapply worker_threads_ok|].
  destruct Hok as [Ho Hp Hk Hkept Hn]. by split.
Qed.

Lemma demo_step_ok c c' : demo_ok c → demo_step c c' → demo_ok c'.
Proof.
  intros Hok [[b|x fr memory|t x] H]; cbn in H.
  - destruct (dialog c) eqn:Hd; try done. by eapply click_ok.
  - destruct (dialog c) eqn:Hd; [done|eapply create_ok|eapply destroy_ok|eapply push_ok|eapply pushed_ok
                                |eapply cancel_ok|eapply clear_ok]; eauto.
  - by eapply worker_ok.
Qed.

Lemma demo_init_ok : demo_ok demo_init.
Proof.
  split; [apply owned_init|done| |done|apply NoDup_nil_2]. intros r. right. by apply unknown_idle; [apply owned_init|].
Qed.

Lemma demo_reachable_ok c : demo_reachable demo_init c → demo_ok c.
Proof.
  intros H. assert (∀ c0, demo_ok c0 → demo_reachable c0 c → demo_ok c) as Hgen; [|by eapply Hgen, H; apply demo_init_ok].
  clear H. intros c0 H0 H. induction H as [|c1 c2 c3 Hs _ IH]; [done|]. apply IH. by eapply demo_step_ok.
Qed.

Lemma demo_run_reachable evs c : demo_reachable c (demo_run evs c).
Proof.
  revert c. induction evs as [|ev evs IH]; intros c; cbn; [constructor|].
  destruct (demo_exec ev c) as [c'| |] eqn:E; [|constructor..]. eapply rtc_l; [by exists ev|apply IH].
Qed.

(** ** What can go wrong *)

(** The dialog waits for the threads of a pool of which two threads or more were
    not created: the array holds handles nobody wrote. *)
Definition waits_for_garbage (c : demo) : Prop :=
  (pool_threads c).2 !! 0%nat = Some Joining ∧
  ∃ hs, m_phThreadList (pool_threads c).1 = Some hs ∧ Z.of_nat (length hs) + 1 < m_usThreadCount (pool_threads c).1.

Lemma exec_fault c t x w :
  demo_ok c → exec (Run t x w) (pool_threads c) = Fault → waits_for_garbage c ∧ t = 0%nat.
Proof.
  intros Hok Hf. pose proof (ok_pool c Hok) as Ho. unfold waits_for_garbage. destruct (pool_threads c) as [s ls]. cbn [fst snd] in *.
  pose proof (ow_threads _ _ Ho) as Hti. pose proof (ti_lock _ _ _ Hti) as Hlk.
  destruct (can_fault_inv anything s ls t) as (l & y & Hl & _ & Hs); [by exists x, w|].
  destruct (fault_inv _ _ _ _ _ Hlk Hs) as [->|[-> Hn]].
  - pose proof (ti_role _ _ _ Hti _ _ Hl) as Hr. unfold wrole in Hr. cbn in Hr.
    assert (t = 0%nat) as -> by lia. split; [|done]. split; [done|].
    cbn in Hs. unfold after, DestroyPool in Hs. destruct Ho as [_ Hu Hph]. unfold phase in Hph.
    destruct (m_phThreadList s) as [hs|].
    + exists hs. split; [done|]. destruct Hph as (_ & Hlen & _).
      destruct (Z.of_nat (length hs) =? m_usThreadCount s) eqn:E1; [by destruct (forallb _ _)|].
      destruct (Z.of_nat (length hs) + 1 =? m_usThreadCount s) eqn:E2; bools; [done|lia].
    + destruct Hph as (_ & _ & Hout). pose proof (count_if_pos joining _ _ _ Hl eq_refl). pose proof (count_users ls). lia.
  - destruct (ti_creating _ _ _ Hti _ _ Hl eq_refl) as [hs Hhs]. congruence.
Qed.

Lemma exec_then_fault {A} c t x w (k : config ThreadPool wlocal → res A) :
  demo_ok c → (∀ cf, k cf ≠ Fault) → (cf ← exec (Run t x w) (pool_threads c); k cf) = Fault →
  waits_for_garbage c ∧ t = 0%nat.
Proof.
  intros Hok Hk Hf. destruct (exec _ _) as [cf| |] eqn:E; [by destruct (Hk cf)|done|by eapply exec_fault].
Qed.

(** Only the dialog waiting in [Create] or [Destroy] has undefined behaviour: no
    request is used or deleted after it has been deleted. *)
Lemma demo_fault c ev : demo_ok c → demo_exec ev c = Fault → waits_for_garbage c.
Proof.
  intros Hok H. pose proof Hok as [Ho Hp Hk Hkept Hn].
  destruct ev as [b|x fr m|t x]; cbn in H.
  - destruct (dialog c); try done. destruct b; cbn in H; try done; eapply exec_then_fault in H as [H _]; done.
  - destruct (dialog c) as [| | |i n|i n r ok|todo|todo] eqn:Hd; try done; unfold dialog_place, kept in Hp, Hkept; rewrite Hd in Hp, Hkept.
    + unfold OnBnClickedCreate in H. destruct (_ !! 0%nat) as [[]|]; try done; eapply exec_then_fault in H as [H _]; done.
    + unfold OnBnClickedDestroy in H. destruct (_ !! 0%nat) as [[]|]; try done; eapply exec_then_fault in H as [H _]; done.
    + unfold OnBnClickedPushRequest in H. destruct (i <? n); [|done]. destruct fr as [r|]; [|done]. case_decide; [done|].
      exfalso. destruct (pool_threads c) as [s ls].
      destruct (free_pool s (ti_lock _ _ _ (ow_threads _ _ Ho))) as (d & n0 & sem & act & pend & h & th & q & po & pp & ex & ->).
      rewrite PostRequest_free in H. by repeat case_match.
    + exfalso. destruct Hkept as [_ Hdom]. unfold OnPushed_step, delete_request in H. destruct ok; [done|].
      rewrite decide_True in H by set_solver. done.
    + exfalso. destruct Hkept as [Hsub Hdom]. destruct todo as [|r todo]; [done|]. cbn in H.
      destruct (objects c !! r) eqn:E; [done|]. apply not_elem_of_dom in E. set_solver.
    + exfalso. destruct Hkept as [_ Hdom]. destruct todo as [|r todo]; [done|]. cbn in H. unfold delete_request in H.
      rewrite decide_True in H by set_solver. done.
  - unfold demo_worker in H. case_decide as Ht; [done|]. destruct (_ !! t) as [l|] eqn:Hl; [|done].
    assert (∀ cf, Done (set_threads cf (dialog c) c) ≠ Fault) as Hd by done.
    destruct l; try (eapply exec_then_fault in H as [? _]; done).
    unfold execute_request in H. destruct (objects c !! r) as [q|] eqn:Hq.
    + destruct (started c !! t); [|done]. eapply exec_then_fault in H as [? _]; done.
    + exfalso. apply not_elem_of_dom in Hq. destruct (Hk r) as [?|[Hh _]]; [done|]. by destruct (Hh t).
Qed.


(** ** Two sessions *)

Definition ui (n : nat) : list demo_event := replicate n (Dialog WGo None true).
Definition work (t n : nat) : list demo_event := replicate n (Worker t WGo).

(** A pool of two threads; two requests, of which the first worker has begun to
    execute one; they are aborted, and a request is finished. *)
Definition session : demo :=
  demo_run (Click (BtnCreate 2 true true) :: ui 5 ++ Click (BtnPost 2) ::
    Dialog WGo (Some 100%nat) true :: ui 1 ++ Dialog WGo (Some 200%nat) true :: ui 2 ++
    work 1 6 ++ Click BtnCancel :: ui 3 ++ work 1 1) demo_init.

Lemma session_output :
  output session = [wide "##RQ## [RID=00000000] [Desc=Execution started]"; wide "##RQ## [RID=00000000] [Desc=Request aborted]"].
Proof. vm_compute. reflexivity. Qed.

(** The second worker executes the other request, and the pool is destroyed. *)
Definition session_end : demo :=
  demo_run (work 1 3 ++ work 2 10 ++ Click BtnDestroy :: ui 3 ++ work 1 5 ++ work 2 5 ++ ui 1) session.


(** When the last thread of a pool cannot be created the pool stays, with its flag
    set: nothing can destroy it.  A request posted then may be refused although
    it is in the queue, and the dialog deletes it; no worker takes it. *)
Definition crippled : demo :=
  demo_run (Click (BtnCreate 2 true true) :: ui 1 ++ Dialog ThreadFails None true :: ui 5 ++
    Click (BtnPost 1) :: Dialog WGo (Some 100%nat) true :: ui 1) demo_init.

Lemma deleted_but_queued :
  demo_reachable demo_init crippled ∧ dialog crippled = Ready ∧ objects crippled = ∅ ∧
  m_RequestQueue (pool_threads crippled).1 = [100%nat] ∧ m_bDestroyed (pool_threads crippled).1 = true ∧
  (pool_threads crippled).2 = [Outside; Waiting].
Proof. split; [apply demo_run_reachable|]. split_and!; vm_compute; reflexivity. Qed.
