(* ===== verification/Workqueue.v ===== *)
(** * workqueue.c: the linked list of jobs

    The two list macros of [libevent-thread/workqueue.c] on a heap of nodes, and
    the list of waiting jobs as a last-in first-out [JobStore].  The threads
    are in [WorkqueueRun]. *)

From S2P Require Import Prelude Store.
Open Scope Z_scope.

(** [struct job]; the function and the data are one number. *)
Record job_t : Type := MkJob { job_function : Z; jprev : option nat; jnext : option nat }.

(** The nodes the callers have allocated, and the head of the list. *)
Record joblist : Type := JobList { jheap : gmap nat job_t; waiting_jobs : option nat }.

Definition node (h : gmap nat job_t) (a : nat) : res job_t :=
  match h !! a with Some j => Done j | None => Fault end.

Definition set_prev (p : option nat) (j : job_t) : job_t := MkJob (job_function j) p (jnext j).
Definition set_next (n : option nat) (j : job_t) : job_t := MkJob (job_function j) (jprev j) n.

(** The old head keeps the [prev] it had. *)
Definition LL_ADD (item : nat) (q : joblist) : res joblist :=
  j ← node (jheap q) item;
  Done (JobList (<[item := MkJob (job_function j) None (waiting_jobs q)]> (jheap q)) (Some item)).

Definition LL_REMOVE (item : nat) (q : joblist) : res joblist :=
  j ← node (jheap q) item;
  h1 ← match jprev j with
       | None => Done (jheap q)
       | Some p => jp ← node (jheap q) p; Done (<[p := set_next (jnext j) jp]> (jheap q))
       end;
  j1 ← node h1 item;
  h2 ← match jnext j1 with
       | None => Done h1
       | Some n => jn ← node h1 n; Done (<[n := set_prev (jprev j1) jn]> h1)
       end;
  j2 ← node h2 item;
  Done (JobList (<[item := MkJob (job_function j2) None None]> h2)
                (if decide (waiting_jobs q = Some item) then jnext j2 else waiting_jobs q)).

(** ** The list as it can be read *)

(** The nodes [ts], with their jobs, follow each other from [o] on. *)
Fixpoint lchain (h : gmap nat job_t) (o : option nat) (ts : list (nat * Z)) : Prop :=
  match ts with
  | [] => o = None
  | (a, f) :: ts => o = Some a ∧ ∃ n, h !! a = Some (MkJob f None n) ∧ lchain h n ts
  end.

Fixpoint follow (fuel : nat) (h : gmap nat job_t) (o : option nat) : list (nat * Z) :=
  match fuel, o with
  | S fuel, Some a => match h !! a with Some j => (a, job_function j) :: follow fuel h (jnext j) | None => [] end
  | _, _ => []
  end.

Definition listed_jobs (q : joblist) : list (nat * Z) := follow (size (jheap q)) (jheap q) (waiting_jobs q).

Record well_linked (q : joblist) (ts : list (nat * Z)) : Prop := WellLinked {
  wl_chain : lchain (jheap q) (waiting_jobs q) ts;
  wl_nodup : NoDup ts.*1;
  wl_dom : dom (jheap q) = list_to_set ts.*1
}.

Lemma lchain_follow h o ts n : lchain h o ts → (length ts ≤ n)%nat → follow n h o = ts.
Proof.
  revert o n. induction ts as [|[a f] ts IH]; intros o n H Hn; cbn in *.
  - subst. by destruct n.
  - destruct H as (-> & k & Ha & H), n as [|n]; [lia|]. cbn. rewrite Ha. cbn. f_equal. apply IH; [done|lia].
Qed.

Lemma well_linked_jobs q ts : well_linked q ts → listed_jobs q = ts.
Proof.
  intros [Hc Hn Hd]. unfold listed_jobs. apply lchain_follow; [done|].
  rewrite <- size_dom, Hd, size_list_to_set, length_fmap; done.
Qed.

Lemma lchain_ext h h' o ts :
  lchain h o ts → (∀ a, a ∈ ts.*1 → h' !! a = h !! a) → lchain h' o ts.
Proof.
  revert o. induction ts as [|[a f] ts IH]; intros o H Hh; cbn in *; [done|].
  destruct H as (-> & n & Ha & H). split; [done|]. exists n. rewrite Hh by set_solver.
  split; [done|]. apply IH; [done|]. set_solver.
Qed.

(** Adding a node allocated outside the list puts its job in front. *)
Lemma LL_ADD_spec q ts a f p n :
  well_linked (JobList (delete a (jheap q)) (waiting_jobs q)) ts → jheap q !! a = Some (MkJob f p n) →
  ∃ q', LL_ADD a q = Done q' ∧ well_linked q' ((a, f) :: ts).
Proof.
  intros [Hc Hn Hd] Ha. cbn in *. unfold LL_ADD, node. rewrite Ha. cbn. eexists. split; [done|].
  rewrite dom_delete_L in Hd.
  assert (a ∉ ts.*1) as Hf by (rewrite <- (elem_of_list_to_set (C := gset nat)), <- Hd; set_solver).
  apply elem_of_dom_2 in Ha. split; cbn.
  - split; [done|]. exists (waiting_jobs q). rewrite lookup_insert_eq. split; [done|].
    eapply lchain_ext; [done|]. intros b Hb. rewrite lookup_insert_ne, lookup_delete_ne; set_solver.
  - by constructor.
  - rewrite dom_insert_L, <- Hd. rewrite (union_comm_L _ (dom (jheap q) ∖ _)).
    rewrite (union_comm_L (dom _ ∖ _)). rewrite <- union_difference_singleton_L by done. set_solver.
Qed.

(** Removing the head takes the last job added. *)
Lemma LL_REMOVE_head q ts a f :
  well_linked q ((a, f) :: ts) →
  ∃ q', LL_REMOVE a q = Done q' ∧ well_linked (JobList (delete a (jheap q')) (waiting_jobs q')) ts ∧
        jheap q' !! a = Some (MkJob f None None).
Proof.
  intros [Hc Hn Hd]. cbn in *. destruct Hc as (Hw & n & Ha & Hc). apply NoDup_cons in Hn as [Hna Hn].
  unfold LL_REMOVE, node. rewrite Ha. cbn. rewrite Ha. cbn.
  destruct ts as [|[b g] ts]; cbn in Hc.
  - subst n. cbn. rewrite Ha. cbn. rewrite decide_True by done. eexists. split; [done|]. cbn.
    split; [|by rewrite lookup_insert_eq]. split; cbn; [done|done|].
    rewrite dom_delete_L, dom_insert_L, Hd. cbn. set_solver.
  - destruct Hc as (-> & m & Hb & Hc). cbn in *. rewrite Hb. cbn.
    rewrite lookup_insert_ne by set_solver. rewrite Ha. cbn. rewrite decide_True by done.
    eexists. split; [done|]. cbn. split; [|by rewrite lookup_insert_eq].
    apply NoDup_cons in Hn as [Hnb Hn].
    assert (b ≠ a) as Hba by set_solver. assert (a ∉ ts.*1) as Hna' by set_solver.
    split; cbn.
    + split; [done|]. exists m. rewrite lookup_delete_ne, lookup_insert_ne, lookup_insert_eq by done.
      split; [done|]. eapply lchain_ext; [done|]. intros c Hc'.
      rewrite lookup_delete_ne, !lookup_insert_ne; [done|set_solver..].
    + by constructor.
    + rewrite dom_delete_L, !dom_insert_L, Hd. cbn. set_solver.
Qed.

(** The macros only keep [prev] right for the head: removing a job that is not
    the head cuts off the jobs behind it and leaves it in the list. *)
Lemma LL_REMOVE_second q a f b g ts :
  well_linked q ((a, f) :: (b, g) :: ts) →
  ∃ q', LL_REMOVE b q = Done q' ∧ lchain (jheap q') (waiting_jobs q') [(a, f); (b, g)].
Proof.
  intros [(Hw & n & Ha & -> & m & Hb & Hc) Hn Hd]. cbn in Hn.
  apply NoDup_cons in Hn as [Hna Hn]. apply NoDup_cons in Hn as [Hnb Hn].
  assert (b ≠ a) as Hba by set_solver. unfold LL_REMOVE, node. rewrite Hb. cbn. rewrite Hb. cbn.
  destruct ts as [|[c k] ts]; cbn in Hc.
  - subst m. cbn. rewrite Hb. cbn. rewrite Hw, decide_False by congruence. eexists. split; [done|]. cbn.
    split; [done|]. exists (Some b). rewrite lookup_insert_ne by done. split; [done|]. split; [done|].
    exists None. by rewrite lookup_insert_eq.
  - destruct Hc as (-> & p & Hk & Hc). cbn in *. rewrite Hk. cbn.
    assert (c ≠ b) as Hcb by (clear - Hnb; set_solver).
    rewrite lookup_insert_ne by done. rewrite Hb. cbn. rewrite Hw, decide_False by congruence.
    eexists. split; [done|]. cbn. split; [done|]. exists (Some b).
    assert (c ≠ a) as Hca by (clear - Hna; set_solver). rewrite !lookup_insert_ne by done.
    split; [done|]. split; [done|]. exists None. by rewrite lookup_insert_eq.
Qed.

(** ** The list as a job store *)

(** The caller allocates a node for its job. *)
Definition list_put (q : joblist) (f : Z) : res (option joblist) :=
  let a := fresh (dom (jheap q)) in
  q' ← LL_ADD a (JobList (<[a := MkJob f None None]> (jheap q)) (waiting_jobs q)); Done (Some q').

(** A worker takes the head out; the node belongs to the job from then on. *)
Definition list_take (q : joblist) : res (option (Z * joblist)) :=
  match waiting_jobs q with
  | None => Done None
  | Some a =>
      q1 ← LL_REMOVE a q; j ← node (jheap q1) a;
      Done (Some (job_function j, JobList (delete a (jheap q1)) (waiting_jobs q1)))
  end.

#[export] Program Instance joblist_store : JobStore joblist Z lifo := {|
  store_ok q := well_linked q (listed_jobs q);
  jobs q := (listed_jobs q).*2;
  capacity _ := None;
  overflows := false;
  put := list_put;
  take_job := list_take
|}.
Next Obligation.
  intros q f Hq. rewrite decide_False by done. unfold list_put. set (a := fresh (dom (jheap q))).
  assert (a ∉ dom (jheap q)) as Ha by apply is_fresh.
  destruct (LL_ADD_spec (JobList (<[a := MkJob f None None]> (jheap q)) (waiting_jobs q))
              (listed_jobs q) a f None None) as (q' & -> & Hq').
  - cbn. rewrite delete_insert_id by (by apply not_elem_of_dom). by destruct q.
  - cbn. by rewrite lookup_insert_eq.
  - cbn. exists q'. pose proof (well_linked_jobs _ _ Hq') as ->. by split_and!.
Qed.
Next Obligation.
  intros q Hq. cbn in Hq |- *. unfold list_take. destruct (listed_jobs q) as [|[a f] ts] eqn:E; cbn [fmap list_fmap].
  - destruct Hq as [Hc _ _]. cbn in Hc. by rewrite Hc.
  - pose proof Hq as [[Hw _] _ _]. rewrite Hw.
    destruct (LL_REMOVE_head _ _ _ _ Hq) as (q' & -> & Hq' & Ha). cbn. unfold node. rewrite Ha. cbn.
    eexists. split; [done|]. pose proof (well_linked_jobs _ _ Hq') as ->. by split_and!.
Qed.

Definition no_jobs : joblist := JobList ∅ None.

#[export] Program Instance joblist_empty : EmptyStore joblist Z lifo := {| empty_store := no_jobs |}.
Next Obligation. split; [done|apply NoDup_nil_2|done]. Qed.
Next Obligation. done. Qed.
