(* ===== verification/WorkqueueRun.v ===== *)
(** * workqueue.c: the threads

    [workqueue_init], [workqueue_add_job], [workqueue_shutdown] and
    [worker_function] interleaved, over any last-in first-out store of jobs. *)

From S2P Require Import Prelude Pthread Store.
Open Scope Z_scope.

Section workqueue.
Context {Q : Type} {St : JobStore Q Z lifo} {E : EmptyStore Q Z lifo}.

(** [struct workqueue] and its workers, known by their threads: those whose
    [terminate] is set and those that have been freed.  [dropped] are the jobs a
    shutdown has removed. *)
Record workqueue_t : Type := Workqueue {
  jobs_mutex : mutex;
  workers : list nat;
  waiting : Q;
  terminate : list nat;
  freed_workers : list nat;
  wadded : list Z;
  wtaken : list Z;
  wran : list Z;
  wdropped : list Z
}.

Inductive qlocal : Type :=
  | QOutside
  | InitLoop (numWorkers i : Z)
  | InitAdd (numWorkers i : Z) (worker : nat)
  | AddLock (job : Z)
  | AddJob (job : Z)
  | AddUnlock
  | ShutFlag (ws : list nat)
  | ShutNext (worker : nat) (ws : list nat)
  | ShutLock
  | ShutClear
  | ShutUnlock
  | WLock
  | WTest
  | WWait
  | WWoken
  | WUnlock (job : Z)
  | WRun (job : Z)
  | WFree
  | WExited.

(** The call of a client; a failure while a worker is started. *)
Inductive qinput : Type :=
  | QGo
  | CallAdd (job : Z)
  | CallShutdown
  | StartFails.

Definition set_mutex (m : mutex) (s : workqueue_t) : workqueue_t :=
  Workqueue m (workers s) (waiting s) (terminate s) (freed_workers s) (wadded s) (wtaken s) (wran s) (wdropped s).
Definition set_workers (ws tm fr : list nat) (s : workqueue_t) : workqueue_t :=
  Workqueue (jobs_mutex s) ws (waiting s) tm fr (wadded s) (wtaken s) (wran s) (wdropped s).
Definition set_jobs (q : Q) (a tk rn dr : list Z) (s : workqueue_t) : workqueue_t :=
  Workqueue (jobs_mutex s) (workers s) q (terminate s) (freed_workers s) a tk rn dr.

Definition qresult : Type := workqueue_t * qlocal * option (effect qlocal).

Definition lock_jobs (t : nat) (s : workqueue_t) (next : qlocal) : res qresult :=
  m ← mutex_lock t (jobs_mutex s); Done (set_mutex m s, next, None).
Definition unlock_jobs (t : nat) (s : workqueue_t) (next : qlocal) : res qresult :=
  m ← mutex_unlock t (jobs_mutex s); Done (set_mutex m s, next, None).

(** A worker that has freed itself is not looked at any more. *)
Definition look (w : nat) (s : workqueue_t) : res unit := check (bool_decide (w ∉ freed_workers s)).

(** [workqueue_init]: a worker is started before it enters the list. *)
Definition init_step (ls : list qlocal) (x : qinput) (s : workqueue_t) (l : qlocal) : res qresult :=
  match l with
  | InitLoop n i =>
      if i <? n then
        match x with
        | StartFails => Done (s, QOutside, None)
        | _ => Done (s, InitAdd n i (length ls), Some (Spawn WLock))
        end
      else Done (s, QOutside, None)
  | InitAdd n i w =>
      Done (set_workers (w :: workers s) (terminate s) (freed_workers s) s, InitLoop n (i + 1), None)
  | _ => Blocked
  end.

(** [workqueue_add_job] *)
Definition workqueue_add_job (t : nat) (s : workqueue_t) (l : qlocal) : res qresult :=
  match l with
  | AddLock job => lock_jobs t s (AddJob job)
  | AddJob job =>
      r ← put (waiting s) job;
      match r with
      | Some q => Done (set_jobs q (wadded s ++ [job]) (wtaken s) (wran s) (wdropped s) s, AddUnlock, Some (Signal 0))
      | None => Fault
      end
  | AddUnlock => unlock_jobs t s QOutside
  | _ => Blocked
  end.

(** [workqueue_shutdown]: the loop over the workers takes no lock. *)
Definition workqueue_shutdown (t : nat) (s : workqueue_t) (l : qlocal) : res qresult :=
  match l with
  | ShutFlag [] => Done (s, ShutLock, None)
  | ShutFlag (w :: ws) =>
      _ ← look w s; Done (set_workers (workers s) (w :: terminate s) (freed_workers s) s, ShutNext w ws, None)
  | ShutNext w ws => _ ← look w s; Done (s, ShutFlag ws, None)
  | ShutLock => lock_jobs t s ShutClear
  | ShutClear =>
      Done (set_workers [] (terminate s) (freed_workers s)
              (set_jobs empty_store (wadded s) (wtaken s) (wran s) (wdropped s ++ jobs (waiting s)) s),
            ShutUnlock, Some (Broadcast 0))
  | ShutUnlock => unlock_jobs t s QOutside
  | _ => Blocked
  end.

(** [worker_function]: both tests of [terminate] leave the loop with the mutex
    locked. *)
Definition worker_function (t : nat) (s : workqueue_t) (l : qlocal) : res qresult :=
  match l with
  | WLock => lock_jobs t s WTest
  | WTest =>
      r ← take_job (waiting s);
      match r with
      | None =>
          if bool_decide (t ∈ terminate s) then Done (s, WFree, None)
          else unlock_jobs t s WWait
      | Some (job, q) =>
          if bool_decide (t ∈ terminate s) then Done (s, WFree, None)
          else Done (set_jobs q (wadded s) (wtaken s ++ [job]) (wran s) (wdropped s) s, WUnlock job, None)
      end
  | WWoken => lock_jobs t s WTest
  | WUnlock job => unlock_jobs t s (WRun job)
  | WRun job => Done (set_jobs (waiting s) (wadded s) (wtaken s) (wran s ++ [job]) (wdropped s) s, WLock, None)
  | WFree => Done (set_workers (workers s) (terminate s) (t :: freed_workers s) s, WExited, None)
  | _ => Blocked
  end.

Definition workqueue_step (ls : list qlocal) (t : nat) (x : qinput) (s : workqueue_t) (l : qlocal) : res qresult :=
  match l with
  | QOutside =>
      match x with
      | CallAdd job => Done (s, AddLock job, None)
      | CallShutdown => Done (s, ShutFlag (workers s), None)
      | _ => Blocked
      end
  | InitLoop _ _ | InitAdd _ _ _ => init_step ls x s l
  | AddLock _ | AddJob _ | AddUnlock => workqueue_add_job t s l
  | ShutFlag _ | ShutNext _ _ | ShutLock | ShutClear | ShutUnlock => workqueue_shutdown t s l
  | _ => worker_function t s l
  end.

Definition workqueue_waits_on (l : qlocal) : option nat := match l with WWait => Some 0%nat | _ => None end.
Definition workqueue_woken (l : qlocal) : qlocal := match l with WWait => WWoken | _ => l end.

#[export] Program Instance workqueue_program : Program qinput workqueue_t qlocal := {|
  tstep := workqueue_step;
  waits_on := workqueue_waits_on;
  woken := workqueue_woken
|}.
Next Obligation. by intros ls t x s [] r [c Hc]. Qed.
Next Obligation. by intros [] [c Hc]. Qed.

(** Thread 0 initialises a queue with [numWorkers] workers, at least one; [n]
    other clients. *)
Definition qinit (n : nat) (numWorkers : Z) : config workqueue_t qlocal :=
  (Workqueue MFree [] empty_store [] [] [] [] [] [],
   InitLoop (if numWorkers <? 1 then 1 else numWorkers) 0 :: replicate n QOutside).
End workqueue.

Arguments workqueue_t Q : clear implicits.
