(* ===== verification/WorkqueueProps.v ===== *)
(** * workqueue.c: properties *)

From S2P Require Import Prelude Pthread Store Workqueue WorkqueueRun.
Open Scope Z_scope.

(** Opens up the hypothesis [H] that a thread made a step, by program point. *)
Ltac qstep_cases H :=
  match type of H with tstep ?ls ?t ?x ?s ?l = _ =>
    tryif is_var l then destruct l else idtac; cbn [tstep workqueue_program workqueue_step] in H;
    unfold init_step, workqueue_add_job, workqueue_shutdown, worker_function, lock_jobs, unlock_jobs, look in H;
    split_matches H; inv_mutex; subst; bools; try discriminate;
    cbn [jobs_mutex workers waiting terminate freed_workers wadded wtaken wran wdropped
         set_mutex set_workers set_jobs] in *
  end.

Section properties.
Context {Q : Type} {St : JobStore Q Z lifo} {Em : EmptyStore Q Z lifo}.
Implicit Types (s : workqueue_t Q) (ls : list qlocal).

Definition anything (x : qinput) : Prop := True.

(** ** The mutex *)

(** A worker that leaves its loop does so with the mutex locked, and so ends. *)
Definition holds_jobs (l : qlocal) : bool :=
  match l with
  | AddJob _ | AddUnlock | ShutClear | ShutUnlock | WTest | WUnlock _ | WFree | WExited => true
  | _ => false
  end.

Lemma spawn_WLock ls t x s l s' l' k :
  tstep ls t x s l = Done (s', l', Some (Spawn k)) → k = WLock.
Proof. intros H. by qstep_cases H. Qed.

#[export] Instance jobs_locking :
  Locking anything (λ (_ : workqueue_t Q) (_ : list qlocal), True) jobs_mutex holds_jobs False.
Proof.
  split.
  - intros ls t x s l s' l' e _ _ Hl Hs; qstep_cases Hs; cbn [holds_jobs];
      repeat match goal with K : _ = MFree |- _ => rewrite K | K : _ = MHeld _ |- _ => rewrite K end;
      by constructor.
  - intros ls t x s l s' l' k Hs. by rewrite (spawn_WLock _ _ _ _ _ _ _ _ Hs).
  - intros l Hw. destruct l; cbn in *; by destruct Hw.
Qed.

Lemma reachable_owner n num s ls :
  reachable anything (qinit n num) (s, ls) → owner_inv jobs_mutex holds_jobs s ls.
Proof.
  intros H. apply (invariant_reachable anything (λ cf, owner_inv jobs_mutex holds_jobs cf.1 cf.2)) in H; [done| |].
  - intros [|t] l Hl; cbn in Hl; simplify_eq; [done|]. by apply lookup_replicate in Hl as [-> _].
  - intros [s1 ls1] [s2 ls2] Ho Hst. by eapply (owner_inv_step False (K := jobs_locking)).
Qed.

(** The points where a thread waits for the mutex. *)
Definition wants_mutex (l : qlocal) : bool :=
  match l with AddLock _ | ShutLock | WLock | WWoken => true | _ => false end.

Lemma terminated_owner n num s ls t l :
  reachable anything (qinit n num) (s, ls) → ls !! t = Some l → l = WFree ∨ l = WExited →
  jobs_mutex s = MHeld t.
Proof. intros Hr Hl Ht. apply (reachable_owner _ _ _ _ Hr t l Hl). by destruct Ht as [->| ->]. Qed.

(** C28: at most one worker ever terminates, and it takes the mutex with it.
    [worker_function] leaves its loop with [jobs_mutex] locked: once a worker
    has done so no other one has or will, and every thread that needs the mutex
    waits for ever: the other workers, the clients that add a job, the next
    shutdown. *)
Theorem one_worker_terminates n num s ls t l s' ls' :
  reachable anything (qinit n num) (s, ls) → ls !! t = Some l → l = WFree ∨ l = WExited →
  reachable anything (s, ls) (s', ls') →
  jobs_mutex s' = MHeld t ∧
  (∀ t' l', ls' !! t' = Some l' → l' = WFree ∨ l' = WExited → t' = t) ∧
  (∀ t' l' x w cf, ls' !! t' = Some l' → wants_mutex l' = true → exec (Run t' x w) (s', ls') ≠ Done cf).
Proof.
  intros Hr Hl Ht Hr'.
  assert (∃ l', ls' !! t = Some l' ∧ (l' = WFree ∨ l' = WExited)) as (l' & Hl' & Ht').
  { apply (invariant_reachable anything
      (λ cf, ∃ l', cf.2 !! t = Some l' ∧ (l' = WFree ∨ l' = WExited)) (s, ls) (s', ls')); [by eauto| |done].
    intros [s1 ls1] [s2 ls2] (l1 & Hl1 & Ht1) Hst. cbn in *.
    apply step_inv in Hst as [(t0 & x & l0 & l2 & e & _ & Hl0 & Hs & He)|(t0 & l0 & -> & Hl0 & Hw & ->)].
    - assert (∃ l3, <[t0:=l2]> ls1 !! t = Some l3 ∧ (l3 = WFree ∨ l3 = WExited)) as (l3 & Hl3 & Ht3).
      { destruct (decide (t0 = t)) as [->|Hne].
        - rewrite list_lookup_insert_eq by (by eapply lookup_lt_Some). eexists. split; [done|]. simplify_eq.
          destruct Ht1 as [->| ->]; cbn in Hs; simplify_eq; auto.
        - rewrite list_lookup_insert_ne by done. eauto. }
      destruct (effect_on_survives _ _ _ _ _ He Hl3) as [?|[Hw _]]; [by eauto|].
      destruct Ht3 as [->| ->]; by destruct Hw.
    - destruct (decide (t0 = t)) as [->|Hne].
      + simplify_eq. destruct Ht1 as [->| ->]; by destruct Hw.
      + rewrite list_lookup_insert_ne by done. eauto. }
  assert (reachable anything (qinit n num) (s', ls')) as Hr2 by (by etransitivity).
  pose proof (terminated_owner _ _ _ _ _ _ Hr2 Hl' Ht') as Hm. split_and!; [done| |].
  - intros t2 l2 Hl2 Ht2. pose proof (terminated_owner _ _ _ _ _ _ Hr2 Hl2 Ht2). congruence.
  - intros t2 l2 x w cf Hl2 Hw Hex. unfold exec in Hex. cbn [fst snd] in Hex. rewrite Hl2 in Hex.
    destruct l2; try done; cbn in Hex; unfold lock_jobs in Hex; by rewrite Hm in Hex.
Qed.

(** ** The jobs *)

Context (Hcap : ∀ q : Q, capacity q = None).

(** The job a worker has taken and not yet executed. *)
Definition in_hand (l : qlocal) : list Z := match l with WUnlock j | WRun j => [j] | _ => [] end.

Record jobs_inv (s : workqueue_t Q) (ls : list qlocal) : Prop := JobsInv {
  ji_store : store_ok (waiting s);
  ji_mutex : jobs_mutex s ≠ MUninit;
  ji_added : wadded s ≡ₚ wtaken s ++ jobs (waiting s) ++ wdropped s;
  ji_taken : wtaken s ≡ₚ wran s ++ gather in_hand ls
}.

Lemma job_in_hand_woken l : is_Some (waits_on l) → in_hand (woken l) = in_hand l.
Proof. destruct l; by intros [??]. Qed.

Lemma take_cases q (r : option (Z * Q)) :
  store_ok q → take_job q = Done r →
  match r with
  | None => jobs q = []
  | Some (j, q') => jobs q = j :: jobs q' ∧ store_ok q'
  end.
Proof using Type.
  intros Hq Hr. pose proof (take_law q Hq) as H. destruct (jobs q) as [|j js] eqn:Ej.
  - rewrite H in Hr. by injection Hr as <-.
  - destruct H as (q' & H & Hok & _ & <-). rewrite H in Hr. by injection Hr as <-.
Qed.

Lemma jobs_run s ls t x l s' l' e ls' :
  jobs_inv s ls → ls !! t = Some l → tstep ls t x s l = Done (s', l', e) →
  effect_on e (<[t := l']> ls) ls' → jobs_inv s' ls'.
Proof.
  intros [Hq Hm Ha Ht] Hl Hs He.
  pose proof (gather_step in_hand _ _ _ _ _ _ job_in_hand_woken Hl He) as Hg. unfold spawned in Hg. clear He.
  qstep_cases Hs; cbn in Hg; rewrite ?app_nil_r in Hg.
  all: try match goal with K : take_job _ = Done _ |- _ => apply take_cases in K; [|done] end.
  all: try match goal with K : put ?q ?j = Done _ |- _ =>
    destruct (put_unbounded q j Hq (Hcap q)) as (q' & K' & Hq' & _ & Hj); rewrite K in K'; simplify_eq end.
  all: split; cbn; try done; try (by rewrite <- Hg || by rewrite Hg).
  - (* added *)
    rewrite Hj, Ha. unfold lifo. rewrite (Permutation_app_comm _ [job]). cbn.
    by rewrite <- Permutation_middle.
  - (* dropped *) apply empty_store_ok.
  - rewrite Ha, empty_store_jobs. cbn. by rewrite (Permutation_app_comm (jobs _)).
  - (* taken *) tauto.
  - match goal with K : _ ∧ _ |- _ => destruct K as [Ej _] end. by rewrite Ha, Ej, <- app_assoc.
  - rewrite Ht, Hg, <- app_assoc. apply Permutation_app_head, Permutation_app_comm.
  - (* let go *) apply Permutation_cons_inv in Hg. by rewrite Ht, Hg.
  - (* executed *) by rewrite Ht, <- Hg, <- app_assoc.
Qed.

Lemma jobs_step s ls s' ls' : jobs_inv s ls → step anything (s, ls) (s', ls') → jobs_inv s' ls'.
Proof.
  intros Hinv Hst.
  apply step_inv in Hst as [(t & x & l & l' & e & _ & Hl & Hs & He)|(t & l & -> & Hl & Hw & ->)];
    [by eapply jobs_run|].
  destruct Hinv as [Hq Hm Ha Ht]. split; [done..|].
  by rewrite (gather_insert_same in_hand _ _ _ _ Hl (job_in_hand_woken l Hw)).
Qed.

Lemma reachable_jobs n num s ls : reachable anything (qinit n num) (s, ls) → jobs_inv s ls.
Proof.
  intros H. apply (invariant_reachable anything (λ cf, jobs_inv cf.1 cf.2)) in H; [done| |].
  - split; [apply empty_store_ok|done|cbn; by rewrite empty_store_jobs|].
    cbn [fst snd]. rewrite gather_nil; [done|]. intros [|t] l Hl; cbn in Hl; simplify_eq; [done|].
    by apply lookup_replicate in Hl as [-> _].
  - intros [s1 ls1] [s2 ls2]. apply jobs_step.
Qed.

Definition shutting (l : qlocal) : bool := match l with ShutFlag _ | ShutNext _ _ => true | _ => false end.

Lemma only_shutdown_faults s ls t x l :
  jobs_inv s ls → owner_inv jobs_mutex holds_jobs s ls → ls !! t = Some l → tstep ls t x s l = Fault →
  shutting l = true.
Proof.
  intros [Hq Hm _ _] Ho Hl Hf. specialize (Ho t l Hl).
  assert (mutex_lock t (jobs_mutex s) ≠ Fault) as Hlk by (by destruct (jobs_mutex s)).
  assert (holds_jobs l = true → mutex_unlock t (jobs_mutex s) = Done MFree) as Hul.
  { intros Hh. rewrite (Ho Hh). cbn. by rewrite decide_True. }
  destruct l; try done; exfalso; revert Hf; cbn; unfold lock_jobs, unlock_jobs; try by rewrite Hul.
  all: try (by destruct (mutex_lock t (jobs_mutex s))); try (by repeat case_match).
  - destruct (put_unbounded (waiting s) job Hq (Hcap _)) as (q' & -> & _). done.
  - pose proof (take_law (waiting s) Hq) as H. destruct (jobs (waiting s)).
    + rewrite H. cbn. rewrite Hul by done. by case_match.
    + destruct H as (q' & -> & _). cbn. by case_match.
Qed.

(** C27: each job once, and the last one added first.  Under any sequence of
    calls the jobs added are those taken, those waiting and those a shutdown
    has dropped; those taken have been executed once or are in the hands of one
    worker; and only [workqueue_shutdown] can have undefined behaviour (see
    [shutdown_reads_a_freed_worker]). *)
Theorem workqueue_jobs_once n num s ls :
  reachable anything (qinit n num) (s, ls) →
  wadded s ≡ₚ wtaken s ++ jobs (waiting s) ++ wdropped s ∧
  wtaken s ≡ₚ wran s ++ gather in_hand ls ∧
  (∀ t l, ls !! t = Some l → can_fault anything (s, ls) t → shutting l = true).
Proof.
  intros Hr. pose proof (reachable_jobs _ _ _ _ Hr) as Hinv. split_and!; [apply Hinv..|].
  intros t l Hl Hf. apply can_fault_inv in Hf as (l0 & x & Hl0 & _ & Hf). simplify_eq.
  eapply only_shutdown_faults; [done| |done..]. by eapply reachable_owner.
Qed.
End properties.

(** ** Witnesses *)

Definition go (t n : nat) : list (event qinput) := replicate n (Run t QGo 0).

Lemma workqueue_script (evs : list (event qinput)) (cf : config (workqueue_t joblist) qlocal) :
  forallb (event_okb (λ _, true)) evs = true → reachable anything cf ((final evs cf).1, (final evs cf).2).
Proof. by apply final_reachable. Qed.

(** Two jobs added; the second one is being executed. *)
Definition serving : config (workqueue_t joblist) qlocal :=
  final (go 0 3 ++ Run 0 (CallAdd 7) 0 :: go 0 3 ++ Run 0 (CallAdd 8) 0 :: go 0 3 ++ go 1 3) (qinit 0 1).

Lemma workqueue_jobs_once_witness :
  wtaken serving.1 = [8] ∧ jobs (waiting serving.1) = [7] ∧
  wadded serving.1 ≡ₚ wtaken serving.1 ++ jobs (waiting serving.1) ++ wdropped serving.1 ∧
  wtaken serving.1 ≡ₚ wran serving.1 ++ gather in_hand serving.2 ∧
  (∀ t l, serving.2 !! t = Some l → can_fault anything (serving.1, serving.2) t → shutting l = true).
Proof.
  split; [vm_compute; reflexivity|]. split; [vm_compute; reflexivity|].
  apply (workqueue_jobs_once (St := joblist_store) (λ _, eq_refl) 0 1). by apply workqueue_script.
Defined.

(** Two workers, both asleep; a shutdown; the first one to wake up terminates. *)
Definition shut : config (workqueue_t joblist) qlocal :=
  final (go 0 5 ++ go 1 2 ++ go 2 2 ++ Run 0 CallShutdown 0 :: go 0 8 ++ go 2 3) (qinit 0 2).

Lemma one_worker_terminates_witness :
  shut.2 = [QOutside; WWoken; WExited] ∧ jobs_mutex shut.1 = MHeld 2 ∧
  (∀ t' l', shut.2 !! t' = Some l' → l' = WFree ∨ l' = WExited → t' = 2%nat) ∧
  (∀ t' l' x w cf, shut.2 !! t' = Some l' → wants_mutex l' = true →
                   exec (Run t' x w) (shut.1, shut.2) ≠ Done cf).
Proof.
  split; [vm_compute; reflexivity|].
  eapply (one_worker_terminates 0 2 shut.1 shut.2 2);
    [by apply workqueue_script|vm_compute; reflexivity|by right|constructor].
Defined.

(** [workqueue_shutdown] uses freed memory.  It walks the list of workers
    while those it has marked may already have freed themselves: a
    configuration can be reached in which it reads the [next] field of such a
    worker. *)
Theorem shutdown_reads_a_freed_worker :
  ∃ (s : workqueue_t joblist) ls w ws, reachable anything (qinit 0 1) (s, ls) ∧
    ls !! 0%nat = Some (ShutNext w ws) ∧ w ∈ freed_workers s ∧ can_fault anything (s, ls) 0.
Proof.
  set (cf := final (go 0 3 ++ Run 0 CallShutdown 0 :: go 0 1 ++ go 1 3) (qinit 0 1)).
  exists cf.1, cf.2, 1%nat, []. split_and!; [by apply workqueue_script|vm_compute; reflexivity| |].
  - apply (bool_decide_unpack _). vm_compute. reflexivity.
  - exists QGo, 0%nat. split; [done|]. vm_compute. reflexivity.
Qed.
