(* ===== verification/WorkqueueLive.v ===== *)
(** * workqueue.c: no job is left behind

    As long as [workqueue_shutdown] is not called: the interface of [Wakeup]
    holds, and a queue that has come to rest has executed every job. *)

From S2P Require Import Prelude Pthread Store Workqueue WorkqueueRun WorkqueueProps Wakeup.
Open Scope Z_scope.

Section live.
Context {Q : Type} {St : JobStore Q Z lifo} {Em : EmptyStore Q Z lifo}.
Context (Hcap : ∀ q : Q, capacity q = None).
Implicit Types (s : workqueue_t Q) (ls : list qlocal).

(** No shutdown, and the workers can be started. *)
Definition serving_only (x : qinput) : Prop := x ≠ CallShutdown ∧ x ≠ StartFails.

(** The program points of a queue that is not shut down. *)
Definition running_point (l : qlocal) : bool :=
  match l with ShutFlag _ | ShutNext _ _ | ShutLock | ShutClear | ShutUnlock | WFree | WExited => false | _ => true end.

Definition is_worker (l : qlocal) : bool :=
  match l with WLock | WTest | WWait | WWoken | WUnlock _ | WRun _ => true | _ => false end.

(** A worker that is not asleep comes back to the test of the queue. *)
Definition awake (l : qlocal) : bool :=
  match l with WLock | WTest | WWoken | WUnlock _ | WRun _ => true | _ => false end.

Record serving_inv (n : nat) (s : workqueue_t Q) (ls : list qlocal) : Prop := ServingInv {
  sv_jobs : jobs_inv s ls;
  sv_owner : owner_inv jobs_mutex holds_jobs s ls;
  sv_leak : no_leak_inv jobs_mutex holds_jobs s ls;
  sv_run : terminate s = [] ∧ wdropped s = [];
  sv_role : ∀ t l, ls !! t = Some l → running_point l = true ∧ is_worker l = bool_decide (n < t)%nat
}.

Lemma queue_serving_step n s ls s' ls' :
  (n < length ls)%nat → serving_inv n s ls → step serving_only (s, ls) (s', ls') → serving_inv n s' ls'.
Proof.
  intros Hn [Hj Ho Hlk [Htm Hdr] Hr] Hst.
  assert (step anything (s, ls) (s', ls')) as Hst' by (by eapply step_mono).
  split; [by eapply jobs_step|by eapply (owner_inv_step False (K := jobs_locking))|
    by eapply (no_leak_inv_step (K := jobs_locking))| |].
  - apply step_inv in Hst as [(t & x & l & l' & e & [Hx _] & Hl & Hs & He)|(t & l & -> & _)]; [|done].
    destruct (Hr t l Hl) as [Hp _]. by qstep_cases Hs.
  - refine (forall_threads_step (λ _ t l, running_point l = true ∧ is_worker l = bool_decide (n < t)%nat)
              serving_only s ls s' ls' Hr Hst _ _).
    + intros t x l l' e [Hx _] Hl Hs. destruct (Hr t l Hl) as [Hp Hw]. split; [|split; [by eauto|]].
      * rewrite <- Hw. qstep_cases Hs; try done; rewrite Htm in *; set_solver.
      * intros l0 ->. rewrite (spawn_WLock _ _ _ _ _ _ _ _ Hs). split; [done|].
        by rewrite bool_decide_eq_true_2 by lia.
    + intros t l Hw [Hp <-]. destruct l; by destruct Hw.
Qed.

#[export] Instance workqueue_alerting n :
  Alerting serving_only (serving_inv n) (λ s, jobs (waiting s) ≠ []) awake 0.
Proof.
  split.
  - intros ls t x s l s' l' e [Hx _] [Hj _ _ [Htm _] Hr] Hl Hs Hw. destruct (Hr t l Hl) as [Hp _]. clear Hl.
    qstep_cases Hs; auto.
  - intros ls t x s l s' l' e [Hx _] [Hj _ _ [Htm _] Hr] Hl Hs Hw Ha. destruct (Hr t l Hl) as [Hp _]. clear Hl.
    qstep_cases Hs; auto.
    all: try (rewrite Htm in *; done).
    match goal with K : take_job _ = Done _ |- _ => by apply take_cases in K; [|apply Hj] end.
  - intros ls t x s l s' l' e [Hx _] [Hj _ _ [Htm _] Hr] Hl Hs Hw. destruct (Hr t l Hl) as [Hp _]. clear Hl.
    qstep_cases Hs; try done.
    all: try (rewrite Htm in *; done).
    match goal with K : take_job _ = Done _ |- _ => by apply take_cases in K; [|apply Hj] end.
  - intros ls t x s l s' l' e [Hx _] _ Hs. by qstep_cases Hs.
  - intros l Hw. destruct l; by destruct Hw.
  - intros l Hw. by destruct l.
Qed.

Definition live_inv (n : nat) (s : workqueue_t Q) (ls : list qlocal) : Prop :=
  (n < length ls)%nat ∧ serving_inv n s ls ∧
  watched (work := λ s, jobs (waiting s) ≠ []) (alert := awake) (c := 0) s ls.

Lemma queue_reachable_live n num s ls : reachable serving_only (qinit n num) (s, ls) → live_inv n s ls.
Proof.
  intros Hr. apply (invariant_reachable serving_only (λ cf, live_inv n cf.1 cf.2)) in Hr; [done| |].
  - pose proof (reachable_jobs Hcap n num _ _ (rtc_refl _ _)) as Hj.
    pose proof (reachable_owner n num _ _ (rtc_refl _ _)) as Ho.
    split; [cbn; rewrite length_replicate; lia|]. split; [split; try done|].
    + intros [|t] l Hl; cbn in Hl; simplify_eq; [done|]. apply lookup_replicate in Hl as [-> Hlt].
      split; [done|]. by rewrite bool_decide_eq_false_2 by lia.
    + intros Hw. cbn in Hw. by rewrite empty_store_jobs in Hw.
  - intros [s1 ls1] [s2 ls2] (Hn & Hs & Hw) Hst. cbn in *. pose proof (threads_grow _ _ _ _ _ Hst).
    split; [lia|]. split; [by eapply queue_serving_step|].
    by eapply (watched_step (J := serving_inv n) (A := workqueue_alerting n)).
Qed.

(** The threads that wait for something to happen. *)
Definition idle (l : qlocal) : bool := match l with QOutside | WWait => true | _ => false end.

Lemma queue_blocked n s ls t l :
  serving_inv n s ls → ls !! t = Some l → tstep ls t QGo s l = Blocked →
  idle l = true ∨ (wants_mutex l = true ∧ jobs_mutex s ≠ MFree).
Proof.
  intros [Hj _ _ _ Hr] Hl Hb. destruct (Hr t l Hl) as [Hp _].
  destruct l; try done; auto; cbn in Hb; unfold lock_jobs, unlock_jobs in Hb.
  all: try (right; split; [done|]; inv_blocked Hb; by apply mutex_lock_Blocked in Hb).
  all: try (exfalso; inv_blocked Hb; fail).
  - exfalso. inv_blocked Hb. by apply (put_not_blocked (waiting s) job (ji_store _ _ Hj)).
  - exfalso. apply bind_Blocked in Hb as [Hb|(r & _ & Hb)]; [by apply (take_not_blocked (waiting s) (ji_store _ _ Hj))|].
    inv_blocked Hb.
Qed.

(** A queue that is not shut down, at rest. *)
Lemma queue_quiescent n num s ls :
  reachable serving_only (qinit n num) (s, ls) → (S n < length ls)%nat →
  at_rest idle QGo s ls →
  (∀ t l, ls !! t = Some l → l = if bool_decide (n < t)%nat then WWait else QOutside) ∧
  jobs (waiting s) = [] ∧ jobs_mutex s = MFree ∧ wran s ≡ₚ wadded s.
Proof.
  intros Hr Hw Hq. destruct (queue_reachable_live _ _ _ _ Hr) as (_ & Hs & Hwat).
  destruct (all_idle jobs_mutex holds_jobs wants_mutex idle QGo s ls) as [Hm Hid]; try done.
  - intros t l. by apply (queue_blocked n).
  - by intros [].
  - apply Hs.
  - apply Hs.
  - assert (∀ t l, ls !! t = Some l → l = if bool_decide (n < t)%nat then WWait else QOutside) as Hall.
    { intros t l Hl. destruct (sv_role _ _ _ Hs t l Hl) as [_ <-]. specialize (Hid t l Hl). by destruct l. }
    assert (jobs (waiting s) = []) as Hj.
    { destruct (decide (jobs (waiting s) = [])) as [|Hne]; [done|]. destruct (Hwat Hne) as (t & l & Hl & Ha).
      - apply lookup_lt_is_Some_2 in Hw as [l Hl]. exists (S n), l. split; [done|].
        rewrite (Hall _ _ Hl), bool_decide_eq_true_2 by lia. done.
      - specialize (Hid t l Hl). by destruct l. }
    split_and!; [done..|]. destruct (sv_jobs _ _ _ Hs) as [_ _ Ha Ht]. destruct (sv_run _ _ _ Hs) as [_ Hdr].
    rewrite gather_nil, app_nil_r in Ht; [|intros t l Hl; specialize (Hid t l Hl); by destruct l].
    by rewrite Ha, Hj, Hdr, !app_nil_r, Ht.
Qed.
(** C29: no job is left behind.  As long as the queue is not shut down: in a
    configuration with a worker where no thread can go on, except the clients
    outside the library, every worker is asleep, no job is waiting, and each job
    added has been executed. *)
Theorem workqueue_quiescent_is_done n num s ls :
  reachable serving_only (qinit n num) (s, ls) → (S n < length ls)%nat →
  at_rest idle QGo s ls →
  (∀ t l, ls !! t = Some l → l = if bool_decide (n < t)%nat then WWait else QOutside) ∧
  jobs (waiting s) = [] ∧ jobs_mutex s = MFree ∧ wran s ≡ₚ wadded s.
Proof. apply queue_quiescent. Qed.
End live.

(** ** Witness *)

Definition serving_only_b (x : qinput) : bool := match x with CallShutdown | StartFails => false | _ => true end.

Lemma queue_serving_script (evs : list (event qinput)) (cf : config (workqueue_t joblist) qlocal) :
  forallb (event_okb serving_only_b) evs = true → reachable serving_only cf ((final evs cf).1, (final evs cf).2).
Proof. apply final_reachable. by intros [] ?. Qed.

(** Two jobs added and executed, the last one first. *)
Definition served : config (workqueue_t joblist) qlocal :=
  final (go 0 3 ++ Run 0 (CallAdd 7) 0 :: go 0 3 ++ Run 0 (CallAdd 8) 0 :: go 0 3 ++ go 1 10) (qinit 0 1).

Lemma queue_served_threads : served.2 = [QOutside; WWait].
Proof. vm_compute. reflexivity. Qed.

Lemma workqueue_quiescent_is_done_witness :
  wran served.1 = [8; 7] ∧
  (∀ t l, served.2 !! t = Some l → l = if bool_decide (0 < t)%nat then WWait else QOutside) ∧
  jobs (waiting served.1) = [] ∧ jobs_mutex served.1 = MFree ∧ wran served.1 ≡ₚ wadded served.1.
Proof.
  split; [vm_compute; reflexivity|].
  apply (workqueue_quiescent_is_done (St := joblist_store) (λ _, eq_refl) 0 1);
    [by apply queue_serving_script|rewrite queue_served_threads; cbn; lia|].
  apply idle_at_rest. vm_compute. reflexivity.
Defined.
