(* ===== verification/EchoServer.v ===== *)
(** * echoserver_threaded.c: connections and buffers

    The libevent server of [libevent-thread/echoserver_threaded.c]: what each
    accepted connection acquires and releases, on every path, and the copy of
    the input to the output.  libevent itself is a parameter. *)

From S2P Require Import Prelude.
Open Scope Z_scope.

(** ** Resources *)

(** What the server acquires: descriptors, and blocks of memory of the C
    library and of libevent, by their addresses. *)
Inductive resource : Type :=
  | Fd (fd : Z)
  | Client (a : nat)
  | Evbuffer (a : nat)
  | Event_base (a : nat)
  | Bufferevent (a : nat)
  | JobBlock (a : nat).

#[export] Instance resource_eq_dec : EqDecision resource.
Proof. solve_decision. Defined.

(** The resources acquired and not yet released. *)
Abbreviation ledger := (list resource).

(** Releasing what is not held is undefined: a second [free], a [close] of a
    descriptor that another thread may have been given. *)
Definition release (r : resource) (w : ledger) : res ledger :=
  if decide (r ∈ w) then Done (filter (λ r', r' ≠ r) w) else Fault.

Arguments release : simpl never.

(** [struct client] *)
Record client_t : Type := MkClient {
  address : nat;
  fd : Z;
  evbase : option nat;
  buf_ev : option nat;
  output_buffer : option nat
}.

(** ** Closing *)

Definition closeClient (c : client_t) (w : ledger) : res (client_t * ledger) :=
  if 0 <=? fd c then
    w1 ← release (Fd (fd c)) w; Done (MkClient (address c) (-1) (evbase c) (buf_ev c) (output_buffer c), w1)
  else Done (c, w).

Definition release_opt (mk : nat → resource) (o : option nat) (w : ledger) : res ledger :=
  match o with Some a => release (mk a) w | None => Done w end.

Definition closeAndFreeClient (c : client_t) (w : ledger) : res ledger :=
  '(c1, w1) ← closeClient c w;
  w2 ← release_opt Bufferevent (buf_ev c1) w1;
  w3 ← release_opt Event_base (evbase c1) w2;
  w4 ← release_opt Evbuffer (output_buffer c1) w3;
  release (Client (address c1)) w4.

Definition buffered_on_error (c : client_t) (w : ledger) : res (client_t * ledger) := closeClient c w.

(** ** Accepting *)

(** The answers of the system and of libevent while a connection is accepted. *)
Record answers : Type := Answers {
  accepted : option Z;
  getfl : Z;
  setfl : Z;
  client_block : option nat;
  evbuffer_block : option nat;
  evbase_block : option nat;
  bufferevent_block : option nat;
  job_block : option nat
}.

Definition setnonblock (e : answers) : Z :=
  if getfl e <? 0 then getfl e else if setfl e <? 0 then -1 else 0.

(** [on_accept]: the job added to the work queue, if any, with its client. *)
Definition on_accept (e : answers) (w : ledger) : res (option (nat * client_t) * ledger) :=
  match accepted e with
  | None => Done (None, w)
  | Some client_fd =>
      let w := Fd client_fd :: w in
      if setnonblock e <? 0 then w ← release (Fd client_fd) w; Done (None, w)
      else
        match client_block e with
        | None => w ← release (Fd client_fd) w; Done (None, w)
        | Some a =>
            let w := Client a :: w in
            match evbuffer_block e with
            | None => w ← closeAndFreeClient (MkClient a client_fd None None None) w; Done (None, w)
            | Some b =>
                let w := Evbuffer b :: w in
                match evbase_block e with
                | None => w ← closeAndFreeClient (MkClient a client_fd None None (Some b)) w; Done (None, w)
                | Some v =>
                    let w := Event_base v :: w in
                    match bufferevent_block e with
                    | None => w ← closeAndFreeClient (MkClient a client_fd (Some v) None (Some b)) w; Done (None, w)
                    | Some u =>
                        let w := Bufferevent u :: w in
                        let c := MkClient a client_fd (Some v) (Some u) (Some b) in
                        match job_block e with
                        | None => w ← closeAndFreeClient c w; Done (None, w)
                        | Some j => Done (Some (j, c), JobBlock j :: w)
                        end
                    end
                end
            end
        end
  end.

(** [server_job_function] once the event loop of the client has ended; the
    callbacks may have closed the client in the meantime. *)
Definition server_job_function (job : nat) (c : client_t) (w : ledger) : res ledger :=
  w1 ← closeAndFreeClient c w; release (JobBlock job) w1.

(** Closing and releasing never block. *)
Lemma release_not_blocked r w : release r w ≠ Blocked.
Proof. unfold release. by case_decide. Qed.
#[local] Hint Resolve release_not_blocked : study.

Lemma release_opt_not_blocked mk o w : release_opt mk o w ≠ Blocked.
Proof. destruct o; cbn; auto with study. Qed.
#[local] Hint Resolve release_opt_not_blocked : study.

Lemma closeClient_not_blocked c w : closeClient c w ≠ Blocked.
Proof. unfold closeClient. intros H. inv_blocked H. Qed.
#[local] Hint Resolve closeClient_not_blocked : study.

Lemma server_job_not_blocked job c w : server_job_function job c w ≠ Blocked.
Proof. unfold server_job_function, closeAndFreeClient. intros H. inv_blocked H. Qed.

(** ** Life of a connection *)

(** What the system and libevent hand out is not in use. *)
Definition fresh_answers (e : answers) (w : ledger) : Prop :=
  (∀ n, accepted e = Some n → 0 <= n ∧ Fd n ∉ w) ∧
  (∀ a, client_block e = Some a → Client a ∉ w) ∧ (∀ a, evbuffer_block e = Some a → Evbuffer a ∉ w) ∧
  (∀ a, evbase_block e = Some a → Event_base a ∉ w) ∧ (∀ a, bufferevent_block e = Some a → Bufferevent a ∉ w) ∧
  (∀ a, job_block e = Some a → JobBlock a ∉ w).

Lemma filter_absent (r : resource) (w : ledger) : r ∉ w → filter (λ r', r' ≠ r) w = w.
Proof.
  intros Hr. induction w as [|a w IH]; [done|].
  rewrite filter_cons_True by set_solver. f_equal. apply IH. set_solver.
Qed.

Lemma release_head r w : r ∉ w → release r (r :: w) = Done w.
Proof.
  intros Hr. unfold release. rewrite decide_True by left.
  rewrite filter_cons_False by (intros H; by apply H). by rewrite filter_absent.
Qed.

Lemma release_skip r r' w : r' ≠ r → release r (r' :: w) = (w' ← release r w; Done (r' :: w')).
Proof.
  intros Hr. unfold release. destruct (decide (r ∈ w)) as [Hin|Hin].
  - rewrite decide_True by (by right). cbn [mbind res_bind]. by rewrite filter_cons_True.
  - rewrite decide_False; [done|]. by intros [|]%elem_of_cons.
Qed.

Ltac absent := repeat (apply not_elem_of_cons; split; [done|]); done || apply not_elem_of_nil.

(** Settles the releases of a list of resources acquired one after the other. *)
Ltac releases :=
  unfold server_job_function, buffered_on_error, closeAndFreeClient, closeClient, release_opt;
  repeat (cbn; rewrite ?(proj2 (Z.leb_le 0 _)) by done; cbn;
          first [rewrite release_head by absent | rewrite release_skip by done]); cbn.

(** The resources of a connection that has been accepted. *)
Definition connection (job : nat) (c : client_t) : list resource :=
  JobBlock job :: (Bufferevent <$> option_list (buf_ev c)) ++ (Event_base <$> option_list (evbase c)) ++
  (Evbuffer <$> option_list (output_buffer c)) ++ [Client (address c); Fd (fd c)].

(** A client that has all its resources. *)
Definition complete (c : client_t) : Prop :=
  0 <= fd c ∧ is_Some (evbase c) ∧ is_Some (buf_ev c) ∧ is_Some (output_buffer c).

Definition unused (w rs : list resource) : Prop := Forall (λ r, r ∉ w) rs.

Lemma on_accept_cases e w :
  fresh_answers e w →
  ∃ o w', on_accept e w = Done (o, w') ∧
    match o with
    | None => w' = w
    | Some (job, c) => w' = connection job c ++ w ∧ complete c ∧ unused w (connection job c)
    end.
Proof.
  intros (Hfd & Hc & Hb & Hv & Hu & Hj). unfold on_accept.
  destruct (accepted e) as [n|]; [|by repeat eexists]. destruct (Hfd n eq_refl) as [Hn Hfn].
  destruct (setnonblock e <? 0); [rewrite release_head by done; by repeat eexists|].
  destruct (client_block e) as [a|]; [|rewrite release_head by done; by repeat eexists].
  specialize (Hc a eq_refl). destruct (evbuffer_block e) as [b|]; [|releases; by repeat eexists].
  specialize (Hb b eq_refl). destruct (evbase_block e) as [v|]; [|releases; by repeat eexists].
  specialize (Hv v eq_refl). destruct (bufferevent_block e) as [u|]; [|releases; by repeat eexists].
  specialize (Hu u eq_refl). destruct (job_block e) as [j|]; [|releases; by repeat eexists].
  specialize (Hj j eq_refl). do 2 eexists. split; [done|]. split; [done|].
  split; [by split_and!|by repeat constructor].
Qed.

Lemma release_perm r w w0 :
  NoDup w → w ≡ₚ r :: w0 → ∃ w', release r w = Done w' ∧ w' ≡ₚ w0 ∧ NoDup w'.
Proof.
  intros Hn Hw. assert (NoDup (r :: w0)) as Hn' by (by rewrite <- Hw). apply NoDup_cons in Hn' as [Hr Hn0].
  assert (filter (λ r', r' ≠ r) w ≡ₚ w0) as Hf.
  { rewrite Hw, filter_cons_False by (intros H; by apply H). by rewrite filter_absent. }
  unfold release. rewrite decide_True by (rewrite Hw; left). eexists. split; [done|]. split; [done|]. by rewrite Hf.
Qed.

(** The job function releases what its connection holds, wherever it is in the
    ledger, and whether or not a callback has closed the client before. *)
Lemma job_releases job c w w0 :
  complete c → NoDup w → w ≡ₚ connection job c ++ w0 →
  (∃ w', server_job_function job c w = Done w' ∧ w' ≡ₚ w0 ∧ NoDup w') ∧
  ∃ c1 w1 w', buffered_on_error c w = Done (c1, w1) ∧ server_job_function job c1 w1 = Done w' ∧ w' ≡ₚ w0 ∧ NoDup w'.
Proof.
  intros (Hfd & [v Hv] & [u Hu] & [b Hb]) Hn Hw.
  unfold server_job_function, buffered_on_error, closeAndFreeClient, closeClient.
  rewrite (proj2 (Z.leb_le 0 (fd c))) by done.
  destruct (release_perm (Fd (fd c)) w (Bufferevent u :: Event_base v :: Evbuffer b :: Client (address c) :: JobBlock job :: w0))
    as (w1 & E1 & H1 & N1); [done| |].
  { rewrite Hw. unfold connection. rewrite Hv, Hu, Hb. cbn. solve_Permutation. }
  destruct (release_perm _ _ _ N1 H1) as (w2 & E2 & H2 & N2). destruct (release_perm _ _ _ N2 H2) as (w3 & E3 & H3 & N3).
  destruct (release_perm _ _ _ N3 H3) as (w4 & E4 & H4 & N4). destruct (release_perm _ _ _ N4 H4) as (w5 & E5 & H5 & N5).
  destruct (release_perm _ _ _ N5 H5) as (w6 & E6 & H6 & N6).
  rewrite E1. cbn. rewrite Hv, Hu, Hb. cbn. rewrite E2. cbn. rewrite E3. cbn. rewrite E4. cbn. rewrite E5. cbn.
  split; [by exists w6|]. do 2 eexists. exists w6. split; [done|]. cbn.
  rewrite E2. cbn. rewrite E3. cbn. rewrite E4. cbn. rewrite E5. cbn. by split_and!.
Qed.

Lemma unused_nodup w rs : NoDup w → NoDup rs → unused w rs → NoDup (rs ++ w).
Proof. intros Hw Hr Hu. apply NoDup_app. split_and!; [done| |done]. by apply Forall_forall. Qed.

Lemma connection_nodup job c : complete c → NoDup (connection job c).
Proof.
  intros (_ & [v Hv] & [u Hu] & [b Hb]). unfold connection. rewrite Hv, Hu, Hb. cbn.
  repeat (apply NoDup_cons; split; [absent|]). apply NoDup_nil_2.
Qed.

(** No connection leaks, on any path.  [on_accept] either fails and has
    released all it had acquired, or gives the work queue a job that owns
    exactly what was acquired; the job function releases exactly that, whether
    or not a callback has closed the client before, and nothing is released
    twice. *)
Theorem connections_do_not_leak e w :
  fresh_answers e w →
  ∃ o w', on_accept e w = Done (o, w') ∧
    match o with
    | None => w' = w
    | Some (job, c) =>
        w' = connection job c ++ w ∧ server_job_function job c w' = Done w ∧
        ∃ c1 w1, buffered_on_error c w' = Done (c1, w1) ∧ server_job_function job c1 w1 = Done w
    end.
Proof.
  intros He. destruct (on_accept_cases e w He) as ([[job c]|] & w' & Ha & H); [|by exists None, w'].
  destruct H as (-> & (Hfd & [v Hv] & [u Hu] & [b Hb]) & Hw). exists (Some (job, c)), (connection job c ++ w).
  destruct c as [a n ev be ob]. cbn in *. subst. unfold connection, unused in *. cbn in *.
  repeat (apply Forall_cons in Hw as [? Hw]). split; [done|]. split; [done|]. split; [by releases|].
  do 2 eexists. split; [by releases|]. by releases.
Qed.

Definition all_granted : answers := Answers (Some 5) 2 0 (Some 1%nat) (Some 2%nat) (Some 3%nat) (Some 4%nat) (Some 6%nat).

Lemma connections_do_not_leak_witness :
  fresh_answers all_granted [Fd 3] ∧
  ∃ o w', on_accept all_granted [Fd 3] = Done (o, w') ∧
    match o with
    | None => w' = [Fd 3]
    | Some (job, c) =>
        w' = connection job c ++ [Fd 3] ∧ server_job_function job c w' = Done [Fd 3] ∧
        ∃ c1 w1, buffered_on_error c w' = Done (c1, w1) ∧ server_job_function job c1 w1 = Done [Fd 3]
    end.
Proof.
  assert (fresh_answers all_granted [Fd 3]) as H.
  { unfold fresh_answers, all_granted. cbn. split_and!; intros ? [= <-]; [split; [done|]|..]; set_solver. }
  split; [exact H|]. exact (connections_do_not_leak all_granted [Fd 3] H).
Defined.

(** ** Copying the input to the output *)

(** What the server relies on of libevent's buffers: a sequence of bytes that can
    be measured, shortened by its first bytes, and extended when there is memory
    ([evbuffer_add] then returns 0). *)
Class EvBuffer (B : Type) : Type := {
  contents : B → list Z;
  EVBUFFER_LENGTH : B → Z;
  evbuffer_remove : B → Z → list Z * B;
  evbuffer_add : B → list Z → Z * B;
  length_law b : EVBUFFER_LENGTH b = Z.of_nat (length (contents b));
  remove_law b n : 0 <= n →
    (evbuffer_remove b n).1 = take (Z.to_nat n) (contents b) ∧
    contents (evbuffer_remove b n).2 = drop (Z.to_nat n) (contents b);
  add_law b data :
    contents (evbuffer_add b data).2 =
    if (evbuffer_add b data).1 =? 0 then contents b ++ data else contents b
}.

Section reading.
Context {B : Type} `{EvBuffer B}.

(** A [size_t] stored in an [int]. *)
Definition to_int (z : Z) : Z := let m := z mod 2 ^ 32 in if m <? 2 ^ 31 then m else m - 2 ^ 32.

(** The loop of [buffered_on_read]: the chunks fit in its 4096 bytes, and what
    [evbuffer_add] returns is not looked at; [None] when the fuel is not
    enough. *)
Fixpoint copy_chunks (fuel : nat) (input output : B) : option (B * B) :=
  match fuel with
  | O => None
  | S fuel =>
      let nbytes := to_int (EVBUFFER_LENGTH input) in
      if 0 <? nbytes then
        let nbytes := if 4096 <? nbytes then 4096 else nbytes in
        let (data, input') := evbuffer_remove input nbytes in
        copy_chunks fuel input' (evbuffer_add output data).2
      else Some (input, output)
  end.

(** [buffered_on_read]: the buffers, and the client, which is closed when the
    output cannot be handed to libevent; [write_buffer] is
    [bufferevent_write_buffer]. *)
Definition buffered_on_read (write_buffer : B → Z) (fuel : nat) (c : client_t) (input output : B) (w : ledger)
    : res (client_t * ledger * B * B) :=
  match copy_chunks fuel input output with
  | None => Blocked
  | Some (input', output') =>
      if negb (write_buffer output' =? 0) then
        '(c', w') ← closeClient c w; Done (c', w', input', output')
      else Done (c, w, input', output')
  end.

Lemma to_int_small z : 0 <= z < 2 ^ 31 → to_int z = z.
Proof. intros Hz. unfold to_int. rewrite Z.mod_small by lia. by rewrite (proj2 (Z.ltb_lt _ _)) by lia. Qed.

Lemma copy_chunks_spec fuel input output :
  Z.of_nat (length (contents input)) < 2 ^ 31 → (length (contents input) < fuel)%nat →
  ∃ input' output' kept, copy_chunks fuel input output = Some (input', output') ∧
    contents input' = [] ∧ contents output' = contents output ++ kept ∧ kept `sublist_of` contents input ∧
    ((∀ b data, (evbuffer_add b data).1 = 0) → kept = contents input).
Proof.
  revert input output. induction fuel as [|fuel IH]; intros input output Hlen Hf; [lia|]. cbn [copy_chunks].
  rewrite length_law, to_int_small by lia.
  destruct (0 <? _) eqn:E; bools.
  2:{ exists input, output, []. assert (contents input = []) as Hn by (apply nil_length_inv; lia).
      rewrite Hn, app_nil_r. by split_and!. }
  set (n := if 4096 <? _ then _ else _).
  assert (0 < n <= Z.of_nat (length (contents input))) as Hn by (unfold n; case_match; bools; lia).
  clearbody n. destruct (remove_law input n) as [Hd Hr]; [lia|].
  destruct (evbuffer_remove input n) as [data input1]. cbn in Hd, Hr.
  destruct (IH input1 (evbuffer_add output data).2) as (input' & output' & kept & -> & Hi & Ho & Hk & Hall);
    [rewrite Hr, length_drop; lia..|].
  rewrite add_law in Ho. rewrite Hr in Hk, Hall.
  rewrite <- (take_drop (Z.to_nat n) (contents input)). rewrite <- Hd in *.
  destruct (_ =? 0) eqn:Ea.
  - exists input', output', (data ++ kept). split_and!; [done|done|by rewrite Ho, app_assoc|by apply sublist_app|].
    intros Hok. by rewrite (Hall Hok).
  - exists input', output', kept. split_and!; [done|done|done|by apply sublist_inserts_l|].
    intros Hok. bools. by rewrite Hok in Ea.
Qed.

(** C30: the echo.  For any input an [int] can measure the loop ends, with the
    whole input taken; what is added to the output is the input, in order,
    possibly without the chunks for which there was no memory, and all of it
    when there was.  The client is closed exactly when the output cannot be
    handed over. *)
Theorem buffered_on_read_echoes write_buffer c input output w :
  Z.of_nat (length (contents input)) < 2 ^ 31 → 0 <= fd c → Fd (fd c) ∈ w →
  ∃ c' w' input' output' kept,
    buffered_on_read write_buffer (S (length (contents input))) c input output w = Done (c', w', input', output') ∧
    contents input' = [] ∧ contents output' = contents output ++ kept ∧ kept `sublist_of` contents input ∧
    ((∀ b data, (evbuffer_add b data).1 = 0) → kept = contents input) ∧
    (if write_buffer output' =? 0 then c' = c ∧ w' = w else fd c' = -1 ∧ Fd (fd c) ∉ w').
Proof.
  intros Hlen Hfd Hin. unfold buffered_on_read.
  destruct (copy_chunks_spec (S (length (contents input))) input output Hlen) as
    (input' & output' & kept & -> & Hi & Ho & Hk & Hall); [lia|].
  destruct (write_buffer output' =? 0) eqn:Hw; cbn [negb].
  - exists c, w, input', output', kept. rewrite Hw. by split_and!.
  - unfold closeClient, release. rewrite (proj2 (Z.leb_le 0 _)), decide_True by done.
    do 2 eexists. exists input', output', kept. split; [done|]. rewrite Hw. split_and!; try done.
    rewrite list_elem_of_filter. tauto.
Qed.
End reading.

(** Buffers as lists. *)
#[local] Program Instance list_buffer : EvBuffer (list Z) := {|
  contents b := b;
  EVBUFFER_LENGTH b := Z.of_nat (length b);
  evbuffer_remove b n := (take (Z.to_nat n) b, drop (Z.to_nat n) b);
  evbuffer_add b data := (0, b ++ data)
|}.
Next Obligation. done. Qed.
Next Obligation. done. Qed.
Next Obligation. done. Qed.

Lemma buffered_on_read_echoes_witness :
  ∃ c' w' input' output',
    buffered_on_read (λ _, 0) 4 (MkClient 1 5 None None None) [104; 105; 10] [] [Fd 5] =
      Done (c', w', input', output') ∧ input' = [] ∧ output' = [104; 105; 10].
Proof.
  destruct (buffered_on_read_echoes (λ _, 0) (MkClient 1 5 None None None) [104; 105; 10] [] [Fd 5])
    as (c' & w' & input' & output' & kept & Hrun & Hi & Ho & _ & Hall & _); [done|done|by left|].
  exists c', w', input', output'. split; [exact Hrun|]. split; [exact Hi|].
  rewrite (Hall (λ _ _, eq_refl)) in Ho. exact Ho.
Defined.

(** ** The server *)

(** The answers to the calls of [runServer]; [None] for a failure. *)
Record run_answers : Type := RunAnswers {
  r_socket : option Z;
  r_bind : bool;
  r_listen : bool;
  r_getfl : Z;
  r_setfl : Z;
  r_event_base : option nat;
  r_workqueue_init : Z
}.

(** [runServer]: [None] when [err] ends the process, else what it returns and
    whether it has run its event loop. *)
Definition runServer (e : run_answers) (w : ledger) : res (option (Z * bool) * ledger) :=
  match r_socket e with
  | None => Done (None, w)
  | Some listenfd =>
      let w := Fd listenfd :: w in
      if negb (r_bind e) || negb (r_listen e) then Done (None, w)
      else if setnonblock (Answers None (r_getfl e) (r_setfl e) None None None None None) <? 0 then Done (None, w)
      else
        match r_event_base e with
        | None => w1 ← release (Fd listenfd) w; Done (Some (1, false), w1)
        | Some b =>
            let w := Event_base b :: w in
            if negb (r_workqueue_init e =? 0) then
              w1 ← release (Fd listenfd) w; Done (Some (1, false), w1)
            else
              w1 ← release (Event_base b) w;
              w2 ← release (Fd listenfd) w1;
              Done (Some (0, true), w2)
        end
  end.

(** When [runServer] returns it has released what it acquired, except for the
    event base when the work queue could not be initialised. *)
Lemma runServer_releases e w r w' :
  (∀ n, r_socket e = Some n → Fd n ∉ w) → (∀ b, r_event_base e = Some b → Event_base b ∉ w) →
  runServer e w = Done (Some r, w') →
  w' = w ∨ (r = (1, false) ∧ r_workqueue_init e ≠ 0 ∧ ∃ b, r_event_base e = Some b ∧ w' = Event_base b :: w).
Proof.
  intros Hs Hb H. unfold runServer in H. destruct (r_socket e) as [n|]; [|done]. specialize (Hs n eq_refl).
  destruct (_ || _); [done|]. destruct (_ <? 0); [done|]. destruct (r_event_base e) as [b|].
  - specialize (Hb b eq_refl). destruct (r_workqueue_init e =? 0) eqn:E; cbn [negb] in H; bools.
    + rewrite release_head in H by set_solver. cbn in H. rewrite release_head in H by done. cbn in H. inv_res. by left.
    + rewrite release_skip, release_head in H by done. cbn in H. inv_res. right. eauto.
  - rewrite release_head in H by done. cbn in H. inv_res. by left.
Qed.
