(* ===== verification/EchoQueue.v ===== *)
(** * echoserver_threaded.c and workqueue.c together

    The echo server on its work queue: the listening thread accepts connections
    and adds their jobs, the workers serve them, and the ledger of the resources
    follows.  The threads are those of [WorkqueueRun], the resources those of
    [EchoServer]; the theorem holds for any store of jobs. *)

From S2P Require Import Prelude Pthread Store Workqueue WorkqueueRun WorkqueueProps EchoServer.
Open Scope Z_scope.

(** [fresh_answers] as a test. *)
Definition fresh_opt {A} (mk : A → resource) (o : option A) (w : ledger) : bool :=
  match o with Some a => bool_decide (mk a ∉ w) | None => true end.

Definition fresh_answersb (e : answers) (w : ledger) : bool :=
  match accepted e with Some n => 0 <=? n | None => true end &&
  fresh_opt Fd (accepted e) w && fresh_opt Client (client_block e) w && fresh_opt Evbuffer (evbuffer_block e) w &&
  fresh_opt Event_base (evbase_block e) w && fresh_opt Bufferevent (bufferevent_block e) w &&
  fresh_opt JobBlock (job_block e) w.

Lemma fresh_opt_true {A} (mk : A → resource) o w a : fresh_opt mk o w = true → o = Some a → mk a ∉ w.
Proof. intros H ->. by apply bool_decide_eq_true in H. Qed.

Lemma fresh_answersb_true e w : fresh_answersb e w = true → fresh_answers e w.
Proof.
  unfold fresh_answersb. intros H. bools. split_and!; intros a Ha; [|by eapply fresh_opt_true..].
  split; [|by eapply fresh_opt_true]. rewrite Ha in *. by bools.
Qed.

Section server.
Context {Q : Type} {St : JobStore Q Z lifo} {Em : EmptyStore Q Z lifo}.

(** The work queue, the resources, and the client of each job ([user_data]). *)
Record server : Type := Server {
  queue : workqueue_t Q;
  held : ledger;
  user_data : gmap Z client_t
}.

(** A connection is accepted; or the queue goes on, a callback having closed the
    client of the job that is executed or not. *)
Inductive sinput : Type :=
  | Accept (e : answers)
  | Queue (x : qinput) (closed : bool).

(** The number of the job whose block is at an address. *)
Definition job_number (j : nat) : Z := Z.of_nat j.

Definition server_step (ls : list qlocal) (t : nat) (x : sinput) (s : server) (l : qlocal) :
    res (server * qlocal * option (effect qlocal)) :=
  match l, x with
  | QOutside, Accept e =>
      if fresh_answersb e (held s) then
        '(o, w) ← on_accept e (held s);
        match o with
        | None => Done (Server (queue s) w (user_data s), QOutside, None)
        | Some (j, c) => Done (Server (queue s) w (<[job_number j := c]> (user_data s)), AddLock (job_number j), None)
        end
      else Blocked
  | QOutside, Queue (CallAdd _) _ | _, Accept _ => Blocked
  | WRun job, Queue y closed =>
      '(q, l', e) ← workqueue_step ls t y (queue s) l;
      match user_data s !! job with
      | None => Fault
      | Some c =>
          '(c1, w1) ← (if closed : bool then buffered_on_error c (held s) else Done (c, held s));
          w ← server_job_function (Z.to_nat job) c1 w1;
          Done (Server q w (user_data s), l', e)
      end
  | _, Queue y _ => '(q, l', e) ← workqueue_step ls t y (queue s) l; Done (Server q (held s) (user_data s), l', e)
  end.

#[export] Program Instance server_program : Program sinput server qlocal := {|
  tstep := server_step;
  waits_on := workqueue_waits_on;
  woken := workqueue_woken
|}.
Next Obligation. intros ls t x s [] r [c Hc]; try done. by destruct x as [e|y closed]. Qed.
Next Obligation. by intros [] [c Hc]. Qed.

(** [base]: what the server holds itself. *)
Definition server_init (n : nat) (numWorkers : Z) (base : ledger) : config server qlocal :=
  (Server (qinit n numWorkers).1 base ∅, (qinit n numWorkers).2).

Definition any_answer (x : sinput) : Prop := True.

(** ** The queue of the server is a work queue *)

(** What a step of the server does: it refuses a connection, or adds the job of
    one, or it is a step of the queue, which executes a job or not. *)
Inductive server_case (ls : list qlocal) (t : nat) (s : server) (l : qlocal) (s' : server) (l' : qlocal)
    (e : option (effect qlocal)) : Prop :=
  | case_refused : s' = s → l = QOutside → l' = QOutside → e = None → server_case ls t s l s' l' e
  | case_accepted a j c :
      fresh_answers a (held s) → on_accept a (held s) = Done (Some (j, c), held s') →
      queue s' = queue s → user_data s' = <[job_number j := c]> (user_data s) →
      l = QOutside → l' = AddLock (job_number j) → e = None → server_case ls t s l s' l' e
  | case_queue y :
      workqueue_step ls t y (queue s) l = Done (queue s', l', e) → held s' = held s → user_data s' = user_data s →
      (∀ j, l ≠ WRun j) → (∀ j, l' ≠ AddLock j) → server_case ls t s l s' l' e
  | case_job y job c closed c1 w1 :
      l = WRun job → workqueue_step ls t y (queue s) l = Done (queue s', l', e) → user_data s' = user_data s →
      user_data s !! job = Some c →
      (if closed : bool then buffered_on_error c (held s) else Done (c, held s)) = Done (c1, w1) →
      server_job_function (Z.to_nat job) c1 w1 = Done (held s') → server_case ls t s l s' l' e.

Lemma no_new_job ls t y s l s' l' e :
  workqueue_step (St := St) (E := Em) ls t y s l = Done (s', l', e) → l ≠ QOutside ∨ (∀ j, y ≠ CallAdd j) →
  ∀ j, l' ≠ AddLock j.
Proof.
  intros Hs Hy j ->. change (tstep ls t y s l = Done (s', AddLock j, e)) in Hs. qstep_cases Hs.
  destruct Hy as [Hy|Hy]; [done|by eapply Hy].
Qed.

Lemma server_step_cases ls t x s l s' l' e :
  server_step ls t x s l = Done (s', l', e) → server_case ls t s l s' l' e.
Proof.
  intros H. unfold server_step in H. destruct x as [a|y closed].
  - destruct l; try done. destruct (fresh_answersb a (held s)) eqn:Ef; [|done]. apply fresh_answersb_true in Ef.
    destruct (on_accept_cases a (held s) Ef) as (o & w & Ho & Hw). rewrite Ho in H. cbn in H.
    destruct o as [[j c]|]; inv_res.
    + by eapply case_accepted.
    + apply case_refused; [by destruct s|done..].
  - assert (∀ r, (∀ j, l ≠ WRun j) → l ≠ QOutside ∨ (∀ j, y ≠ CallAdd j) →
      ('(q, l', e) ← workqueue_step ls t y (queue s) l; Done (Server q (held s) (user_data s), l', e)) = r →
      r = Done (s', l', e) → server_case ls t s l s' l' e) as Hq.
    { intros r Hr Hy <- Hs. apply bind_Done in Hs as ([[q k] e'] & Hs & E). inv_res.
      eapply case_queue; [done|done|done|done|]. by eapply no_new_job. }
    destruct l; try (eapply Hq; [done|by left|reflexivity|exact H]).
    + destruct y; try done; (eapply Hq; [done|by right|reflexivity|exact H]).
    + apply bind_Done in H as ([[q k] e'] & Hs & H).
      destruct (user_data s !! job) as [c|] eqn:Hc; [|done]. apply bind_Done in H as ([c1 w1] & H1 & H). inv_res.
      by eapply case_job.
Qed.

(** ** The connections that have not been served *)

Definition carried (l : qlocal) : list Z :=
  match l with AddLock j | AddJob j | WUnlock j | WRun j => [j] | _ => [] end.

(** The jobs being added, waiting, being executed, or dropped by a shutdown. *)
Definition outstanding (s : workqueue_t Q) (ls : list qlocal) : list Z :=
  gather carried ls ++ jobs (waiting s) ++ wdropped s.

Lemma carried_woken l : is_Some (waits_on l) → carried (woken l) = carried l.
Proof. destruct l; by intros [??]. Qed.

Context (Hcap : ∀ q : Q, capacity q = None).

Lemma outstanding_run s ls t x l s' l' e ls' :
  jobs_inv s ls → ls !! t = Some l → workqueue_step ls t x s l = Done (s', l', e) → effect_on e (<[t := l']> ls) ls' →
  match l, l' with
  | _, AddLock j => outstanding s' ls' ≡ₚ j :: outstanding s ls
  | WRun j, _ => outstanding s ls ≡ₚ j :: outstanding s' ls'
  | _, _ => outstanding s' ls' ≡ₚ outstanding s ls
  end.
Proof.
  intros [Hq _ _ _] Hl Hs He. change (tstep ls t x s l = Done (s', l', e)) in Hs.
  pose proof (gather_step carried _ _ _ _ _ _ carried_woken Hl He) as Hg. unfold spawned in Hg. clear He.
  unfold outstanding. qstep_cases Hs; cbn in Hg; rewrite ?app_nil_r in Hg.
  all: try match goal with K : take_job _ = Done _ |- _ => apply take_cases in K; [|done] end.
  all: try match goal with K : put ?q ?j = Done _ |- _ =>
    destruct (put_unbounded q j Hq (Hcap q)) as (q' & K' & Hq' & _ & Hj); rewrite K in K'; simplify_eq end.
  all: cbn; try done; try (by rewrite <- Hg || by rewrite Hg).
  - apply Permutation_cons_inv in Hg. by rewrite Hg.
  - (* added *) rewrite Hj, <- Hg. unfold lifo. cbn. by rewrite <- Permutation_middle.
  - (* dropped *) rewrite empty_store_jobs, Hg. cbn. by rewrite (Permutation_app_comm (wdropped s)).
  - (* taken *) match goal with K : _ ∧ _ |- _ => destruct K as [-> _] end. rewrite Hg. cbn.
    by rewrite <- Permutation_middle.
  - apply Permutation_cons_inv in Hg. by rewrite Hg.
Qed.

(** The resources of a job. *)
Definition holds (ud : gmap Z client_t) (j : Z) : list resource :=
  match ud !! j with Some c => connection (Z.to_nat j) c | None => [] end.

Lemma bind_same {A B} (f g : A → list B) l : (∀ a, a ∈ l → f a = g a) → l ≫= f = l ≫= g.
Proof.
  induction l as [|a l IH]; intros H; [done|]. rewrite !bind_cons, (H a) by left. f_equal. apply IH.
  intros b Hb. apply H. by right.
Qed.

Record server_inv (n : nat) (num : Z) (base : ledger) (s : server) (ls : list qlocal) : Prop := ServerInv {
  vi_queue : reachable (P := workqueue_program) anything (qinit n num) (queue s, ls);
  vi_data : ∀ j, j ∈ outstanding (queue s) ls → ∃ a c, j = job_number a ∧ user_data s !! j = Some c ∧ complete c;
  vi_held : held s ≡ₚ base ++ (outstanding (queue s) ls ≫= holds (user_data s));
  vi_nodup : NoDup (held s)
}.

(** Adding a job that is not outstanding. *)
Lemma held_add base (o o' : list Z) (ud : gmap Z client_t) j c (w : ledger) :
  w ≡ₚ base ++ (o ≫= holds ud) → (∀ k, k ∈ o → ∃ a c, k = job_number a ∧ ud !! k = Some c ∧ complete c) →
  unused w (connection j c) → o' ≡ₚ job_number j :: o →
  connection j c ++ w ≡ₚ base ++ (o' ≫= holds (<[job_number j := c]> ud)) ∧ job_number j ∉ o.
Proof.
  intros Hw Hd Hu Ho.
  assert (job_number j ∉ o) as Hj.
  { intros Hin. destruct (Hd _ Hin) as (a & c' & Ha & Hc' & _). unfold unused, connection in Hu.
    apply Forall_cons in Hu as [Hu _]. apply Hu. rewrite Hw. apply elem_of_app. right.
    apply list_elem_of_bind. exists (job_number j). split; [|done]. unfold holds. rewrite Hc'.
    unfold job_number, connection. rewrite Nat2Z.id. by left. }
  split; [|done]. rewrite Ho, bind_cons.
  rewrite (bind_same (holds (<[job_number j := c]> ud)) (holds ud) o).
  2:{ intros k Hk. unfold holds. rewrite lookup_insert_ne; [done|]. by intros <-. }
  unfold holds at 1. rewrite lookup_insert_eq. unfold job_number. rewrite Nat2Z.id, Hw.
  apply Permutation_app_swap_app.
Qed.

Lemma server_inv_run n num base s ls t x l s' l' e ls' :
  server_inv n num base s ls → ls !! t = Some l → server_step ls t x s l = Done (s', l', e) →
  effect_on e (<[t := l']> ls) ls' →
  reachable (P := workqueue_program) anything (qinit n num) (queue s', ls') → server_inv n num base s' ls'.
Proof.
  intros [Hr Hd Hh Hn] Hl Hs He Hr'. pose proof (reachable_jobs Hcap _ _ _ _ Hr) as Hji.
  apply server_step_cases in Hs as [-> -> -> ->|a j c Hf Ha Hq Hu -> -> ->|y Hb Hw Hu Hl1 Hl2|y job c closed c1 w1 -> Hb Hu Hc H1 H2].
  - inversion He; subst. rewrite list_insert_id by done. by split.
  - (* accepted *)
    assert (outstanding (queue s') ls' ≡ₚ job_number j :: outstanding (queue s) ls) as Ho.
    { rewrite Hq. by apply (outstanding_run (queue s) ls t (CallAdd (job_number j)) QOutside (queue s) (AddLock (job_number j)) None ls'). }
    destruct (on_accept_cases a (held s) Hf) as (o & w & Ho' & Hcase). rewrite Ha in Ho'. simplify_eq.
    destruct Hcase as (Hw & Hcc & Hun). destruct (held_add _ _ _ _ _ _ _ Hh Hd Hun Ho) as [Hp Hj].
    split; [done| | |].
    + intros k Hk. rewrite Ho in Hk. rewrite Hu. apply elem_of_cons in Hk as [->|Hk].
      * exists j, c. by rewrite lookup_insert_eq.
      * rewrite lookup_insert_ne by (by intros <-). by apply Hd.
    + by rewrite Hw, Hu.
    + rewrite Hw. by apply unused_nodup; [|apply connection_nodup|].
  - (* a step of the queue *)
    assert (outstanding (queue s') ls' ≡ₚ outstanding (queue s) ls) as Ho.
    { pose proof (outstanding_run _ _ _ _ _ _ _ _ _ Hji Hl Hb He) as Ho.
      destruct l; try (by destruct (Hl1 _ eq_refl)); destruct l'; try (by destruct (Hl2 _ eq_refl)); done. }
    split; [done| | |by rewrite Hw].
    + intros k Hk. rewrite Ho in Hk. rewrite Hu. by apply Hd.
    + by rewrite Hw, Hu, Ho.
  - (* a job executed *)
    assert (outstanding (queue s) ls ≡ₚ job :: outstanding (queue s') ls') as Ho.
    { pose proof (outstanding_run _ _ _ _ _ _ _ _ _ Hji Hl Hb He) as Ho. cbn in Hb. by simplify_eq. }
    destruct (Hd job) as (a & c' & -> & Hc' & Hcc); [rewrite Ho; by left|]. simplify_eq.
    destruct (job_releases (Z.to_nat (job_number a)) c (held s) (base ++ (outstanding (queue s') ls' ≫= holds (user_data s))) Hcc Hn)
      as [(w' & E & Hw' & Hn') (c2 & w2 & w3 & E1 & E2 & Hw3 & Hn3)].
    { rewrite Hh, Ho, bind_cons. unfold holds at 1. rewrite Hc. apply Permutation_app_swap_app. }
    assert (held s' ≡ₚ base ++ (outstanding (queue s') ls' ≫= holds (user_data s)) ∧ NoDup (held s')) as [Hp Hnd].
    { destruct closed; [rewrite E1 in H1; injection H1 as <- <-; rewrite E2 in H2|injection H1 as <- <-; rewrite E in H2];
        injection H2 as <-; done. }
    split; [done| |by rewrite Hu|done].
    intros k Hk. rewrite Hu. apply Hd. rewrite Ho. by right.
Qed.

Lemma server_inv_wake n num base s ls t l :
  server_inv n num base s ls → ls !! t = Some l → is_Some (waits_on l) →
  reachable (P := workqueue_program) anything (qinit n num) (queue s, <[t := woken l]> ls) →
  server_inv n num base s (<[t := woken l]> ls).
Proof.
  intros [Hr Hd Hh Hn] Hl Hw Hr'.
  assert (outstanding (queue s) (<[t := woken l]> ls) = outstanding (queue s) ls) as Ho.
  { unfold outstanding. by rewrite (gather_insert_same carried _ _ _ _ Hl (carried_woken l Hw)). }
  split; [done| |by rewrite Ho|done]. intros j. rewrite Ho. apply Hd.
Qed.

(** The two programs wake the same threads. *)
Lemma queue_effect e ls ls' :
  effect_on (P := server_program) e ls ls' → effect_on (P := workqueue_program) e ls ls'.
Proof.
  destruct 1 as [ls|c ls w l Hw Hc|c ls Hn|c ls|l ls]; [constructor| | |exact (eff_broadcast c ls)|constructor].
  - exact (eff_signal (P := workqueue_program) c ls w l Hw Hc).
  - exact (eff_signal_none (P := workqueue_program) c ls Hn).
Qed.

Lemma server_inv_step n num base s ls s' ls' :
  server_inv n num base s ls → step (P := server_program) any_answer (s, ls) (s', ls') → server_inv n num base s' ls'.
Proof.
  intros Hi Hst. pose proof (vi_queue _ _ _ _ _ Hi) as Hr.
  apply step_inv in Hst as [(t & x & l & l' & e & _ & Hl & Hs & He)|(t & l & -> & Hl & Hw & ->)].
  - eapply server_inv_run; [done..|].
    assert (∀ y, workqueue_step ls t y (queue s) l = Done (queue s', l', e) →
      reachable (P := workqueue_program) anything (qinit n num) (queue s', ls')) as Hstep.
    { intros y Hb. eapply rtc_r; [exact Hr|]. eapply (step_run (P := workqueue_program) anything t y); [exact I|exact Hl|exact Hb|by apply queue_effect]. }
    apply server_step_cases in Hs as [-> -> -> ->|a j c Hf Ha Hq Hu -> -> ->|y Hb Hw Hu Hl1 Hl2|y job c closed c1 w1 -> Hb Hu Hc H1 H2];
      [|by apply (Hstep (CallAdd (job_number j))); rewrite Hq|by eapply Hstep..].
    inversion He; subst. by rewrite list_insert_id.
  - eapply server_inv_wake; [done..|]. eapply rtc_r; [exact Hr|]. by apply (step_wakeup (P := workqueue_program)).
Qed.

Lemma reachable_server n num base s ls :
  NoDup base → reachable (P := server_program) any_answer (server_init n num base) (s, ls) → server_inv n num base s ls.
Proof.
  intros Hb H. apply (invariant_reachable any_answer (λ cf, server_inv n num base cf.1 cf.2)) in H; [done| |].
  - assert (outstanding (qinit n num).1 (qinit n num).2 = []) as Ho.
    { unfold outstanding. rewrite gather_nil; [cbn; by rewrite empty_store_jobs|].
      intros [|t] l Hl; cbn in Hl; simplify_eq; [done|]. by apply lookup_replicate in Hl as [-> _]. }
    split; cbn [fst snd queue held user_data server_init].
    + rewrite <- surjective_pairing. constructor.
    + rewrite Ho. by intros j ?%not_elem_of_nil.
    + by rewrite Ho, app_nil_r.
    + done.
  - intros [s1 ls1] [s2 ls2]. apply server_inv_step.
Qed.

(** C31: the connections on the work queue.  Whatever is accepted, and whenever
    the workers run, the resources held are those of the server and those of the
    connections that have not been served: being added, waiting, being served,
    or dropped by a shutdown, whose resources are never released.  No resource
    is held or released twice, and only the shutdown of the work queue can have
    undefined behaviour. *)
Theorem echo_server_resources n num base s ls :
  NoDup base → reachable (P := server_program) any_answer (server_init n num base) (s, ls) →
  held s ≡ₚ base ++ (outstanding (queue s) ls ≫= holds (user_data s)) ∧ NoDup (held s) ∧
  (∀ t l, ls !! t = Some l → can_fault (P := server_program) any_answer (s, ls) t → shutting l = true).
Proof.
  intros Hb Hr. destruct (reachable_server _ _ _ _ _ Hb Hr) as [Hq Hd Hh Hn]. split_and!; [done..|].
  intros t l Hl Hf. apply can_fault_inv in Hf as (l0 & x & Hl0 & _ & Hf). simplify_eq.
  pose proof (reachable_jobs Hcap _ _ _ _ Hq) as Hji. pose proof (reachable_owner _ _ _ _ Hq) as Ho.
  cbn in Hf. unfold server_step in Hf. destruct x as [a|y closed].
  { destruct l; try done. destruct (fresh_answersb a (held s)) eqn:Ef; [|done]. apply fresh_answersb_true in Ef.
    destruct (on_accept_cases a (held s) Ef) as ([[j c]|] & w & Ha & _); by rewrite Ha in Hf. }
  assert (∀ f : workqueue_t Q * qlocal * option (effect qlocal) → res (server * qlocal * option (effect qlocal)),
    (∀ r, workqueue_step ls t y (queue s) l = Done r → f r ≠ Fault) →
    workqueue_step ls t y (queue s) l ≫= f = Fault → shutting l = true) as Hbase.
  { intros f Hk H. apply (only_shutdown_faults Hcap (queue s) ls t y l Hji Ho Hl).
    change (workqueue_step ls t y (queue s) l = Fault).
    destruct (workqueue_step ls t y (queue s) l) eqn:E; [by destruct (Hk _ eq_refl)|done|done]. }
  destruct l; try (eapply Hbase; [|exact Hf]; by intros [[??]?]).
  - destruct y; try done; (eapply Hbase; [|exact Hf]; by intros [[??]?]).
  - (* a job *)
    assert (job ∈ outstanding (queue s) ls) as Hin.
    { unfold outstanding. apply elem_of_app. left. eapply gather_elem; [exact Hl|by left]. }
    destruct (Hd _ Hin) as (a & c & -> & Hc & Hcc). eapply Hbase; [|exact Hf]. intros [[q k] e] _. rewrite Hc.
    apply elem_of_Permutation in Hin as [o Hin].
    destruct (job_releases (Z.to_nat (job_number a)) c (held s) (base ++ (o ≫= holds (user_data s))) Hcc Hn)
      as [(w' & E & _) (c1 & w1 & w2 & E1 & E2 & _)].
    { rewrite Hh, Hin, bind_cons. unfold holds at 1. rewrite Hc. apply Permutation_app_swap_app. }
    destruct closed; [rewrite E1; cbn [mbind res_bind]; by rewrite E2|cbn [mbind res_bind]; by rewrite E].
Qed.
End server.

(** ** Witness: two connections, one of which has been served. *)

Definition steps (t n : nat) : list (event sinput) := replicate n (Run t (Queue QGo true) 0).
Definition accepting (e : answers) : list (event sinput) := [Run 0 (Accept e) 0].
Definition second : answers := Answers (Some 6) 2 0 (Some 11%nat) (Some 12%nat) (Some 13%nat) (Some 14%nat) (Some 16%nat).

Lemma server_script (evs : list (event sinput)) (cf : config (server (Q := joblist)) qlocal) :
  forallb (event_okb (λ _, true)) evs = true →
  reachable (P := server_program) any_answer cf
    ((final (P := server_program) evs cf).1, (final (P := server_program) evs cf).2).
Proof. by apply final_reachable. Qed.

Definition one_served : config (server (Q := joblist)) qlocal :=
  final (P := server_program)
    (steps 0 3 ++ accepting all_granted ++ steps 0 3 ++ accepting second ++ steps 0 3 ++ steps 1 4)
    (server_init 0 1 [Fd 3; Event_base 0]).

Lemma echo_server_resources_witness :
  outstanding (queue one_served.1) one_served.2 = [6] ∧ length (held one_served.1) = 8%nat ∧
  held one_served.1 ≡ₚ [Fd 3; Event_base 0] ++
    (outstanding (queue one_served.1) one_served.2 ≫= holds (user_data one_served.1)) ∧
  NoDup (held one_served.1) ∧
  (∀ t l, one_served.2 !! t = Some l →
     can_fault (P := server_program) any_answer (one_served.1, one_served.2) t → shutting l = true).
Proof.
  split; [vm_compute; reflexivity|]. split; [vm_compute; reflexivity|].
  apply (echo_server_resources (St := joblist_store) (λ _, eq_refl) 0 1).
  - apply (bool_decide_unpack _). vm_compute. reflexivity.
  - by apply server_script.
Defined.
