(* ===== verification/EchoLive.v ===== *)
(** * echoserver_threaded.c and workqueue.c together: every connection is served

    As long as the server is not killed: the liveness of the work queue
    ([WorkqueueLive]) carried over to the server that runs on it. *)

From S2P Require Import Prelude Pthread Store Workqueue WorkqueueRun WorkqueueProps Wakeup WorkqueueLive.
From S2P Require Import EchoServer EchoQueue.
Open Scope Z_scope.

Section live.
Context {Q : Type} {St : JobStore Q Z lifo} {Em : EmptyStore Q Z lifo}.
Context (Hcap : ∀ q : Q, capacity q = None).
Implicit Types (s : server (Q := Q)) (ls : list qlocal).

(** The work queue is not shut down, and its workers can be started. *)
Definition not_killed (x : sinput) : Prop :=
  match x with Accept _ => True | Queue y _ => serving_only y end.

(** A step of the queue with the same answer of the environment. *)
Lemma queue_of_step ls t x s l s' l' e :
  not_killed x → server_step ls t x s l = Done (s', l', e) →
  (queue s' = queue s ∧ l' = l ∧ e = None) ∨
  ∃ y, serving_only y ∧ workqueue_step ls t y (queue s) l = Done (queue s', l', e).
Proof.
  intros Hx Hs. unfold server_step in Hs. destruct x as [a|y closed].
  - destruct l; try done. destruct (fresh_answersb a (held s)); [|done].
    apply bind_Done in Hs as ([o w] & Ho & Hs). destruct o as [[j c]|]; inv_res.
    + right. by exists (CallAdd (job_number j)).
    + by left.
  - right. exists y. split; [done|].
    destruct l; try (by apply bind_Done in Hs as ([[q k] e'] & Hb & E); inv_res).
    + by destruct y; try done; apply bind_Done in Hs as ([[q k] e'] & Hb & E); inv_res.
    + apply bind_Done in Hs as ([[q k] e'] & Hb & Hs). destruct (user_data s !! job); [|done].
      apply bind_Done in Hs as ([c1 w1] & H1 & Hs). by inv_res.
Qed.

(** Every run of the server that is not killed runs its work queue without a
    shutdown. *)
Lemma queue_reachable n num base s ls :
  reachable (P := server_program) not_killed (server_init n num base) (s, ls) →
  reachable (P := workqueue_program) serving_only (qinit n num) (queue s, ls).
Proof.
  intros H. apply (invariant_reachable (P := server_program) not_killed
    (λ cf, reachable (P := workqueue_program) serving_only (qinit n num) (queue cf.1, cf.2))) in H; [done| |].
  - cbn [fst snd server_init queue]. rewrite <- surjective_pairing. constructor.
  - intros [s1 ls1] [s2 ls2] Hr Hst. cbn [fst snd] in *.
    apply step_inv in Hst as [(t & x & l & l' & e & Hx & Hl & Hs & He)|(t & l & -> & Hl & Hw & ->)].
    + destruct (queue_of_step _ _ _ _ _ _ _ _ Hx Hs) as [(-> & -> & ->)|(y & Hy & Hb)].
      * inversion He; subst. by rewrite list_insert_id.
      * eapply rtc_r; [exact Hr|]. by eapply (step_run serving_only t y); [..|by apply queue_effect].
    + eapply rtc_r; [exact Hr|]. by apply (step_wakeup (P := workqueue_program)).
Qed.

(** A server at rest: its work queue is. *)
Lemma queue_at_rest s ls :
  at_rest (P := server_program) idle (Queue QGo false) s ls → at_rest (P := workqueue_program) idle QGo (queue s) ls.
Proof.
  intros Hq t l Hl Hi. destruct (Hq t l Hl Hi) as [Hf Hno].
  assert (tstep (Program := workqueue_program) ls t QGo (queue s) l = Blocked) as Hb.
  { destruct (workqueue_step ls t QGo (queue s) l) as [[[q k] e]| |] eqn:E; [exfalso| |exfalso]; [|done|].
    - destruct (tstep (Program := server_program) ls t (Queue QGo false) s l) as [[[s' l'] e']| |] eqn:Es; [|..|done].
      + destruct (exec_Done (P := server_program) _ _ _ _ _ _ _ _ Hl Es) as (w & cf & Hex). by destruct (Hno w cf).
      + cbn in Es. unfold server_step in Es. destruct l; try done; rewrite E in Es; try done.
        cbn [mbind res_bind] in Es. destruct (user_data s !! job) as [c|]; [|done].
        by apply (server_job_not_blocked (Z.to_nat job) c (held s)); apply bind_Blocked in Es as [Es|(w & _ & Es)].
    - apply Hf. cbn. unfold server_step. destruct l; try done; by rewrite E. }
  split; [by rewrite Hb|]. intros w cf Hex. unfold exec in Hex. cbn [fst snd] in Hex. by rewrite Hl, Hb in Hex.
Qed.

(** C32: every connection is served.  As long as the server is not killed, in a
    configuration with a worker where no thread can go on, except the listening
    thread waiting for a connection, every job added has been executed: each
    connection accepted has been closed and its memory released, and the server
    holds what it held at the start. *)
Theorem echo_server_serves n num base s ls :
  NoDup base → reachable (P := server_program) not_killed (server_init n num base) (s, ls) →
  (S n < length ls)%nat → at_rest (P := server_program) idle (Queue QGo false) s ls →
  outstanding (queue s) ls = [] ∧ wran (queue s) ≡ₚ wadded (queue s) ∧ held s ≡ₚ base.
Proof.
  intros Hb Hr Hw Hq. pose proof (queue_reachable _ _ _ _ _ Hr) as Hqr.
  assert (reachable (P := server_program) any_answer (server_init n num base) (s, ls)) as Hr'
    by (by eapply reachable_mono; [|exact Hr]).
  destruct (reachable_server Hcap _ _ _ _ _ Hb Hr') as [_ _ Hh _].
  destruct (queue_quiescent Hcap n num (queue s) ls Hqr Hw (queue_at_rest _ _ Hq)) as (Hall & Hj & _ & Hran).
  assert (outstanding (queue s) ls = []) as Ho.
  { unfold outstanding. destruct (queue_reachable_live Hcap _ _ _ _ Hqr) as (_ & Hs & _).
    destruct (sv_run _ _ _ Hs) as [_ ->]. rewrite Hj, gather_nil; [done|].
    intros t l Hl. rewrite (Hall t l Hl). by case_match. }
  split; [done|]. split; [done|]. by rewrite Hh, Ho, app_nil_r.
Qed.
End live.

(** ** Witness: two connections, both served. *)

Definition not_killed_b (x : sinput) : bool := match x with Accept _ => true | Queue y _ => serving_only_b y end.

Lemma not_killed_script (evs : list (event sinput)) (cf : config (server (Q := joblist)) qlocal) :
  forallb (event_okb not_killed_b) evs = true →
  reachable (P := server_program) not_killed cf
    ((final (P := server_program) evs cf).1, (final (P := server_program) evs cf).2).
Proof. apply final_reachable. by intros [e|[]] ?. Qed.

Definition all_served : config (server (Q := joblist)) qlocal :=
  final (P := server_program)
    (steps 0 3 ++ accepting all_granted ++ steps 0 3 ++ accepting second ++ steps 0 3 ++ steps 1 10)
    (server_init 0 1 [Fd 3; Event_base 0]).

Lemma all_served_threads : all_served.2 = [QOutside; WWait].
Proof. vm_compute. reflexivity. Qed.

Lemma echo_server_serves_witness :
  length (wran (queue all_served.1)) = 2%nat ∧
  outstanding (queue all_served.1) all_served.2 = [] ∧
  wran (queue all_served.1) ≡ₚ wadded (queue all_served.1) ∧ held all_served.1 ≡ₚ [Fd 3; Event_base 0].
Proof.
  split; [vm_compute; reflexivity|].
  apply (echo_server_serves (St := joblist_store) (λ _, eq_refl) 0 1).
  - apply (bool_decide_unpack _). vm_compute. reflexivity.
  - by apply not_killed_script.
  - rewrite all_served_threads. cbn. lia.
  - apply idle_at_rest. vm_compute. reflexivity.
Defined.
