(* ===== verification/EchoKill.v ===== *)
(** * echoserver_threaded.c: killing the server from a signal handler

    [sighandler] calls [killServer], which shuts the work queue down, on the
    stack of the thread that receives the signal, wherever that thread is: the
    threads of [WorkqueueRun] with an interrupt.  [workqueue_shutdown] locks a
    mutex that is not meant for that. *)

From S2P Require Import Prelude Pthread Store Workqueue WorkqueueRun WorkqueueProps.
Open Scope Z_scope.

Section kill.
Context {Q : Type} {St : JobStore Q Z lifo} {Em : EmptyStore Q Z lifo}.

(** The threads of the work queue, whether the event loop has been told to end,
    and where the interrupted threads were. *)
Record kconfig : Type := KConfig {
  threads : config (workqueue_t Q) qlocal;
  loopexit : bool;
  interrupted : gmap nat qlocal
}.

Inductive kevent : Type :=
  | Go (ev : event qinput)
  | Interrupt (t : nat) (exit_ok : bool)
  | Resume (t : nat).

(** [killServer], called in place: the end of the event loop is asked for, which
    can fail, and the workers are stopped. *)
Definition killServer (t : nat) (exit_ok : bool) (c : kconfig) (l : qlocal) : kconfig :=
  KConfig ((threads c).1, <[t := ShutFlag (workers (threads c).1)]> (threads c).2)
    (loopexit c || exit_ok) (<[t := l]> (interrupted c)).

(** [sighandler] runs on a thread that has not ended and is not in it already. *)
Definition sighandler (t : nat) (exit_ok : bool) (c : kconfig) : res kconfig :=
  match (threads c).2 !! t, interrupted c !! t with
  | Some WExited, _ | None, _ | _, Some _ => Blocked
  | Some l, None => Done (killServer t exit_ok c l)
  end.

(** The thread goes on where it was; a wait on a condition ends as by a spurious
    wakeup. *)
Definition handler_return (t : nat) (c : kconfig) : res kconfig :=
  match (threads c).2 !! t, interrupted c !! t with
  | Some QOutside, Some l =>
      Done (KConfig ((threads c).1, <[t := woken l]> (threads c).2) (loopexit c) (delete t (interrupted c)))
  | _, _ => Blocked
  end.

(** A thread in the handler that is back from [killServer] only returns. *)
Definition may_run (t : nat) (c : kconfig) : bool :=
  match (threads c).2 !! t, interrupted c !! t with Some QOutside, Some _ => false | _, _ => true end.

Definition kexec (ev : kevent) (c : kconfig) : res kconfig :=
  match ev with
  | Go ev =>
      if match ev with Run t _ _ => may_run t c | Wakeup _ => true end then
        cf ← exec ev (threads c); Done (KConfig cf (loopexit c) (interrupted c))
      else Blocked
  | Interrupt t exit_ok => sighandler t exit_ok c
  | Resume t => handler_return t c
  end.

Definition kstep (c c' : kconfig) : Prop := ∃ ev, kexec ev c = Done c'.
Definition kreachable : kconfig → kconfig → Prop := rtc kstep.

Fixpoint krun (evs : list kevent) (c : kconfig) : kconfig :=
  match evs with
  | [] => c
  | ev :: evs => match kexec ev c with Done c' => krun evs c' | _ => c end
  end.

Lemma krun_reachable evs c : kreachable c (krun evs c).
Proof.
  revert c. induction evs as [|ev evs IH]; intros c; cbn; [constructor|].
  destruct (kexec ev c) as [c'| |] eqn:E; [|constructor..]. eapply rtc_l; [by exists ev|apply IH].
Qed.

Definition kinit (n : nat) (num : Z) : kconfig := KConfig (qinit n num) false ∅.

(** ** A thread interrupted while it holds the mutex *)

(** A thread that neither holds the mutex nor has a job to execute. *)
Definition harmless (l : qlocal) : bool :=
  negb (holds_jobs l) && match l with WRun _ => false | _ => true end.

Record self_blocked (t : nat) (c : kconfig) : Prop := SelfBlocked {
  sb_mutex : jobs_mutex (threads c).1 = MHeld t;
  sb_here : (threads c).2 !! t = Some ShutLock;
  sb_others : ∀ u l, u ≠ t → (threads c).2 !! u = Some l → harmless l = true;
  sb_saved : ∀ u l, u ≠ t → interrupted c !! u = Some l → harmless l = true;
  sb_handler : is_Some (interrupted c !! t)
}.

Lemma harmless_woken l : harmless l = true → harmless (woken l) = true.
Proof. by destruct l. Qed.

Lemma harmless_step ls u x s l s' l' e t :
  jobs_mutex s = MHeld t → u ≠ t → harmless l = true → tstep ls u x s l = Done (s', l', e) →
  jobs_mutex s' = MHeld t ∧ harmless l' = true ∧ wran s' = wran s ∧ (∀ k, e = Some (Spawn k) → harmless k = true).
Proof.
  intros Hm Hu Hh Hs. qstep_cases Hs; try done; try congruence; split_and!; try done; by intros k [= <-].
Qed.

Lemma self_blocked_step t c c' :
  self_blocked t c → kstep c c' → self_blocked t c' ∧ wran (threads c').1 = wran (threads c).1.
Proof.
  intros [Hm Hh Ho Hsv Hin] [ev Hx]. destruct c as [[s ls] le int]. cbn in Hm, Hh, Ho, Hsv, Hin.
  destruct ev as [[u x w|u]|u ok|u]; cbn in Hx.
  - destruct (may_run _ _); [|done]. destruct (ls !! u) as [l|] eqn:Hl; [|done]. inv_res. destruct x1 as [[s1 l1] e].
    inv_res. match goal with K : workqueue_step _ _ _ _ _ = _ |- _ => rename K into Hs end.
    match goal with K : apply_effect _ _ _ = Done _ |- _ => apply apply_effect_on in K; rename K into He end.
    destruct (decide (u = t)) as [->|Hu].
    { simplify_eq. cbn in Hs. unfold lock_jobs in Hs. by rewrite Hm in Hs. }
    destruct (harmless_step _ _ _ _ _ _ _ _ _ Hm Hu (Ho _ _ Hu Hl) Hs) as (Hm' & Hl' & Hr & Hsp).
    split; [|done]. split; [done| | |done|done]; cbn.
    + destruct (effect_on_survives _ _ _ t ShutLock He) as [?|[[] _]]; [|done|done].
      by rewrite list_lookup_insert_ne.
    + intros v k Hv Hk. apply (effect_on_lookup _ _ _ _ _ He) in Hk as [Hk|[(k0 & Hk & _ & ->)|(-> & _)]]; [| |by apply Hsp].
      all: destruct (decide (v = u)) as [->|]; [rewrite list_lookup_insert_eq in Hk by (by eapply lookup_lt_Some); simplify_eq|
        rewrite list_lookup_insert_ne in Hk by done; apply (Ho _ _ Hv) in Hk]; auto using harmless_woken.
  - destruct (ls !! u) as [l|] eqn:Hl; [|done]. destruct (workqueue_waits_on l) eqn:Hw; [|done]. inv_res.
    assert (u ≠ t) by (intros ->; simplify_eq). split; [|done]. split; [done| | |done|done]; cbn.
    + by rewrite list_lookup_insert_ne.
    + intros v k Hv Hk. destruct (decide (v = u)) as [->|]; [|rewrite list_lookup_insert_ne in Hk by done; eauto].
      rewrite list_lookup_insert_eq in Hk by (by eapply lookup_lt_Some). simplify_eq.
      apply harmless_woken. eauto.
  - unfold sighandler in Hx. cbn in Hx. destruct (ls !! u) as [l|] eqn:Hl; [|done].
    destruct (decide (u = t)) as [->|Hu]. { simplify_eq. destruct Hin as [k Hk]. by rewrite Hk in Hx. }
    assert (interrupted (KConfig (s, ls) le int) !! u = None ∧ c' = killServer u ok (KConfig (s, ls) le int) l) as [Hn ->].
    { cbn. destruct (int !! u); destruct l; try done; by inv_res. }
    split; [|done]. split; cbn; [done|by rewrite list_lookup_insert_ne| | |].
    + intros v k Hv Hk. destruct (decide (v = u)) as [->|]; [|rewrite list_lookup_insert_ne in Hk by done; eauto].
      rewrite list_lookup_insert_eq in Hk by (by eapply lookup_lt_Some). by simplify_eq.
    + intros v k Hv Hk. destruct (decide (v = u)) as [->|]; [rewrite lookup_insert_eq in Hk; simplify_eq; eauto|].
      rewrite lookup_insert_ne in Hk by done. eauto.
    + by rewrite lookup_insert_ne.
  - unfold handler_return in Hx. cbn in Hx. destruct (ls !! u) as [l|] eqn:Hl; [|done].
    destruct l; try done. destruct (int !! u) as [l|] eqn:Hi; [|done]. inv_res.
    assert (u ≠ t) by (intros ->; simplify_eq). split; [|done]. split; cbn; [done|by rewrite list_lookup_insert_ne| | |].
    + intros v k Hv Hk. destruct (decide (v = u)) as [->|]; [|rewrite list_lookup_insert_ne in Hk by done; eauto].
      rewrite list_lookup_insert_eq in Hk by (by eapply lookup_lt_Some). simplify_eq.
      apply harmless_woken. eauto.
    + intros v k Hv Hk. destruct (decide (v = u)) as [->|]; [by rewrite lookup_delete_eq in Hk|].
      rewrite lookup_delete_ne in Hk by done. eauto.
    + by rewrite lookup_delete_ne.
Qed.
End kill.

Arguments kconfig Q : clear implicits.

Lemma self_blocked_run {Q} {St : JobStore Q Z lifo} {Em : EmptyStore Q Z lifo} t (c c' : kconfig Q) :
  self_blocked t c → kreachable c c' → self_blocked t c' ∧ wran (threads c').1 = wran (threads c).1.
Proof.
  intros Hc Hr. induction Hr as [c|c1 c2 c3 H1 _ IH]; [done|].
  destruct (self_blocked_step _ _ _ Hc H1) as [H2 E]. destruct (IH H2) as [H3 E']. split; [done|congruence].
Qed.

Definition kgo (t n : nat) : list kevent := replicate n (Go (Run t QGo 0)).

(** The listening thread has added the job of a connection and holds the mutex;
    the signal comes, and its handler gets to the lock of the shutdown. *)
Definition killed : kconfig joblist :=
  krun (kgo 0 3 ++ kgo 1 2 ++ Go (Run 0 (CallAdd 7) 0) :: Go (Run 0 QGo 0) :: Go (Run 0 QGo 1) ::
        Interrupt 0 true :: kgo 0 3) (kinit 0 1).

(** A signal at the wrong time hangs the server.  A configuration can be reached
    in which the listening thread, interrupted in [workqueue_add_job], waits in
    its signal handler for the mutex it holds itself; from there the mutex is
    never released, and the job that has just been added is never executed. *)
Theorem killServer_can_deadlock :
  ∃ c : kconfig joblist, kreachable (kinit 0 1) c ∧ loopexit c = true ∧
    interrupted c !! 0%nat = Some AddUnlock ∧ wadded (threads c).1 = [7] ∧
    ∀ c', kreachable c c' →
      jobs_mutex (threads c').1 = MHeld 0 ∧ (threads c').2 !! 0%nat = Some ShutLock ∧ wran (threads c').1 = [].
Proof.
  assert (self_blocked 0 killed) as Hs.
  { split; [vm_compute; reflexivity|vm_compute; reflexivity| | |vm_compute; by eexists].
    - assert ((threads killed).2 = [ShutLock; WWoken]) as -> by (vm_compute; reflexivity).
      intros [|[|u]] l Hu Hl; by simplify_eq/=.
    - assert (interrupted killed = {[0%nat := AddUnlock]}) as -> by (vm_compute; reflexivity).
      intros u l Hu Hl. apply lookup_singleton_Some in Hl as [<- _]. done. }
  exists killed. split_and!; [apply krun_reachable|vm_compute; reflexivity..|].
  intros c' Hr. destruct (self_blocked_run _ _ _ Hs Hr) as [[Hm Hh _ _ _] ->]. split_and!; [done|done|].
  vm_compute. reflexivity.
Qed.
