(* ===== verification/EpollPool.v ===== *)
(** * server_epoll_pthread_pool.c: the queue of the pool

    The singly linked list of [epoll/server_epoll_pthread_pool.c], to whose end
    [poolAddWorker] walks for every task, on a heap of nodes, as a first-in
    first-out [JobStore].  The threads are in [EpollPoolRun]. *)

From S2P Require Import Prelude Store.
Open Scope Z_scope.

(** [CTHREADWORKER] *)
Record worker_t : Type := MkWorker { process : Z; arg : Z; next : option nat }.
Definition task : Type := Z * Z.
Definition task_of (w : worker_t) : task := (process w, arg w).

Record taskqueue : Type := TaskQueue {
  wheap : gmap nat worker_t;
  queueHead : option nat;
  curQueueSize : Z
}.

Definition member (h : gmap nat worker_t) (a : nat) : res worker_t :=
  match h !! a with Some w => Done w | None => Fault end.

(** [while (member->next != NULL) member = member->next] *)
Fixpoint find_last (fuel : nat) (h : gmap nat worker_t) (a : nat) : res nat :=
  match fuel with
  | O => Fault
  | S fuel => w ← member h a; match next w with Some n => find_last fuel h n | None => Done a end
  end.

(** The insertion of [poolAddWorker]; the walk visits each node once, so that
    the number of nodes is enough fuel. *)
Definition enqueue (newworker : nat) (q : taskqueue) : res taskqueue :=
  w ← member (wheap q) newworker;
  let h := <[newworker := MkWorker (process w) (arg w) None]> (wheap q) in
  '(h', head) ← match queueHead q with
    | Some m =>
        l ← find_last (size h) h m; wl ← member h l;
        Done (<[l := MkWorker (process wl) (arg wl) (Some newworker)]> h, Some m)
    | None => Done (h, Some newworker)
    end;
  n ← int_of (curQueueSize q + 1);
  Done (TaskQueue h' head n).

(** What [threadRoutine] does with the queue; a failed [assert] ends the
    program. *)
Definition dequeue (q : taskqueue) : res (nat * taskqueue) :=
  _ ← check (negb (curQueueSize q =? 0));
  match queueHead q with
  | None => Fault
  | Some a => w ← member (wheap q) a; n ← int_of (curQueueSize q - 1); Done (a, TaskQueue (wheap q) (next w) n)
  end.

(** ** The queue as it can be read *)

Fixpoint schain (h : gmap nat worker_t) (o : option nat) (ts : list (nat * task)) : Prop :=
  match ts with
  | [] => o = None
  | (a, t) :: ts => o = Some a ∧ ∃ w, h !! a = Some w ∧ task_of w = t ∧ schain h (next w) ts
  end.

Fixpoint queue_walk (fuel : nat) (h : gmap nat worker_t) (o : option nat) : list (nat * task) :=
  match fuel, o with
  | S fuel, Some a => match h !! a with Some w => (a, task_of w) :: queue_walk fuel h (next w) | None => [] end
  | _, _ => []
  end.

Definition queued (q : taskqueue) : list (nat * task) := queue_walk (Z.to_nat (curQueueSize q)) (wheap q) (queueHead q).

Record queue_ok (q : taskqueue) (ts : list (nat * task)) : Prop := QueueOk {
  qo_chain : schain (wheap q) (queueHead q) ts;
  qo_nodup : NoDup ts.*1;
  qo_size : curQueueSize q = Z.of_nat (length ts);
  qo_max : curQueueSize q <= INT_MAX;
  qo_dom : dom (wheap q) = list_to_set ts.*1
}.

Lemma schain_walk h o ts : schain h o ts → queue_walk (length ts) h o = ts.
Proof.
  revert o. induction ts as [|[a t] ts IH]; intros o H; cbn in *; [by subst|].
  destruct H as (-> & w & -> & <- & H). by rewrite (IH _ H).
Qed.

Lemma queue_ok_queued q ts : queue_ok q ts → queued q = ts.
Proof. intros [Hc _ Hs _ _]. unfold queued. rewrite Hs, Nat2Z.id. by apply schain_walk. Qed.

Lemma schain_ext h h' o ts :
  schain h o ts → (∀ a, a ∈ ts.*1 → h' !! a = h !! a) → schain h' o ts.
Proof.
  revert o. induction ts as [|[a t] ts IH]; intros o H Hh; cbn in *; [done|].
  destruct H as (-> & w & Hw & Ht & H). split; [done|]. exists w.
  rewrite Hh by (by left). split_and!; [done|done|]. apply IH; [done|]. intros b Hb. apply Hh. by right.
Qed.

(** The walk ends at the last node. *)
Lemma find_last_spec fuel h a ts l t :
  schain h (Some a) (ts ++ [(l, t)]) → (length ts < fuel)%nat → find_last fuel h a = Done l.
Proof.
  revert a ts. induction fuel as [|fuel IH]; intros a ts H Hf; [lia|]. cbn [find_last]. unfold member.
  destruct ts as [|[b u] ts]; cbn in H.
  - destruct H as ([= ->] & w & -> & _ & Hn). cbn. by rewrite Hn.
  - destruct H as ([= ->] & w & -> & _ & H). cbn. destruct (next w) as [n|] eqn:E.
    + apply (IH n ts); [done|]. cbn in Hf. lia.
    + destruct ts as [|[c v] ts]; by destruct H.
Qed.

Lemma schain_lookup h o ts a t : schain h o ts → (a, t) ∈ ts → ∃ w, h !! a = Some w ∧ task_of w = t.
Proof.
  revert o. induction ts as [|[b u] ts IH]; intros o H Hin; [by apply not_elem_of_nil in Hin|]. cbn in H.
  destruct H as (_ & w & Hw & Ht & H). apply elem_of_cons in Hin as [[= -> ->]|Hin]; [eauto|by eapply IH].
Qed.

(** Linking a node after the last one. *)
Lemma schain_snoc h o ts l w a t :
  schain h o (ts ++ [(l, task_of w)]) → h !! l = Some w → l ∉ ts.*1 → a ∉ ts.*1 → a ≠ l →
  (∃ v, h !! a = Some v ∧ task_of v = t ∧ next v = None) →
  schain (<[l := MkWorker (process w) (arg w) (Some a)]> h) o ((ts ++ [(l, task_of w)]) ++ [(a, t)]).
Proof.
  intros H Hl Hnl Hna Hne (v & Hv & Ht & Hn). revert o H.
  induction ts as [|[b u] ts IH]; intros o H; cbn in *.
  - destruct H as (-> & _). split; [done|]. eexists. rewrite lookup_insert_eq. split_and!; try done.
    exists v. by rewrite lookup_insert_ne.
  - apply not_elem_of_cons in Hnl as [? ?], Hna as [? ?].
    destruct H as (-> & k & Hk & Hu & H). split; [done|]. exists k.
    rewrite lookup_insert_ne by done. split_and!; [done|done|]. by apply IH.
Qed.

Definition task_put (q : taskqueue) (t : task) : res (option taskqueue) :=
  let a := fresh (dom (wheap q)) in
  q' ← enqueue a (TaskQueue (<[a := MkWorker t.1 t.2 None]> (wheap q)) (queueHead q) (curQueueSize q));
  Done (Some q').

(** The node is freed once its task has been executed. *)
Definition task_take (q : taskqueue) : res (option (task * taskqueue)) :=
  if curQueueSize q =? 0 then Done None
  else
    '(a, q1) ← dequeue q; w ← member (wheap q1) a;
    Done (Some (task_of w, TaskQueue (delete a (wheap q1)) (queueHead q1) (curQueueSize q1))).

Lemma enqueue_spec q ts a t :
  queue_ok q ts → a ∉ ts.*1 →
  let q0 := TaskQueue (<[a := MkWorker t.1 t.2 None]> (wheap q)) (queueHead q) (curQueueSize q) in
  if curQueueSize q =? INT_MAX then enqueue a q0 = Fault
  else ∃ q', enqueue a q0 = Done q' ∧ queue_ok q' (ts ++ [(a, t)]).
Proof.
  intros [Hc Hn Hs Hm Hd] Ha q0. unfold enqueue, member, q0. cbn [wheap queueHead curQueueSize].
  rewrite lookup_insert_eq. cbn [mbind res_bind process arg]. rewrite insert_insert_eq.
  set (h := <[a := MkWorker t.1 t.2 None]> (wheap q)).
  assert (∀ b, b ∈ ts.*1 → h !! b = wheap q !! b) as Hh.
  { intros b Hb. apply lookup_insert_ne. by intros ->. }
  assert (h !! a = Some (MkWorker t.1 t.2 None)) as Hha by apply lookup_insert_eq.
  assert (schain h (queueHead q) ts) as Hc' by (by eapply schain_ext).
  assert (NoDup (ts ++ [(a, t)]).*1) as Hn'.
  { rewrite fmap_app. apply NoDup_app. split_and!; [done| |apply NoDup_singleton].
    intros b Hb ->%list_elem_of_singleton. done. }
  assert (dom h = list_to_set (ts ++ [(a, t)]).*1) as Hd'.
  { unfold h. rewrite dom_insert_L, Hd, fmap_app, list_to_set_app_L. cbn. set_solver. }
  assert (task_of (MkWorker t.1 t.2 None) = t) as Ht by (by destruct t).
  destruct (destruct_last ts) as [->|([l u] & ts' & ->)].
  - cbn in Hc'. rewrite Hc'. cbn [mbind res_bind]. rewrite Hs. cbn. eexists. split; [done|].
    split; cbn; try done. split; [done|]. by eexists.
  - assert (queueHead q = Some (hd l (ts'.*1))) as Hq0 by (destruct ts' as [|[b v] ts']; cbn in *; tauto).
    rewrite Hq0 in *. rewrite (find_last_spec _ _ _ _ _ _ Hc').
    2:{ assert (length ((ts' ++ [(l, u)]) ++ [(a, t)]).*1 = size h) as <-.
        { rewrite <- size_dom, Hd', size_list_to_set; done. }
        rewrite length_fmap, !length_app. cbn. lia. }
    destruct (schain_lookup _ _ _ l u Hc') as (w & Hw & <-); [set_solver|].
    cbn [mbind res_bind]. rewrite Hw. cbn [mbind res_bind].
    destruct (curQueueSize q =? INT_MAX) eqn:E; bools; [by rewrite E|].
    rewrite int_of_fits by (unfold INT_MIN, INT_MAX in *; lia). cbn. eexists. split; [done|].
    rewrite fmap_app in Ha, Hn. cbn in Ha, Hn. apply NoDup_app in Hn as (_ & Hn & _).
    split; cbn; try done.
    + apply schain_snoc; try done; [|set_solver..|by eexists].
      intros Hl. apply (Hn l Hl). by left.
    + rewrite !length_app in *. cbn in *. lia.
    + lia.
    + rewrite dom_insert_L, Hd'. apply elem_of_dom_2 in Hw. set_solver.
Qed.

#[export] Program Instance taskqueue_store : JobStore taskqueue task fifo := {|
  store_ok q := queue_ok q (queued q);
  jobs q := (queued q).*2;
  capacity _ := Some INT_MAX;
  overflows := true;
  put := task_put;
  take_job := task_take
|}.
Next Obligation.
  intros q t Hq. cbn in Hq |- *. rewrite length_fmap. unfold task_put. set (a := fresh (dom (wheap q))).
  assert (a ∉ (queued q).*1) as Ha.
  { rewrite <- (elem_of_list_to_set (C := gset nat)), <- (qo_dom _ _ Hq). apply is_fresh. }
  pose proof (enqueue_spec q (queued q) a t Hq Ha) as He. cbn in He.
  pose proof (qo_size _ _ Hq) as Hs. case_decide as Hd.
  - injection Hd as Hd. rewrite (proj2 (Z.eqb_eq _ _)) in He by congruence. by rewrite He.
  - rewrite (proj2 (Z.eqb_neq _ _)) in He by congruence. destruct He as (q' & -> & Hq'). cbn.
    exists q'. pose proof (queue_ok_queued _ _ Hq') as ->. rewrite fmap_app. by split_and!.
Qed.
Next Obligation.
  intros q Hq. cbn in Hq |- *. unfold task_take. destruct (queued q) as [|[a t] ts] eqn:E.
  - by rewrite (qo_size _ _ Hq).
  - destruct Hq as [Hc Hn Hs Hm Hd]. cbn in Hc, Hn, Hs, Hd. destruct Hc as (Hh & w & Hw & Ht & Hc).
    apply NoDup_cons in Hn as [Ha Hn]. rewrite (proj2 (Z.eqb_neq _ _)) by lia.
    unfold dequeue, member. rewrite (proj2 (Z.eqb_neq _ _)) by lia. cbn. rewrite Hh, Hw. cbn.
    rewrite int_of_fits by (unfold INT_MIN, INT_MAX in *; lia). cbn. rewrite Hw. cbn. rewrite Ht.
    set (q' := TaskQueue _ _ _). exists q'. split; [done|].
    assert (queue_ok q' ts) as Hq'.
    { split; cbn; try done; try lia.
      - eapply schain_ext; [done|]. intros b Hb. apply lookup_delete_ne. by intros ->.
      - rewrite dom_delete_L, Hd. set_solver. }
    pose proof (queue_ok_queued _ _ Hq') as ->. by split_and!.
Qed.

#[export] Program Instance taskqueue_empty : EmptyStore taskqueue task fifo := {|
  empty_store := TaskQueue ∅ None 0
|}.
Next Obligation. split; try done. apply NoDup_nil_2. Qed.
Next Obligation. done. Qed.
