(* ===== verification/EpollPoolRun.v ===== *)
(** * server_epoll_pthread_pool.c: the threads of the pool

    [poolInit], [poolAddWorker], [poolDestroy] and [threadRoutine] interleaved,
    over any first-in first-out store of tasks. *)

From S2P Require Import Prelude Pthread Store EpollPool.
Open Scope Z_scope.

Section epoll_pool.
Context {Q : Type} {St : JobStore Q task fifo} {Em : EmptyStore Q task fifo}.

(** [CTHREADPOOL]; [freed] is set when [poolDestroy] has freed the pool and
    cleared the global pointer.  A thread that could not be created has no
    handle. *)
Record pool_t : Type := Pool {
  queueLock : mutex;
  queue : Q;
  shutdown : bool;
  threadid : list (option nat);
  ready : bool;
  freed : bool;
  padded : list task;
  ptaken : list task;
  pran : list task;
  pdropped : list task
}.

Inductive plocal : Type :=
  | POutside
  | InitLoop (maxThreadNum i : Z)
  | AddLock (t : task)
  | AddPut (t : task)
  | AddUnlock
  | AddSignal
  | DestroyTest
  | DestroySet
  | DestroyBroadcast
  | DestroyJoin
  | TLock
  | TTest
  | TSleep
  | TWait
  | TWoken
  | TUnlock (t : task)
  | TRun (t : task)
  | TExitUnlock
  | TExited.

#[export] Instance plocal_eq_dec : EqDecision plocal.
Proof. solve_decision. Defined.

Inductive pinput : Type :=
  | PGo
  | CallAdd (t : task)
  | CallDestroy
  | CreateFails.

Definition set_qlock (m : mutex) (s : pool_t) : pool_t :=
  Pool m (queue s) (shutdown s) (threadid s) (ready s) (freed s) (padded s) (ptaken s) (pran s) (pdropped s).
Definition set_tasks (q : Q) (a tk rn dr : list task) (s : pool_t) : pool_t :=
  Pool (queueLock s) q (shutdown s) (threadid s) (ready s) (freed s) a tk rn dr.
Definition set_pool (sh : bool) (th : list (option nat)) (r f : bool) (s : pool_t) : pool_t :=
  Pool (queueLock s) (queue s) sh th r f (padded s) (ptaken s) (pran s) (pdropped s).

Definition presult : Type := pool_t * plocal * option (effect plocal).

(** [pool->...]: the pool has not been freed. *)
Definition live (s : pool_t) : res unit := check (negb (freed s)).

Definition lock_queue (t : nat) (s : pool_t) (next : plocal) : res presult :=
  _ ← live s; m ← mutex_lock t (queueLock s); Done (set_qlock m s, next, None).
Definition unlock_queue (t : nat) (s : pool_t) (next : plocal) : res presult :=
  _ ← live s; m ← mutex_unlock t (queueLock s); Done (set_qlock m s, next, None).

(** [poolInit]: what [pthread_create] returns is not looked at. *)
Definition poolInit (ls : list plocal) (x : pinput) (s : pool_t) (n i : Z) : res presult :=
  if i <? n then
    match x with
    | CreateFails =>
        Done (set_pool (shutdown s) (threadid s ++ [None]) (ready s) (freed s) s, InitLoop n (i + 1), None)
    | _ =>
        Done (set_pool (shutdown s) (threadid s ++ [Some (length ls)]) (ready s) (freed s) s,
              InitLoop n (i + 1), Some (Spawn TLock))
    end
  else Done (set_pool (shutdown s) (threadid s) true (freed s) s, POutside, None).

(** [poolAddWorker] after the allocation of the node; the signal is sent after
    the unlock. *)
Definition poolAddWorker (t : nat) (s : pool_t) (l : plocal) : res presult :=
  match l with
  | AddLock tk => lock_queue t s (AddPut tk)
  | AddPut tk =>
      _ ← live s; r ← put (queue s) tk;
      match r with
      | Some q => Done (set_tasks q (padded s ++ [tk]) (ptaken s) (pran s) (pdropped s) s, AddUnlock, None)
      | None => Fault
      end
  | AddUnlock => unlock_queue t s AddSignal
  | AddSignal => _ ← live s; Done (s, POutside, Some (Signal 0))
  | _ => Blocked
  end.

(** [poolDestroy]: it neither locks the queue to set [shutdown] nor to wake the
    threads. *)
Definition poolDestroy (ls : list plocal) (s : pool_t) (l : plocal) : res presult :=
  _ ← live s;
  match l with
  | DestroyTest => Done (s, if shutdown s then POutside else DestroySet, None)
  | DestroySet => Done (set_pool true (threadid s) (ready s) (freed s) s, DestroyBroadcast, None)
  | DestroyBroadcast => Done (s, DestroyJoin, Some (Broadcast 0))
  | DestroyJoin =>
      if existsb (λ h, bool_decide (h = None)) (threadid s) then Fault
      else if forallb (λ h : option nat, bool_decide ((h ≫= λ w, ls !! w) = Some TExited)) (threadid s) then
        Done (set_tasks empty_store (padded s) (ptaken s) (pran s) (pdropped s ++ jobs (queue s))
                (set_pool (shutdown s) [] (ready s) true s), POutside, None)
      else Blocked
  | _ => Blocked
  end.

(** [TTest] reads the queue and [shutdown], which [poolDestroy] can set before
    the worker has gone to sleep in [TSleep]. *)
Definition threadRoutine (t : nat) (s : pool_t) (l : plocal) : res presult :=
  match l with
  | TLock => lock_queue t s TTest
  | TTest =>
      _ ← live s; r ← take_job (queue s);
      match r with
      | None => Done (s, if shutdown s then TExitUnlock else TSleep, None)
      | Some (tk, q) => Done (set_tasks q (padded s) (ptaken s ++ [tk]) (pran s) (pdropped s) s, TUnlock tk, None)
      end
  | TSleep => unlock_queue t s TWait
  | TWoken => lock_queue t s TTest
  | TUnlock tk => unlock_queue t s (TRun tk)
  | TRun tk => Done (set_tasks (queue s) (padded s) (ptaken s) (pran s ++ [tk]) (pdropped s) s, TLock, None)
  | TExitUnlock => unlock_queue t s TExited
  | _ => Blocked
  end.

Definition epoll_pool_step (ls : list plocal) (t : nat) (x : pinput) (s : pool_t) (l : plocal) : res presult :=
  match l with
  | POutside =>
      if ready s then
        match x with
        | CallAdd tk => Done (s, AddLock tk, None)
        | CallDestroy => Done (s, DestroyTest, None)
        | _ => Blocked
        end
      else Blocked
  | InitLoop n i => poolInit ls x s n i
  | AddLock _ | AddPut _ | AddUnlock | AddSignal => poolAddWorker t s l
  | DestroyTest | DestroySet | DestroyBroadcast | DestroyJoin => poolDestroy ls s l
  | _ => threadRoutine t s l
  end.

Definition pool_waits_on (l : plocal) : option nat := match l with TWait => Some 0%nat | _ => None end.
Definition pool_woken (l : plocal) : plocal := match l with TWait => TWoken | _ => l end.

#[export] Program Instance epoll_pool_program : Program pinput pool_t plocal := {|
  tstep := epoll_pool_step;
  waits_on := pool_waits_on;
  woken := pool_woken
|}.
Next Obligation. by intros ls t x s [] r [c Hc]. Qed.
Next Obligation. by intros [] [c Hc]. Qed.

(** Thread 0 is in [poolInit]; [n] other clients. *)
Definition pinit (n : nat) (maxThreadNum : Z) : config pool_t plocal :=
  (Pool MFree empty_store false [] false false [] [] [] [], InitLoop maxThreadNum 0 :: replicate n POutside).
End epoll_pool.

Arguments pool_t Q : clear implicits.
