(* ===== verification/EpollPoolProps.v ===== *)
(** * server_epoll_pthread_pool.c: properties of the pool *)

From S2P Require Import Prelude Pthread Store EpollPool EpollPoolRun.
Open Scope Z_scope.

(** Opens up the hypothesis [H] that a thread made a step, by program point. *)
Ltac pstep_cases H :=
  match type of H with tstep ?ls ?t ?x ?s ?l = _ =>
    tryif is_var l then destruct l else idtac; cbn [tstep epoll_pool_program epoll_pool_step] in H;
    unfold poolInit, poolAddWorker, poolDestroy, threadRoutine, lock_queue, unlock_queue, live in H;
    split_matches H; inv_mutex; subst; bools; try discriminate;
    cbn [queueLock queue shutdown threadid ready freed padded ptaken pran pdropped
         set_qlock set_tasks set_pool] in *
  end.

Section properties.
Context {Q : Type} {St : JobStore Q task fifo} {Em : EmptyStore Q task fifo}.
Implicit Types (s : pool_t Q) (ls : list plocal).

Definition anything (x : pinput) : Prop := True.

(** The task a worker has taken and not yet executed. *)
Definition in_hand (l : plocal) : list task := match l with TUnlock t | TRun t => [t] | _ => [] end.

Definition is_worker (l : plocal) : bool :=
  match l with
  | TLock | TTest | TSleep | TWait | TWoken | TUnlock _ | TRun _ | TExitUnlock | TExited => true
  | _ => false
  end.

(** A worker has a handle until the pool is freed, and has then terminated;
    the functions are called once the pool is ready. *)
Definition thread_ok (s : pool_t Q) (t : nat) (l : plocal) : Prop :=
  if is_worker l then if freed s then l = TExited else Some t ∈ threadid s
  else match l with
       | InitLoop _ _ => t = 0%nat ∧ ready s = false
       | POutside => True
       | _ => ready s = true
       end.

Record tasks_inv (s : pool_t Q) (ls : list plocal) : Prop := TasksInv {
  ki_store : store_ok (queue s);
  ki_added : padded s = ptaken s ++ jobs (queue s) ++ pdropped s;
  ki_dropped : freed s = false → pdropped s = [];
  ki_taken : ptaken s ≡ₚ pran s ++ gather in_hand ls;
  ki_ready : freed s = true → ready s = true;
  ki_threads : ∀ t l, ls !! t = Some l → thread_ok s t l
}.

Lemma task_put_cases q t (r : option Q) :
  store_ok q → put q t = Done r → match r with None => True | Some q' => jobs q' = jobs q ++ [t] ∧ store_ok q' end.
Proof.
  intros Hq Hr. pose proof (put_law q t Hq) as H. case_decide.
  - destruct overflows; rewrite H in Hr; [done|]. by injection Hr as <-.
  - destruct H as (q' & H & Hok & _ & Hj). rewrite H in Hr. by injection Hr as <-.
Qed.

Lemma task_take_cases q (r : option (task * Q)) :
  store_ok q → take_job q = Done r → match r with None => True | Some (t, q') => jobs q = t :: jobs q' ∧ store_ok q' end.
Proof.
  intros Hq Hr. pose proof (take_law q Hq) as H. destruct (jobs q) as [|t ts].
  - rewrite H in Hr. by injection Hr as <-.
  - destruct H as (q' & H & Hok & _ & <-). rewrite H in Hr. by injection Hr as <-.
Qed.

Lemma in_hand_woken l : is_Some (waits_on l) → in_hand (woken l) = in_hand l.
Proof. destruct l; by intros [??]. Qed.

Lemma tasks_run s ls t x l s' l' e ls' :
  tasks_inv s ls → ls !! t = Some l → tstep ls t x s l = Done (s', l', e) →
  effect_on e (<[t := l']> ls) ls' →
  store_ok (queue s') ∧ padded s' = ptaken s' ++ jobs (queue s') ++ pdropped s' ∧
  (freed s' = false → pdropped s' = []) ∧ ptaken s' ≡ₚ pran s' ++ gather in_hand ls' ∧
  (freed s' = true → ready s' = true).
Proof.
  intros [Hq Ha Hd Ht Hrd Hth] Hl Hs He.
  pose proof (gather_step in_hand _ _ _ _ _ _ in_hand_woken Hl He) as Hg. unfold spawned in Hg. clear He.
  specialize (Hth t l Hl). unfold thread_ok in Hth.
  pstep_cases Hs; cbn in Hg, Hth;
    repeat match type of Hg with context [if ?b then _ else _] => destruct b end;
    cbn in Hg; rewrite ?app_nil_r in Hg.
  all: try match goal with K : take_job _ = Done _ |- _ => apply task_take_cases in K; [|done] end.
  all: try match goal with K : put _ _ = Done _ |- _ => apply task_put_cases in K; [|done] end.
  all: destruct_and?; split_and?; try done; try tauto; try (by rewrite Ht, Hg || by rewrite Ht, <- Hg).
  - (* added *) destruct_and?. rewrite Hd in Ha |- * by done. rewrite !app_nil_r in *.
    match goal with K : jobs _ = _ |- _ => by rewrite Ha, K, app_assoc end.
  - (* the pool freed *) apply empty_store_ok.
  - rewrite Ha, empty_store_jobs, Hd by done. cbn. by rewrite app_nil_r.
  - (* taken *) match goal with K : jobs _ = _ :: _ |- _ => rewrite Ha, K end. by rewrite <- app_assoc.
  - rewrite Ht, Hg, <- app_assoc. apply Permutation_app_head, Permutation_app_comm.
  - (* unlocked *) apply Permutation_cons_inv in Hg. by rewrite Ht, Hg.
  - (* executed *) by rewrite Ht, <- Hg, <- app_assoc.
Qed.

Lemma thread_ok_mono s s' t l :
  thread_ok s t l → freed s' = freed s → (ready s = true → ready s' = true) →
  (ready s' = true → ready s = true ∨ t ≠ 0%nat) → (∀ h, h ∈ threadid s → h ∈ threadid s') → thread_ok s' t l.
Proof.
  unfold thread_ok. intros H Hf Hr Hr' Hth. destruct (is_worker l) eqn:Hw.
  - rewrite Hf. destruct (freed s); [done|auto].
  - destruct l; try done; auto. destruct H as [-> H]. split; [done|].
    destruct (ready s') eqn:E; [|done]. destruct (Hr' eq_refl); congruence.
Qed.

Lemma threads_run s ls t x l s' l' e :
  tasks_inv s ls → ls !! t = Some l → tstep ls t x s l = Done (s', l', e) →
  thread_ok s' t l' ∧ (∀ t' l0, t' ≠ t → ls !! t' = Some l0 → thread_ok s' t' l0) ∧
  (∀ l0, e = Some (Spawn l0) → thread_ok s' (length ls) l0).
Proof.
  intros Hi Hl Hs. pose proof (ki_threads _ _ Hi) as Hth. pose proof (Hth t l Hl) as Hself.
  pose proof (ki_ready _ _ Hi) as Hrd.
  assert (∀ s1, freed s1 = freed s → ready s1 = ready s → (∀ h, h ∈ threadid s → h ∈ threadid s1) →
            ∀ t l0, ls !! t = Some l0 → thread_ok s1 t l0) as Hsame.
  { intros s1 E1 E2 E3 t1 l0 H0.
    eapply thread_ok_mono; [by apply Hth|done|by rewrite E2|rewrite E2; by left|done]. }
  unfold thread_ok in Hself. pstep_cases Hs; cbn in Hself.
  all: split; [|split; [intros t1 l1 Ht1 Hl1;
    try (eapply Hsame; [..|exact Hl1]; cbn; intros; rewrite ?elem_of_app; auto; fail)|intros ? [=]; subst]]; try done.
  all: try (unfold thread_ok; cbn;
    repeat match goal with |- context [if ?b then _ else _] => destruct b eqn:? end; cbn; tauto || congruence).
  (* a worker spawned *)
  1-3: unfold thread_ok; cbn; destruct Hself as [_ Hself]; destruct (freed s); [rewrite Hrd in Hself by done; done|];
    apply elem_of_app; right; by left.
  - (* the pool is ready *)
    eapply thread_ok_mono; [by apply Hth|done|done| |done]. right. destruct Hself. congruence.
  - unfold thread_ok. destruct (shutdown s'); done.
  - (* freed *)
    specialize (Hth _ _ Hl1). unfold thread_ok in *. cbn in *. destruct (is_worker l1) eqn:Hw.
    + match goal with K : freed s = false |- _ => rewrite K in Hth end.
      match goal with K : forallb _ _ = true |- _ => rewrite forallb_forall in K; rename K into Hx end.
      apply list_elem_of_In, Hx in Hth. apply bool_decide_eq_true in Hth. cbn in Hth. congruence.
    + destruct l1; done || destruct Hth; congruence.
  - unfold thread_ok. destruct (shutdown s'); cbn in *; destruct (freed s'); congruence.
Qed.

Lemma tasks_inv_step s ls s' ls' : tasks_inv s ls → step anything (s, ls) (s', ls') → tasks_inv s' ls'.
Proof.
  intros Hi Hst.
  assert (∀ t l, ls' !! t = Some l → thread_ok s' t l) as Hth.
  { refine (forall_threads_step thread_ok anything s ls s' ls' (ki_threads _ _ Hi) Hst _ _).
    - intros t x l l' e _ Hl Hs. by eapply threads_run.
    - intros t l Hw. destruct l; try by destruct Hw. unfold thread_ok. cbn. by destruct (freed s'). }
  apply step_inv in Hst as [(t & x & l & l' & e & _ & Hl & Hs & He)|(t & l & -> & Hl & Hw & ->)].
  - destruct (tasks_run _ _ _ _ _ _ _ _ _ Hi Hl Hs He) as (?&?&?&?&?). by split.
  - destruct Hi as [Hq Ha Hd Ht Hrd _]. split; [done..| |done|done].
    by rewrite (gather_insert_same in_hand _ _ _ _ Hl (in_hand_woken l Hw)).
Qed.

Lemma reachable_tasks n num s ls : reachable anything (pinit n num) (s, ls) → tasks_inv s ls.
Proof.
  intros H. apply (invariant_reachable anything (λ cf, tasks_inv cf.1 cf.2)) in H; [done| |].
  - split; [apply empty_store_ok|cbn; by rewrite empty_store_jobs|done| |done|].
    + cbn [fst snd]. rewrite gather_nil; [done|]. intros [|t] l Hl; cbn in Hl; simplify_eq; [done|].
      by apply lookup_replicate in Hl as [-> _].
    + intros [|t] l Hl; cbn in Hl; simplify_eq; [done|]. by apply lookup_replicate in Hl as [-> _].
  - intros [s1 ls1] [s2 ls2]. apply tasks_inv_step.
Qed.

(** C33: each task once, and in order.  Whatever is called, the tasks added are
    those taken, those in the queue and those dropped when the pool was freed,
    in this order; a task taken has been executed once or is in the hands of a
    worker; and when [poolDestroy] has freed the pool every worker has
    terminated and all the tasks taken have been executed. *)
Theorem epoll_pool_tasks_once n num s ls :
  reachable anything (pinit n num) (s, ls) →
  padded s = ptaken s ++ jobs (queue s) ++ pdropped s ∧
  ptaken s ≡ₚ pran s ++ gather in_hand ls ∧
  (freed s = true → ptaken s ≡ₚ pran s ∧ ∀ t l, ls !! t = Some l → is_worker l = true → l = TExited).
Proof.
  intros Hr. pose proof (reachable_tasks _ _ _ _ Hr) as [_ Ha _ Ht _ Hth]. split_and!; [done..|].
  intros Hf. assert (∀ t l, ls !! t = Some l → is_worker l = true → l = TExited) as Hx.
  { intros t l Hl Hw. specialize (Hth _ _ Hl). unfold thread_ok in Hth. by rewrite Hw, Hf in Hth. }
  split; [|done]. rewrite Ht, gather_nil, app_nil_r; [done|].
  intros t l Hl. specialize (Hx _ _ Hl). destruct l; try done; cbn in Hx; naive_solver.
Qed.
End properties.

(** ** Witnesses *)

Definition go (t n : nat) : list (event pinput) := replicate n (Run t PGo 0).

Lemma pool_script (evs : list (event pinput)) (cf : config (pool_t taskqueue) plocal) :
  forallb (event_okb (λ _, true)) evs = true → reachable anything cf ((final evs cf).1, (final evs cf).2).
Proof. by apply final_reachable. Qed.

(** Two tasks are added and the pool destroyed before the only worker runs. *)
Definition destroyed : config (pool_t taskqueue) plocal :=
  final (go 0 2 ++ Run 0 (CallAdd (7, 1)) 0 :: go 0 4 ++ Run 0 (CallAdd (8, 1)) 0 :: go 0 4 ++
         Run 0 CallDestroy 0 :: go 0 3 ++ go 1 11 ++ go 0 1) (pinit 0 1).

Lemma epoll_pool_tasks_once_witness :
  freed destroyed.1 = true ∧ pran destroyed.1 = [(7, 1); (8, 1)] ∧
  padded destroyed.1 = ptaken destroyed.1 ++ jobs (queue destroyed.1) ++ pdropped destroyed.1 ∧
  ptaken destroyed.1 ≡ₚ pran destroyed.1 ++ gather in_hand destroyed.2 ∧
  (freed destroyed.1 = true → ptaken destroyed.1 ≡ₚ pran destroyed.1 ∧
     ∀ t l, destroyed.2 !! t = Some l → is_worker l = true → l = TExited).
Proof.
  split; [vm_compute; reflexivity|]. split; [vm_compute; reflexivity|].
  apply (epoll_pool_tasks_once (St := taskqueue_store) 0 1). by apply pool_script.
Defined.

(** No thread can make a step; only a spurious wakeup could. *)
Definition stuck {Q} {St : JobStore Q task fifo} {Em : EmptyStore Q task fifo}
    (s : pool_t Q) (ls : list plocal) : Prop :=
  ∀ t x w cf, exec (Run t x w) (s, ls) ≠ Done cf.

Lemma joining_sleeper s :
  freed s = false → threadid s = [Some 1%nat] →
  stuck (Q := taskqueue) s [DestroyJoin; TWait].
Proof.
  intros Hf Hth [|[|t]] x w cf Hex; cbn in Hex; [| done|done].
  unfold poolDestroy, live in Hex. rewrite Hf, Hth in Hex. done.
Qed.

(** [poolDestroy] can wait for ever.  It sets [shutdown] and wakes the
    workers without the mutex: a worker that has found the queue empty and
    [shutdown] not set, and has not yet gone to sleep, misses the broadcast; a
    configuration can be reached in which the pool is being destroyed, its
    worker sleeps, and no thread can go on. *)
Theorem poolDestroy_may_wait_for_ever :
  ∃ (s : pool_t taskqueue) ls, reachable anything (pinit 0 1) (s, ls) ∧
    ls = [DestroyJoin; TWait] ∧ shutdown s = true ∧ stuck s ls.
Proof.
  set (cf := final (go 0 2 ++ go 1 2 ++ Run 0 CallDestroy 0 :: go 0 3 ++ go 1 1) (pinit 0 1)).
  exists cf.1, cf.2. assert (cf.2 = [DestroyJoin; TWait]) as Hls by (vm_compute; reflexivity).
  split_and!; [by apply pool_script|done|vm_compute; reflexivity|].
  rewrite Hls. apply joining_sleeper; vm_compute; reflexivity.
Qed.
