(* ===== verification/EpollPoolLive.v ===== *)
(** * server_epoll_pthread_pool.c: no task is left behind

    As long as the pool is not destroyed: the discipline of the mutex, the
    interface of [Wakeup], although the signal is sent after the unlock, and the
    pool at rest. *)

From S2P Require Import Prelude Pthread Store EpollPool EpollPoolRun EpollPoolProps Wakeup.
Open Scope Z_scope.

Definition holds_queue (l : plocal) : bool :=
  match l with AddPut _ | AddUnlock | TTest | TSleep | TUnlock _ | TExitUnlock => true | _ => false end.

Definition wants_queue (l : plocal) : bool :=
  match l with AddLock _ | TLock | TWoken => true | _ => false end.

(** The threads that wait for something to happen. *)
Definition idle (l : plocal) : bool := match l with POutside | TWait => true | _ => false end.

Section live.
Context {Q : Type} {St : JobStore Q task fifo} {Em : EmptyStore Q task fifo}.
Implicit Types (s : pool_t Q) (ls : list plocal).

Lemma spawn_TLock ls t x s l s' l' k :
  tstep ls t x s l = Done (s', l', Some (Spawn k)) → k = TLock.
Proof. intros H. by pstep_cases H. Qed.

#[export] Instance queue_locking :
  Locking anything (λ (_ : pool_t Q) (_ : list plocal), True) queueLock holds_queue False.
Proof.
  split.
  - intros ls t x s l s' l' e _ _ Hl Hs; pstep_cases Hs; cbn [holds_queue]; repeat case_match;
      repeat match goal with K : _ = MFree |- _ => rewrite K | K : _ = MHeld _ |- _ => rewrite K end;
      by constructor.
  - intros ls t x s l s' l' k Hs. by rewrite (spawn_TLock _ _ _ _ _ _ _ _ Hs).
  - intros l Hw. destruct l; cbn in *; by destruct Hw.
Qed.

(** The pool is not destroyed, and the workers can be started. *)
Definition serving_only (x : pinput) : Prop := x ≠ CallDestroy ∧ x ≠ CreateFails.

Definition running_point (l : plocal) : bool :=
  match l with DestroyTest | DestroySet | DestroyBroadcast | DestroyJoin | TExitUnlock | TExited => false | _ => true end.

(** A worker that will come back to the test of the queue, or a client that will
    signal. *)
Definition awake (l : plocal) : bool :=
  match l with AddUnlock | AddSignal | TLock | TTest | TWoken | TUnlock _ | TRun _ => true | _ => false end.

(** A worker about to go to sleep has the mutex, and the queue is empty. *)
Definition sleeps_on_empty (s : pool_t Q) (l : plocal) : Prop := l = TSleep → jobs (queue s) = [].

Record serving_inv (n : nat) (s : pool_t Q) (ls : list plocal) : Prop := ServingInv {
  sv_tasks : tasks_inv s ls;
  sv_owner : owner_inv queueLock holds_queue s ls;
  sv_leak : no_leak_inv queueLock holds_queue s ls;
  sv_run : shutdown s = false ∧ freed s = false ∧ queueLock s ≠ MUninit;
  sv_role : ∀ t l, ls !! t = Some l → running_point l = true ∧ is_worker l = bool_decide (n < t)%nat;
  sv_sleep : ∀ t l, ls !! t = Some l → sleeps_on_empty s l
}.

(** The queue is only changed under the mutex. *)
Lemma queue_needs_lock ls t x s l s' l' e :
  freed s' = false → tstep ls t x s l = Done (s', l', e) → holds_queue l = true ∨ queue s' = queue s.
Proof. intros Hf Hs. pstep_cases Hs; auto. Qed.

Lemma run_flags ls t x s l s' l' e :
  serving_only x → running_point l = true → shutdown s = false ∧ freed s = false ∧ queueLock s ≠ MUninit →
  tstep ls t x s l = Done (s', l', e) →
  (shutdown s' = false ∧ freed s' = false ∧ queueLock s' ≠ MUninit) ∧
  running_point l' = true ∧ is_worker l' = is_worker l.
Proof.
  intros [Hx1 Hx2] Hp (Hsh & Hf & Hm) Hs.
  pstep_cases Hs; rewrite ?Hsh in *; try done; repeat case_match; done.
Qed.

Lemma epoll_serving_step n s ls s' ls' :
  (n < length ls)%nat → serving_inv n s ls → step serving_only (s, ls) (s', ls') → serving_inv n s' ls'.
Proof.
  intros Hn [Hj Ho Hlk Hrun Hr Hsl] Hst.
  assert (step anything (s, ls) (s', ls')) as Hst' by (by eapply step_mono).
  assert (shutdown s' = false ∧ freed s' = false ∧ queueLock s' ≠ MUninit) as Hrun'.
  { apply step_inv in Hst as [(t & x & l & l' & e & Hx & Hl & Hs & He)|(t & l & -> & _)]; [|done].
    apply (run_flags _ _ _ _ _ _ _ _ Hx (proj1 (Hr t l Hl)) Hrun Hs). }
  split; [by eapply tasks_inv_step|by eapply (owner_inv_step False (K := queue_locking))|
    by eapply (no_leak_inv_step (K := queue_locking))|done| |].
  - refine (forall_threads_step (λ _ t l, running_point l = true ∧ is_worker l = bool_decide (n < t)%nat)
              serving_only s ls s' ls' Hr Hst _ _).
    + intros t x l l' e Hx Hl Hs. destruct (Hr t l Hl) as [Hp Hw]. split; [|split; [by eauto|]].
      * destruct (run_flags _ _ _ _ _ _ _ _ Hx Hp Hrun Hs) as (_ & ? & ->). done.
      * intros l0 ->. rewrite (spawn_TLock _ _ _ _ _ _ _ _ Hs). split; [done|].
        by rewrite bool_decide_eq_true_2 by lia.
    + intros t l Hw [Hp <-]. destruct l; by destruct Hw.
  - refine (forall_threads_step (λ s _ l, sleeps_on_empty s l) serving_only s ls s' ls' Hsl Hst _ _).
    + intros t x l l' e [Hx _] Hl Hs. destruct (Hr t l Hl) as [Hp _]. split; [|split].
      * clear Hsl. intros ->. pstep_cases Hs; repeat case_match; try done.
        match goal with K : take_job _ = Done _ |- _ =>
          pose proof (take_law _ (ki_store _ _ Hj)) as Hk; destruct (jobs (queue s')); [done|];
          destruct Hk as (? & Hk & _); congruence end.
      * intros t' l0 Ht Hl0 ->. destruct Hrun' as (_ & Hf' & _).
        destruct (queue_needs_lock _ _ _ _ _ _ _ _ Hf' Hs) as [Hh| ->]; [|by apply (Hsl t' _ Hl0)].
        destruct Ht. by rewrite (mutual_exclusion _ _ _ _ _ _ Ho Hl0 Hl eq_refl Hh).
      * intros l0 ->. by rewrite (spawn_TLock _ _ _ _ _ _ _ _ Hs).
    + intros t l Hw _. destruct l; by destruct Hw.
Qed.

#[export] Instance epoll_pool_alerting n :
  Alerting serving_only (serving_inv n) (λ s, jobs (queue s) ≠ []) awake 0.
Proof.
  split.
  - intros ls t x s l s' l' e [Hx _] [Hj _ _ (Hsh & _) Hr _] Hl Hs Hw. destruct (Hr t l Hl) as [Hp _].
    clear Hl. pstep_cases Hs; auto.
  - intros ls t x s l s' l' e [Hx _] [Hj _ _ (Hsh & _) Hr _] Hl Hs Hw Ha. destruct (Hr t l Hl) as [Hp _].
    clear Hl. pstep_cases Hs; auto.
    exfalso. apply Hw.
    match goal with K : take_job ?q = Done _ |- _ => pose proof (take_law q (ki_store _ _ Hj)) as Hk end.
    destruct (jobs _); [done|]. destruct Hk as (? & Hk & _). congruence.
  - intros ls t x s l s' l' e [Hx _] [_ _ _ _ Hr Hsl] Hl Hs Hw. destruct (Hr t l Hl) as [Hp _].
    specialize (Hsl t l Hl). clear Hl. pstep_cases Hs; repeat case_match; try done. by rewrite Hsl in Hw.
  - intros ls t x s l s' l' e [Hx _] _ Hs. by pstep_cases Hs.
  - intros l Hw. destruct l; by destruct Hw.
  - intros l Hw. by destruct l.
Qed.

Definition live_inv (n : nat) (s : pool_t Q) (ls : list plocal) : Prop :=
  (n < length ls)%nat ∧ serving_inv n s ls ∧
  watched (work := λ s, jobs (queue s) ≠ []) (alert := awake) (c := 0) s ls.

Lemma epoll_reachable_live n num s ls : reachable serving_only (pinit n num) (s, ls) → live_inv n s ls.
Proof.
  intros Hr. apply (invariant_reachable serving_only (λ cf, live_inv n cf.1 cf.2)) in Hr; [done| |].
  - pose proof (reachable_tasks n num _ _ (rtc_refl _ _)) as Hj.
    assert (∀ t l, (pinit n num).2 !! t = Some l → l = InitLoop num 0 ∧ t = 0%nat ∨ l = POutside ∧ (t < S n)%nat) as Hi.
    { intros [|t] l Hl; cbn in Hl; simplify_eq; [by left|]. apply lookup_replicate in Hl as [-> ?]. right. split; [done|lia]. }
    split; [cbn; rewrite length_replicate; lia|]. split; [split; try done|].
    + intros t l Hl Hh. by destruct (Hi t l Hl) as [[-> _]|[-> _]].
    + intros t l Hl. destruct (Hi t l Hl) as [[-> ->]|[-> Ht]]; (split; [done|]); rewrite bool_decide_eq_false_2 by lia; done.
    + intros t l Hl ->. by destruct (Hi t _ Hl) as [[? _]|[? _]].
    + intros Hw. cbn in Hw. by rewrite empty_store_jobs in Hw.
  - intros [s1 ls1] [s2 ls2] (Hn & Hs & Hw) Hst. cbn in *. pose proof (threads_grow _ _ _ _ _ Hst).
    split; [lia|]. split; [by eapply epoll_serving_step|].
    by eapply (watched_step (J := serving_inv n) (A := epoll_pool_alerting n)).
Qed.

Lemma epoll_blocked n s ls t l :
  serving_inv n s ls → ls !! t = Some l → tstep ls t PGo s l = Blocked →
  idle l = true ∨ (wants_queue l = true ∧ queueLock s ≠ MFree).
Proof.
  intros [Hj _ _ (Hsh & Hf & _) Hr _] Hl Hb. destruct (Hr t l Hl) as [Hp _].
  destruct l; try done; auto; cbn in Hb;
    unfold poolInit, lock_queue, unlock_queue, live in Hb; rewrite Hf in Hb; cbn in Hb.
  all: try (right; split; [done|]; inv_blocked Hb; by apply mutex_lock_Blocked in Hb).
  all: exfalso; inv_blocked Hb.
  - by apply (put_not_blocked (queue s) t0 (ki_store _ _ Hj)).
  - by apply (take_not_blocked (queue s) (ki_store _ _ Hj)).
Qed.

(** C34: no task is left behind.  As long as the pool is not destroyed: in a
    configuration with a worker where no thread can go on, except the clients
    outside the library, every worker is asleep, the queue is empty, and each
    task added has been executed. *)
Theorem epoll_pool_quiescent_is_done n num s ls :
  reachable serving_only (pinit n num) (s, ls) → (S n < length ls)%nat →
  at_rest idle PGo s ls →
  (∀ t l, ls !! t = Some l → l = if bool_decide (n < t)%nat then TWait else POutside) ∧
  jobs (queue s) = [] ∧ queueLock s = MFree ∧ pran s ≡ₚ padded s.
Proof.
  intros Hr Hw Hq. destruct (epoll_reachable_live _ _ _ _ Hr) as (_ & Hs & Hwat).
  destruct (sv_run _ _ _ Hs) as (_ & Hf & Hm).
  destruct (all_idle queueLock holds_queue wants_queue idle PGo s ls) as [Hfree Hid]; try done.
  - intros t l. by apply (epoll_blocked n).
  - by intros [].
  - apply Hs.
  - assert (∀ t l, ls !! t = Some l → l = if bool_decide (n < t)%nat then TWait else POutside) as Hall.
    { intros t l Hl. destruct (sv_role _ _ _ Hs t l Hl) as [_ <-]. specialize (Hid t l Hl). by destruct l. }
    assert (jobs (queue s) = []) as Hj.
    { destruct (decide (jobs (queue s) = [])) as [|Hne]; [done|]. destruct (Hwat Hne) as (t & l & Hl & Ha).
      - apply lookup_lt_is_Some_2 in Hw as [l Hl]. exists (S n), l. split; [done|].
        rewrite (Hall _ _ Hl), bool_decide_eq_true_2 by lia. done.
      - specialize (Hid t l Hl). by destruct l. }
    split_and!; [done..|]. destruct (sv_tasks _ _ _ Hs) as [_ Ha Hd Ht _ _].
    rewrite gather_nil, app_nil_r in Ht; [|intros t l Hl; specialize (Hid t l Hl); by destruct l].
    by rewrite Ha, Hj, (Hd Hf), Ht, app_nil_r.
Qed.
End live.

(** ** Witness *)

Definition serving_only_b (x : pinput) : bool := match x with CallDestroy | CreateFails => false | _ => true end.

Lemma epoll_serving_script (evs : list (event pinput)) (cf : config (pool_t taskqueue) plocal) :
  forallb (event_okb serving_only_b) evs = true → reachable serving_only cf ((final evs cf).1, (final evs cf).2).
Proof. apply final_reachable. by intros [] ?. Qed.

(** One worker, asleep; two tasks added and executed. *)
Definition served : config (pool_t taskqueue) plocal :=
  final (go 0 2 ++ go 1 3 ++ Run 0 (CallAdd (7, 1)) 0 :: go 0 3 ++ Run 0 PGo 1 ::
         Run 0 (CallAdd (8, 1)) 0 :: go 0 4 ++ go 1 11) (pinit 0 1).

Lemma epoll_served_threads : served.2 = [POutside; TWait].
Proof. vm_compute. reflexivity. Qed.

Lemma epoll_pool_quiescent_is_done_witness :
  pran served.1 = [(7, 1); (8, 1)] ∧
  (∀ t l, served.2 !! t = Some l → l = if bool_decide (0 < t)%nat then TWait else POutside) ∧
  jobs (queue served.1) = [] ∧ queueLock served.1 = MFree ∧ pran served.1 ≡ₚ padded served.1.
Proof.
  split; [vm_compute; reflexivity|].
  apply (epoll_pool_quiescent_is_done (St := taskqueue_store) 0 1);
    [by apply epoll_serving_script|rewrite epoll_served_threads; cbn; lia|].
  apply idle_at_rest. vm_compute. reflexivity.
Defined.
