(* ===== verification/Epoll.v ===== *)
(** * Descriptors and epoll

    What the event loops of [epoll/] use of the system: the descriptors of the
    process, the interest list of one epoll instance, and the calls that change
    them.  What a call answers is an argument; an answer the system never gives
    (a descriptor that is already open, an event on a descriptor that is not
    watched) leaves the program waiting.  The servers are in [EpollExample],
    [EchoEpoll] and [EpollThreads]. *)

From S2P Require Import Prelude.
Open Scope Z_scope.

(** A program goes on, has ended, or waits for the next answer. *)
Inductive prog (A : Type) : Type :=
  | Next (a : A)
  | Exit
  | Wait.
Arguments Next {A} a.
Arguments Exit {A}.
Arguments Wait {A}.

#[export] Instance prog_ret : MRet prog := @Next.
#[export] Instance prog_bind : MBind prog :=
  λ A B f m, match m with Next a => f a | Exit => Exit | Wait => Wait end.

Lemma prog_bind_Next {A B} (f : A → prog B) (m : prog A) (b : B) :
  m ≫= f = Next b ↔ ∃ a, m = Next a ∧ f a = Next b.
Proof. destruct m; cbn; naive_solver. Qed.

(** Inverts hypotheses saying that a program went on. *)
Ltac inv_prog :=
  repeat match goal with
  | H : Next _ = Next _ |- _ => injection H as H
  | H : Exit = Next _ |- _ => discriminate H
  | H : Wait = Next _ |- _ => discriminate H
  | H : (_, _) = (_, _) |- _ => injection H as H
  | H : mret _ = Next _ |- _ => injection H as H
  | H : mbind _ _ = Next _ |- _ => apply prog_bind_Next in H as (? & ? & H); cbn beta in H
  end; subst.

(** [abort] and [exit] when a call has failed. *)
Definition exit_unless (b : bool) : prog unit := if b then Next tt else Exit.

Lemma exit_unless_Next b u : exit_unless b = Next u ↔ b = true.
Proof. destruct b, u; cbn; naive_solver. Qed.

(** The descriptors of the process, those watched by the epoll instance, those
    in non-blocking mode, the calls made on a closed descriptor, and what was
    written, the last first. *)
Record kernel : Type := Kernel {
  opened : gset Z;
  watched : gset Z;
  nonblocking : gset Z;
  misused : list Z;
  written : list (Z * list Z)
}.

Definition set_opened (o w n : gset Z) (k : kernel) : kernel := Kernel o w n (misused k) (written k).
Definition misuse (fd : Z) (k : kernel) : kernel :=
  Kernel (opened k) (watched k) (nonblocking k) (misused k ++ [fd]) (written k).

(** [close]: a closed descriptor leaves the interest list. *)
Definition sys_close (fd : Z) (k : kernel) : kernel :=
  if decide (fd ∈ opened k) then
    set_opened (opened k ∖ {[fd]}) (watched k ∖ {[fd]}) (nonblocking k ∖ {[fd]}) k
  else misuse fd k.

(** A new descriptor, from [socket], [accept] or [epoll_create]; [limit] is the
    number of descriptors the process may have. *)
Definition sys_new (limit : option Z) (fd : Z) (k : kernel) : prog kernel :=
  if decide (fd ∈ opened k ∨ fd < 0) then Wait
  else
    match limit with
    | Some n => if Z.of_nat (size (opened k)) <? n then Next (set_opened (opened k ∪ {[fd]}) (watched k) (nonblocking k) k)
                else Wait
    | None => Next (set_opened (opened k ∪ {[fd]}) (watched k) (nonblocking k) k)
    end.

Definition sys_nonblock (fd : Z) (k : kernel) : kernel :=
  if decide (fd ∈ opened k) then set_opened (opened k) (watched k) (nonblocking k ∪ {[fd]}) k else misuse fd k.

(** [epoll_ctl] with [EPOLL_CTL_ADD] when it succeeds, and [EPOLL_CTL_DEL]. *)
Definition epoll_add (fd : Z) (k : kernel) : prog kernel :=
  if decide (fd ∈ opened k ∧ fd ∉ watched k) then Next (set_opened (opened k) (watched k ∪ {[fd]}) (nonblocking k) k)
  else Wait.
Definition epoll_del (fd : Z) (k : kernel) : kernel :=
  if decide (fd ∈ opened k) then set_opened (opened k) (watched k ∖ {[fd]}) (nonblocking k) k else misuse fd k.

Definition sys_write (fd : Z) (bytes : list Z) (k : kernel) : kernel :=
  if decide (fd ∈ opened k) then
    Kernel (opened k) (watched k) (nonblocking k) (misused k) (written k ++ [(fd, bytes)])
  else misuse fd k.

(** An event: the descriptor and the flags of its [events] mask. *)
Record epoll_event : Type := Event { data_fd : Z; EPOLLIN : bool; EPOLLOUT : bool; EPOLLERR : bool; EPOLLHUP : bool }.

(** [epoll_wait]: at most [maxevents] events, on different watched descriptors. *)
Definition epoll_wait {A} (maxevents : Z) (evs : list (epoll_event * A)) (k : kernel) : prog unit :=
  let fds := (λ e, data_fd e.1) <$> evs in
  if decide (NoDup fds ∧ Forall (λ fd, fd ∈ watched k) fds ∧ Z.of_nat (length evs) <= maxevents) then Next tt
  else Wait.

Lemma epoll_wait_Next {A} m (evs : list (epoll_event * A)) k u :
  epoll_wait m evs k = Next u →
  NoDup ((λ e, data_fd e.1) <$> evs) ∧ (∀ e, e ∈ evs → data_fd e.1 ∈ watched k) ∧ Z.of_nat (length evs) <= m.
Proof.
  unfold epoll_wait. case_decide as H; [|done]. intros _. destruct H as (Hn & Hw & Hm). split_and!; [done| |done].
  intros e He. rewrite Forall_fmap, Forall_forall in Hw. by apply Hw.
Qed.

(** The loop over the events of a batch. *)
Fixpoint for_events {A S} (handle : epoll_event * A → S → prog S) (evs : list (epoll_event * A)) (st : S) : prog S :=
  match evs with
  | [] => Next st
  | e :: evs => st1 ← handle e st; for_events handle evs st1
  end.

(** As the events of a batch are on different descriptors, and handling one only
    takes its own descriptor out of the interest list, each is handled while its
    descriptor is watched. *)
Lemma for_events_inv {A S} (handle : epoll_event * A → S → prog S) (fds : S → gset Z) (P : S → Prop) :
  (∀ e a st st', P st → data_fd e ∈ fds st → handle (e, a) st = Next st' →
     P st' ∧ fds st ∖ {[data_fd e]} ⊆ fds st') →
  ∀ evs st st', P st → NoDup ((λ e, data_fd e.1) <$> evs) → (∀ e, e ∈ evs → data_fd e.1 ∈ fds st) →
    for_events handle evs st = Next st' → P st'.
Proof.
  intros Hstep evs. induction evs as [|[e a] evs IH]; intros st st' Hk Hnd Hin H; cbn in H; [by inv_prog|].
  apply prog_bind_Next in H as (st1 & H1 & H). cbn in Hnd. apply NoDup_cons in Hnd as [Hne Hnd].
  apply Hstep in H1 as [Hs Hw]; [|done|apply (Hin (e, a)); by left].
  apply (IH st1); [done..| |done]. intros e' He'. apply Hw, elem_of_difference. split; [apply Hin; by right|].
  intros E%elem_of_singleton. apply Hne. rewrite <- E. apply list_elem_of_fmap. by exists e'.
Qed.

(** ** The invariant of an event loop

    [private] are the descriptors that are never watched: the standard ones and
    the epoll instance; all the others are; [bad] are the calls made on a closed
    one. *)
Record loop_ok (private : gset Z) (bad : list Z) (k : kernel) : Prop := LoopOk {
  lo_opened : opened k = private ∪ watched k;
  lo_private : private ## watched k;
  lo_misused : misused k = bad
}.

(** The same while [fd], just created, is not watched yet. *)
Record pending_ok (private : gset Z) (bad : list Z) (fd : Z) (k : kernel) : Prop := PendingOk {
  po_opened : opened k = private ∪ watched k ∪ {[fd]};
  po_private : private ## watched k;
  po_new : (fd ∉ private ∪ watched k);
  po_misused : misused k = bad
}.

Lemma sys_new_Next limit fd k k' :
  sys_new limit fd k = Next k' →
  (fd ∉ opened k) ∧ k' = set_opened (opened k ∪ {[fd]}) (watched k) (nonblocking k) k ∧
  match limit with Some n => Z.of_nat (size (opened k)) < n | None => True end.
Proof.
  unfold sys_new. intros H. case_decide; [done|]. destruct limit as [n|]; [destruct (_ <? n) eqn:E; [|done]; bools|];
    inv_prog; split_and!; done || tauto.
Qed.

Lemma loop_new private bad limit fd k k' :
  loop_ok private bad k → sys_new limit fd k = Next k' →
  pending_ok private bad fd k' ∧ watched k' = watched k ∧ nonblocking k' = nonblocking k ∧ written k' = written k.
Proof.
  intros [Ho Hp Hm] H. apply sys_new_Next in H as (Hfd & -> & _). cbn. split_and!; [|done..].
  split; cbn; [by rewrite Ho|done|by rewrite <- Ho|done].
Qed.

Lemma pending_nonblock private bad fd k :
  pending_ok private bad fd k →
  pending_ok private bad fd (sys_nonblock fd k) ∧ watched (sys_nonblock fd k) = watched k ∧
  nonblocking (sys_nonblock fd k) = nonblocking k ∪ {[fd]} ∧ written (sys_nonblock fd k) = written k.
Proof.
  intros [Ho Hp Hn Hm]. unfold sys_nonblock. rewrite decide_True by set_solver. cbn. split_and!; [|done..]. by split.
Qed.

Lemma pending_add private bad fd k k' :
  pending_ok private bad fd k → epoll_add fd k = Next k' →
  loop_ok private bad k' ∧ watched k' = watched k ∪ {[fd]} ∧ nonblocking k' = nonblocking k ∧ written k' = written k.
Proof.
  intros [Ho Hp Hn Hm] H. unfold epoll_add in H. case_decide; inv_prog. cbn. split_and!; [|done..].
  split; cbn; [|set_solver|done]. rewrite Ho. set_solver.
Qed.

Lemma pending_close private bad fd k :
  pending_ok private bad fd k →
  loop_ok private bad (sys_close fd k) ∧ watched (sys_close fd k) = watched k ∧ written (sys_close fd k) = written k.
Proof.
  intros [Ho Hp Hn Hm]. unfold sys_close. rewrite decide_True by set_solver. cbn.
  assert (watched k ∖ {[fd]} = watched k) as Hw by set_solver. rewrite Hw. split_and!; [|done..].
  split; cbn; [|done..]. rewrite Ho. set_solver.
Qed.

Lemma loop_close private bad fd k :
  loop_ok private bad k → fd ∈ watched k →
  loop_ok private bad (sys_close fd k) ∧ watched (sys_close fd k) = watched k ∖ {[fd]} ∧
  written (sys_close fd k) = written k ∧ nonblocking (sys_close fd k) = nonblocking k ∖ {[fd]}.
Proof.
  intros [Ho Hp Hm] Hfd. unfold sys_close. rewrite decide_True by set_solver. cbn.
  split_and!; [|done..]. split; cbn; [|set_solver|done]. rewrite Ho. set_solver.
Qed.

Lemma loop_write private bad fd bytes k :
  loop_ok private bad k → fd ∈ private ∪ watched k →
  loop_ok private bad (sys_write fd bytes k) ∧ watched (sys_write fd bytes k) = watched k ∧
  nonblocking (sys_write fd bytes k) = nonblocking k ∧ written (sys_write fd bytes k) = written k ++ [(fd, bytes)].
Proof.
  intros [Ho Hp Hm] Hfd. unfold sys_write. rewrite decide_True by set_solver. by split_and!.
Qed.
