(* ===== verification/ChatServer.v ===== *)
(** * server_epoll_pthread_pool.c: the chat server

    [main] up to its event loop, what the loop does with one event, over the
    array of clients it allocates once, and the job [myprocess] it gives to the
    pool of [EpollPoolRun] for each message.  The headers of three loops are cut
    off in the file (the batch of events of [main], and the two loops of
    [myprocess]): for the first an iteration is modelled, for the others the
    number of iterations is an argument. *)

From S2P Require Import Prelude Epoll CppLog.
Open Scope Z_scope.

Definition BUFFER_SIZE : Z := 100.
Definition MAX_EVENT_NUMBER : nat := 1024.

(** [CLIENT_DATA], with the text in [chatRecord]; [None] for what was never
    written. *)
Record CLIENT_DATA : Type := ClientData {
  sockfd : option Z;
  mark : option Z;
  chatRecord : option (list Z)
}.

Definition fresh_client : CLIENT_DATA := ClientData None None None.

(** The variables of [main], the descriptors, and the messages given to the pool,
    by the value [sockfd] had then. *)
Record chat : Type := Chat {
  clients : list CLIENT_DATA;
  client_count : Z;
  user_count : Z;
  chat_kernel : kernel;
  handed : list Z
}.

(** [setnonblocking] and [addfd], which look at no result; [ctl_ok] is whether
    [epoll_ctl] succeeded. *)
Definition chat_setnonblocking (fd : Z) (k : kernel) : kernel := sys_nonblock fd k.

Definition addfd (fd : Z) (ctl_ok : bool) (k : kernel) : prog kernel :=
  k1 ← (if ctl_ok then epoll_add fd k else Next k);
  Next (chat_setnonblocking fd k1).

(** The answers of the set-up. *)
Record chat_answers : Type := ChatAnswers {
  ca_argc : Z; ca_socket : Z; ca_bind : Z; ca_listen : Z; ca_memory : bool; ca_epoll_create : Z; ca_ctl_ok : bool
}.

(** [main] up to the loop: it returns 1, is aborted by an [assert], or goes on
    with [listenfd].  [malloc] is not checked: without memory there is no
    client. *)
Definition chat_set_up (a : chat_answers) (k : kernel) : prog (Z * chat) :=
  _ ← exit_unless (2 <? ca_argc a);
  _ ← exit_unless (0 <=? ca_socket a);
  k1 ← sys_new None (ca_socket a) k;
  _ ← exit_unless (negb (ca_bind a =? -1));
  _ ← exit_unless (negb (ca_listen a =? -1));
  _ ← exit_unless (negb (ca_epoll_create a =? -1));
  k2 ← sys_new None (ca_epoll_create a) k1;
  k3 ← addfd (ca_socket a) (ca_ctl_ok a) k2;
  Next (ca_socket a,
    Chat (if ca_memory a then replicate MAX_EVENT_NUMBER fresh_client else []) 0 0 k3 []).

(** The answers an event leads to: [accept], with [epoll_ctl], and [recv]. *)
Inductive chat_recv : Type :=
  | Again
  | RecvFails
  | Received (bytes : list Z).

Record chat_io : Type := ChatIo { c_accept : Z; c_ctl_ok : bool; c_recv : chat_recv }.

(** A new client goes to the place after the last one. *)
Definition new_client (connfd : Z) (ctl_ok : bool) (st : chat) : res chat :=
  match (k1 ← (if connfd <? 0 then Next (chat_kernel st) else sys_new None connfd (chat_kernel st));
         addfd connfd ctl_ok k1) with
  | Next k =>
      n ← int_of (client_count st + 1);
      u ← int_of (user_count st + 1);
      cs ← arr_set (clients st) n (ClientData (Some connfd) (Some 1) (Some []));
      Done (Chat cs n u k (handed st))
  | _ => Blocked
  end.

(** A client leaves, at its end or on an error: the place that is marked is the
    last one. *)
Definition client_leaves (fd : Z) (st : chat) : res chat :=
  c ← arr_get (clients st) (client_count st);
  cs ← arr_set (clients st) (client_count st) (ClientData (sockfd c) (Some (-1)) (Some []));
  u ← int_of (user_count st - 1);
  Done (Chat cs (client_count st) u (sys_close fd (chat_kernel st)) (handed st)).

(** The loop that stores a message, from place [i] on, over [n] places. *)
Fixpoint record_chat (fd : Z) (buf : list Z) (i : Z) (n : nat) (cs : list CLIENT_DATA) : res (list CLIENT_DATA) :=
  match n with
  | O => Done cs
  | S n =>
      c ← arr_get cs i;
      match sockfd c with
      | None => Fault
      | Some s =>
          cs1 ← (if s =? fd then arr_set cs i (ClientData (Some s) (mark c) (Some buf)) else Done cs);
          record_chat fd buf (i + 1) n cs1
      end
  end.

(** One iteration of the loop over the events; whether it leaves the loop. *)
Definition chat_event (listenfd : Z) (ev : epoll_event * chat_io) (st : chat) : res (bool * chat) :=
  let '(e, a) := ev in
  let fd := data_fd e in
  if fd =? listenfd then st1 ← new_client (c_accept a) (c_ctl_ok a) st; Done (false, st1)
  else if EPOLLIN e then
    match c_recv a with
    | Again => Done (true, st)
    | RecvFails => st1 ← client_leaves fd st; Done (true, st1)
    | Received [] => st1 ← client_leaves fd st; Done (false, st1)
    | Received bytes =>
        if Z.of_nat (length bytes) <=? BUFFER_SIZE - 1 then
          cs ← record_chat fd (c_str bytes) 1 (Z.to_nat (client_count st)) (clients st);
          Done (false, Chat cs (client_count st) (user_count st) (chat_kernel st) (handed st ++ [fd]))
        else Blocked
    end
  else Done (false, st).

(** [myprocess], the job of a message: it copies the text of the first place with
    the descriptor, and sends it to the other ones.  The headers of its two loops
    are cut off after [j=1;j]: how many places they go over is an argument. *)
Fixpoint first_record (fd j : Z) (n : nat) (cs : list CLIENT_DATA) : res (list Z) :=
  match n with
  | O => Done []
  | S n =>
      c ← arr_get cs j;
      match sockfd c with
      | None => Fault
      | Some s =>
          if fd =? s then
            match chatRecord c with
            | Some text => if Z.of_nat (length text) <? BUFFER_SIZE then Done text else Fault
            | None => Fault
            end
          else first_record fd (j + 1) n cs
      end
  end.

Fixpoint send_others (fd : Z) (buf : list Z) (j : Z) (n : nat) (cs : list CLIENT_DATA) : res (list (Z * list Z)) :=
  match n with
  | O => Done []
  | S n =>
      c ← arr_get cs j;
      match sockfd c with
      | None => Fault
      | Some s =>
          sent ← send_others fd buf (j + 1) n cs;
          Done (if fd =? s then sent else (s, buf) :: sent)
      end
  end.

Definition myprocess (places : nat) (fd : Z) (cs : list CLIENT_DATA) : res (list (Z * list Z)) :=
  buf ← first_record fd 1 places cs;
  send_others fd buf 1 places cs.

(** Iterations one after the other, on descriptors that are watched. *)
Fixpoint chat_events (listenfd : Z) (evs : list (epoll_event * chat_io)) (st : chat) : res chat :=
  match evs with
  | [] => Done st
  | ev :: evs =>
      if decide (data_fd ev.1 ∈ watched (chat_kernel st)) then
        '(_, st1) ← chat_event listenfd ev st; chat_events listenfd evs st1
      else Blocked
  end.

(** ** The array of clients *)

(** What an iteration accepts, and whether a client leaves. *)
Definition accepts (listenfd : Z) (ev : epoll_event * chat_io) : list Z :=
  if data_fd ev.1 =? listenfd then [c_accept ev.2] else [].
Definition departs (listenfd : Z) (ev : epoll_event * chat_io) : bool :=
  negb (data_fd ev.1 =? listenfd) && EPOLLIN ev.1 &&
  match c_recv ev.2 with RecvFails | Received [] => true | _ => false end.

(** After the descriptors [acc] have been accepted and [left] clients have left:
    the places from 1 on hold the descriptors accepted. *)
Record chat_ok (listenfd : Z) (acc : list Z) (left : nat) (st : chat) : Prop := ChatOk {
  co_places : ∃ c0 mid post, clients st = c0 :: mid ++ post ∧ sockfd <$> mid = Some <$> acc ∧
    S (length mid + length post) = MAX_EVENT_NUMBER;
  co_count : client_count st = Z.of_nat (length acc);
  co_users : user_count st = Z.of_nat (length acc) - Z.of_nat left;
  co_watched : Z.of_nat (size (watched (chat_kernel st))) <= user_count st + 1;
  co_listen : listenfd ∈ watched (chat_kernel st);
  co_open : watched (chat_kernel st) ⊆ opened (chat_kernel st)
}.

Lemma record_chat_spec fd buf pre mid post :
  Forall (λ c, is_Some (sockfd c)) mid →
  record_chat fd buf (Z.of_nat (length pre)) (length mid) (pre ++ mid ++ post) =
  Done (pre ++ ((λ c, if decide (sockfd c = Some fd) then ClientData (sockfd c) (mark c) (Some buf) else c) <$> mid) ++ post).
Proof.
  intros H. revert pre. induction H as [|c mid [s Hs] _ IH]; intros pre; [done|]. cbn [length record_chat].
  rewrite (arr_get_in _ _ c); [|lia|by rewrite Nat2Z.id, lookup_app_r, Nat.sub_diag]. cbn [mbind res_bind].
  rewrite Hs. cbn [fmap list_fmap]. rewrite Hs.
  assert (∀ c', record_chat fd buf (Z.of_nat (length pre) + 1) (length mid) (pre ++ (c' :: mid) ++ post) =
    Done (pre ++ (c' :: ((λ c, if decide (sockfd c = Some fd) then ClientData (sockfd c) (mark c) (Some buf) else c) <$> mid)) ++ post)) as HIH.
  { intros c'. specialize (IH (pre ++ [c'])). rewrite length_app in IH. cbn in IH. rewrite <- !app_assoc in IH.
    replace (Z.of_nat (length pre) + 1) with (Z.of_nat (length pre + 1)) by lia. exact IH. }
  destruct (s =? fd) eqn:E; bools.
  - rewrite arr_set_in by (rewrite !length_app; cbn; lia). cbn [mbind res_bind].
    rewrite Nat2Z.id, insert_app_r_alt, Nat.sub_diag by done. cbn [insert list_insert app].
    rewrite decide_True by congruence. apply HIH.
  - cbn [mbind res_bind]. rewrite decide_False by congruence. apply HIH.
Qed.

(** The descriptors of the places in use have been written. *)
Lemma sockets_known mid acc :
  sockfd <$> mid = Some <$> acc → Forall (λ c, is_Some (sockfd c)) mid.
Proof.
  intros Hacc. apply Forall_forall. intros c [i Hi]%list_elem_of_lookup.
  assert ((sockfd <$> mid) !! i = Some (sockfd c)) as Hs by (by rewrite list_lookup_fmap, Hi).
  rewrite Hacc, list_lookup_fmap in Hs. destruct (acc !! i); by simplify_eq/=.
Qed.

Lemma sys_nonblock_keeps fd k :
  watched (sys_nonblock fd k) = watched k ∧ opened (sys_nonblock fd k) = opened k.
Proof. unfold sys_nonblock. by case_decide. Qed.

Lemma addfd_Next fd ok k k' :
  addfd fd ok k = Next k' →
  opened k' = opened k ∧ watched k ⊆ watched k' ∧ watched k' ⊆ watched k ∪ {[fd]} ∧
  (watched k' = watched k ∨ fd ∈ opened k ∧ watched k' = watched k ∪ {[fd]}).
Proof.
  unfold addfd, chat_setnonblocking. intros H. inv_prog.
  match goal with K : _ = Next ?k1 |- _ => destruct (sys_nonblock_keeps fd k1) as [-> ->]; rename K into H end.
  destruct ok; [unfold epoll_add in H; case_decide as Hd; [|done]|]; inv_prog; cbn; split_and!;
    set_solver || tauto.
Qed.

(** A new client takes the next place; there are 1023. *)
Lemma new_client_ok listenfd acc left st connfd ok :
  chat_ok listenfd acc left st →
  match new_client connfd ok st with
  | Done st' => chat_ok listenfd (acc ++ [connfd]) left st' ∧ (length acc < MAX_EVENT_NUMBER - 1)%nat
  | Blocked => True
  | Fault => (length acc = MAX_EVENT_NUMBER - 1)%nat
  end.
Proof.
  intros [(c0 & mid & post & Hcs & Hacc & Hlen) Hc Hu Hw Hl Ho]. unfold new_client.
  assert (length mid = length acc) as Hma by (apply (f_equal length) in Hacc; by rewrite !length_fmap in Hacc).
  destruct (_ ≫= _) as [k| |] eqn:Hk; [|done..]. apply prog_bind_Next in Hk as (k1 & Hk1 & Ha).
  assert (watched k1 = watched (chat_kernel st) ∧ opened (chat_kernel st) ⊆ opened k1) as [Hw1 Ho1].
  { destruct (connfd <? 0); [by inv_prog|]. apply sys_new_Next in Hk1 as (_ & -> & _). cbn. set_solver. }
  apply addfd_Next in Ha as (Ho' & Hw' & _ & Hw'').
  unfold MAX_EVENT_NUMBER in *.
  assert (0 <= user_count st) as Hu0.
  { assert (size (watched (chat_kernel st)) ≠ 0%nat); [|lia]. intros E%size_empty_inv. set_solver. }
  rewrite Hc, Hu in *. rewrite !int_of_fits by (unfold INT_MIN, INT_MAX; lia). cbn [mbind res_bind].
  unfold arr_set. rewrite Hcs. cbn [length]. rewrite length_app, Hma.
  destruct post as [|c post]; cbn in Hlen.
  - rewrite (proj2 (Z.ltb_ge _ _)), andb_false_r by (cbn; lia). cbn. lia.
  - rewrite (proj2 (Z.ltb_lt _ _)), (proj2 (Z.leb_le _ _)) by (cbn; lia). cbn [andb mbind res_bind]. split; [|lia].
    split; cbn [clients client_count user_count chat_kernel].
    + exists c0, (mid ++ [ClientData (Some connfd) (Some 1) (Some [])]), post. split_and!.
      * replace (Z.to_nat (Z.of_nat (length acc) + 1)) with (length (c0 :: mid)) by (cbn; lia).
        rewrite app_comm_cons, insert_app_r_alt, Nat.sub_diag by done. by rewrite <- app_assoc.
      * by rewrite !fmap_app, Hacc.
      * rewrite length_app. unfold MAX_EVENT_NUMBER. cbn. lia.
    + rewrite length_app. cbn. lia.
    + rewrite length_app. cbn. lia.
    + rewrite Hw1 in *. destruct Hw'' as [-> | [_ ->]]; [lia|].
      pose proof (size_union_alt (watched (chat_kernel st)) {[connfd]}) as Hs.
      assert (size ({[connfd]} ∖ watched (chat_kernel st)) <= 1)%nat; [|lia].
      rewrite <- (size_singleton connfd (C := gset Z)). apply subseteq_size. set_solver.
    + set_solver.
    + rewrite Ho'. destruct Hw'' as [-> | [? ->]]; set_solver.
Qed.

(** A client that leaves has the last place marked, whichever was its own. *)
Lemma client_leaves_ok listenfd acc left st fd :
  chat_ok listenfd acc left st → fd ∈ watched (chat_kernel st) → fd ≠ listenfd →
  ∃ st', client_leaves fd st = Done st' ∧ chat_ok listenfd acc (S left) st' ∧
    (mark <$> clients st' !! length acc) = Some (Some (-1)).
Proof.
  intros [(c0 & mid & post & Hcs & Hacc & Hlen) Hc Hu Hw Hl Ho] Hfd Hne. unfold client_leaves.
  assert (length mid = length acc) as Hma by (apply (f_equal length) in Hacc; by rewrite !length_fmap in Hacc).
  assert (2 <= size (watched (chat_kernel st)))%nat as H2.
  { assert (size ({[listenfd]} ∪ {[fd]} : gset Z) = 2)%nat as <- by (rewrite size_union, !size_singleton by set_solver; done).
    apply subseteq_size. set_solver. }
  destruct (destruct_last mid) as [->|(c & mid' & ->)]; [cbn in Hma; lia|].
  rewrite length_app in Hma, Hlen. cbn in Hma, Hlen. unfold MAX_EVENT_NUMBER in *.
  rewrite fmap_app in Hacc.
  assert (clients st = (c0 :: mid') ++ c :: post) as Hcs' by (rewrite Hcs, <- app_assoc; done).
  assert (Z.to_nat (client_count st) = length (c0 :: mid')) as Hn by (cbn; lia).
  rewrite (arr_get_in _ _ c); [|lia|by rewrite Hn, Hcs', lookup_app_r, Nat.sub_diag by lia]. cbn [mbind res_bind].
  rewrite arr_set_in by (rewrite Hcs', length_app; cbn; lia). cbn [mbind res_bind].
  rewrite int_of_fits by (unfold INT_MIN, INT_MAX; lia). cbn [mbind res_bind].
  rewrite Hn, Hcs', insert_app_r_alt, Nat.sub_diag by lia. cbn [insert list_insert].
  assert (length acc = length (c0 :: mid')) as -> by (cbn; lia).
  eexists. split; [done|]. cbn [clients]. split_and!.
  - split; cbn [clients client_count user_count chat_kernel]; [|done|lia| | |].
    + exists c0, (mid' ++ [ClientData (sockfd c) (Some (-1)) (Some [])]), post. rewrite <- !app_assoc. split_and!; [done| |].
      * by rewrite fmap_app.
      * rewrite length_app. unfold MAX_EVENT_NUMBER. cbn. lia.
    + unfold sys_close. rewrite decide_True by set_solver. cbn.
      rewrite size_difference, size_singleton by set_solver. lia.
    + unfold sys_close. rewrite decide_True by set_solver. cbn. set_solver.
    + unfold sys_close. rewrite decide_True by set_solver. cbn. set_solver.
  - by rewrite lookup_app_r, Nat.sub_diag by lia.
Qed.

(** A message is stored in every place that has its descriptor, clients that have
    left included, and given to the pool. *)
Lemma message_ok listenfd acc left st fd buf :
  chat_ok listenfd acc left st →
  ∃ cs, record_chat fd buf 1 (Z.to_nat (client_count st)) (clients st) = Done cs ∧
    chat_ok listenfd acc left (Chat cs (client_count st) (user_count st) (chat_kernel st) (handed st ++ [fd])).
Proof.
  intros [(c0 & mid & post & Hcs & Hacc & Hlen) Hc Hu Hw Hl Ho].
  assert (length mid = length acc) as Hma by (apply (f_equal length) in Hacc; by rewrite !length_fmap in Hacc).
  pose proof (sockets_known _ _ Hacc) as Hin.
  rewrite Hc, Nat2Z.id, <- Hma, Hcs. eexists. split; [apply (record_chat_spec fd buf [c0] _ _ Hin)|].
  split; cbn [clients client_count user_count chat_kernel]; [|lia|done..].
  eexists c0, _, post. split; [done|]. rewrite length_fmap. split; [|done]. rewrite <- Hacc, <- list_fmap_compose.
  apply list_fmap_ext. intros _ c _. cbn. by case_decide.
Qed.

Lemma chat_event_ok listenfd acc left st ev :
  chat_ok listenfd acc left st → data_fd ev.1 ∈ watched (chat_kernel st) →
  match chat_event listenfd ev st with
  | Done (_, st') =>
      chat_ok listenfd (acc ++ accepts listenfd ev) (left + Nat.b2n (departs listenfd ev)) st' ∧
      (length (acc ++ accepts listenfd ev) < MAX_EVENT_NUMBER)%nat
  | Blocked => True
  | Fault => length (acc ++ accepts listenfd ev) = MAX_EVENT_NUMBER
  end.
Proof.
  intros Hok Hin. destruct ev as [e a]. cbn in Hin. unfold chat_event, accepts, departs. cbn [fst snd].
  assert (length acc < MAX_EVENT_NUMBER)%nat as Hlt.
  { destruct Hok as [(c0 & mid & post & _ & Hacc & Hlen) _ _ _ _ _].
    apply (f_equal length) in Hacc. rewrite !length_fmap in Hacc. lia. }
  destruct (data_fd e =? listenfd) eqn:E; bools; cbn [negb andb Nat.b2n]; rewrite ?Nat.add_0_r, ?app_nil_r.
  - pose proof (new_client_ok _ _ _ _ (c_accept a) (c_ctl_ok a) Hok) as H.
    destruct (new_client _ _ _) as [st'| |]; cbn [mbind res_bind]; [destruct H as [H Hn]; split; [done|]|done|];
      rewrite length_app; cbn [length]; unfold MAX_EVENT_NUMBER in *; lia.
  - destruct (EPOLLIN e); cbn [andb]; [|rewrite Nat.add_0_r; by split].
    destruct (c_recv a) as [| |[|b bytes]]; cbn [Nat.b2n]; rewrite ?Nat.add_0_r, ?Nat.add_1_r; [by split| | |].
    1,2: destruct (client_leaves_ok _ _ _ _ _ Hok Hin E) as (st' & -> & Hok' & _); by split.
    destruct (_ <=? _); [|done].
    destruct (message_ok _ _ _ _ (data_fd e) (c_str (b :: bytes)) Hok) as (cs & -> & Hok'). by split.
Qed.

(** ** The events of a whole execution *)

Lemma chat_events_ok listenfd acc left st evs :
  chat_ok listenfd acc left st → (length acc < MAX_EVENT_NUMBER)%nat →
  match chat_events listenfd evs st with
  | Done st' =>
      chat_ok listenfd (acc ++ (evs ≫= accepts listenfd)) (left + count_if (departs listenfd) evs) st' ∧
      (length (acc ++ (evs ≫= accepts listenfd)) < MAX_EVENT_NUMBER)%nat
  | Blocked => True
  | Fault => (MAX_EVENT_NUMBER <= length (acc ++ (evs ≫= accepts listenfd)))%nat
  end.
Proof.
  revert acc left st. induction evs as [|ev evs IH]; intros acc left st Hok Hlt.
  { cbn [chat_events mbind list_bind count_if]. by rewrite app_nil_r, Nat.add_0_r. }
  cbn [chat_events]. case_decide as Hin; [|done]. rewrite bind_cons. cbn [count_if].
  pose proof (chat_event_ok _ _ _ _ _ Hok Hin) as H. destruct (chat_event _ _ _) as [[b st1]| |]; cbn [mbind res_bind]; [|done|].
  - destruct H as [H1 H2]. specialize (IH _ _ _ H1 H2). rewrite <- app_assoc in IH.
    rewrite Nat.add_assoc. exact IH.
  - rewrite app_assoc, length_app. unfold MAX_EVENT_NUMBER in *. lia.
Qed.

(** [main] up to the loop, when there was memory and the listening socket could
    be watched. *)
Lemma chat_set_up_ok a k listenfd st :
  watched k = ∅ → ca_memory a = true → ca_ctl_ok a = true → chat_set_up a k = Next (listenfd, st) →
  chat_ok listenfd [] 0 st.
Proof.
  intros Hk Hm Hc H. unfold chat_set_up in H. rewrite Hm, Hc in H. inv_prog.
  repeat match goal with K : sys_new _ _ _ = Next _ |- _ => apply sys_new_Next in K as (? & -> & _) end.
  match goal with K : addfd _ _ _ = Next ?k3 |- _ => rename K into Ha; rename k3 into k' end.
  pose proof Ha as Hb. unfold addfd in Hb. inv_prog.
  match goal with K : epoll_add _ _ = Next ?k1 |- _ => unfold epoll_add in K; case_decide as Hd; inv_prog end.
  unfold chat_setnonblocking. split; cbn [clients client_count user_count chat_kernel]; [|done..| | |].
  - eexists fresh_client, [], _. split_and!; [reflexivity|done|reflexivity].
  - match goal with |- context [sys_nonblock ?fd ?k3] => destruct (sys_nonblock_keeps fd k3) as [-> _] end.
    cbn. rewrite Hk, union_empty_l_L, size_singleton. lia.
  - match goal with |- context [sys_nonblock ?fd ?k3] => destruct (sys_nonblock_keeps fd k3) as [-> _] end.
    cbn. set_solver.
  - match goal with |- context [sys_nonblock ?fd ?k3] => destruct (sys_nonblock_keeps fd k3) as [-> ->] end.
    cbn. rewrite Hk. set_solver.
Qed.

(** The places are never used again: whatever the clients do, [client_count] is
    the number of connections there have been, and not of those there are; the
    server writes past the array exactly at the connection number 1024, a failed
    [accept] being one.  [user_count] is the connections less the departures. *)
Theorem chat_places_run_out a k listenfd st evs :
  watched k = ∅ → ca_memory a = true → ca_ctl_ok a = true → chat_set_up a k = Next (listenfd, st) →
  let connections := evs ≫= accepts listenfd in
  match chat_events listenfd evs st with
  | Done st' =>
      client_count st' = Z.of_nat (length connections) ∧ (length connections < MAX_EVENT_NUMBER)%nat ∧
      user_count st' = Z.of_nat (length connections) - Z.of_nat (count_if (departs listenfd) evs) ∧
      sockfd <$> take (length connections) (drop 1 (clients st')) = Some <$> connections
  | Blocked => True
  | Fault => (MAX_EVENT_NUMBER <= length connections)%nat
  end.
Proof.
  intros Hk Hm Hc Hs connections. pose proof (chat_set_up_ok _ _ _ _ Hk Hm Hc Hs) as Hok.
  pose proof (chat_events_ok listenfd [] 0 st evs Hok ltac:(unfold MAX_EVENT_NUMBER; cbn; lia)) as H.
  cbn [app] in H. destruct (chat_events _ _ _) as [st'| |]; [|done..]. destruct H as [[(c0 & mid & post & -> & Hacc & _) -> -> _ _ _] Hn].
  split_and!; [done..|]. cbn [drop]. unfold connections. rewrite <- Hacc. f_equal.
  rewrite drop_0, take_app_length'; [done|]. apply (f_equal length) in Hacc. by rewrite !length_fmap in Hacc.
Qed.

(** One client at a time, who comes and leaves. *)
Definition visits (n : nat) : list (epoll_event * chat_io) :=
  concat (replicate n
    [(Event 3 true false false false, ChatIo 5 true Again);
     (Event 5 true false false false, ChatIo 0 false (Received []))]).

Example visits_run_out :
  ∃ st, chat_set_up (ChatAnswers 3 3 0 0 true 4 true) (Kernel {[0; 1; 2]} ∅ ∅ [] []) = Next (3, st) ∧
    user_count <$> (match chat_events 3 (visits 1023) st with Done st' => Some st' | _ => None end) = Some 0 ∧
    chat_events 3 (visits 1024) st = Fault.
Proof. eexists. split; [vm_compute; reflexivity|]. split; vm_compute; reflexivity. Qed.

(** The place of a client that leaves keeps its mark, unless it came last; it is
    the last place that is marked. *)
Lemma departure_marks_the_last listenfd acc left st fd :
  chat_ok listenfd acc left st → fd ∈ watched (chat_kernel st) → fd ≠ listenfd →
  ∃ st', client_leaves fd st = Done st' ∧ (mark <$> clients st' !! length acc) = Some (Some (-1)) ∧
    ∀ i, i ≠ length acc → clients st' !! i = clients st !! i.
Proof.
  intros Hok Hfd Hne. destruct (client_leaves_ok _ _ _ _ _ Hok Hfd Hne) as (st' & H & _ & Hm).
  exists st'. split_and!; [done..|]. intros i Hi. unfold client_leaves in H. inv_res.
  match goal with K : arr_set _ _ _ = Done _ |- _ => apply arr_set_Done in K as [_ ->] end. cbn.
  apply list_lookup_insert_ne. destruct Hok as [_ -> _ _ _ _]. lia.
Qed.

(** ** The job of a message *)

Lemma first_record_spec fd text pre mid post ds :
  sockfd <$> mid = Some <$> ds → fd ∈ ds → Z.of_nat (length text) < BUFFER_SIZE →
  (∀ c, c ∈ mid → sockfd c = Some fd → chatRecord c = Some text) →
  first_record fd (Z.of_nat (length pre)) (length mid) (pre ++ mid ++ post) = Done text.
Proof.
  intros Hds Hin Hlen. revert pre ds Hds Hin. induction mid as [|c mid IH]; intros pre [|d ds] Hds Hin Htext; simplify_eq/=;
    [by apply elem_of_nil in Hin|].
  rewrite (arr_get_in _ _ c); [|lia|by rewrite Nat2Z.id, lookup_app_r, Nat.sub_diag]. cbn [mbind res_bind].
  match goal with K : sockfd c = Some _ |- _ => rewrite K end.
  destruct (fd =? d) eqn:E; bools.
  - rewrite (Htext c) by (done || set_solver). by rewrite (proj2 (Z.ltb_lt _ _)).
  - specialize (IH (pre ++ [c]) ds). rewrite length_app in IH. cbn in IH. rewrite <- app_assoc in IH.
    replace (Z.of_nat (length pre) + 1) with (Z.of_nat (length pre + 1)) by lia. apply IH; [done| |].
    + by apply elem_of_cons in Hin as [|].
    + intros c' Hc'. apply Htext. set_solver.
Qed.

Lemma send_others_spec fd buf pre mid post ds :
  sockfd <$> mid = Some <$> ds →
  send_others fd buf (Z.of_nat (length pre)) (length mid) (pre ++ mid ++ post) =
  Done ((λ s, (s, buf)) <$> filter (λ s, s ≠ fd) ds).
Proof.
  revert pre ds. induction mid as [|c mid IH]; intros pre [|d ds] Hds; simplify_eq/=; [done|].
  rewrite (arr_get_in _ _ c); [|lia|by rewrite Nat2Z.id, lookup_app_r, Nat.sub_diag]. cbn [mbind res_bind].
  match goal with K : sockfd c = Some _ |- _ => rewrite K end.
  specialize (IH (pre ++ [c]) ds). rewrite length_app in IH. cbn in IH. rewrite <- app_assoc in IH.
  replace (Z.of_nat (length pre) + 1) with (Z.of_nat (length pre + 1)) by lia. cbn [app] in IH. rewrite IH by done.
  cbn [mbind res_bind]. destruct (fd =? d) eqn:E; bools; [by rewrite filter_cons_False by congruence|].
  by rewrite filter_cons_True by congruence.
Qed.

(** A message is broadcast: the job that runs after the event of the message, and
    before another event, sends its text to every other descriptor accepted in the
    places it goes over, those of the clients that have left included. *)
Lemma message_broadcast listenfd acc left st e a places b bytes :
  chat_ok listenfd acc left st → data_fd e ≠ listenfd → EPOLLIN e = true →
  c_recv a = Received (b :: bytes) → Z.of_nat (length (b :: bytes)) <= BUFFER_SIZE - 1 →
  (places <= length acc)%nat → data_fd e ∈ take places acc →
  ∃ st', chat_event listenfd (e, a) st = Done (false, st') ∧ handed st' = handed st ++ [data_fd e] ∧
    myprocess places (data_fd e) (clients st') =
    Done ((λ s, (s, c_str (b :: bytes))) <$> filter (λ s, s ≠ data_fd e) (take places acc)).
Proof.
  intros Hok Hne Hin Hr Hlen Hp Hfd. pose proof Hok as [(c0 & mid & post & Hcs & Hacc & _) Hc _ _ _ _].
  assert (length mid = length acc) as Hma by (apply (f_equal length) in Hacc; by rewrite !length_fmap in Hacc).
  unfold chat_event. rewrite (proj2 (Z.eqb_neq _ _)), Hin, Hr, (proj2 (Z.leb_le _ _)) by done.
  rewrite Hc, Nat2Z.id, Hcs, <- Hma.
  rewrite (record_chat_spec (data_fd e) _ [c0] mid post (sockets_known _ _ Hacc)). cbn [mbind res_bind].
  eexists. split_and!; [done..|]. cbn [clients]. set (text := c_str (b :: bytes)).
  set (f := λ c, if decide (sockfd c = Some (data_fd e)) then ClientData (sockfd c) (mark c) (Some text) else c).
  assert (sockfd <$> take places (f <$> mid) = Some <$> take places acc) as Hds.
  { rewrite !fmap_take. f_equal. rewrite <- Hacc, <- list_fmap_compose. apply list_fmap_ext. intros _ c _. cbn. unfold f. by case_decide. }
  rewrite <- (take_drop places (f <$> mid)), <- app_assoc.
  assert (length (take places (f <$> mid)) = places) as Hl by (rewrite length_take, length_fmap; lia).
  pose proof (λ P, first_record_spec (data_fd e) text [c0] _ (drop places (f <$> mid) ++ post) _ Hds Hfd P) as H1.
  pose proof (send_others_spec (data_fd e) text [c0] _ (drop places (f <$> mid) ++ post) _ Hds) as H2.
  rewrite Hl in H1, H2. unfold myprocess. change 1 with (Z.of_nat (length [c0])).
  cbn [app] in H1, H2 |- *. rewrite H1.
  - cbn [mbind res_bind]. exact H2.
  - unfold text. pose proof (length_c_str (b :: bytes)). lia.
  - intros c Hc'%elem_of_take. destruct Hc' as (i & Hi & _). apply list_lookup_fmap_Some in Hi as (c1 & -> & _).
    unfold f. case_decide; by cbn.
Qed.
