(* ===== verification/EpollExample.v ===== *)
(** * epoll-example.c

    The edge-triggered server of [epoll/epoll-example.c], which prints what its
    clients send: its set-up, its event loop, and the loops that accept and read
    until nothing is left.  The answers of the system are arguments. *)

From S2P Require Import Prelude Epoll.
Open Scope Z_scope.

Definition MAXEVENTS : Z := 64.

(** What [fcntl] answered to [F_GETFL] and to [F_SETFL]. *)
Definition make_socket_non_blocking (sfd getfl setfl : Z) (k : kernel) : Z * kernel :=
  if getfl =? -1 then (-1, k)
  else if setfl =? -1 then (-1, k)
  else (0, sys_nonblock sfd k).

(** The loop of [create_and_bind] over the addresses: for each of them what
    [socket] answered, and whether [bind] succeeded. *)
Fixpoint bind_first (rp : list (option Z * bool)) (k : kernel) : prog (option Z * kernel) :=
  match rp with
  | [] => Next (None, k)
  | (None, _) :: rp => bind_first rp k
  | (Some sfd, bound) :: rp =>
      k1 ← sys_new None sfd k;
      if bound : bool then Next (Some sfd, k1) else bind_first rp (sys_close sfd k1)
  end.

(** [None]: [getaddrinfo] has failed. *)
Definition create_and_bind (result : option (list (option Z * bool))) (k : kernel) : prog (option Z * kernel) :=
  match result with
  | None => Next (None, k)
  | Some rp => bind_first rp k
  end.

(** [main] up to the event loop; [ctl] is what [epoll_ctl] answered. *)
Definition set_up (result : option (list (option Z * bool))) (getfl setfl listen_ efd ctl : Z) (k : kernel) :
    prog (Z * kernel) :=
  '(o, k1) ← create_and_bind result k;
  match o with
  | None => Exit
  | Some sfd =>
      let '(s, k2) := make_socket_non_blocking sfd getfl setfl k1 in
      _ ← exit_unless (negb (s =? -1));
      _ ← exit_unless (negb (listen_ =? -1));
      _ ← exit_unless (negb (efd =? -1));
      k3 ← sys_new None efd k2;
      _ ← exit_unless (negb (ctl =? -1));
      k4 ← epoll_add sfd k3;
      Next (sfd, k4)
  end.

(** The answers to [accept] and to the calls on the descriptor it returns. *)
Inductive accept_answer : Type :=
  | Accepted (infd getfl setfl ctl : Z)
  | AcceptFails (again : bool).

(** Every failure ends the loop, [EAGAIN] or not. *)
Fixpoint accept_loop (answers : list accept_answer) (k : kernel) : prog kernel :=
  match answers with
  | [] => Wait
  | AcceptFails _ :: _ => Next k
  | Accepted infd getfl setfl ctl :: answers =>
      k1 ← sys_new None infd k;
      let '(s, k2) := make_socket_non_blocking infd getfl setfl k1 in
      _ ← exit_unless (negb (s =? -1));
      _ ← exit_unless (negb (ctl =? -1));
      k3 ← epoll_add infd k2;
      accept_loop answers k3
  end.

(** The answers to [read], with whether the [write] of the data succeeds. *)
Inductive read_answer : Type :=
  | ReadData (buf : list Z) (printed : bool)
  | ReadEof
  | ReadFails (again : bool).

(** Whether the connection is done. *)
Fixpoint read_loop (answers : list read_answer) (k : kernel) : prog (bool * kernel) :=
  match answers with
  | [] => Wait
  | ReadFails again :: _ => Next (negb again, k)
  | ReadEof :: _ => Next (true, k)
  | ReadData buf printed :: answers =>
      _ ← exit_unless printed;
      read_loop answers (sys_write 1 buf k)
  end.

Record event_answers : Type := EventAnswers { accepts : list accept_answer; reads : list read_answer }.

(** One iteration of the loop over the events. *)
Definition handle_event (sfd : Z) (ea : epoll_event * event_answers) (k : kernel) : prog kernel :=
  let '(e, a) := ea in
  if EPOLLERR e || EPOLLHUP e || negb (EPOLLIN e) then Next (sys_close (data_fd e) k)
  else if sfd =? data_fd e then accept_loop (accepts a) k
  else
    '(closed, k1) ← read_loop (reads a) k;
    Next (if closed : bool then sys_close (data_fd e) k1 else k1).

Definition handle_events (sfd : Z) : list (epoll_event * event_answers) → kernel → prog kernel :=
  for_events (handle_event sfd).

(** The event loop, for as many turns as there are batches of events; a failed
    [epoll_wait] is an empty batch. *)
Fixpoint event_loop (sfd : Z) (batches : list (list (epoll_event * event_answers))) (k : kernel) : prog kernel :=
  match batches with
  | [] => Next k
  | events :: batches =>
      _ ← epoll_wait MAXEVENTS events k;
      k1 ← handle_events sfd events k;
      event_loop sfd batches k1
  end.

(** ** The descriptors *)

(** The invariant: [private] are the standard descriptors and the epoll
    instance; the watched ones do not block. *)
Record serving (private : gset Z) (k : kernel) : Prop := Serving {
  sv_loop : loop_ok private [] k;
  sv_output : 1 ∈ private;
  sv_nonblocking : watched k ⊆ nonblocking k
}.

Lemma make_non_blocking_cases sfd getfl setfl k :
  let '(s, k') := make_socket_non_blocking sfd getfl setfl k in
  (s = -1 ∧ k' = k) ∨ (s = 0 ∧ k' = sys_nonblock sfd k).
Proof. unfold make_socket_non_blocking. destruct (getfl =? -1), (setfl =? -1); cbn; auto. Qed.

Lemma accept_loop_serving private answers k k' :
  serving private k → accept_loop answers k = Next k' → serving private k' ∧ watched k ⊆ watched k'.
Proof.
  revert k. induction answers as [|[infd getfl setfl ctl|again] answers IH]; intros k Hk H; cbn in H; [done| |by inv_prog].
  destruct Hk as [Hl Ho Hn]. apply prog_bind_Next in H as (k1 & H1 & H).
  destruct (loop_new _ _ _ _ _ _ Hl H1) as (Hp & Hw1 & Hn1 & _).
  pose proof (make_non_blocking_cases infd getfl setfl k1) as Hc.
  destruct (make_socket_non_blocking infd getfl setfl k1) as [s k2].
  inv_prog. apply exit_unless_Next in H0. destruct Hc as [[-> _]|[-> ->]]; [done|].
  destruct (pending_nonblock _ _ _ _ Hp) as (Hp2 & Hw2 & Hn2 & _).
  match goal with K : epoll_add _ _ = Next _ |- _ => destruct (pending_add _ _ _ _ _ Hp2 K) as (Hl3 & Hw3 & Hn3 & _) end.
  apply IH in H as [Hs Hsub].
  - split; [done|]. rewrite <- Hsub, Hw3, Hw2, Hw1. set_solver.
  - split; [done|done|]. rewrite Hw3, Hw2, Hw1, Hn3, Hn2, Hn1. set_solver.
Qed.

Lemma read_loop_serving private answers k closed k' :
  serving private k → read_loop answers k = Next (closed, k') → serving private k' ∧ watched k' = watched k.
Proof.
  revert k. induction answers as [|[buf printed| |again] answers IH]; intros k Hk H; cbn in H; [done| |by inv_prog..].
  inv_prog. destruct Hk as [Hl Ho Hn]. destruct (loop_write private [] 1 buf k Hl) as (Hl' & Hw & Hn' & _); [set_solver|].
  apply IH in H; [by rewrite Hw in H|]. split; [done|done|]. by rewrite Hw, Hn'.
Qed.

(** Handling an event closes at most its own descriptor. *)
Lemma handle_event_serving private sfd e a k k' :
  serving private k → data_fd e ∈ watched k → handle_event sfd (e, a) k = Next k' →
  serving private k' ∧ watched k ∖ {[data_fd e]} ⊆ watched k'.
Proof.
  intros Hk He H. unfold handle_event in H.
  assert (∀ k1, serving private k1 → data_fd e ∈ watched k1 →
            serving private (sys_close (data_fd e) k1) ∧
            watched k1 ∖ {[data_fd e]} ⊆ watched (sys_close (data_fd e) k1)) as Hclose.
  { intros k1 [Hl Ho Hn] Hin. destruct (loop_close _ _ _ _ Hl Hin) as (Hl' & Hw & _ & Hn').
    split; [split; [done|done|]|]; rewrite Hw; [rewrite Hn'|]; set_solver. }
  destruct (_ || _); [inv_prog; auto|]. destruct (sfd =? data_fd e).
  - apply (accept_loop_serving private) in H as [? ?]; [|done]. split; [done|set_solver].
  - destruct (read_loop (reads a) k) as [[closed k1]| |] eqn:E; try done. cbn in H. inv_prog.
    apply (read_loop_serving private) in E as [Hs Hw]; [|done].
    destruct closed; [rewrite <- Hw; apply Hclose; [done|set_solver]|]. split; [done|set_solver].
Qed.

Lemma event_loop_serving private sfd batches k k' :
  serving private k → event_loop sfd batches k = Next k' → serving private k'.
Proof.
  revert k. induction batches as [|events batches IH]; intros k Hk H; cbn in H; [by inv_prog|].
  destruct (epoll_wait MAXEVENTS events k) eqn:E; try done. cbn in H.
  apply epoll_wait_Next in E as (Hnd & Hin & _). apply prog_bind_Next in H as (k1 & H1 & H).
  apply (IH k1); [|done].
  apply (for_events_inv (handle_event sfd) watched (serving private)) with events k; [|done..].
  intros ev ans k2 k3. apply handle_event_serving.
Qed.

(** ** Set-up *)

Definition standard : gset Z := {[0; 1; 2]}.
Definition start : kernel := Kernel standard ∅ ∅ [] [].

Lemma bind_first_ok private rp k o k' :
  loop_ok private [] k → bind_first rp k = Next (o, k') →
  watched k' = watched k ∧
  match o with None => loop_ok private [] k' | Some sfd => pending_ok private [] sfd k' end.
Proof.
  revert k. induction rp as [|[[sfd|] bound] rp IH]; intros k Hk H; cbn in H; [by inv_prog| |by apply IH].
  apply prog_bind_Next in H as (k1 & H1 & H). destruct (loop_new _ _ _ _ _ _ Hk H1) as (Hp & Hw & _).
  destruct bound; [by inv_prog|]. destruct (pending_close _ _ _ _ Hp) as (Hl & Hw2 & _).
  apply IH in H as [Hw3 Ho]; [|done]. by rewrite Hw3, Hw2, Hw.
Qed.

Lemma set_up_serving result getfl setfl listen_ efd ctl sfd k :
  set_up result getfl setfl listen_ efd ctl start = Next (sfd, k) →
  serving (standard ∪ {[efd]}) k ∧ watched k = {[sfd]}.
Proof.
  intros H. unfold set_up in H. apply prog_bind_Next in H as ([o k1] & H1 & H).
  assert (watched k1 = watched start ∧
    match o with None => loop_ok standard [] k1 | Some sfd => pending_ok standard [] sfd k1 end) as [Hw Hp].
  { unfold create_and_bind in H1. destruct result as [rp|]; [|by inv_prog]. by apply (bind_first_ok standard) in H1. }
  destruct o as [sfd'|]; [|done]. pose proof (make_non_blocking_cases sfd' getfl setfl k1) as Hc.
  destruct (make_socket_non_blocking sfd' getfl setfl k1) as [s k2]. inv_prog.
  repeat match goal with K : exit_unless _ = Next _ |- _ => apply exit_unless_Next in K end.
  destruct Hc as [[-> _]|[-> ->]]; [done|].
  destruct (pending_nonblock _ _ _ _ Hp) as ([Ho2 Hp2 Hn2 Hm2] & Hw2 & Hb2 & _).
  set (k2 := sys_nonblock sfd k1) in *. cbn in Hw. rewrite Hw in Hw2. rewrite Hw2 in *.
  match goal with K : sys_new _ _ _ = Next _ |- _ => apply sys_new_Next in K as (Hefd & -> & _) end.
  match goal with K : epoll_add _ _ = Next _ |- _ => unfold epoll_add in K; case_decide; inv_prog end.
  cbn. rewrite Ho2 in Hefd. clear - Ho2 Hn2 Hm2 Hb2 Hw2 Hefd. unfold standard in *.
  split; [|set_solver]. split; [split; cbn; [rewrite Ho2|..|done]; set_solver|set_solver|].
  cbn. rewrite Hb2. set_solver.
Qed.


(** A connection is accepted, sends, and ends; its number is used again, in the
    same batch, by the next one. *)
Definition readable (fd : Z) : epoll_event := Event fd true false false false.
Definition two_clients : list (list (epoll_event * event_answers)) :=
  [[(readable 3, EventAnswers [Accepted 5 2 0 0; AcceptFails true] [])];
   [(readable 5, EventAnswers [] [ReadData [104; 105] true; ReadEof]);
    (readable 3, EventAnswers [Accepted 5 2 0 0; AcceptFails true] [])]].

Definition after_set_up : Z * kernel :=
  match set_up (Some [(None, false); (Some 3, true)]) 2 0 0 4 0 start with Next r => r | _ => (0, start) end.
Definition after_two : kernel :=
  match event_loop after_set_up.1 two_clients after_set_up.2 with Next k => k | _ => start end.


(** ** The data *)

(** The reading loop prints all the data there is before the answer that ends
    it, which is not data; as the socket is edge-triggered, stopping earlier
    would leave data without a notification. *)
Lemma read_loop_drains answers k closed k' :
  1 ∈ opened k → read_loop answers k = Next (closed, k') →
  ∃ (bufs : list (list Z)) stop rest,
    answers = ((λ buf, ReadData buf true) <$> bufs) ++ stop :: rest ∧
    written k' = written k ++ ((λ buf, (1, buf)) <$> bufs) ∧
    closed = match stop with ReadFails again => negb again | _ => true end ∧
    (∀ buf, stop ≠ ReadData buf true).
Proof.
  revert k. induction answers as [|[buf printed| |again] answers IH]; intros k Ho H; cbn in H; [done| | |].
  - inv_prog. match goal with K : exit_unless _ = _ |- _ => apply exit_unless_Next in K as -> end.
    unfold sys_write in H. rewrite decide_True in H by done.
    apply IH in H as (bufs & stop & rest & -> & Hw & Hc & Hs); [|done]. cbn in Hw.
    exists (buf :: bufs), stop, rest. cbn. rewrite Hw, <- app_assoc. by split_and!.
  - inv_prog. exists [], ReadEof, answers. cbn. by rewrite app_nil_r.
  - inv_prog. exists [], (ReadFails again), answers. cbn. by rewrite app_nil_r.
Qed.
