(* ===== verification/EchoEpoll.v ===== *)
(** * epoll/server.c

    The echo server of [epoll/server.c], which counts its descriptors in
    [cur_fds] and gives this count to [epoll_wait] as the size of the array of
    events.  The answers of the system are arguments. *)

From S2P Require Import Prelude Epoll EpollExample.
Open Scope Z_scope.

Definition MAXEPOLL : Z := 10000.

(** [setnonblocking]; [setfl] is what [fcntl] answered to [F_SETFL]. *)
Definition setnonblocking (fd setfl : Z) (k : kernel) : Z * kernel :=
  if setfl =? -1 then (-1, k) else (0, sys_nonblock fd k).

(** The answers to the calls of the set-up. *)
Record set_up_answers : Type := SetUpAnswers {
  a_setrlimit : Z; a_socket : Z; a_fcntl : Z; a_bind : Z; a_listen : Z; a_epoll_create : Z; a_epoll_ctl : Z
}.

(** [main] up to the event loop: [listen_fd], [epoll_fd], [cur_fds]. *)
Definition server_set_up (a : set_up_answers) (k : kernel) : prog (Z * Z * (kernel * Z)) :=
  _ ← exit_unless (negb (a_setrlimit a =? -1));
  _ ← exit_unless (negb (a_socket a =? -1));
  let listen_fd := a_socket a in
  k1 ← sys_new (Some MAXEPOLL) listen_fd k;
  let '(s, k2) := setnonblocking listen_fd (a_fcntl a) k1 in
  _ ← exit_unless (negb (s =? -1));
  _ ← exit_unless (negb (a_bind a =? -1));
  _ ← exit_unless (negb (a_listen a =? -1));
  let epoll_fd := a_epoll_create a in
  k3 ← (if epoll_fd =? -1 then Next k2 else sys_new (Some MAXEPOLL) epoll_fd k2);
  _ ← exit_unless (negb (epoll_fd =? -1) && (0 <=? a_epoll_ctl a));
  k4 ← epoll_add listen_fd k3;
  Next (listen_fd, epoll_fd, (k4, 1)).

(** The answers to the calls an event leads to: [accept], with [epoll_ctl] on
    the descriptor it returned, and [read], [None] standing for a result that is
    not positive. *)
Record io_answers : Type := IoAnswers { a_accept : option (Z * Z); a_read : option (list Z) }.

(** One iteration of the loop over the events. *)
Definition serve_event (listen_fd : Z) (ea : epoll_event * io_answers) (st : kernel * Z) : prog (kernel * Z) :=
  let '(e, a) := ea in
  let '(k, cur_fds) := st in
  if (data_fd e =? listen_fd) && (cur_fds <? MAXEPOLL) then
    match a_accept a with
    | None => Exit
    | Some (conn_fd, ctl) =>
        k1 ← sys_new (Some MAXEPOLL) conn_fd k;
        _ ← exit_unless (0 <=? ctl);
        k2 ← epoll_add conn_fd k1;
        Next (k2, cur_fds + 1)
    end
  else
    match a_read a with
    | None => Next (epoll_del (data_fd e) (sys_close (data_fd e) k), cur_fds - 1)
    | Some buf => Next (sys_write (data_fd e) buf k, cur_fds)
    end.

Definition serve_events (listen_fd : Z) : list (epoll_event * io_answers) → kernel * Z → prog (kernel * Z) :=
  for_events (serve_event listen_fd).

(** [epoll_wait] fails ([None]), or gives at most [cur_fds] events. *)
Fixpoint serve (listen_fd : Z) (batches : list (option (list (epoll_event * io_answers)))) (st : kernel * Z) :
    prog (kernel * Z) :=
  match batches with
  | [] => Next st
  | None :: _ => Exit
  | Some evs :: batches =>
      _ ← epoll_wait st.2 evs st.1;
      st1 ← serve_events listen_fd evs st;
      serve listen_fd batches st1
  end.

(** ** The count of the descriptors *)

Definition private_fds (epoll_fd : Z) : gset Z := standard ∪ {[epoll_fd]}.

Record counted (epoll_fd listen_fd : Z) (st : kernel * Z) : Prop := Counted {
  cn_loop : loop_ok (private_fds epoll_fd) (misused st.1) st.1;
  cn_cur : st.2 = Z.of_nat (size (watched st.1));
  cn_listen : listen_fd ∈ watched st.1;
  cn_limit : Z.of_nat (size (opened st.1)) <= MAXEPOLL;
  cn_epoll : (epoll_fd ∉ standard)
}.

(** Four descriptors are never watched: the count stays below the limit. *)
Lemma counted_bound epoll_fd listen_fd st :
  counted epoll_fd listen_fd st → 1 <= st.2 <= MAXEPOLL - 4.
Proof.
  intros [[Ho Hp _] Hc Hl Hm He]. rewrite Ho, size_union in Hm by done. unfold private_fds in *.
  assert (size (standard ∪ {[epoll_fd]}) = 4%nat) as Hs.
  { rewrite size_union by set_solver. rewrite size_singleton. reflexivity. }
  rewrite Hs in Hm. split; [|lia].
  assert (size (watched st.1) ≠ 0%nat); [|lia]. intros E%size_empty_inv. set_solver.
Qed.

Lemma serve_event_counted epoll_fd listen_fd e a st st' :
  counted epoll_fd listen_fd st → data_fd e ∈ watched st.1 → serve_event listen_fd (e, a) st = Next st' →
  counted epoll_fd listen_fd st' ∧ watched st.1 ∖ {[data_fd e]} ⊆ watched st'.1.
Proof.
  intros Hk He H. pose proof (counted_bound _ _ _ Hk) as Hb. destruct Hk as [Hl Hc Hlis Hm Hep].
  destruct st as [k cur]. cbn in *. rewrite (proj2 (Z.ltb_lt _ _)), andb_true_r in H by (unfold MAXEPOLL in *; lia).
  destruct (data_fd e =? listen_fd) eqn:E; bools.
  - (* accepted *)
    destruct (a_accept a) as [[conn_fd ctl]|]; [|done]. inv_prog.
    match goal with K : sys_new _ _ _ = Next _ |- _ =>
      destruct (loop_new _ _ _ _ _ _ Hl K) as (Hp & Hw & _ & _); apply sys_new_Next in K as (Hfd & Hx & Hlim) end.
    match goal with K : epoll_add _ _ = Next _ |- _ =>
      pose proof K as Ha; destruct (pending_add _ _ _ _ _ Hp K) as (Hl' & Hw' & _ & _) end.
    unfold epoll_add in Ha. case_decide as Hin; inv_prog. cbn in *. destruct Hin as [_ Hnw].
    split; [|set_solver]. split; cbn; [|rewrite size_union, size_singleton by set_solver; lia|set_solver| |done].
    + destruct Hl' as [Ho' Hp' Hm']. by split.
    + rewrite size_union, size_singleton by set_solver. lia.
  - destruct (a_read a) as [buf|]; inv_prog.
    + (* echoed *)
      destruct (loop_write _ _ (data_fd e) buf k Hl) as ([Ho' Hp' Hm'] & Hw & _ & _); [set_solver|].
      assert (opened (sys_write (data_fd e) buf k) = opened k) as Hop by (rewrite Ho', Hw; symmetry; apply Hl).
      cbn. rewrite Hw. split; [|set_solver]. split; cbn; [by split|by rewrite Hw|by rewrite Hw|by rewrite Hop|done].
    + (* closed *)
      destruct (loop_close _ _ (data_fd e) k Hl He) as ([Ho' Hp' Hm'] & Hw & _ & _).
      assert (data_fd e ∉ opened (sys_close (data_fd e) k)) as Hno by (rewrite Ho', Hw; destruct Hl; set_solver).
      unfold epoll_del. rewrite decide_False by done. cbn. rewrite Hw. split; [|done].
      split; cbn; [by split|rewrite Hw|rewrite Hw; set_solver| |done].
      * rewrite size_difference by set_solver. rewrite size_singleton. lia.
      * rewrite Ho', Hw. transitivity (Z.of_nat (size (opened k))); [|done].
        apply inj_le, subseteq_size. destruct Hl as [-> _ _]. set_solver.
Qed.

Lemma serve_counted epoll_fd listen_fd batches st st' :
  counted epoll_fd listen_fd st → serve listen_fd batches st = Next st' → counted epoll_fd listen_fd st'.
Proof.
  revert st. induction batches as [|[evs|] batches IH]; intros st Hk H; cbn in H; [by inv_prog| |done].
  destruct (epoll_wait st.2 evs st.1) eqn:E; try done. cbn in H.
  apply epoll_wait_Next in E as (Hnd & Hin & _). apply prog_bind_Next in H as (st1 & H1 & H).
  apply (IH st1); [|done].
  apply (for_events_inv (serve_event listen_fd) (λ st, watched st.1) (counted epoll_fd listen_fd)) with evs st; [|done..].
  intros ev ans st2 st3. apply serve_event_counted.
Qed.

Lemma server_set_up_counted a listen_fd epoll_fd st :
  server_set_up a start = Next (listen_fd, epoll_fd, st) → counted epoll_fd listen_fd st.
Proof.
  intros H. unfold server_set_up, setnonblocking in H. inv_prog. destruct (a_fcntl a =? -1); cbn in H; [done|].
  inv_prog.
  match goal with K : exit_unless (_ && _) = _ |- _ => apply exit_unless_Next in K; apply andb_true_iff in K as [Hep _] end.
  destruct (a_epoll_create a =? -1); [done|].
  repeat match goal with K : sys_new _ _ _ = Next _ |- _ => apply sys_new_Next in K as (? & -> & ?) end.
  match goal with K : epoll_add _ _ = Next _ |- _ => unfold epoll_add in K; case_decide; inv_prog end.
  unfold sys_nonblock in *. rewrite (decide_True (P := a_socket a ∈ _)) in * by (cbn; set_solver). cbn in *.
  split; cbn.
  - unfold private_fds. split; cbn; [|set_solver|done]. clear. set_solver.
  - rewrite union_empty_l_L, size_singleton. done.
  - set_solver.
  - match goal with K : Z.of_nat (size (_ ∪ _)) < MAXEPOLL |- _ =>
      rewrite size_union, size_singleton by set_solver; unfold MAXEPOLL in *; lia end.
  - set_solver.
Qed.

(** C36: the count is right, and is enough.  [cur_fds] is the number of watched
    descriptors, the listening socket is one of them, and, as the limit set on
    the number of open descriptors is [MAXEPOLL], the count stays at most
    [MAXEPOLL - 4]: the guard [cur_fds < MAXEPOLL] never fails, a batch of
    events fits the array, and a deleted descriptor is the only closed one a
    call is made on. *)
Theorem cur_fds_counts a listen_fd epoll_fd batches st0 k cur_fds :
  server_set_up a start = Next (listen_fd, epoll_fd, st0) → serve listen_fd batches st0 = Next (k, cur_fds) →
  cur_fds = Z.of_nat (size (watched k)) ∧ listen_fd ∈ watched k ∧ 1 <= cur_fds <= MAXEPOLL - 4 ∧
  (∀ (evs : list (epoll_event * io_answers)) u, epoll_wait cur_fds evs k = Next u → Z.of_nat (length evs) < MAXEPOLL).
Proof.
  intros Hs Hr. apply server_set_up_counted in Hs. eapply serve_counted in Hr; [|done].
  pose proof (counted_bound _ _ _ Hr) as Hb. destruct Hr as [_ Hc Hl _ _]. cbn in *. split_and!; [done|done|lia|lia|].
  intros evs u Hw. apply epoll_wait_Next in Hw as (_ & _ & Hw). unfold MAXEPOLL in *. lia.
Qed.

(** A client connects, is echoed, and leaves. *)
Definition answers_ok : set_up_answers := SetUpAnswers 0 3 0 0 0 4 0.
Definition one_client : list (option (list (epoll_event * io_answers))) :=
  [Some [(readable 3, IoAnswers (Some (5, 0)) None)];
   Some [(readable 5, IoAnswers None (Some [104; 105]))];
   Some [(readable 3, IoAnswers (Some (6, 0)) None); (readable 5, IoAnswers None None)]].

Definition served_set_up : kernel * Z :=
  match server_set_up answers_ok start with Next (_, _, st) => st | _ => (start, 0) end.
Definition served_end : kernel * Z :=
  match serve 3 one_client served_set_up with Next st => st | _ => (start, 0) end.

Lemma cur_fds_counts_witness :
  written served_end.1 = [(5, [104; 105])] ∧ served_end.2 = 2 ∧
  served_end.2 = Z.of_nat (size (watched served_end.1)) ∧ 3 ∈ watched served_end.1 ∧
  1 <= served_end.2 <= MAXEPOLL - 4 ∧
  (∀ (evs : list (epoll_event * io_answers)) u,
     epoll_wait served_end.2 evs served_end.1 = Next u → Z.of_nat (length evs) < MAXEPOLL).
Proof.
  split; [vm_compute; reflexivity|]. split; [vm_compute; reflexivity|].
  eapply (cur_fds_counts answers_ok 3 4 one_client served_set_up); vm_compute; reflexivity.
Defined.
