(* ===== verification/EpollThreads.v ===== *)
(** * epoll_threadpool.c

    The HTTP server of [epoll/epoll_threadpool.c]: the loop of its epoll thread,
    on a global array of events, [handle_message] with its fixed buffers and the
    map of connections, [check_connect_timeout], [init_thread_pool] and [main]. *)

From Stdlib Require Import String Ascii.
From S2P Require Import Prelude Epoll CppLog.
Open Scope Z_scope.

(** The answer of a call that has to be waited for. *)
Definition answer {A} (p : prog A) : res A := match p with Next a => Done a | _ => Blocked end.

(** The text of [sprintf]. *)
Definition response : list Z :=
  wide "HTTP/1.0 200 OK" ++ [13; 10] ++ wide "Content-type: text/plain" ++ [13; 10; 13; 10] ++
  wide "Hello world!" ++ [10].

(** ** The epoll thread *)

(** The global [events[1024]], and the size given to [epoll_wait]. *)
Definition EVENTS : nat := 1024.
Definition MAXWAIT : Z := 4096.

(** [received] lists the descriptors [recv] was called on. *)
Record loop_state : Type := LoopState {
  kern : kernel;
  events : list epoll_event;
  count111 : Z;
  oldtime : Z;
  received : list Z
}.

Definition set_kern (k : kernel) (s : loop_state) : loop_state :=
  LoopState k (events s) (count111 s) (oldtime s) (received s).

(** What [accept] answered, with whether [errno] is [EAGAIN] and whether
    [epoll_ctl] succeeds. *)
Record accepted : Type := Accept { new_fd : Z; again : bool; ctl_ok : bool }.

(** The accepting loop: only [EAGAIN] ends it. *)
Fixpoint accept_connections (answers : list accepted) (k : kernel) : res kernel :=
  match answers with
  | [] => Blocked
  | a :: answers =>
      if 0 <? new_fd a then
        k1 ← answer (sys_new None (new_fd a) k);
        let k2 := sys_nonblock (new_fd a) k1 in
        k3 ← (if ctl_ok a then answer (epoll_add (new_fd a) k2) else Done k2);
        accept_connections answers k3
      else if again a then Done k
      else accept_connections answers k
  end.

(** What [recv] answered. *)
Inductive recv_answer : Type :=
  | Recv (ret : Z)
  | RecvFails (eagain : bool).

(** The descriptor of [events[n]]. *)
Definition nth_fd (n : nat) (s : loop_state) : res Z :=
  match events s !! n with Some e => Done (data_fd e) | None => Fault end.

(** The receiving loop for event [i] of [n]: the last value of [ret]. *)
Fixpoint receive (fd : Z) (n : nat) (answers : list recv_answer) (s : loop_state) : res (Z * loop_state) :=
  match answers with
  | [] => Blocked
  | a :: answers =>
      d ← nth_fd n s;
      let s1 := LoopState (kern s) (events s) (count111 s) (oldtime s) (received s ++ [d]) in
      match a with
      | RecvFails true => Done (-1, s1)
      | RecvFails false => Done (-1, set_kern (sys_close fd (epoll_del fd (kern s1))) s1)
      | Recv ret => if ret =? 1024 then receive fd n answers s1 else Done (ret, s1)
      end
  end.

(** The answers for one event; [nowtime] is read from the clock. *)
Record thread_answers : Type := ThreadAnswers {
  t_accepts : list accepted; t_recvs : list recv_answer; nowtime : Z
}.

Definition count_request (now : Z) (s : loop_state) : res loop_state :=
  c ← int_of (count111 s + 1);
  Done (if now =? oldtime s then LoopState (kern s) (events s) c (oldtime s) (received s)
        else LoopState (kern s) (events s) 0 now (received s)).

(** One iteration of the loop over the [n] events. *)
Definition handle_one (listenfd : Z) (n : nat) (e : epoll_event) (a : thread_answers) (s : loop_state) : res loop_state :=
  let fd := data_fd e in
  if fd =? listenfd then k ← accept_connections (t_accepts a) (kern s); Done (set_kern k s)
  else if EPOLLIN e then
    '(ret, s1) ← receive fd n (t_recvs a) s;
    s2 ← (if 0 <? ret then
            s2 ← count_request (nowtime a) s1;
            Done (set_kern (sys_write fd response (kern s2)) s2)
          else Done s1);
    Done (set_kern (sys_close fd (epoll_del fd (kern s2))) s2)
  else if EPOLLOUT e then Done (set_kern (sys_close fd (sys_write fd response (kern s))) s)
  else Done (set_kern (sys_close fd (kern s)) s).

Fixpoint handle_all (listenfd : Z) (n : nat) (evs : list (epoll_event * thread_answers)) (s : loop_state) : res loop_state :=
  match evs with
  | [] => Done s
  | (e, a) :: evs => s1 ← handle_one listenfd n e a s; handle_all listenfd n evs s1
  end.

(** [epoll_wait] writes the events it reports over the first ones of the
    array. *)
Definition store_events (evs : list epoll_event) (s : loop_state) : res loop_state :=
  if (length evs <=? length (events s))%nat then
    Done (LoopState (kern s) (evs ++ drop (length evs) (events s)) (count111 s) (oldtime s) (received s))
  else Fault.

(** One turn of [epoll_loop]. *)
Definition epoll_turn (listenfd : Z) (evs : list (epoll_event * thread_answers)) (s : loop_state) : res loop_state :=
  _ ← answer (epoll_wait MAXWAIT evs (kern s));
  s1 ← store_events evs.*1 s;
  handle_all listenfd (length evs) evs s1.

Definition no_event : epoll_event := Event 0 false false false false.
Definition initial_events : list epoll_event := replicate EVENTS no_event.

(** *** What is received *)

Lemma receive_spec fd n answers s ret s' :
  receive fd n answers s = Done (ret, s') →
  events s' = events s ∧
  ∃ d k, nth_fd n s = Done d ∧ received s' = received s ++ replicate k d.
Proof.
  revert s. induction answers as [|[r|[]] answers IH]; intros s H; cbn in H; [done|..]; inv_res;
    match goal with K : nth_fd n s = Done ?d |- _ => rename K into Hd; rename d into fd' end.
  - destruct (r =? 1024); inv_res.
    + apply IH in H as (He & d & k & Hd' & Hr). split; [done|].
      unfold nth_fd in Hd', Hd. cbn in Hd'. rewrite Hd in Hd'. injection Hd' as ->.
      exists d, (S k). split; [done|]. cbn in Hr. by rewrite Hr, <- app_assoc.
    + split; [done|]. by exists fd', 1%nat.
  - split; [done|]. by exists fd', 1%nat.
  - split; [done|]. by exists fd', 1%nat.
Qed.

Lemma handle_one_received listenfd n e a s s' :
  handle_one listenfd n e a s = Done s' →
  events s' = events s ∧
  (received s' = received s ∨ ∃ d k, nth_fd n s = Done d ∧ received s' = received s ++ replicate k d).
Proof.
  intros H. unfold handle_one in H. destruct (_ =? _); [inv_res; auto|].
  destruct (EPOLLIN e); [|destruct (EPOLLOUT e); inv_res; auto].
  apply bind_Done in H as ([ret s1] & H1 & H). apply receive_spec in H1 as (He & d & k & Hd & Hr).
  assert (∃ s2, events s2 = events s1 ∧ received s2 = received s1 ∧
            s' = set_kern (sys_close (data_fd e) (epoll_del (data_fd e) (kern s2))) s2) as (s2 & E1 & E2 & ->).
  { destruct (0 <? ret); [|inv_res; eauto]. unfold count_request in H. inv_res.
    eexists. split_and!; [| |reflexivity]; by case_match. }
  cbn. rewrite E1, E2. eauto 8.
Qed.

Lemma handle_all_received listenfd n evs s s' :
  handle_all listenfd n evs s = Done s' →
  events s' = events s ∧
  (received s' = received s ∨ ∃ d k, nth_fd n s = Done d ∧ received s' = received s ++ replicate k d).
Proof.
  revert s. induction evs as [|[e a] evs IH]; intros s H; cbn in H; [inv_res; auto|].
  apply bind_Done in H as (s1 & H1 & H). apply handle_one_received in H1 as [He Hr].
  apply IH in H as [He' Hr']. rewrite He', He. split; [done|]. unfold nth_fd in *. rewrite He in Hr'.
  destruct Hr' as [->|(d & k & Hd & Hr')]; [done|]. destruct Hr as [Hr|(d' & k' & Hd' & Hr)].
  - right. exists d, k. by rewrite Hr', Hr.
  - right. rewrite Hd in Hd'. injection Hd' as <-. exists d, (k' + k)%nat.
    split; [done|]. by rewrite Hr', Hr, <- app_assoc, replicate_add.
Qed.


(** The first message of a client: the standard input is not a socket, the
    connection is closed twice, and the client gets no answer. *)
Definition readable (fd : Z) : epoll_event := Event fd true false false false.
Definition connected : loop_state :=
  LoopState (Kernel {[0; 1; 2; 3; 4; 5]} {[3; 5]} {[3; 5]} [] []) initial_events 0 0 [].
Definition first_message : list (epoll_event * thread_answers) :=
  [(readable 5, ThreadAnswers [] [RecvFails false] 1)].
Definition after_message : loop_state :=
  match epoll_turn 3 first_message connected with Done s => s | _ => connected end.


(** The accepting loop spins while [accept] fails, for instance because there
    are no descriptors left: it does not return, however many answers it is
    given. *)
Lemma accept_connections_spins n fd ok k :
  fd <= 0 → accept_connections (replicate n (Accept fd false ok)) k = Blocked.
Proof. intros H. induction n as [|n IH]; cbn; [done|]. by rewrite (proj2 (Z.ltb_ge _ _)). Qed.

(** ** handle_message *)

Definition MAXRECVBUF : Z := 4096.
Definition MAXBUF : Z := MAXRECVBUF + 10.
Definition RECVBUF : Z := 1000.

(** [sockStruct]: the time of the last message, and the text in the buffer of
    [RECVBUF] bytes. *)
Record sockStruct : Type := SockStruct { last_time : Z; recvBuf : list Z }.

(** [blocks] counts the buffers allocated and not freed. *)
Record connections : Type := Connections { sock_map : gmap Z sockStruct; blocks : Z }.

Definition strlen (s : list Z) : Z := Z.of_nat (length s).

(** [strcat] into a block of [RECVBUF] bytes. *)
Definition strcat (dest src : list Z) : res (list Z) :=
  if strlen dest + strlen src <? RECVBUF then Done (dest ++ src) else Fault.

(** [char bufSend[1000]]: [send] of its first [n] bytes. *)
Definition send_bytes (n : Z) : res (list Z) :=
  if n <=? 1000 then Done (take (Z.to_nat n) (response ++ replicate 1000 0)) else Fault.

(** The message is stored in the map, from which the connection is then
    removed.  [received] is [None] when [recv] fails; [buf] is initialised with
    zeros, and is larger than what is received. *)
Definition handle_message (new_fd : Z) (received : option (list Z)) (now : Z) (k : kernel) (c : connections) :
    res (Z * kernel * connections) :=
  let buf := c_str match received with Some data => data | None => [] end in
  bytes ← send_bytes (strlen buf);
  let k1 := sys_write new_fd bytes k in
  match received with
  | None | Some [] => Done (-1, k1, c)
  | Some data =>
      c1 ← match sock_map c !! new_fd with
           | None => text ← strcat [] buf; Done (Connections (<[new_fd := SockStruct now text]> (sock_map c)) (blocks c + 1))
           | Some s => text ← strcat (recvBuf s) buf; Done (Connections (<[new_fd := SockStruct now text]> (sock_map c)) (blocks c))
           end;
      match sock_map c1 !! new_fd with
      | None => Fault
      | Some _ =>
          Done (Z.of_nat (length data), sys_close new_fd k1, Connections (delete new_fd (sock_map c1)) (blocks c1 - 1))
      end
  end.

(** The text stored for a connection. *)
Definition stored (fd : Z) (c : connections) : list Z :=
  match sock_map c !! fd with Some s => recvBuf s | None => [] end.



(** ** check_connect_timeout *)

(** The connections in the order of the hash map.  Erasing the entry of an
    iterator invalidates the iterator, which is then read by [close]. *)
Fixpoint check_connect_timeout (now : Z) (entries : list (Z * sockStruct)) : res unit :=
  match entries with
  | [] => Done tt
  | (_, s) :: entries => if 120 <? now - last_time s then Fault else check_connect_timeout now entries
  end.

(** As soon as a connection has timed out the behaviour is undefined. *)
Lemma check_connect_timeout_outcome now entries :
  check_connect_timeout now entries =
    if forallb (λ e, now - last_time e.2 <=? 120) entries then Done tt else Fault.
Proof.
  induction entries as [|[fd s] entries IH]; cbn; [done|].
  rewrite IH, Z.ltb_antisym. by destruct (_ <=? 120).
Qed.

(** ** init_thread_pool *)

(** What [pthread_create] answers for the epoll threads, and for the thread that
    checks the timeouts, which is not looked at: the return code, and the number
    of epoll threads and of checking threads started. *)
Fixpoint init_thread_pool (rets : list Z) (last : Z) : Z * nat * nat :=
  match rets with
  | [] => (0, 0%nat, if last =? 0 then 1%nat else 0%nat)
  | ret :: rets =>
      if ret =? 0 then let '(r, n, m) := init_thread_pool rets last in (r, S n, m) else (-1, 0%nat, 0%nat)
  end.

Lemma init_thread_pool_success rets last :
  (init_thread_pool rets last).1.1 = 0 ↔ Forall (λ r, r = 0) rets.
Proof.
  induction rets as [|r rets IH]; cbn; [by split|]. rewrite Forall_cons, <- IH.
  destruct (r =? 0) eqn:E; bools; [|cbn; naive_solver]. destruct (init_thread_pool rets last) as [[??]?]. naive_solver.
Qed.

(** ** main *)

(** [fd_Setnonblocking]; [op] is what [fcntl] answers to [F_GETFL]. *)
Definition fd_Setnonblocking (fd op : Z) (k : kernel) : Z * kernel := (op, sys_nonblock fd k).

(** The answers of the calls, of which none is looked at. *)
Record main_answers : Type := MainAnswers {
  ma_threads : list Z; ma_check : Z; ma_socket : Z; ma_getfl : Z; ma_epoll_create : Z; ma_ctl_ok : bool
}.

(** [main], which starts its one epoll thread first, up to the loop that sleeps:
    what [init_thread_pool] answered, and the descriptors. *)
Definition http_main (a : main_answers) (k : kernel) : prog (Z * nat * nat * kernel) :=
  let threads := init_thread_pool (ma_threads a) (ma_check a) in
  k1 ← (if ma_socket a <? 0 then Next k else sys_new None (ma_socket a) k);
  let '(_, k2) := fd_Setnonblocking (ma_socket a) (ma_getfl a) k1 in
  k3 ← (if ma_epoll_create a <? 0 then Next k2 else sys_new None (ma_epoll_create a) k2);
  k4 ← (if ma_ctl_ok a then epoll_add (ma_socket a) k3 else Next k3);
  Next (threads, k4).

(** It never ends, whatever fails: a server that could not watch its socket, or
    has no thread, sleeps like one that works. *)
Lemma http_main_goes_on a k : http_main a k ≠ Exit.
Proof.
  unfold http_main, fd_Setnonblocking.
  assert (∀ fd k, (if fd <? 0 then Next k else sys_new None fd k) ≠ Exit) as Hn.
  { intros fd k0. unfold sys_new. repeat case_match; done. }
  destruct (if ma_socket a <? 0 then _ else _) as [k1| |] eqn:E1; [|by apply Hn in E1|done]. cbn [mbind prog_bind].
  destruct (if ma_epoll_create a <? 0 then _ else _) as [k3| |] eqn:E2; [|by apply Hn in E2|done]. cbn [mbind prog_bind].
  destruct (ma_ctl_ok a); [unfold epoll_add; by case_decide|done].
Qed.

(** When the calls succeed the listening socket is watched and does not block. *)
Lemma http_main_listens a k threads k' :
  0 <= ma_socket a → 0 <= ma_epoll_create a → ma_ctl_ok a = true → http_main a k = Next (threads, k') →
  threads = init_thread_pool (ma_threads a) (ma_check a) ∧
  opened k' = opened k ∪ {[ma_socket a; ma_epoll_create a]} ∧ watched k' = watched k ∪ {[ma_socket a]} ∧
  nonblocking k' = nonblocking k ∪ {[ma_socket a]} ∧ misused k' = misused k.
Proof.
  intros Hs He Hc H. unfold http_main, fd_Setnonblocking in H.
  rewrite (proj2 (Z.ltb_ge _ _) Hs), (proj2 (Z.ltb_ge _ _) He), Hc in H. inv_prog.
  repeat match goal with K : sys_new _ _ _ = Next _ |- _ => apply sys_new_Next in K as (? & -> & _) end.
  match goal with K : epoll_add _ _ = Next _ |- _ => unfold epoll_add in K; case_decide; inv_prog end.
  unfold sys_nonblock. cbn [opened set_opened]. rewrite decide_True by set_solver. cbn. split_and!; try done. set_solver.
Qed.
