(* ===== verification/WorkerThreads.v ===== *)
(** * WorkerThreads.c

    The rounds of [WorkerThreads.c]: a main thread that broadcasts the start of
    each batch and counts the completions, and workers that hand over the number
    of their batch through [TheCompletedBatch].  Two mutexes, two condition
    variables, and no predicate is tested again around the waits. *)

From S2P Require Import Prelude Pthread.
Open Scope Z_scope.

Definition NUMBER_OF_WORKER_THREADS : nat := 30.
Definition NUMBER_OF_WORKING_ROUNDS : nat := 4.
Definition BOGUS : Z := 99.

Definition StartWorkCondition : nat := 0.
Definition CompleteCondition : nat := 1.

(** The global variables; [completions] is what the main thread has printed,
    [batches] the batches the workers have begun. *)
Record globals : Type := Globals {
  StartWorkMutex : mutex;
  CompleteMutex : mutex;
  WorkOn : bool;
  Round : Z;
  MainThreadWaiting : bool;
  TheCompletedBatch : Z;
  completions : list Z;
  batches : list (nat * Z)
}.

(** The points of [WorkerThread] and of [main], which has [X] rounds to go and
    [Y] completions to wait for. *)
Inductive point : Type :=
  | WLockStart
  | WSleep
  | WWaiting
  | WWoken
  | WBegin
  | WWork
  | WLockComplete
  | WTest
  | WReport
  | WLockStartAgain
  | WSignal
  | WUnlockComplete
  | WUnlockExit
  | WExited
  | MCreate (n : nat)
  | MLockStart (X : nat)
  | MSetRound (X : nat)
  | MBroadcast (X : nat)
  | MUnlockStart (X : nat)
  | MSleep (X Y : nat)
  | MWaiting (X Y : nat)
  | MWoken (X Y : nat)
  | MReceive (X Y : nat)
  | MUnlockComplete (X : nat)
  | MStop
  | MLastBroadcast
  | MLastUnlock
  | MJoin
  | MDone.

#[export] Instance point_eq_dec : EqDecision point.
Proof. solve_decision. Defined.

Definition set_mutexes (a b : mutex) (s : globals) : globals :=
  Globals a b (WorkOn s) (Round s) (MainThreadWaiting s) (TheCompletedBatch s) (completions s) (batches s).
Definition set_round (w : bool) (r : Z) (s : globals) : globals :=
  Globals (StartWorkMutex s) (CompleteMutex s) w r (MainThreadWaiting s) (TheCompletedBatch s) (completions s) (batches s).
Definition set_waiting (w : bool) (s : globals) : globals :=
  Globals (StartWorkMutex s) (CompleteMutex s) (WorkOn s) (Round s) w (TheCompletedBatch s) (completions s) (batches s).
Definition set_completed (b : Z) (cs : list Z) (bs : list (nat * Z)) (s : globals) : globals :=
  Globals (StartWorkMutex s) (CompleteMutex s) (WorkOn s) (Round s) (MainThreadWaiting s) b cs bs.

Definition lock_start (t : nat) (s : globals) : res globals :=
  m ← mutex_lock t (StartWorkMutex s); Done (set_mutexes m (CompleteMutex s) s).
Definition unlock_start (t : nat) (s : globals) : res globals :=
  m ← mutex_unlock t (StartWorkMutex s); Done (set_mutexes m (CompleteMutex s) s).
Definition lock_complete (t : nat) (s : globals) : res globals :=
  m ← mutex_lock t (CompleteMutex s); Done (set_mutexes (StartWorkMutex s) m s).
Definition unlock_complete (t : nat) (s : globals) : res globals :=
  m ← mutex_unlock t (CompleteMutex s); Done (set_mutexes (StartWorkMutex s) m s).

Definition presult : Type := globals * point * option (effect point).

Definition goes (r : res globals) (next : point) : res presult := s ← r; Done (s, next, None).

(** [WorkerThread]; a thread's number is its position after the main thread. *)
Definition WorkerThread (t : nat) (s : globals) (l : point) : res presult :=
  match l with
  | WLockStart => goes (lock_start t s) WSleep
  | WSleep => goes (unlock_start t s) WWaiting
  | WWoken => goes (lock_start t s) WBegin
  | WBegin =>
      if WorkOn s then
        goes (unlock_start t (set_completed (TheCompletedBatch s) (completions s) (batches s ++ [(t, Round s)]) s)) WWork
      else Done (s, WUnlockExit, None)
  | WUnlockExit => goes (unlock_start t s) WExited
  | WWork => Done (s, WLockComplete, None)
  | WLockComplete => goes (lock_complete t s) WTest
  | WTest =>
      if MainThreadWaiting s then Done (set_waiting false s, WReport, None)
      else goes (unlock_complete t s) WLockComplete
  | WReport =>
      Done (set_completed (Z.of_nat (t - 1)) (completions s) (batches s) s, WLockStartAgain, None)
  | WLockStartAgain => goes (lock_start t s) WSignal
  | WSignal => Done (s, WUnlockComplete, Some (Signal CompleteCondition))
  | WUnlockComplete => goes (unlock_complete t s) WSleep
  | _ => Blocked
  end.

(** [main]; [sleep(1)] leaves the scheduler free. *)
Definition main_thread (ls : list point) (t : nat) (rounds : nat) (s : globals) (l : point) : res presult :=
  match l with
  | MCreate n =>
      match n with
      | S n => Done (s, MCreate n, Some (Spawn WLockStart))
      | O => Done (s, MLockStart rounds, None)
      end
  | MLockStart O => goes (lock_start t s) MStop
  | MLockStart (S X) => goes (lock_start t s) (MSetRound X)
  | MSetRound X => goes (lock_complete t (set_round true ((Round s + 1) mod 4294967296) s)) (MBroadcast X)
  | MBroadcast X => Done (s, MUnlockStart X, Some (Broadcast StartWorkCondition))
  | MUnlockStart X => goes (unlock_start t s) (MSleep X (length ls - 1))
  | MSleep X O => Done (s, MUnlockComplete X, None)
  | MSleep X (S Y) => goes (unlock_complete t (set_waiting true s)) (MWaiting X Y)
  | MWoken X Y => goes (lock_complete t s) (MReceive X Y)
  | MReceive X Y =>
      Done (set_completed (TheCompletedBatch s) (completions s ++ [TheCompletedBatch s]) (batches s) s, MSleep X Y, None)
  | MUnlockComplete X => goes (unlock_complete t s) (MLockStart X)
  | MStop => Done (set_round false (Round s) s, MLastBroadcast, None)
  | MLastBroadcast => Done (s, MLastUnlock, Some (Broadcast StartWorkCondition))
  | MLastUnlock => goes (unlock_start t s) MJoin
  | MJoin =>
      if forallb (λ l, bool_decide (l = WExited)) (tail ls) then
        '(_, b) ← mutex_destroy (CompleteMutex s); '(_, a) ← mutex_destroy (StartWorkMutex s);
        Done (set_mutexes a b s, MDone, None)
      else Blocked
  | _ => Blocked
  end.

Definition is_main (l : point) : bool :=
  match l with
  | MCreate _ | MLockStart _ | MSetRound _ | MBroadcast _ | MUnlockStart _ | MSleep _ _ | MWaiting _ _ | MWoken _ _
  | MReceive _ _ | MUnlockComplete _ | MStop | MLastBroadcast | MLastUnlock | MJoin | MDone => true
  | _ => false
  end.

(** The number of rounds is a parameter of the threads. *)
Definition worker_threads_step (rounds : nat) (ls : list point) (t : nat) (x : unit) (s : globals) (l : point) : res presult :=
  if is_main l then main_thread ls t rounds s l else WorkerThread t s l.

Definition point_waits_on (l : point) : option nat :=
  match l with WWaiting => Some StartWorkCondition | MWaiting _ _ => Some CompleteCondition | _ => None end.
Definition point_woken (l : point) : point :=
  match l with WWaiting => WWoken | MWaiting X Y => MWoken X Y | _ => l end.

Section rounds.
Context (rounds : nat).

#[export] Program Instance worker_threads_program : Program unit globals point := {|
  tstep := worker_threads_step rounds;
  waits_on := point_waits_on;
  woken := point_woken
|}.
Next Obligation. by intros ls t x s [] r [c Hc]. Qed.
Next Obligation. by intros [] [c Hc]. Qed.

(** [main] with [workers] threads to create. *)
Definition initial (workers : nat) : config globals point :=
  (Globals MFree MFree false 0 false BOGUS [] [], [MCreate workers]).

Definition anything (x : unit) : Prop := True.
End rounds.

(** ** Mutual exclusion *)

(** Opens up the hypothesis [H] that a thread made a step, by program point. *)
Ltac round_cases H :=
  match type of H with tstep ?ls ?t ?x ?s ?l = _ =>
    tryif is_var l then destruct l else idtac; cbn [tstep worker_threads_program worker_threads_step is_main] in H;
    unfold WorkerThread, main_thread, goes, lock_start, unlock_start, lock_complete, unlock_complete in H;
    split_matches H; inv_mutex; subst; try discriminate;
    cbn [StartWorkMutex CompleteMutex WorkOn Round MainThreadWaiting TheCompletedBatch completions batches
         set_mutexes set_round set_waiting set_completed] in *
  end.

Definition in_start (l : point) : bool :=
  match l with
  | WSleep | WBegin | WUnlockExit | WSignal | WUnlockComplete | MSetRound _ | MBroadcast _ | MUnlockStart _
  | MStop | MLastBroadcast | MLastUnlock => true
  | _ => false
  end.
Definition in_complete (l : point) : bool :=
  match l with
  | WTest | WReport | WLockStartAgain | WSignal | WUnlockComplete | MBroadcast _ | MUnlockStart _ | MSleep _ _
  | MReceive _ _ | MUnlockComplete _ => true
  | _ => false
  end.

Section exclusion.
Context {rounds : nat}.
#[local] Existing Instance worker_threads_program.

Lemma spawn_WLockStart ls t x s l s' l' k :
  tstep (Program := worker_threads_program rounds) ls t x s l = Done (s', l', Some (Spawn k)) → k = WLockStart.
Proof. intros H. by round_cases H. Qed.

Lemma destroy_cases m z m' : mutex_destroy m = Done (z, m') → m' = m ∨ (m = MFree ∧ m' = MUninit).
Proof. destruct m; cbn; naive_solver. Qed.

#[export] Instance start_locking :
  Locking (P := worker_threads_program rounds) anything (λ _ _, True) StartWorkMutex in_start False.
Proof.
  split.
  - intros ls t x s l s' l' e _ _ Hl Hs; round_cases Hs; cbn [in_start];
      repeat match goal with K : _ = MFree |- _ => rewrite K | K : _ = MHeld _ |- _ => rewrite K end;
      try by constructor.
    match goal with K : mutex_destroy (StartWorkMutex _) = _ |- _ => apply destroy_cases in K as [->|[K ->]]; rewrite ?K end;
      by constructor.
  - intros ls t x s l s' l' k Hs. by rewrite (spawn_WLockStart _ _ _ _ _ _ _ _ Hs).
  - intros l Hw. destruct l; cbn in *; by destruct Hw.
Qed.

#[export] Instance complete_locking :
  Locking (P := worker_threads_program rounds) anything (λ _ _, True) CompleteMutex in_complete False.
Proof.
  split.
  - intros ls t x s l s' l' e _ _ Hl Hs; round_cases Hs; cbn [in_complete];
      repeat match goal with K : _ = MFree |- _ => rewrite K | K : _ = MHeld _ |- _ => rewrite K end;
      try by constructor.
    match goal with K : mutex_destroy (CompleteMutex _) = _ |- _ => apply destroy_cases in K as [->|[K ->]]; rewrite ?K end;
      by constructor.
  - intros ls t x s l s' l' k Hs. by rewrite (spawn_WLockStart _ _ _ _ _ _ _ _ Hs).
  - intros l Hw. destruct l; cbn in *; by destruct Hw.
Qed.

(** The variables of each set are accessed by one thread at a time. *)
Lemma rounds_exclusion workers s ls t1 t2 l1 l2 :
  reachable (P := worker_threads_program rounds) anything (initial workers) (s, ls) →
  ls !! t1 = Some l1 → ls !! t2 = Some l2 →
  (in_start l1 = true → in_start l2 = true → t1 = t2) ∧ (in_complete l1 = true → in_complete l2 = true → t1 = t2).
Proof.
  intros Hr H1 H2.
  assert (owner_inv StartWorkMutex in_start s ls ∧ owner_inv CompleteMutex in_complete s ls) as [Ha Hb].
  { apply (invariant_reachable anything (λ cf, owner_inv StartWorkMutex in_start cf.1 cf.2 ∧
      owner_inv CompleteMutex in_complete cf.1 cf.2)) in Hr; [done| |].
    - split; intros [|t] l Hl; by simplify_eq/=.
    - intros [s1 ls1] [s2 ls2] [Ho Ho'] Hst. split; [by eapply (owner_inv_step False (K := start_locking))|
        by eapply (owner_inv_step False (K := complete_locking))]. }
  split; intros ??; [eapply mutual_exclusion; [exact Ha|done..]|eapply mutual_exclusion; [exact Hb|done..]].
Qed.
End exclusion.

(** ** Deadlocks *)

Definition go (t n : nat) : list (event unit) := replicate n (Run t tt 0).

(** No thread can make a step; only a spurious wakeup could. *)
Definition stuck (rounds : nat) (s : globals) (ls : list point) : Prop :=
  ∀ t x w cf, exec (P := worker_threads_program rounds) (Run t x w) (s, ls) ≠ Done cf.

Lemma rounds_script rounds (evs : list (event unit)) cf :
  forallb (event_okb (λ _, true)) evs = true →
  reachable (P := worker_threads_program rounds) anything cf
    ((final (P := worker_threads_program rounds) evs cf).1, (final (P := worker_threads_program rounds) evs cf).2).
Proof. by apply final_reachable. Qed.

Lemma both_waiting rounds s X Y : stuck rounds s [MWaiting X Y; WWaiting].
Proof. intros [|[|t]] x w cf Hex; done. Qed.

Lemma crossed_locks rounds s X :
  StartWorkMutex s = MHeld 0 → CompleteMutex s = MHeld 1 → stuck rounds s [MSetRound X; WLockStartAgain].
Proof.
  intros Ha Hb [|[|t]] x w cf Hex; [..|done]; cbn in Hex.
  - unfold lock_complete in Hex. cbn in Hex. by rewrite Hb in Hex.
  - unfold lock_start in Hex. by rewrite Ha in Hex.
Qed.

