(* ===== verification/Sockets.v ===== *)
(** * Blocking sockets

    The servers [network_programming/multi_server.c] and
    [network_programming/server.c] and the client of [network_programming], with
    the clients of [epoll/]: what they do with their character arrays, where
    reading what was not written, or past the end, is undefined. *)

From Stdlib Require Import String Ascii.
From S2P Require Import Prelude CppLog.
Open Scope Z_scope.

(** ** Character arrays *)

(** An array of [char]; [None] is a byte that was not written. *)
Abbreviation chars := (list (option Z)).

Definition uninitialised (n : nat) : chars := replicate n None.

(** Writing bytes at the start of an array. *)
Definition fill (data : list Z) (b : chars) : res chars :=
  if (length data <=? length b)%nat then Done ((Some <$> data) ++ drop (length data) b) else Fault.

(** [strlen], with the bytes before the null character. *)
Fixpoint c_string (b : chars) : res (list Z) :=
  match b with
  | [] => Fault
  | None :: _ => Fault
  | Some c :: b => if c =? 0 then Done [] else s ← c_string b; Done (c :: s)
  end.

Lemma c_string_terminated data b : 0 ∈ data → c_string ((Some <$> data) ++ b) = Done (c_str data).
Proof.
  induction data as [|c data IH]; intros H; [by apply not_elem_of_nil in H|]. cbn.
  destruct (c =? 0) eqn:E; [done|]. bools. apply elem_of_cons in H as [<-|H]; [done|]. by rewrite IH.
Qed.

Lemma c_string_unterminated data b :
  0 ∉ data → c_string ((Some <$> data) ++ b) = (s ← c_string b; Done (data ++ s)).
Proof.
  induction data as [|c data IH]; intros H; cbn.
  - by destruct (c_string b).
  - apply not_elem_of_cons in H as [Hc H]. rewrite (proj2 (Z.eqb_neq c 0)) by congruence.
    rewrite IH by done. by destruct (c_string b).
Qed.

(** ** The echoing servers *)

Definition MESSAGE : nat := 2000.

(** The loop of [connection_handler], and of the server of [server.c]: the data
    of the successive calls of [recv] that return some, and what is written. *)
Fixpoint echo_loop (received : list (list Z)) (client_message : chars) : res (list (list Z)) :=
  match received with
  | [] => Done []
  | data :: received =>
      b ← fill data client_message;
      s ← c_string b;
      out ← echo_loop received b;
      Done (s :: out)
  end.

Definition greeting : list (list Z) :=
  [wide "Greetings! I am your connection handler" ++ [10];
   wide "Now type something and I shall repeat what you type " ++ [10]].

(** [connection_handler]; the socket is not closed at the end. *)
Definition connection_handler (received : list (list Z)) : res (list (list Z)) :=
  out ← echo_loop received (uninitialised MESSAGE); Done (greeting ++ out).

(** A block of [size] bytes receives an [int]. *)
Definition store_int (size : Z) : res unit := check (4 <=? size).

(** The loop of [main] in [multi_server.c]: what [accept] answers each time, and
    whether [pthread_create] returns a negative number; the return value. *)
Fixpoint multi_server_loop (socks : list (Z * bool)) : res Z :=
  match socks with
  | [] => Blocked
  | (client_sock, create_fails) :: socks =>
      if client_sock =? 0 then Done 0
      else
        _ ← store_int 1;
        if create_fails : bool then Done 1 else multi_server_loop socks
  end.

(** A string literal with its null character, and [send] of its first [n]
    bytes. *)
Definition literal (s : list Z) : chars := (Some <$> s) ++ [Some 0].
Definition send_prefix (n : nat) (b : chars) : res chars :=
  if (n <=? length b)%nat then Done (take n b) else Fault.

(** [main] of [server.c] once a client is accepted. *)
Definition single_server (received : list (list Z)) : res (list (list Z)) :=
  _ ← send_prefix 37 (literal (wide "This is a test string from server!" ++ [10]));
  echo_loop received (uninitialised MESSAGE).

(** Messages that bring their null character are echoed up to it. *)
Lemma echo_loop_terminated received b :
  length b = MESSAGE → Forall (λ m, 0 ∈ m ∧ (length m <= MESSAGE)%nat) received →
  echo_loop received b = Done (c_str <$> received).
Proof.
  intros Hb H. revert b Hb. induction H as [|m received [Hm Hl] _ IH]; intros b Hb; [done|].
  cbn [echo_loop]. unfold fill. rewrite Hb, (proj2 (Nat.leb_le _ _)) by done. cbn [mbind res_bind].
  rewrite c_string_terminated by done. cbn [mbind res_bind].
  rewrite IH by (rewrite length_app, length_fmap, length_drop; lia). done.
Qed.

(** Dropping less than the text keeps the null character. *)
Lemma c_str_drop m k :
  0 ∈ m → (k <= length (c_str m))%nat → 0 ∈ drop k m ∧ c_str (drop k m) = drop k (c_str m).
Proof.
  revert k. induction m as [|c m IH]; intros k H Hk; [by apply not_elem_of_nil in H|].
  destruct k as [|k]; [done|]. cbn in Hk |- *. destruct (c =? 0) eqn:E; cbn in Hk; [lia|]. bools.
  apply elem_of_cons in H as [<-|H]; [done|]. apply IH; [done|lia].
Qed.



(** [malloc(1)] cannot hold the descriptor: the first connection is already
    undefined behaviour. *)
Lemma multi_server_first_connection client_sock create_fails socks :
  client_sock ≠ 0 → multi_server_loop ((client_sock, create_fails) :: socks) = Fault.
Proof. intros H. cbn. by rewrite (proj2 (Z.eqb_neq _ _)). Qed.

(** The string sent by [server.c] has 36 bytes, of which 37 are sent. *)
Lemma single_server_overruns received : single_server received = Fault.
Proof. reflexivity. Qed.

(** ** The client of network_programming *)

(** The first message: 299 bytes at most in an array of 300, terminated. *)
Definition MAXDATASIZE : nat := 300.
Definition receive_greeting (data : list Z) : res (list Z) :=
  if (length data <=? MAXDATASIZE - 1)%nat then
    b ← fill data (uninitialised MAXDATASIZE);
    b1 ← arr_set b (Z.of_nat (length data)) (Some 0);
    c_string b1
  else Blocked.

Lemma receive_greeting_prints data :
  (length data <= MAXDATASIZE - 1)%nat → receive_greeting data = Done (c_str data).
Proof.
  intros H. unfold receive_greeting, fill. rewrite (proj2 (Nat.leb_le _ _)) by done.
  unfold uninitialised. rewrite length_replicate, (proj2 (Nat.leb_le _ _)) by (unfold MAXDATASIZE in *; lia).
  cbn [mbind res_bind]. rewrite drop_replicate.
  destruct (MAXDATASIZE - length data)%nat as [|n] eqn:E; [unfold MAXDATASIZE in *; lia|].
  rewrite arr_set_in by (rewrite length_app, length_fmap, length_replicate; lia). cbn [mbind res_bind].
  rewrite Nat2Z.id. cbn [replicate].
  rewrite insert_app_r_alt by (by rewrite length_fmap). rewrite length_fmap, Nat.sub_diag. cbn.
  destruct (decide (0 ∈ data)) as [Hin|Hn]; [by rewrite c_string_terminated|].
  rewrite c_string_unterminated by done. cbn. rewrite app_nil_r. f_equal. symmetry. apply c_str_id.
  apply Forall_forall. intros x Hx ->. done.
Qed.

(** The loop: the word typed, whether [send] succeeds, and the reply ([None]
    when [recv] fails); what is printed and the return value. *)
Fixpoint client_loop (turns : list (list Z * bool * option (list Z))) (server_reply : chars) : res (list (list Z) * Z) :=
  match turns with
  | [] => Blocked
  | (word, sent, reply) :: turns =>
      _ ← check (length word <? 1000)%nat;
      if negb sent then Done ([], 1)
      else
        match reply with
        | None => Done ([], 0)
        | Some data =>
            b ← fill data server_reply;
            s ← c_string b;
            '(out, r) ← client_loop turns b;
            Done (s :: out, r)
        end
  end.

(** The servers send no null character: the client reads past their answer. *)
Lemma client_reads_past_the_echo word m turns :
  0 ∈ m → (length m <= MESSAGE)%nat →
  client_loop ((word, true, Some (c_str m)) :: turns) (uninitialised MESSAGE) = Fault.
Proof.
  intros Hm Hl. cbn [client_loop]. unfold check. destruct (_ <? 1000)%nat; [|done]. cbn [mbind res_bind negb].
  assert (0 ∉ c_str m) as Hz.
  { clear. induction m as [|c m IH]; cbn; [apply not_elem_of_nil|].
    destruct (c =? 0) eqn:E; [apply not_elem_of_nil|]. bools. apply not_elem_of_cons. by split. }
  assert (length (c_str m) < MESSAGE)%nat as Hlt.
  { clear Hz. revert Hl. generalize MESSAGE. induction m as [|c m IH]; intros k Hl; [by apply not_elem_of_nil in Hm|].
    cbn in *. destruct (c =? 0) eqn:E; cbn; [lia|]. bools.
    apply elem_of_cons in Hm as [<-|Hm]; [done|]. destruct k; [lia|]. specialize (IH Hm k). lia. }
  unfold fill, uninitialised. rewrite length_replicate, (proj2 (Nat.leb_le _ _)) by lia. cbn [mbind res_bind].
  rewrite c_string_unterminated by done. rewrite drop_replicate.
  by destruct (MESSAGE - length (c_str m))%nat.
Qed.

(** ** epoll/client.c *)

Definition MAXLINE : nat := 1024.
Definition zeros : chars := replicate MAXLINE (Some 0).

(** How a turn of [send_and_recv] ends, with what it printed of the messages
    received and what it sent: the loop goes on, the function returns, or the
    process exits. *)
Inductive turn_end : Type :=
  | Goes (printed sent : list (list Z))
  | Leaves (printed : list (list Z))
  | Exits (printed : list (list Z)).

(** The part of a turn of [send_and_recv] for the connection, when it is ready:
    what [read] gave, nothing when it failed or at the end. *)
Definition from_server (data : list Z) : res turn_end :=
  match data with
  | [] => Done (Leaves [])
  | _ =>
      b ← fill data zeros;
      lens ← c_string b;
      b1 ← arr_set b (Z.of_nat (length lens)) (Some 0);
      Done (Goes [default 0 <$> b1] [])
  end.

(** The part for the standard input: the line [fgets] gave. *)
Definition from_input (line : option (list Z)) : res turn_end :=
  match line with
  | None => Done (Exits [])
  | Some line =>
      b ← fill line zeros;
      text ← c_string b;
      b1 ← arr_set b (Z.of_nat (length text) - 1) (Some 0);
      s ← c_string b1;
      Done (if decide (s = wide "q") then Leaves [] else Goes [] [s])
  end.

(** A turn: [None] for what is not ready. *)
Definition select_turn (conn : option (list Z)) (input : option (option (list Z))) : res turn_end :=
  r ← (match conn with Some data => from_server data | None => Done (Goes [] []) end);
  match r, input with
  | Goes p s, Some line =>
      r' ← from_input line;
      Done (match r' with
            | Goes p' s' => Goes (p ++ p') (s ++ s')
            | Leaves p' => Leaves (p ++ p')
            | Exits p' => Exits (p ++ p')
            end)
  | _, _ => Done r
  end.

(** A line without null character loses its last character, a newline or not. *)
Lemma from_input_strips_last line c :
  0 ∉ line → (length line < MAXLINE - 1)%nat → c ≠ 0 →
  from_input (Some (line ++ [c])) = Done (if decide (line = wide "q") then Leaves [] else Goes [] [line]).
Proof.
  intros Hz Hl Hc. unfold from_input, fill.
  assert (length zeros = MAXLINE) as Hzl by apply length_replicate.
  rewrite length_app, Hzl, (proj2 (Nat.leb_le _ _)) by (unfold MAXLINE in *; cbn; lia). cbn [mbind res_bind].
  unfold zeros. rewrite drop_replicate. cbn [length].
  destruct (MAXLINE - (length line + 1))%nat as [|n] eqn:E; [unfold MAXLINE in *; lia|]. cbn [replicate].
  rewrite c_string_unterminated.
  2:{ intros [H|H%list_elem_of_singleton]%elem_of_app; [done|congruence]. }
  cbn [c_string]. rewrite Z.eqb_refl. cbn [mbind res_bind]. rewrite app_nil_r, length_app. cbn [length].
  replace (Z.of_nat (length line + 1) - 1) with (Z.of_nat (length line)) by lia.
  rewrite arr_set_in by (rewrite !length_app, length_fmap, length_app; cbn; lia). cbn [mbind res_bind].
  rewrite Nat2Z.id, fmap_app, <- app_assoc. cbn [fmap list_fmap app].
  rewrite insert_app_r_alt by (by rewrite length_fmap). rewrite length_fmap, Nat.sub_diag. cbn [insert list_insert].
  rewrite c_string_unterminated by done. cbn. by rewrite app_nil_r.
Qed.

(** A line that starts with a null character, or a message of 1024 bytes without
    one, goes out of the array. *)
Lemma from_input_empty line : (length line < MAXLINE)%nat → from_input (Some (0 :: line)) = Fault.
Proof.
  intros Hl. unfold from_input, fill. cbn [length]. unfold zeros at 1.
  rewrite length_replicate, (proj2 (Nat.leb_le _ _)) by lia. reflexivity.
Qed.

Lemma from_server_full data : length data = MAXLINE → 0 ∉ data → from_server data = Fault.
Proof.
  intros Hl Hz. unfold from_server, fill. destruct data as [|c data]; [done|].
  unfold zeros. rewrite length_replicate, Hl, Nat.leb_refl. cbn [mbind res_bind].
  rewrite c_string_unterminated by done. by rewrite drop_replicate, Nat.sub_diag.
Qed.

(** ** epoll/epoll_input.c *)

(** The flags of an event that are tested, and what [close] answers. *)
Record input_event : Type := InputEvent { in_ : bool; hup_or_err : bool; close_answer : Z }.

(** The loop over the events: [s = -1] is an assignment, so that a readable
    descriptor ends the program.  [inl] is a return value. *)
Fixpoint input_events (evs : list input_event) (numOpenFds : Z) : Z + Z :=
  match evs with
  | [] => inr numOpenFds
  | e :: evs =>
      if in_ e then inl (-1)
      else if hup_or_err e then
        if close_answer e =? -1 then inl (-1) else input_events evs (numOpenFds - 1)
      else input_events evs numOpenFds
  end.

(** The loop on [epoll_wait]: [None] when it was interrupted or fails, with
    whether it was interrupted. *)
Fixpoint input_loop (batches : list (bool + list input_event)) (numOpenFds : Z) : option Z :=
  if 0 <? numOpenFds then
    match batches with
    | [] => None
    | inl interrupted :: batches => if interrupted : bool then input_loop batches numOpenFds else Some (-1)
    | inr evs :: batches =>
        match input_events evs numOpenFds with
        | inl r => Some r
        | inr n => input_loop batches n
        end
    end
  else Some 0.

(** The program succeeds only if it reads nothing. *)
Lemma input_events_success evs n m :
  input_events evs n = inr m → Forall (λ e, in_ e = false) evs.
Proof.
  revert n. induction evs as [|e evs IH]; intros n H; [done|]. cbn in H. destruct (in_ e) eqn:E; [done|].
  constructor; [done|]. destruct (hup_or_err e); [destruct (_ =? -1); [done|]|]; by eapply IH.
Qed.
