(* ===== verification/SocketPrograms.v ===== *)
(** * Blocking sockets: the programs from their first line

    [main] of the servers and clients of [Sockets]: the calls that set them up,
    whose answers are arguments, and the loops; and [epoll/conntest.c]. *)

From Stdlib Require Import String Ascii.
From S2P Require Import Prelude CppLog Sockets.
Open Scope Z_scope.

(** ** network_programming *)

(** The set-up of the two servers: [socket] and [bind], the only answers looked
    at; the return value of [main] when one of them fails. *)
Definition socket_set_up (socket_desc bind_answer : Z) : option Z :=
  if socket_desc =? -1 then Some 1 else if bind_answer <? 0 then Some 1 else None.

(** [main] of [multi_server.c] *)
Definition multi_server_main (socket_desc bind_answer : Z) (socks : list (Z * bool)) : res Z :=
  match socket_set_up socket_desc bind_answer with
  | Some r => Done r
  | None => multi_server_loop socks
  end.

(** [main] of [server.c]: what it writes after its first message, and its return
    value, which does not depend on how the connection ended. *)
Definition single_server_main (socket_desc bind_answer client_sock : Z) (received : list (list Z))
    : res (list (list Z) * Z) :=
  match socket_set_up socket_desc bind_answer with
  | Some r => Done ([], r)
  | None =>
      if client_sock <? 0 then Done ([], 1)
      else out ← single_server received; Done (out, 0)
  end.

(** [main] of [client.c]: the first message, [None] when [recv] fails, and the
    turns of its loop; what is printed of the messages received, and the return
    value. *)
Definition client_main (sock connect_answer : Z) (first : option (list Z))
    (turns : list (list Z * bool * option (list Z))) : res (list (list Z) * Z) :=
  if sock =? -1 then Done ([], 1)
  else if connect_answer <? 0 then Done ([], 1)
  else
    match first with
    | None => Done ([], 1)
    | Some data =>
        text ← receive_greeting data;
        '(out, r) ← client_loop turns (uninitialised MESSAGE);
        Done (text :: out, r)
    end.

(** The servers return without having served anybody, or run into the first
    connection's undefined behaviour. *)
Lemma multi_server_main_outcome socket_desc bind_answer socks r :
  multi_server_main socket_desc bind_answer socks = Done r →
  (r = 1 ∧ (socket_desc = -1 ∨ bind_answer < 0)) ∨ (r = 0 ∧ ∃ b socks', socks = (0, b) :: socks').
Proof.
  unfold multi_server_main, socket_set_up. intros H. destruct (socket_desc =? -1) eqn:E1; bools.
  { inv_res. left. by split; [|left]. }
  destruct (bind_answer <? 0) eqn:E2; bools; [inv_res; left; by split; [|right]|].
  right. destruct socks as [|[sock b] socks]; [done|]. destruct (decide (sock = 0)) as [->|Hne].
  - cbn in H. inv_res. eauto.
  - by rewrite multi_server_first_connection in H.
Qed.

(** [server.c] never serves a client: a run with defined behaviour has failed
    before. *)
Lemma single_server_main_outcome socket_desc bind_answer client_sock received out r :
  single_server_main socket_desc bind_answer client_sock received = Done (out, r) →
  out = [] ∧ r = 1 ∧ (socket_desc = -1 ∨ bind_answer < 0 ∨ client_sock < 0).
Proof.
  unfold single_server_main, socket_set_up. intros H. destruct (socket_desc =? -1) eqn:E1; bools; [by inv_res; auto|].
  destruct (bind_answer <? 0) eqn:E2; bools; [inv_res; auto|].
  destruct (client_sock <? 0) eqn:E3; bools; [inv_res; auto|]. by rewrite single_server_overruns in H.
Qed.

(** ** epoll/client.c *)

(** What [select] finds ready in a turn: [None] when it fails. *)
Definition selected : Type := option (option (list Z) * option (option (list Z))).

(** [send_and_recv]: what is printed of the messages received and what is sent,
    and whether it returns or ends the process. *)
Fixpoint send_and_recv (turns : list selected)
    : res (list (list Z) * list (list Z) * bool) :=
  match turns with
  | [] => Blocked
  | None :: _ => Done ([], [], false)
  | Some (conn, input) :: turns =>
      r ← select_turn conn input;
      match r with
      | Leaves p => Done (p, [], true)
      | Exits p => Done (p, [], false)
      | Goes p s => '(p', s', b) ← send_and_recv turns; Done (p ++ p', s ++ s', b)
      end
  end.

(** [main]: [None] for [EXIT_FAILURE]. *)
Definition epoll_client_main (argc connfd connect_answer : Z)
    (turns : list selected)
    : res (list (list Z) * list (list Z) * option Z) :=
  if negb (argc =? 2) then Done ([], [], None)
  else if connfd =? -1 then Done ([], [], None)
  else if connect_answer <? 0 then Done ([], [], None)
  else '(p, s, returned) ← send_and_recv turns; Done (p, s, if returned : bool then Some 0 else None).

(** A turn where only a line typed is ready. *)
Definition typed (line : list Z) : selected := Some (None, Some (Some (line ++ [10]))).

(** Lines typed one after the other, then [q]: each is sent without its newline,
    and the program ends well. *)
Lemma epoll_client_types lines connfd connect_answer :
  connfd ≠ -1 → 0 <= connect_answer →
  Forall (λ line, (0 ∉ line) ∧ (length line < MAXLINE - 1)%nat ∧ line ≠ wide "q") lines →
  epoll_client_main 2 connfd connect_answer
    ((typed <$> lines) ++ [typed (wide "q")]) =
  Done ([], lines, Some 0).
Proof.
  intros Hc Ha Hl. unfold epoll_client_main. cbn [negb Z.eqb Pos.eqb].
  rewrite (proj2 (Z.eqb_neq _ _) Hc), (proj2 (Z.ltb_ge _ _) Ha).
  assert (send_and_recv ((typed <$> lines) ++ [typed (wide "q")]) = Done ([], lines, true)) as ->; [|done].
  induction Hl as [|line lines (Hz & Hlen & Hq) _ IH]; [vm_compute; reflexivity|].
  cbn [fmap list_fmap app send_and_recv typed]. unfold select_turn at 1. cbn [mbind res_bind].
  rewrite from_input_strips_last by (done || lia). rewrite decide_False by done. cbn [mbind res_bind app].
  by rewrite IH.
Qed.

(** ** epoll/epoll_input.c *)

(** The beginning of [main]: [argv] is declared as a [char *], so that a
    character is given to [strcmp] for a string; [inl] is a return value. *)
Definition input_start (argc : Z) (epoll_create1_answer : Z) : res (Z + unit) :=
  if argc <? 2 then Done (inl (-1))
  else
    _ ← check false;
    Done (if epoll_create1_answer =? -1 then inl (-1) else inr tt).

(** The loop that opens the files, whose failures are printed only: for each
    what [open] and [epoll_ctl] answer; how many descriptors are watched, and the
    number of files, which becomes [numOpenFds]. *)
Fixpoint open_files (files : list (Z * Z)) : Z * Z :=
  match files with
  | [] => (0, 0)
  | (fd, ctl) :: files =>
      let '(watched, count) := open_files files in
      ((if (fd =? -1) || (ctl =? -1) then watched else watched + 1), count + 1)
  end.

Lemma open_files_count files : (open_files files).2 = Z.of_nat (length files).
Proof.
  induction files as [|[fd ctl] files IH]; cbn; [done|]. destruct (open_files files) as [w n]. cbn in *. lia.
Qed.

(** The events that close a descriptor. *)
Definition closings (batches : list (bool + list input_event)) : Z :=
  Z.of_nat (length (filter (λ e, hup_or_err e = true) (batches ≫= λ b, match b with inl _ => [] | inr evs => evs end))).

Lemma input_events_closings evs n m :
  input_events evs n = inr m → n - m = Z.of_nat (length (filter (λ e, hup_or_err e = true) evs)).
Proof.
  revert n. induction evs as [|e evs IH]; intros n H; cbn in H; [injection H as ->; cbn; lia|].
  destruct (in_ e); [done|]. destruct (hup_or_err e) eqn:He.
  - rewrite filter_cons_True by done. cbn [length]. destruct (close_answer e =? -1); [done|]. specialize (IH _ H). lia.
  - rewrite filter_cons_False by congruence. by apply IH.
Qed.

(** The program ends well only after as many closings as there were files: with
    a file that could not be opened or watched, which no event reports, it never
    does. *)
Lemma input_loop_closings batches n :
  input_loop batches n = Some 0 → n <= closings batches.
Proof.
  revert n. induction batches as [|[[]|evs] batches IH]; intros n H; cbn in H;
    destruct (0 <? n) eqn:E; bools; try done; unfold closings in *; try lia.
  - by apply IH.
  - destruct (input_events evs n) as [r|m] eqn:Ev; [|].
    + exfalso. injection H as ->. clear -Ev. revert n Ev. induction evs as [|e evs IH]; intros n H; cbn in H; [done|].
      destruct (in_ e); [done|]. destruct (hup_or_err e); [destruct (_ =? -1); [done|]|]; by eapply IH.
    + specialize (IH _ H). apply input_events_closings in Ev. rewrite bind_cons, filter_app, length_app. lia.
Qed.

(** ** epoll/conntest.c *)

(** The answers of [socket], [connect] and [getsockname] in each iteration; how
    many connections have been counted when the program ends with a failure.
    The sockets are not closed. *)
Fixpoint conntest (answers : list (Z * Z * Z)) (count : Z) : res Z :=
  match answers with
  | [] => Blocked
  | (sock, conn, name) :: answers =>
      if sock <? 0 then Done count
      else if conn <? 0 then Done count
      else if name <? 0 then Done count
      else count' ← int_of (count + 1); conntest answers count'
  end.

(** It counts the connections that succeeded before the first failure. *)
Lemma conntest_counts good bad answers :
  Forall (λ a, 0 <= a.1.1 ∧ 0 <= a.1.2 ∧ 0 <= a.2) good → bad.1.1 < 0 ∨ bad.1.2 < 0 ∨ bad.2 < 0 →
  Z.of_nat (length good) <= INT_MAX → conntest (good ++ bad :: answers) 0 = Done (Z.of_nat (length good)).
Proof.
  intros Hg Hb Hn.
  assert (∀ k, 0 <= k → k + Z.of_nat (length good) <= INT_MAX →
            conntest (good ++ bad :: answers) k = Done (k + Z.of_nat (length good))) as H; [|by apply (H 0)].
  clear Hn. induction Hg as [|[[s c] n] good (Hs & Hc & Hnm) _ IH]; intros k Hk Hm; cbn in *.
  - destruct bad as [[s c] n]. cbn in *. rewrite Z.add_0_r.
    destruct (s <? 0) eqn:E1; [done|]. destruct (c <? 0) eqn:E2; [done|]. destruct (n <? 0) eqn:E3; [done|]. bools. lia.
  - rewrite !(proj2 (Z.ltb_ge _ _)) by done. rewrite int_of_fits by (unfold INT_MIN in *; lia).
    cbn [mbind res_bind]. rewrite IH by lia. f_equal. lia.
Qed.
