(* ===== verification/Exercises.v ===== *)
(** * Exercises on libevent and valgrind

    The clients of [libevent_study]: the callbacks they share, and the two
    [main]; and the program of [valgrind].  What libevent answers is an argument;
    its buffers are those of [EchoServer]. *)

From Stdlib Require Import String Ascii.
From S2P Require Import Prelude CppLog Sockets EchoServer.
Open Scope Z_scope.

(** ** libevent_study: the callbacks *)

Section callbacks.
Context {B : Type} `{EvBuffer B}.

(** [buff_input_cb], with its array of 4096 characters: the text it prints.
    [ready] is false when [evbuffer_remove] fails and answers -1. *)
Definition buff_input_cb (ready : bool) (input : B) : res (list Z) :=
  let buf := uninitialised 4096 in
  if ready then
    let (data, _) := evbuffer_remove input 4096 in
    b ← fill data buf;
    b1 ← arr_set b (Z.of_nat (length data)) (Some 0);
    c_string b1
  else
    b1 ← arr_set buf (-1) (Some 0);
    c_string b1.

Lemma c_string_after data b : c_string ((Some <$> data) ++ Some 0 :: b) = Done (c_str data).
Proof.
  induction data as [|c data IH]; [done|]. cbn [fmap list_fmap app c_string c_str].
  destruct (c =? 0); [done|]. by rewrite IH.
Qed.

(** A text stored in an array of [n] characters and terminated there. *)
Lemma terminated_text n data :
  (length data <= n)%nat →
  (b ← fill data (uninitialised n); b1 ← arr_set b (Z.of_nat (length data)) (Some 0); c_string b1) =
    if (length data <? n)%nat then Done (c_str data) else Fault.
Proof.
  intros Hl. unfold fill, uninitialised. rewrite length_replicate, (proj2 (Nat.leb_le _ _)) by done. cbn [mbind res_bind].
  unfold arr_set. rewrite length_app, length_fmap, length_drop, length_replicate, (proj2 (Z.leb_le _ _)) by lia. cbn [andb].
  destruct (Nat.ltb_spec (length data) n) as [E|E].
  - rewrite (proj2 (Z.ltb_lt _ _)) by lia. cbn [mbind res_bind].
    rewrite Nat2Z.id, insert_app_r_alt by (by rewrite length_fmap). rewrite length_fmap, Nat.sub_diag, drop_replicate.
    destruct (n - length data)%nat as [|m] eqn:Em; [lia|]. apply c_string_after.
  - by rewrite (proj2 (Z.ltb_ge _ _)) by lia.
Qed.

(** The callback prints the text received when it is shorter than its array; a
    full one is terminated past its end, and so is nothing at all before its
    beginning when the buffer cannot be read. *)
Lemma buff_input_cb_outcome ready input :
  buff_input_cb ready input =
    if ready && (length (contents input) <? 4096)%nat then Done (c_str (contents input)) else Fault.
Proof.
  unfold buff_input_cb. destruct ready; [|done]. cbn [andb].
  destruct (remove_law input 4096 ltac:(lia)) as [Hd _].
  destruct (evbuffer_remove input 4096) as [data input']. cbn [fst] in Hd.
  assert (Z.to_nat 4096 = 4096%nat) as E by done. rewrite E in Hd. revert Hd. clear E. generalize 4096%nat. intros n ->.
  rewrite terminated_text, length_take by (rewrite length_take; lia).
  destruct (Nat.ltb_spec (length (contents input)) n).
  - by rewrite take_ge, (proj2 (Nat.ltb_lt _ _)) by lia.
  - by rewrite (proj2 (Nat.ltb_ge _ _)) by lia.
Qed.
End callbacks.

(** [buff_ev_cb]; the flags are those of libevent. *)
Definition buff_ev_cb (BEV_EVENT_CONNECTED BEV_EVENT_ERROR events : Z) : list Z :=
  if negb (Z.land events BEV_EVENT_CONNECTED =? 0) then wide "Server is connected!" ++ [10]
  else if negb (Z.land events BEV_EVENT_ERROR =? 0) then wide "Connect server error!" ++ [10]
  else [].

(** ** libevent_study: the programs *)

Definition NUMCONNECT : nat := 1000.

(** The loop of [main] in [libevent1.c] over [i]: the buffers libevent gives, of
    which none is tested before it is used. *)
Fixpoint connect_all (i : nat) (news : list (option nat)) (bev : list (option nat)) : res (list (option nat)) :=
  if (i <? NUMCONNECT - 1)%nat then
    match news with
    | [] => Blocked
    | new :: news =>
        match new with
        | None => Fault
        | Some b => bev1 ← arr_set bev (Z.of_nat i) (Some b); connect_all (S i) news bev1
        end
    end
  else Done bev.

(** [main] up to the event loop, after which it never ends. *)
Definition libevent1_main (news : list (option nat)) : res (list (option nat)) :=
  connect_all 0 news (replicate NUMCONNECT None).

(** The loop stops one short: the last place of the array is never used. *)
Lemma libevent1_main_outcome news bev :
  libevent1_main news = Done bev → bev = (Some <$> take 999 (omap id news)) ++ [None] ∧ length bev = NUMCONNECT.
Proof.
  unfold libevent1_main.
  assert (∀ k i news pre bev, length pre = i → (i + k = 999)%nat →
    connect_all i news ((Some <$> pre) ++ replicate (S k) None) = Done bev →
    bev = (Some <$> pre ++ take k (omap id news)) ++ [None] ∧ length bev = NUMCONNECT) as H.
  { clear. induction k as [|k IH]; intros i news pre bev Hl Hi H.
    - assert (i = 999%nat) as -> by lia. destruct news; cbn in H; injection H as <-; rewrite app_nil_r;
        rewrite length_app, length_fmap, Hl; done.
    - destruct news as [|[b|] news]; cbn [connect_all] in H; rewrite (proj2 (Nat.ltb_lt _ _)) in H by (unfold NUMCONNECT; lia); [done| |done].
      rewrite arr_set_in in H by (rewrite length_app, length_fmap, length_replicate; lia). cbn [mbind res_bind] in H.
      rewrite Nat2Z.id, insert_app_r_alt in H by (rewrite length_fmap; lia). rewrite length_fmap, Hl, Nat.sub_diag in H.
      cbn [replicate insert list_insert] in H.
      destruct (IH (S i) news (pre ++ [b]) bev) as [E Hlen]; [rewrite length_app; cbn; lia|lia| |].
      { by rewrite fmap_app, <- app_assoc. }
      split; [|done]. rewrite E. by rewrite <- app_assoc. }
  intros Hm. by apply (H 999%nat 0%nat news [] bev).
Qed.

(** [main] in [test.c]: what the calls answer; whether the event loop is reached,
    and the return value. *)
Definition test_main (inet_pton_answer : Z) (base event : option nat) (connect_answer : Z) : bool * Z :=
  if inet_pton_answer <=? 0 then (false, 1)
  else
    match base, event with
    | None, _ => (false, 1)
    | Some _, None => (false, 1)
    | Some _, Some _ => if connect_answer <? 0 then (false, 1) else (true, 0)
    end.

Lemma test_main_runs i b e c : (test_main i b e c).1 = true ↔ 0 < i ∧ is_Some b ∧ is_Some e ∧ 0 <= c.
Proof.
  unfold test_main. destruct (i <=? 0) eqn:Ei, b, e, (c <? 0) eqn:Ec; bools; cbn; split; try done;
    try (intros _; split_and!; eauto; lia); intros (? & [? ?] & [? ?] & ?); done || lia.
Qed.

(** ** valgrind/sample.c *)

(** [fun]: the array of ten integers, which is never freed, is written at 10. *)
Definition sample_fun (granted : bool) : res (list (option Z)) :=
  if malloc_succeeds granted (size_mul 10 4) then arr_set (replicate 10 None) 10 (Some 0) else Fault.

Lemma sample_fun_faults granted : sample_fun granted = Fault.
Proof. by destruct granted. Qed.
